(* ===== verification/_CoqProject ===== *)
-Q . S2P
Prelude.v
Utf8.v
Errors.v
Floats.v
Frame.v
Stream.v
StreamCtl.v
StreamRecv.v
StreamSend.v
StreamProps.v
Clock.v
Dedupe.v
Mailbox.v
Json.v
JsonCodec.v
JsonAny.v
Signal.v
Strings.v
Envelope.v
Config.v
Conn.v
Metrics.v
Pionx.v
Session.v
SessionInv.v
SessionRun.v
SessionProps.v
SessionSlots.v
Endpoint.v
EndpointInv.v
EndpointProps.v
System.v
SystemProps.v
SsePeer.v
SseServer.v
SseAuth.v
SseServerProps.v
SseMux.v
SseRefine.v
SseTypes.v
SseClient.v
SseWire.v
SseLink.v
SseEndToEnd.v
SseMuxClient.v
SseMuxProps.v
Signaling.v
Conformance.v
Memory.v
MemoryProps.v
MemorySignaler.v
ConformanceProps.v
ConformanceRaces.v
ConformanceFlow.v
ConformanceSuite.v
Relay.v
RelayServer.v
RelayProps.v
