(* ===== verification/Prelude.v ===== *)
(** * Verification of the ella.to/pipe library

    [pipe] turns a WebRTC DataChannel into a [net.Conn]. An [Endpoint] (endpoint.go)
    exchanges signals through a signaling service, a [session] (session.go) negotiates one
    peer connection through the Pion adapter (internal/pionx), and once the DataChannel is
    open a [frame.Stream] (internal/frame) carries a byte stream over its messages, which a
    [Conn] (conn.go) presents to the application.

    ** Parts

    - [Prelude]: fixed-width integers, bytes, big-endian coding, results, the state monad
      with its weakest preconditions, record update.
    - [Utf8]: UTF-8 as the Go standard library decodes it.
    - [Errors]: error trees with [errors.Is] and [net.Error] (errors.go, addr.go).
    - [Frame]: the frame codec (internal/frame/frame.go), byte for byte.
    - [Stream]: internal/frame/stream.go. The record [stream] has the struct's fields, with
      the pooled buffers on a heap ([heap], [free]) so that aliasing is visible. Every
      method and goroutine is cut into the segments between its synchronisation points;
      [exec] runs one segment, [reachable] is every interleaving. What the channel returned
      is an argument of the segment that called it. [StreamCtl] (control state),
      [StreamRecv] (receive side) and [StreamSend] (send side) hold the invariants,
      [StreamProps] the theorems.
    - [Dedupe]: the duplicate filter (dedupe.go) with the interface [DupFilter] its client
      relies on.
    - [Mailbox]: the bounded event queue of a session (mailbox.go).
    - [Json], [JsonCodec]: the part of encoding/json the payloads use, and its round trips.
    - [Signal]: signaling.go, signal_payload.go, signal_validate.go.
    - [Envelope]: the JSON of a whole [Signal] on the wire, as encoding/json writes and
      reads the struct.
    - [Floats], [Strings]: the parts of float64 arithmetic and of package strings the code
      uses.
    - [Config]: config.go.
    - [Conn], [Metrics]: conn.go, stats.go, metrics.go.
    - [Pionx]: internal/pionx/pionx.go over an abstract pion/webrtc, the class [WebRTC];
      the class [PeerConn] is what the session needs of it.

    - [Session]: session.go. Every handler of the negotiation loop over the peer
      connection [PeerConn] and the endpoint's services, the class [Env]; [session_step] is
      a goroutine's next step, [sside] what runs beside the loop (probes, streams, posted
      events). [SessionInv] has the invariant, [SessionRun] the runs, [SessionProps] the
      theorems, [SessionSlots] what a session does to the endpoint through [Env].
    - [Endpoint]: endpoint.go, listener.go and dial.go. Signaling, the clock and the random
      source are the class [World]; what the endpoint does beyond its own state is its
      [log]. [EndpointInv] has the exact accounting of backlog slots and makes the endpoint
      an [Env]; [EndpointProps] has the theorems about one endpoint.
    - [System]: the endpoint with the sessions it started, with every interleaving of
      the receive loop, the sessions, the application and the two [Close]s; [SystemProps]
      has the theorems.

    - [SsePeer]: one peer of the signaling server (signaling/sse/server.go): queue, replay
      log, attachment and expiry, with the runs of its critical sections ([preach]).
    - [SseServer]: the server itself with the multiplexed streams (mux_server.go). Handlers
      are computations over peers, streams and attachments on heaps; [SseServerProps] has
      the theorem about sending, [SseMux] the agreement of streams and peers and the
      interleavings that break it. [SseRefine] cuts the handlers into the parts that run
      without interference and projects their interleavings to the peers; [SseTypes]
      types the references between its objects and shows that all of them stay good.
    - [SseAuth]: auth.go. [SseWire]: the events as the server writes them.
    - [SseClient]: client.go. [conn] is a connection with its stream goroutine;
      [run_step] takes the goroutine to its next blocking point, what the transport
      answered is its input. [SseLink] joins one peer of the server to one such client by
      the streams the client opens. [SseEndToEnd] puts the server's handler in place of the
      network under the client's [Send].
    - [SseMuxClient]: mux.go. [mstep] is the goroutine that connects, joins and serves,
      [rstep] the reader, the other operations of [xexec] the application's; [SseMuxProps]
      has the invariant and the theorem.
    - [Memory]: signaling/memory/memory.go, the in-process hub with its fault injectors;
      [MemoryProps] runs its calls in any interleaving.
    - [Signaling]: the interface of a transport (signaling.go), the class [Signaler], and
      programs over it and the runtime as interaction trees. A [world] is such a program in
      progress: goroutines, contexts, channels, timers; [moves] has a next state for every
      goroutine and every ready case of its [select]s. The clock moves, to the next timer,
      when every goroutine is blocked. [Conformance]: every subtest of
      signaling/signalertest over that interface, [JsonAny] the comparison of payloads.
      [MemorySignaler] makes the hub a transport; [ConformanceProps] has the rules for
      one goroutine against it, [ConformanceRaces] and [ConformanceFlow] the subtests with
      several, [ConformanceSuite] the theorem.
    - [Clock]: the fake clock of internal/clock/clock.go.
    - [Relay]: relay/relay.go over the classes [Turn] and [Limiter]; [RelayProps] runs it
      inside a TURN server with several requests in flight. [RelayServer]: starting and
      closing it, over the sockets it holds and the class [Net].

    ** What the theorems show

    - Data: what one side's [Write] calls sent is, after any scheduling of both sides, what
      the other side's [Read] calls were given, a prefix while it is in flight and all of
      it in the end; reads fail only after everything was delivered; writes are contiguous;
      memory is bounded; closing happens once, refuses writes and, at a peer's close, keeps
      received data readable.
    - Wire formats: the frame parser accepts exactly the frames, the validator exactly the
      signals of the protocol, and what is built or encoded is accepted and decoded back.
    - The duplicate filter has no false positives and a window of half its size; the
      mailbox loses nothing it accepted and no wake-up.
    - A session never waits without a timer armed, releases its resources exactly once,
      answers a dial exactly once, applies remote candidates in the order they came, and
      orders restarts by generation.
    - The endpoint hands a signal to the live session of its ID and peer and to no other,
      at most once; its backlog is exactly accounted for and never overflows; the session
      table is exactly the live sessions; a dial's outcome and its label agree, and a late
      connection is not leaked.
    - The signaling server delivers to a stream a gap-free run of what it accepted, from
      the resume point on, keeps its memory bounded, accepts exactly the authenticated
      sender's valid signals, refines its peers in every interleaving, and its streams and peers agree on who is attached where.
    - No reference of the signaling server dangles, in any interleaving of its handlers.
      [Send] tells its caller truly whether the server queued the signal, and the recipient's
      application gets that signal as it was built.
    - A client and the server agree across reconnections: the application receives exactly
      what the server accepted, in order, once, unless the replay depth was outrun.
    - The multiplexing client serves every peer opened on it: one that is registered is
      joined, or will be, or has a terminal error, and no wake-up is lost.
    - The in-process hub delivers what a registered sender sent to the registered
      destination, in order, once; its fault injectors do what their comments say on one
      pair of peers. The fake clock does not mind in how many steps time passes.
    - Every subtest of the conformance suite passes against the hub on every schedule, with
      any queue size; hubs that lose, repeat or misconfigure are judged as the examples show.
    - The relay's statistics are true and its quotas hold up to the requests in flight; it
      starts with all its sockets or none, and its URLs suit the endpoint's configuration.
    - Errors reach the application in a promised category; configurations are normalised
      into the documented ranges; at most one channel, which meets the contract, is adopted
      from a peer.

    ** Bounds and fuel

    Recursions that are not structural take fuel computed from their input and a lemma
    shows it suffices: UTF-8 decoding the length of the string, the JSON parser
    [json_fuel], the decimal printer the 20 digits of a [uint64]. Durations are
    nanoseconds in [Z].

    ** Not modelled

    Log output; the text of error messages (an error keeps its format string); the Go
    scheduler's fairness. The transport of an event stream (the pusher and its deadlines)
    and the parser of event streams, which is a dependency. The table of printable runes
    of strconv.Quote and strconv's decimal floating point are parameters. The system
    clock. The options for Pion (setters of hooks), the example programs and the package
    tests. Of the conformance suite: t.Helper, the
    race detector, the messages of failures, and the deferred cancel functions, whose
    contexts nobody uses any more. *)

From Stdlib Require Export ZArith Lia Ascii.
From Stdlib Require String.
From stdpp Require Export base tactics option gmap strings numbers.
From stdpp Require Export list_relations list_monad list_misc list_tactics list.

#[global] Open Scope Z_scope.

(** ** Integers of a fixed width

    A Go value of type [uintN] is a [Z] in [0, 2^N); a conversion or an
    arithmetic operation of that type is followed by the wrap-around. *)

Definition u8 (z : Z) : Z := z mod 2 ^ 8.
Definition u16 (z : Z) : Z := z mod 2 ^ 16.
Definition u32 (z : Z) : Z := z mod 2 ^ 32.
Definition u64 (z : Z) : Z := z mod 2 ^ 64.

Lemma u16_small z : 0 <= z < 2 ^ 16 -> u16 z = z.
Proof. apply Z.mod_small. Qed.

Lemma u32_small z : 0 <= z < 2 ^ 32 -> u32 z = z.
Proof. apply Z.mod_small. Qed.

Lemma u64_small z : 0 <= z < 2 ^ 64 -> u64 z = z.
Proof. apply Z.mod_small. Qed.

(** ** Bytes

    A Go [byte] is an [ascii] (eight booleans), a [[]byte] is a list of them,
    and a Go [string], which is a byte sequence, is a [string]. *)

Abbreviation byte := ascii (only parsing).
Abbreviation bytes := (list ascii) (only parsing).

(** The numeric value of a byte, and Go's conversion [byte(z)]. *)
Definition byte_val (b : byte) : Z := Z.of_N (N_of_ascii b).
Definition byte_of (z : Z) : byte := ascii_of_N (Z.to_N (u8 z)).

(** [len(x)] as a Go [int]. *)
Definition zlen {A} (l : list A) : Z := Z.of_nat (length l).
Definition slen (s : string) : Z := Z.of_nat (String.length s).

(** [[]byte(s)] and [string(b)]. *)
Abbreviation to_bytes := String.list_ascii_of_string (only parsing).
Abbreviation of_bytes := String.string_of_list_ascii (only parsing).

Create HintDb pipe.
Create Rewrite HintDb pipe.

Lemma byte_val_bound b : 0 <= byte_val b < 256.
Proof. unfold byte_val. pose proof (N_ascii_bounded b). lia. Qed.

Lemma byte_of_val b : byte_of (byte_val b) = b.
Proof.
  unfold byte_of, u8. pose proof (byte_val_bound b) as Hb.
  rewrite Z.mod_small by (simpl; lia).
  unfold byte_val. rewrite N2Z.id. apply ascii_N_embedding.
Qed.

Lemma byte_val_of z : byte_val (byte_of z) = u8 z.
Proof.
  unfold byte_of, byte_val, u8.
  assert (0 <= z mod 2 ^ 8 < 256) by (apply Z.mod_pos_bound; lia).
  rewrite N_ascii_embedding by lia. lia.
Qed.

#[global] Instance byte_val_inj : Inj (=) (=) byte_val.
Proof. intros a b H. rewrite <- (byte_of_val a), <- (byte_of_val b). by f_equal. Qed.

#[export] Hint Rewrite byte_of_val byte_val_of : pipe.

Lemma zlen_nonneg {A} (l : list A) : 0 <= zlen l.
Proof. unfold zlen. lia. Qed.
#[export] Hint Resolve zlen_nonneg byte_val_bound : pipe.

Lemma zlen_app {A} (l k : list A) : zlen (l ++ k) = zlen l + zlen k.
Proof. unfold zlen. rewrite length_app. lia. Qed.

Lemma zlen_cons {A} (x : A) l : zlen (x :: l) = 1 + zlen l.
Proof. unfold zlen. simpl. lia. Qed.

Lemma zlen_nil {A} : zlen (@nil A) = 0.
Proof. reflexivity. Qed.
#[export] Hint Rewrite @zlen_app @zlen_cons @zlen_nil : pipe.

Lemma slen_bytes s : slen s = zlen (to_bytes s).
Proof. unfold slen, zlen. induction s; simpl; lia. Qed.

(** ** Big-endian integers ([encoding/binary.BigEndian]) *)

Definition be16_put (v : Z) : bytes :=
  [byte_of (Z.shiftr v 8); byte_of v].

Definition be16_get (b0 b1 : byte) : Z :=
  Z.lor (byte_val b1) (Z.shiftl (byte_val b0) 8).

Definition be32_put (v : Z) : bytes :=
  [byte_of (Z.shiftr v 24); byte_of (Z.shiftr v 16);
   byte_of (Z.shiftr v 8); byte_of v].

Definition be32_get (b0 b1 b2 b3 : byte) : Z :=
  Z.lor (byte_val b3) (Z.lor (Z.shiftl (byte_val b2) 8)
    (Z.lor (Z.shiftl (byte_val b1) 16) (Z.shiftl (byte_val b0) 24))).

(** Disjoint bits add. *)
Lemma lor_shift_add a b n :
  0 <= n -> 0 <= a < 2 ^ n -> Z.lor a (Z.shiftl b n) = a + b * 2 ^ n.
Proof.
  intros Hn Ha. rewrite Z.shiftl_mul_pow2 by done.
  rewrite Z.add_nocarry_lxor; [symmetry; apply Z.lxor_lor|].
  all: apply Z.bits_inj'; intros i Hi; rewrite Z.land_spec, Z.bits_0;
    destruct (Z.lt_ge_cases i n).
  1,3: rewrite Z.mul_pow2_bits_low by lia; apply andb_false_r.
  all: destruct (Z.eq_dec a 0) as [->|]; [by rewrite Z.bits_0|].
  all: rewrite (Z.bits_above_log2 a); [done|lia|].
  all: apply Z.log2_lt_pow2; [lia|].
  all: apply Z.lt_le_trans with (2 ^ n); [lia|apply Z.pow_le_mono_r; lia].
Qed.

Lemma be16_get_arith b0 b1 :
  be16_get b0 b1 = byte_val b0 * 256 + byte_val b1.
Proof.
  unfold be16_get. pose proof (byte_val_bound b1).
  rewrite lor_shift_add; simpl; lia.
Qed.

Lemma be32_get_arith b0 b1 b2 b3 :
  be32_get b0 b1 b2 b3 =
  ((byte_val b0 * 256 + byte_val b1) * 256 + byte_val b2) * 256 + byte_val b3.
Proof.
  unfold be32_get. pose proof (byte_val_bound b0). pose proof (byte_val_bound b1).
  pose proof (byte_val_bound b2). pose proof (byte_val_bound b3).
  replace (Z.shiftl (byte_val b0) 24) with (Z.shiftl (Z.shiftl (byte_val b0) 8) 16)
    by (rewrite Z.shiftl_shiftl; [done|lia]).
  rewrite <- Z.shiftl_lor.
  replace (Z.shiftl (Z.lor (byte_val b1) (Z.shiftl (byte_val b0) 8)) 16) with
    (Z.shiftl (Z.shiftl (Z.lor (byte_val b1) (Z.shiftl (byte_val b0) 8)) 8) 8)
    by (rewrite Z.shiftl_shiftl; [done|lia]).
  rewrite <- Z.shiftl_lor.
  rewrite !lor_shift_add; simpl; try lia.
Qed.

Ltac byte_arith :=
  rewrite ?byte_val_of; unfold u8; rewrite ?Z.shiftr_div_pow2 by lia;
  simpl Z.pow; Z.div_mod_to_equations; lia.

Lemma be16_put_get v :
  0 <= v < 2 ^ 16 ->
  be16_get (byte_of (Z.shiftr v 8)) (byte_of v) = v.
Proof. intros Hv. rewrite be16_get_arith. simpl Z.pow in Hv. byte_arith. Qed.

Lemma be32_put_get v :
  0 <= v < 2 ^ 32 ->
  be32_get (byte_of (Z.shiftr v 24)) (byte_of (Z.shiftr v 16))
    (byte_of (Z.shiftr v 8)) (byte_of v) = v.
Proof. intros Hv. rewrite be32_get_arith. simpl Z.pow in Hv. byte_arith. Qed.

Lemma be16_get_bound b0 b1 : 0 <= be16_get b0 b1 < 2 ^ 16.
Proof.
  rewrite be16_get_arith. pose proof (byte_val_bound b0).
  pose proof (byte_val_bound b1). simpl. lia.
Qed.

Lemma be32_get_bound b0 b1 b2 b3 : 0 <= be32_get b0 b1 b2 b3 < 2 ^ 32.
Proof.
  rewrite be32_get_arith. pose proof (byte_val_bound b0). pose proof (byte_val_bound b1).
  pose proof (byte_val_bound b2). pose proof (byte_val_bound b3). simpl. lia.
Qed.
#[export] Hint Resolve be16_get_bound be32_get_bound : pipe.

Lemma be16_get_put b0 b1 : be16_put (be16_get b0 b1) = [b0; b1].
Proof.
  unfold be16_put. rewrite be16_get_arith.
  pose proof (byte_val_bound b0). pose proof (byte_val_bound b1).
  f_equal; [|f_equal]; apply (inj byte_val); byte_arith.
Qed.

Lemma be32_get_put b0 b1 b2 b3 : be32_put (be32_get b0 b1 b2 b3) = [b0; b1; b2; b3].
Proof.
  unfold be32_put. rewrite be32_get_arith.
  pose proof (byte_val_bound b0). pose proof (byte_val_bound b1).
  pose proof (byte_val_bound b2). pose proof (byte_val_bound b3).
  repeat f_equal; apply (inj byte_val); byte_arith.
Qed.

(** ** Results and errors as values *)

Inductive result (E A : Type) : Type :=
| Ok (a : A)
| Err (e : E).
Arguments Ok {E A} _.
Arguments Err {E A} _.

Definition is_ok {E A} (r : result E A) : bool :=
  match r with Ok _ => true | Err _ => false end.

(** ** The state monad of the stateful components *)

Definition state_m (S A : Type) : Type := S -> A * S.

#[global] Instance state_m_ret {S} : MRet (state_m S) := fun A a s => (a, s).
#[global] Instance state_m_bind {S} : MBind (state_m S) :=
  fun A B k m s => let '(a, s') := m s in k a s'.

Definition get_s {S} : state_m S S := fun s => (s, s).
Definition put_s {S} (s : S) : state_m S unit := fun _ => (tt, s).
Definition modify {S} (f : S -> S) : state_m S unit := fun s => (tt, f s).
Definition gets {S A} (f : S -> A) : state_m S A := fun s => (f s, s).

(** The weakest precondition of a computation, and its rules. *)
Definition wp {S A} (m : state_m S A) (Q : A -> S -> Prop) (s : S) : Prop :=
  Q (fst (m s)) (snd (m s)).

Section wp.
Context {S : Type}.
Implicit Types s : S.

Lemma wp_bind {A B} (m : state_m S A) (k : A -> state_m S B) Q s :
  wp m (fun a => wp (k a) Q) s -> wp (m ≫= k) Q s.
Proof. unfold wp, mbind, state_m_bind. by destruct (m s). Qed.

Lemma wp_ret {A} (a : A) Q s : Q a s -> wp (mret a) Q s.
Proof. done. Qed.
Lemma wp_modify (f : S -> S) Q s : Q tt (f s) -> wp (modify f) Q s.
Proof. done. Qed.
Lemma wp_get (Q : S -> S -> Prop) s : Q s s -> wp get_s Q s.
Proof. done. Qed.
Lemma wp_gets {A} (f : S -> A) Q s : Q (f s) s -> wp (gets f) Q s.
Proof. done. Qed.
Lemma wp_mono {A} (m : state_m S A) (Q R : A -> S -> Prop) s :
  wp m Q s -> (forall a s', Q a s' -> R a s') -> wp m R s.
Proof. unfold wp. auto. Qed.
Lemma wp_elim {A} (m : state_m S A) Q s : wp m Q s -> Q (fst (m s)) (snd (m s)).
Proof. done. Qed.
End wp.

(** ** Record update

    [r <| f := v |>] is the record [r] with field [f] replaced, and [f ::= g]
    applies [g] to it. A record type declares its eta expansion as an instance of
    [Eta]; the setter of a field is found by abstracting that field in it. *)

Class Eta (R : Type) := eta : R -> R.

Class Setter {R E : Type} (f : R -> E) := setter : (E -> E) -> R -> R.
#[global] Hint Mode Setter - - ! : typeclass_instances.
Arguments setter {R E} f {Setter} g r / : rename.
Arguments eta {R Eta} r / : rename.

Ltac find_setter :=
  match goal with
  | |- @Setter ?R ?E ?f =>
    let e := constr:(_ : Eta R) in
    let body := constr:(fun r : R => ltac:(
      let x := eval hnf in (e r) in
      let y := eval pattern (f r) in x in
      match y with ?g _ => exact g end)) in
    let body := eval cbv beta in body in
    exact (fun (g : E -> E) (r : R) => body r (g (f r)))
  end.
#[export] Hint Extern 1 (Setter _) => find_setter : typeclass_instances.

Notation "r <| f := v |>" := (setter f (fun _ => v) r)
  (at level 12, f at next level, left associativity, format "r  <| f  :=  v |>").
Notation "r <| f ::= g |>" := (setter f g r)
  (at level 12, f at next level, left associativity, format "r  <| f  ::=  g |>").
