(* ===== verification/Utf8.v ===== *)
(** * UTF-8, as Go's [unicode/utf8] decodes it

    The frame codec and the signal validator reject byte sequences that are
    not valid UTF-8, and the validator ranges over the runes of a string.
    [decode_rune] is [utf8.DecodeRune], [valid] is [utf8.Valid], [runes] is the
    sequence of (byte offset, rune) pairs of a [for i, r := range s] loop. *)

From S2P Require Import Prelude.

(** [utf8.RuneError], what an invalid byte decodes to. *)
Definition rune_error : Z := 0xFFFD.

(** A continuation byte within an accept range. *)
Definition in_range (lo hi : Z) (b : byte) : bool :=
  (lo <=? byte_val b) && (byte_val b <=? hi).

Definition is_cont (b : byte) : bool := in_range 0x80 0xBF b.

Definition low6 (b : byte) : Z := byte_val b mod 64.

(** The table of first bytes: the number of bytes of the encoding and the
    range of its second byte; [None] for a byte that starts no rune. *)
Definition first_info (b : byte) : option (nat * Z * Z) :=
  let v := byte_val b in
  if v <? 0x80 then Some (1%nat, 0, 0)
  else if v <? 0xC2 then None
  else if v <? 0xE0 then Some (2%nat, 0x80, 0xBF)
  else if v =? 0xE0 then Some (3%nat, 0xA0, 0xBF)
  else if v =? 0xED then Some (3%nat, 0x80, 0x9F)
  else if v <? 0xF0 then Some (3%nat, 0x80, 0xBF)
  else if v =? 0xF0 then Some (4%nat, 0x90, 0xBF)
  else if v <? 0xF4 then Some (4%nat, 0x80, 0xBF)
  else if v =? 0xF4 then Some (4%nat, 0x80, 0x8F)
  else None.

(** The rune at the head of a byte sequence and its width; [None] where
    [utf8.DecodeRune] returns [(RuneError, 1)]. *)
Definition decode_rune (s : bytes) : option (Z * nat) :=
  match s with
  | [] => None
  | b0 :: rest =>
    match first_info b0 with
    | None => None
    | Some (1%nat, _, _) => Some (byte_val b0, 1%nat)
    | Some (2%nat, lo, hi) =>
      match rest with
      | b1 :: _ =>
        if in_range lo hi b1 then Some ((byte_val b0 mod 32) * 64 + low6 b1, 2%nat)
        else None
      | _ => None
      end
    | Some (3%nat, lo, hi) =>
      match rest with
      | b1 :: b2 :: _ =>
        if in_range lo hi b1 && is_cont b2
        then Some (((byte_val b0 mod 16) * 64 + low6 b1) * 64 + low6 b2, 3%nat)
        else None
      | _ => None
      end
    | Some (_, lo, hi) =>
      match rest with
      | b1 :: b2 :: b3 :: _ =>
        if in_range lo hi b1 && is_cont b2 && is_cont b3
        then Some ((((byte_val b0 mod 8) * 64 + low6 b1) * 64 + low6 b2) * 64 + low6 b3,
                   4%nat)
        else None
      | _ => None
      end
    end
  end.

(** Fuel [length s] suffices: every rune takes at least one byte. *)
Fixpoint valid_fuel (fuel : nat) (s : bytes) : bool :=
  match s, fuel with
  | [], _ => true
  | _, O => false
  | _, S fuel' =>
    match decode_rune s with
    | None => false
    | Some (_, n) => valid_fuel fuel' (drop n s)
    end
  end.

Definition valid (s : bytes) : bool := valid_fuel (length s) s.

(** The pairs of [for i, r := range s]: an invalid byte yields [RuneError] and
    advances by one. *)
Fixpoint runes_fuel (fuel : nat) (i : Z) (s : bytes) : list (Z * Z) :=
  match s, fuel with
  | [], _ => []
  | _, O => []
  | _, S fuel' =>
    match decode_rune s with
    | None => (i, rune_error) :: runes_fuel fuel' (i + 1) (drop 1 s)
    | Some (r, n) => (i, r) :: runes_fuel fuel' (i + Z.of_nat n) (drop n s)
    end
  end.

Definition runes (s : bytes) : list (Z * Z) := runes_fuel (length s) 0 s.

(** ** Lemmas *)

Lemma decode_rune_width s r n :
  decode_rune s = Some (r, n) -> (1 <= n <= 4)%nat /\ (n <= length s)%nat.
Proof.
  unfold decode_rune. destruct s as [|b0 s]; [done|].
  destruct (first_info b0) as [[[w lo] hi]|]; [|done].
  destruct w as [|[|[|[|w]]]]; repeat (case_match; simplify_eq/=; try done);
    intros; simplify_eq/=; lia.
Qed.

Lemma decode_rune_app s t r n :
  decode_rune s = Some (r, n) -> decode_rune (s ++ t) = Some (r, n).
Proof.
  unfold decode_rune. destruct s as [|b0 s]; [done|]. simpl.
  destruct (first_info b0) as [[[w lo] hi]|]; [|done].
  destruct w as [|[|[|[|w]]]]; try done; destruct s as [|b1 [|b2 [|b3 s]]]; done.
Qed.

Lemma decode_rune_take s r n :
  decode_rune s = Some (r, n) -> decode_rune (take n s) = Some (r, n).
Proof.
  destruct s as [|b0 s]; [done|]. unfold decode_rune at 1.
  destruct (first_info b0) as [[[w lo] hi]|] eqn:E; [|done].
  destruct w as [|[|[|[|w]]]]; destruct s as [|b1 [|b2 [|b3 s]]]; try done;
    intros H; try (destruct (_ && _) eqn:E2 in H); try (destruct (in_range _ _ _) eqn:E1 in H);
    simplify_eq; simpl; rewrite E; rewrite ?E2, ?E1; done.
Qed.

Lemma valid_fuel_irrel k1 k2 s :
  (length s <= k1)%nat -> (length s <= k2)%nat -> valid_fuel k1 s = valid_fuel k2 s.
Proof.
  revert k2 s. induction k1 as [|k1 IH]; intros k2 s H1 H2;
    destruct s as [|c l]; [by destruct k2|simpl in H1; lia|by destruct k2|].
  destruct k2 as [|k2]; [simpl in H2; lia|]. cbn [valid_fuel].
  destruct (decode_rune (c :: l)) as [[r n]|] eqn:E; [|done].
  destruct (decode_rune_width _ _ _ E) as [Hn _]. simpl in H1, H2.
  apply IH; rewrite length_drop; simpl; lia.
Qed.

(** The defining equation of [valid]. *)
Lemma valid_unfold s :
  valid s = match s with
            | [] => true
            | _ => match decode_rune s with
                   | None => false
                   | Some (_, n) => valid (drop n s)
                   end
            end.
Proof.
  unfold valid at 1. destruct s as [|b s]; [done|]. cbn [length valid_fuel].
  destruct (decode_rune (b :: s)) as [[r n]|] eqn:E; [|done].
  destruct (decode_rune_width _ _ _ E) as [Hn _].
  apply valid_fuel_irrel; [|done]. rewrite length_drop. simpl. lia.
Qed.

Lemma valid_cons_inv s :
  s <> [] -> valid s = true ->
  exists r n, decode_rune s = Some (r, n) /\ valid (drop n s) = true.
Proof.
  intros Hs. rewrite valid_unfold. destruct s as [|b s]; [done|].
  destruct (decode_rune (b :: s)) as [[r n]|]; [eauto|done].
Qed.

(** Induction over the runes of a valid sequence. *)
Lemma valid_ind (P : bytes -> Prop) :
  P [] ->
  (forall s r n, decode_rune s = Some (r, n) -> valid (drop n s) = true ->
     P (drop n s) -> P s) ->
  forall s, valid s = true -> P s.
Proof.
  intros Hnil Hcons s. remember (length s) as k eqn:Hk.
  assert (Hle : (length s <= k)%nat) by lia. clear Hk. revert s Hle.
  induction k as [|k IH]; intros s Hle Hv.
  - by destruct s; [|simpl in Hle; lia].
  - destruct (decide (s = [])) as [->|Hs]; [done|].
    destruct (valid_cons_inv s Hs Hv) as (r & n & E & Hv').
    apply (Hcons s r n E Hv'). apply IH; [|done].
    destruct (decode_rune_width _ _ _ E). rewrite length_drop. lia.
Qed.

Lemma valid_app s t : valid s = true -> valid t = true -> valid (s ++ t) = true.
Proof.
  intros Hs Ht. revert s Hs. apply valid_ind; [done|]. intros s r n E Hv IH.
  rewrite valid_unfold. pose proof (decode_rune_app s t r n E) as E'.
  destruct (decode_rune_width _ _ _ E) as [_ Hn].
  destruct (s ++ t) eqn:Hst; [done|]. rewrite E', <- Hst, drop_app_le by done.
  exact IH.
Qed.

(** A prefix of a valid sequence becomes valid by dropping at most three
    trailing bytes: the incomplete rune a cut may leave. *)
Lemma valid_prefix s n :
  valid s = true ->
  exists k, (k <= 3)%nat /\ (k <= n)%nat /\ valid (take (n - k) s) = true.
Proof.
  intros Hs. revert s Hs n. apply (valid_ind (fun s => forall n, _)).
  - intros n. exists 0%nat. rewrite take_nil. split; [lia|]. split; [lia|done].
  - intros s r w E Hv IH n. destruct (decode_rune_width _ _ _ E) as [Hw Hl].
    destruct (decide (w <= n)%nat) as [Hwn|Hwn].
    + destruct (IH (n - w)%nat) as (k & Hk3 & Hkn & Hval). exists k.
      split; [done|]. split; [lia|].
      replace (n - k)%nat with (w + (n - w - k))%nat by lia.
      rewrite <- take_take_drop. apply valid_app; [|done].
      rewrite valid_unfold, (decode_rune_take _ _ _ E), skipn_all2; [by case_match|].
      rewrite length_take. lia.
    + exists n. split; [lia|]. split; [lia|]. by rewrite Nat.sub_diag.
Qed.

Lemma decode_rune_ascii b s :
  byte_val b < 0x80 -> decode_rune (b :: s) = Some (byte_val b, 1%nat).
Proof. intros Hb. unfold decode_rune, first_info. by rewrite (proj2 (Z.ltb_lt _ _) Hb). Qed.

Lemma valid_ascii s : Forall (fun b => byte_val b < 0x80) s -> valid s = true.
Proof.
  induction 1 as [|b s Hb _ IH]; [done|].
  rewrite valid_unfold, decode_rune_ascii by done. exact IH.
Qed.

Lemma runes_fuel_ascii fuel i s :
  Forall (fun b => byte_val b < 0x80) s -> (length s <= fuel)%nat ->
  runes_fuel fuel i s = imap (fun k b => (i + Z.of_nat k, byte_val b)) s.
Proof.
  intros Hs. revert fuel i. induction Hs as [|b s Hb _ IH]; intros fuel i Hf;
    [by destruct fuel|].
  destruct fuel as [|fuel]; [simpl in Hf; lia|]. cbn [runes_fuel].
  rewrite decode_rune_ascii by done. simpl. rewrite IH by (simpl in Hf; lia).
  f_equal; [f_equal; lia|]. apply imap_ext. intros k x _. simpl. f_equal. lia.
Qed.

(** Ranging over an ASCII string visits its bytes with their indices. *)
Lemma runes_ascii s :
  Forall (fun b => byte_val b < 0x80) s ->
  runes s = imap (fun k b => (Z.of_nat k, byte_val b)) s.
Proof. intros Hs. unfold runes. by rewrite runes_fuel_ascii. Qed.
