(* ===== verification/Errors.v ===== *)
(** * Error values (errors.go, addr.go) and [errors.Is]

    A Go error is a tree: a leaf is a sentinel (a package-level [errors.New]
    value, compared by identity) or an error of code outside the module, and an
    inner node wraps its causes. A formatted message is represented by its format
    string: no code branches on the rendered text. *)

From S2P Require Import Prelude.

(** ** Sentinels: errors.go and the sentinels of the packages it meets *)

Inductive sentinel : Set :=
(* errors.go; [ErrClosed] is [net.ErrClosed] *)
| ErrClosed | ErrTimeout | ErrSignaling | ErrNegotiation | ErrICE | ErrProtocol
| ErrPeerRejected | ErrPeerUnavailable | ErrDuplicatePeer | ErrDisconnected
| ErrConfig | ErrAlreadyListening | ErrNotImplemented
(* the standard library *)
| io_EOF | io_ErrClosedPipe | io_ErrShortBuffer | io_ErrShortWrite
| os_ErrDeadlineExceeded | context_Canceled | context_DeadlineExceeded
(* internal/frame *)
| frame_ErrProtocol | frame_errControlBusy
(* internal/pionx *)
| pionx_ErrNegotiation | pionx_ErrChannelRejected | pionx_ErrClosed
(* signaling/sse *)
| sse_ErrUnauthorized | sse_ErrPermanent | sse_errStreamGone | sse_errServerClosing.

#[export] Instance sentinel_eq_dec : EqDecision sentinel.
Proof. solve_decision. Defined.

(** The categories callers are promised (the [var] block of errors.go). *)
Definition categories : list sentinel :=
  [ErrClosed; ErrTimeout; ErrSignaling; ErrNegotiation; ErrICE; ErrProtocol;
   ErrPeerRejected; ErrPeerUnavailable; ErrDuplicatePeer; ErrDisconnected;
   ErrConfig; ErrAlreadyListening; ErrNotImplemented].

(** ** Addresses (addr.go) *)

Record Addr := { addr_peer : string; addr_session : string }.

#[export] Instance Addr_eq_dec : EqDecision Addr.
Proof. solve_decision. Defined.

Definition networkName : string := "webrtc".

Definition Addr_String (a : Addr) : string :=
  if bool_decide (addr_session a = ""%string) then addr_peer a
  else (addr_peer a +:+ "#" +:+ addr_session a)%string.

(** ** Errors *)

Inductive error : Type :=
| ESent (s : sentinel)
  (* An error of other code: [timeout] is the answer of its [Timeout] method
     when it implements [net.Error]. *)
| EOther (msg : string) (timeout : option bool)
  (* [fmt.Errorf]: the operands of its [%w] verbs are the causes. *)
| EWrap (msg : string) (causes : list error)
  (* [categorized] *)
| ECat (category : error) (cause : option error) (msg : string)
  (* [*net.OpError] *)
| EOp (op net : string) (source : Addr) (remote : option Addr) (e : error)
  (* [*RejectedError] *)
| ERejected (code reason peer : string).

(** [errors.Is(e, t)] for a sentinel target. [RejectedError] answers through its
    [Is] method. *)
Fixpoint errIs (e : error) (t : sentinel) : bool :=
  match e with
  | ESent s => bool_decide (s = t)
  | EOther _ _ => false
  | EWrap _ causes => existsb (fun c => errIs c t) causes
  | ECat category cause _ =>
    errIs category t || match cause with Some c => errIs c t | None => false end
  | EOp _ _ _ _ e' => errIs e' t
  | ERejected _ _ _ => bool_decide (t = ErrPeerRejected)
  end.

(** The first [Some] of a list. *)
Fixpoint first_some {A B} (f : A -> option B) (l : list A) : option B :=
  match l with
  | [] => None
  | x :: l' => match f x with Some y => Some y | None => first_some f l' end
  end.

(** [errors.As(e, &ne)] for a [net.Error]: the [Timeout] answer of the first
    value of the tree that implements the interface. [net.ErrClosed] implements
    it and answers false; [categorized] and [net.OpError] implement it, the latter
    asking its immediate error only. *)
Fixpoint netTimeout (e : error) : option bool :=
  match e with
  | ESent ErrClosed => Some false
  | ESent os_ErrDeadlineExceeded | ESent context_DeadlineExceeded => Some true
  | ESent _ => None
  | EOther _ t => t
  | EWrap _ causes => first_some netTimeout causes
  | ECat category cause _ =>
    Some (errIs category ErrTimeout ||
          match cause with
          | Some c => match netTimeout c with Some b => b | None => false end
          | None => false
          end)
  | EOp _ _ _ _ e' =>
    Some (match e' with
          | EWrap _ _ => false
          | _ => match netTimeout e' with Some b => b | None => false end
          end)
  | ERejected _ _ _ => None
  end.

(** [errorf]: a [%w] operand, if any, is the cause. *)
Definition errorf (category : sentinel) (msg : string) (w : option error) : error :=
  ECat (ESent category) w msg.

(** [wrapErr]: nil stays nil. *)
Definition wrapErr (category : sentinel) (cause : option error) (msg : string)
    : option error :=
  match cause with
  | None => None
  | Some c => Some (ECat (ESent category) (Some c) msg)
  end.

Definition deadlineError : error :=
  ECat (ESent ErrTimeout) (Some (ESent os_ErrDeadlineExceeded)) "pipe: deadline exceeded".

Definition opError (op : string) (local : Addr) (remote : option Addr)
    (err : option error) : option error :=
  match err with
  | None => None
  | Some e => Some (EOp op networkName local remote e)
  end.

(** [categorized.Timeout]. *)
Definition categorized_Timeout (category : error) (cause : option error) : bool :=
  errIs category ErrTimeout ||
  match cause with
  | Some c => match netTimeout c with Some b => b | None => false end
  | None => false
  end.

(** An error is categorised when it matches one of the promised categories. *)
Definition is_categorised (e : error) : bool := existsb (errIs e) categories.

(** ** Lemmas *)

Lemma errIs_sent s t : errIs (ESent s) t = bool_decide (s = t).
Proof. done. Qed.

Lemma errIs_wrap1 msg c t : errIs (EWrap msg [c]) t = errIs c t.
Proof. simpl. apply orb_false_r. Qed.
#[export] Hint Rewrite errIs_wrap1 errIs_sent : pipe.

Lemma errIs_category c w msg : errIs (errorf c msg w) c = true.
Proof. simpl. by rewrite bool_decide_eq_true_2. Qed.

Lemma errorf_categorised c w msg : c ∈ categories -> is_categorised (errorf c msg w) = true.
Proof.
  intros Hc. apply existsb_exists. exists c. split; [by apply list_elem_of_In|].
  apply errIs_category.
Qed.
