(* ===== verification/Floats.v ===== *)
(** * Floating point

    Go's [float64] is IEEE 754 binary64: 53 bits of precision, exponents below 1024. The
    operations are those of the Standard Library's [SpecFloat]; [pow] is [math.Pow] for
    the integer exponents the backoff computations use. *)

From Stdlib Require Import SpecFloat.
From S2P Require Import Prelude.

(** The floating-point constants 0, 1, 2 and 0.2. *)
Definition f_zero : spec_float := S754_zero false.
Definition f_one : spec_float := S754_finite false 4503599627370496 (-52).
Definition f_two : spec_float := S754_finite false 4503599627370496 (-51).
Definition f_fifth : spec_float := S754_finite false 7205759403792794 (-55).

Definition f_mul := SFmul 53 1024.
Definition f_add := SFadd 53 1024.
Definition f_sub := SFsub 53 1024.
Definition f_div := SFdiv 53 1024.
Definition f_half : spec_float := S754_finite false 4503599627370496 (-53).

(** [float64(z)] of an integer. *)
Definition f_of_Z (z : Z) : spec_float := binary_normalize 53 1024 z 0 false.

(** The main loop of [math.Pow(x, y)] for an integer [y], on the fraction [x1] and
    exponent [xe] of [x]: the product [a1 * 2^ae] is built by repeated squaring; an
    exponent out of range ends it. *)
Fixpoint pow_loop (y : positive) (a1 : spec_float) (ae : Z) (x1 : spec_float) (xe : Z)
    : spec_float * Z :=
  if (xe <? - Z.shiftl 1 12) || (Z.shiftl 1 12 <? xe) then (a1, ae + xe)
  else
    let next y a1 ae :=
      let x1 := f_mul x1 x1 in
      let xe := Z.shiftl xe 1 in
      if SFltb x1 f_half then pow_loop y a1 ae (f_add x1 x1) (xe - 1)
      else pow_loop y a1 ae x1 xe in
    match y with
    | xH => (f_mul a1 x1, ae + xe)
    | xI y => next y (f_mul a1 x1) (ae + xe)
    | xO y => next y a1 ae
    end.

(** [math.Pow(x, float64(y))] for an integer [y >= 0]. The exceptional bases follow its
    table of special cases. *)
Definition pow (x : spec_float) (y : Z) : spec_float :=
  if (y =? 0) || SFeqb x f_one then f_one
  else if y =? 1 then x
  else match x with
  | S754_nan => S754_nan
  | S754_zero s => S754_zero (s && Z.odd y)
  | S754_infinity s => S754_infinity (s && Z.odd y)
  | S754_finite _ _ _ =>
    let '(x1, xe) := SFfrexp 53 1024 x in
    let '(a1, ae) := pow_loop (Z.to_pos y) f_one 0 x1 xe in
    SFldexp 53 1024 a1 ae
  end.

(** [time.Duration(d)]: truncation to [int64]; out of range, the value amd64 gives. *)
Definition int64_of (f : spec_float) : Z :=
  match f with
  | S754_zero _ => 0
  | S754_finite s m e =>
    let z := if 0 <=? e then Z.shiftl (Zpos m) e else Z.quot (Zpos m) (2 ^ (- e)) in
    let z := if s : bool then - z else z in
    if (- 2 ^ 63 <=? z) && (z <? 2 ^ 63) then z else - 2 ^ 63
  | _ => - 2 ^ 63
  end.
