(* ===== verification/Frame.v ===== *)
(** * The frame codec (internal/frame/frame.go)

    One DataChannel message carries one frame: an eight-byte header (version,
    type, flags, big-endian payload length) and the payload. *)

From S2P Require Import Prelude.
From S2P Require Import Utf8.
From S2P Require Import Errors.

Definition HeaderSize : Z := 8.
Definition Version : Z := 1.
Definition PayloadLimit : Z := Z.shiftl 256 10.
Definition PingSize : Z := 8.
Definition MaxCloseReason : Z := 256.

(** [Type] is a [uint8] with four named values. *)
Definition TypeData : Z := 0x01.
Definition TypePing : Z := 0x02.
Definition TypePong : Z := 0x03.
Definition TypeClose : Z := 0x04.

(** [Type.valid]. *)
Definition Type_valid (t : Z) : bool :=
  (t =? TypeData) || (t =? TypePing) || (t =? TypePong) || (t =? TypeClose).

(** Close codes. *)
Definition CloseNormal : Z := 0.
Definition CloseProtocolError : Z := 1.
Definition CloseInternal : Z := 2.
Definition CloseGoingAway : Z := 3.

Record Header := { h_version : Z; h_type : Z; h_flags : Z; h_length : Z }.

(** An error matching [ErrProtocol]. *)
Definition protoErr (msg : string) : error := EWrap msg [ESent frame_ErrProtocol].

(** [copy(dst[off:], src)]: overwrites as much of [dst] as [src] covers. *)
Definition copy_at (off : nat) (src dst : bytes) : bytes :=
  take off dst ++ take (length dst - off) src ++ drop (off + length src) dst.

(** [Encode]: writes into [dst]; returns [dst] after the writes and the encoded
    prefix, which aliases it. *)
Definition Encode (dst : bytes) (t : Z) (payload : bytes) : result error (bytes * bytes) :=
  let total := HeaderSize + zlen payload in
  if PayloadLimit <? zlen payload then
    Err (protoErr "%w: payload of %d bytes exceeds the %d byte limit")
  else if zlen dst <? total then
    Err (EWrap "frame: destination of %d bytes is too small for %d bytes" [])
  else
    let dst := <[0%nat := byte_of Version]> dst in
    let dst := <[1%nat := byte_of t]> dst in
    let dst := copy_at 2 (be16_put 0) dst in
    let dst := copy_at 4 (be32_put (u32 (zlen payload))) dst in
    let dst := copy_at (Z.to_nat HeaderSize) payload dst in
    Ok (dst, take (Z.to_nat total) dst).

(** [Append]. The header array starts zeroed, so the flags stay zero. *)
Definition Append (dst : bytes) (t : Z) (payload : bytes) : result error bytes :=
  if PayloadLimit <? zlen payload then
    Err (protoErr "%w: payload of %d bytes exceeds the %d byte limit")
  else
    let hdr := replicate (Z.to_nat HeaderSize) (byte_of 0) in
    let hdr := <[0%nat := byte_of Version]> hdr in
    let hdr := <[1%nat := byte_of t]> hdr in
    let hdr := copy_at 4 (be32_put (u32 (zlen payload))) hdr in
    Ok ((dst ++ hdr) ++ payload).

(** The clamp at the head of [Parse]. *)
Definition clamp_payload (maxPayload : Z) : Z :=
  if (maxPayload <? 0) || (PayloadLimit <? maxPayload) then PayloadLimit else maxPayload.

(** The header fields of a message of at least eight bytes. *)
Definition read_header (msg : bytes) : option (Header * bytes) :=
  match msg with
  | b0 :: b1 :: b2 :: b3 :: b4 :: b5 :: b6 :: b7 :: rest =>
    Some ({| h_version := byte_val b0; h_type := byte_val b1;
             h_flags := be16_get b2 b3; h_length := be32_get b4 b5 b6 b7 |}, rest)
  | _ => None
  end.

(** [Parse]: the payload is the slice [msg[HeaderSize : HeaderSize+Length]]. *)
Definition Parse (msg : bytes) (maxPayload : Z) : result error (Header * bytes) :=
  let maxPayload := clamp_payload maxPayload in
  match read_header msg with
  | None => Err (protoErr "%w: frame of %d bytes is shorter than the %d byte header")
  | Some (hdr, rest) =>
    if negb (h_version hdr =? Version) then
      Err (protoErr "%w: unsupported frame version %d")
    else if negb (Type_valid (h_type hdr)) then
      Err (protoErr "%w: unknown frame type %s")
    else if negb (h_flags hdr =? 0) then
      Err (protoErr "%w: unknown frame flags 0x%04x")
    else if u32 maxPayload <? h_length hdr then
      Err (protoErr "%w: payload length %d exceeds the negotiated %d byte limit")
    else if negb (u64 (h_length hdr) =? u64 (zlen msg - HeaderSize)) then
      Err (protoErr "%w: payload length %d does not match the %d bytes present")
    else
      let payload := take (Z.to_nat (h_length hdr)) rest in
      if ((h_type hdr =? TypePing) || (h_type hdr =? TypePong))
         && negb (zlen payload =? PingSize) then
        Err (protoErr "%w: %s payload must be %d bytes, got %d")
      else if (h_type hdr =? TypeClose) && (zlen payload <? 2) then
        Err (protoErr "%w: close payload must carry a 2 byte code")
      else Ok (hdr, payload)
  end.

(** [CloseInfo]. *)
Record CloseInfo := { ci_code : Z; ci_reason : bytes }.

(** The truncation loop of [EncodeClose]: drop the last byte until the rest is
    valid UTF-8. *)
Fixpoint trim_invalid (fuel : nat) (reason : bytes) : bytes :=
  match fuel with
  | O => reason
  | S fuel' =>
    if (0 <? zlen reason) && negb (Utf8.valid reason)
    then trim_invalid fuel' (take (length reason - 1) reason)
    else reason
  end.

Definition truncate_reason (reason : bytes) : bytes :=
  if MaxCloseReason <? zlen reason then
    let reason := take (Z.to_nat MaxCloseReason) reason in
    trim_invalid (length reason) reason
  else reason.

(** [EncodeClose]. *)
Definition EncodeClose (code : Z) (reason : bytes) : bytes :=
  be16_put code ++ truncate_reason reason.

(** [ParseClose]. *)
Definition ParseClose (payload : bytes) : result error CloseInfo :=
  match payload with
  | b0 :: b1 :: reason =>
    if MaxCloseReason <? zlen reason then
      Err (protoErr "%w: close reason of %d bytes exceeds the %d byte limit")
    else if negb (Utf8.valid reason) then
      Err (protoErr "%w: close reason is not valid UTF-8")
    else Ok {| ci_code := be16_get b0 b1; ci_reason := reason |}
  | _ => Err (protoErr "%w: close payload must carry a 2 byte code")
  end.

(** ** The wire format, as a reference *)

(** The bytes of a frame. *)
Definition wire (t : Z) (payload : bytes) : bytes :=
  [byte_of Version; byte_of t; byte_of 0; byte_of 0] ++ be32_put (zlen payload) ++ payload.

(** What guides/11-protocol.md section 3 allows as the payload of a type. *)
Definition payload_ok (t : Z) (payload : bytes) : Prop :=
  (t = TypeData) \/
  ((t = TypePing \/ t = TypePong) /\ zlen payload = PingSize) \/
  (t = TypeClose /\ 2 <= zlen payload).

(** ** Lemmas *)

Lemma PayloadLimit_val : PayloadLimit = 262144.
Proof. reflexivity. Qed.

Lemma length_wire t p : zlen (wire t p) = HeaderSize + zlen p.
Proof. unfold wire, HeaderSize, be32_put. simpl. autorewrite with pipe. lia. Qed.

Lemma Type_valid_spec t :
  Type_valid t = true <-> t = TypeData \/ t = TypePing \/ t = TypePong \/ t = TypeClose.
Proof. unfold Type_valid. rewrite !orb_true_iff, !Z.eqb_eq. tauto. Qed.

Lemma Type_valid_u8 t : Type_valid t = true -> u8 t = t.
Proof. rewrite Type_valid_spec. by intros [->|[->|[->| ->]]]. Qed.

Lemma payload_ok_valid t p : payload_ok t p -> Type_valid t = true.
Proof. rewrite Type_valid_spec. intros [->|[[[->| ->] _]|[-> _]]]; tauto. Qed.

Lemma clamp_payload_bound m : 0 <= clamp_payload m <= PayloadLimit.
Proof.
  unfold clamp_payload. rewrite PayloadLimit_val.
  destruct (m <? 0) eqn:E1, (262144 <? m) eqn:E2; simpl; lia.
Qed.

Lemma read_header_short msg : read_header msg = None <-> zlen msg < HeaderSize.
Proof.
  unfold read_header, HeaderSize, zlen.
  do 8 (destruct msg as [|? msg]; [simpl; split; [lia|done]|]).
  simpl. split; [done|lia].
Qed.

Lemma read_header_wire t p :
  zlen p < 2 ^ 32 ->
  read_header (wire t p) =
    Some ({| h_version := Version; h_type := u8 t; h_flags := 0; h_length := zlen p |}, p).
Proof.
  intros Hp. unfold wire, be32_put. simpl. rewrite !byte_val_of.
  rewrite be32_put_get by (pose proof (zlen_nonneg p); lia). done.
Qed.

Lemma copy_at_fits off src dst :
  (off + length src <= length dst)%nat ->
  copy_at off src dst = take off dst ++ src ++ drop (off + length src) dst.
Proof. intros H. unfold copy_at. by rewrite (take_ge src) by lia. Qed.

(** Writing the fixed fields of a header into the first eight bytes. *)
Lemma write_header dst b t n :
  (8 <= length dst)%nat ->
  copy_at 4 (be32_put n) (copy_at 2 (be16_put b)
    (<[1%nat := byte_of t]> (<[0%nat := byte_of Version]> dst))) =
  ([byte_of Version; byte_of t] ++ be16_put b ++ be32_put n) ++ drop 8 dst.
Proof.
  intros Hd. do 8 (destruct dst as [|? dst]; [simpl in Hd; lia|]).
  rewrite (copy_at_fits 2) by (simpl; lia). by rewrite (copy_at_fits 4) by (simpl; lia).
Qed.

Lemma wire_header t p :
  wire t p = ([byte_of Version; byte_of t] ++ be16_put 0 ++ be32_put (zlen p)) ++ p.
Proof. reflexivity. Qed.

Lemma Encode_ok dst t p :
  zlen p <= PayloadLimit -> HeaderSize + zlen p <= zlen dst ->
  Encode dst t p = Ok (wire t p ++ drop (length (wire t p)) dst, wire t p).
Proof.
  intros Hp Hd. pose proof (length_wire t p) as Hw. unfold Encode.
  rewrite (proj2 (Z.ltb_ge _ _) Hp), (proj2 (Z.ltb_ge _ _) Hd).
  rewrite u32_small by (rewrite PayloadLimit_val in Hp; pose proof (zlen_nonneg p); lia).
  unfold HeaderSize, zlen in Hd, Hw.
  rewrite write_header by lia.
  set (hdr := [byte_of Version; byte_of t] ++ be16_put 0 ++ be32_put (zlen p)).
  change (Z.to_nat HeaderSize) with (length hdr).
  rewrite copy_at_fits by (rewrite length_app, length_drop; simpl; lia).
  rewrite take_app_length, drop_app_add', drop_drop, app_assoc by done.
  replace (hdr ++ p) with (wire t p) by reflexivity.
  replace (8 + length p)%nat with (length (wire t p)) by lia.
  rewrite take_app_length'; [done|]. unfold HeaderSize, zlen. lia.
Qed.

Lemma Append_ok dst t p :
  zlen p <= PayloadLimit -> Append dst t p = Ok (dst ++ wire t p).
Proof.
  intros Hp. unfold Append. rewrite (proj2 (Z.ltb_ge _ _) Hp).
  rewrite u32_small by (rewrite PayloadLimit_val in Hp; pose proof (zlen_nonneg p); lia).
  rewrite <- app_assoc. do 3 f_equal.
Qed.

Lemma Parse_wire t p max :
  payload_ok t p -> zlen p <= clamp_payload max ->
  Parse (wire t p) max =
    Ok ({| h_version := Version; h_type := t; h_flags := 0; h_length := zlen p |}, p).
Proof.
  intros Hok Hp. pose proof (clamp_payload_bound max) as Hc.
  rewrite PayloadLimit_val in Hc. pose proof (zlen_nonneg p) as Hn.
  unfold Parse. rewrite read_header_wire by lia. cbn [h_version h_type h_flags h_length].
  rewrite (Type_valid_u8 t), (payload_ok_valid t p) by eauto using payload_ok_valid.
  rewrite length_wire, u32_small by lia.
  replace (HeaderSize + zlen p - HeaderSize) with (zlen p) by lia.
  rewrite (proj2 (Z.ltb_ge _ _) Hp), !Z.eqb_refl.
  cbn [negb]. rewrite take_ge by (unfold zlen; lia).
  destruct Hok as [->|[[[->| ->] ->]|[-> H2]]]; try done.
  by rewrite (proj2 (Z.ltb_ge _ _) H2).
Qed.

Lemma read_header_inv msg hdr rest :
  read_header msg = Some (hdr, rest) ->
  h_version hdr = Version -> h_flags hdr = 0 -> h_length hdr = zlen rest ->
  msg = wire (h_type hdr) rest.
Proof.
  unfold read_header. intros H.
  do 8 (destruct msg as [|? msg]; [done|]). simplify_eq/=.
  intros Hv Hf Hl. unfold wire. rewrite <- Hl, be32_get_put, byte_of_val, <- Hv, byte_of_val.
  pose proof (be16_get_put a1 a2) as H16. rewrite Hf in H16. unfold be16_put in H16.
  change (Z.shiftr 0 8) with 0 in H16. simplify_eq. reflexivity.
Qed.

Lemma read_header_len msg hdr rest :
  read_header msg = Some (hdr, rest) ->
  zlen msg = HeaderSize + zlen rest /\ 0 <= h_length hdr < 2 ^ 32.
Proof.
  unfold read_header. intros H. do 8 (destruct msg as [|? msg]; [done|]).
  simplify_eq/=. autorewrite with pipe. unfold HeaderSize. split; [lia|].
  apply be32_get_bound.
Qed.

(** What an accepted message is. Slice lengths are Go [int]s. *)
Lemma Parse_inv msg max hdr p :
  zlen msg < 2 ^ 63 -> Parse msg max = Ok (hdr, p) ->
  hdr = {| h_version := Version; h_type := h_type hdr; h_flags := 0; h_length := zlen p |} /\
  payload_ok (h_type hdr) p /\ zlen p <= clamp_payload max /\ msg = wire (h_type hdr) p.
Proof.
  intros Hint. unfold Parse. destruct (read_header msg) as [[h rest]|] eqn:E; [|done].
  pose proof (clamp_payload_bound max) as Hc. rewrite PayloadLimit_val in Hc.
  destruct (read_header_len _ _ _ E) as [Hm Hl]. pose proof (zlen_nonneg rest).
  unfold HeaderSize in *.
  destruct (h_version h =? Version) eqn:Ev; [|done].
  destruct (Type_valid (h_type h)) eqn:Et; [|done].
  destruct (h_flags h =? 0) eqn:Ef; [|done]. cbn [negb].
  rewrite u32_small, !u64_small by lia.
  destruct (clamp_payload max <? h_length h) eqn:Eb; [done|].
  destruct (h_length h =? zlen msg - 8) eqn:El; [|done]. cbn [negb].
  apply Z.eqb_eq in Ev, Ef, El. apply Z.ltb_ge in Eb.
  rewrite take_ge by (unfold zlen in *; lia).
  destruct (_ && negb _) eqn:Ep; [done|]. destruct (_ && (zlen rest <? 2)) eqn:Ecl; [done|].
  intros [= -> ->]. assert (Hlp : h_length hdr = zlen p) by lia.
  split; [destruct hdr; simpl in *; congruence|].
  split; [|split; [lia|by apply read_header_inv]].
  unfold payload_ok. apply Type_valid_spec in Et.
  apply andb_false_iff in Ep, Ecl. rewrite orb_false_iff, !Z.eqb_neq in Ep.
  rewrite negb_false_iff, Z.eqb_eq in Ep. rewrite Z.eqb_neq, Z.ltb_ge in Ecl.
  destruct Et as [?|[?|[?|?]]]; tauto.
Qed.

Lemma Parse_err_proto msg max e :
  Parse msg max = Err e -> errIs e frame_ErrProtocol = true.
Proof.
  unfold Parse, protoErr. intros H. repeat case_match; simplify_eq; done.
Qed.

Lemma trim_invalid_spec fuel r :
  (length r <= fuel)%nat ->
  exists n, trim_invalid fuel r = take n r /\ Utf8.valid (take n r) = true /\
    forall m, (n < m)%nat -> (m <= length r)%nat -> Utf8.valid (take m r) = false.
Proof.
  revert r. induction fuel as [|fuel IH]; intros r Hf.
  - assert (r = []) as -> by (destruct r; [done|simpl in Hf; lia]). exists 0%nat.
    split; [done|]. split; [done|]. simpl. lia.
  - cbn [trim_invalid]. destruct (0 <? zlen r) eqn:E0; cbn [andb].
    + destruct (Utf8.valid r) eqn:Ev; cbn [negb].
      * exists (length r). rewrite firstn_all. split; [done|]. split; [done|]. lia.
      * apply Z.ltb_lt in E0. unfold zlen in E0.
        destruct (IH (take (length r - 1) r)) as (n & Hn1 & Hn2 & Hn3);
          [rewrite length_take; lia|].
        rewrite Hn1, take_take in *. exists (n `min` (length r - 1))%nat.
        split; [done|]. split; [done|]. intros m Hm1 Hm2.
        destruct (decide (m = length r)) as [->|]; [by rewrite firstn_all|].
        specialize (Hn3 m). rewrite take_take, length_take, (Nat.min_l m) in Hn3 by lia.
        apply Hn3; lia.
    + apply Z.ltb_ge in E0. unfold zlen in E0. exists 0%nat. destruct r; [|simpl in E0; lia].
      split; [done|]. split; [done|]. simpl. lia.
Qed.

Lemma truncate_short r : zlen r <= MaxCloseReason -> truncate_reason r = r.
Proof. intros H. unfold truncate_reason. by rewrite (proj2 (Z.ltb_ge _ _) H). Qed.

(** A long reason becomes the longest valid prefix of its first 256 bytes. *)
Lemma truncate_long r :
  MaxCloseReason < zlen r ->
  exists n, truncate_reason r = take n r /\ (n <= 256)%nat /\
    Utf8.valid (take n r) = true /\
    forall m, (n < m)%nat -> (m <= 256)%nat -> Utf8.valid (take m r) = false.
Proof.
  intros H. unfold truncate_reason. rewrite (proj2 (Z.ltb_lt _ _) H).
  change (Z.to_nat MaxCloseReason) with 256%nat. unfold MaxCloseReason, zlen in H.
  destruct (trim_invalid_spec (length (take 256 r)) (take 256 r)) as (n & -> & Hv & Hmax);
    [lia|].
  rewrite take_take in *. exists (n `min` 256)%nat. split; [done|]. split; [lia|].
  split; [done|]. intros m Hm1 Hm2.
  specialize (Hmax m). rewrite take_take, length_take, (Nat.min_l m) in Hmax by lia.
  apply Hmax; lia.
Qed.

(** ** Properties *)

(** C22. [Parse] accepts exactly the version-1 frames whose payload is allowed for
    their type and fits the (clamped) negotiated maximum, and returns their type and
    payload: a message is accepted if and only if it is the wire image of the header
    and payload returned. *)
Theorem Parse_accepts_exactly_frames msg max hdr p :
  zlen msg < 2 ^ 63 ->
  Parse msg max = Ok (hdr, p) <->
  hdr = {| h_version := Version; h_type := h_type hdr; h_flags := 0; h_length := zlen p |} /\
  payload_ok (h_type hdr) p /\ zlen p <= clamp_payload max /\ msg = wire (h_type hdr) p.
Proof.
  intros Hint. split; [by apply Parse_inv|].
  intros (Hh & Hok & Hp & ->). rewrite (Parse_wire _ _ _ Hok Hp). by rewrite <- Hh.
Qed.

Definition ping_frame : bytes := wire TypePing (replicate 8 (byte_of 7)).

Example Parse_accepts_exactly_frames_witness :
  zlen ping_frame < 2 ^ 63 /\
  Parse ping_frame 16 =
    Ok ({| h_version := Version; h_type := TypePing; h_flags := 0; h_length := 8 |},
        replicate 8 (byte_of 7)).
Proof.
  assert (H : zlen ping_frame < 2 ^ 63) by (vm_compute; reflexivity).
  split; [exact H|].
  apply (proj2 (Parse_accepts_exactly_frames _ _
    {| h_version := Version; h_type := TypePing; h_flags := 0; h_length := 8 |} _ H)).
  split; [reflexivity|]. split; [right; left; split; [by left|reflexivity]|].
  split; [vm_compute; discriminate|reflexivity].
Defined.

(** C23. A frame written by [Encode] or [Append] is parsed back by any peer whose
    negotiated maximum admits its payload; [Encode] overwrites a prefix of its
    buffer with the frame and nothing else, [Append] extends its buffer with the same
    bytes, and both refuse a payload over the limit. *)
Theorem Encode_Append_Parse dst out t p max :
  payload_ok t p -> zlen p <= clamp_payload max -> HeaderSize + zlen p <= zlen dst ->
  Encode dst t p = Ok (wire t p ++ drop (length (wire t p)) dst, wire t p) /\
  Append out t p = Ok (out ++ wire t p) /\
  Parse (wire t p) max =
    Ok ({| h_version := Version; h_type := t; h_flags := 0; h_length := zlen p |}, p) /\
  (forall q, PayloadLimit < zlen q ->
     (exists e, Encode dst t q = Err e /\ Append out t q = Err e /\
                errIs e frame_ErrProtocol = true)).
Proof.
  intros Hok Hp Hd. pose proof (clamp_payload_bound max).
  split; [apply Encode_ok; lia|]. split; [apply Append_ok; lia|].
  split; [by apply Parse_wire|].
  intros q Hq. unfold Encode, Append. rewrite (proj2 (Z.ltb_lt _ _) Hq). by eexists.
Qed.

Example Encode_Append_Parse_witness :
  Encode (replicate 12 (byte_of 9)) TypeData (to_bytes "hey") =
    Ok (to_bytes (String.String (byte_of 1) (String.String (byte_of 1)
          (String.String (byte_of 0) (String.String (byte_of 0) (String.String (byte_of 0)
          (String.String (byte_of 0) (String.String (byte_of 0) (String.String (byte_of 3)
          "hey")))))))) ++ [byte_of 9], wire TypeData (to_bytes "hey")).
Proof.
  apply (Encode_Append_Parse (replicate 12 (byte_of 9)) [] TypeData (to_bytes "hey") 4).
  - by left.
  - vm_compute; discriminate.
  - vm_compute; discriminate.
Defined.

(** A close frame built from any valid UTF-8 reason parses back to its code and
    to a prefix of the reason: the whole reason when it fits in 256 bytes, and
    otherwise the longest valid prefix of its first 256 bytes, which loses at most
    three bytes to the rune boundary. *)
Theorem EncodeClose_ParseClose code reason :
  0 <= code < 2 ^ 16 -> Utf8.valid reason = true ->
  exists kept,
    ParseClose (EncodeClose code reason) = Ok {| ci_code := code; ci_reason := kept |} /\
    kept `prefix_of` reason /\
    (zlen reason <= MaxCloseReason -> kept = reason) /\
    (MaxCloseReason < zlen reason ->
       MaxCloseReason - 3 <= zlen kept <= MaxCloseReason /\
       forall longer, longer `prefix_of` reason -> Utf8.valid longer = true ->
         zlen longer <= MaxCloseReason -> zlen longer <= zlen kept).
Proof.
  intros Hc Hv.
  assert (Hparse : forall kept, truncate_reason reason = kept ->
    zlen kept <= MaxCloseReason -> Utf8.valid kept = true ->
    ParseClose (EncodeClose code reason) = Ok {| ci_code := code; ci_reason := kept |}).
  { intros kept Hk Hl Hvk. unfold EncodeClose. rewrite Hk. simpl.
    by rewrite (proj2 (Z.ltb_ge _ _) Hl), Hvk, be16_put_get. }
  destruct (decide (zlen reason <= MaxCloseReason)) as [Hs|Hs].
  - exists reason. split; [apply Hparse; auto using truncate_short|].
    split; [done|]. split; [done|lia].
  - destruct (truncate_long reason) as (n & Ht & Hn & Hvn & Hmax); [lia|].
    assert (Hln : zlen (take n reason) = Z.of_nat n)
      by (unfold zlen, MaxCloseReason in *; rewrite length_take; lia).
    exists (take n reason). split; [apply Hparse; [done|unfold MaxCloseReason; lia|done]|].
    split; [apply prefix_take|]. split; [lia|]. intros _. rewrite Hln.
    unfold MaxCloseReason in *. split.
    + destruct (valid_prefix reason 256 Hv) as (k & Hk3 & _ & Hvk).
      destruct (decide (256 - k <= n)%nat); [lia|].
      by rewrite (Hmax (256 - k)%nat) in Hvk by lia.
    + intros longer [rest ->] Hvl Hll. unfold zlen in *.
      destruct (decide (n < length longer)%nat); [|lia].
      specialize (Hmax (length longer)). rewrite take_app_length in Hmax.
      rewrite Hmax in Hvl by lia. done.
Qed.

Example EncodeClose_ParseClose_witness :
  exists kept,
    ParseClose (EncodeClose 3 (replicate 255 (byte_of 97) ++ [byte_of 0xC4; byte_of 0xB0]))
      = Ok {| ci_code := 3; ci_reason := kept |} /\ zlen kept = 255.
Proof.
  set (reason := replicate 255 (byte_of 97) ++ [byte_of 0xC4; byte_of 0xB0]).
  assert (H1 : 0 <= 3 < 2 ^ 16) by lia.
  assert (H2 : Utf8.valid reason = true) by (vm_compute; reflexivity).
  destruct (EncodeClose_ParseClose 3 reason H1 H2) as (kept & Hk & _).
  exists kept. split; [exact Hk|].
  vm_compute in Hk. injection Hk as <-. reflexivity.
Defined.
