(* ===== verification/Stream.v ===== *)
(** * The byte stream over a message channel (internal/frame/stream.go)

    [Stream] turns a message-oriented channel into a byte stream. Several
    goroutines share its fields: the read loop, one reader holding [rsem], one
    writer or control frame holding [wsem], closers, and the goroutine that
    releases the channel. The state below is those fields together with the
    program point each goroutine is parked at; an [action] is one uninterrupted
    segment of one goroutine, with what the channel, the clock and [select] decided
    as its arguments; [exec] is its effect, [None] where the segment cannot run.

    Receive buffers are modelled by identity in a store ([heap]): the read loop,
    the queue, the reader and the free list pass the same buffers around, so a
    buffer recycled too early would be seen by its other holder. *)

From S2P Require Import Prelude.
From S2P Require Import Errors.
From S2P Require Import Frame.

(** ** Constants, in nanoseconds *)

Definition millisecond : Z := 1000000.
Definition second : Z := 1000 * millisecond.
Definition controlWriteTimeout : Z := 5 * second.
Definition drainTimeout : Z := 2 * second.
Definition drainPoll : Z := 5 * millisecond.
Definition controlAcquireTimeout : Z := second.

(** ** Configuration ([Config], the head of [NewStream]) *)

Record Config := { MaxPayload : Z; ReadBuffer : Z }.

Definition cfg_maxPayload (cfg : Config) : Z :=
  let maxPayload := if MaxPayload cfg <=? 0 then Z.shiftl 16 10 else MaxPayload cfg in
  if PayloadLimit <? maxPayload then PayloadLimit else maxPayload.

Definition cfg_depth (cfg : Config) : Z :=
  let readBuffer := if ReadBuffer cfg <=? 0 then Z.shiftl 1 20 else ReadBuffer cfg in
  let depth := Z.quot readBuffer (cfg_maxPayload cfg) in
  if depth <? 1 then 1 else depth.

(** ** State *)

(** A slice [buf[sl_off:sl_end]] of the buffer [sl_id]. *)
Record slice := { sl_id : nat; sl_off : nat; sl_end : nat }.

(** The read loop: in [ch.Read(buf)]; in the [select] that queues [buf[:n]]; in
    [writeControl(TypePong, payload)], before or after taking [wsem]; returning
    (the deferred calls close [dataCh], then [done]). *)
Inductive loop_pc :=
| LReading | LPushing (n : nat) | LPong (payload : bytes) (held : bool)
| LExiting | LExited.

(** A [Read(p)] holding [rsem], with [len(p)]: at the head of its loop, at its
    non-blocking receive, at its blocking [select]. *)
Inductive reader_pc := RTop | RTry | RSelect.

(** Who holds [wsem]: a [Write] with its argument, the bytes still to send, the number
    written and whether it has passed [writable]; a pong; a ping. *)
Inductive wowner := WApp (arg p : bytes) (written : Z) (checked : bool) | WPong | WPing.

(** [termOnce]: not entered; sending the close frame; sent; returned. *)
Inductive once_pc := TNone | TSend (code : Z) (reason : bytes) (local drain : bool)
| TSent (local drain : bool) | TDone.

(** The [release] goroutine: not started; started; draining with its buffer and
    deadline; about to close the channel; finished. *)
Inductive release_pc := RelNone | RelStart (drain : bool) | RelDrain (buf : nat) (deadline : Z)
| RelClosing | RelDone.

Record stream := {
  maxPayload : Z;
  depth : nat;
  heap : gmap nat bytes;
  next_id : nat;
  free : list nat;
  dataCh : list (nat * nat);
  dataClosed : bool;
  loop : loop_pc;
  loop_buf : nat;
  cur : option slice;
  reader : option (nat * reader_pc);
  wsem : option wowner;
  wbuf : bytes;
  closed : bool;
  term : bool;
  done : bool;
  released : bool;
  termOnce : once_pc;
  release : release_pc;
  readErr : option error;
  remoteClose : option CloseInfo;
  pending : option (nat * bytes);
  replies : list nat;
  readDeadline : option Z;
  writeDeadline : option Z;
  wall : option Z;
  ch_readDeadline : option Z;
  ch_writeDeadline : option Z;
  ch_closed : bool;
  now : Z;
  bytesRead : Z;
  bytesWritten : Z;
  framesRead : Z;
  framesWritten : Z;
  droppedPongs : Z
}.

#[export] Instance stream_eta : Eta stream := fun s => {|
  maxPayload := maxPayload s; depth := depth s; heap := heap s; next_id := next_id s;
  free := free s; dataCh := dataCh s; dataClosed := dataClosed s; loop := loop s;
  loop_buf := loop_buf s; cur := cur s; reader := reader s; wsem := wsem s;
  wbuf := wbuf s; closed := closed s; term := term s; done := done s;
  released := released s; termOnce := termOnce s; release := release s;
  readErr := readErr s; remoteClose := remoteClose s; pending := pending s;
  replies := replies s; readDeadline := readDeadline s; writeDeadline := writeDeadline s;
  wall := wall s; ch_readDeadline := ch_readDeadline s;
  ch_writeDeadline := ch_writeDeadline s; ch_closed := ch_closed s; now := now s;
  bytesRead := bytesRead s; bytesWritten := bytesWritten s; framesRead := framesRead s;
  framesWritten := framesWritten s; droppedPongs := droppedPongs s |}.

(** The capacity of every receive buffer: [HeaderSize + maxPayload]. *)
Definition bufcap (s : stream) : nat := Z.to_nat (HeaderSize + maxPayload s).

Definition zeroes (n : nat) : bytes := replicate n (byte_of 0).

(** [NewStream]; the read loop starts with a buffer of its own. *)
Definition NewStream (cfg : Config) : stream :=
  let cap := Z.to_nat (HeaderSize + cfg_maxPayload cfg) in
  {| maxPayload := cfg_maxPayload cfg; depth := Z.to_nat (cfg_depth cfg);
     heap := {[ 0%nat := zeroes cap ]}; next_id := 1; free := []; dataCh := [];
     dataClosed := false; loop := LReading; loop_buf := 0; cur := None; reader := None;
     wsem := None; wbuf := zeroes cap; closed := false; term := false; done := false;
     released := false; termOnce := TNone; release := RelNone; readErr := None;
     remoteClose := None; pending := None; replies := []; readDeadline := None;
     writeDeadline := None; wall := None; ch_readDeadline := None;
     ch_writeDeadline := None; ch_closed := false; now := 0; bytesRead := 0;
     bytesWritten := 0; framesRead := 0; framesWritten := 0; droppedPongs := 0 |}.

(** ** Buffers *)

(** [getBuf]: a recycled buffer, or a new zeroed one. *)
Definition getBuf (s : stream) : nat * stream :=
  match free s with
  | b :: rest => (b, s <| free := rest |>)
  | [] => (next_id s, s <| heap := <[next_id s := zeroes (bufcap s)]> (heap s) |>
                        <| next_id := S (next_id s) |>)
  end.

Definition buf_bytes (s : stream) (b : nat) : bytes := default [] (heap s !! b).

(** [putBuf]: never blocks; a surplus or undersized buffer is dropped. The free
    list is a channel of capacity [depth + 2]. *)
Definition putBuf (b : nat) (s : stream) : stream :=
  if (length (buf_bytes s b) <? bufcap s)%nat then s
  else if (length (free s) <? depth s + 2)%nat then s <| free := free s ++ [b] |>
  else s.

Definition slice_bytes (s : stream) (sl : slice) : bytes :=
  take (sl_end sl - sl_off sl) (drop (sl_off sl) (buf_bytes s (sl_id sl))).

(** The effect of [ch.Read(buf)] returning the message [m]. *)
Definition fill (b : nat) (m : bytes) (s : stream) : stream :=
  s <| heap := <[b := m ++ drop (length m) (buf_bytes s b)]> (heap s) |>.

(** ** Errors *)

Definition setReadErr (e : error) (s : stream) : stream :=
  match readErr s with
  | None => s <| readErr := Some e |>
  | Some _ => s
  end.

Definition terminalErr (s : stream) : error :=
  match readErr s with Some e => e | None => ESent io_EOF end.

Definition writeTerminalErr (s : stream) : error :=
  if errIs (terminalErr s) io_EOF then ESent ErrClosed else terminalErr s.

Definition isTimeout (e : error) : bool :=
  errIs e os_ErrDeadlineExceeded || errIs e context_DeadlineExceeded ||
  match netTimeout e with Some b => b | None => false end.

(** [writable]: nil is [None]. *)
Definition writable (s : stream) : option error :=
  if closed s then Some (ESent ErrClosed)
  else if term s || done s then Some (writeTerminalErr s)
  else None.

Definition mapWriteErr (e : error) (s : stream) : error :=
  if closed s then ESent ErrClosed
  else if term s then writeTerminalErr s
  else if isTimeout e then ESent os_ErrDeadlineExceeded
  else e.

Definition classifyReadErr (e : error) (s : stream) : error :=
  if term s then ESent ErrClosed
  else if errIs e io_EOF || errIs e io_ErrClosedPipe then ESent io_EOF
  else if errIs e io_ErrShortBuffer then
    protoErr "%w: peer sent a message larger than the %d byte frame limit"
  else e.

(** A [deadline.Deadline] is done once its time has passed; zero is no deadline. *)
Definition deadline_done (d : option Z) (s : stream) : bool :=
  match d with None => false | Some t => t <=? now s end.

(** ** Events: what the other side of each interface observes *)

Inductive event :=
| EvArrived (m : bytes)                         (* [ch.Read] returned a message *)
| EvDropped (m : bytes)                         (* the loop gave up on queueing it *)
| EvRead (k : nat) (p : bytes) (e : option error) (* [Read] with [len(p) = k] returned *)
| EvSent (w : option wowner) (m : bytes)        (* [ch.Write] accepted the message;
                                                   [None]: the close frame *)
| EvFailed (w : option wowner) (m : bytes)      (* [ch.Write] failed on it *)
| EvWrite (p : bytes) (n : Z) (e : option error) (* [Write(p)] returned *)
| EvSet (e : option error)                      (* a deadline setter returned *)
| EvPing (e : option error).                    (* [Ping] returned *)

(** ** The read loop *)

(** Returning from [readLoop] after recording the terminal error. *)
Definition loop_fail (e : error) (s : stream) : stream :=
  setReadErr e s <| loop := LExiting |>.

(** [deliverPong]: the reply is a channel of capacity one made by [Ping], so the
    send never blocks. *)
Definition deliverPong (payload : bytes) (s : stream) : stream :=
  match pending s with
  | Some (id, nonce) =>
    if bool_decide (nonce = payload)
    then s <| pending := None |> <| replies := replies s ++ [id] |>
    else s
  | None => s
  end.

(** The [switch hdr.Type] of the loop, on the message of [n] bytes in [loop_buf]. *)
Definition loop_frame (n : nat) (hdr : Header) (payload : bytes) (s : stream) : stream :=
  if h_type hdr =? TypeData then
    if zlen payload =? 0 then s else s <| loop := LPushing n |>
  else if h_type hdr =? TypePing then s <| loop := LPong payload false |>
  else if h_type hdr =? TypePong then deliverPong payload s
  else
    match ParseClose payload with
    | Err e => loop_fail e s
    | Ok info => loop_fail (ESent io_EOF) (s <| remoteClose := Some info |>)
    end.

(** One iteration up to the frame's first blocking point. A message fits its
    buffer: a larger one makes [ch.Read] fail with [io.ErrShortBuffer]. *)
Definition loop_read (r : result error bytes) (s : stream) : option (list event * stream) :=
  match loop s with
  | LReading =>
    match r with
    | Err e => Some ([], loop_fail (classifyReadErr e s) s)
    | Ok m =>
      if (bufcap s <? length m)%nat then None
      else
        let s := fill (loop_buf s) m s in
        let msg := take (length m) (buf_bytes s (loop_buf s)) in
        match Parse msg (maxPayload s) with
        | Err e => Some ([EvArrived m], loop_fail e s)
        | Ok (hdr, payload) =>
          Some ([EvArrived m],
                loop_frame (length m) hdr payload
                  (s <| framesRead := u64 (framesRead s + 1) |>))
        end
    end
  | _ => None
  end.

(** [case s.dataCh <- buf[:n]: buf = s.getBuf()]. *)
Definition loop_push (s : stream) : option (list event * stream) :=
  match loop s with
  | LPushing n =>
    if (length (dataCh s) <? depth s)%nat then
      let s := s <| dataCh := dataCh s ++ [(loop_buf s, n)] |> in
      let '(b, s) := getBuf s in
      Some ([], s <| loop_buf := b |> <| loop := LReading |>)
    else None
  | _ => None
  end.

(** [case <-s.term] of the same [select]. *)
Definition loop_push_term (s : stream) : option (list event * stream) :=
  match loop s with
  | LPushing n =>
    if term s then
      Some ([EvDropped (take n (buf_bytes s (loop_buf s)))], loop_fail (ESent ErrClosed) s)
    else None
  | _ => None
  end.

(** The deferred [close(s.dataCh)], then [close(s.done)]. *)
Definition loop_close_data (s : stream) : option (list event * stream) :=
  match loop s with
  | LExiting => if dataClosed s then None else Some ([], s <| dataClosed := true |>)
  | _ => None
  end.

Definition loop_close_done (s : stream) : option (list event * stream) :=
  match loop s with
  | LExiting =>
    if dataClosed s then Some ([], s <| done := true |> <| loop := LExited |>) else None
  | _ => None
  end.

(** ** Writing frames *)

(** What the channel did with a frame: refused the deadline, reported a length, or
    failed. *)
Inductive chan_write := CWDeadline (e : error) | CWrote (n : Z) | CWErr (e : error).

(** [writeMessage]. *)
Definition writeMessage (w : option wowner) (msg : bytes) (dl : option Z) (cw : chan_write)
    (s : stream) : option error * list event * stream :=
  match cw with
  | CWDeadline e => (Some e, [], s)
  | CWErr e => let s := s <| ch_writeDeadline := dl |> in
               (Some (mapWriteErr e s), [EvFailed w msg], s)
  | CWrote n =>
    let s := s <| ch_writeDeadline := dl |> in
    if negb (n =? zlen msg) then
      (Some (EWrap "frame: channel wrote %d of %d bytes: %w" [ESent io_ErrShortWrite]),
       [EvFailed w msg], s)
    else (None, [EvSent w msg], s <| framesWritten := u64 (framesWritten s + 1) |>)
  end.

(** [writeControl] once it holds [wsem]: it encodes into a buffer of its own, and
    restores the caller's deadline before releasing. *)
Definition control_write (w : wowner) (t : Z) (payload : bytes) (cw : chan_write)
    (s : stream) : option error * list event * stream :=
  let restore (s : stream) := s <| ch_writeDeadline := wall s |> <| wsem := None |> in
  match Encode (zeroes (Z.to_nat (HeaderSize + zlen payload))) t payload with
  | Err e => (Some e, [], restore s)
  | Ok (_, msg) =>
    let '(err, evs, s) :=
      writeMessage (Some w) msg (Some (now s + controlWriteTimeout)) cw s in
    (err, evs, restore s)
  end.

(** [writeControl(TypePong, payload)] in the read loop. *)
Inductive ctl_sel := CtlAcquire | CtlBusy | CtlClosed | CtlTerm.

(** Its [select]: take [wsem], or see the stream close, or drop the frame when the
    timer fires first. The loop drops the pong on [errControlBusy] and returns on
    any other error. *)
Definition pong_select (sel : ctl_sel) (s : stream) : option (list event * stream) :=
  match loop s with
  | LPong payload false =>
    match sel with
    | CtlAcquire =>
      match wsem s with
      | None => Some ([], s <| wsem := Some WPong |> <| loop := LPong payload true |>)
      | Some _ => None
      end
    | CtlBusy =>
      Some ([], s <| droppedPongs := u64 (droppedPongs s + 1) |> <| loop := LReading |>)
    | CtlClosed => if closed s then Some ([], loop_fail (ESent ErrClosed) s) else None
    | CtlTerm => if term s then Some ([], loop_fail (ESent ErrClosed) s) else None
    end
  | _ => None
  end.

Definition pong_write (cw : chan_write) (s : stream) : option (list event * stream) :=
  match loop s with
  | LPong payload true =>
    let '(err, evs, s) := control_write WPong TypePong payload cw s in
    match err with
    | None => Some (evs, s <| loop := LReading |>)
    | Some e =>
      if errIs e frame_errControlBusy then
        Some (evs, s <| droppedPongs := u64 (droppedPongs s + 1) |> <| loop := LReading |>)
      else if errIs e ErrClosed then Some (evs, loop_fail (ESent ErrClosed) s)
      else Some (evs, loop_fail e s)
    end
  | _ => None
  end.

(** ** [Read] *)

(** The [select] that takes [rsem]. A zero-length read returns at once. *)
Inductive acq_sel := AcqSem | AcqClosed | AcqTerm | AcqDeadline.

Definition read_acquire (k : nat) (sel : acq_sel) (s : stream)
    : option (list event * stream) :=
  if (k =? 0)%nat then Some ([EvRead k [] None], s)
  else
    match sel with
    | AcqSem =>
      match reader s with
      | None => Some ([], s <| reader := Some (k, RTop) |>)
      | Some _ => None
      end
    | AcqClosed => if closed s then Some ([EvRead k [] (Some (ESent ErrClosed))], s) else None
    | AcqTerm => None
    | AcqDeadline =>
      if deadline_done (readDeadline s) s
      then Some ([EvRead k [] (Some (ESent os_ErrDeadlineExceeded))], s) else None
    end.

(** [take]. *)
Definition take_msg (m : nat * nat) (s : stream) : stream :=
  s <| cur := Some {| sl_id := fst m; sl_off := Z.to_nat HeaderSize; sl_end := snd m |} |>.

(** The receive from [dataCh] when it is ready. *)
Definition recv_data (s : stream) : option ((nat * nat) * stream) :=
  match dataCh s with
  | m :: q => Some (m, s <| dataCh := q |>)
  | [] => None
  end.

Definition slice_len (o : option slice) : nat :=
  match o with None => 0 | Some sl => sl_end sl - sl_off sl end.

(** The copy after the loop: hand over [min k (len cur)] bytes, and recycle the
    buffer once its message is consumed. *)
Definition read_deliver (k : nat) (sl : slice) (s : stream) : list event * stream :=
  let n := (k `min` (sl_end sl - sl_off sl))%nat in
  let p := take n (slice_bytes s sl) in
  let rest := {| sl_id := sl_id sl; sl_off := sl_off sl + n; sl_end := sl_end sl |} in
  let s := s <| cur := Some rest |> <| bytesRead := u64 (bytesRead s + Z.of_nat n) |> in
  let s := if (slice_len (Some rest) =? 0)%nat
           then putBuf (sl_id sl) s <| cur := None |> else s in
  ([EvRead k p None], s <| reader := None |>).

Definition read_return (k : nat) (e : error) (s : stream) : list event * stream :=
  ([EvRead k [] (Some e)], s <| reader := None |>).

(** The cases of the blocking [select]. *)
Inductive read_sel := SelData | SelClosed | SelDeadline.

Definition read_step (sel : read_sel) (s : stream) : option (list event * stream) :=
  match reader s with
  | None => None
  | Some (k, pc) =>
    let on_data (blocked : option (list event * stream)) :=
      match recv_data s with
      | Some (m, s) => Some ([], take_msg m s <| reader := Some (k, RTop) |>)
      | None => if dataClosed s then Some (read_return k (terminalErr s) s) else blocked
      end in
    match pc with
    | RTop =>
      match cur s with
      | Some sl =>
        if (0 <? slice_len (cur s))%nat then Some (read_deliver k sl s)
        else if closed s then Some (read_return k (ESent ErrClosed) s)
        else Some ([], s <| reader := Some (k, RTry) |>)
      | None =>
        if closed s then Some (read_return k (ESent ErrClosed) s)
        else Some ([], s <| reader := Some (k, RTry) |>)
      end
    | RTry => on_data (Some ([], s <| reader := Some (k, RSelect) |>))
    | RSelect =>
      match sel with
      | SelData => on_data None
      | SelClosed => if closed s then Some (read_return k (ESent ErrClosed) s) else None
      | SelDeadline =>
        if deadline_done (readDeadline s) s
        then Some (read_return k (ESent os_ErrDeadlineExceeded) s) else None
      end
    end
  end.

(** ** [Write] *)

(** An empty write emits no frame; otherwise the [select] that takes [wsem]. *)
Definition write_acquire (p : bytes) (sel : acq_sel) (s : stream)
    : option (list event * stream) :=
  if zlen p =? 0 then Some ([EvWrite p 0 (writable s)], s)
  else
    match sel with
    | AcqSem =>
      match wsem s with
      | None => Some ([], s <| wsem := Some (WApp p p 0 false) |>)
      | Some _ => None
      end
    | AcqClosed => if closed s then Some ([EvWrite p 0 (Some (ESent ErrClosed))], s) else None
    | AcqTerm => if term s then Some ([EvWrite p 0 (Some (writeTerminalErr s))], s) else None
    | AcqDeadline =>
      if deadline_done (writeDeadline s) s
      then Some ([EvWrite p 0 (Some (ESent os_ErrDeadlineExceeded))], s) else None
    end.

(** The [writable] check under the lock. *)
Definition write_check (s : stream) : option (list event * stream) :=
  match wsem s with
  | Some (WApp arg p w false) =>
    match writable s with
    | Some e => Some ([EvWrite arg 0 (Some e)], s <| wsem := None |>)
    | None => Some ([], s <| wsem := Some (WApp arg p w true) |>)
    end
  | _ => None
  end.

(** One iteration of the loop, or the final return. *)
Definition write_chunk (cw : chan_write) (s : stream) : option (list event * stream) :=
  match wsem s with
  | Some (WApp arg p written true) =>
    if zlen p =? 0 then Some ([EvWrite arg written None], s <| wsem := None |>)
    else
      let chunk := if maxPayload s <? zlen p then take (Z.to_nat (maxPayload s)) p else p in
      match Encode (wbuf s) TypeData chunk with
      | Err e => Some ([EvWrite arg written (Some e)], s <| wsem := None |>)
      | Ok (wbuf', msg) =>
        let s := s <| wbuf := wbuf' |> in
        let '(err, evs, s) := writeMessage (wsem s) msg (wall s) cw s in
        match err with
        | Some e => Some (evs ++ [EvWrite arg written (Some e)], s <| wsem := None |>)
        | None =>
          Some (evs, s <| bytesWritten := u64 (bytesWritten s + zlen chunk) |>
                       <| wsem := Some (WApp arg (drop (length chunk) p)
                                             (written + zlen chunk) true) |>)
        end
      end
  | _ => None
  end.

(** ** Deadlines *)

Definition SetReadDeadline (t : option Z) (s : stream) : option (list event * stream) :=
  if closed s then Some ([EvSet (Some (ESent ErrClosed))], s)
  else Some ([EvSet None], s <| readDeadline := t |>).

(** [ch_err] is what the channel's own setter returns. *)
Definition SetWriteDeadline (t : option Z) (ch_err : option error) (s : stream)
    : option (list event * stream) :=
  if closed s then Some ([EvSet (Some (ESent ErrClosed))], s)
  else
    let s := s <| wall := t |> <| writeDeadline := t |> in
    Some ([EvSet ch_err],
          match ch_err with None => s <| ch_writeDeadline := t |> | Some _ => s end).

(** ** Pings *)

(** The head of [Ping]: registers the probe unless one is outstanding. *)
Definition ping_begin (id : nat) (nonce : bytes) (s : stream)
    : option (list event * stream) :=
  match pending s with
  | Some _ =>
    Some ([EvPing (Some (EWrap "frame: a keepalive probe is already outstanding" []))], s)
  | None => Some ([], s <| pending := Some (id, nonce) |>)
  end.

(** Its deferred function. *)
Definition ping_cleanup (id : nat) (s : stream) : stream :=
  match pending s with
  | Some (id', _) => if (id =? id')%nat then s <| pending := None |> else s
  | None => s
  end.

Definition ping_return (id : nat) (e : option error) (s : stream) : list event * stream :=
  ([EvPing e], ping_cleanup id s).

(** [writeControl(TypePing, nonce)]: the select, then the write. *)
Definition ping_select (id : nat) (sel : ctl_sel) (s : stream)
    : option (list event * stream) :=
  match sel with
  | CtlAcquire =>
    match wsem s with None => Some ([], s <| wsem := Some WPing |>) | Some _ => None end
  | CtlBusy => Some (ping_return id (Some (ESent frame_errControlBusy)) s)
  | CtlClosed => if closed s then Some (ping_return id (Some (ESent ErrClosed)) s) else None
  | CtlTerm => if term s then Some (ping_return id (Some (ESent ErrClosed)) s) else None
  end.

Definition ping_write (id : nat) (nonce : bytes) (cw : chan_write) (s : stream)
    : option (list event * stream) :=
  match wsem s with
  | Some WPing =>
    let '(err, evs, s) := control_write WPing TypePing nonce cw s in
    match err with
    | None => Some (evs, s)
    | Some e => Some (evs ++ [EvPing (Some e)], ping_cleanup id s)
    end
  | _ => None
  end.

(** The final [select] of [Ping]. *)
Inductive ping_sel := PingReply | PingCtx (e : error) | PingClosed | PingTerm.

Definition ping_wait (id : nat) (sel : ping_sel) (s : stream)
    : option (list event * stream) :=
  match sel with
  | PingReply =>
    if bool_decide (id ∈ replies s) then Some (ping_return id None s) else None
  | PingCtx e => Some (ping_return id (Some e) s)
  | PingClosed => if closed s then Some (ping_return id (Some (ESent ErrClosed)) s) else None
  | PingTerm => if term s then Some (ping_return id (Some (writeTerminalErr s)) s) else None
  end.

(** ** Closing *)

(** [drain := local && s.Err() == nil]. *)
Definition close_drain (local : bool) (s : stream) : bool :=
  local && match readErr s with None => true | Some _ => false end.

(** The body of [localOnce]; a second entry finds it done. *)
Definition close_local (s : stream) : stream :=
  if closed s then s else setReadErr (ESent ErrClosed) s <| closed := true |>.

(** The first statement of [ShutdownEOF]. *)
Definition force_eof (s : stream) : stream := s <| readErr := Some (ESent io_EOF) |>.

(** Entering [termOnce]: only the first caller runs its body. *)
Definition term_enter (code : Z) (reason : bytes) (local drain : bool) (s : stream) : stream :=
  match termOnce s with
  | TNone => s <| termOnce := TSend code reason local drain |>
  | _ => s
  end.

(** [sendCloseFrame]: skipped when [wsem] is taken; its error is ignored. *)
Definition term_send (cw : chan_write) (s : stream) : option (list event * stream) :=
  match termOnce s with
  | TSend code reason local drain =>
    let s := s <| termOnce := TSent local drain |> in
    match wsem s with
    | Some _ => Some ([], s)
    | None =>
      let body := EncodeClose code reason in
      match Encode (zeroes (Z.to_nat (HeaderSize + zlen body))) TypeClose body with
      | Err _ => Some ([], s)
      | Ok (_, msg) =>
        let '(_, evs, s) :=
          writeMessage None msg (Some (now s + controlWriteTimeout)) cw s in
        Some (evs, s)
      end
    end
  | _ => None
  end.

(** The rest of the body: record EOF for a remote end, stop the read loop, expire
    the channel's read deadline and start [release]. *)
Definition term_finish (s : stream) : option (list event * stream) :=
  match termOnce s with
  | TSent local drain =>
    let s := if local then s else setReadErr (ESent io_EOF) s in
    Some ([], s <| term := true |> <| ch_readDeadline := Some (now s - second) |>
                <| release := RelStart drain |> <| termOnce := TDone |>)
  | _ => None
  end.

(** [release] up to its first wait: without [drain] it closes the channel at once;
    with it, it waits for [done] and drains if the channel reports its backlog. *)
Definition release_start (has_amount : bool) (s : stream) : option (list event * stream) :=
  match release s with
  | RelStart false => Some ([], s <| release := RelClosing |>)
  | RelStart true =>
    if done s then
      if has_amount then
        let '(b, s) := getBuf s in
        Some ([], s <| release := RelDrain b (now s + drainTimeout) |>)
      else Some ([], s <| release := RelClosing |>)
    else None
  | _ => None
  end.

(** One iteration of [awaitAcks]: [amount] is [BufferedAmount()], [r] what the read
    returned if it ran. *)
Definition release_poll (amount : Z) (r : result error bytes) (s : stream)
    : option (list event * stream) :=
  match release s with
  | RelDrain b dl =>
    let finish (s : stream) := Some ([], putBuf b s <| release := RelClosing |>) in
    if (0 <? amount) && (now s <? dl) then
      let s := s <| ch_readDeadline := Some (now s + drainPoll) |> in
      match r with
      | Err e => if negb (isTimeout e) then finish s else Some ([], s)
      | Ok m => if (bufcap s <? length m)%nat then None else Some ([], fill b m s)
      end
    else finish s
  | _ => None
  end.

(** [ch.Close()], then the deferred [close(s.released)]. *)
Definition release_close (s : stream) : option (list event * stream) :=
  match release s with
  | RelClosing =>
    Some ([], s <| ch_closed := true |> <| released := true |> <| release := RelDone |>)
  | _ => None
  end.

(** ** All segments *)

Inductive action :=
| ALoopRead (r : result error bytes) | ALoopPush | ALoopPushTerm
| APongSelect (sel : ctl_sel) | APongWrite (cw : chan_write)
| ALoopCloseData | ALoopCloseDone
| ARead (k : nat) (sel : acq_sel) | AReadStep (sel : read_sel)
| AWrite (p : bytes) (sel : acq_sel) | AWriteCheck | AWriteChunk (cw : chan_write)
| ASetRead (t : option Z) | ASetWrite (t : option Z) (e : option error)
| APing (id : nat) (nonce : bytes) | APingSelect (id : nat) (sel : ctl_sel)
| APingWrite (id : nat) (nonce : bytes) (cw : chan_write) | APingWait (id : nat) (sel : ping_sel)
| ACloseLocal | AForceEOF | ATermEnter (code : Z) (reason : bytes) (local drain : bool)
| ATermSend (cw : chan_write) | ATermFinish
| AReleaseStart (has_amount : bool) | AReleasePoll (amount : Z) (r : result error bytes)
| AReleaseClose
| ATick (d : Z).

Definition exec (a : action) (s : stream) : option (list event * stream) :=
  match a with
  | ALoopRead r => loop_read r s
  | ALoopPush => loop_push s
  | ALoopPushTerm => loop_push_term s
  | APongSelect sel => pong_select sel s
  | APongWrite cw => pong_write cw s
  | ALoopCloseData => loop_close_data s
  | ALoopCloseDone => loop_close_done s
  | ARead k sel => read_acquire k sel s
  | AReadStep sel => read_step sel s
  | AWrite p sel => write_acquire p sel s
  | AWriteCheck => write_check s
  | AWriteChunk cw => write_chunk cw s
  | ASetRead t => SetReadDeadline t s
  | ASetWrite t e => SetWriteDeadline t e s
  | APing id nonce => ping_begin id nonce s
  | APingSelect id sel => ping_select id sel s
  | APingWrite id nonce cw =>
    (* the nonce is a [[PingSize]byte] *)
    if zlen nonce =? PingSize then ping_write id nonce cw s else None
  | APingWait id sel => ping_wait id sel s
  | ACloseLocal => Some ([], close_local s)
  | AForceEOF => Some ([], force_eof s)
  | ATermEnter code reason local drain =>
    (* a local closer has run [localOnce] before it gets here, and only a local close
       drains *)
    if (negb local || closed s) && (negb drain || local) then Some ([], term_enter code reason local drain s) else None
  | ATermSend cw => term_send cw s
  | ATermFinish => term_finish s
  | AReleaseStart b => release_start b s
  | AReleasePoll n r => release_poll n r s
  | AReleaseClose => release_close s
  | ATick d => if 0 <=? d then Some ([], s <| now := now s + d |>) else None
  end.

(** A run of segments, and what it made observable. *)
Fixpoint run (acts : list action) (s : stream) : option (list event * stream) :=
  match acts with
  | [] => Some ([], s)
  | a :: acts' =>
    match exec a s with
    | None => None
    | Some (evs, s') =>
      match run acts' s' with
      | None => None
      | Some (evs', s'') => Some (evs ++ evs', s'')
      end
    end
  end.

(** The states any interleaving reaches, with the events on the way. *)
Inductive reachable (cfg : Config) : list event -> stream -> Prop :=
| reach_new : reachable cfg [] (NewStream cfg)
| reach_step evs s a evs' s' :
    reachable cfg evs s -> exec a s = Some (evs', s') -> reachable cfg (evs ++ evs') s'.

(** [terminate] run to its end by one closer, with no other segment between. *)
Definition terminate (code : Z) (reason : bytes) (local : bool) (cw : chan_write)
    (s : stream) : list event * stream :=
  let drain := close_drain local s in
  let s := if local then close_local s else s in
  let s := term_enter code reason local drain s in
  match term_send cw s with
  | None => ([], s)
  | Some (evs, s) =>
    match term_finish s with
    | None => (evs, s)
    | Some (evs', s) => (evs ++ evs', s)
    end
  end.

Definition CloseWith (code : Z) (reason : bytes) (cw : chan_write) (s : stream) :=
  terminate code reason true cw s.
Definition Close (cw : chan_write) (s : stream) := CloseWith CloseNormal [] cw s.
Definition Shutdown (code : Z) (reason : bytes) (cw : chan_write) (s : stream) :=
  terminate code reason false cw s.
Definition ShutdownEOF (code : Z) (reason : bytes) (cw : chan_write) (s : stream) :=
  terminate code reason false cw (force_eof s).

(** [Stats]. *)
Record Stats := { st_bytesRead : Z; st_bytesWritten : Z; st_framesRead : Z;
                  st_framesWritten : Z; st_droppedPongs : Z }.
Definition stats (s : stream) : Stats :=
  {| st_bytesRead := bytesRead s; st_bytesWritten := bytesWritten s;
     st_framesRead := framesRead s; st_framesWritten := framesWritten s;
     st_droppedPongs := droppedPongs s |}.
