(* ===== verification/StreamCtl.v ===== *)
(** * The control state of the stream: closing, terminating, releasing

    The relations between the flags that concurrent segments of the stream keep:
    which goroutine has finished, which error is recorded and who owns the write
    side. They hold in every state an interleaving reaches. *)

From S2P Require Import Prelude.
From S2P Require Import Errors.
From S2P Require Import Frame.
From S2P Require Import Stream.

(** The fields the control state consists of. *)
Record cview := {
  c_loop : loop_pc; c_dataClosed : bool; c_done : bool; c_closed : bool; c_term : bool;
  c_released : bool; c_once : once_pc; c_release : release_pc; c_err : option error;
  c_chClosed : bool; c_wsem : option wowner
}.

Definition ctl (s : stream) : cview := {|
  c_loop := loop s; c_dataClosed := dataClosed s; c_done := done s; c_closed := closed s;
  c_term := term s; c_released := released s; c_once := termOnce s;
  c_release := release s; c_err := readErr s; c_chClosed := ch_closed s;
  c_wsem := wsem s |}.

#[export] Instance cview_eta : Eta cview := fun c => {|
  c_loop := c_loop c; c_dataClosed := c_dataClosed c; c_done := c_done c;
  c_closed := c_closed c; c_term := c_term c; c_released := c_released c;
  c_once := c_once c; c_release := c_release c; c_err := c_err c;
  c_chClosed := c_chClosed c; c_wsem := c_wsem c |}.

Definition loop_stopped (l : loop_pc) : bool :=
  match l with LExiting | LExited => true | _ => false end.

(** A termination in progress or done is local, or drains. *)
Definition once_local (o : once_pc) : bool :=
  match o with TSend _ _ l _ | TSent l _ => l | _ => false end.
Definition once_drain (o : once_pc) : bool :=
  match o with TSend _ _ _ d | TSent _ d => d | _ => false end.
Definition release_drains (r : release_pc) : bool :=
  match r with RelStart d => d | RelDrain _ _ => true | _ => false end.

Record cv_ok (c : cview) : Prop := {
  cv_once : c_once c = TDone <-> c_term c = true;
  cv_release : c_release c = RelNone <-> c_term c = false;
  cv_local : once_local (c_once c) = true -> c_closed c = true;
  cv_drain : once_drain (c_once c) = true -> c_closed c = true;
  cv_drains : release_drains (c_release c) = true -> c_closed c = true;
  cv_stopped : c_dataClosed c = true -> loop_stopped (c_loop c) = true;
  cv_done : c_done c = true <-> c_loop c = LExited;
  cv_exited : c_loop c = LExited -> c_dataClosed c = true;
  cv_waits : match c_release c with RelDrain _ _ => c_done c = true | _ => True end;
  cv_released : c_released c = true <-> c_release c = RelDone;
  cv_chClosed : c_chClosed c = c_released c;
  cv_err : loop_stopped (c_loop c) || c_closed c || c_term c = true -> is_Some (c_err c);
  cv_pong : c_wsem c = Some WPong <-> match c_loop c with LPong _ true => True | _ => False end
}.

Abbreviation ctl_ok s := (cv_ok (ctl s)).

Lemma writeMessage_ctl w msg dl cw s err evs s' :
  writeMessage w msg dl cw s = (err, evs, s') -> ctl s' = ctl s.
Proof. unfold writeMessage. intros H. by repeat case_match; simplify_eq. Qed.

Lemma control_write_ctl w t p cw s err evs s' :
  control_write w t p cw s = (err, evs, s') -> ctl s' = ctl (s <| wsem := None |>).
Proof.
  unfold control_write. intros H. destruct (Encode _ _ _) as [[? msg]|]; [|injection H as <- <- <-; reflexivity].
  destruct (writeMessage _ _ _ _ _) as [[? ?] s0] eqn:Hw. injection H as <- <- <-.
  apply writeMessage_ctl in Hw. transitivity (ctl s0 <| c_wsem := None |>); [done|].
  by rewrite Hw.
Qed.

Lemma ctl_putBuf b s : ctl (putBuf b s) = ctl s.
Proof. unfold putBuf. by repeat case_match. Qed.

Lemma ctl_getBuf s : ctl (snd (getBuf s)) = ctl s.
Proof. unfold getBuf. by repeat case_match. Qed.

Lemma ctl_fill b m s : ctl (fill b m s) = ctl s.
Proof. done. Qed.

Lemma setReadErr_some e s : is_Some (readErr (setReadErr e s)).
Proof. unfold setReadErr. destruct (readErr s) eqn:E; [rewrite E|]; eauto. Qed.

(** The control steps, as functions of the view. *)
Definition c_set_err (e : error) (c : cview) : option error :=
  match c_err c with None => Some e | o => o end.

Lemma ctl_setReadErr e s : ctl (setReadErr e s) = ctl s <| c_err := c_set_err e (ctl s) |>.
Proof. unfold setReadErr, c_set_err, ctl. simpl. destruct (readErr s) eqn:E; simpl; by rewrite ?E. Qed.

Lemma ctl_loop_fail e s :
  ctl (loop_fail e s) = ctl s <| c_err := c_set_err e (ctl s) |> <| c_loop := LExiting |>.
Proof. unfold loop_fail, setReadErr, c_set_err, ctl. simpl. destruct (readErr s) eqn:E; simpl; by rewrite ?E. Qed.

(** [wsem] changes hands between owners that are not the pong. *)
Lemma cv_wsem c w :
  cv_ok c -> c_wsem c <> Some WPong -> w <> Some WPong -> cv_ok (c <| c_wsem := w |>).
Proof.
  intros [] H1 H2. constructor; simpl; try done.
  destruct cv_pong0. tauto.
Qed.

(** The loop moves while it runs. *)
Lemma cv_loop_run c l w :
  cv_ok c -> loop_stopped (c_loop c) = false -> loop_stopped l = false ->
  (w = Some WPong <-> match l with LPong _ true => True | _ => False end) ->
  cv_ok (c <| c_loop := l |> <| c_wsem := w |>).
Proof.
  intros [] H1 H2 H3. rewrite H1 in *.
  assert (Hd : c_dataClosed c = false) by (destruct (c_dataClosed c); intuition congruence).
  assert (Hn : c_done c = false).
  { destruct (c_done c); [|done]. destruct cv_done0 as [E _]. rewrite E in H1; done. }
  constructor; simpl; rewrite ?Hd, ?Hn, ?H2 in *; try done.
  - split; [done|]. intros ->. done.
  - intros ->. done.
Qed.

(** The loop stops with an error recorded. *)
Lemma cv_loop_stop c e w :
  cv_ok c -> loop_stopped (c_loop c) = false -> w <> Some WPong ->
  cv_ok (c <| c_err := c_set_err e c |> <| c_loop := LExiting |> <| c_wsem := w |>).
Proof.
  intros [] H1 H2. rewrite H1 in *.
  assert (Hn : c_done c = false).
  { destruct (c_done c); [|done]. destruct cv_done0 as [E _]. rewrite E in H1; done. }
  constructor; simpl; rewrite ?Hn in *; try done.
  intros _. unfold c_set_err. destruct (c_err c); eauto.
Qed.

Lemma cv_err_mono c o :
  cv_ok c -> (is_Some (c_err c) -> is_Some o) -> cv_ok (c <| c_err := o |>).
Proof. intros [] H. constructor; simpl; auto. Qed.

Lemma cv_ok_eta c c' : c' = c -> cv_ok c -> cv_ok c'.
Proof. by intros ->. Qed.

Lemma ctl_NewStream cfg : ctl_ok (NewStream cfg).
Proof. constructor; simpl; try done. Qed.

(** Segments of the read loop. *)
Lemma ctl_loop_read r s evs s' :
  ctl_ok s -> loop_read r s = Some (evs, s') -> ctl_ok s'.
Proof.
  intros Hok H. unfold loop_read in H. destruct (loop s) eqn:El; try discriminate.
  assert (Hw : c_wsem (ctl s) <> Some WPong).
  { intros E. apply (cv_pong _ Hok) in E. simpl in E. by rewrite El in E. }
  assert (Hs : loop_stopped (c_loop (ctl s)) = false) by (simpl; by rewrite El).
  pose proof (cv_loop_stop (ctl s)) as Hfail.
  assert (Hrun : forall l, loop_stopped l = false ->
    match l with LPong _ true => False | _ => True end -> cv_ok (ctl (s <| loop := l |>))).
  { intros l Hl Hp. apply (cv_loop_run (ctl s) l (wsem s)); try done.
    split; [by intros E|]. by destruct l as [| |? []| |]. }
  destruct r as [m|e].
  - destruct (_ <? _)%nat; [discriminate|].
    destruct (Parse _ _) as [[hdr p]|e]; injection H as <- <-.
    + unfold loop_frame, deliverPong.
      repeat case_match; rewrite ?ctl_loop_fail; try done.
      all: first [ by apply (Hrun (LPushing _)) | by apply (Hrun (LPong _ _))
                 | by apply (Hfail _ (wsem s)) ].
    + rewrite ctl_loop_fail. by apply (Hfail _ (wsem s)).
  - injection H as <- <-. rewrite ctl_loop_fail. by apply (Hfail _ (wsem s)).
Qed.

Lemma ctl_loop_push s evs s' :
  ctl_ok s -> loop_push s = Some (evs, s') -> ctl_ok s'.
Proof.
  intros Hok H. unfold loop_push in H. destruct (loop s) eqn:El; try discriminate.
  destruct (_ <? _)%nat; [|discriminate]. destruct (getBuf _) as [b s1] eqn:Eg.
  injection H as <- <-.
  assert (Hg : ctl s1 = ctl s).
  { change s1 with (snd (b, s1)). rewrite <- Eg. by rewrite ctl_getBuf. }
  assert (Hw : c_wsem (ctl s) <> Some WPong).
  { intros E. apply (cv_pong _ Hok) in E. simpl in E. by rewrite El in E. }
  apply (cv_ok_eta (ctl s <| c_loop := LReading |> <| c_wsem := wsem s |>)).
  - transitivity (ctl s1 <| c_loop := LReading |>); [done|]. by rewrite Hg.
  - apply cv_loop_run; try done. simpl. by rewrite El.
Qed.

Lemma ctl_loop_fail_ok e s :
  ctl_ok s -> loop_stopped (loop s) = false -> wsem s <> Some WPong ->
  ctl_ok (loop_fail e s).
Proof. intros. rewrite ctl_loop_fail. by apply (cv_loop_stop (ctl s) e (wsem s)). Qed.

Lemma not_pong s :
  ctl_ok s -> (match loop s with LPong _ true => False | _ => True end) ->
  wsem s <> Some WPong.
Proof. intros Hok Hl E. apply (cv_pong _ Hok) in E. simpl in E. by case_match; try case_match. Qed.

Lemma ctl_pong_select sel s evs s' :
  ctl_ok s -> pong_select sel s = Some (evs, s') -> ctl_ok s'.
Proof.
  intros Hok H. unfold pong_select in H. destruct (loop s) as [| |p [|]| |] eqn:El; try discriminate.
  assert (Hw : wsem s <> Some WPong) by (apply not_pong; [done|by rewrite El]).
  repeat case_match; simplify_eq; try (apply ctl_loop_fail_ok; [done|by rewrite El|done]).
  - apply (cv_loop_run (ctl s) (LPong p true) (Some WPong)); try done. simpl; by rewrite El.
  - apply (cv_loop_run (ctl s) LReading (wsem s)); try done. simpl; by rewrite El.
Qed.

Lemma ctl_pong_write cw s evs s' :
  ctl_ok s -> pong_write cw s = Some (evs, s') -> ctl_ok s'.
Proof.
  intros Hok H. unfold pong_write in H. destruct (loop s) as [| |p [|]| |] eqn:El; try discriminate.
  destruct (control_write _ _ _ _ _) as [[err ev1] s1] eqn:Hw.
  apply control_write_ctl in Hw.
  assert (Hl : loop_stopped (c_loop (ctl s)) = false) by (simpl; by rewrite El).
  assert (Hr : forall s2, ctl s2 = ctl s1 <| c_loop := LReading |> -> ctl_ok s2).
  { intros s2 ->. rewrite Hw. by apply (cv_loop_run (ctl s) LReading None). }
  assert (Hf : forall e, ctl_ok (loop_fail e s1)).
  { intros e. rewrite ctl_loop_fail, Hw. by apply (cv_loop_stop (ctl s) e None). }
  repeat case_match; injection H as <- <-; solve [by apply Hr | apply Hf].
Qed.

Lemma ctl_loop_close s evs s' :
  ctl_ok s -> loop_close_data s = Some (evs, s') \/ loop_close_done s = Some (evs, s') ->
  ctl_ok s'.
Proof.
  intros [] H. unfold loop_close_data, loop_close_done in H.
  destruct (loop s) eqn:El; try by destruct H.
  destruct (dataClosed s) eqn:Ed; destruct H; simplify_eq;
    constructor; simpl in *; rewrite ?El, ?Ed in *; try done.
  by destruct (release s).
Qed.

(** Segments of readers, writers and pings touch [wsem] at most. *)
Lemma ctl_wsem s s' w :
  ctl_ok s -> ctl s' = ctl s <| c_wsem := w |> -> wsem s <> Some WPong ->
  w <> Some WPong -> ctl_ok s'.
Proof. intros Hok -> H1 H2. by apply cv_wsem. Qed.

Lemma ctl_read_deliver k sl s : ctl (snd (read_deliver k sl s)) = ctl s.
Proof. unfold read_deliver, putBuf. simpl. by repeat case_match. Qed.

Lemma ctl_read_step sel s evs s' :
  read_step sel s = Some (evs, s') -> ctl s' = ctl s.
Proof.
  unfold read_step, read_return. intros H. destruct (reader s) as [[k pc]|]; [|discriminate].
  destruct pc.
  - destruct (cur s) as [sl|]; repeat case_match; try by simplify_eq.
    apply (inj Some) in H. by rewrite <- (ctl_read_deliver k sl s), H.
  - unfold recv_data in H. by repeat case_match; simplify_eq.
  - unfold recv_data in H. by repeat case_match; simplify_eq.
Qed.

Lemma ctl_write p sel cw a s evs s' :
  ctl_ok s -> a = AWrite p sel \/ a = AWriteCheck \/ a = AWriteChunk cw ->
  exec a s = Some (evs, s') -> ctl_ok s'.
Proof.
  intros Hok [-> | [-> | ->]] H; simpl in H.
  - unfold write_acquire in H. repeat case_match; simplify_eq; try done.
    apply (ctl_wsem s _ (Some (WApp p p 0 false))); try done. congruence.
  - unfold write_check in H. destruct (wsem s) as [[g q w []| |]|] eqn:Ew; try discriminate.
    case_match; simplify_eq.
    + apply (ctl_wsem s _ None); try done. congruence.
    + apply (ctl_wsem s _ (Some (WApp g q w true))); try done. congruence.
  - unfold write_chunk in H. destruct (wsem s) as [[g q w []| |]|] eqn:Ew; try discriminate.
    assert (Hn : wsem s <> Some WPong) by congruence.
    destruct (_ =? _).
    { injection H as <- <-. by apply (ctl_wsem s _ None). }
    destruct (Encode _ _ _) as [[b msg]|].
    2: { injection H as <- <-. by apply (ctl_wsem s _ None). }
    destruct (writeMessage _ _ _ _ _) as [[err ev1] s1] eqn:Hw.
    apply writeMessage_ctl in Hw. set (chunk := if _ <? _ then _ else _) in *.
    destruct err; injection H as <- <-.
    + apply (ctl_wsem s _ None); try done.
      transitivity (ctl s1 <| c_wsem := None |>); [done|by rewrite Hw].
    + apply (ctl_wsem s _ (Some (WApp g (drop (length chunk) q) (w + zlen chunk) true))); try done.
      transitivity (ctl s1 <| c_wsem :=
        Some (WApp g (drop (length chunk) q) (w + zlen chunk) true) |>); [done|by rewrite Hw].
Qed.

Lemma ctl_ping_cleanup id s : ctl (ping_cleanup id s) = ctl s.
Proof. unfold ping_cleanup. by repeat case_match. Qed.

Lemma ctl_ping a s evs s' :
  ctl_ok s ->
  match a with APing _ _ | APingSelect _ _ | APingWrite _ _ _ | APingWait _ _ => True
  | _ => False end ->
  exec a s = Some (evs, s') -> ctl_ok s'.
Proof.
  intros Hok Ha H. destruct a; try done; simpl in H.
  - unfold ping_begin in H. by repeat case_match; simplify_eq.
  - unfold ping_select, ping_return in H.
    repeat case_match; simplify_eq; rewrite ?ctl_ping_cleanup; try done.
    apply (ctl_wsem s _ (Some WPing)); try done. congruence.
  - destruct (_ =? _); [|discriminate]. unfold ping_write in H. destruct (wsem s) as [[]|] eqn:Ew; try discriminate.
    destruct (control_write _ _ _ _ _) as [[err ev1] s1] eqn:Hw.
    apply control_write_ctl in Hw.
    assert (ctl_ok s1) by (apply (ctl_wsem s _ None); [done|done|congruence|done]).
    repeat case_match; injection H as <- <-; by rewrite ?ctl_ping_cleanup.
  - unfold ping_wait, ping_return in H.
    repeat case_match; simplify_eq; by rewrite ctl_ping_cleanup.
Qed.

Lemma ctl_close_local s : ctl_ok s -> ctl_ok (close_local s).
Proof.
  intros Hok. unfold close_local. destruct (closed s) eqn:Ec; [done|].
  apply (cv_ok_eta (ctl s <| c_err := c_set_err (ESent ErrClosed) (ctl s) |>
                          <| c_closed := true |>)).
  { transitivity (ctl (setReadErr (ESent ErrClosed) s) <| c_closed := true |>); [done|].
    by rewrite ctl_setReadErr. }
  destruct Hok. constructor; simpl; try done.
  intros _. unfold c_set_err. destruct (c_err (ctl s)); eauto.
Qed.

Lemma ctl_force_eof s : ctl_ok s -> ctl_ok (force_eof s).
Proof. intros Hok. apply (cv_err_mono (ctl s) (Some (ESent io_EOF))); [done|]. eauto. Qed.

Lemma ctl_term_enter code reason local drain s :
  ctl_ok s -> (negb local || closed s) && (negb drain || local) = true ->
  ctl_ok (term_enter code reason local drain s).
Proof.
  intros Hok Hg. unfold term_enter. destruct (termOnce s) eqn:Et; try done.
  destruct Hok. constructor; simpl in *; rewrite ?Et in *; try done.
  all: destruct (closed s), local, drain; try done; simpl in *.
  all: split; [done|]; intros E; by apply cv_once0 in E.
Qed.

Lemma ctl_term_send cw s evs s' :
  ctl_ok s -> term_send cw s = Some (evs, s') -> ctl_ok s'.
Proof.
  intros Hok H. unfold term_send in H. destruct (termOnce s) eqn:Et; try discriminate.
  assert (Hs : cv_ok (ctl s <| c_once := TSent local drain |>)).
  { destruct Hok. constructor; simpl in *; rewrite ?Et in *; try done.
    split; [done|]. intros E. by apply cv_once0 in E. }
  repeat case_match; simplify_eq; try done.
  match goal with Hw : writeMessage _ _ _ _ _ = _ |- _ => apply writeMessage_ctl in Hw end.
  by apply (cv_ok_eta _ _ H3).
Qed.

Lemma ctl_term_finish s evs s' :
  ctl_ok s -> term_finish s = Some (evs, s') -> ctl_ok s'.
Proof.
  intros Hok H. unfold term_finish in H.
  destruct (termOnce s) as [| |local drain|] eqn:Et; try discriminate.
  injection H as <- <-.
  apply (cv_ok_eta (ctl s <| c_err := if local then c_err (ctl s)
       else c_set_err (ESent io_EOF) (ctl s) |> <| c_term := true |>
       <| c_release := RelStart drain |> <| c_once := TDone |>)).
  { destruct local; [done|].
    transitivity (ctl (setReadErr (ESent io_EOF) s) <| c_term := true |>
       <| c_release := RelStart drain |> <| c_once := TDone |>); [done|].
    by rewrite ctl_setReadErr. }
  assert (Hn : term s = false).
  { destruct (term s) eqn:E; [|done]. apply (cv_once _ Hok) in E. simpl in E. congruence. }
  assert (Hr : release s = RelNone) by (by apply (cv_release _ Hok)).
  destruct Hok. constructor; simpl in *; rewrite ?Et, ?Hn, ?Hr in *; try done.
  - split; [|done]. intros E. by apply cv_released0 in E.
  - intros _. destruct local.
    + apply cv_err0. rewrite cv_local0 by done. by rewrite orb_true_r.
    + unfold c_set_err. destruct (c_err (ctl s)); eauto.
Qed.

Lemma ctl_release a s evs s' :
  ctl_ok s ->
  match a with AReleaseStart _ | AReleasePoll _ _ | AReleaseClose => True | _ => False end ->
  exec a s = Some (evs, s') -> ctl_ok s'.
Proof.
  intros Hok Ha H.
  assert (Hrel : forall r, (r = RelDone -> False) -> (release s = RelNone -> False) ->
    (release s = RelDone -> False) ->
    r <> RelNone -> (release_drains r = true -> closed s = true) ->
    (match r with RelDrain _ _ => done s = true | _ => True end) ->
    cv_ok (ctl s <| c_release := r |>)).
  { intros r Hr1 Hs1 Hs2 Hr2 Hr3 Hr4. destruct Hok. constructor; simpl in *; try done.
    - split; [done|]. intros E. by apply cv_release0 in E.
    - split; [|done]. intros E. by apply cv_released0 in E. }
  destruct a; try done; simpl in H.
  - unfold release_start in H. destruct (release s) as [|[]| | |] eqn:Er; try discriminate.
    + destruct (done s) eqn:Ed; [|discriminate]. destruct has_amount.
      * destruct (getBuf s) as [b s1] eqn:Eg. injection H as <- <-.
        assert (Hg : ctl s1 = ctl s).
        { change s1 with (snd (b, s1)). rewrite <- Eg. apply ctl_getBuf. }
        apply (cv_ok_eta (ctl s <| c_release := RelDrain b (now s1 + drainTimeout) |>)).
        { rewrite <- Hg. done. }
        apply Hrel; try done. intros _. apply (cv_drains _ Hok). simpl. by rewrite Er.
      * injection H as <- <-. by apply Hrel.
    + injection H as <- <-. by apply Hrel.
  - unfold release_poll in H. destruct (release s) eqn:Er; try discriminate.
    assert (Hput : forall s1 t, ctl s1 = ctl s ->
      ctl_ok (putBuf t s1 <| release := RelClosing |>)).
    { intros s1 t Hs1. apply (cv_ok_eta (ctl s <| c_release := RelClosing |>)).
      - rewrite <- Hs1, <- (ctl_putBuf t s1). done.
      - by apply Hrel. }
    repeat case_match; simplify_eq; try done; by apply Hput.
  - unfold release_close in H. destruct (release s) eqn:Er; try discriminate.
    injection H as <- <-. destruct Hok. constructor; simpl in *; rewrite ?Er in *; try done.
    split; [done|]. intros E. by apply cv_release0 in E.
Qed.

Lemma exec_ctl a s evs s' : ctl_ok s -> exec a s = Some (evs, s') -> ctl_ok s'.
Proof.
  intros Hok H. destruct a;
    try match type of H with exec ?a _ = _ =>
      first [exact (ctl_ping a _ _ _ Hok I H) | exact (ctl_release a _ _ _ Hok I H)] end;
    simpl in H.
  - by eapply ctl_loop_read.
  - by eapply ctl_loop_push.
  - unfold loop_push_term in H. destruct (loop s) eqn:El; try discriminate.
    destruct (term s); [|discriminate]. injection H as <- <-.
    apply ctl_loop_fail_ok; [done|by rewrite El|]. apply not_pong; [done|by rewrite El].
  - by eapply ctl_pong_select.
  - by eapply ctl_pong_write.
  - eapply ctl_loop_close; eauto.
  - eapply ctl_loop_close; eauto.
  - unfold read_acquire in H. by repeat case_match; simplify_eq.
  - apply ctl_read_step in H. by rewrite H.
  - by apply (ctl_write p sel (CWrote 0) (AWrite p sel) s evs s'); [|left|].
  - by apply (ctl_write [] AcqSem (CWrote 0) AWriteCheck s evs s'); [|right; left|].
  - by apply (ctl_write [] AcqSem cw (AWriteChunk cw) s evs s'); [|right; right|].
  - unfold SetReadDeadline in H. by repeat case_match; simplify_eq.
  - unfold SetWriteDeadline in H. by repeat case_match; simplify_eq.
  - simplify_eq. by apply ctl_close_local.
  - simplify_eq. by apply ctl_force_eof.
  - case_match; simplify_eq. by apply ctl_term_enter.
  - by eapply ctl_term_send.
  - by eapply ctl_term_finish.
  - by case_match; simplify_eq.
Qed.

Lemma reachable_ctl cfg evs s : reachable cfg evs s -> ctl_ok s.
Proof. induction 1; [apply ctl_NewStream|by eapply exec_ctl]. Qed.

(** A close run to its end keeps the control state consistent. *)
Lemma ctl_terminate code reason local cw s :
  ctl_ok s -> ctl_ok (snd (terminate code reason local cw s)).
Proof.
  intros Hok. unfold terminate.
  assert (H1 : ctl_ok (if local then close_local s else s)).
  { destruct local; [by apply ctl_close_local|done]. }
  set (s1 := if local then close_local s else s) in *.
  assert (H2 : ctl_ok (term_enter code reason local (close_drain local s) s1)).
  { apply ctl_term_enter; [done|]. unfold s1, close_local, close_drain.
    destruct local; simpl; [|done]. destruct (closed s) eqn:Ec; simpl; rewrite ?Ec; simpl;
      by destruct (readErr s). }
  destruct (term_send cw _) as [[evs s2]|] eqn:Es; [|done].
  pose proof (ctl_term_send _ _ _ _ H2 Es) as H3.
  destruct (term_finish s2) as [[evs' s3]|] eqn:Ef; [|done].
  by eapply ctl_term_finish.
Qed.
