(* ===== verification/StreamRecv.v ===== *)
(** * The receive side of the stream: buffers are never shared, bytes keep their order

    The receive side is viewed as a record of the fields that carry received data.
    Ownership of a buffer identity is exclusive: the read loop, the free list, the
    queue, the reader and the drain goroutine own disjoint sets. Under that invariant
    the bytes in flight inside the stream are a function of the store that no other
    segment changes, which gives the integrity of the byte stream. *)

From S2P Require Import Prelude.
From S2P Require Import Utf8.
From S2P Require Import Errors.
From S2P Require Import Frame.
From S2P Require Import Stream.
From S2P Require Import StreamCtl.

Record rview := {
  v_max : Z; v_depth : nat; v_heap : gmap nat bytes; v_next : nat; v_free : list nat;
  v_q : list (nat * nat); v_parked : option nat; v_live : bool; v_lbuf : nat;
  v_cur : option slice; v_drain : option nat; v_wait : bool
}.

#[export] Instance rview_eta : Eta rview := fun v => {|
  v_max := v_max v; v_depth := v_depth v; v_heap := v_heap v; v_next := v_next v;
  v_free := v_free v; v_q := v_q v; v_parked := v_parked v; v_live := v_live v;
  v_lbuf := v_lbuf v; v_cur := v_cur v; v_drain := v_drain v; v_wait := v_wait v |}.

Definition loop_parked (l : loop_pc) : option nat :=
  match l with LPushing n => Some n | _ => None end.
Definition loop_live (l : loop_pc) : bool :=
  match l with LExiting | LExited => false | _ => true end.
Definition drain_buf (r : release_pc) : option nat :=
  match r with RelDrain b _ => Some b | _ => None end.

(** A reader past the head of its loop: it found no unread message. *)
Definition reader_waits (r : option (nat * reader_pc)) : bool :=
  match r with Some (_, RTry) | Some (_, RSelect) => true | _ => false end.

Definition view (s : stream) : rview := {|
  v_max := maxPayload s; v_depth := depth s; v_heap := heap s; v_next := next_id s;
  v_free := free s; v_q := dataCh s; v_parked := loop_parked (loop s);
  v_live := loop_live (loop s); v_lbuf := loop_buf s; v_cur := cur s;
  v_drain := drain_buf (release s); v_wait := reader_waits (reader s) |}.

(** ** The buffer operations on a view *)

Definition vcap (v : rview) : nat := Z.to_nat (HeaderSize + v_max v).
Definition vbuf (v : rview) (b : nat) : bytes := default [] (v_heap v !! b).

Definition vget (v : rview) : nat * rview :=
  match v_free v with
  | b :: rest => (b, v <| v_free := rest |>)
  | [] => (v_next v, v <| v_heap := <[v_next v := zeroes (vcap v)]> (v_heap v) |>
                       <| v_next := S (v_next v) |>)
  end.

Definition vput (b : nat) (v : rview) : rview :=
  if (length (vbuf v b) <? vcap v)%nat then v
  else if (length (v_free v) <? v_depth v + 2)%nat then v <| v_free := v_free v ++ [b] |>
  else v.

Definition vset (b : nat) (x : bytes) (v : rview) : rview :=
  v <| v_heap := <[b := x]> (v_heap v) |>.

Lemma view_getBuf s : getBuf s = (fst (vget (view s)), snd (getBuf s)) /\
  view (snd (getBuf s)) = snd (vget (view s)).
Proof. unfold getBuf, vget, view. simpl. destruct (free s); split; reflexivity. Qed.

Lemma view_putBuf b s : view (putBuf b s) = vput b (view s).
Proof. unfold putBuf, vput. simpl. destruct (_ <? _)%nat; [done|]. by destruct (_ <? _)%nat. Qed.

(** ** Ownership *)

Definition owned (v : rview) : list nat :=
  v_lbuf v :: v_free v ++ (fst <$> v_q v) ++ option_list (sl_id <$> v_cur v)
    ++ option_list (v_drain v).

Definition good_buf (v : rview) (b : nat) : Prop :=
  length (vbuf v b) = vcap v /\ (b < v_next v)%nat.

(** [rx_own ex v]: well-formedness while a segment holds the buffers [ex] itself. *)
Record rx_own (ex : list nat) (v : rview) : Prop := {
  own_max : 0 < v_max v <= PayloadLimit;
  own_nodup : NoDup (ex ++ owned v);
  own_good : Forall (good_buf v) (ex ++ owned v);
  own_free : (length (v_free v) <= v_depth v + 2)%nat;
  own_depth : (length (v_q v) <= v_depth v)%nat;
  own_q : Forall (fun m => 8 < snd m <= vcap v)%nat (v_q v);
  own_cur : match v_cur v with
            | Some sl => (8 <= sl_off sl < sl_end sl)%nat /\ (sl_end sl <= vcap v)%nat
            | None => True
            end;
  own_parked : match v_parked v with Some n => (8 < n <= vcap v)%nat | None => True end;
  own_wait : v_wait v = true -> v_cur v = None
}.

Abbreviation rx_ok := (rx_own []).

(** ** The bytes inside the stream, in the order they will be read *)

Definition msg_bytes (h : gmap nat bytes) (m : nat * nat) : bytes :=
  drop 8 (take (snd m) (default [] (h !! fst m))).

Definition cur_bytes (h : gmap nat bytes) (c : option slice) : bytes :=
  match c with
  | Some sl => take (sl_end sl - sl_off sl) (drop (sl_off sl) (default [] (h !! sl_id sl)))
  | None => []
  end.

Definition parked_bytes (v : rview) : bytes :=
  match v_parked v with
  | Some n => msg_bytes (v_heap v) (v_lbuf v, n)
  | None => []
  end.

Definition queued_bytes (v : rview) : bytes :=
  cur_bytes (v_heap v) (v_cur v) ++ mjoin (msg_bytes (v_heap v) <$> v_q v).

Definition inside (v : rview) : bytes := queued_bytes v ++ parked_bytes v.

(** ** Lemmas *)

Lemma good_buf_mono v v' b :
  v_max v' = v_max v -> vbuf v' b = vbuf v b -> (v_next v <= v_next v')%nat ->
  good_buf v b -> good_buf v' b.
Proof. unfold good_buf, vcap. intros -> -> ? []. split; [done|lia]. Qed.

Lemma vbuf_set_ne v b x c : b <> c -> vbuf (vset b x v) c = vbuf v c.
Proof. intros H. unfold vbuf, vset. simpl. by rewrite lookup_insert_ne. Qed.

Lemma vbuf_set_eq v b x : vbuf (vset b x v) b = x.
Proof. unfold vbuf, vset. simpl. by rewrite lookup_insert_eq. Qed.

(** Changing a buffer nobody in [inside] owns changes no byte of it. *)
Lemma queued_insert v b x :
  b ∉ (fst <$> v_q v) ++ option_list (sl_id <$> v_cur v) ->
  queued_bytes (vset b x v) = queued_bytes v.
Proof.
  intros Hb. apply not_elem_of_app in Hb as [Hq Hc].
  unfold queued_bytes, vset. simpl. f_equal.
  - unfold cur_bytes. destruct (v_cur v) as [sl|]; [|done]. simpl in Hc.
    rewrite lookup_insert_ne; [done|]. intros ->. apply Hc. by left.
  - f_equal. apply list_fmap_ext. intros i m Hm. unfold msg_bytes.
    rewrite lookup_insert_ne; [done|]. intros ->. apply Hq.
    apply list_elem_of_fmap. eauto using list_elem_of_lookup_2.
Qed.

Lemma inside_insert v b x :
  b ∉ owned v -> inside (vset b x v) = inside v.
Proof.
  intros Hb. unfold owned in Hb.
  assert (b <> v_lbuf v /\ b ∉ (fst <$> v_q v) ++ option_list (sl_id <$> v_cur v))
    as [Hl Hq] by set_solver.
  unfold inside. f_equal; [by apply queued_insert|].
  unfold parked_bytes, vset. simpl. destruct (v_parked v); [|done].
  unfold msg_bytes. simpl. by rewrite lookup_insert_ne.
Qed.

Lemma rx_own_vset ex v b x :
  rx_own ex v -> length x = vcap v -> rx_own ex (vset b x v).
Proof.
  intros [] Hx. constructor; try done. rewrite Forall_forall in *. intros c Hc.
  destruct (own_good0 c Hc) as [Hl Hn]. split; [|done].
  destruct (decide (b = c)) as [->|Hne]; [by rewrite vbuf_set_eq|].
  by rewrite vbuf_set_ne.
Qed.

(** A buffer the segment holds itself. *)
Lemma rx_own_set ex v b x :
  rx_own ex v -> b ∈ ex -> length x = vcap v ->
  rx_own ex (vset b x v) /\ inside (vset b x v) = inside v.
Proof.
  intros Hok Hb Hx. split; [by apply rx_own_vset|].
  apply inside_insert. intros Ho. destruct Hok.
  apply NoDup_app in own_nodup0 as (_ & H & _). by apply (H b).
Qed.

(** The buffer the loop reads into. *)
Lemma rx_own_fill v x :
  rx_ok v -> v_parked v = None -> length x = vcap v ->
  rx_ok (vset (v_lbuf v) x v) /\ queued_bytes (vset (v_lbuf v) x v) = queued_bytes v.
Proof.
  intros Hok Hp Hx. split; [by apply rx_own_vset|]. apply queued_insert.
  destruct Hok. simpl in own_nodup0. apply NoDup_cons in own_nodup0 as [H _]. set_solver.
Qed.

Lemma inside_unparked v : v_parked v = None -> inside v = queued_bytes v.
Proof. intros H. unfold inside, parked_bytes. rewrite H. apply app_nil_r. Qed.

Lemma rx_own_get ex v :
  rx_own ex v ->
  rx_own (fst (vget v) :: ex) (snd (vget v)) /\ inside (snd (vget v)) = inside v.
Proof.
  intros []. unfold vget. destruct (v_free v) as [|b rest] eqn:Ef; simpl.
  - assert (Hfresh : v_next v ∉ ex ++ owned v).
    { intros Hin. rewrite Forall_forall in own_good0.
      destruct (own_good0 _ Hin). lia. }
    split.
    + constructor; try done; simpl.
      * apply NoDup_cons. split; [|done]. exact Hfresh.
      * apply Forall_cons. split.
        -- split; [|simpl; lia]. unfold vbuf. simpl. rewrite lookup_insert_eq.
           unfold zeroes. simpl. by rewrite length_replicate.
        -- apply Forall_forall. intros c Hc. rewrite Forall_forall in own_good0.
           apply (good_buf_mono v); [done| |simpl; lia|by apply own_good0].
           unfold vbuf. simpl. rewrite lookup_insert_ne; [done|]. by intros <-.
      * rewrite Ef. simpl. lia.
    + unfold inside, queued_bytes, parked_bytes. simpl.
      apply (inside_insert v (v_next v)). set_solver.
  - assert (Hp : b :: ex ++ owned (v <| v_free := rest |>) ≡ₚ ex ++ owned v).
    { unfold owned. simpl. rewrite Ef. simpl. solve_Permutation. }
    split; [|done]. constructor; try done; simpl.
    + change (NoDup (b :: ex ++ owned (v <| v_free := rest |>))). by rewrite Hp.
    + change (Forall (good_buf v) (b :: ex ++ owned (v <| v_free := rest |>))). by rewrite Hp.
    + simpl in own_free0. lia.
Qed.

Lemma rx_own_drop b ex v : rx_own (b :: ex) v -> rx_own ex v.
Proof.
  intros []. constructor; try done; simpl in *.
  - by apply NoDup_cons in own_nodup0 as [_ ?].
  - by apply Forall_cons in own_good0 as [_ ?].
Qed.

Lemma rx_own_put b ex v :
  rx_own (b :: ex) v -> rx_own ex (vput b v) /\ inside (vput b v) = inside v.
Proof.
  intros H. pose proof (rx_own_drop _ _ _ H) as Hd. unfold vput.
  destruct (length (vbuf v b) <? vcap v)%nat; [done|].
  destruct (length (v_free v) <? v_depth v + 2)%nat eqn:El; [|done].
  apply Nat.ltb_lt in El. destruct H.
  assert (Hp : ex ++ owned (v <| v_free := v_free v ++ [b] |>) ≡ₚ b :: ex ++ owned v).
  { unfold owned. simpl. solve_Permutation. }
  split; [|done]. constructor; try apply Hd; simpl.
  - change (NoDup (ex ++ owned (v <| v_free := v_free v ++ [b] |>))). by rewrite Hp.
  - change (Forall (good_buf v) (ex ++ owned (v <| v_free := v_free v ++ [b] |>))).
    by rewrite Hp.
  - rewrite length_app. simpl. lia.
Qed.

(** ** The bytes an event carries *)

(** The payload of a data frame, nothing for any other message. *)
Definition data_payload (max : Z) (m : bytes) : bytes :=
  match Parse m max with
  | Ok (hdr, p) => if h_type hdr =? TypeData then p else []
  | Err _ => []
  end.

Definition ev_arrived (max : Z) (e : event) : bytes :=
  match e with EvArrived m => data_payload max m | _ => [] end.
Definition ev_dropped (e : event) : bytes :=
  match e with EvDropped m => drop (Z.to_nat HeaderSize) m | _ => [] end.
Definition ev_read (e : event) : bytes :=
  match e with EvRead _ p _ => p | _ => [] end.

(** What the channel delivered, what readers took, what the loop gave up on. *)
Definition arrived (max : Z) (evs : list event) : bytes := mjoin (ev_arrived max <$> evs).
Definition dropped (evs : list event) : bytes := mjoin (ev_dropped <$> evs).
Definition taken (evs : list event) : bytes := mjoin (ev_read <$> evs).

Lemma arrived_app max a b : arrived max (a ++ b) = arrived max a ++ arrived max b.
Proof. unfold arrived. by rewrite fmap_app, join_app. Qed.
Lemma dropped_app a b : dropped (a ++ b) = dropped a ++ dropped b.
Proof. unfold dropped. by rewrite fmap_app, join_app. Qed.
Lemma taken_app a b : taken (a ++ b) = taken a ++ taken b.
Proof. unfold taken. by rewrite fmap_app, join_app. Qed.

(** Events of the other components of the stream carry no received byte. *)
Definition quiet (evs : list event) : Prop :=
  Forall (fun e => match e with EvArrived _ | EvDropped _ => False
                   | EvRead _ p _ => p = [] | _ => True end) evs.

Lemma quiet_bytes max evs :
  quiet evs -> arrived max evs = [] /\ dropped evs = [] /\ taken evs = [].
Proof.
  induction 1 as [|e evs He _ (IHa & IHd & IHt)]; [done|].
  change (e :: evs) with ([e] ++ evs).
  rewrite arrived_app, dropped_app, taken_app, IHa, IHd, IHt.
  destruct e; try done. by subst.
Qed.

Lemma quiet_app a b : quiet a -> quiet b -> quiet (a ++ b).
Proof. intros. by apply Forall_app. Qed.

(** ** Segments outside the receive path leave the view alone *)

Definition still (s : stream) (evs : list event) (s' : stream) : Prop :=
  view s' = view s <| v_live := v_live (view s') |> /\
  (v_live (view s') = true -> v_live (view s) = true) /\ quiet evs.

Lemma still_intro s evs s' :
  view s' = view s -> quiet evs -> still s evs s'.
Proof. intros H Hq. split; [|split; [congruence|done]]. by rewrite H. Qed.

Lemma view_setReadErr e s : view (setReadErr e s) = view s.
Proof. unfold setReadErr. by destruct (readErr s). Qed.

Lemma view_loop_fail e s :
  view (loop_fail e s) = view s <| v_parked := None |> <| v_live := false |>.
Proof. unfold loop_fail, setReadErr. by destruct (readErr s). Qed.

Lemma still_loop_fail e evs s s' :
  v_parked (view s) = None -> view s' = view s -> quiet evs ->
  still s evs (loop_fail e s').
Proof.
  intros Hp Hv Hq. unfold still. rewrite view_loop_fail, Hv. split; [|done].
  unfold view in *. simpl in *. by rewrite Hp.
Qed.

Lemma writeMessage_still w msg dl cw s err evs s' :
  writeMessage w msg dl cw s = (err, evs, s') ->
  view s' = view s /\ quiet evs /\ loop s' = loop s /\ wsem s' = wsem s /\
  termOnce s' = termOnce s.
Proof.
  unfold writeMessage. intros H. repeat case_match; simplify_eq; by repeat constructor.
Qed.

Lemma control_write_still w t p cw s err evs s' :
  control_write w t p cw s = (err, evs, s') ->
  view s' = view s /\ quiet evs /\ loop s' = loop s /\ wsem s' = None.
Proof.
  unfold control_write. intros H. destruct (Encode _ _ _) as [[? msg]|]; [|by simplify_eq; repeat constructor].
  destruct (writeMessage _ _ _ _ _) as [[? ?] ?] eqn:Hw. simplify_eq.
  by apply writeMessage_still in Hw as (<- & ? & <- & _).
Qed.

Definition rx_action (a : action) : bool :=
  match a with
  | ALoopRead _ | ALoopPush | ALoopPushTerm | AReadStep _ | AReleaseStart _
  | AReleasePoll _ _ => true
  | _ => false
  end.

Ltac still_tac :=
  unfold still, view; simpl;
  repeat match goal with
  | H : loop ?s = _ |- context [loop ?s] => rewrite H
  | H : release ?s = _ |- context [release ?s] => rewrite H
  | H : reader ?s = _ |- context [reader ?s] => rewrite H
  end; simpl; split; [done|split; [done|by repeat constructor]].

Ltac unparked := unfold view; simpl;
  repeat match goal with H : loop ?s = _ |- _ => rewrite H end; done.

Lemma still_reading s evs s1 s' :
  view s1 = view s -> v_parked (view s) = None -> v_live (view s) = true -> quiet evs ->
  view s' = view s1 <| v_parked := None |> <| v_live := true |> -> still s evs s'.
Proof.
  intros Hv Hp Hl Hq Hs'. unfold still. rewrite Hs', Hv, Hl. split; [|done].
  unfold view in *. simpl in *. by rewrite Hp.
Qed.

Lemma exec_still a s evs s' :
  ctl_ok s -> rx_action a = false -> exec a s = Some (evs, s') -> still s evs s'.
Proof.
  intros Hok. destruct a; try discriminate; intros _ H; simpl in H.
  - unfold pong_select in H. repeat case_match; simplify_eq;
      try (by apply still_loop_fail; [unparked| |constructor]); still_tac.
  - unfold pong_write in H. destruct (loop s) as [| |p [|]| |] eqn:El; try discriminate.
    destruct (control_write _ _ _ _ _) as [[err ev1] s1] eqn:Hw.
    apply control_write_still in Hw as (Hv & Hq & Hl & _).
    assert (Hp : v_parked (view s) = None) by unparked.
    repeat case_match; injection H as <- <-; try by apply still_loop_fail.
    all: apply (still_reading _ _ s1); try done; unfold view; simpl; by rewrite El.
  - unfold loop_close_data in H. repeat case_match; simplify_eq. still_tac.
  - unfold loop_close_done in H. repeat case_match; simplify_eq. still_tac.
  - unfold read_acquire in H. repeat case_match; simplify_eq; still_tac.
  - unfold write_acquire in H. repeat case_match; simplify_eq; still_tac.
  - unfold write_check in H. repeat case_match; simplify_eq; still_tac.
  - unfold write_chunk in H. repeat case_match; simplify_eq; try still_tac.
    all: match goal with Hw : writeMessage _ _ _ _ _ = _ |- _ =>
           apply writeMessage_still in Hw as (Hv & Hq & _) end.
    all: apply still_intro; [exact Hv|]; try exact Hq.
    all: apply quiet_app; [done|by repeat constructor].
  - unfold SetReadDeadline in H. repeat case_match; simplify_eq; still_tac.
  - unfold SetWriteDeadline in H. repeat case_match; simplify_eq; still_tac.
  - unfold ping_begin in H. repeat case_match; simplify_eq; still_tac.
  - unfold ping_select, ping_return, ping_cleanup in H. repeat case_match; simplify_eq; still_tac.
  - destruct (_ =? _); [|discriminate]. unfold ping_write, ping_cleanup in H.
    destruct (wsem s) as [[]|]; try discriminate.
    destruct (control_write _ _ _ _ _) as [[err ev1] s1] eqn:Hw.
    apply control_write_still in Hw as (Hv & Hq & _).
    repeat case_match; injection H as <- <-; apply still_intro; try exact Hv; try exact Hq.
    all: apply quiet_app; [done|by repeat constructor].
  - unfold ping_wait, ping_return, ping_cleanup in H. repeat case_match; simplify_eq; still_tac.
  - simplify_eq. apply still_intro; [|constructor]. unfold close_local.
    destruct (closed s); [done|]. by rewrite <- (view_setReadErr (ESent ErrClosed) s).
  - simplify_eq. still_tac.
  - unfold term_enter in H. repeat case_match; simplify_eq; still_tac.
  - unfold term_send in H. repeat case_match; simplify_eq; try still_tac.
    match goal with Hw : writeMessage _ _ _ _ _ = _ |- _ =>
      apply writeMessage_still in Hw as (Hv & Hq & _) end. by apply still_intro.
  - unfold term_finish in H. destruct (termOnce s) as [| |local drain|] eqn:Et; try discriminate.
    simplify_eq. apply still_intro; [|constructor].
    transitivity (view (if local then s else setReadErr (ESent io_EOF) s)).
    + assert (Hr : release s = RelNone).
      { apply (cv_release _ Hok). destruct (c_term (ctl s)) eqn:E; [|done].
        apply (cv_once _ Hok) in E. simpl in E. congruence. }
      unfold setReadErr, view. simpl. rewrite Hr.
      by destruct local, (readErr s); simpl; rewrite ?Hr.
    + destruct local; [done|apply view_setReadErr].
  - unfold release_close in H. repeat case_match; simplify_eq; still_tac.
  - repeat case_match; simplify_eq; still_tac.
Qed.

(** ** What a segment of the receive path does *)

(** [moves s evs s']: the buffers stay owned, and received bytes are only moved: what
    was taken, what remains and what was given up is what was there and arrived. *)
Record moves (s : stream) (evs : list event) (s' : stream) : Prop := {
  mv_ok : rx_ok (view s');
  mv_max : maxPayload s' = maxPayload s;
  mv_depth : depth s' = depth s;
  mv_bytes : taken evs ++ inside (view s') ++ dropped evs =
             inside (view s) ++ arrived (maxPayload s) evs;
  mv_live : v_live (view s') = true -> v_live (view s) = true;
  mv_stopped : v_live (view s) = false -> arrived (maxPayload s) evs = [] /\ dropped evs = [];
  mv_dropped : dropped evs <> [] -> v_live (view s') = false
}.

Lemma still_moves s evs s' : rx_ok (view s) -> still s evs s' -> moves s evs s'.
Proof.
  intros Hok (Hv & Hl & Hq).
  destruct (quiet_bytes (maxPayload s) evs Hq) as (Ha & Hd & Ht).
  constructor; rewrite ?Ha, ?Hd, ?Ht; try done.
  - rewrite Hv. destruct Hok. by constructor.
  - by apply (f_equal v_max) in Hv.
  - by apply (f_equal v_depth) in Hv.
  - rewrite Hv, app_nil_l. done.
Qed.

Lemma data_payload_wire max t p :
  payload_ok t p -> zlen p <= clamp_payload max ->
  data_payload max (wire t p) = if t =? TypeData then p else [].
Proof. intros. unfold data_payload. by rewrite Parse_wire. Qed.

Lemma vcap_bound v : rx_ok v -> (8 < vcap v)%nat /\ Z.of_nat (vcap v) < 2 ^ 63.
Proof.
  intros []. rewrite PayloadLimit_val in own_max0. unfold vcap, HeaderSize. lia.
Qed.

Lemma taken_one_arrived m : taken [EvArrived m] = [] /\ dropped [EvArrived m] = [].
Proof. done. Qed.

(** The loop's buffer holds the message [m]; it is parked, or the loop goes on or ends. *)
Definition read_buf (m : bytes) (s : stream) : bytes := m ++ drop (length m) (buf_bytes s (loop_buf s)).

Lemma read_buf_length m s :
  rx_ok (view s) -> (length m <= bufcap s)%nat -> length (read_buf m s) = vcap (view s).
Proof.
  intros Hok Hc. destruct Hok. simpl in own_good0. apply Forall_cons in own_good0 as [[Hg _] _].
  unfold read_buf. rewrite length_app, length_drop.
  change (length (buf_bytes s (loop_buf s))) with (length (vbuf (view s) (v_lbuf (view s)))).
  rewrite Hg. change (bufcap s) with (vcap (view s)) in Hc. lia.
Qed.

Lemma moves_arrived m s s2 o l :
  rx_ok (view s) -> v_parked (view s) = None -> v_live (view s) = true -> (length m <= bufcap s)%nat ->
  view s2 = vset (v_lbuf (view s)) (read_buf m s) (view s) <| v_parked := o |> <| v_live := l |> ->
  match o with Some n => n = length m /\ (8 < n)%nat | None => True end ->
  data_payload (maxPayload s) m = match o with Some _ => drop 8 m | None => [] end ->
  moves s [EvArrived m] s2.
Proof.
  intros Hok Hp Hl Hc Hv2 Ho Hd.
  destruct (rx_own_fill _ (read_buf m s) Hok Hp (read_buf_length m s Hok Hc)) as [Hok1 Hq1].
  change (bufcap s) with (vcap (view s)) in Hc.
  assert (Ha : arrived (maxPayload s) [EvArrived m] = match o with Some _ => drop 8 m | None => [] end)
    by (unfold arrived; simpl; by rewrite app_nil_r).
  constructor; rewrite ?Ha, ?Hl; try done.
  - rewrite Hv2. destruct Hok1. constructor; try done. simpl. destruct o; [|done].
    destruct Ho as [-> ?]. change (vcap _) with (vcap (view s)). lia.
  - by apply (f_equal v_max) in Hv2.
  - by apply (f_equal v_depth) in Hv2.
  - change (inside (view s2) ++ [] = inside (view s) ++ match o with Some _ => drop 8 m | None => [] end).
    rewrite app_nil_r, Hv2, (inside_unparked (view s)) by done.
    unfold inside. change (queued_bytes (_ <| v_live := l |>)) with
      (queued_bytes (vset (v_lbuf (view s)) (read_buf m s) (view s))). rewrite Hq1. f_equal.
    unfold parked_bytes. simpl. destruct o; [|done]. destruct Ho as [-> ?].
    unfold msg_bytes. simpl. rewrite lookup_insert_eq. simpl. unfold read_buf. by rewrite take_app_length.
Qed.

Lemma moves_loop_read r s evs s' :
  rx_ok (view s) -> loop_read r s = Some (evs, s') -> moves s evs s'.
Proof.
  intros Hok H. unfold loop_read in H. destruct (loop s) eqn:El; try discriminate.
  assert (Hp : v_parked (view s) = None) by unparked.
  assert (Hl : v_live (view s) = true) by (unfold view; simpl; by rewrite El).
  destruct r as [m|e].
  2: { injection H as <- <-. apply still_moves; [done|]. by apply still_loop_fail; [|..|constructor]. }
  destruct (_ <? _)%nat eqn:Ec; [discriminate|]. apply Nat.ltb_ge in Ec.
  assert (Hm : take (length m) (buf_bytes (fill (loop_buf s) m s) (loop_buf s)) = m).
  { unfold fill, buf_bytes at 1. simpl. rewrite lookup_insert_eq. simpl. by rewrite take_app_length. }
  cbv zeta in H. change (loop_buf (fill (loop_buf s) m s)) with (loop_buf s) in H.
  rewrite Hm in H.
  change (maxPayload (fill (loop_buf s) m s)) with (maxPayload s) in H.
  assert (Hint : zlen m < 2 ^ 63)
    by (change (bufcap s) with (vcap (view s)) in Ec; pose proof (vcap_bound _ Hok); unfold zlen; lia).
  pose proof (fun s2 o l => moves_arrived m s s2 o l Hok Hp Hl Ec) as Hgen.
  assert (Hfail : forall e s1, view s1 = view (fill (loop_buf s) m s) ->
    data_payload (maxPayload s) m = [] -> moves s [EvArrived m] (loop_fail e s1)).
  { intros e s1 Hs1 Hd. apply (Hgen _ None false); [|done|done]. by rewrite view_loop_fail, Hs1. }
  assert (Hrun : forall s1, view s1 = view (fill (loop_buf s) m s) <| v_parked := None |>
      <| v_live := true |> ->
    data_payload (maxPayload s) m = [] -> moves s [EvArrived m] s1).
  { intros s1 Hs1 Hd. by apply (Hgen _ None true). }
  destruct (Parse m (maxPayload s)) as [[hdr p]|e] eqn:Epar; injection H as <- <-.
  2: { apply Hfail; [done|]. unfold data_payload. by rewrite Epar. }
  assert (Hd : data_payload (maxPayload s) m = if h_type hdr =? TypeData then p else [])
    by (unfold data_payload; by rewrite Epar).
  apply Parse_inv in Epar as (_ & _ & _ & Hwire); [|done].
  unfold loop_frame, deliverPong.
  destruct (h_type hdr =? TypeData).
  - destruct (zlen p =? 0) eqn:Ez.
    + apply Hrun; [unfold view; simpl; by rewrite El|]. rewrite Hd. apply Z.eqb_eq in Ez.
      by destruct p.
    + apply (Hgen _ (Some (length m)) true); [done| |].
      * split; [done|]. rewrite Hwire. apply Z.eqb_neq in Ez. unfold zlen, wire in *.
        rewrite !length_app. simpl. lia.
      * by rewrite Hd, Hwire.
  - destruct (h_type hdr =? TypePing); [by apply Hrun|].
    destruct (h_type hdr =? TypePong).
    + repeat case_match; apply Hrun; try done; unfold view; simpl; by rewrite El.
    + destruct (ParseClose p); by apply Hfail.
Qed.

(** Moving a buffer from one owner to another. *)
Lemma rx_own_perm ex ex' v v' :
  rx_own ex v -> ex ++ owned v ≡ₚ ex' ++ owned v' ->
  v_max v' = v_max v -> v_depth v' = v_depth v -> v_heap v' = v_heap v ->
  v_next v' = v_next v -> v_free v' = v_free v ->
  (length (v_q v') <= v_depth v')%nat ->
  Forall (fun m => 8 < snd m <= vcap v')%nat (v_q v') ->
  match v_cur v' with
  | Some sl => (8 <= sl_off sl < sl_end sl)%nat /\ (sl_end sl <= vcap v')%nat
  | None => True
  end ->
  match v_parked v' with Some n => (8 < n <= vcap v')%nat | None => True end ->
  (v_wait v' = true -> v_cur v' = None) -> rx_own ex' v'.
Proof.
  intros [] Hp Hm Hd Hh Hn Hf Hl Hq Hc Hk Hw. constructor; try done; rewrite <- ?Hp; try done.
  - by rewrite Hm.
  - eapply Forall_impl; [done|]. intros b. unfold good_buf, vbuf, vcap. by rewrite Hh, Hm, Hn.
  - by rewrite Hf, Hd.
Qed.

Lemma rx_push b v n :
  rx_own [b] v -> v_parked v = Some n -> (length (v_q v) < v_depth v)%nat ->
  let v' := v <| v_q := v_q v ++ [(v_lbuf v, n)] |> <| v_lbuf := b |> <| v_parked := None |> in
  rx_ok v' /\ inside v' = inside v.
Proof.
  intros Hok Hp Hl. pose proof Hok as []. rewrite Hp in own_parked0. split.
  - apply (rx_own_perm [b] _ v); try done; simpl.
    + unfold owned. simpl. rewrite fmap_app. simpl. solve_Permutation.
    + rewrite length_app. simpl. lia.
    + apply Forall_app. split; [done|]. by constructor.
  - unfold inside, queued_bytes, parked_bytes. simpl. rewrite Hp, fmap_app, join_app. simpl.
    by rewrite !app_nil_r, app_assoc.
Qed.

Lemma rx_pop v m q :
  rx_ok v -> v_q v = m :: q -> v_cur v = None ->
  let v' := v <| v_q := q |> <| v_cur := Some {| sl_id := fst m; sl_off := 8; sl_end := snd m |} |>
              <| v_wait := false |> in
  rx_ok v' /\ inside v' = inside v.
Proof.
  intros Hok Hq Hc. pose proof Hok as []. rewrite Hq in *.
  apply Forall_cons in own_q0 as [Hm Hqs]. split.
  - apply (rx_own_perm [] _ v); try done; simpl.
    + unfold owned. simpl. rewrite Hq, Hc. simpl. solve_Permutation.
    + simpl in own_depth0. lia.
    + split; lia || apply Hm.
  - unfold inside, queued_bytes. simpl. rewrite Hq, Hc. simpl. f_equal. f_equal.
    unfold msg_bytes. rewrite take_drop_commute. f_equal. f_equal. lia.
Qed.

(** The reader takes [n] bytes of its message, and gives the buffer up once empty. *)
Lemma rx_take v sl n :
  rx_ok v -> v_cur v = Some sl -> (n <= sl_end sl - sl_off sl)%nat ->
  let v' := v <| v_cur := if (sl_end sl - (sl_off sl + n) =? 0)%nat then None
              else Some {| sl_id := sl_id sl; sl_off := sl_off sl + n; sl_end := sl_end sl |} |>
              <| v_wait := false |> in
  let ex := if (sl_end sl - (sl_off sl + n) =? 0)%nat then [sl_id sl] else [] in
  rx_own ex v' /\
  take n (cur_bytes (v_heap v) (Some sl)) ++ inside v' = inside v.
Proof.
  intros Hok Hc Hn. pose proof Hok as []. rewrite Hc in own_cur0. split.
  - destruct (_ =? 0)%nat eqn:E; [|apply Nat.eqb_neq in E];
      apply (rx_own_perm [] _ v); try done; simpl.
    + unfold owned. simpl. rewrite Hc. simpl. solve_Permutation.
    + unfold owned. simpl. by rewrite Hc.
    + change (vcap _) with (vcap v). lia.
  - unfold inside, queued_bytes. simpl. rewrite Hc, !app_assoc. f_equal. f_equal.
    cbn [cur_bytes]. set (b := default [] _).
    transitivity (take n (take (sl_end sl - sl_off sl) (drop (sl_off sl) b)) ++
      drop n (take (sl_end sl - sl_off sl) (drop (sl_off sl) b))); [|apply take_drop].
    f_equal. rewrite skipn_firstn_comm, drop_drop.
    destruct (_ =? 0)%nat eqn:E.
    + apply Nat.eqb_eq in E. by replace (_ - _ - n)%nat with 0%nat by lia.
    + simpl. f_equal. lia.
Qed.

Lemma rx_hold b v :
  rx_own [b] v -> v_drain v = None ->
  rx_ok (v <| v_drain := Some b |>) /\ inside (v <| v_drain := Some b |>) = inside v.
Proof.
  intros Hok Hd. pose proof Hok as []. split; [|done].
  apply (rx_own_perm [b] _ v); try done. unfold owned. simpl. rewrite Hd. solve_Permutation.
Qed.

Lemma rx_unhold b v :
  rx_ok v -> v_drain v = Some b ->
  rx_own [b] (v <| v_drain := None |>) /\ inside (v <| v_drain := None |>) = inside v.
Proof.
  intros Hok Hd. pose proof Hok as []. split; [|done].
  apply (rx_own_perm [] _ v); try done. unfold owned. simpl. rewrite Hd. solve_Permutation.
Qed.

(** Segments that keep the bytes inside and carry none. *)
Lemma moves_quiet s evs s' :
  rx_ok (view s') -> inside (view s') = inside (view s) -> quiet evs ->
  maxPayload s' = maxPayload s -> depth s' = depth s ->
  (v_live (view s') = true -> v_live (view s) = true) -> moves s evs s'.
Proof.
  intros Hok Hi Hq Hm Hd Hl. destruct (quiet_bytes (maxPayload s) evs Hq) as (Ha & Hdr & Ht).
  constructor; rewrite ?Ha, ?Hdr, ?Ht; try done. by rewrite !app_nil_r.
Qed.

Lemma vget_fields v : v_max (snd (vget v)) = v_max v /\ v_depth (snd (vget v)) = v_depth v /\
  v_q (snd (vget v)) = v_q v /\ v_parked (snd (vget v)) = v_parked v /\
  v_lbuf (snd (vget v)) = v_lbuf v /\ v_drain (snd (vget v)) = v_drain v /\
  v_live (snd (vget v)) = v_live v.
Proof. unfold vget. by destruct (v_free v). Qed.

Lemma vput_fields b v : v_max (vput b v) = v_max v /\ v_depth (vput b v) = v_depth v /\
  v_live (vput b v) = v_live v.
Proof. unfold vput. by repeat case_match. Qed.

Ltac name_target t := match goal with |- moves _ _ ?u => set (t := u) end.

Lemma moves_loop_push s evs s' :
  rx_ok (view s) -> loop_push s = Some (evs, s') -> moves s evs s'.
Proof.
  intros Hok H. unfold loop_push in H. destruct (loop s) as [|n| | |] eqn:El; try discriminate.
  destruct (_ <? _)%nat eqn:Ed; [|discriminate]. apply Nat.ltb_lt in Ed.
  set (s1 := s <| dataCh := _ |>) in H. destruct (getBuf s1) as [b s2] eqn:Eg.
  injection H as <- <-.
  destruct (vget_fields (view s)) as (Hm & Hdp & Hq & Hpk & Hlb & Hdr & Hlv).
  name_target s3.
  assert (Hv : view s3 =
    snd (vget (view s)) <| v_q := v_q (snd (vget (view s))) ++ [(v_lbuf (snd (vget (view s))), n)] |>
      <| v_lbuf := fst (vget (view s)) |> <| v_parked := None |>).
  { rewrite Hq, Hlb. unfold getBuf, s1 in Eg. simpl in Eg. unfold vget, view. simpl.
    unfold s3. destruct (free s); injection Eg as <- <-; simpl; by rewrite El. }
  clearbody s3. destruct (rx_own_get _ _ Hok) as [Ho Hi].
  destruct (rx_push _ _ n Ho) as [Hok' Hi'].
  { rewrite Hpk. unfold view. simpl. by rewrite El. }
  { rewrite Hq, Hdp. done. }
  apply moves_quiet; rewrite ?Hv; [exact Hok'|by rewrite Hi'|by constructor| | |].
  - apply (f_equal v_max) in Hv. simpl in Hv. by rewrite Hv.
  - apply (f_equal v_depth) in Hv. simpl in Hv. by rewrite Hv.
  - intros _. unfold view. simpl. by rewrite El.
Qed.

Lemma moves_loop_push_term s evs s' :
  rx_ok (view s) -> loop_push_term s = Some (evs, s') -> moves s evs s'.
Proof.
  intros Hok H. unfold loop_push_term in H. destruct (loop s) as [|n| | |] eqn:El; try discriminate.
  destruct (term s); [|discriminate]. injection H as <- <-.
  assert (Hi : inside (view s) = queued_bytes (view s) ++ msg_bytes (heap s) (loop_buf s, n)).
  { unfold inside, parked_bytes. simpl. by rewrite El. }
  constructor; rewrite ?view_loop_fail; try done.
  - destruct Hok. by constructor.
  - unfold loop_fail, setReadErr. by destruct (readErr s).
  - unfold loop_fail, setReadErr. by destruct (readErr s).
  - change (inside (view s <| v_parked := None |> <| v_live := false |>) ++
      drop 8 (take n (buf_bytes s (loop_buf s))) ++ [] = inside (view s) ++ []).
    rewrite !app_nil_r, Hi, inside_unparked by done. done.
  - intros E. unfold view in E. simpl in E. by rewrite El in E.
Qed.

Lemma vput_cur b v c w :
  vput b v <| v_cur := c |> <| v_wait := w |> = vput b (v <| v_cur := c |> <| v_wait := w |>).
Proof.
  unfold vput. change (vbuf (v <| v_cur := c |> <| v_wait := w |>) b) with (vbuf v b).
  change (vcap (v <| v_cur := c |> <| v_wait := w |>)) with (vcap v).
  destruct (_ <? _)%nat; [done|]. simpl. by destruct (_ <? _)%nat.
Qed.

Lemma view_put_cur b t :
  view (putBuf b t <| cur := None |> <| reader := None |>) =
  vput b (view t <| v_cur := None |> <| v_wait := false |>).
Proof.
  rewrite <- vput_cur, <- view_putBuf. reflexivity.
Qed.

Lemma view_read_deliver k sl s :
  let n := (k `min` (sl_end sl - sl_off sl))%nat in
  let w := view s <| v_cur := if (sl_end sl - (sl_off sl + n) =? 0)%nat then None
              else Some {| sl_id := sl_id sl; sl_off := sl_off sl + n; sl_end := sl_end sl |} |>
              <| v_wait := false |> in
  view (snd (read_deliver k sl s)) =
    (if (sl_end sl - (sl_off sl + n) =? 0)%nat then vput (sl_id sl) w else w).
Proof.
  intros n w. unfold read_deliver. cbv zeta. cbn [snd slice_len sl_end sl_off].
  fold n. unfold w. destruct (_ =? 0)%nat; [|done]. by rewrite view_put_cur.
Qed.

Lemma moves_deliver k sl s evs s' :
  rx_ok (view s) -> cur s = Some sl -> read_deliver k sl s = (evs, s') -> moves s evs s'.
Proof.
  intros Hok Hc H. pose proof (view_read_deliver k sl s) as Hv. cbv zeta in Hv.
  set (n := (k `min` (sl_end sl - sl_off sl))%nat) in *.
  destruct (rx_take (view s) sl n Hok Hc) as [Ho Hi]; [lia|].
  rewrite H in Hv. cbn [snd] in Hv.
  assert (Hok' : rx_ok (view s') /\
    take n (cur_bytes (heap s) (Some sl)) ++ inside (view s') = inside (view s)).
  { rewrite Hv. rewrite <- Hi. destruct (_ =? 0)%nat; [|done].
    destruct (rx_own_put _ _ _ Ho) as [? ->]. done. }
  assert (Hf : v_max (view s') = v_max (view s) /\ v_depth (view s') = v_depth (view s) /\
    v_live (view s') = v_live (view s)).
  { rewrite Hv. by destruct (_ =? 0)%nat; rewrite ?(proj1 (vput_fields _ _)),
      ?(proj1 (proj2 (vput_fields _ _))), ?(proj2 (proj2 (vput_fields _ _))). }
  assert (evs = [EvRead k (take n (cur_bytes (heap s) (Some sl))) None]) as ->.
  { unfold read_deliver in H. cbv zeta in H. by injection H as <- _. }
  destruct Hf as (Hm & Hd & Hl), Hok' as [Hok' Hi'].
  constructor; try done.
  - change (taken _) with (take n (cur_bytes (heap s) (Some sl)) ++ []).
    change (arrived _ _) with (@nil ascii). change (dropped _) with (@nil ascii).
    by rewrite !app_nil_r.
  - by rewrite Hl.
Qed.

Lemma moves_return k e s :
  rx_ok (view s) -> moves s [EvRead k [] (Some e)] (s <| reader := None |>).
Proof.
  intros Hok. apply moves_quiet; try done. 2: by repeat constructor.
  destruct Hok. by constructor.
Qed.

Lemma moves_reader k s :
  rx_ok (view s) -> cur s = None -> moves s [] (s <| reader := Some (k, RTry) |>).
Proof.
  intros Hok Hc. apply moves_quiet; try done. 2: by repeat constructor.
  destruct Hok. by constructor.
Qed.

(** The receive from [dataCh] of a waiting reader. *)
Lemma moves_recv k blocked s evs s' :
  rx_ok (view s) -> reader_waits (reader s) = true ->
  (blocked = None \/ blocked = Some ([], s <| reader := Some (k, RSelect) |>)) ->
  match recv_data s with
  | Some (m, s) => Some ([], take_msg m s <| reader := Some (k, RTop) |>)
  | None => if dataClosed s then Some (read_return k (terminalErr s) s) else blocked
  end = Some (evs, s') -> moves s evs s'.
Proof.
  intros Hok Hw Hb H. pose proof (own_wait _ _ Hok Hw) as Hc. unfold recv_data in H.
  destruct (dataCh s) as [|m q] eqn:Eq.
  - destruct (dataClosed s); [injection H as <- <-; by apply moves_return|].
    destruct Hb as [-> | ->]; [done|]. injection H as <- <-.
    apply moves_quiet; try done. 2: by repeat constructor. destruct Hok. by constructor.
  - injection H as <- <-. destruct (rx_pop (view s) m q Hok Eq Hc) as [Hok' Hi].
    apply moves_quiet; try done. by constructor.
Qed.

Lemma moves_read_step sel s evs s' :
  rx_ok (view s) -> read_step sel s = Some (evs, s') -> moves s evs s'.
Proof.
  intros Hok H. unfold read_step in H.
  destruct (reader s) as [[k pc]|] eqn:Er; [|discriminate].
  destruct pc.
  - destruct (cur s) as [sl|] eqn:Ec.
    + pose proof (own_cur _ _ Hok) as Hc. unfold view in Hc. simpl in Hc. rewrite Ec in Hc.
      destruct (Nat.ltb_spec 0 (slice_len (Some sl))) as [Hl|Hl]; [|simpl in Hl; lia].
      apply (inj Some) in H. by apply (moves_deliver k sl).
    + destruct (closed s); injection H as <- <-; [by apply moves_return|].
      by apply moves_reader.
  - eapply (moves_recv k); [done|by rewrite Er|by right|exact H].
  - destruct sel; [eapply (moves_recv k); [done|by rewrite Er|by left|exact H]| |];
      case_match; try discriminate; injection H as <- <-; by apply moves_return.
Qed.

Lemma moves_release_start b s evs s' :
  rx_ok (view s) -> release_start b s = Some (evs, s') -> moves s evs s'.
Proof.
  intros Hok H. unfold release_start in H.
  destruct (release s) as [|[]| | |] eqn:Er; try discriminate.
  2: { injection H as <- <-. apply still_moves; [done|]. still_tac. }
  destruct (done s); [|discriminate]. destruct b.
  2: { injection H as <- <-. apply still_moves; [done|]. still_tac. }
  destruct (getBuf s) as [b s2] eqn:Eg. injection H as <- <-.
  destruct (rx_own_get _ _ Hok) as [Ho Hi].
  destruct (vget_fields (view s)) as (Hm & Hdp & Hq & Hpk & Hlb & Hdr & Hlv).
  destruct (view_getBuf s) as [Hg Hv]. rewrite Eg in Hg, Hv. simpl in Hg, Hv.
  injection Hg as Hb.
  name_target s3.
  assert (Hv' : view s3 =
    snd (vget (view s)) <| v_drain := Some (fst (vget (view s))) |>).
  { rewrite <- Hv, <- Hb. done. }
  clearbody s3. destruct (rx_hold _ _ Ho) as [Hok' Hi'].
  { rewrite Hdr. unfold view. simpl. by rewrite Er. }
  apply moves_quiet; [by rewrite Hv'|by rewrite Hv', Hi'|by constructor| | |].
  - apply (f_equal v_max) in Hv'. exact (eq_trans Hv' Hm).
  - apply (f_equal v_depth) in Hv'. exact (eq_trans Hv' Hdp).
  - apply (f_equal v_live) in Hv'. rewrite <- Hlv. intros E. by rewrite Hv' in E.
Qed.

Lemma view_release_closing b s :
  view (putBuf b s <| release := RelClosing |>) = vput b (view s <| v_drain := None |>).
Proof.
  transitivity (vput b (view s) <| v_drain := None |>).
  - rewrite <- view_putBuf. done.
  - unfold vput. change (vbuf (view s <| v_drain := None |>) b) with (vbuf (view s) b).
    change (vcap (view s <| v_drain := None |>)) with (vcap (view s)).
    destruct (_ <? _)%nat; [done|]. simpl. by destruct (_ <? _)%nat.
Qed.

Lemma moves_release_poll n r s evs s' :
  rx_ok (view s) -> release_poll n r s = Some (evs, s') -> moves s evs s'.
Proof.
  intros Hok H. unfold release_poll in H. destruct (release s) as [| |b dl| |] eqn:Er; try discriminate.
  assert (Hdr : v_drain (view s) = Some b) by (unfold view; simpl; by rewrite Er).
  destruct (rx_unhold _ _ Hok Hdr) as [Ho Hi].
  assert (Hfin : forall s1, view s1 = view s ->
    moves s [] (putBuf b s1 <| release := RelClosing |>)).
  { intros s1 Hs1. destruct (rx_own_put _ _ _ Ho) as [Hok' Hi'].
    destruct (vput_fields b (view s <| v_drain := None |>)) as (Hm & Hd & Hl).
    pose proof (view_release_closing b s1) as Hv. rewrite Hs1 in Hv.
    apply moves_quiet; [by rewrite Hv|by rewrite Hv, Hi'|by constructor| | |].
    - by rewrite <- Hv in Hm.
    - by rewrite <- Hv in Hd.
    - by rewrite Hv, Hl. }
  destruct ((0 <? n) && (now s <? dl)); [|injection H as <- <-; by apply Hfin].
  destruct r as [m|e].
  - destruct (_ <? _)%nat eqn:Ec; [discriminate|]. injection H as <- <-.
    apply Nat.ltb_ge in Ec. change (bufcap _) with (vcap (view s)) in Ec.
    set (x := m ++ drop (length m) (vbuf (view s) b)).
    assert (Hx : length x = vcap (view s)).
    { destruct Ho. apply Forall_cons in own_good0 as [[Hg _] _].
      change (vbuf (view s <| v_drain := None |>) b) with (vbuf (view s) b) in Hg.
      change (vcap (view s <| v_drain := None |>)) with (vcap (view s)) in Hg.
      unfold x. rewrite length_app, length_drop, Hg. lia. }
    destruct (rx_own_set _ _ b x Ho) as [Hok' Hi']; [by left|done|].
    destruct (rx_hold _ _ Hok') as [Hok2 Hi2]; [done|].
    name_target s3.
    assert (Hv : view s3 = vset b x (view s <| v_drain := None |>) <| v_drain := Some b |>).
    { unfold s3, view, vset, fill. simpl. by rewrite Er. }
    apply moves_quiet; [by rewrite Hv|by rewrite Hv, Hi2, Hi'|by constructor|done..].
  - destruct (isTimeout e); simpl in H; injection H as <- <-; [|by apply Hfin].
    by apply still_moves, still_intro; [..|constructor].
Qed.

(** ** The invariant *)

Lemma exec_moves a s evs s' :
  ctl_ok s -> rx_ok (view s) -> exec a s = Some (evs, s') -> moves s evs s'.
Proof.
  intros Hc Hok H. destruct (rx_action a) eqn:Ea; [|by eapply still_moves, exec_still].
  destruct a; try discriminate; simpl in H.
  - by eapply moves_loop_read.
  - by apply moves_loop_push.
  - by apply moves_loop_push_term.
  - by eapply moves_read_step.
  - by eapply moves_release_start.
  - by eapply moves_release_poll.
Qed.

Lemma cfg_maxPayload_bound cfg : 0 < cfg_maxPayload cfg <= PayloadLimit.
Proof.
  unfold cfg_maxPayload. rewrite PayloadLimit_val. change (Z.shiftl 16 10) with 16384.
  destruct (Z.leb_spec (MaxPayload cfg) 0), (Z.ltb_spec 262144 (MaxPayload cfg)); simpl; lia.
Qed.

Lemma cfg_depth_pos cfg : 0 < cfg_depth cfg.
Proof. unfold cfg_depth. case_match; lia. Qed.

Lemma rx_NewStream cfg : rx_ok (view (NewStream cfg)) /\ inside (view (NewStream cfg)) = [].
Proof.
  pose proof (cfg_maxPayload_bound cfg). split; [|done].
  constructor; try done; simpl.
  - repeat constructor. set_solver.
  - constructor; [|done]. split; [|simpl; lia]. unfold vbuf. simpl.
    rewrite lookup_singleton_eq. simpl. unfold zeroes. by rewrite length_replicate.
  - lia.
  - lia.
Qed.

Record rx_inv (cfg : Config) (evs : list event) (s : stream) : Prop := {
  rx_own_ok : rx_ok (view s);
  rx_max : maxPayload s = cfg_maxPayload cfg;
  rx_depth : depth s = Z.to_nat (cfg_depth cfg);
  rx_bytes : taken evs ++ inside (view s) ++ dropped evs = arrived (cfg_maxPayload cfg) evs;
  rx_lost : dropped evs <> [] -> v_live (view s) = false
}.

Lemma reachable_rx cfg evs s : reachable cfg evs s -> rx_inv cfg evs s.
Proof.
  induction 1 as [|evs s a evs' s' Hr [] Hx].
  - destruct (rx_NewStream cfg) as [Hok Hi]. by constructor.
  - destruct (exec_moves _ _ _ _ (reachable_ctl _ _ _ Hr) rx_own_ok0 Hx).
    rewrite rx_max0 in *. constructor; try done.
    + by rewrite mv_depth0.
    + rewrite taken_app, dropped_app, arrived_app, <- rx_bytes0.
      destruct (v_live (view s)) eqn:El.
      * assert (dropped evs = []) as -> by (destruct (dropped evs); [done|by discriminate rx_lost0]).
        rewrite app_nil_r, app_nil_l, <- !app_assoc. f_equal. done.
      * destruct mv_stopped0 as [Ha Hd]; [done|]. rewrite Ha, Hd in *.
        rewrite !app_nil_r in *. rewrite <- !app_assoc. by rewrite (app_assoc (taken evs')), mv_bytes0.
    + rewrite dropped_app. intros Hne. destruct (v_live (view s)) eqn:El.
      * apply mv_dropped0. intros E. rewrite E, app_nil_r in Hne. by discriminate rx_lost0.
      * destruct (v_live (view s')); [|done]. by discriminate mv_live0.
Qed.
