(* ===== verification/StreamSend.v ===== *)
(** * The send side of the stream: writes are framed, contiguous and counted

    The messages a stream puts on its channel: every one is a well-formed frame, and
    the data frames carry exactly the bytes [Write] reports as written, call after
    call, because the owner of [wsem] finishes before another owner starts. *)

From S2P Require Import Prelude.
From S2P Require Import Utf8.
From S2P Require Import Errors.
From S2P Require Import Frame.
From S2P Require Import Stream.
From S2P Require Import StreamCtl.
From S2P Require Import StreamRecv.

(** The data bytes of an accepted message, and the bytes a [Write] reports. *)
Definition ev_sent (e : event) : bytes :=
  match e with EvSent _ m => data_payload PayloadLimit m | _ => [] end.
Definition ev_accepted (e : event) : bytes :=
  match e with EvWrite p n _ => take (Z.to_nat n) p | _ => [] end.

Definition sent_data (evs : list event) : bytes := mjoin (ev_sent <$> evs).
Definition accepted (evs : list event) : bytes := mjoin (ev_accepted <$> evs).

Lemma sent_data_app a b : sent_data (a ++ b) = sent_data a ++ sent_data b.
Proof. unfold sent_data. by rewrite fmap_app, join_app. Qed.
Lemma accepted_app a b : accepted (a ++ b) = accepted a ++ accepted b.
Proof. unfold accepted. by rewrite fmap_app, join_app. Qed.

(** What a message on the channel may be: a data frame within the negotiated payload,
    or a control frame, whose payload never exceeds a close frame's. *)
Definition max_control : Z := 2 + MaxCloseReason.

Definition frame_ok (max : Z) (m : bytes) : Prop :=
  exists t p, m = wire t p /\ payload_ok t p /\
    ((t = TypeData /\ 0 < zlen p <= max) \/ (t <> TypeData /\ zlen p <= max_control)).

Definition ev_ok (max : Z) (e : event) : Prop :=
  match e with
  | EvSent _ m | EvFailed _ m => frame_ok max m
  | EvWrite p n None => n = zlen p
  | EvWrite p n (Some _) => 0 <= n <= zlen p
  | _ => True
  end.

(** The bytes the current [Write] has put on the channel. *)
Definition writing (w : option wowner) : bytes :=
  match w with Some (WApp arg _ n _) => take (Z.to_nat n) arg | _ => [] end.

Definition owner_ok (w : option wowner) : Prop :=
  match w with
  | Some (WApp arg p n chk) =>
    arg = take (Z.to_nat n) arg ++ p /\ 0 <= n /\ n + zlen p = zlen arg /\
    (chk = false -> n = 0)
  | _ => True
  end.

Definition pong_ok (l : loop_pc) : Prop :=
  match l with LPong p _ => zlen p = PingSize | _ => True end.

Record tx_inv (evs : list event) (s : stream) : Prop := {
  tx_max : 0 < maxPayload s <= PayloadLimit;
  tx_wbuf : zlen (wbuf s) = HeaderSize + maxPayload s;
  tx_owner : owner_ok (wsem s);
  tx_pong : pong_ok (loop s);
  tx_events : Forall (ev_ok (maxPayload s)) evs;
  tx_sent : sent_data evs = accepted evs ++ writing (wsem s)
}.

(** ** One segment *)

(** What a segment adds, relative to the state before it. *)
Record tx_step (s : stream) (evs : list event) (s' : stream) : Prop := {
  txs_max : maxPayload s' = maxPayload s;
  txs_wbuf : zlen (wbuf s') = zlen (wbuf s);
  txs_owner : owner_ok (wsem s');
  txs_pong : pong_ok (loop s');
  txs_events : Forall (ev_ok (maxPayload s)) evs;
  txs_sent : writing (wsem s) ++ sent_data evs = accepted evs ++ writing (wsem s')
}.

Lemma tx_inv_step evs s evs' s' : tx_inv evs s -> tx_step s evs' s' -> tx_inv (evs ++ evs') s'.
Proof.
  intros [] []. constructor; rewrite ?txs_max0, ?txs_wbuf0; try done.
  - by apply Forall_app.
  - by rewrite sent_data_app, accepted_app, tx_sent0, <- !app_assoc, txs_sent0.
Qed.

(** Events without a frame or a finished write. *)
Definition tx_quiet (e : event) : Prop :=
  match e with EvSent _ _ | EvFailed _ _ | EvWrite _ _ _ => False | _ => True end.

Lemma tx_quiet_events max evs :
  Forall tx_quiet evs -> Forall (ev_ok max) evs /\ sent_data evs = [] /\ accepted evs = [].
Proof.
  induction 1 as [|e evs He _ (IH1 & IH2 & IH3)]; [done|].
  change (e :: evs) with ([e] ++ evs). rewrite sent_data_app, accepted_app, IH2, IH3.
  destruct e; try done; split_and!; try done; by constructor.
Qed.

Lemma tx_step_quiet evs0 s evs s' :
  tx_inv evs0 s -> Forall tx_quiet evs -> maxPayload s' = maxPayload s -> wbuf s' = wbuf s ->
  owner_ok (wsem s') -> writing (wsem s') = writing (wsem s) ->
  pong_ok (loop s') -> tx_step s evs s'.
Proof.
  intros [] Hq Hm Hb Hw Hww Hl. destruct (tx_quiet_events (maxPayload s) evs Hq) as (? & H1 & H2).
  constructor; rewrite ?Hm, ?Hb, ?Hww, ?H1, ?H2; try done. by rewrite app_nil_r.
Qed.

(** A control frame carries no data. *)
Lemma data_payload_control max t p :
  t <> TypeData -> 0 <= t < 256 -> zlen p < 2 ^ 60 -> data_payload max (wire t p) = [].
Proof.
  intros Ht Hb Hp. unfold data_payload.
  destruct (Parse _ _) as [[hdr q]|] eqn:E; [|done].
  apply Parse_inv in E as (_ & _ & _ & Hw).
  2: { rewrite length_wire. unfold HeaderSize. lia. }
  destruct (h_type hdr =? TypeData) eqn:Et; [|done]. apply Z.eqb_eq in Et.
  rewrite Et in Hw. unfold wire in Hw. injection Hw as Hw _.
  apply (f_equal byte_val) in Hw. rewrite !byte_val_of in Hw. unfold u8 in Hw.
  rewrite Z.mod_small in Hw by (simpl; lia). by rewrite Hw in Ht.
Qed.

(** The result of [writeMessage] on one message. *)
Lemma writeMessage_tx w msg dl cw s err evs s' :
  writeMessage w msg dl cw s = (err, evs, s') ->
  (exists d, s' = s <| ch_writeDeadline := d |> \/
     s' = s <| ch_writeDeadline := d |> <| framesWritten := u64 (framesWritten s + 1) |>) /\
  ((err = None /\ evs = [EvSent w msg]) \/
   (is_Some err /\ (evs = [] \/ evs = [EvFailed w msg]))).
Proof.
  unfold writeMessage. intros H. repeat case_match; injection H as <- <- <-.
  - split; [exists (ch_writeDeadline s); left; by destruct s|]. right. split; eauto.
  - split; [exists dl; by left|]. right. split; eauto.
  - split; [exists dl; by right|]. left. done.
  - split; [exists dl; by left|]. right. split; eauto.
Qed.

(** The events of a control frame. *)
Lemma control_events max w t p msg evs :
  msg = wire t p -> t <> TypeData -> payload_ok t p -> zlen p <= max_control ->
  evs = [] \/ evs = [EvSent w msg] \/ evs = [EvFailed w msg] ->
  Forall (ev_ok max) evs /\ sent_data evs = [] /\ accepted evs = [].
Proof.
  intros -> Ht Hok Hp He.
  assert (Hb : 0 <= t < 256).
  { destruct Hok as [->|[[[->| ->] _]|[-> _]]]; done. }
  assert (Hf : frame_ok max (wire t p)) by (exists t, p; auto).
  assert (Hd : data_payload PayloadLimit (wire t p) = []).
  { apply data_payload_control; [done..|]. unfold max_control, MaxCloseReason in Hp. lia. }
  destruct He as [->|[->| ->]]; split_and!; try done; try by constructor.
  unfold sent_data. simpl. by rewrite Hd.
Qed.

Lemma control_write_tx w t p cw s err evs s' :
  control_write w t p cw s = (err, evs, s') ->
  t <> TypeData -> payload_ok t p -> zlen p <= max_control ->
  maxPayload s' = maxPayload s /\ wbuf s' = wbuf s /\ wsem s' = None /\ loop s' = loop s /\
  Forall (ev_ok (maxPayload s)) evs /\ sent_data evs = [] /\ accepted evs = [].
Proof.
  intros H Ht Hok Hp. unfold control_write in H.
  destruct (Encode _ _ _) as [[b msg]|e] eqn:Ee; [|injection H as <- <- <-; by split_and!].
  pose proof (zlen_nonneg p).
  assert (msg = wire t p) as Hmsg.
  { rewrite Encode_ok in Ee; [by injection Ee as _ <-| |].
    - unfold max_control, MaxCloseReason in Hp. rewrite PayloadLimit_val. lia.
    - unfold zlen at 2, zeroes. rewrite length_replicate. unfold HeaderSize. lia. }
  destruct (writeMessage _ _ _ _ _) as [[err1 ev1] s1] eqn:Hw.
  apply writeMessage_tx in Hw as [(d & Hs) He]. injection H as <- <- <-.
  assert (Hs1 : maxPayload s1 = maxPayload s /\ wbuf s1 = wbuf s /\ loop s1 = loop s).
  { by destruct Hs as [-> | ->]. }
  destruct (control_events (maxPayload s) (Some w) t p msg ev1) as (? & ? & ?);
    try done; naive_solver.
Qed.

(** The data frame of one chunk. *)
Lemma chunk_facts max (p : bytes) :
  0 < max -> 0 < zlen p ->
  let chunk := if max <? zlen p then take (Z.to_nat max) p else p in
  0 < zlen chunk <= max /\ chunk = take (length chunk) p /\ (length chunk <= length p)%nat.
Proof.
  intros Hm Hp chunk. unfold chunk. destruct (Z.ltb_spec max (zlen p)); unfold zlen in *.
  - rewrite length_take. split; [lia|]. split; [|lia]. f_equal. lia.
  - split; [lia|]. split; [by rewrite firstn_all|done].
Qed.

Lemma tx_write_chunk evs0 cw s evs s' :
  tx_inv evs0 s -> write_chunk cw s = Some (evs, s') -> tx_step s evs s'.
Proof.
  intros Hinv H. pose proof Hinv as []. unfold write_chunk in H.
  destruct (wsem s) as [[arg p n []| |]|] eqn:Ew; try discriminate.
  destruct tx_owner0 as (Harg & Hn & Hlen & _). pose proof (zlen_nonneg p) as Hp0.
  destruct (Z.eqb_spec (zlen p) 0) as [Hz|Hz].
  { injection H as <- <-. constructor; try done.
    - constructor; [|done]. simpl. lia.
    - unfold sent_data, accepted. rewrite Ew. simpl. by rewrite !app_nil_r. }
  destruct (chunk_facts (maxPayload s) p) as (Hc & Hct & Hcl); [lia..|].
  set (chunk := if _ <? _ then _ else _) in *. rewrite Encode_ok in H; [|lia..].
  destruct (writeMessage _ _ _ _ _) as [[err ev1] s1] eqn:Hw.
  apply writeMessage_tx in Hw as [(d & Hs) He].
  assert (Hs1 : maxPayload s1 = maxPayload s /\
    wbuf s1 = wire TypeData chunk ++ drop (length (wire TypeData chunk)) (wbuf s) /\
    loop s1 = loop s) by (by destruct Hs as [-> | ->]).
  destruct Hs1 as (Hm & Hb & Hl). clear Hs.
  assert (Hbl : zlen (wbuf s1) = zlen (wbuf s)).
  { rewrite Hb. rewrite zlen_app. unfold zlen. rewrite length_drop.
    pose proof (length_wire TypeData chunk) as Hlw. unfold zlen in *. lia. }
  assert (Hf : frame_ok (maxPayload s) (wire TypeData chunk)).
  { exists TypeData, chunk. split; [done|]. split; [by left|]. left. done. }
  destruct err as [e|].
  - injection H as <- <-. destruct He as [[? _]|[_ He]]; [done|].
    constructor; try done.
    + by rewrite Hl.
    + apply Forall_app. split; [destruct He as [-> | ->]; by repeat constructor|].
      constructor; [|done]. simpl. lia.
    + rewrite sent_data_app, accepted_app, Ew. destruct He as [-> | ->];
        unfold sent_data, accepted; simpl; by rewrite ?app_nil_r.
  - injection H as <- <-. destruct He as [[_ ->]|[[? ?] _]]; [|done].
    assert (Hp : drop (length chunk) p = drop (Z.to_nat (n + zlen chunk)) arg).
    { rewrite Harg, drop_app_ge; rewrite length_take.
      - f_equal. unfold zlen in *. lia.
      - unfold zlen in *. lia. }
    constructor; try done; simpl.
    + split.
      * rewrite Hp. by rewrite take_drop.
      * unfold zlen in *. rewrite length_drop. split; [lia|]. split; [lia|done].
    + by rewrite Hl.
    + by repeat constructor.
    + rewrite Ew. unfold sent_data, accepted. simpl.
      rewrite data_payload_wire; [|by left|].
      2: { unfold clamp_payload. rewrite PayloadLimit_val in *. simpl. lia. }
      simpl. rewrite app_nil_r. rewrite Hct at 1.
      replace (Z.to_nat (n + zlen chunk)) with (Z.to_nat n + length chunk)%nat
        by (unfold zlen in *; lia).
      rewrite <- take_take_drop. f_equal. f_equal.
      apply (app_inv_head (take (Z.to_nat n) arg)). by rewrite take_drop, <- Harg.
Qed.

(** ** Every segment *)

Lemma tx_loop_fail evs0 e s evs : tx_inv evs0 s -> Forall tx_quiet evs ->
  tx_step s evs (loop_fail e s).
Proof.
  intros Hinv Hq. apply (tx_step_quiet evs0); try done; unfold loop_fail, setReadErr;
    destruct (readErr s); try done; apply Hinv.
Qed.

Ltac tx_still Hinv :=
  eapply (tx_step_quiet _ _ _ _ Hinv); simpl;
  try done; try (by repeat constructor); try apply Hinv.

Lemma take_length_le_zlen n (l : bytes) : zlen (take n l) <= Z.of_nat n.
Proof. unfold zlen. rewrite length_take. lia. Qed.

Lemma tx_loop_read evs0 r s evs s' :
  tx_inv evs0 s -> loop_read r s = Some (evs, s') -> tx_step s evs s'.
Proof.
  intros Hinv H. unfold loop_read in H. destruct (loop s) eqn:El; try discriminate.
  destruct r as [m|e]; [|injection H as <- <-; by eapply tx_loop_fail].
  destruct (_ <? _)%nat eqn:Ec; [discriminate|]. apply Nat.ltb_ge in Ec.
  assert (Hint : zlen m < 2 ^ 63).
  { destruct Hinv. rewrite PayloadLimit_val in *. unfold bufcap, zlen, HeaderSize in *. lia. }
  cbv zeta in H. revert H. generalize (take_length_le_zlen (length m)
    (buf_bytes (fill (loop_buf s) m s) (loop_buf (fill (loop_buf s) m s)))).
  set (msg := take _ _). intros Hmsg H.
  destruct (Parse msg _) as [[hdr p]|e] eqn:Epar; injection H as <- <-.
  2: { unfold loop_fail, setReadErr. destruct (readErr _); tx_still Hinv. }
  unfold loop_frame, deliverPong, loop_fail, setReadErr.
  destruct (h_type hdr =? TypeData); [|destruct (Z.eqb_spec (h_type hdr) TypePing) as [Et|];
    [|destruct (h_type hdr =? TypePong)]].
  - repeat case_match; tx_still Hinv.
  - tx_still Hinv. apply Parse_inv in Epar as (_ & Hok & _); [|unfold zlen in *; lia].
    rewrite Et in Hok. destruct Hok as [?|[[_ ?]|[? _]]]; done.
  - repeat case_match; tx_still Hinv.
  - repeat case_match; tx_still Hinv.
Qed.

Lemma tx_pong_write evs0 cw s evs s' :
  tx_inv evs0 s -> wsem s = Some WPong -> pong_write cw s = Some (evs, s') -> tx_step s evs s'.
Proof.
  intros Hinv Hsem H. unfold pong_write in H. destruct (loop s) as [| |p [|]| |] eqn:El; try discriminate.
  pose proof (tx_pong _ _ Hinv) as Hp. rewrite El in Hp. simpl in Hp.
  destruct (control_write _ _ _ _ _) as [[err ev1] s1] eqn:Hw.
  apply control_write_tx in Hw as (Hm & Hb & Hs & Hl & He & Hd & Ha);
    [|done|by right; left; auto|unfold PingSize in Hp; rewrite Hp; done].
  assert (Hg : forall s2 (l : loop_pc), maxPayload s2 = maxPayload s1 -> wbuf s2 = wbuf s1 ->
    wsem s2 = wsem s1 -> pong_ok (loop s2) -> tx_step s ev1 s2).
  { intros s2 _ Hm2 Hb2 Hs2 Hl2. constructor; rewrite ?Hs2, ?Hs, ?Hm2, ?Hb2, ?Hb, ?Hd, ?Ha, ?Hsem; done. }
  repeat case_match; injection H as <- <-; unfold loop_fail, setReadErr;
    repeat case_match; by apply (Hg _ LReading).
Qed.

Lemma EncodeClose_bound code reason : 2 <= zlen (EncodeClose code reason) <= max_control.
Proof.
  unfold EncodeClose, max_control. rewrite zlen_app.
  change (zlen (be16_put code)) with 2. pose proof (zlen_nonneg (truncate_reason reason)).
  destruct (Z.lt_ge_cases MaxCloseReason (zlen reason)) as [Hl|Hl].
  - destruct (truncate_long reason Hl) as (n & Hn & Hle & _). rewrite Hn in *.
    unfold MaxCloseReason in *. pose proof (take_length_le_zlen n reason). lia.
  - rewrite truncate_short in * by lia. lia.
Qed.

Lemma tx_term_send evs0 cw s evs s' :
  tx_inv evs0 s -> term_send cw s = Some (evs, s') -> tx_step s evs s'.
Proof.
  intros Hinv H. unfold term_send in H. destruct (termOnce s) eqn:Et; try discriminate.
  cbv zeta in H. change (wsem (s <| termOnce := TSent local drain |>)) with (wsem s) in H.
  destruct (wsem s) eqn:Ew.
  { injection H as <- <-. tx_still Hinv. }
  set (body := EncodeClose code reason) in *.
  destruct (Encode _ _ _) as [[b msg]|e] eqn:Ee.
  2: { injection H as <- <-. by tx_still Hinv. }
  destruct (writeMessage _ _ _ _ _) as [[err1 ev1] s1] eqn:Hw.
  apply writeMessage_tx in Hw as [(d & Hs) He]. injection H as <- <-.
  pose proof (EncodeClose_bound code reason) as Hbody. fold body in Hbody.
  assert (msg = wire TypeClose body) as Hmsg.
  { rewrite Encode_ok in Ee; [by injection Ee as _ <-| |].
    - unfold max_control, MaxCloseReason in Hbody. rewrite PayloadLimit_val. lia.
    - unfold zlen at 2, zeroes. rewrite length_replicate. unfold HeaderSize. lia. }
  destruct (control_events (maxPayload s) None TypeClose body msg ev1) as (? & Hd & Ha);
    try done; [right; right; split; [done|lia]|lia|naive_solver|].
  destruct Hinv. rewrite Ew in *.
  destruct Hs as [-> | ->]; constructor; simpl; rewrite ?Ew, ?Hd, ?Ha; done.
Qed.

(** A [Write] that returns at once with an error, or with nothing to send. *)
Lemma tx_step_failed evs0 s p e :
  tx_inv evs0 s -> p = [] \/ is_Some e -> tx_step s [EvWrite p 0 e] s.
Proof.
  intros [] Hp. pose proof (zlen_nonneg p). constructor; try done.
  - constructor; [|done]. destruct e; simpl; [lia|]. destruct Hp as [->|[? ?]]; done.
  - unfold sent_data, accepted. simpl. by rewrite app_nil_r.
Qed.

Lemma tx_ping_write evs0 id nonce cw s evs s' :
  tx_inv evs0 s -> zlen nonce = PingSize -> ping_write id nonce cw s = Some (evs, s') -> tx_step s evs s'.
Proof.
  intros Hinv Hn H.
  unfold ping_write in H. destruct (wsem s) as [[]|] eqn:Ew; try discriminate.
  destruct (control_write _ _ _ _ _) as [[err ev1] s1] eqn:Hw.
  apply control_write_tx in Hw as (Hm & Hb & Hs & Hl & He & Hd & Ha);
    [|done|by right; left; auto|rewrite Hn; done].
  destruct Hinv. rewrite Ew in *.
  destruct err; injection H as <- <-; unfold ping_cleanup.
  + assert (Hs2 : forall s2, maxPayload s2 = maxPayload s1 -> wbuf s2 = wbuf s1 ->
      wsem s2 = wsem s1 -> loop s2 = loop s1 -> tx_step s (ev1 ++ [EvPing (Some e)]) s2).
    { intros s2 H1 H2 H3 H4. constructor; rewrite ?H1, ?H2, ?H3, ?H4, ?Hm, ?Hb, ?Hs, ?Hl, ?Ew; try done.
      - apply Forall_app. split; [done|by repeat constructor].
      - by rewrite sent_data_app, accepted_app, Hd, Ha. }
    repeat case_match; by apply Hs2.
  + constructor; rewrite ?Hm, ?Hb, ?Hs, ?Hl, ?Ew, ?Hd, ?Ha; done.
Qed.

(** Taking the write lock, and the check that follows. *)
Lemma tx_write_acquire evs0 p sel s evs s' :
  tx_inv evs0 s -> write_acquire p sel s = Some (evs, s') -> tx_step s evs s'.
Proof.
  intros Hinv H.
  unfold write_acquire in H. destruct (Z.eqb_spec (zlen p) 0) as [Hz|Hz].
  { injection H as <- <-. apply (tx_step_failed evs0); [done..|].
    destruct p; [by left|by unfold zlen in Hz]. }
  destruct sel; repeat case_match; simplify_eq;
    try (apply (tx_step_failed evs0); [done..|by right]).
  apply (tx_step_quiet evs0); try done; try apply Hinv; simpl; by rewrite H0.
Qed.

Lemma tx_write_check evs0 s evs s' :
  tx_inv evs0 s -> write_check s = Some (evs, s') -> tx_step s evs s'.
Proof.
  intros Hinv H.
  unfold write_check in H. destruct (wsem s) as [[arg p n []| |]|] eqn:Ew; try discriminate.
  pose proof (tx_owner _ _ Hinv) as Ho. rewrite Ew in Ho. destruct Ho as (Ho1 & Ho2 & Ho3 & Hn).
  specialize (Hn eq_refl) as ->. pose proof (zlen_nonneg arg).
  destruct (writable s); simplify_eq.
  + destruct Hinv. constructor; try done.
    * by repeat constructor.
    * by rewrite Ew.
  + apply (tx_step_quiet evs0); try done; try apply Hinv; simpl; by rewrite ?Ew.
Qed.

Lemma exec_tx evs0 a s evs s' :
  ctl_ok s -> tx_inv evs0 s -> exec a s = Some (evs, s') -> tx_step s evs s'.
Proof.
  intros Hc Hinv H. destruct a; simpl in H.
  - by eapply tx_loop_read.
  - unfold loop_push, getBuf in H. repeat case_match; simplify_eq; tx_still Hinv.
  - unfold loop_push_term, loop_fail, setReadErr in H. repeat case_match; simplify_eq; tx_still Hinv.
  - unfold pong_select, loop_fail, setReadErr in H.
    pose proof (tx_pong _ _ Hinv) as Hp.
    repeat case_match; simplify_eq; tx_still Hinv; try (by rewrite H3).
  - eapply tx_pong_write; [done| |done]. apply (cv_pong _ Hc). simpl.
    unfold pong_write in H. by repeat case_match.
  - unfold loop_close_data in H. repeat case_match; simplify_eq; tx_still Hinv.
  - unfold loop_close_done in H. repeat case_match; simplify_eq; tx_still Hinv.
  - unfold read_acquire in H. repeat case_match; simplify_eq; tx_still Hinv.
  - unfold read_step, read_deliver, read_return, recv_data, putBuf, take_msg in H.
    repeat case_match; simplify_eq; tx_still Hinv.
  - by eapply tx_write_acquire.
  - by eapply tx_write_check.
  - by eapply tx_write_chunk.
  - unfold SetReadDeadline in H. repeat case_match; simplify_eq; tx_still Hinv.
  - unfold SetWriteDeadline in H. repeat case_match; simplify_eq; tx_still Hinv.
  - unfold ping_begin in H. repeat case_match; simplify_eq; tx_still Hinv.
  - unfold ping_select, ping_return, ping_cleanup in H.
    repeat case_match; simplify_eq; tx_still Hinv; simpl; by rewrite H1.
  - destruct (Z.eqb_spec (zlen nonce) PingSize) as [Hn|]; [|discriminate]. by eapply tx_ping_write.
  - unfold ping_wait, ping_return, ping_cleanup in H. repeat case_match; simplify_eq; tx_still Hinv.
  - simplify_eq. unfold close_local, setReadErr. repeat case_match; tx_still Hinv.
  - simplify_eq. tx_still Hinv.
  - unfold term_enter in H. repeat case_match; simplify_eq; tx_still Hinv.
  - by eapply tx_term_send.
  - unfold term_finish, setReadErr in H. repeat case_match; simplify_eq; tx_still Hinv.
  - unfold release_start, getBuf in H. repeat case_match; simplify_eq; tx_still Hinv.
  - unfold release_poll, putBuf, fill in H. repeat case_match; simplify_eq; tx_still Hinv.
  - unfold release_close in H. repeat case_match; simplify_eq; tx_still Hinv.
  - case_match; simplify_eq; tx_still Hinv.
Qed.

Lemma reachable_tx cfg evs s : reachable cfg evs s -> tx_inv evs s.
Proof.
  induction 1 as [|evs s a evs' s' Hr IH Hx].
  - pose proof (cfg_maxPayload_bound cfg). constructor; try done; simpl.
    unfold zlen, zeroes. rewrite length_replicate. unfold HeaderSize. lia.
  - eapply tx_inv_step; [done|]. eapply exec_tx; [by eapply reachable_ctl|done|done].
Qed.
