(* ===== verification/StreamProps.v ===== *)
(** * What the stream promises: integrity, completion, bounds and closing

    The theorems about [Stream] as a whole, from the invariants of its receive side
    ([StreamRecv]), its send side ([StreamSend]) and its control state ([StreamCtl]). *)

From S2P Require Import Prelude.
From S2P Require Import Utf8.
From S2P Require Import Errors.
From S2P Require Import Frame.
From S2P Require Import Stream.
From S2P Require Import StreamCtl.
From S2P Require Import StreamRecv.
From S2P Require Import StreamSend.

(** ** Runs and flags *)

Lemma run_app acts acts' s :
  run (acts ++ acts') s =
  match run acts s with
  | None => None
  | Some (evs, s1) =>
    match run acts' s1 with None => None | Some (evs', s2) => Some (evs ++ evs', s2) end
  end.
Proof.
  revert s. induction acts as [|a acts IH]; intros s; simpl.
  - by destruct (run acts' s) as [[]|].
  - destruct (exec a s) as [[evs s1]|]; [|done]. rewrite IH.
    destruct (run acts s1) as [[evs1 s2]|]; [|done].
    destruct (run acts' s2) as [[evs2 s3]|]; [|done]. by rewrite app_assoc.
Qed.

Lemma reachable_run cfg evs s acts evs' s' :
  reachable cfg evs s -> run acts s = Some (evs', s') -> reachable cfg (evs ++ evs') s'.
Proof.
  revert evs s evs'. induction acts as [|a acts IH]; intros evs s evs' Hr H; simpl in H.
  - injection H as <- <-. by rewrite app_nil_r.
  - destruct (exec a s) as [[evs1 s1]|] eqn:Ex; [|done].
    destruct (run acts s1) as [[evs2 s2]|] eqn:Er; [|done]. injection H as <- <-.
    rewrite app_assoc. eapply IH; [|done]. by eapply reach_step.
Qed.

Lemma run_reachable cfg acts evs s :
  run acts (NewStream cfg) = Some (evs, s) -> reachable cfg evs s.
Proof. intros H. by apply (reachable_run cfg [] _ acts evs s (reach_new cfg)). Qed.

(** A stream that has terminated stays so, and so does one that was closed; the read
    loop gives a message up only after the stream terminated. *)
Definition keeps_flags (s : stream) (evs : list event) (s' : stream) : Prop :=
  (term s = true -> term s' = true) /\ (closed s = true -> closed s' = true) /\
  (dropped evs <> [] -> term s = true).

Lemma keeps_flags_ctl s evs s' :
  c_term (ctl s') = c_term (ctl s) -> c_closed (ctl s') = c_closed (ctl s) ->
  dropped evs = [] -> keeps_flags s evs s'.
Proof. intros H1 H2 H3. unfold keeps_flags. simpl in *. rewrite H1, H2, H3.
  split; [done|split; [done|by intros []]].
Qed.

Lemma writeMessage_dropped w msg dl cw s err evs s' :
  writeMessage w msg dl cw s = (err, evs, s') -> dropped evs = [].
Proof. intros H. apply writeMessage_still in H as (_ & Hq & _). by destruct (quiet_bytes 0 evs Hq) as (_ & ? & _). Qed.

Lemma control_write_dropped w t p cw s err evs s' :
  control_write w t p cw s = (err, evs, s') -> dropped evs = [].
Proof. intros H. apply control_write_still in H as (_ & Hq & _). by destruct (quiet_bytes 0 evs Hq) as (_ & ? & _). Qed.

Ltac flags_tac := unfold keeps_flags; simpl; split; [done|split; [done|by intros []]].

Lemma exec_flags a s evs s' : exec a s = Some (evs, s') -> keeps_flags s evs s'.
Proof.
  intros H. destruct a; simpl in H.
  - unfold loop_read, loop_fail, setReadErr, loop_frame, deliverPong, fill in H.
    repeat case_match; simplify_eq; try flags_tac;
      by apply keeps_flags_ctl; rewrite ?ctl_loop_fail.
  - unfold loop_push, getBuf in H. repeat case_match; simplify_eq; flags_tac.
  - unfold loop_push_term, loop_fail, setReadErr in H.
    repeat case_match; simplify_eq; unfold keeps_flags; simpl; tauto.
  - unfold pong_select, loop_fail, setReadErr in H. repeat case_match; simplify_eq; flags_tac.
  - unfold pong_write in H. destruct (loop s) as [| |p [|]| |]; try discriminate.
    destruct (control_write _ _ _ _ _) as [[err ev1] s1] eqn:Hw.
    pose proof (control_write_dropped _ _ _ _ _ _ _ _ Hw) as Hd.
    apply control_write_ctl in Hw.
    repeat case_match; injection H as <- <-; apply keeps_flags_ctl; rewrite ?ctl_loop_fail; try done;
      first [by apply (f_equal c_term) in Hw | by apply (f_equal c_closed) in Hw].
  - unfold loop_close_data in H. repeat case_match; simplify_eq; flags_tac.
  - unfold loop_close_done in H. repeat case_match; simplify_eq; flags_tac.
  - unfold read_acquire in H. repeat case_match; simplify_eq; flags_tac.
  - assert (Hd : dropped evs = []).
    { unfold read_step, read_return, read_deliver in H. by repeat case_match; simplify_eq. }
    apply ctl_read_step in H. apply keeps_flags_ctl; by rewrite ?H.
  - unfold write_acquire in H. repeat case_match; simplify_eq; flags_tac.
  - unfold write_check in H. repeat case_match; simplify_eq; flags_tac.
  - unfold write_chunk in H. repeat case_match; simplify_eq; try flags_tac.
    all: match goal with Hw : writeMessage _ _ _ _ _ = _ |- _ =>
      pose proof (writeMessage_dropped _ _ _ _ _ _ _ _ Hw) as Hd; apply writeMessage_ctl in Hw end.
    all: apply keeps_flags_ctl; rewrite ?dropped_app, ?Hd; try done.
    all: unfold ctl in *; simpl in *; congruence.
  - unfold SetReadDeadline in H. repeat case_match; simplify_eq; flags_tac.
  - unfold SetWriteDeadline in H. repeat case_match; simplify_eq; flags_tac.
  - unfold ping_begin in H. repeat case_match; simplify_eq; flags_tac.
  - unfold ping_select, ping_return, ping_cleanup in H. repeat case_match; simplify_eq; flags_tac.
  - destruct (_ =? _); [|discriminate]. unfold ping_write in H.
    destruct (wsem s) as [[]|]; try discriminate.
    destruct (control_write _ _ _ _ _) as [[err ev1] s1] eqn:Hw.
    pose proof (control_write_dropped _ _ _ _ _ _ _ _ Hw) as Hd.
    apply control_write_ctl in Hw.
    repeat case_match; injection H as <- <-; apply keeps_flags_ctl;
      rewrite ?ctl_ping_cleanup, ?dropped_app, ?Hd, ?Hw; done.
  - unfold ping_wait, ping_return, ping_cleanup in H. repeat case_match; simplify_eq; flags_tac.
  - simplify_eq. unfold close_local, setReadErr. repeat case_match; flags_tac.
  - simplify_eq. flags_tac.
  - unfold term_enter in H. repeat case_match; simplify_eq; flags_tac.
  - unfold term_send in H. repeat case_match; simplify_eq; try flags_tac.
    match goal with Hw : writeMessage _ _ _ _ _ = _ |- _ =>
      pose proof (writeMessage_dropped _ _ _ _ _ _ _ _ Hw) as Hd;
      apply writeMessage_ctl in Hw; by apply keeps_flags_ctl; rewrite ?Hw end.
  - unfold term_finish, setReadErr in H. repeat case_match; simplify_eq; flags_tac.
  - unfold release_start, getBuf in H. repeat case_match; simplify_eq; flags_tac.
  - unfold release_poll, putBuf, fill in H. repeat case_match; simplify_eq; flags_tac.
  - unfold release_close in H. repeat case_match; simplify_eq; flags_tac.
  - case_match; simplify_eq; flags_tac.
Qed.

Lemma reachable_dropped cfg evs s :
  reachable cfg evs s -> dropped evs <> [] -> term s = true.
Proof.
  induction 1 as [|evs s a evs' s' Hr IH Hx]; [done|].
  destruct (exec_flags _ _ _ _ Hx) as (Ht & _ & Hd). rewrite dropped_app. intros Hne.
  apply Ht. destruct (dropped evs); [|by apply IH]. by apply Hd.
Qed.

(** ** Integrity of the received stream *)

(** C2. Whatever the interleaving of the read loop, readers, pings, closers and the
    release goroutine, and although buffers are pooled and handed around without
    copying: the bytes readers took, followed by the bytes still inside the stream,
    followed by those given up, are exactly the data payloads that arrived, in order.
    Nothing is given up before the stream terminated. *)
Theorem read_integrity cfg evs s :
  reachable cfg evs s ->
  taken evs ++ inside (view s) ++ dropped evs = arrived (cfg_maxPayload cfg) evs /\
  (dropped evs <> [] -> term s = true).
Proof.
  intros Hr. split; [apply (reachable_rx _ _ _ Hr)|by eapply reachable_dropped].
Qed.

(** A run of a small stream: a message arrives, is queued and read in two pieces,
    while a second one arrives and waits. *)
Definition demo_cfg : Config := {| MaxPayload := 4; ReadBuffer := 8 |}.
Definition demo_msg (p : string) : bytes := wire TypeData (to_bytes p).
Definition demo_acts : list action :=
  [ALoopRead (Ok (demo_msg "hey")); ALoopPush; ARead 2 AcqSem; AReadStep SelData;
   AReadStep SelData; AReadStep SelData; ALoopRead (Ok (demo_msg "you")); ALoopPush].

Definition run_or_new (cfg : Config) (acts : list action) : list event * stream :=
  default ([], NewStream cfg) (run acts (NewStream cfg)).

Lemma run_or_new_reachable cfg acts :
  reachable cfg (fst (run_or_new cfg acts)) (snd (run_or_new cfg acts)).
Proof.
  unfold run_or_new. destruct (run acts (NewStream cfg)) as [[evs s]|] eqn:E; simpl.
  - by eapply run_reachable.
  - apply reach_new.
Qed.

Definition demo_run : list event * stream := run_or_new demo_cfg demo_acts.

Example read_integrity_witness :
  taken (fst demo_run) ++ inside (view (snd demo_run)) ++ dropped (fst demo_run) =
    to_bytes "heyyou" /\
  taken (fst demo_run) = to_bytes "he".
Proof.
  pose proof (read_integrity demo_cfg _ _ (run_or_new_reachable demo_cfg demo_acts)) as [H _].
  split; [|vm_compute; reflexivity].
  etransitivity; [exact H|]. vm_compute. reflexivity.
Defined.

Lemma elem_of_err k p e evs :
  EvRead k p (Some e) ∈ evs ->
  match evs with
  | [] => False
  | [EvRead k' p' o] => k = k' /\ p = p' /\ Some e = o
  | _ => True
  end.
Proof. intros H. destruct evs as [|[] []]; set_solver. Qed.

(** C4. A [Read] that fails, on a stream not closed by this side and for another
    reason than its deadline, reports the terminal error, and only once the reader
    has been given everything that arrived: no byte is lost to the end of the stream,
    except a message the loop was still queueing when the stream was terminated. *)
Theorem read_error_means_drained cfg evs s sel evs' s' k p e :
  reachable cfg evs s -> exec (AReadStep sel) s = Some (evs', s') ->
  EvRead k p (Some e) ∈ evs' -> closed s = false -> sel <> SelDeadline ->
  e = terminalErr s /\ taken evs ++ dropped evs = arrived (cfg_maxPayload cfg) evs /\
  (term s = false -> taken evs = arrived (cfg_maxPayload cfg) evs).
Proof.
  intros Hr H Hin Hc Hsel. simpl in H. pose proof (reachable_rx _ _ _ Hr) as [Hok _ _ Hb _].
  pose proof (reachable_ctl _ _ _ Hr) as Hctl.
  assert (Hend : e = terminalErr s /\ dataCh s = [] /\ cur s = None /\ dataClosed s = true).
  { unfold read_step, read_return, recv_data in H. rewrite Hc in H.
    destruct (reader s) as [[k' pc]|] eqn:Er; [|done].
    assert (Hw : reader_waits (reader s) = true -> cur s = None) by apply (own_wait _ _ Hok).
    rewrite Er in Hw. destruct pc; [|specialize (Hw eq_refl)..].
    - unfold read_deliver in H. destruct (cur s); [destruct (_ <? _)%nat|];
        injection H as <- <-; apply elem_of_err in Hin; naive_solver.
    - destruct (dataCh s); [|injection H as <- <-; apply elem_of_err in Hin; naive_solver].
      destruct (dataClosed s); injection H as <- <-; apply elem_of_err in Hin; naive_solver.
    - destruct sel; [|done..].
      destruct (dataCh s); [|injection H as <- <-; apply elem_of_err in Hin; naive_solver].
      destruct (dataClosed s); [|done]. injection H as <- <-. apply elem_of_err in Hin; naive_solver. }
  destruct Hend as (-> & Hq & Hcur & Hdc). split; [done|].
  assert (Hi : inside (view s) = []).
  { pose proof (cv_stopped _ Hctl Hdc) as Hs. simpl in Hs. unfold inside, queued_bytes, parked_bytes.
    simpl. rewrite Hq, Hcur. simpl. by destruct (loop s). }
  rewrite Hi in Hb. split; [done|]. intros Ht. rewrite <- Hb.
  destruct (decide (dropped evs = [])) as [->|Hd]; [by rewrite app_nil_r|].
  pose proof (reachable_dropped _ _ _ Hr Hd). congruence.
Qed.

(** The peer sends [hey] and closes; the reader takes it all and then sees EOF. *)
Definition eof_acts : list action :=
  [ALoopRead (Ok (demo_msg "hey")); ALoopPush;
   ALoopRead (Ok (wire TypeClose (EncodeClose CloseNormal []))); ALoopCloseData; ALoopCloseDone;
   ARead 8 AcqSem; AReadStep SelData; AReadStep SelData; AReadStep SelData;
   ARead 8 AcqSem; AReadStep SelData].

Example read_error_means_drained_witness :
  ESent io_EOF = terminalErr (snd (run_or_new demo_cfg eof_acts)) /\
  taken (fst (run_or_new demo_cfg eof_acts)) = to_bytes "hey".
Proof.
  set (s := snd (run_or_new demo_cfg eof_acts)).
  assert (Hx : exec (AReadStep SelData) s =
    Some ([EvRead 8 [] (Some (ESent io_EOF))], s <| reader := None |>))
    by (vm_compute; reflexivity).
  destruct (read_error_means_drained demo_cfg (fst (run_or_new demo_cfg eof_acts)) s SelData
    _ _ 8 [] (ESent io_EOF) (run_or_new_reachable demo_cfg eof_acts) Hx) as (He & _ & Ht).
  - left.
  - vm_compute. reflexivity.
  - discriminate.
  - split; [exact He|]. etransitivity; [apply Ht; vm_compute; reflexivity|].
    vm_compute. reflexivity.
Defined.

Lemma msg_bytes_bound v m :
  (8 < snd m <= vcap v)%nat -> zlen (msg_bytes (v_heap v) m) <= v_max v.
Proof.
  unfold msg_bytes, zlen, vcap, HeaderSize. intros H. rewrite length_drop, length_take. lia.
Qed.

Lemma inside_bound v : rx_ok v -> zlen (inside v) <= (Z.of_nat (v_depth v) + 2) * v_max v.
Proof.
  intros []. unfold inside, queued_bytes. rewrite !zlen_app.
  assert (Hcur : zlen (cur_bytes (v_heap v) (v_cur v)) <= v_max v).
  { destruct (v_cur v) as [sl|]; simpl; [|unfold zlen; simpl; lia].
    unfold zlen, vcap, HeaderSize in *. rewrite length_take, length_drop. lia. }
  assert (Hp : zlen (parked_bytes v) <= v_max v).
  { unfold parked_bytes. destruct (v_parked v); [by apply msg_bytes_bound|].
    unfold zlen; simpl; lia. }
  assert (Hq : zlen (mjoin (msg_bytes (v_heap v) <$> v_q v)) <= Z.of_nat (length (v_q v)) * v_max v).
  { clear -own_q. induction own_q as [|m q Hm _ IH]; [unfold zlen; simpl; lia|].
    change (mjoin (msg_bytes (v_heap v) <$> m :: q)) with
      (msg_bytes (v_heap v) m ++ mjoin (msg_bytes (v_heap v) <$> q)).
    rewrite zlen_app. pose proof (msg_bytes_bound v m Hm). simpl length. lia. }
  nia.
Qed.

(** C28. Backpressure bounds what the receive side holds: the unread bytes fit in the
    configured read buffer plus two frames, the buffers in use are at most twice the
    queue depth plus five, and no two of their owners share one. *)
Theorem receive_memory_bounded cfg evs s :
  reachable cfg evs s ->
  zlen (inside (view s)) <= (cfg_depth cfg + 2) * cfg_maxPayload cfg /\
  cfg_depth cfg * cfg_maxPayload cfg <=
    Z.max (cfg_maxPayload cfg) (if ReadBuffer cfg <=? 0 then 2 ^ 20 else ReadBuffer cfg) /\
  (length (owned (view s)) <= 2 * Z.to_nat (cfg_depth cfg) + 5)%nat /\
  NoDup (owned (view s)).
Proof.
  intros Hr. pose proof (reachable_rx _ _ _ Hr) as [Hok Hm Hd _ _].
  pose proof (cfg_maxPayload_bound cfg). pose proof (cfg_depth_pos cfg).
  split; [|split; [|split; [|apply Hok]]].
  - etransitivity; [apply (inside_bound _ Hok)|]. simpl v_max. simpl v_depth. rewrite Hm, Hd. nia.
  - unfold cfg_depth. change (Z.shiftl 1 20) with (2 ^ 20).
    set (rb := if _ <=? 0 then _ else _). destruct (Z.ltb_spec (Z.quot rb (cfg_maxPayload cfg)) 1); [lia|].
    destruct (Z.lt_ge_cases rb 0).
    + assert (Z.quot rb (cfg_maxPayload cfg) <= 0); [|lia].
      rewrite <- (Z.opp_involutive rb), Z.quot_opp_l by lia.
      pose proof (Z.quot_pos (- rb) (cfg_maxPayload cfg)). lia.
    + pose proof (Z.mul_quot_le rb (cfg_maxPayload cfg)). lia.
  - destruct Hok. unfold owned. simpl length. rewrite !length_app, length_fmap. simpl in *.
    rewrite Hd in *. destruct (cur s), (drain_buf (release s)); simpl; lia.
Qed.

Example receive_memory_bounded_witness :
  let s := snd (run_or_new demo_cfg demo_acts) in
  (length (owned (view s)) <= 2 * Z.to_nat (cfg_depth demo_cfg) + 5)%nat /\
  zlen (inside (view s)) = 4.
Proof.
  intros s. split; [|vm_compute; reflexivity].
  apply (receive_memory_bounded demo_cfg _ s (run_or_new_reachable demo_cfg demo_acts)).
Defined.

(** ** What writers put on the channel *)

Lemma write_facts cfg evs s :
  reachable cfg evs s ->
  Forall (ev_ok (cfg_maxPayload cfg)) evs /\
  sent_data evs = accepted evs ++ writing (wsem s).
Proof.
  intros Hr. destruct (reachable_tx _ _ _ Hr).
  by rewrite (rx_max _ _ _ (reachable_rx _ _ _ Hr)) in *.
Qed.

(** C3. Every message the stream hands to its channel is a well-formed frame, data
    frames within the negotiated payload; a [Write] without error wrote its whole
    argument; and the data on the channel is exactly what the [Write] calls report as
    written, call after call in the order they finish, then what the current call has
    written: calls are never interleaved and no byte is sent twice or skipped. *)
Theorem write_contiguous cfg evs s :
  reachable cfg evs s ->
  Forall (ev_ok (cfg_maxPayload cfg)) evs /\
  sent_data evs = accepted evs ++ writing (wsem s).
Proof.
  apply write_facts.
Qed.

Definition write_acts : list action :=
  [AWrite (to_bytes "hello") AcqSem; AWriteCheck; AWriteChunk (CWrote 12); AWriteChunk (CWrote 9);
   AWriteChunk (CWrote 0); AWrite (to_bytes "world") AcqSem; AWriteCheck; AWriteChunk (CWrote 12)].

Example write_contiguous_witness :
  sent_data (fst (run_or_new demo_cfg write_acts)) = to_bytes "helloworl" /\
  accepted (fst (run_or_new demo_cfg write_acts)) = to_bytes "hello".
Proof.
  pose proof (write_contiguous demo_cfg _ _ (run_or_new_reachable demo_cfg write_acts)) as [_ H].
  split; [|vm_compute; reflexivity].
  etransitivity; [exact H|]. vm_compute. reflexivity.
Defined.

(** The messages a stream's channel accepted, and the ones it delivered. *)
Definition msgs_out (evs : list event) : list bytes :=
  omap (fun e => match e with EvSent _ m => Some m | _ => None end) evs.
Definition msgs_in (evs : list event) : list bytes :=
  omap (fun e => match e with EvArrived m => Some m | _ => None end) evs.

Lemma arrived_msgs max evs : arrived max evs = mjoin (data_payload max <$> msgs_in evs).
Proof.
  induction evs as [|e evs IH]; [done|]. change (e :: evs) with ([e] ++ evs).
  rewrite arrived_app, IH. unfold msgs_in. rewrite omap_app, fmap_app, join_app.
  by destruct e.
Qed.

Lemma sent_msgs evs : sent_data evs = mjoin (data_payload PayloadLimit <$> msgs_out evs).
Proof.
  induction evs as [|e evs IH]; [done|]. change (e :: evs) with ([e] ++ evs).
  rewrite sent_data_app, IH. unfold msgs_out. rewrite omap_app, fmap_app, join_app.
  by destruct e.
Qed.

Lemma msgs_out_ok max evs :
  Forall (ev_ok max) evs -> Forall (frame_ok max) (msgs_out evs).
Proof.
  induction 1 as [|e evs He _ IH]; [by constructor|].
  unfold msgs_out in *. destruct e; simpl; try done. by constructor.
Qed.

(** A receiver that admits the sender's payloads reads the same data in a frame. *)
Lemma data_payload_mono max max' m :
  0 < max -> max <= max' <= PayloadLimit -> frame_ok max m ->
  data_payload max' m = data_payload PayloadLimit m.
Proof.
  intros Hm Hle (t & p & -> & Hok & Hp).
  destruct Hp as [[-> Hp]|[Ht Hp]].
  - assert (Hc : forall x, max <= x <= PayloadLimit -> zlen p <= clamp_payload x).
    { intros x Hx. unfold clamp_payload.
      destruct (Z.ltb_spec x 0), (Z.ltb_spec PayloadLimit x); simpl; lia. }
    rewrite !data_payload_wire; try done; apply Hc; lia.
  - assert (0 <= t < 256) by (destruct Hok as [->|[[[->| ->] _]|[-> _]]]; done).
    rewrite !data_payload_control; try done; unfold max_control, MaxCloseReason in Hp; lia.
Qed.

(** C1. End to end: join two streams by a channel that delivers a prefix of the messages
    it accepted, in order (what a reliable, ordered DataChannel documents), where the
    receiver admits the sender's frame size. Then what the reading side has been given
    is a prefix of what the writing side's [Write] calls sent, whatever each side's
    scheduling, chunking and closing; and once nothing is in flight (every message
    delivered, nothing queued or given up), it is all of it. *)
Theorem stream_end_to_end cfgA cfgB evsA evsB sA sB :
  reachable cfgA evsA sA -> reachable cfgB evsB sB ->
  cfg_maxPayload cfgA <= cfg_maxPayload cfgB ->
  msgs_in evsB `prefix_of` msgs_out evsA ->
  taken evsB `prefix_of` (accepted evsA ++ writing (wsem sA)) /\
  (msgs_in evsB = msgs_out evsA -> inside (view sB) = [] -> term sB = false ->
   taken evsB = accepted evsA ++ writing (wsem sA)).
Proof.
  intros HA HB Hle [rest Hpre].
  destruct (write_facts _ _ _ HA) as [Hok <-].
  pose proof (rx_bytes _ _ _ (reachable_rx _ _ _ HB)) as Hb.
  pose proof (cfg_maxPayload_bound cfgA). pose proof (cfg_maxPayload_bound cfgB).
  assert (Hall : mjoin (data_payload (cfg_maxPayload cfgB) <$> msgs_out evsA) = sent_data evsA).
  { rewrite sent_msgs. f_equal. apply list_fmap_ext. intros i m Hm.
    apply data_payload_mono with (max := cfg_maxPayload cfgA); [lia|lia|].
    pose proof (msgs_out_ok _ _ Hok) as Hf. rewrite Forall_lookup in Hf. by eapply Hf. }
  rewrite arrived_msgs in Hb. split.
  - rewrite <- Hall, Hpre, fmap_app, join_app, <- Hb, <- !app_assoc. by apply prefix_app_r.
  - intros Heq Hi Ht. rewrite <- Hall, <- Heq, <- Hb, Hi.
    destruct (decide (dropped evsB = [])) as [->|Hd]; [by rewrite !app_nil_r|].
    pose proof (reachable_dropped _ _ _ HB Hd). congruence.
Qed.

Definition peer_acts : list action :=
  [ALoopRead (Ok (demo_msg "hell")); ALoopPush; ALoopRead (Ok (demo_msg "o")); ALoopPush;
   ARead 9 AcqSem; AReadStep SelData; AReadStep SelData; AReadStep SelData;
   ARead 9 AcqSem; AReadStep SelData; AReadStep SelData; AReadStep SelData].

Example stream_end_to_end_witness :
  taken (fst (run_or_new demo_cfg peer_acts)) `prefix_of` to_bytes "helloworl" /\
  taken (fst (run_or_new demo_cfg peer_acts)) = to_bytes "hello".
Proof.
  split; [|vm_compute; reflexivity].
  replace (to_bytes "helloworl") with (accepted (fst (run_or_new demo_cfg write_acts)) ++
    writing (wsem (snd (run_or_new demo_cfg write_acts)))) by (vm_compute; reflexivity).
  apply (stream_end_to_end demo_cfg demo_cfg _ _ _ _ (run_or_new_reachable demo_cfg write_acts)
    (run_or_new_reachable demo_cfg peer_acts)).
  - lia.
  - exists [demo_msg "worl"]. vm_compute. reflexivity.
Defined.

(** ** Closing *)

(** No [Write] past its [writable] check holds [wsem]. *)
Definition no_writer (w : option wowner) : bool :=
  match w with Some (WApp _ _ _ true) => false | _ => true end.

Definition refused (e : event) : Prop :=
  match e with EvWrite _ n e => n = 0 /\ is_Some e | _ => True end.

Lemma refused_accepted evs : Forall refused evs -> accepted evs = [].
Proof.
  induction 1 as [|e evs He _ IH]; [done|]. change (e :: evs) with ([e] ++ evs).
  rewrite accepted_app, IH, app_nil_r. destruct e; try done. by destruct He as [-> _].
Qed.

Definition write_action (a : action) : bool :=
  match a with AWrite _ _ | AWriteCheck | AWriteChunk _ => true | _ => false end.

Lemma writeMessage_events w msg dl cw s err evs s' :
  writeMessage w msg dl cw s = (err, evs, s') -> Forall refused evs /\ wsem s' = wsem s.
Proof.
  intros H. apply writeMessage_tx in H as [(d & [-> | ->]) [[_ ->]|[_ [-> | ->]]]];
    split; by repeat constructor.
Qed.

Lemma control_write_events w t p cw s err evs s' :
  control_write w t p cw s = (err, evs, s') -> Forall refused evs /\ wsem s' = None.
Proof.
  unfold control_write. intros H. destruct (Encode _ _ _) as [[? msg]|];
    [|injection H as <- <- <-; by split].
  destruct (writeMessage _ _ _ _ _) as [[? ?] ?] eqn:Hw. injection H as <- <- <-.
  by apply writeMessage_events in Hw as [? _].
Qed.

Ltac refused_tac := split; [done|by repeat constructor].

(** Only the write segments make a writer or finish a [Write]. *)
Lemma exec_no_writer a s evs s' :
  write_action a = false -> exec a s = Some (evs, s') -> no_writer (wsem s) = true ->
  no_writer (wsem s') = true /\ Forall refused evs.
Proof.
  intros Ha H Hn. destruct a; try discriminate; simpl in H; clear Ha.
  - unfold loop_read, loop_frame, deliverPong, fill in H.
    destruct (loop s); try discriminate.
    destruct r; [|injection H as <- <-; unfold loop_fail, setReadErr; case_match; refused_tac].
    destruct (_ <? _)%nat; [discriminate|]. cbv zeta in H.
    destruct (Parse _ _) as [[hdr p]|]; injection H as <- <-; unfold loop_fail, setReadErr;
      repeat case_match; refused_tac.
  - unfold loop_push, getBuf in H. repeat case_match; simplify_eq; refused_tac.
  - unfold loop_push_term, loop_fail, setReadErr in H.
    repeat case_match; simplify_eq; refused_tac.
  - unfold pong_select, loop_fail, setReadErr in H. repeat case_match; simplify_eq; refused_tac.
  - unfold pong_write in H. destruct (loop s) as [| |p [|]| |]; try discriminate.
    destruct (control_write _ _ _ _ _) as [[err ev1] s1] eqn:Hw.
    apply control_write_events in Hw as [He Hw].
    repeat case_match; injection H as <- <-; unfold loop_fail, setReadErr; repeat case_match;
      simpl; by rewrite Hw.
  - unfold loop_close_data in H. repeat case_match; simplify_eq; refused_tac.
  - unfold loop_close_done in H. repeat case_match; simplify_eq; refused_tac.
  - unfold read_acquire in H. repeat case_match; simplify_eq; refused_tac.
  - pose proof (ctl_read_step _ _ _ _ H) as Hw. apply (f_equal c_wsem) in Hw. simpl in Hw.
    rewrite Hw. split; [done|]. clear Hw.
    unfold read_step, read_return, read_deliver, recv_data in H.
    repeat case_match; simplify_eq; by repeat constructor.
  - unfold SetReadDeadline in H. repeat case_match; simplify_eq; refused_tac.
  - unfold SetWriteDeadline in H. repeat case_match; simplify_eq; refused_tac.
  - unfold ping_begin in H. repeat case_match; simplify_eq; refused_tac.
  - unfold ping_select, ping_return, ping_cleanup in H. repeat case_match; simplify_eq; refused_tac.
  - destruct (_ =? _); [|discriminate]. unfold ping_write in H.
    destruct (wsem s) as [[]|]; try discriminate.
    destruct (control_write _ _ _ _ _) as [[err ev1] s1] eqn:Hw.
    apply control_write_events in Hw as [He Hw].
    unfold ping_cleanup in H. repeat case_match; injection H as <- <-; simpl; rewrite Hw; split; try done.
    all: apply Forall_app; split; [done|by repeat constructor].
  - unfold ping_wait, ping_return, ping_cleanup in H. repeat case_match; simplify_eq; refused_tac.
  - simplify_eq. unfold close_local, setReadErr. repeat case_match; refused_tac.
  - simplify_eq. refused_tac.
  - unfold term_enter in H. repeat case_match; simplify_eq; refused_tac.
  - unfold term_send in H. destruct (termOnce s); try discriminate. cbv zeta in H.
    change (wsem (s <| termOnce := TSent local drain |>)) with (wsem s) in H.
    destruct (wsem s) eqn:Ew; [injection H as <- <-; simpl; rewrite Ew; refused_tac|].
    destruct (Encode _ _ _) as [[? msg]|]; [|injection H as <- <-; simpl; rewrite Ew; refused_tac].
    destruct (writeMessage _ _ _ _ _) as [[err ev1] s1] eqn:Hw.
    apply writeMessage_events in Hw as [He Hw]. injection H as <- <-. rewrite Hw. simpl.
    by rewrite Ew.
  - unfold term_finish, setReadErr in H. repeat case_match; simplify_eq; refused_tac.
  - unfold release_start, getBuf in H. repeat case_match; simplify_eq; refused_tac.
  - unfold release_poll, putBuf, fill in H. repeat case_match; simplify_eq; refused_tac.
  - unfold release_close in H. repeat case_match; simplify_eq; refused_tac.
  - case_match; simplify_eq; refused_tac.
Qed.

Lemma exec_refused a s evs s' :
  exec a s = Some (evs, s') -> closed s = true -> no_writer (wsem s) = true ->
  no_writer (wsem s') = true /\ Forall refused evs.
Proof.
  intros H Hc Hn. destruct (write_action a) eqn:Ea; [|by eapply exec_no_writer].
  assert (Hw : writable s = Some (ESent ErrClosed)) by (unfold writable; by rewrite Hc).
  destruct a; try discriminate; simpl in H.
  - unfold write_acquire in H. rewrite Hw in H.
    repeat case_match; simplify_eq; split; try done; constructor; try done; simpl; eauto.
  - unfold write_check in H. rewrite Hw in H.
    repeat case_match; simplify_eq; split; try done; constructor; try done; simpl; eauto.
  - unfold write_chunk in H. destruct (wsem s) as [[? ? ? []| |]|]; done.
Qed.

Lemma closed_run cfg evs s acts evs' s' :
  reachable cfg evs s -> closed s = true -> no_writer (wsem s) = true ->
  run acts s = Some (evs', s') -> Forall refused evs' /\ sent_data evs' = [].
Proof.
  revert evs s evs'. induction acts as [|a acts IH]; intros evs s evs' Hr Hc Hn H; simpl in H.
  { by injection H as <- <-. }
  destruct (exec a s) as [[evs1 s1]|] eqn:Ex; [|done].
  destruct (run acts s1) as [[evs2 s2]|] eqn:Er; [|done]. injection H as <- <-.
  destruct (exec_refused _ _ _ _ Ex Hc Hn) as [Hn1 Hf1].
  pose proof (reach_step _ _ _ _ _ _ Hr Ex) as Hr1.
  destruct (IH _ _ _ Hr1 (proj1 (proj2 (exec_flags _ _ _ _ Ex)) Hc) Hn1 Er) as [Hf2 Hs2].
  split; [by apply Forall_app|]. rewrite sent_data_app, Hs2, app_nil_r.
  pose proof (reachable_tx _ _ _ Hr) as Htx.
  destruct (exec_tx evs a s evs1 s1 (reachable_ctl _ _ _ Hr) Htx Ex).
  rewrite (refused_accepted evs1 Hf1) in *. simpl in *.
  assert (Hz : forall w, no_writer w = true -> owner_ok w -> writing w = []).
  { intros [[? ? ? []| |]|]; try done. intros _ (_ & _ & _ & Hz). by rewrite Hz. }
  rewrite Hz in txs_sent; [|done|apply Htx]. rewrite Hz in txs_sent; done.
Qed.

(** Once the stream is closed by this side no more application data reaches the
    channel, whatever still runs: every later [Write], empty ones included, returns an
    error and has written nothing. (A [Write] already past its check may finish.) *)
Theorem closed_refuses_writes cfg evs s acts evs' s' :
  reachable cfg evs s -> closed s = true -> no_writer (wsem s) = true ->
  run acts s = Some (evs', s') -> Forall refused evs' /\ sent_data evs' = [].
Proof. apply closed_run. Qed.

Definition closed_acts : list action := write_acts ++ [AWriteChunk (CWrote 9); AWriteChunk (CWrote 0); ACloseLocal].

Example closed_refuses_writes_witness :
  Forall refused [EvWrite (to_bytes "no") 0 (Some (ESent ErrClosed)); EvWrite [] 0 (Some (ESent ErrClosed))].
Proof.
  apply (closed_refuses_writes demo_cfg _ _
    [AWrite (to_bytes "no") AcqSem; AWriteCheck; AWrite [] AcqClosed] _
    (snd (run_or_new demo_cfg closed_acts)) (run_or_new_reachable demo_cfg closed_acts));
    vm_compute; reflexivity.
Defined.

(** Close frames handed to the channel. *)
Definition is_close_frame (e : event) : bool :=
  match e with EvSent None _ | EvFailed None _ => true | _ => false end.
Definition close_frames (evs : list event) : nat := length (List.filter is_close_frame evs).

Lemma close_frames_app a b : close_frames (a ++ b) = (close_frames a + close_frames b)%nat.
Proof. unfold close_frames. by rewrite List.filter_app, length_app. Qed.

Lemma close_frames_none evs :
  Forall (fun e => is_close_frame e = false) evs -> close_frames evs = 0%nat.
Proof.
  induction 1 as [|e evs He _ IH]; [done|]. unfold close_frames in *. simpl. by rewrite He.
Qed.

(** Whether the close frame is still to be sent. *)
Definition close_pending (o : once_pc) : nat :=
  match o with TNone | TSend _ _ _ _ => 1 | _ => 0 end.

Definition once_action (a : action) : bool :=
  match a with ATermEnter _ _ _ _ | ATermSend _ | ATermFinish => true | _ => false end.

Lemma writeMessage_close w msg dl cw s err evs s' :
  writeMessage w msg dl cw s = (err, evs, s') ->
  close_frames evs = (if w is None then close_frames evs else 0)%nat /\
  (close_frames evs <= 1)%nat /\ termOnce s' = termOnce s.
Proof.
  intros H. apply writeMessage_tx in H as [(d & [-> | ->]) [[_ ->]|[_ [-> | ->]]]];
    destruct w; done || (split_and!; try done; unfold close_frames; simpl; lia).
Qed.

Ltac once_tac := split; [done|by repeat constructor].

Lemma control_write_once w t p cw s err evs s' :
  control_write w t p cw s = (err, evs, s') -> close_frames evs = 0%nat /\ termOnce s' = termOnce s.
Proof.
  unfold control_write. intros H. destruct (Encode _ _ _) as [[? msg]|];
    [|injection H as <- <- <-; by split].
  destruct (writeMessage _ _ _ _ _) as [[? ?] ?] eqn:Hw. injection H as <- <- <-.
  by apply writeMessage_close in Hw as (? & _ & ?).
Qed.

Lemma exec_once a s evs s' :
  once_action a = false -> exec a s = Some (evs, s') ->
  termOnce s' = termOnce s /\ close_frames evs = 0%nat.
Proof.
  intros Ha H. destruct a; try discriminate; simpl in H; clear Ha.
  - unfold loop_read, loop_frame, deliverPong, fill in H.
    destruct (loop s); try discriminate.
    destruct r; [|injection H as <- <-; unfold loop_fail, setReadErr; case_match; once_tac].
    destruct (_ <? _)%nat; [discriminate|]. cbv zeta in H.
    destruct (Parse _ _) as [[hdr p]|]; injection H as <- <-; unfold loop_fail, setReadErr;
      repeat case_match; once_tac.
  - unfold loop_push, getBuf in H. repeat case_match; simplify_eq; once_tac.
  - unfold loop_push_term, loop_fail, setReadErr in H. repeat case_match; simplify_eq; once_tac.
  - unfold pong_select, loop_fail, setReadErr in H. repeat case_match; simplify_eq; once_tac.
  - unfold pong_write in H. destruct (loop s) as [| |p [|]| |]; try discriminate.
    destruct (control_write _ _ _ _ _) as [[err ev1] s1] eqn:Hw.
    apply control_write_once in Hw as [He Hw].
    repeat case_match; injection H as <- <-; unfold loop_fail, setReadErr; repeat case_match;
      simpl; by rewrite Hw.
  - unfold loop_close_data in H. repeat case_match; simplify_eq; once_tac.
  - unfold loop_close_done in H. repeat case_match; simplify_eq; once_tac.
  - unfold read_acquire in H. repeat case_match; simplify_eq; once_tac.
  - pose proof (ctl_read_step _ _ _ _ H) as Hw. apply (f_equal c_once) in Hw. simpl in Hw.
    rewrite Hw. split; [done|]. clear Hw.
    unfold read_step, read_return, read_deliver, recv_data in H.
    repeat case_match; simplify_eq; by repeat constructor.
  - unfold write_acquire in H. repeat case_match; simplify_eq; once_tac.
  - unfold write_check in H. repeat case_match; simplify_eq; once_tac.
  - unfold write_chunk in H. destruct (wsem s) as [[arg p n []| |]|] eqn:Ew; try discriminate.
    destruct (_ =? _); [injection H as <- <-; once_tac|].
    destruct (Encode _ _ _) as [[? msg]|]; [|injection H as <- <-; once_tac].
    destruct (writeMessage _ _ _ _ _) as [[err ev1] s1] eqn:Hw.
    apply writeMessage_close in Hw as (He & _ & Ho). simpl in He. rewrite Ew in He.
    destruct err; injection H as <- <-; (split; [exact Ho|]); [|done].
    rewrite close_frames_app. by rewrite He.
  - unfold SetReadDeadline in H. repeat case_match; simplify_eq; once_tac.
  - unfold SetWriteDeadline in H. repeat case_match; simplify_eq; once_tac.
  - unfold ping_begin in H. repeat case_match; simplify_eq; once_tac.
  - unfold ping_select, ping_return, ping_cleanup in H. repeat case_match; simplify_eq; once_tac.
  - destruct (_ =? _); [|discriminate]. unfold ping_write in H.
    destruct (wsem s) as [[]|]; try discriminate.
    destruct (control_write _ _ _ _ _) as [[err ev1] s1] eqn:Hw.
    apply control_write_once in Hw as [He Hw].
    unfold ping_cleanup in H. repeat case_match; injection H as <- <-; simpl; rewrite Hw;
      split; rewrite ?close_frames_app, ?He; done.
  - unfold ping_wait, ping_return, ping_cleanup in H. repeat case_match; simplify_eq; once_tac.
  - simplify_eq. unfold close_local, setReadErr. repeat case_match; once_tac.
  - simplify_eq. once_tac.
  - unfold release_start, getBuf in H. repeat case_match; simplify_eq; once_tac.
  - unfold release_poll, putBuf, fill in H. repeat case_match; simplify_eq; once_tac.
  - unfold release_close in H. repeat case_match; simplify_eq; once_tac.
  - case_match; simplify_eq; once_tac.
Qed.

Lemma exec_close_pending a s evs s' :
  exec a s = Some (evs, s') ->
  (close_frames evs + close_pending (termOnce s') <= close_pending (termOnce s))%nat.
Proof.
  intros H. destruct (once_action a) eqn:Ea.
  2: { destruct (exec_once _ _ _ _ Ea H) as [-> ->]. lia. }
  destruct a; try discriminate; simpl in H.
  - unfold term_enter in H. destruct ((negb local || closed s) && (negb drain || local)); [|done].
    injection H as <- <-. destruct (termOnce s) eqn:E;
      unfold close_frames; simpl; rewrite ?E; simpl; lia.
  - unfold term_send in H. destruct (termOnce s) eqn:Et; try discriminate. cbv zeta in H.
    change (wsem (s <| termOnce := TSent local drain |>)) with (wsem s) in H.
    destruct (wsem s); [injection H as <- <-; simpl; lia|].
    destruct (Encode _ _ _) as [[? msg]|]; [|injection H as <- <-; simpl; lia].
    destruct (writeMessage _ _ _ _ _) as [[err ev1] s1] eqn:Hw. injection H as <- <-.
    apply writeMessage_close in Hw as (_ & Hle & ->). simpl. lia.
  - unfold term_finish in H. destruct (termOnce s) eqn:Et; try discriminate.
    injection H as <- <-. simpl. lia.
Qed.

Lemma reachable_close_frames cfg evs s :
  reachable cfg evs s -> (close_frames evs + close_pending (termOnce s) <= 1)%nat.
Proof.
  induction 1 as [|evs s a evs' s' Hr IH Hx]; [done|].
  apply exec_close_pending in Hx. rewrite close_frames_app. lia.
Qed.

(** [CloseWith] on a stream that was closed and terminated. *)
Lemma CloseWith_again code reason cw s :
  closed s = true -> termOnce s = TDone -> CloseWith code reason cw s = ([], s).
Proof.
  intros Hc Ht. unfold CloseWith, terminate, close_local, term_enter, term_send.
  cbv zeta. rewrite Hc, Ht. cbn. by rewrite Ht.
Qed.

Lemma terminate_done code reason local cw s :
  ctl_ok s -> termOnce s = TNone ->
  let s1 := snd (terminate code reason local cw s) in
  termOnce s1 = TDone /\ term s1 = true /\ closed s1 = (closed s || local) /\
  view s1 = view s <| v_drain := None |> /\
  readErr s1 = match readErr s with
               | Some e => Some e
               | None => Some (if local && negb (closed s) then ESent ErrClosed else ESent io_EOF)
               end.
Proof.
  intros Hok Ht s1.
  set (s0 := term_enter code reason local (close_drain local s)
               (if local then close_local s else s)).
  assert (H0 : termOnce s0 = TSend code reason local (close_drain local s) /\
    closed s0 = (closed s || local) /\ view s0 = view s /\
    readErr s0 = if local && negb (closed s) then readErr (setReadErr (ESent ErrClosed) s)
                 else readErr s).
  { unfold s0, term_enter, close_local, setReadErr. destruct local, (closed s) eqn:Ec, (readErr s) eqn:Er;
      simpl; rewrite ?Ht; simpl; rewrite ?Ec, ?Er; done. }
  destruct H0 as (Ho & Hc & Hv & He).
  destruct (term_send cw s0) as [[evs s2]|] eqn:Es.
  2: { unfold term_send in Es. rewrite Ho in Es. cbv zeta in Es. repeat case_match; done. }
  assert (H2 : termOnce s2 = TSent local (close_drain local s) /\ closed s2 = closed s0 /\
    view s2 = view s0 /\ readErr s2 = readErr s0).
  { unfold term_send in Es. rewrite Ho in Es. cbv zeta in Es.
    destruct (wsem _); [by injection Es as <- <-|].
    destruct (Encode _ _ _) as [[? msg]|]; [|by injection Es as <- <-].
    destruct (writeMessage _ _ _ _ _) as [[err ev1] s3] eqn:Hw. injection Es as <- <-.
    by apply writeMessage_tx in Hw as [(d & [-> | ->]) _]. }
  destruct H2 as (Ho2 & Hc2 & Hv2 & He2).
  assert (Hs1 : s1 = (if local then s2 else setReadErr (ESent io_EOF) s2) <| term := true |>
    <| ch_readDeadline := Some (now (if local then s2 else setReadErr (ESent io_EOF) s2) - second) |>
    <| release := RelStart (close_drain local s) |> <| termOnce := TDone |>).
  { unfold s1, terminate. cbv zeta. fold s0. rewrite Es. unfold term_finish. by rewrite Ho2. }
  assert (Hcl : closed s = true -> is_Some (readErr s)).
  { intros Hcs. apply (cv_err _ Hok). simpl. rewrite Hcs. by rewrite orb_true_r. }
  rewrite Hs1. simpl. split; [done|]. split; [done|]. split.
  { rewrite <- Hc, <- Hc2. destruct local; [done|]. unfold setReadErr. by destruct (readErr s2). }
  split.
  - transitivity (view (if local then s2 else setReadErr (ESent io_EOF) s2) <| v_drain := None |>);
      [done|]. destruct local; rewrite ?view_setReadErr; by rewrite Hv2, Hv.
  - rewrite <- He2 in He. unfold setReadErr in *.
    destruct local, (closed s), (readErr s) as [e|] eqn:Er;
      simpl in *; rewrite ?Er in He; rewrite ?He; simpl; rewrite ?He; try done.
    by destruct (Hcl eq_refl).
Qed.

(** C29. However many closers race, a stream sends at most one close frame; once a close
    has run, closing again emits nothing and changes nothing. *)
Theorem close_once cfg evs s code reason cw :
  reachable cfg evs s ->
  (close_frames evs <= 1)%nat /\
  (termOnce s = TNone ->
   let s1 := snd (CloseWith code reason cw s) in
   forall code' reason' cw', CloseWith code' reason' cw' s1 = ([], s1)).
Proof.
  intros Hr. split; [pose proof (reachable_close_frames _ _ _ Hr); lia|].
  intros Ht s1 code' reason' cw'.
  destruct (terminate_done code reason true cw s (reachable_ctl _ _ _ Hr) Ht) as (Ho & _ & Hc & _).
  apply CloseWith_again; [|done]. fold s1 in Hc. unfold s1, CloseWith in *.
  by rewrite Hc, orb_true_r.
Qed.

Example close_once_witness :
  let s := snd (run_or_new demo_cfg demo_acts) in
  let s1 := snd (CloseWith CloseNormal [] (CWrote 10) s) in
  CloseWith CloseGoingAway (to_bytes "again") (CWrote 15) s1 = ([], s1).
Proof.
  destruct (close_once demo_cfg _ _ CloseNormal [] (CWrote 10)
    (run_or_new_reachable demo_cfg demo_acts)) as [_ H].
  apply H. vm_compute. reflexivity.
Defined.



(** ** Termination of [Write] *)

(** One chunk the channel accepts whole. *)
Lemma chunk_accepted evs0 s arg p n :
  tx_inv evs0 s -> wsem s = Some (WApp arg p n true) -> 0 < zlen p ->
  let chunk := if maxPayload s <? zlen p then take (Z.to_nat (maxPayload s)) p else p in
  exists evs s', exec (AWriteChunk (CWrote (HeaderSize + zlen chunk))) s = Some (evs, s') /\
    maxPayload s' = maxPayload s /\
    wsem s' = Some (WApp arg (drop (length chunk) p) (n + zlen chunk) true).
Proof.
  intros Hinv Hw Hp chunk. pose proof Hinv as [Hm Hb _ _ _ _]. simpl. unfold write_chunk.
  rewrite Hw. rewrite (proj2 (Z.eqb_neq _ _)) by lia. fold chunk.
  destruct (chunk_facts (maxPayload s) p) as (Hc & _); [lia..|]. fold chunk in Hc.
  rewrite Encode_ok by lia. unfold writeMessage. rewrite length_wire, Z.eqb_refl. simpl.
  by eexists _, _.
Qed.

Lemma write_loop_ends n evs0 s arg p w :
  ctl_ok s -> tx_inv evs0 s -> wsem s = Some (WApp arg p w true) ->
  zlen p <= Z.of_nat n * maxPayload s ->
  exists cws evs s', (length cws <= S n)%nat /\
    run (AWriteChunk <$> cws) s = Some (evs ++ [EvWrite arg (zlen arg) None], s') /\
    wsem s' = None.
Proof.
  revert evs0 s p w. induction n as [|n IH]; intros evs0 s p w Hctl Hinv Hw Hn;
    pose proof (zlen_nonneg p) as Hp0;
    (destruct (Z.eqb_spec (zlen p) 0) as [Hz|Hz]; [|try lia]).
  1,2: exists [CWrote 0], [], (s <| wsem := None |>); split; [simpl; lia|];
    split; [|done]; simpl; unfold write_chunk; rewrite Hw, (proj2 (Z.eqb_eq _ _) Hz);
    pose proof (tx_owner _ _ Hinv) as Ho; rewrite Hw in Ho;
    destruct Ho as (_ & _ & Ho & _); simpl; repeat f_equal; lia.
  destruct (chunk_accepted evs0 s arg p w Hinv Hw) as (evs1 & s1 & Hx & Hm & Hw1); [lia|].
  set (chunk := if _ <? _ then _ else _) in *.
  pose proof (exec_tx _ _ _ _ _ Hctl Hinv Hx) as Ht.
  destruct (IH (evs0 ++ evs1) s1 (drop (length chunk) p) (w + zlen chunk))
    as (cws & evs & s' & Hl & Hr & Hs).
  - by eapply exec_ctl.
  - by eapply tx_inv_step.
  - done.
  - rewrite Hm. destruct Hinv as [[Hm0 _] _ _ _ _ _]. unfold chunk, zlen in *. rewrite length_drop.
    destruct (Z.ltb_spec (maxPayload s) (Z.of_nat (length p))); [rewrite length_take|]; nia.
  - exists (CWrote (HeaderSize + zlen chunk) :: cws), (evs1 ++ evs), s'.
    split; [simpl; lia|]. split; [|done]. rewrite fmap_cons. cbn [run]. rewrite Hx, Hr.
    by rewrite app_assoc.
Qed.

(** C30. The loop of [Write] ends: when the channel accepts each frame whole, a call of
    [n] bytes that passed its check returns [n] without error, releasing the write side,
    after one frame per [MaxPayload] bytes (rounded up) and its final test. *)
Theorem write_terminates cfg evs s p :
  reachable cfg evs s -> wsem s = Some (WApp p p 0 true) ->
  exists cws evs' s',
    Z.of_nat (length cws) <= (zlen p + cfg_maxPayload cfg - 1) / cfg_maxPayload cfg + 1 /\
    run (AWriteChunk <$> cws) s = Some (evs' ++ [EvWrite p (zlen p) None], s') /\
    wsem s' = None.
Proof.
  intros Hr Hw. pose proof (cfg_maxPayload_bound cfg) as Hb. pose proof (zlen_nonneg p).
  set (n := (zlen p + cfg_maxPayload cfg - 1) / cfg_maxPayload cfg).
  assert (Hn : 0 <= n /\ zlen p <= n * cfg_maxPayload cfg)
    by (unfold n; Z.div_mod_to_equations; nia).
  destruct (write_loop_ends (Z.to_nat n) evs s p p 0) as (cws & evs' & s' & Hl & Hrun & Hs).
  - by eapply reachable_ctl.
  - by eapply reachable_tx.
  - done.
  - rewrite (rx_max _ _ _ (reachable_rx _ _ _ Hr)). lia.
  - exists cws, evs', s'. split; [lia|]. done.
Qed.

Definition begun_acts : list action := [AWrite (to_bytes "hello") AcqSem; AWriteCheck].

Example write_terminates_witness :
  exists cws evs' s', Z.of_nat (length cws) <= 3 /\
    run (AWriteChunk <$> cws) (snd (run_or_new demo_cfg begun_acts)) =
      Some (evs' ++ [EvWrite (to_bytes "hello") 5 None], s') /\ wsem s' = None.
Proof.
  apply (write_terminates demo_cfg (fst (run_or_new demo_cfg begun_acts))
    (snd (run_or_new demo_cfg begun_acts)) (to_bytes "hello")).
  - apply run_or_new_reachable.
  - vm_compute. reflexivity.
Defined.
