(* ===== verification/Clock.v ===== *)
(** * The fake clock (internal/clock/clock.go)

    [Fake] with its timers on a heap; an instant is in nanoseconds since the Unix epoch.
    A timer's channel holds at most one firing time. The invariant ties a timer's [active]
    flag to the list of pending timers and their deadlines to the present, and [advance_split]
    shows that time may pass in any number of steps. *)

From S2P Require Import Prelude.
From S2P Require Import Stream.

Record fakeTimer := { deadline : Z; ch : option Z; active : bool }.

#[export] Instance fakeTimer_eta : Eta fakeTimer := fun t => {| deadline := deadline t; ch := ch t; active := active t |}.

Record Fake := { now : Z; timers : list nat; theap : gmap nat fakeTimer; next : nat }.

#[export] Instance Fake_eta : Eta Fake := fun f => {| now := now f; timers := timers f; theap := theap f; next := next f |}.

(** [NewFake]; [None] is the zero time, replaced by the first instant of 2020. *)
Definition NewFake (start : option Z) : Fake :=
  {| now := default (1577836800 * second) start; timers := []; theap := ∅; next := 0 |}.

Definition Since (t : Z) (f : Fake) : Z := now f - t.

(** [fireLocked] at an instant: the send is dropped when the channel is full. *)
Definition fireLocked (at_ : Z) (t : fakeTimer) : fakeTimer :=
  if active t then t <| active := false |> <| ch := match ch t with None => Some at_ | c => c end |> else t.

Definition on_timer (t : nat) (g : fakeTimer -> fakeTimer) (f : Fake) : Fake := f <| theap := alter g t (theap f) |>.

Definition NewTimer (d : Z) (f : Fake) : nat * Fake :=
  let t := next f in
  let f := f <| next := S t |>
             <| theap := <[t := {| deadline := now f + d; ch := None; active := true |}]> (theap f) |> in
  (t, if d <=? 0 then on_timer t (fireLocked (now f)) f else f <| timers := timers f ++ [t] |>).

(** The loop of [Advance] over the pending timers; the result is what remains. *)
Fixpoint fire_due (at_ : Z) (ts : list nat) (f : Fake) : list nat * Fake :=
  match ts with
  | [] => ([], f)
  | t :: ts =>
    let due := match theap f !! t with Some x => deadline x <=? at_ | None => false end in
    let '(rest, f) := fire_due at_ ts (if due then on_timer t (fireLocked at_) f else f) in
    (if due then rest else t :: rest, f)
  end.

Definition Advance (d : Z) (f : Fake) : Fake :=
  let f := f <| now := now f + d |> in
  let '(remaining, f) := fire_due (now f) (timers f) f in
  f <| timers := remaining |>.

Definition Pending (f : Fake) : Z := zlen (timers f).

(** [removeLocked] removes the first occurrence. *)
Fixpoint remove_first (t : nat) (l : list nat) : list nat :=
  match l with [] => [] | x :: l => if (x =? t)%nat then l else x :: remove_first t l end.

Definition removeLocked (t : nat) (f : Fake) : Fake := f <| timers := remove_first t (timers f) |>.

Definition is_active (t : nat) (f : Fake) : bool := match theap f !! t with Some x => active x | None => false end.

Definition Stop (t : nat) (f : Fake) : bool * Fake :=
  (is_active t f, removeLocked t (on_timer t (fun x => x <| active := false |>) f)).

Definition Reset (t : nat) (d : Z) (f : Fake) : bool * Fake :=
  let was := is_active t f in
  let f := removeLocked t f in
  let f := on_timer t (fun x => x <| active := true |> <| deadline := now f + d |>) f in
  (was, if d <=? 0 then on_timer t (fireLocked (now f)) f else f <| timers := timers f ++ [t] |>).

(** A receive from the timer's channel. *)
Definition drain (t : nat) (f : Fake) : option Z * Fake :=
  (theap f !! t ≫= ch, on_timer t (fun x => x <| ch := None |>) f).

(** ** The invariant *)

(** Pending timers are the active ones, once each, and their time is still to come. *)
Record finv (f : Fake) : Prop := {
  fi_once : NoDup (timers f);
  fi_active : forall t x, theap f !! t = Some x -> active x = true <-> t ∈ timers f;
  fi_due : forall t x, theap f !! t = Some x -> active x = true -> now f < deadline x;
  fi_known : forall t, t ∈ timers f -> is_Some (theap f !! t);
  fi_next : forall t, is_Some (theap f !! t) -> (t < next f)%nat
}.

Lemma finv_new start : finv (NewFake start).
Proof.
  split; simpl; [constructor|by intros..|by intros t Ht%not_elem_of_nil|].
  intros t [x Hx]. by apply lookup_empty_Some in Hx.
Qed.

Definition due (at_ : Z) (f : Fake) (t : nat) : bool :=
  match theap f !! t with Some x => deadline x <=? at_ | None => false end.

Lemma fire_deadline at_ x : deadline (fireLocked at_ x) = deadline x.
Proof. unfold fireLocked. by destruct (active x). Qed.

Lemma fire_inactive at_ x : active (fireLocked at_ x) = false.
Proof. unfold fireLocked. by destruct (active x) eqn:E. Qed.

Lemma fire_again at_ x : fireLocked at_ (fireLocked at_ x) = fireLocked at_ x.
Proof. unfold fireLocked at 1. by rewrite fire_inactive. Qed.

Lemma due_fire at_ b t u f : due b (on_timer t (fireLocked at_) f) u = due b f u.
Proof.
  unfold due, on_timer. simpl. destruct (decide (t = u)) as [->|N]; [|by rewrite lookup_alter_ne].
  rewrite lookup_alter_eq. destruct (theap f !! u); simpl; [by rewrite fire_deadline|done].
Qed.

(** What the loop of [Advance] does: it keeps the timers that are not due, and fires the others. *)
Lemma fire_due_spec at_ ts : forall f,
  let '(rest, f') := fire_due at_ ts f in
  rest = filter (fun t => due at_ f t = false) ts /\ now f' = now f /\ timers f' = timers f /\ next f' = next f /\
  forall t, theap f' !! t = (if bool_decide (t ∈ ts) && due at_ f t then fireLocked at_ else id) <$> theap f !! t.
Proof.
  induction ts as [|u ts IH]; intros f; cbn [fire_due].
  { split_and!; try done. intros t. rewrite bool_decide_eq_false_2 by apply not_elem_of_nil. simpl.
    by destruct (theap f !! t). }
  change (match theap f !! u with Some x => deadline x <=? at_ | None => false end) with (due at_ f u).
  set (f1 := if due at_ f u then on_timer u (fireLocked at_) f else f).
  assert (D : forall t, due at_ f1 t = due at_ f t) by (intros t; unfold f1; destruct (due at_ f u); [apply due_fire|done]).
  specialize (IH f1). destruct (fire_due at_ ts f1) as [rest f']. destruct IH as (-> & N & T & X & H).
  rewrite filter_cons. split_and!.
  - replace (filter (fun t => due at_ f1 t = false) ts) with (filter (fun t => due at_ f t = false) ts)
      by (apply list_filter_iff; intros t; by rewrite D).
    destruct (due at_ f u); case_decide; done.
  - rewrite N. unfold f1. by destruct (due at_ f u).
  - rewrite T. unfold f1. by destruct (due at_ f u).
  - rewrite X. unfold f1. by destruct (due at_ f u).
  - intros t. rewrite H, D. unfold f1. destruct (decide (t = u)) as [->|Nt].
    + rewrite (bool_decide_eq_true_2 (u ∈ u :: ts)) by (by left). simpl. destruct (due at_ f u); simpl.
      * rewrite lookup_alter_eq. rewrite andb_true_r. destruct (theap f !! u); simpl; [|done].
        f_equal. case_bool_decide; [apply fire_again|done].
      * by rewrite andb_false_r.
    + replace (bool_decide (t ∈ u :: ts)) with (bool_decide (t ∈ ts))
        by (apply bool_decide_ext; rewrite elem_of_cons; naive_solver).
      destruct (due at_ f u); simpl; [by rewrite lookup_alter_ne|done].
Qed.

Lemma Advance_spec d f :
  timers (Advance d f) = filter (fun t => due (now f + d) f t = false) (timers f) /\
  now (Advance d f) = now f + d /\ next (Advance d f) = next f /\
  forall t, theap (Advance d f) !! t =
    (if bool_decide (t ∈ timers f) && due (now f + d) f t then fireLocked (now f + d) else id) <$> theap f !! t.
Proof.
  unfold Advance. simpl. pose proof (fire_due_spec (now f + d) (timers f) (f <| now := now f + d |>)) as H.
  destruct (fire_due _ _ _) as [rest f']. destruct H as (-> & N & T & X & H). simpl. done.
Qed.

Lemma remove_first_spec t l : NoDup l ->
  NoDup (remove_first t l) /\ forall u, u ∈ remove_first t l <-> u ∈ l /\ u <> t.
Proof.
  induction l as [|x l IH]; simpl; intros Hn.
  { split; [done|]. intros u. split; [by intros ?%not_elem_of_nil|by intros [?%not_elem_of_nil _]]. }
  apply NoDup_cons in Hn as [Hx Hn]. destruct (IH Hn) as [N I]. destruct (Nat.eqb_spec x t) as [->|D].
  - split; [done|]. intros u. rewrite elem_of_cons. split; [intros Hu; split; [by right|]; by intros ->|naive_solver].
  - split.
    + apply NoDup_cons. split; [|done]. rewrite I. naive_solver.
    + intros u. rewrite !elem_of_cons, I. naive_solver.
Qed.

(** ** The operations keep the invariant *)

Lemma finv_Advance d f : 0 <= d -> finv f -> finv (Advance d f).
Proof.
  intros Hd [O A D K X]. destruct (Advance_spec d f) as (T & N & Nx & H).
  assert (Old : forall t x, theap (Advance d f) !! t = Some x -> exists y, theap f !! t = Some y /\
    x = (if bool_decide (t ∈ timers f) && due (now f + d) f t then fireLocked (now f + d) else id) y).
  { intros t x. rewrite H, fmap_Some. intros (y & Hy & ->). by exists y. }
  split; rewrite ?T, ?N, ?Nx.
  - by apply NoDup_filter.
  - intros t x Hx. destruct (Old t x Hx) as (y & Hy & ->). rewrite list_elem_of_filter.
    destruct (due (now f + d) f t); rewrite ?andb_true_r, ?andb_false_r; simpl.
    + split; [|by intros [? _]]. case_bool_decide as E; simpl; [by rewrite fire_inactive|].
      intros Ha. destruct E. by apply (A t y).
    + rewrite (A t y Hy). naive_solver.
  - intros t x Hx Ha. destruct (Old t x Hx) as (y & Hy & ->).
    unfold due in *. rewrite Hy in *. destruct (Z.leb_spec (deadline y) (now f + d)); rewrite ?andb_true_r, ?andb_false_r in *; simpl in *.
    + case_bool_decide as E; simpl in *; [by rewrite fire_inactive in Ha|]. destruct E. by apply (A t y).
    + done.
  - intros t Ht. apply list_elem_of_filter in Ht as [_ Ht]. rewrite H, fmap_is_Some. by apply K.
  - intros t. rewrite H, fmap_is_Some. apply X.
Qed.

Lemma finv_Stop t f : finv f -> finv (snd (Stop t f)).
Proof.
  intros [O A D K X]. destruct (remove_first_spec t (timers f) O) as [N I]. split; simpl; [done| | | |].
  - intros u x. rewrite lookup_alter_Some, I. intros [(<- & y & _ & ->)|(Nu & Hx)]; simpl; [naive_solver|].
    rewrite (A u x Hx). naive_solver.
  - intros u x. rewrite lookup_alter_Some. intros [(<- & y & _ & ->)|(Nu & Hx)]; simpl; [done|by apply (D u)].
  - intros u Hu. rewrite lookup_alter_is_Some. apply K. by apply I in Hu as [Hu _].
  - intros u Hu. apply X. by rewrite lookup_alter_is_Some in Hu.
Qed.

(** A timer that is not pending is armed: it fires at once, or waits for its time. *)
Lemma finv_arm t d x f :
  NoDup (timers f) -> t ∉ timers f -> theap f !! t = Some x -> active x = true -> deadline x = now f + d ->
  (forall u y, u <> t -> theap f !! u = Some y -> active y = true <-> u ∈ timers f) ->
  (forall u y, u <> t -> theap f !! u = Some y -> active y = true -> now f < deadline y) ->
  (forall u, u ∈ timers f -> is_Some (theap f !! u)) -> (forall u, is_Some (theap f !! u) -> (u < next f)%nat) ->
  finv (if d <=? 0 then on_timer t (fireLocked (now f)) f else f <| timers := timers f ++ [t] |>).
Proof.
  intros O Nt Hx Ha Hd A D K X. destruct (Z.leb_spec d 0); split; simpl; try done.
  - intros u y. rewrite lookup_alter_Some. intros [(<- & z & _ & ->)|(Nu & Hy)]; [by rewrite fire_inactive|by apply A].
  - intros u y. rewrite lookup_alter_Some. intros [(<- & z & _ & ->)|(Nu & Hy)]; [by rewrite fire_inactive|by apply (D u)].
  - intros u Hu. rewrite lookup_alter_is_Some. by apply K.
  - intros u Hu. apply X. by rewrite lookup_alter_is_Some in Hu.
  - apply NoDup_app. split; [done|]. split; [|apply NoDup_singleton]. intros u Hu E%list_elem_of_singleton. by subst u.
  - intros u y Hy. rewrite elem_of_app, list_elem_of_singleton. destruct (decide (u = t)) as [->|Nu].
    + rewrite Hx in Hy. injection Hy as <-. naive_solver.
    + rewrite (A u y) by done. naive_solver.
  - intros u y Hy Hay. destruct (decide (u = t)) as [->|Nu]; [rewrite Hx in Hy; injection Hy as <-; lia|by apply (D u)].
  - intros u [Hu|Hu%list_elem_of_singleton]%elem_of_app; [by apply K|subst u; by rewrite Hx].
Qed.

Lemma finv_NewTimer d f : finv f -> finv (snd (NewTimer d f)).
Proof.
  intros [O A D K X]. unfold NewTimer. cbn [snd].
  set (g := f <| next := S (next f) |> <| theap := _ |>).
  assert (Nn : next f ∉ timers f) by (intros Hn%K; specialize (X _ Hn); lia).
  apply (finv_arm _ d {| deadline := now f + d; ch := None; active := true |} g); simpl; try done.
  - by rewrite lookup_insert_eq.
  - intros u y Nu. rewrite lookup_insert_ne by congruence. apply A.
  - intros u y Nu. rewrite lookup_insert_ne by congruence. apply D.
  - intros u Hu. rewrite lookup_insert_is_Some. right. split; [by intros <-|by apply K].
  - intros u. rewrite lookup_insert_is_Some. intros [<-|[_ Hu]]; [lia|]. specialize (X _ Hu). lia.
Qed.

Lemma finv_Reset t d f : is_Some (theap f !! t) -> finv f -> finv (snd (Reset t d f)).
Proof.
  intros [x Hx] [O A D K X]. destruct (remove_first_spec t (timers f) O) as [N I]. unfold Reset. cbn [snd].
  set (g := on_timer t _ (removeLocked t f)).
  apply (finv_arm t d (x <| active := true |> <| deadline := now f + d |>) g); simpl; try done.
  - rewrite I. naive_solver.
  - by rewrite lookup_alter_eq, Hx.
  - intros u y Nu. rewrite lookup_alter_ne, I by congruence. intros Hy. rewrite (A u y Hy). naive_solver.
  - intros u y Nu. rewrite lookup_alter_ne by congruence. apply D.
  - intros u Hu. rewrite lookup_alter_is_Some. apply K. by apply I in Hu as [Hu _].
  - intros u Hu. apply X. by rewrite lookup_alter_is_Some in Hu.
Qed.

(** ** Time passes in any number of steps *)

Lemma due_Advance d b f t : due b (Advance d f) t = due b f t.
Proof.
  unfold due. destruct (Advance_spec d f) as (_ & _ & _ & ->). destruct (theap f !! t) as [x|]; simpl; [|done].
  destruct (_ && _); simpl; [by rewrite fire_deadline|done].
Qed.

(** What a timer shows: whether it waits, until when, and whether a firing time is there. *)
Definition shows (x : fakeTimer) : bool * Z * bool := (active x, deadline x, bool_decide (is_Some (ch x))).

Lemma shows_fire at_ x : shows (fireLocked at_ x) =
  (false, deadline x, if active x then true else bool_decide (is_Some (ch x))).
Proof. unfold shows, fireLocked. destruct (active x) eqn:E; simpl; [|by rewrite E]. by destruct (ch x). Qed.

Lemma advance_split d1 d2 f : 0 <= d1 -> 0 <= d2 ->
  let g := Advance d2 (Advance d1 f) in
  let h := Advance (d1 + d2) f in
  now g = now h /\ timers g = timers h /\ forall t, shows <$> theap g !! t = shows <$> theap h !! t.
Proof.
  intros H1 H2. simpl. destruct (Advance_spec d1 f) as (T1 & N1 & _ & S1).
  destruct (Advance_spec d2 (Advance d1 f)) as (T2 & N2 & _ & S2). destruct (Advance_spec (d1 + d2) f) as (T & N & _ & S).
  assert (L : forall t, due (now f + d1) f t = true -> due (now f + (d1 + d2)) f t = true)
    by (intros t; unfold due; destruct (theap f !! t); [lia|done]).
  assert (E : now f + d1 + d2 = now f + (d1 + d2)) by lia.
  split; [rewrite N2, N1, N; lia|]. split.
  - rewrite T2, T1, T, N1, E, list_filter_filter. apply list_filter_iff. intros t. rewrite due_Advance.
    specialize (L t). destruct (due (now f + d1) f t); destruct (due (now f + (d1 + d2)) f t); naive_solver.
  - intros t. rewrite S2, S1, S, T1, N1, due_Advance, E. destruct (theap f !! t) as [x|] eqn:Ex; simpl; [|done].
    f_equal. specialize (L t).
    assert (F : bool_decide (t ∈ filter (fun t => due (now f + d1) f t = false) (timers f)) =
                bool_decide (t ∈ timers f) && negb (due (now f + d1) f t)).
    { case_bool_decide as X1; case_bool_decide as X2; rewrite list_elem_of_filter in X1;
        destruct (due (now f + d1) f t); naive_solver. }
    rewrite F. destruct (bool_decide (t ∈ timers f)); simpl; [|done].
    destruct (due (now f + d1) f t) eqn:D1; simpl.
    + rewrite L by done. simpl. by rewrite !shows_fire.
    + destruct (due (now f + (d1 + d2)) f t); simpl; [by rewrite !shows_fire|done].
Qed.
