(* ===== verification/Dedupe.v ===== *)
(** * The duplicate filter (dedupe.go)

    [dedupeCache] remembers recently seen signal IDs with the number of the insertion
    that recorded them; when it is full the older half is forgotten. *)

From stdpp Require Import pretty.
From S2P Require Import Prelude.

(** ** The interface the endpoint relies on *)

(** A duplicate filter records an ID and reports whether it was known. It knows what
    it just recorded, and learns nothing else. *)
Class DupFilter (D : Type) := {
  df_mark : string -> D -> bool * D;
  df_knows : D -> string -> Prop;
  df_answer : forall id d, fst (df_mark id d) = true <-> df_knows d id;
  df_learns : forall id d, df_knows (snd (df_mark id d)) id;
  df_only : forall id id' d, df_knows (snd (df_mark id d)) id' -> id' = id \/ df_knows d id'
}.

(** ** The cache *)

Record dedupeCache := { dd_max : Z; dd_seen : gmap string Z; dd_next : Z }.

#[export] Instance dedupeCache_eta : Eta dedupeCache := fun d => {|
  dd_max := dd_max d; dd_seen := dd_seen d; dd_next := dd_next d |}.

Definition newDedupeCache (max : Z) : dedupeCache :=
  let max := if max <? 2 then 2 else max in
  {| dd_max := max; dd_seen := ∅; dd_next := 0 |}.

(** [evictOldestHalfLocked]: the subtraction is of [uint64]s. *)
Definition evictOldestHalfLocked (d : dedupeCache) : dedupeCache :=
  let cutoff := u64 (dd_next d - u64 (Z.quot (dd_max d) 2)) in
  d <| dd_seen := filter (fun p => ~ snd p < cutoff) (dd_seen d) |>.

(** [seenBefore]. *)
Definition seenBefore (id : string) (d : dedupeCache) : bool * dedupeCache :=
  match dd_seen d !! id with
  | Some _ => (true, d)
  | None =>
    let d := if dd_max d <=? Z.of_nat (size (dd_seen d)) then evictOldestHalfLocked d else d in
    (false, d <| dd_seen := <[id := dd_next d]> (dd_seen d) |>
              <| dd_next := u64 (dd_next d + 1) |>)
  end.

(** [len]. *)
Definition dedupe_len (d : dedupeCache) : Z := Z.of_nat (size (dd_seen d)).

Definition knows (d : dedupeCache) (id : string) : Prop := is_Some (dd_seen d !! id).

#[export] Program Instance dedupe_filter : DupFilter dedupeCache := {|
  df_mark := seenBefore; df_knows := knows |}.
Next Obligation.
  intros id d. unfold seenBefore, knows. destruct (dd_seen d !! id); simpl; split; eauto.
  - done.
  - by intros [].
Qed.
Next Obligation.
  intros id d. unfold seenBefore, knows. destruct (dd_seen d !! id) eqn:E; simpl.
  - by rewrite E.
  - rewrite lookup_insert_eq. eauto.
Qed.
Next Obligation.
  intros id id' d. unfold seenBefore, knows. destruct (dd_seen d !! id) eqn:E; simpl; [by right|].
  destruct (decide (id = id')) as [->|Hne]; [by left|].
  rewrite lookup_insert_ne by done. case_match; simpl; [|by right].
  intros [q Hq]. apply map_lookup_filter_Some in Hq as [Hq _]. right. eauto.
Qed.

(** A sequence of lookups: the answers and the final cache. *)
Fixpoint feed (ids : list string) (d : dedupeCache) : list bool * dedupeCache :=
  match ids with
  | [] => ([], d)
  | id :: ids' =>
    let '(b, d) := seenBefore id d in
    let '(bs, d) := feed ids' d in
    (b :: bs, d)
  end.

(** ** The invariant *)

Record dd_ok (d : dedupeCache) : Prop := {
  ok_max : 2 <= dd_max d < 2 ^ 63;
  ok_next : 0 <= dd_next d;
  ok_seq : forall id q, dd_seen d !! id = Some q -> 0 <= q < dd_next d;
  ok_inj : forall id id' q, dd_seen d !! id = Some q -> dd_seen d !! id' = Some q -> id = id';
  ok_size : Z.of_nat (size (dd_seen d)) <= dd_max d
}.

(** A map whose values are distinct and lie in an interval is no larger than it. *)
Lemma size_interval (m : gmap string Z) lo hi :
  lo <= hi ->
  (forall id q, m !! id = Some q -> lo <= q < hi) ->
  (forall id id' q, m !! id = Some q -> m !! id' = Some q -> id = id') ->
  Z.of_nat (size m) <= hi - lo.
Proof.
  intros Hle Hr Hi.
  assert (Hnd : NoDup (snd <$> map_to_list m)).
  { apply NoDup_fmap_2_strong; [|apply NoDup_map_to_list].
    intros [i q] [j r] Hx Hy Heq. simpl in Heq. subst r.
    apply elem_of_map_to_list in Hx, Hy. by rewrite (Hi _ _ _ Hx Hy). }
  assert (Hsub : snd <$> map_to_list m ⊆ seqZ lo (hi - lo)).
  { intros q Hq. apply list_elem_of_fmap in Hq as ([i r] & -> & Hx).
    apply elem_of_map_to_list in Hx. apply Hr in Hx. apply elem_of_seqZ. simpl. lia. }
  assert (Hl : (length (snd <$> map_to_list m) <= length (seqZ lo (hi - lo)))%nat).
  { apply submseteq_length, NoDup_submseteq; [done|]. exact Hsub. }
  rewrite length_fmap, length_seqZ, length_map_to_list in Hl. lia.
Qed.

Lemma quot2 z : 0 <= z -> Z.quot z 2 = z / 2.
Proof. intros. by apply Z.quot_div_nonneg. Qed.

(** What eviction keeps: the entries of the last [max / 2] insertions. *)
Lemma evict_lookup d id q :
  dd_ok d -> dd_max d <= dd_next d < 2 ^ 64 ->
  dd_seen (evictOldestHalfLocked d) !! id = Some q <->
  dd_seen d !! id = Some q /\ dd_next d - dd_max d / 2 <= q.
Proof.
  intros [] Hn. unfold evictOldestHalfLocked. simpl. rewrite quot2 by lia.
  assert (0 <= dd_max d / 2 <= dd_max d) by (Z.div_mod_to_equations; lia).
  rewrite !u64_small by (rewrite ?u64_small; lia).
  rewrite map_lookup_filter_Some. simpl. split; intros [? ?]; (split; [done|lia]).
Qed.

Lemma full_next d : dd_ok d -> dd_max d <= Z.of_nat (size (dd_seen d)) -> dd_max d <= dd_next d.
Proof.
  intros [] Hf. pose proof (size_interval (dd_seen d) 0 (dd_next d)) as H. 
  rewrite Z.sub_0_r in H. etransitivity; [exact Hf|]. by apply H.
Qed.

(** One lookup. *)
Lemma mark_ok id d :
  dd_ok d -> dd_next d + 1 < 2 ^ 64 ->
  let '(b, d') := seenBefore id d in
  dd_ok d' /\ dd_max d' = dd_max d /\
  dd_next d' = dd_next d + (if b : bool then 0 else 1) /\
  (b = false -> dd_seen d' !! id = Some (dd_next d)) /\
  (b = true -> d' = d) /\
  forall id' q, dd_seen d !! id' = Some q -> dd_next d - q <= dd_max d / 2 ->
    dd_seen d' !! id' = Some q.
Proof.
  intros Hok Hn. unfold seenBefore. destruct (dd_seen d !! id) as [q0|] eqn:E.
  { split; [done|]. split; [done|]. split; [lia|]. split; [done|]. by split. }
  set (d1 := if _ <=? _ then _ else _).
  assert (Hd1 : dd_max d1 = dd_max d /\ dd_next d1 = dd_next d /\
    (forall i q, dd_seen d1 !! i = Some q -> dd_seen d !! i = Some q) /\
    (forall i q, dd_seen d !! i = Some q -> dd_next d - q <= dd_max d / 2 ->
       dd_seen d1 !! i = Some q) /\
    Z.of_nat (size (dd_seen d1)) + 1 <= dd_max d).
  { unfold d1. destruct (Z.leb_spec (dd_max d) (Z.of_nat (size (dd_seen d)))) as [Hf|Hf].
    - pose proof (full_next _ Hok Hf) as Hnx.
      assert (Hl : forall i q, dd_seen (evictOldestHalfLocked d) !! i = Some q <->
        dd_seen d !! i = Some q /\ dd_next d - dd_max d / 2 <= q)
        by (intros; apply evict_lookup; [done|lia]).
      split; [done|]. split; [done|]. split; [intros i q Hq; by apply Hl in Hq as []|].
      split; [intros i q Hq Hw; apply Hl; split; [done|lia]|]. destruct Hok.
      pose proof (size_interval (dd_seen (evictOldestHalfLocked d))
        (dd_next d - dd_max d / 2) (dd_next d)) as Hs.
      assert (0 <= dd_max d / 2 /\ dd_max d / 2 + 1 <= dd_max d) by (Z.div_mod_to_equations; lia).
      etransitivity; [apply Z.add_le_mono_r, Hs|lia].
      + lia.
      + intros i q Hq. apply Hl in Hq as [Hq ?]. pose proof (ok_seq0 _ _ Hq). lia.
      + intros i j q Hi Hj. apply Hl in Hi as [Hi _]. apply Hl in Hj as [Hj _]. eauto.
    - split; [done|]. split; [done|]. split; [done|]. split; [done|]. lia. }
  destruct Hd1 as (Hm & Hnx & Hsub & Hkeep & Hsz). clearbody d1.
  assert (E1 : dd_seen d1 !! id = None).
  { destruct (dd_seen d1 !! id) eqn:E1; [|done]. apply Hsub in E1. congruence. }
  destruct Hok. split; [|split; [done|]].
  - constructor; simpl; rewrite ?Hm, ?Hnx, ?u64_small by lia; try lia.
    + intros i q. destruct (decide (id = i)) as [->|Hne].
      * rewrite lookup_insert_eq. intros [= <-]. lia.
      * rewrite lookup_insert_ne by done. intros Hq. apply Hsub, ok_seq0 in Hq. lia.
    + intros i j q. destruct (decide (i = id)) as [->|Hi], (decide (j = id)) as [->|Hj]; try done.
      * rewrite lookup_insert_eq, lookup_insert_ne by done.
        intros [= <-] Hq. apply Hsub, ok_seq0 in Hq. lia.
      * rewrite lookup_insert_eq, lookup_insert_ne by done.
        intros Hq [= <-]. apply Hsub, ok_seq0 in Hq. lia.
      * rewrite !lookup_insert_ne by done. intros H1 H2. apply Hsub in H1, H2. eauto.
    + rewrite map_size_insert_None by done. lia.
  - split; [simpl; by rewrite Hnx, u64_small by lia|]. split.
    + intros _. simpl. by rewrite lookup_insert_eq, Hnx.
    + split; [done|]. intros i q Hq Hw. simpl. rewrite lookup_insert_ne by congruence. by apply Hkeep.
Qed.

(** A sequence of lookups, from a cache whose counter cannot wrap. *)
Lemma feed_ok ids d :
  dd_ok d -> dd_next d + Z.of_nat (length ids) < 2 ^ 64 ->
  let '(bs, d') := feed ids d in
  let fresh := Z.of_nat (length (List.filter negb bs)) in
  dd_ok d' /\ dd_max d' = dd_max d /\ dd_next d' = dd_next d + fresh /\
  forall id q, dd_seen d !! id = Some q -> dd_next d + fresh - q <= dd_max d / 2 + 1 ->
    dd_seen d' !! id = Some q.
Proof.
  revert d. induction ids as [|i ids IH]; intros d Hok Hn; simpl in Hn |- *.
  { split; [done|]. split; [done|]. split; [lia|]. done. }
  pose proof (mark_ok i d Hok) as Hm. destruct (seenBefore i d) as [b d1].
  destruct Hm as (Hok1 & Hmax & Hnx & _ & Hsame & Hkeep); [lia|].
  specialize (IH d1 Hok1). destruct (feed ids d1) as [bs d2]. simpl in IH.
  destruct IH as (Hok2 & Hmax2 & Hnx2 & Hkeep2); [destruct b; lia|].
  split; [done|]. split; [congruence|]. simpl. rewrite Hnx2, Hnx.
  assert (0 <= Z.of_nat (length (List.filter negb bs))) by lia.
  destruct b; simpl.
  - split; [lia|]. intros id q Hq Hw. apply Hkeep2; [by rewrite Hsame|rewrite Hmax; lia].
  - split; [lia|]. intros id q Hq Hw. apply Hkeep2; [|rewrite Hmax; lia].
    apply Hkeep; [done|]. lia.
Qed.

Lemma new_ok max : max < 2 ^ 63 -> dd_ok (newDedupeCache max).
Proof.
  intros H. constructor; simpl.
  - destruct (Z.ltb_spec max 2); lia.
  - lia.
  - intros id q. by rewrite lookup_empty.
  - intros i j q. by rewrite lookup_empty.
  - rewrite map_size_empty. destruct (Z.ltb_spec max 2); lia.
Qed.

Lemma new_max max : dd_max (newDedupeCache max) = Z.max 2 max.
Proof. simpl. destruct (Z.ltb_spec max 2); lia. Qed.

(** Nothing is reported as seen that was not fed before. *)
Lemma feed_no_false_positive ids d i id :
  fst (feed ids d) !! i = Some true -> ids !! i = Some id ->
  knows d id \/ exists j, (j < i)%nat /\ ids !! j = Some id.
Proof.
  revert d i. induction ids as [|x ids IH]; intros d i Hb Hi; [done|]. simpl in Hb.
  pose proof (df_only x id d) as Honly. pose proof (df_answer x d) as Hans. simpl in Honly, Hans.
  destruct (seenBefore x d) as [b d1]. destruct (feed ids d1) as [bs d2] eqn:Ef.
  simpl in *. destruct i as [|i]; simpl in *.
  - simplify_eq. left. by apply Hans.
  - destruct (IH d1 i) as [Hk|(j & Hj & Hl)]; [by rewrite Ef|done| |].
    + destruct (Honly Hk) as [->|?]; [|by left]. right. exists 0%nat. split; [lia|done].
    + right. exists (S j). split; [lia|done].
Qed.

(** C27. Over any sequence of lookups the cache holds at most [max] IDs (at least two),
    and reports an ID as a repeat only if it was indeed looked up before: a fresh
    signal is never dropped. *)
Theorem dedupe_bounded_no_false_positive max ids :
  max < 2 ^ 63 -> Z.of_nat (length ids) < 2 ^ 64 ->
  let '(bs, d) := feed ids (newDedupeCache max) in
  dedupe_len d <= Z.max 2 max /\
  forall i id, bs !! i = Some true -> ids !! i = Some id ->
    exists j, (j < i)%nat /\ ids !! j = Some id.
Proof.
  intros Hm Hl. pose proof (feed_ok ids (newDedupeCache max) (new_ok _ Hm)) as H.
  pose proof (feed_no_false_positive ids (newDedupeCache max)) as Hfp.
  pose proof (new_max max) as Hmax.
  destruct (feed ids (newDedupeCache max)) as [bs d].
  destruct H as (Hok & Hd & _); [simpl; lia|]. split.
  - unfold dedupe_len. destruct Hok. lia.
  - intros i id Hb Hi. destruct (Hfp i id Hb Hi) as [[q Hq]|?]; [|done].
    simpl in Hq. by rewrite lookup_empty in Hq.
Qed.

Example dedupe_bounded_no_false_positive_witness :
  let '(bs, d) := feed ["a"; "b"; "a"; "c"; "d"]%string (newDedupeCache 2) in
  dedupe_len d <= 2 /\
  forall i id, bs !! i = Some true -> ["a"; "b"; "a"; "c"; "d"]%string !! i = Some id ->
    exists j, (j < i)%nat /\ ["a"; "b"; "a"; "c"; "d"]%string !! j = Some id.
Proof. apply (dedupe_bounded_no_false_positive 2); vm_compute; reflexivity. Defined.

(** The window of the cache: once an ID has been recorded, every later lookup
    reports it as a repeat as long as at most [max / 2] other IDs have been recorded
    since. *)
Theorem dedupe_window max before id ids :
  max < 2 ^ 63 -> Z.of_nat (length before + length ids) + 1 < 2 ^ 64 ->
  let d := snd (feed before (newDedupeCache max)) in
  let first := seenBefore id d in
  let later := feed ids (snd first) in
  fst first = false ->
  Z.of_nat (length (List.filter negb (fst later))) <= Z.max 2 max / 2 ->
  fst (seenBefore id (snd later)) = true.
Proof.
  intros Hm Hl d. pose proof (feed_ok before (newDedupeCache max) (new_ok _ Hm)) as H.
  pose proof (new_max max) as Hmax.
  assert (Hlen : (length (fst (feed before (newDedupeCache max))) = length before)%nat).
  { generalize (newDedupeCache max). clear. induction before as [|x l IH]; intros d; [done|].
    simpl. destruct (seenBefore x d) as [b d1]. specialize (IH d1).
    destruct (feed l d1). simpl in *. lia. }
  unfold d. destruct (feed before (newDedupeCache max)) as [bs0 d0]. simpl in *.
  destruct H as (Hok & Hd & Hn & _); [lia|].
  assert (Hf : (length (List.filter negb bs0) <= length bs0)%nat) by apply List.filter_length_le.
  pose proof (mark_ok id d0 Hok) as Hmark. destruct (seenBefore id d0) as [b d1].
  destruct Hmark as (Hok1 & Hd1 & Hn1 & Hrec & _); [lia|]. simpl.
  pose proof (feed_ok ids d1 Hok1) as H1. destruct (feed ids d1) as [bs d2].
  destruct H1 as (_ & Hd2 & Hn2 & Hkeep); [destruct b; lia|]. simpl.
  intros -> Hw. unfold seenBefore. rewrite (Hkeep id (dd_next d0)); [done|by apply Hrec|rewrite Hd1, Hd, Hmax; lia].
Qed.

Example dedupe_window_witness :
  fst (seenBefore "a" (snd (feed ["b"; "c"] (snd (seenBefore "a"
    (snd (feed ["x"; "y"; "z"] (newDedupeCache 4))))))))%string = true.
Proof.
  pose proof (dedupe_window 4 ["x"; "y"; "z"]%string "a"%string ["b"; "c"]%string) as H.
  apply H; vm_compute; first [reflexivity|discriminate].
Defined.

(** The cache of an endpoint holds 4096 IDs, but a repeat of one of the last 4096 can be
    missed: recording one more ID than fits forgets the older half. *)
Definition numbered (n : nat) : list string := (fun i => pretty i) <$> seq 0 n.

Lemma dedupe_forgets_half :
  let d := snd (feed (numbered 17) (newDedupeCache 16)) in
  fst (seenBefore (pretty 8%nat) d) = true /\ fst (seenBefore (pretty 7%nat) d) = false.
Proof. vm_compute. done. Qed.
