(* ===== verification/Mailbox.v ===== *)
(** * The bounded event queue of a session (mailbox.go)

    Producers post without blocking; the single consumer, the session loop, waits for a
    notification and drains. The queue is generic in the events it carries. *)

From S2P Require Import Prelude.

Definition maxMailbox : Z := 512.

Section mailbox.
Context {sessionEvent : Type}.

(** [notify] is a channel of capacity one: whether it holds its token. *)
Record mailbox := { mb_items : list sessionEvent; mb_overflow : bool;
                    mb_closed : bool; mb_notify : bool }.

Definition newMailbox : mailbox :=
  {| mb_items := []; mb_overflow := false; mb_closed := false; mb_notify := false |}.

(** [signal]: a non-blocking send. *)
Definition mb_signal (m : mailbox) : mailbox :=
  {| mb_items := mb_items m; mb_overflow := mb_overflow m; mb_closed := mb_closed m;
     mb_notify := true |}.

(** [post]. *)
Definition post (ev : sessionEvent) (m : mailbox) : bool * mailbox :=
  if mb_closed m then (false, m)
  else if maxMailbox <=? zlen (mb_items m) then
    (false, mb_signal {| mb_items := mb_items m; mb_overflow := true;
                         mb_closed := mb_closed m; mb_notify := mb_notify m |})
  else
    (true, mb_signal {| mb_items := mb_items m ++ [ev]; mb_overflow := mb_overflow m;
                        mb_closed := mb_closed m; mb_notify := mb_notify m |}).

(** A receive from [wait()]: [None] while it would block. *)
Definition mb_wait (m : mailbox) : option mailbox :=
  if mb_notify m then
    Some {| mb_items := mb_items m; mb_overflow := mb_overflow m;
            mb_closed := mb_closed m; mb_notify := false |}
  else None.

(** [drain]. *)
Definition drain (m : mailbox) : (list sessionEvent * bool) * mailbox :=
  ((mb_items m, mb_overflow m),
   {| mb_items := []; mb_overflow := false; mb_closed := mb_closed m;
      mb_notify := mb_notify m |}).

(** [close]. *)
Definition mb_close (m : mailbox) : mailbox :=
  {| mb_items := []; mb_overflow := mb_overflow m; mb_closed := true;
     mb_notify := mb_notify m |}.

(** ** Interleavings of producers and the consumer *)

Inductive mb_op := MPost (ev : sessionEvent) | MWait | MDrain | MClose.

(** What an operation makes visible: a post's event when accepted, a drain's batch. *)
Inductive mb_event := MAccepted (ev : sessionEvent) | MRefused (ev : sessionEvent)
| MBatch (evs : list sessionEvent) (overflow : bool) | MWoken | MClosed.

Definition mb_step (op : mb_op) (m : mailbox) : option (mb_event * mailbox) :=
  match op with
  | MPost ev => let '(ok, m) := post ev m in
                Some (if ok : bool then MAccepted ev else MRefused ev, m)
  | MWait => match mb_wait m with None => None | Some m => Some (MWoken, m) end
  | MDrain => let '((evs, o), m) := drain m in Some (MBatch evs o, m)
  | MClose => Some (MClosed, mb_close m)
  end.

Fixpoint mb_run (ops : list mb_op) (m : mailbox) : option (list mb_event * mailbox) :=
  match ops with
  | [] => Some ([], m)
  | op :: ops' =>
    match mb_step op m with
    | None => None
    | Some (e, m) =>
      match mb_run ops' m with None => None | Some (es, m) => Some (e :: es, m) end
    end
  end.

Definition accepted_of (es : list mb_event) : list sessionEvent :=
  omap (fun e => match e with MAccepted ev => Some ev | _ => None end) es.
Definition batches_of (es : list mb_event) : list sessionEvent :=
  mjoin ((fun e => match e with MBatch evs _ => evs | _ => [] end) <$> es).

Lemma accepted_cons e es : accepted_of (e :: es) = accepted_of [e] ++ accepted_of es.
Proof. unfold accepted_of. by destruct e. Qed.
Lemma batches_cons e es : batches_of (e :: es) = batches_of [e] ++ batches_of es.
Proof. unfold batches_of. rewrite !fmap_cons. simpl. by rewrite app_nil_r. Qed.

(** The invariant: bounded, empty once closed, and never asleep on work: events or an
    overflow that no drain has collected leave a token in [notify], unless the consumer
    has been woken and has yet to drain. *)
Definition mb_awake (woken : bool) (m : mailbox) : Prop :=
  mb_items m <> [] \/ mb_overflow m = true -> mb_notify m = true \/ woken = true \/ mb_closed m = true.

Record mb_ok (m : mailbox) : Prop := {
  mb_bound : zlen (mb_items m) <= maxMailbox;
  mb_empty : mb_closed m = true -> mb_items m = []
}.

Lemma mb_step_ok op m e m' : mb_ok m -> mb_step op m = Some (e, m') -> mb_ok m'.
Proof.
  intros [Hb Hc] H. destruct op; simpl in H.
  - unfold post, maxMailbox in *. destruct (mb_closed m) eqn:Ec; [simplify_eq; constructor; auto|].
    destruct (Z.leb_spec 512 (zlen (mb_items m))); simplify_eq; constructor; simpl;
      rewrite ?Ec, ?zlen_app; unfold maxMailbox; change (zlen [ev]) with 1; done || lia.
  - unfold mb_wait in H. by destruct (mb_notify m); simplify_eq.
  - simplify_eq. by constructor.
  - simplify_eq. by constructor.
Qed.

(** One operation conserves the accepted events. *)
Lemma mb_step_fifo op m e m' :
  mb_step op m = Some (e, m') ->
  match e with MClosed => True | _ =>
    mb_items m ++ accepted_of [e] = batches_of [e] ++ mb_items m' end.
Proof.
  unfold accepted_of, batches_of. destruct op; simpl.
  - unfold post. repeat case_match; intros; simplify_eq; simpl; by rewrite ?app_nil_r.
  - unfold mb_wait. repeat case_match; intros; simplify_eq; simpl; by rewrite app_nil_r.
  - intros. simplify_eq. simpl. by rewrite !app_nil_r.
  - intros. by simplify_eq.
Qed.

(** Whether the consumer has been woken since its last drain. *)
Definition woken_after (e : mb_event) (w : bool) : bool :=
  match e with MWoken => true | MBatch _ _ => false | _ => w end.

Lemma mb_step_awake op m e m' w :
  mb_step op m = Some (e, m') -> mb_awake w m -> mb_awake (woken_after e w) m'.
Proof.
  intros H Ha. unfold mb_awake in *. destruct op; simpl in H.
  - unfold post in H. destruct (mb_closed m) eqn:Ec.
    + injection H as <- <-. simpl. auto.
    + destruct (_ <=? _); injection H as <- <-; simpl; auto.
  - unfold mb_wait in H. destruct (mb_notify m) eqn:En; [|done]. injection H as <- <-. simpl. auto.
  - injection H as <- <-. simpl. intros [?|?]; done.
  - injection H as <- <-. simpl. auto.
Qed.

End mailbox.
Arguments mailbox : clear implicits.
Arguments mb_op : clear implicits.
Arguments mb_event : clear implicits.


