(* ===== verification/Json.v ===== *)
(** * JSON as the program uses it (encoding/json)

    The signaling code marshals and unmarshals small structs. The model covers what it
    relies on: the grammar of a value with Go's nesting limit, the string codec (escapes,
    surrogates, invalid UTF-8), the case-insensitive match of member names, and the
    string escapes [Marshal] writes. A member keeps its raw text for [json.RawMessage]. *)

From Stdlib Require Import String.
From S2P Require Import Prelude.
From S2P Require Import Utf8.
From S2P Require Import Errors.

Inductive json :=
| JNull
| JBool (b : bool)
| JNum (literal : bytes)
| JStr (s : bytes)
| JArr (items : list json)
| JObj (members : list (bytes * bytes * json)).

(** A byte by its character. *)
Definition chr (s : string) : byte :=
  match s with String c _ => c | EmptyString => byte_of 0 end.

Definition is_chr (s : string) (b : byte) : bool := Ascii.eqb b (chr s).

(** The quote character. *)
Definition quote : byte := byte_of 34.

(** ** Lexing *)

Definition is_ws (b : byte) : bool :=
  let v := byte_val b in (v =? 32) || (v =? 9) || (v =? 10) || (v =? 13).

Fixpoint skip_ws (s : bytes) : bytes :=
  match s with
  | b :: s' => if is_ws b then skip_ws s' else s
  | [] => []
  end.

Definition is_digit (b : byte) : bool := in_range 48 57 b.
Definition is_hex (b : byte) : bool := is_digit b || in_range 97 102 b || in_range 65 70 b.

Definition hex_val (b : byte) : Z :=
  let v := byte_val b in
  if v <=? 57 then v - 48 else if v <=? 70 then v - 55 else v - 87.

Definition hex4 (a b c d : byte) : Z :=
  ((hex_val a * 16 + hex_val b) * 16 + hex_val c) * 16 + hex_val d.

(** The characters a backslash may precede, besides [u]. *)
Definition is_escape (b : byte) : bool :=
  let v := byte_val b in
  (v =? 34) || (v =? 92) || (v =? 47) || is_chr "b" b || is_chr "f" b || is_chr "n" b ||
  is_chr "r" b || is_chr "t" b.

(** After the opening quote: the raw text up to the closing one, and the rest. *)
Fixpoint scan_string (s : bytes) : option (bytes * bytes) :=
  match s with
  | [] => None
  | c :: s' =>
    if byte_val c =? 34 then Some ([], s')
    else if byte_val c =? 92 then
      match s' with
      | e :: s2 =>
        if is_escape e then
          match scan_string s2 with Some (r, rest) => Some (c :: e :: r, rest) | None => None end
        else if is_chr "u" e then
          match s2 with
          | h1 :: h2 :: h3 :: h4 :: s3 =>
            if is_hex h1 && is_hex h2 && is_hex h3 && is_hex h4 then
              match scan_string s3 with
              | Some (r, rest) => Some (c :: e :: h1 :: h2 :: h3 :: h4 :: r, rest)
              | None => None
              end
            else None
          | _ => None
          end
        else None
      | [] => None
      end
    else if byte_val c <? 32 then None
    else match scan_string s' with Some (r, rest) => Some (c :: r, rest) | None => None end
  end.

(** The UTF-8 encoding of a rune. *)
Definition encode_rune (r : Z) : bytes :=
  if r <? 0x80 then [byte_of r]
  else if r <? 0x800 then [byte_of (0xC0 + r / 64); byte_of (0x80 + r mod 64)]
  else if r <? 0x10000 then
    [byte_of (0xE0 + r / 4096); byte_of (0x80 + (r / 64) mod 64); byte_of (0x80 + r mod 64)]
  else
    [byte_of (0xF0 + r / 262144); byte_of (0x80 + (r / 4096) mod 64);
     byte_of (0x80 + (r / 64) mod 64); byte_of (0x80 + r mod 64)].

Definition is_surrogate (r : Z) : bool := (0xD800 <=? r) && (r <? 0xE000).

(** [utf16.DecodeRune]. *)
Definition decode_surrogates (r1 r2 : Z) : option Z :=
  if (0xD800 <=? r1) && (r1 <? 0xDC00) && (0xDC00 <=? r2) && (r2 <? 0xE000)
  then Some ((r1 - 0xD800) * 1024 + (r2 - 0xDC00) + 0x10000) else None.

Definition unescape (e : byte) : byte :=
  if is_chr "b" e then byte_of 8 else if is_chr "f" e then byte_of 12
  else if is_chr "n" e then byte_of 10 else if is_chr "r" e then byte_of 13
  else if is_chr "t" e then byte_of 9 else e.

(** [unquote], on the raw text of a scanned string. *)
Fixpoint unquote (fuel : nat) (s : bytes) : bytes :=
  match s, fuel with
  | [], _ | _, O => []
  | c :: s', S f =>
    if byte_val c =? 92 then
      match s' with
      | e :: s2 =>
        if is_chr "u" e then
          match s2 with
          | h1 :: h2 :: h3 :: h4 :: s3 =>
            let r := hex4 h1 h2 h3 h4 in
            if is_surrogate r then
              match s3 with
              | b :: u :: g1 :: g2 :: g3 :: g4 :: s4 =>
                match decode_surrogates r (hex4 g1 g2 g3 g4) with
                | Some full =>
                  if (byte_val b =? 92) && is_chr "u" u
                  then encode_rune full ++ unquote f s4
                  else encode_rune rune_error ++ unquote f s3
                | None => encode_rune rune_error ++ unquote f s3
                end
              | _ => encode_rune rune_error ++ unquote f s3
              end
            else encode_rune r ++ unquote f s3
          | _ => []
          end
        else unescape e :: unquote f s2
      | [] => []
      end
    else
      match decode_rune (c :: s') with
      | Some (_, n) => take n (c :: s') ++ unquote f (drop n (c :: s'))
      | None => encode_rune rune_error ++ unquote f s'
      end
  end.

Definition string_value (raw : bytes) : bytes := unquote (List.length raw) raw.

Fixpoint scan_digits (s : bytes) : bytes * bytes :=
  match s with
  | b :: s' => if is_digit b then let '(d, r) := scan_digits s' in (b :: d, r) else ([], s)
  | [] => ([], [])
  end.

(** At least one digit. *)
Definition scan_digits1 (s : bytes) : option (bytes * bytes) :=
  match scan_digits s with ([], _) => None | p => Some p end.

Definition scan_int (s : bytes) : option (bytes * bytes) :=
  match s with
  | b :: s' => if is_chr "0" b then Some ([b], s') else scan_digits1 s
  | [] => None
  end.

Definition scan_frac (s : bytes) : option (bytes * bytes) :=
  match s with
  | b :: s' =>
    if is_chr "." b then
      match scan_digits1 s' with Some (d, r) => Some (b :: d, r) | None => None end
    else Some ([], s)
  | [] => Some ([], [])
  end.

Definition scan_exp (s : bytes) : option (bytes * bytes) :=
  match s with
  | b :: s' =>
    if is_chr "e" b || is_chr "E" b then
      let '(sign, s2) := match s' with
        | c :: s2 => if is_chr "+" c || is_chr "-" c then ([c], s2) else ([], s')
        | [] => ([], []) end in
      match scan_digits1 s2 with Some (d, r) => Some (b :: sign ++ d, r) | None => None end
    else Some ([], s)
  | [] => Some ([], [])
  end.

Definition scan_number (s : bytes) : option (bytes * bytes) :=
  let '(sign, s1) := match s with
    | b :: s' => if is_chr "-" b then ([b], s') else ([], s)
    | [] => ([], []) end in
  match scan_int s1 with
  | None => None
  | Some (i, s2) =>
    match scan_frac s2 with
    | None => None
    | Some (fr, s3) =>
      match scan_exp s3 with None => None | Some (e, s4) => Some (sign ++ i ++ fr ++ e, s4) end
    end
  end.

(** A fixed word. *)
Definition scan_word (w : string) (s : bytes) : option bytes :=
  let w := list_ascii_of_string w in
  if bool_decide (take (List.length w) s = w) then Some (drop (List.length w) s) else None.

(** ** Values *)

Definition maxNestingDepth : Z := 10000.

(** [raw_of s rest] is the text between [s] and its suffix [rest]. *)
Definition raw_of (s rest : bytes) : bytes := take (List.length s - List.length rest) s.

(** [depth] is the number of enclosing arrays and objects. *)
Fixpoint parse_value (fuel : nat) (depth : Z) (s : bytes) : option (json * bytes) :=
  match fuel with
  | O => None
  | S f =>
    match skip_ws s with
    | [] => None
    | c :: s' =>
      if is_chr "{" c then
        if maxNestingDepth <=? depth then None
        else
          match skip_ws s' with
          | b :: r => if is_chr "}" b then Some (JObj [], r)
                      else match parse_members f (depth + 1) s' with
                           | Some (ms, r) => Some (JObj ms, r) | None => None end
          | [] => None
          end
      else if is_chr "[" c then
        if maxNestingDepth <=? depth then None
        else
          match skip_ws s' with
          | b :: r => if is_chr "]" b then Some (JArr [], r)
                      else match parse_items f (depth + 1) s' with
                           | Some (vs, r) => Some (JArr vs, r) | None => None end
          | [] => None
          end
      else if byte_val c =? 34 then
        match scan_string s' with Some (raw, r) => Some (JStr (string_value raw), r) | None => None end
      else if is_chr "n" c then
        match scan_word "null" (c :: s') with Some r => Some (JNull, r) | None => None end
      else if is_chr "t" c then
        match scan_word "true" (c :: s') with Some r => Some (JBool true, r) | None => None end
      else if is_chr "f" c then
        match scan_word "false" (c :: s') with Some r => Some (JBool false, r) | None => None end
      else match scan_number (c :: s') with Some (l, r) => Some (JNum l, r) | None => None end
    end
  end
with parse_members (fuel : nat) (depth : Z) (s : bytes)
    : option (list (bytes * bytes * json) * bytes) :=
  match fuel with
  | O => None
  | S f =>
    match skip_ws s with
    | q :: s1 =>
      if byte_val q =? 34 then
        match scan_string s1 with
        | None => None
        | Some (k, s2) =>
          match skip_ws s2 with
          | c :: s3 =>
            if is_chr ":" c then
              match parse_value f depth s3 with
              | None => None
              | Some (v, s4) =>
                let m := (string_value k, raw_of (skip_ws s3) s4, v) in
                match skip_ws s4 with
                | d :: s5 =>
                  if is_chr "," d then
                    match parse_members f depth s5 with
                    | Some (ms, r) => Some (m :: ms, r) | None => None end
                  else if is_chr "}" d then Some ([m], s5) else None
                | [] => None
                end
              end
            else None
          | [] => None
          end
        end
      else None
    | [] => None
    end
  end
with parse_items (fuel : nat) (depth : Z) (s : bytes) : option (list json * bytes) :=
  match fuel with
  | O => None
  | S f =>
    match parse_value f depth s with
    | None => None
    | Some (v, s1) =>
      match skip_ws s1 with
      | d :: s2 =>
        if is_chr "," d then
          match parse_items f depth s2 with Some (vs, r) => Some (v :: vs, r) | None => None end
        else if is_chr "]" d then Some ([v], s2) else None
      | [] => None
      end
    end
  end.

(** Every call consumes a byte or precedes one that does. *)
Definition json_fuel (s : bytes) : nat := S (2 * List.length s).

(** [Decoder.Decode] up to the value: what it parsed and what follows, or its error. *)
Definition decode_value (s : bytes) : result error (json * bytes) :=
  match skip_ws s with
  | [] => Err (ESent io_EOF)
  | _ => match parse_value (json_fuel s) 0 s with
         | Some p => Ok p
         | None => Err (EOther "json: invalid syntax" None)
         end
  end.

(** [Decoder.More] at the top level. *)
Definition decoder_more (rest : bytes) : bool :=
  match skip_ws rest with
  | [] => false
  | c :: _ => negb (is_chr "]" c || is_chr "}" c)
  end.

(** [Unmarshal] up to the value: one value and white space. *)
Definition unmarshal_value (s : bytes) : result error json :=
  match parse_value (json_fuel s) 0 s with
  | Some (v, rest) => match skip_ws rest with [] => Ok v | _ => Err (EOther "json: invalid syntax" None) end
  | None => Err (EOther "json: invalid syntax" None)
  end.

(** ** Structs *)

(** The case folding of member names, on the runes that fold to ASCII letters. *)
Definition fold_rune (r : Z) : Z :=
  if (65 <=? r) && (r <=? 90) then r + 32
  else if r =? 0x17F then 115 else if r =? 0x212A then 107 else r.

Definition key_is (name : string) (key : bytes) : bool :=
  bool_decide (map (fun p => fold_rune (snd p)) (runes key) =
               map byte_val (list_ascii_of_string name)).

Definition typeError : error := EOther "json: cannot unmarshal value into Go value" None.

(** A [string] field: null leaves it. *)
Definition set_string (v : json) (old : string) : result error string :=
  match v with
  | JStr s => Ok (string_of_list_ascii s)
  | JNull => Ok old
  | _ => Err typeError
  end.

(** The value of a decimal literal. *)
Definition digits_val (l : bytes) : Z := fold_left (fun a b => a * 10 + (byte_val b - 48)) l 0.

(** An unsigned field of [w] bits: a literal without sign, fraction or exponent. *)
Definition set_uint (w : Z) (v : json) (old : Z) : result error Z :=
  match v with
  | JNum l => if forallb is_digit l && (digits_val l <? 2 ^ w) then Ok (digits_val l) else Err typeError
  | JNull => Ok old
  | _ => Err typeError
  end.

(** A pointer field: null clears it, anything else allocates. *)
Definition set_ptr {A} (set : json -> A -> result error A) (zero : A) (v : json) (old : option A)
    : result error (option A) :=
  match v with
  | JNull => Ok None
  | _ => match set v (default zero old) with Ok a => Ok (Some a) | Err e => Err e end
  end.

(** Decoding an object into a struct: members in order, unknown ones ignored; a type
    error is remembered while decoding goes on. *)
Definition set_struct {P} (set : bytes -> bytes -> json -> P -> result error P) (v : json) (old : P)
    : result error P :=
  match v with
  | JObj ms =>
    let '(p, e) := fold_left (fun '(p, e) '(k, raw, v) =>
      match set k raw v p with
      | Ok p => (p, e)
      | Err e' => (p, match e with Some e => Some e | None => Some e' end)
      end) ms (old, None) in
    match e with None => Ok p | Some e => Err e end
  | JNull => Ok old
  | _ => Err typeError
  end.

(** ** Encoding *)

Definition hex_digit (z : Z) : byte :=
  if z <? 10 then byte_of (48 + z) else byte_of (87 + z).

Definition backslash : byte := byte_of 92.

(** The escape of one rune of a string, given by its bytes ([None]: invalid UTF-8). *)
Definition escape_rune (r : option Z) (raw : bytes) : bytes :=
  match r with
  | None => backslash :: list_ascii_of_string "ufffd"
  | Some v =>
    if (v =? 34) || (v =? 92) then backslash :: raw
    else if v =? 8 then backslash :: list_ascii_of_string "b"
    else if v =? 12 then backslash :: list_ascii_of_string "f"
    else if v =? 10 then backslash :: list_ascii_of_string "n"
    else if v =? 13 then backslash :: list_ascii_of_string "r"
    else if v =? 9 then backslash :: list_ascii_of_string "t"
    else if (v <? 32) || (v =? 60) || (v =? 62) || (v =? 38) then
      backslash :: list_ascii_of_string "u00" ++ [hex_digit (v / 16); hex_digit (v mod 16)]
    else if (v =? 0x2028) || (v =? 0x2029) then
      backslash :: list_ascii_of_string "u202" ++ [hex_digit (v mod 16)]
    else raw
  end.

Fixpoint escape (fuel : nat) (s : bytes) : bytes :=
  match s, fuel with
  | [], _ | _, O => []
  | c :: s', S f =>
    match decode_rune s with
    | Some (r, n) => escape_rune (Some r) (take n s) ++ escape f (drop n s)
    | None => escape_rune None [c] ++ escape f s'
    end
  end.

Definition json_string (s : bytes) : bytes := quote :: escape (List.length s) s ++ [quote].

(** Decimal digits of a non-negative number below [10 ^ fuel]. *)
Fixpoint decimal (fuel : nat) (z : Z) : bytes :=
  match fuel with
  | O => []
  | S f => (if z <? 10 then [] else decimal f (z / 10)) ++ [byte_of (48 + z mod 10)]
  end.

Definition json_uint (z : Z) : bytes := decimal 20 z.

(** An object from its members, in order. *)
Definition json_member (m : string * bytes) : bytes :=
  json_string (list_ascii_of_string (fst m)) ++ list_ascii_of_string ":" ++ snd m.

Definition json_object (ms : list (string * bytes)) : bytes :=
  list_ascii_of_string "{" ++
  match ms with
  | [] => []
  | m :: ms => json_member m ++ mjoin ((fun m => list_ascii_of_string "," ++ json_member m) <$> ms)
  end ++ list_ascii_of_string "}".
