(* ===== verification/JsonCodec.v ===== *)
(** * The JSON codec inverts itself on what the program encodes

    A string survives escaping, scanning and unquoting when it is valid UTF-8; an object
    the encoder writes parses back to its members. *)

From Stdlib Require Import String.
From S2P Require Import Prelude.
From S2P Require Import Utf8.
From S2P Require Import Errors.
From S2P Require Import Json.

(** ** Runes *)

(** A decoded rune has either one ASCII byte or only bytes above ASCII. *)
Lemma decode_rune_bytes s r n :
  decode_rune s = Some (r, n) ->
  (n = 1%nat /\ r < 0x80 /\ exists b, take n s = [b] /\ byte_val b = r) \/
  (0x80 <= r /\ Forall (fun b => 0x80 <= byte_val b) (take n s) /\ take n s <> []).
Proof.
  unfold decode_rune, first_info, is_cont, in_range, low6.
  destruct s as [|b0 s]; [done|]. pose proof (byte_val_bound b0).
  intros H0. 
  destruct (Z.ltb_spec (byte_val b0) 0x80).
  { left. injection H0 as <- <-. split; [done|]. split; [done|]. eauto. }
  right.
  repeat (match type of H0 with context [if ?c then _ else _] => destruct c eqn:? end; try discriminate).
  all: repeat (match type of H0 with context [match ?l with [] => _ | _ => _ end] => destruct l end;
    try discriminate).
  all: repeat (match type of H0 with context [if ?c then _ else _] => destruct c eqn:? end;
    try discriminate).
  all: injection H0 as <- <-; rewrite ?andb_true_iff, ?Z.leb_le, ?Z.ltb_lt, ?Z.ltb_ge, ?Z.eqb_eq, ?Z.eqb_neq in *.
  all: split; [|split; [repeat constructor; lia|done]].
  all: Z.div_mod_to_equations; lia.
Qed.

Lemma byte_of_inv b z : byte_val b = z -> byte_of z = b.
Proof. intros <-. apply byte_of_val. Qed.

Lemma encode_decode_rune s r n :
  decode_rune s = Some (r, n) -> encode_rune r = take n s.
Proof.
  unfold decode_rune, first_info, is_cont, in_range, low6, encode_rune.
  destruct s as [|b0 s]; [done|]. pose proof (byte_val_bound b0).
  intros H0.
  destruct (Z.ltb_spec (byte_val b0) 0x80).
  { injection H0 as <- <-. rewrite (proj2 (Z.ltb_lt _ _)) by done. simpl.
    by rewrite byte_of_val. }
  repeat (match type of H0 with context [if ?c then _ else _] => destruct c eqn:? end; try discriminate).
  all: repeat (match type of H0 with context [match ?l with [] => _ | _ => _ end] => destruct l end;
    try discriminate).
  all: repeat (match type of H0 with context [if ?c then _ else _] => destruct c eqn:? end;
    try discriminate).
  all: injection H0 as <- <-; rewrite ?andb_true_iff, ?Z.leb_le, ?Z.ltb_lt, ?Z.ltb_ge, ?Z.eqb_eq, ?Z.eqb_neq in *.
  all: repeat match goal with |- context [?a <? ?b] =>
    first [rewrite (proj2 (Z.ltb_lt a b)) by (Z.div_mod_to_equations; lia)
          |rewrite (proj2 (Z.ltb_ge a b)) by (Z.div_mod_to_equations; lia)] end.
  all: simpl; repeat f_equal; apply byte_of_inv; Z.div_mod_to_equations; lia.
Qed.

(** ** Scanning what [escape] wrote *)

(** A chunk of raw string text: the scanner passes over it. *)
Definition scannable (e : bytes) : Prop :=
  forall t, scan_string (e ++ t) =
    match scan_string t with Some (r, rest) => Some (e ++ r, rest) | None => None end.

Lemma scannable_app a b : scannable a -> scannable b -> scannable (a ++ b).
Proof.
  intros Ha Hb t. rewrite <- app_assoc, Ha, Hb. destruct (scan_string t) as [[r rest]|]; [|done].
  by rewrite app_assoc.
Qed.

Lemma scannable_plain b :
  32 <= byte_val b -> byte_val b <> 34 -> byte_val b <> 92 -> scannable [b].
Proof.
  intros H1 H2 H3 t. simpl. rewrite (proj2 (Z.eqb_neq _ _) H2), (proj2 (Z.eqb_neq _ _) H3).
  by rewrite (proj2 (Z.ltb_ge _ _) H1).
Qed.

Lemma scannable_high e : Forall (fun b => 0x80 <= byte_val b) e -> scannable e.
Proof.
  induction 1 as [|b e Hb _ IH]; [by intros t; simpl; destruct (scan_string t) as [[]|]|].
  apply (scannable_app [b]); [|done]. apply scannable_plain; lia.
Qed.

Lemma scannable_escape e : is_escape e = true -> scannable [backslash; e].
Proof. intros He t. simpl. by rewrite He. Qed.

Lemma scannable_unicode e :
  match e with [h1; h2; h3; h4] => is_hex h1 && is_hex h2 && is_hex h3 && is_hex h4 = true
  | _ => False end ->
  scannable (backslash :: chr "u" :: e).
Proof.
  destruct e as [|h1 [|h2 [|h3 [|h4 []]]]]; try done. intros Hh t. simpl. by rewrite Hh.
Qed.

(** A decidable fact about every number of an interval, checked one by one. *)
Lemma forallb_below (f : Z -> bool) n :
  forallb f (seqZ 0 n) = true -> forall z, 0 <= z < n -> f z = true.
Proof.
  intros H z Hz. rewrite forallb_forall in H. apply H, list_elem_of_In, elem_of_seqZ. lia.
Qed.

Definition hex_pair_ok (z : Z) : bool :=
  is_hex (hex_digit (z / 16)) && is_hex (hex_digit (z mod 16)) &&
  (hex4 (chr "0") (chr "0") (hex_digit (z / 16)) (hex_digit (z mod 16)) =? z).

Lemma hex_pair z : 0 <= z < 128 -> hex_pair_ok z = true.
Proof. apply forallb_below. vm_compute. reflexivity. Qed.

(** Every chunk the encoder writes. *)
Lemma scannable_rune s r n :
  decode_rune s = Some (r, n) -> scannable (escape_rune (Some r) (take n s)).
Proof.
  intros Hd. unfold escape_rune.
  destruct (decode_rune_bytes _ _ _ Hd) as [(-> & Hr & b & -> & Hb)|(Hr & Hf & _)].
  - pose proof (byte_val_bound b).
    repeat match goal with |- scannable (if ?c then _ else _) => destruct c eqn:? end;
      rewrite ?orb_true_iff, ?orb_false_iff, ?Z.eqb_eq, ?Z.eqb_neq, ?Z.ltb_lt, ?Z.ltb_ge in *;
      try (apply scannable_escape; reflexivity).
    + apply scannable_escape. unfold is_escape. rewrite Hb.
      match goal with H : r = 34 \/ r = 92 |- _ => destruct H as [E|E]; rewrite E; done end.
    + apply (scannable_unicode [chr "0"; chr "0"; hex_digit (r / 16); hex_digit (r mod 16)]).
      pose proof (hex_pair r) as Hp. unfold hex_pair_ok in Hp.
      rewrite !andb_true_iff in Hp. destruct Hp as [[H1 H2] _]; [lia|]. by rewrite H1, H2.
    + lia.
    + apply scannable_plain; lia.
  - repeat match goal with |- scannable (if ?c then _ else _) => destruct c eqn:? end;
      rewrite ?orb_true_iff, ?orb_false_iff, ?Z.eqb_eq, ?Z.eqb_neq, ?Z.ltb_lt, ?Z.ltb_ge in *;
      try lia.
    + apply (scannable_unicode [chr "2"; chr "0"; chr "2"; hex_digit (r mod 16)]).
      match goal with H : r = _ \/ r = _ |- _ => destruct H as [E|E]; rewrite E; done end.
    + by apply scannable_high.
Qed.

Lemma scannable_escaped fuel s : scannable (escape fuel s).
Proof.
  revert s. induction fuel as [|f IH]; intros s.
  { destruct s; by intros t; simpl; destruct (scan_string t) as [[]|]. }
  destruct s as [|c s]; [by intros t; simpl; destruct (scan_string t) as [[]|]|].
  cbn [escape]. destruct (decode_rune (c :: s)) as [[r n]|] eqn:E.
  - apply scannable_app; [by apply scannable_rune|apply IH].
  - apply scannable_app; [|apply IH].
    by apply (scannable_unicode (list_ascii_of_string "fffd")).
Qed.

Lemma scan_escaped fuel s rest :
  scan_string (escape fuel s ++ quote :: rest) = Some (escape fuel s, rest).
Proof. rewrite scannable_escaped. simpl. by rewrite app_nil_r. Qed.

(** ** Unquoting what [escape] wrote *)

Lemma unquote_fuel k1 k2 s :
  (List.length s <= k1)%nat -> (List.length s <= k2)%nat -> unquote k1 s = unquote k2 s.
Proof.
  revert k2 s. induction k1 as [|k1 IH]; intros k2 s H1 H2;
    destruct s as [|c s]; try (by destruct k2); try (simpl in *; lia).
  destruct k2 as [|k2]; [simpl in *; lia|].
  cbn [unquote]. simpl in H1, H2.
  destruct (byte_val c =? 92).
  - destruct s as [|e s2]; [done|]. simpl in H1, H2.
    assert (He : unquote k1 s2 = unquote k2 s2) by (apply IH; lia). rewrite He. clear He.
    destruct (is_chr "u" e); [|done].
    destruct s2 as [|h1 [|h2 [|h3 [|h4 s3]]]]; try done. simpl in H1, H2.
    assert (H3 : unquote k1 s3 = unquote k2 s3) by (apply IH; lia). rewrite H3. clear H3.
    destruct (is_surrogate _); [|done].
    destruct s3 as [|b [|u [|g1 [|g2 [|g3 [|g4 s4]]]]]]; try done. simpl in H1, H2.
    assert (H4 : unquote k1 s4 = unquote k2 s4) by (apply IH; lia). by rewrite H4.
  - assert (Hs : unquote k1 s = unquote k2 s) by (apply IH; lia). rewrite Hs. clear Hs.
    destruct (decode_rune (c :: s)) as [[r n]|] eqn:E; [|done]. f_equal. apply IH.
    all: rewrite length_drop; simpl; destruct (decode_rune_width _ _ _ E); lia.
Qed.

Lemma unquote_value k s : (List.length s <= k)%nat -> unquote k s = string_value s.
Proof. intros. apply unquote_fuel; done. Qed.

Definition unquotes (e raw : bytes) : Prop :=
  forall t, string_value (e ++ t) = raw ++ string_value t.

Lemma unquotes_app a b x y : unquotes a x -> unquotes b y -> unquotes (a ++ b) (x ++ y).
Proof. intros Ha Hb t. by rewrite <- app_assoc, Ha, Hb, app_assoc. Qed.

Lemma unquotes_nil : unquotes [] [].
Proof. done. Qed.

Lemma unquote_step_escape k c e t :
  byte_val c = 92 -> is_chr "u" e = false ->
  unquote (S k) (c :: e :: t) = unescape e :: unquote k t.
Proof. intros Hc He. cbn [unquote]. by rewrite Hc, He. Qed.

Lemma unquote_step_unicode k c u h1 h2 h3 h4 t :
  byte_val c = 92 -> is_chr "u" u = true -> is_surrogate (hex4 h1 h2 h3 h4) = false ->
  unquote (S k) (c :: u :: h1 :: h2 :: h3 :: h4 :: t) =
    encode_rune (hex4 h1 h2 h3 h4) ++ unquote k t.
Proof. intros Hc Hu Hs. cbn [unquote]. by rewrite Hc, Hu, Hs. Qed.

Lemma unquotes_escape e :
  is_chr "u" e = false -> unquotes [backslash; e] [unescape e].
Proof.
  intros He t. unfold string_value at 1. cbn [app List.length].
  rewrite unquote_step_escape by done. cbn [app]. f_equal. apply unquote_value. lia.
Qed.

Lemma unquotes_unicode h1 h2 h3 h4 r :
  hex4 h1 h2 h3 h4 = r -> is_surrogate r = false ->
  unquotes [backslash; chr "u"; h1; h2; h3; h4] (encode_rune r).
Proof.
  intros Hr Hs t. unfold string_value at 1. cbn [app List.length].
  rewrite unquote_step_unicode by (done || by rewrite Hr).
  rewrite Hr. f_equal. apply unquote_value. lia.
Qed.

(** A rune that is not escaped. *)
Lemma unquotes_plain s r n :
  decode_rune s = Some (r, n) -> r <> 92 -> unquotes (take n s) (take n s).
Proof.
  intros Hd Hr t. pose proof (decode_rune_take _ _ _ Hd) as Ht.
  pose proof (decode_rune_app _ t _ _ Ht) as Hta.
  destruct (decode_rune_width _ _ _ Hd) as [Hn Hl].
  assert (Hlen : (n = List.length (take n s))%nat) by (rewrite length_take; lia).
  destruct (decode_rune_bytes _ _ _ Hd) as [Hb|Hb].
  - destruct Hb as (-> & _ & b & Hb & Hv). rewrite Hb in *. unfold string_value at 1.
    cbn [app List.length unquote]. cbn [app] in Hta. rewrite (proj2 (Z.eqb_neq _ _)) by congruence. rewrite Hta. simpl.
    rewrite drop_0. done.
  - destruct Hb as (_ & Hf & Hne). destruct (take n s) as [|b e] eqn:Et; [done|].
    apply Forall_cons in Hf as [Hb _].
    unfold string_value at 1. cbn [List.length app unquote].
    rewrite (proj2 (Z.eqb_neq _ _)) by lia. cbn [app] in Hta. rewrite Hta.
    change (b :: e ++ t) with ((b :: e) ++ t).
    rewrite Hlen, take_app_length, drop_app_length. apply (f_equal (app (b :: e))), unquote_value.
    rewrite length_app. lia.
Qed.

Lemma unquotes_rune s r n :
  decode_rune s = Some (r, n) -> unquotes (escape_rune (Some r) (take n s)) (take n s).
Proof.
  intros Hd. unfold escape_rune. pose proof (encode_decode_rune _ _ _ Hd) as Henc.
  assert (Hr : r < 0x80 -> exists b, take n s = [b] /\ b = byte_of r).
  { intros Hlt. destruct (decode_rune_bytes _ _ _ Hd) as [(_ & _ & b & Ht & Hb)|(? & _)]; [|lia].
    exists b. split; [done|]. by rewrite <- (byte_of_inv b r). }
  assert (Hr0 : 0 <= r).
  { destruct (decode_rune_bytes _ _ _ Hd) as [(_ & _ & b & Ht & Hb)|(? & _)]; [|lia].
    pose proof (byte_val_bound b). lia. }
  repeat match goal with |- unquotes (if ?c then _ else _) _ => destruct c eqn:? end;
    rewrite ?orb_true_iff, ?orb_false_iff, ?Z.eqb_eq, ?Z.eqb_neq, ?Z.ltb_lt, ?Z.ltb_ge in *;
    try (subst r; destruct Hr as (b & -> & ->); [done|]; by apply unquotes_escape).
  - destruct Hr as (b & -> & ->); [lia|].
    match goal with H : r = 34 \/ r = 92 |- _ => destruct H as [-> | ->] end;
      by apply unquotes_escape.
  - rewrite <- Henc. pose proof (hex_pair r) as Hp. unfold hex_pair_ok in Hp.
    rewrite !andb_true_iff, Z.eqb_eq in Hp. destruct Hp as [[H1 H2] H3]; [lia|].
    apply unquotes_unicode; [done|]. unfold is_surrogate.
    rewrite (proj2 (Z.leb_gt _ _)) by lia. done.
  - rewrite <- Henc. apply unquotes_unicode; [|unfold is_surrogate;
      rewrite (proj2 (Z.leb_gt _ _)) by lia; done].
    match goal with H : r = _ \/ r = _ |- _ => destruct H as [-> | ->]; done end.
  - apply (unquotes_plain _ _ _ Hd). tauto.
Qed.

Lemma unquotes_escaped s : valid s = true -> forall fuel, (List.length s <= fuel)%nat ->
  unquotes (escape fuel s) s.
Proof.
  revert s. apply (valid_ind (fun s => forall fuel, (List.length s <= fuel)%nat -> unquotes (escape fuel s) s)).
  - intros []; intros; exact unquotes_nil.
  - intros s r n Hd Hv IH fuel Hf. destruct (decode_rune_width _ _ _ Hd) as [Hn Hl].
    destruct fuel as [|fuel]; [lia|]. destruct s as [|c s]; [done|].
    cbn [escape]. rewrite Hd. rewrite <- (take_drop n (c :: s)) at 3.
    apply unquotes_app; [by apply unquotes_rune|]. apply IH.
    rewrite length_drop. simpl in *. lia.
Qed.

Lemma string_value_escape s :
  valid s = true -> string_value (escape (List.length s) s) = s.
Proof.
  intros Hv. pose proof (unquotes_escaped s Hv (List.length s) (le_n _) []) as H.
  by rewrite !app_nil_r in H.
Qed.

(** ** Numbers *)

Lemma digits_val_nonneg l : forallb is_digit l = true -> 0 <= digits_val l.
Proof.
  unfold digits_val. assert (H : forall a, 0 <= a -> forallb is_digit l = true ->
    0 <= fold_left (fun a b => a * 10 + (byte_val b - 48)) l a); [|by apply H].
  induction l as [|c l IH]; simpl; [done|]. intros a Ha [D Dl]%andb_true_iff. apply IH; [|done].
  unfold is_digit, in_range in D. lia.
Qed.

Lemma digits_val_app a b :
  digits_val (a ++ b) = fold_left (fun x c => x * 10 + (byte_val c - 48)) b (digits_val a).
Proof. unfold digits_val. by rewrite fold_left_app. Qed.

Lemma decimal_ok fuel z :
  0 <= z < 10 ^ Z.of_nat fuel -> (0 < fuel)%nat ->
  forallb is_digit (decimal fuel z) = true /\ digits_val (decimal fuel z) = z /\
  exists b r, decimal fuel z = b :: r /\ (byte_val b = 48 -> z = 0 /\ r = []).
Proof.
  revert z. induction fuel as [|f IH]; intros z Hz Hf; [lia|]. cbn [decimal].
  assert (Hd : byte_val (byte_of (48 + z mod 10)) = 48 + z mod 10).
  { rewrite byte_val_of. unfold u8. apply Z.mod_small.
    pose proof (Z.mod_pos_bound z 10). simpl Z.pow. lia. }
  assert (Hdig : is_digit (byte_of (48 + z mod 10)) = true).
  { unfold is_digit, in_range. rewrite Hd. pose proof (Z.mod_pos_bound z 10).
    apply andb_true_iff. rewrite !Z.leb_le. lia. }
  destruct (Z.ltb_spec z 10).
  - simpl. rewrite Hdig. unfold digits_val. cbn [fold_left]. rewrite Hd, Z.mod_small by lia.
    split; [done|]. split; [lia|]. eexists _, _. split; [done|]. rewrite Hd || idtac.
    rewrite Z.mod_small in Hd by lia. rewrite Hd. intros. split; [lia|done].
  - destruct (IH (z / 10)) as (H1 & H2 & b & r & H3 & H4).
    { rewrite Nat2Z.inj_succ, Z.pow_succ_r in Hz by lia. split; [Z.div_mod_to_equations; lia|].
      apply Z.div_lt_upper_bound; lia. }
    { destruct f; [|lia]. simpl in Hz. lia. }
    split; [rewrite forallb_app, H1; simpl; by rewrite Hdig|]. split.
    + rewrite digits_val_app, H2. cbn [fold_left]. rewrite Hd. Z.div_mod_to_equations; lia.
    + rewrite H3. eexists _, _. split; [done|]. intros Hb. destruct (H4 Hb).
      Z.div_mod_to_equations; lia.
Qed.

(** What follows a value inside an object. *)
Definition delim (c : byte) : Prop := byte_val c = 44 \/ byte_val c = 125.

Lemma delim_not_digit c : delim c -> is_digit c = false.
Proof. unfold is_digit, in_range. intros [-> | ->]; done. Qed.

Lemma scan_digits_all l c rest :
  forallb is_digit l = true -> is_digit c = false ->
  scan_digits (l ++ c :: rest) = (l, c :: rest).
Proof.
  induction l as [|b l IH]; simpl; intros Hl Hc; [by rewrite Hc|].
  apply andb_true_iff in Hl as [-> Hl]. by rewrite IH.
Qed.

Lemma delim_is_chr c w : delim c -> byte_val (chr w) <> 44 -> byte_val (chr w) <> 125 -> is_chr w c = false.
Proof.
  intros Hc H1 H2. unfold is_chr. destruct (Ascii.eqb_spec c (chr w)) as [->|]; [|done].
  destruct Hc; done.
Qed.

Lemma digit_is_chr b w : is_digit b = true -> is_digit (chr w) = false -> is_chr w b = false.
Proof.
  intros Hb Hw. unfold is_chr. destruct (Ascii.eqb_spec b (chr w)) as [->|]; [|done]. congruence.
Qed.

(** ** Values and members of an encoded object *)

(** [txt] is read as [v] at depth [d] inside an object, with any fuel from [k] on. *)
Definition reads_from (k : nat) (d : Z) (txt : bytes) (v : json) : Prop :=
  (forall t, skip_ws (txt ++ t) = txt ++ t) /\
  forall f c rest, (k <= f)%nat -> delim c ->
    parse_value f d (txt ++ c :: rest) = Some (v, c :: rest).

(** A scalar consumes one unit of fuel, at any depth. *)
Definition reads (txt : bytes) (v : json) : Prop := forall d, reads_from 1 d txt v.

Lemma skip_ws_not b t : is_ws b = false -> skip_ws (b :: t) = b :: t.
Proof. intros H. simpl. by rewrite H. Qed.

Lemma reads_string s : valid s = true -> reads (json_string s) (JStr s).
Proof.
  intros Hv d. split; [intros t; by apply skip_ws_not|].
  intros [|f] c rest Hf Hc; [lia|]. unfold json_string. cbn [app parse_value]. rewrite skip_ws_not by done.
  change (is_chr "{" quote) with false. change (is_chr "[" quote) with false. cbv iota.
  change (byte_val quote =? 34) with true. cbv iota.
  rewrite <- app_assoc. cbn [app]. rewrite scan_escaped. by rewrite string_value_escape.
Qed.

Lemma reads_uint z : 0 <= z < 2 ^ 64 -> reads (json_uint z) (JNum (json_uint z)).
Proof.
  intros Hz. unfold json_uint.
  destruct (decimal_ok 20 z) as (Hd & _ & b & r & Hbr & H0); [lia|lia|].
  rewrite Hbr in *. pose proof Hd as Hd'. simpl in Hd'. apply andb_true_iff in Hd' as [Hb Hr].
  assert (Hv : 48 <= byte_val b <= 57).
  { unfold is_digit, in_range in Hb. rewrite andb_true_iff, !Z.leb_le in Hb. done. }
  assert (Hws : is_ws b = false).
  { unfold is_ws. rewrite !(proj2 (Z.eqb_neq _ _)) by lia. done. }
  intros d. split; [intros t; by apply skip_ws_not|].
  intros [|f] c rest Hf Hc; [lia|]. cbn [app parse_value]. rewrite skip_ws_not by done.
  rewrite !(digit_is_chr b) by done. rewrite (proj2 (Z.eqb_neq _ _)) by lia.
  assert (Hscan : scan_number (b :: r ++ c :: rest) = Some (b :: r, c :: rest)).
  { unfold scan_number. rewrite (digit_is_chr b "-") by done.
    assert (Hi : scan_int (b :: r ++ c :: rest) = Some (b :: r, c :: rest)).
    { unfold scan_int. destruct (is_chr "0" b) eqn:E0.
      - unfold is_chr in E0. apply Ascii.eqb_eq in E0. subst b. destruct H0 as [_ ->]; done.
      - pose proof (scan_digits_all (b :: r) c rest Hd (delim_not_digit _ Hc)) as Hs.
        unfold scan_digits1. cbn [app] in Hs. by rewrite Hs. }
    rewrite Hi. unfold scan_frac. rewrite (delim_is_chr c ".") by done.
    unfold scan_exp. rewrite (delim_is_chr c "e"), (delim_is_chr c "E") by done. simpl.
    by rewrite app_nil_r. }
  by rewrite Hscan.
Qed.

(** A member: its name, the text of its value and the value. *)
Record member := { m_name : string; m_text : bytes; m_value : json }.

Definition member_from (k : nat) (d : Z) (m : member) : Prop :=
  valid (list_ascii_of_string (m_name m)) = true /\ reads_from k d (m_text m) (m_value m).

Definition member_ok (m : member) : Prop :=
  valid (list_ascii_of_string (m_name m)) = true /\ reads (m_text m) (m_value m).

Definition parsed (m : member) : bytes * bytes * json :=
  (list_ascii_of_string (m_name m), m_text m, m_value m).

Definition printed (m : member) : string * bytes := (m_name m, m_text m).

Definition comma : byte := chr ",".
Definition rbrace : byte := chr "}".

Fixpoint members_text (m : member) (ms : list member) : bytes :=
  json_member (printed m) ++
  match ms with [] => [rbrace] | m' :: ms' => comma :: members_text m' ms' end.

Lemma reads_from_mono k k' d txt v : (k <= k')%nat -> reads_from k d txt v -> reads_from k' d txt v.
Proof. intros Hk [Hw Hr]. split; [done|]. intros. apply Hr; [lia|done]. Qed.

Lemma member_ok_from k d m : (1 <= k)%nat -> member_ok m -> member_from k d m.
Proof. intros Hk [Hn Hr]. split; [done|]. by eapply reads_from_mono; [|apply Hr]. Qed.

Lemma member_parse k f d m c rest :
  member_from k d m -> (k <= f)%nat -> delim c ->
  parse_members (S f) d (json_member (printed m) ++ c :: rest) =
    if is_chr "," c then
      match parse_members f d rest with
      | Some (ms, r) => Some (parsed m :: ms, r) | None => None end
    else if is_chr "}" c then Some ([parsed m], rest) else None.
Proof.
  intros [Hn [Hws Hv]] Hf Hc. unfold json_member, json_string. cbn [fst snd printed].
  cbn [app parse_members]. rewrite skip_ws_not by done.
  change (byte_val quote =? 34) with true. cbv iota.
  rewrite <- !app_assoc. cbn [app]. rewrite scan_escaped.
  rewrite string_value_escape by done. cbn [list_ascii_of_string app].
  rewrite skip_ws_not by done. rewrite (eq_refl : is_chr ":" ":"%char = true).
  rewrite Hv by done.
  assert (Hraw : raw_of (skip_ws (m_text m ++ c :: rest)) (c :: rest) = m_text m).
  { rewrite Hws. unfold raw_of. rewrite length_app.
    replace (_ + _ - _)%nat with (List.length (m_text m)) by lia. apply take_app_length. }
  rewrite Hraw. rewrite skip_ws_not; [done|].
  unfold is_ws. destruct Hc as [-> | ->]; done.
Qed.

Lemma members_parse k f d m ms rest :
  member_from k d m -> Forall (member_from k d) ms -> (k + List.length ms < f)%nat ->
  parse_members f d (members_text m ms ++ rest) = Some (parsed <$> m :: ms, rest).
Proof.
  revert f m. induction ms as [|m' ms IH]; intros f m Hm Hms Hf; simpl in Hf;
    (destruct f as [|f]; [lia|]); cbn [members_text]; rewrite <- app_assoc; cbn [app].
  - rewrite (member_parse k); [done|done|lia|by right].
  - apply Forall_cons in Hms as [Hm' Hms]. rewrite (member_parse k); [|done|lia|by left].
    change (is_chr "," comma) with true. cbv iota.
    rewrite (IH f m' Hm' Hms) by lia. done.
Qed.

Lemma members_text_object m ms :
  json_object (printed <$> m :: ms) = chr "{" :: members_text m ms.
Proof.
  unfold json_object. rewrite fmap_cons. cbn [list_ascii_of_string app]. f_equal.
  revert m. induction ms as [|m' ms IH]; intros m; cbn [members_text].
  - by rewrite fmap_nil, app_nil_r.
  - rewrite <- IH, !fmap_cons. rewrite <- !app_assoc. f_equal. cbn [mjoin list_join]. by rewrite <- !app_assoc.
Qed.

Lemma members_text_length m ms : (List.length ms < List.length (members_text m ms))%nat.
Proof.
  revert m. induction ms as [|m' ms IH]; intros m; cbn [members_text]; rewrite length_app; simpl.
  - lia.
  - specialize (IH m'). lia.
Qed.

Lemma members_text_quote m ms : exists t, members_text m ms = quote :: t.
Proof. destruct ms; cbn [members_text]; unfold json_member, json_string; cbn [app]; eauto. Qed.

(** An encoded object parses back, whatever follows it. *)
Lemma object_parse_from k f d m ms rest :
  Forall (member_from k (d + 1)) (m :: ms) -> d < maxNestingDepth -> (k + List.length ms + 1 < f)%nat ->
  parse_value f d (json_object (printed <$> m :: ms) ++ rest) = Some (JObj (parsed <$> m :: ms), rest).
Proof.
  intros Hms Hd Hf. apply Forall_cons in Hms as [Hm Hms].
  rewrite members_text_object. destruct f as [|f]; [lia|]. cbn [app parse_value].
  rewrite skip_ws_not by done. rewrite (eq_refl : is_chr "{" (chr "{") = true).
  rewrite (proj2 (Z.leb_gt _ _)) by lia.
  pose proof (members_parse k f (d + 1) m ms rest Hm Hms) as Hp. rewrite Hp by lia.
  destruct (members_text_quote m ms) as [t ->]. cbn [app]. by rewrite skip_ws_not.
Qed.

(** An encoded object as the value of a member. *)
Lemma reads_object k d m ms :
  Forall (member_from k (d + 1)) (m :: ms) -> d < maxNestingDepth ->
  reads_from (k + List.length ms + 2) d (json_object (printed <$> m :: ms)) (JObj (parsed <$> m :: ms)).
Proof.
  intros Hms Hd. split.
  - intros t. rewrite members_text_object. by apply skip_ws_not.
  - intros f c rest Hf _. apply (object_parse_from k); [done|done|lia].
Qed.

(** The same with the fuel of [Unmarshal]. *)
Lemma object_parse_fuel k m ms :
  Forall (member_from k 1) (m :: ms) ->
  let s := json_object (printed <$> m :: ms) in
  (k <= List.length s)%nat ->
  parse_value (json_fuel s) 0 s = Some (JObj (parsed <$> m :: ms), []).
Proof.
  intros Hms s Hk. rewrite <- (app_nil_r s) at 2. apply (object_parse_from k); [done|done|].
  unfold json_fuel. pose proof (members_text_length m ms). unfold s in *.
  rewrite members_text_object in *. simpl in *. lia.
Qed.

Lemma object_parse m ms :
  member_ok m -> Forall member_ok ms ->
  let s := json_object (printed <$> m :: ms) in
  parse_value (json_fuel s) 0 s = Some (JObj (parsed <$> m :: ms), []).
Proof.
  intros Hm Hms s. apply (object_parse_fuel 1).
  - constructor; [by apply member_ok_from|]. eapply Forall_impl; [exact Hms|].
    intros. by apply member_ok_from.
  - rewrite members_text_object. simpl. lia.
Qed.
