(* ===== verification/JsonAny.v ===== *)
(** * JSON decoded without a schema (encoding/json, into [any])

    The conformance suite compares payloads by what they mean. [any] has the dynamic types
    [Unmarshal] produces; a map keeps one entry per key, numbers are [float64]. [sameJSON]
    is the comparison; it is an equivalence on the payloads that decode. *)

From Stdlib Require Import SpecFloat.
From Stdlib Require Import String.
From S2P Require Import Prelude.
From S2P Require Import Errors.
From S2P Require Import Floats.
From S2P Require Import Json.

(** ** Numbers *)

(** The [float64] nearest to [m * 10 ^ e]. *)
Definition float_of_decimal (m e : Z) : spec_float :=
  match m with
  | Zpos p =>
    if 0 <=? e then f_of_Z (m * 10 ^ e)
    else f_div (S754_finite false p 0) (S754_finite false (Z.to_pos (10 ^ (- e))) 0)
  | _ => f_zero
  end.

Definition split_sign (l : bytes) : bool * bytes :=
  match l with
  | b :: r => if is_chr "-" b then (true, r) else if is_chr "+" b then (false, r) else (false, l)
  | [] => (false, [])
  end.

(** The exponent after [e] or [E]. *)
Definition exponent_of (l : bytes) : Z :=
  match l with
  | _ :: r => let '(neg, d) := split_sign r in if neg : bool then - digits_val d else digits_val d
  | [] => 0
  end.

(** [strconv.ParseFloat] on a JSON number: an error when it overflows. *)
Definition ParseFloat (l : bytes) : option spec_float :=
  let '(neg, l) := split_sign l in
  let '(i, l) := scan_digits l in
  let '(fr, l) := match l with b :: r => if is_chr "." b then scan_digits r else ([], l) | [] => ([], []) end in
  match float_of_decimal (digits_val (i ++ fr)) (exponent_of l - zlen fr) with
  | S754_infinity _ | S754_nan => None
  | x => Some (if neg : bool then SFopp x else x)
  end.

(** ** Values *)

Inductive any :=
| ANil | ABool (b : bool) | ANum (f : spec_float) | AStr (s : bytes)
| AArr (items : list any) | AObj (m : list (bytes * any)).

Fixpoint map_get (k : bytes) (m : list (bytes * any)) : option any :=
  match m with [] => None | (k', v) :: m => if bool_decide (k = k') then Some v else map_get k m end.

Fixpoint map_set (k : bytes) (v : any) (m : list (bytes * any)) : list (bytes * any) :=
  match m with
  | [] => [(k, v)]
  | (k', v') :: m => if bool_decide (k = k') then (k, v) :: m else (k', v') :: map_set k v m
  end.

(** [Unmarshal] of a value into an [any]; a later member of the same name wins. *)
Fixpoint any_of (v : json) : option any :=
  match v with
  | JNull => Some ANil
  | JBool b => Some (ABool b)
  | JNum l => ANum <$> ParseFloat l
  | JStr s => Some (AStr s)
  | JArr items =>
    (fix go items acc := match items with
       | [] => Some (AArr (reverse acc))
       | v :: items => match any_of v with Some a => go items (a :: acc) | None => None end
       end) items []
  | JObj ms =>
    (fix go ms acc := match ms with
       | [] => Some (AObj acc)
       | (k, _, v) :: ms => match any_of v with Some a => go ms (map_set k a acc) | None => None end
       end) ms []
  end.

Definition unmarshal_any (s : bytes) : option any :=
  match unmarshal_value s with Ok v => any_of v | Err _ => None end.

(** [reflect.DeepEqual] on these types. *)
Fixpoint DeepEqual (a b : any) : bool :=
  match a, b with
  | ANil, ANil => true
  | ABool x, ABool y => Bool.eqb x y
  | ANum x, ANum y => SFeqb x y
  | AStr x, AStr y => bool_decide (x = y)
  | AArr l, AArr l' =>
    (fix all l l' := match l, l' with
       | [], [] => true
       | x :: l, y :: l' => DeepEqual x y && all l l'
       | _, _ => false
       end) l l'
  | AObj m, AObj m' =>
    (length m =? length m')%nat &&
    (fix all m := match m with
       | [] => true
       | (k, x) :: m => match map_get k m' with Some y => DeepEqual x y && all m | None => false end
       end) m
  | _, _ => false
  end.

Definition sameJSON (got want : bytes) : bool :=
  if (zlen got =? 0) || (zlen want =? 0) then (zlen got =? 0) && (zlen want =? 0)
  else match unmarshal_any got, unmarshal_any want with
       | Some a, Some b => DeepEqual a b
       | _, _ => false
       end.

(** ** The comparison is reflexive *)

Definition is_nan (f : spec_float) : bool := match f with S754_nan => true | _ => false end.

(** One entry per key, and no NaN. *)
Fixpoint any_wf (a : any) : Prop :=
  match a with
  | ANum f => is_nan f = false
  | AArr l => (fix all l := match l with [] => True | x :: l => any_wf x /\ all l end) l
  | AObj m => NoDup m.*1 /\ (fix all m := match m with [] => True | (_, x) :: m => any_wf x /\ all m end) m
  | _ => True
  end.

Lemma any_wf_arr l : any_wf (AArr l) <-> Forall any_wf l.
Proof. induction l as [|x l IH]; [done|]. rewrite Forall_cons, <- IH. done. Qed.

Lemma any_wf_obj m : any_wf (AObj m) <-> NoDup m.*1 /\ Forall any_wf m.*2.
Proof.
  cbn [any_wf]. f_equiv. induction m as [|[k x] m IH]; [done|]. rewrite fmap_cons, Forall_cons, <- IH. done.
Qed.

Lemma SFeqb_refl f : is_nan f = false -> SFeqb f f = true.
Proof.
  destruct f as [s|s| |s m e]; [done|by destruct s|done|]. intros _. unfold SFeqb, SFcompare.
  rewrite Z.compare_refl. change (Pos.compare_cont Eq m m) with (Pos.compare m m). rewrite Pos.compare_refl.
  by destruct s.
Qed.

Lemma map_get_in k x m : NoDup m.*1 -> (k, x) ∈ m -> map_get k m = Some x.
Proof.
  induction m as [|[k' y] m IH]; [by rewrite elem_of_nil|]. rewrite fmap_cons. intros [Hk Hm]%NoDup_cons.
  intros [[= <- <-]|Hin]%elem_of_cons; cbn [map_get]; [by rewrite bool_decide_eq_true_2|].
  case_bool_decide as E; [|by apply IH]. subst k. destruct Hk. by apply (list_elem_of_fmap_2 fst _ _ Hin).
Qed.

Lemma DeepEqual_refl : forall a, any_wf a -> DeepEqual a a = true.
Proof.
  fix IH 1. intros [|b|f|s|l|m] W.
  - done.
  - by destruct b.
  - by apply SFeqb_refl.
  - cbn. by apply bool_decide_eq_true_2.
  - cbn [DeepEqual]. cbn [any_wf] in W. induction l as [|x l IHl]; [done|]. destruct W as [Wx Wl].
    rewrite (IH x Wx). by apply IHl.
  - cbn [DeepEqual]. destruct W as [Hd W]. rewrite Nat.eqb_refl. cbn [andb].
    assert (Hg : forall k x, (k, x) ∈ m -> map_get k m = Some x) by (intros; by apply map_get_in).
    clear Hd. revert Hg. generalize m at 2 3. intros m'. induction m as [|[k x] m IHm]; [done|]. intros Hg.
    destruct W as [Wx Wm]. rewrite (Hg k x) by left. rewrite (IH x Wx). apply IHm; [done|].
    intros k' x' Hin. apply Hg. by right.
Qed.

Lemma map_set_keys k v m : (map_set k v m).*1 = if bool_decide (k ∈ m.*1) then m.*1 else m.*1 ++ [k].
Proof.
  induction m as [|[k' v'] m IH]; [done|]. cbn [map_set]. destruct (bool_decide_reflect (k = k')) as [->|E].
  - rewrite bool_decide_eq_true_2; [done|]. by left.
  - rewrite !fmap_cons, IH. cbn [fst]. case_bool_decide as E1; case_bool_decide as E2; try done.
    + destruct E2. by right.
    + apply elem_of_cons in E2 as [?|?]; done.
Qed.

Lemma map_set_wf k v m : any_wf v -> any_wf (AObj m) -> any_wf (AObj (map_set k v m)).
Proof.
  rewrite !any_wf_obj, map_set_keys. intros Hv [Hd Hm]. split.
  - case_bool_decide as E; [done|]. apply NoDup_app. split; [done|]. split; [|apply NoDup_singleton].
    intros x Hx ->%list_elem_of_singleton. done.
  - clear Hd. induction m as [|[k' v'] m IH]; [by repeat constructor|]. inversion Hm; subst. cbn [map_set].
    case_bool_decide; rewrite fmap_cons, Forall_cons; auto.
Qed.

Lemma any_of_wf : forall v a, any_of v = Some a -> any_wf a.
Proof.
  fix IH 1. intros [|b|l|s|items|ms] a; cbn [any_of].
  - by intros [= <-].
  - by intros [= <-].
  - unfold ParseFloat. destruct (split_sign l) as [neg l1]. destruct (scan_digits l1) as [i l2].
    destruct (match l2 with b :: r => _ | [] => _ end) as [fr l3].
    destruct (float_of_decimal _ _); cbn; intros [= <-]; by destruct neg.
  - by intros [= <-].
  - assert (Hacc : Forall any_wf []) by done. revert Hacc. generalize (@nil any) at 1 2. intros acc.
    revert acc a. induction items as [|v items IHl]; intros acc a Hacc.
    + intros [= <-]. apply any_wf_arr. by apply Forall_reverse.
    + destruct (any_of v) as [x|] eqn:Ex; [|done]. apply IHl. constructor; [by apply (IH v)|done].
  - assert (Hacc : any_wf (AObj [])) by (split; [constructor|done]). revert Hacc. generalize (@nil (bytes * any)) at 1 2.
    intros acc. revert acc a. induction ms as [|[[k raw] v] ms IHm]; intros acc a Hacc.
    + by intros [= <-].
    + destruct (any_of v) as [x|] eqn:Ex; [|done]. apply IHm. apply map_set_wf; [by apply (IH v)|done].
Qed.

Lemma sameJSON_refl s : s = [] \/ is_Some (unmarshal_any s) -> sameJSON s s = true.
Proof.
  unfold sameJSON. destruct (Z.eqb_spec (zlen s) 0); [done|]. cbn [orb]. intros [->|[a Ha]]; [done|].
  rewrite Ha. apply DeepEqual_refl. unfold unmarshal_any in Ha. destruct (unmarshal_value s); [|done].
  by eapply any_of_wf.
Qed.

Example same_up_to_layout :
  sameJSON (list_ascii_of_string "[1, 0.5e1, null]") (list_ascii_of_string "[ 10e-1,5,null ]") = true.
Proof. vm_compute. reflexivity. Qed.

Example number_overflows : sameJSON (list_ascii_of_string "1e400") (list_ascii_of_string "1e400") = false.
Proof. vm_compute. reflexivity. Qed.
