(* ===== verification/Signal.v ===== *)
(** * Signals: the envelope, its payloads and their validation
    (signaling.go, signal_payload.go, signal_validate.go) *)

From Stdlib Require Import String.
From S2P Require Import Prelude.
From S2P Require Import Utf8.
From S2P Require Import Errors.
From S2P Require Import Json.
From S2P Require Import JsonCodec.

(** ** The envelope *)

Definition ProtocolVersion : Z := 1.

(** [SignalKind] is a string; kinds outside protocol version 1 are kept as they are. *)
Definition KindOffer : string := "offer".
Definition KindAnswer : string := "answer".
Definition KindCandidate : string := "candidate".
Definition KindICEComplete : string := "ice-complete".
Definition KindRestart : string := "restart".
Definition KindReject : string := "reject".
Definition KindClose : string := "close".

Record Signal := {
  Version : Z; ID : string; SessionID : string; Kind : string;
  From : string; To : string; Payload : bytes
}.

(** ** Payloads *)

Definition RejectNotListening : string := "not_listening".
Definition RejectBusy : string := "busy".
Definition RejectUnauthorized : string := "unauthorized".
Definition RejectUnsupportedVersion : string := "unsupported_version".
Definition RejectInvalidOffer : string := "invalid_offer".
Definition RejectInternal : string := "internal".

(** [RejectCode.valid]. *)
Definition RejectCode_valid (c : string) : bool :=
  bool_decide (c ∈ [RejectNotListening; RejectBusy; RejectUnauthorized;
                    RejectUnsupportedVersion; RejectInvalidOffer; RejectInternal]).

Definition CloseNormal : string := "normal".
Definition CloseGoingAway : string := "going_away".
Definition CloseProtocolError : string := "protocol_error".
Definition CloseTimeout : string := "timeout".
Definition CloseInternal : string := "internal".

(** [CloseCode.valid]. *)
Definition CloseCode_valid (c : string) : bool :=
  bool_decide (c ∈ [CloseNormal; CloseGoingAway; CloseProtocolError; CloseTimeout; CloseInternal]).

Record sdpPayload := { sp_SDP : string }.
Record candidatePayload := { cp_Candidate : string; cp_SDPMid : option string;
                             cp_SDPMLineIndex : option Z; cp_UsernameFragment : option string }.
Record restartPayload := { rp_Generation : Z; rp_SDP : string }.
Record rejectPayload := { jp_Code : string; jp_Reason : string }.
Record closePayload := { lp_Code : string; lp_Reason : string }.

Inductive payload :=
| PSdp (p : sdpPayload) | PCandidate (p : candidatePayload) | PRestart (p : restartPayload)
| PReject (p : rejectPayload) | PClose (p : closePayload).

(** The members [json.Marshal] writes, in the order of the fields. *)
Definition str_member (name s : string) : member :=
  {| m_name := name; m_text := json_string (list_ascii_of_string s);
     m_value := JStr (list_ascii_of_string s) |}.
Definition uint_member (name : string) (z : Z) : member :=
  {| m_name := name; m_text := json_uint z; m_value := JNum (json_uint z) |}.

(** A field tagged [omitempty]. *)
Definition opt_member {A} (f : A -> member) (o : option A) : list member :=
  match o with Some a => [f a] | None => [] end.

Definition payload_members (p : payload) : list member :=
  match p with
  | PSdp p => [str_member "sdp" (sp_SDP p)]
  | PCandidate p =>
    str_member "candidate" (cp_Candidate p) ::
    opt_member (str_member "sdp_mid") (cp_SDPMid p) ++
    opt_member (uint_member "sdp_mline_index") (cp_SDPMLineIndex p) ++
    opt_member (str_member "username_fragment") (cp_UsernameFragment p)
  | PRestart p => [uint_member "generation" (rp_Generation p); str_member "sdp" (rp_SDP p)]
  | PReject p => [str_member "code" (jp_Code p); str_member "reason" (jp_Reason p)]
  | PClose p => [str_member "code" (lp_Code p); str_member "reason" (lp_Reason p)]
  end.

(** [encodePayload]: marshalling these types does not fail. *)
Definition encodePayload (p : payload) : result error bytes :=
  Ok (json_object (printed <$> payload_members p)).

(** [decodePayload], for a struct given by its zero value and field setter. *)
Definition decodePayload {P} (set : bytes -> bytes -> json -> P -> result error P) (zero : P)
    (raw : bytes) : result error P :=
  if zlen raw =? 0 then Err (errorf ErrProtocol "pipe: signal payload is missing" None)
  else
    match decode_value raw with
    | Err e => Err (errorf ErrProtocol "pipe: decode signal payload: %w" (Some e))
    | Ok (v, rest) =>
      match set_struct set v zero with
      | Err e => Err (errorf ErrProtocol "pipe: decode signal payload: %w" (Some e))
      | Ok p =>
        if decoder_more rest
        then Err (errorf ErrProtocol "pipe: signal payload has trailing data" None)
        else Ok p
      end
    end.

Definition upd {A P} (r : result error A) (f : A -> P) : result error P :=
  match r with Ok a => Ok (f a) | Err e => Err e end.

Definition set_sdp (k raw : bytes) (v : json) (p : sdpPayload) : result error sdpPayload :=
  if key_is "sdp" k then upd (set_string v (sp_SDP p)) (fun s => {| sp_SDP := s |}) else Ok p.

Definition set_candidate (k raw : bytes) (v : json) (p : candidatePayload)
    : result error candidatePayload :=
  let '(Build_candidatePayload c m i u) := p in
  if key_is "candidate" k then
    upd (set_string v c) (fun c => Build_candidatePayload c m i u)
  else if key_is "sdp_mid" k then
    upd (set_ptr set_string ""%string v m) (fun m => Build_candidatePayload c m i u)
  else if key_is "sdp_mline_index" k then
    upd (set_ptr (set_uint 16) 0 v i) (fun i => Build_candidatePayload c m i u)
  else if key_is "username_fragment" k then
    upd (set_ptr set_string ""%string v u) (fun u => Build_candidatePayload c m i u)
  else Ok p.

Definition set_restart (k raw : bytes) (v : json) (p : restartPayload) : result error restartPayload :=
  if key_is "generation" k then
    upd (set_uint 32 v (rp_Generation p)) (fun g => {| rp_Generation := g; rp_SDP := rp_SDP p |})
  else if key_is "sdp" k then
    upd (set_string v (rp_SDP p)) (fun s => {| rp_Generation := rp_Generation p; rp_SDP := s |})
  else Ok p.

Definition set_reject (k raw : bytes) (v : json) (p : rejectPayload) : result error rejectPayload :=
  if key_is "code" k then
    upd (set_string v (jp_Code p)) (fun c => {| jp_Code := c; jp_Reason := jp_Reason p |})
  else if key_is "reason" k then
    upd (set_string v (jp_Reason p)) (fun r => {| jp_Code := jp_Code p; jp_Reason := r |})
  else Ok p.

Definition set_close (k raw : bytes) (v : json) (p : closePayload) : result error closePayload :=
  if key_is "code" k then
    upd (set_string v (lp_Code p)) (fun c => {| lp_Code := c; lp_Reason := lp_Reason p |})
  else if key_is "reason" k then
    upd (set_string v (lp_Reason p)) (fun r => {| lp_Code := lp_Code p; lp_Reason := r |})
  else Ok p.

Definition decodeSdp := decodePayload set_sdp {| sp_SDP := "" |}.
Definition decodeCandidate := decodePayload set_candidate (Build_candidatePayload "" None None None).
Definition decodeRestart := decodePayload set_restart {| rp_Generation := 0; rp_SDP := "" |}.
Definition decodeReject := decodePayload set_reject {| jp_Code := ""; jp_Reason := "" |}.
Definition decodeClose := decodePayload set_close {| lp_Code := ""; lp_Reason := "" |}.

(** ** Validation *)

Definition MaxEnvelopeSize : Z := Z.shiftl 256 10.
Definition MaxSDPSize : Z := Z.shiftl 128 10.
Definition MaxCandidateSize : Z := Z.shiftl 8 10.
Definition MaxPeerIDLength : Z := 128.
Definition MaxReasonLength : Z := 512.
Definition maxUsernameFragmentLength : Z := 256.
Definition maxPendingCandidates : Z := 256.

(** [utf8.ValidString]. *)
Definition valid_string (s : string) : bool := valid (list_ascii_of_string s).

Definition isHexLower (c : Z) : bool := ((48 <=? c) && (c <=? 57)) || ((97 <=? c) && (c <=? 102)).

Definition allHexLower (s : string) : bool :=
  forallb (fun b => isHexLower (byte_val b)) (list_ascii_of_string s).

(** One iteration of the loop of [validID] over a 36-byte string. [byte(r)] truncates. *)
Definition uuid_rune (p : Z * Z) : bool :=
  let '(i, r) := p in
  if (i =? 8) || (i =? 13) || (i =? 18) || (i =? 23) then r =? 45 else isHexLower (u8 r).

Definition validID (id : string) : bool :=
  if slen id =? 32 then allHexLower id
  else if slen id =? 36 then forallb uuid_rune (runes (list_ascii_of_string id))
  else false.

(** [unicode.IsControl] and [unicode.IsSpace]. *)
Definition isControl (r : Z) : bool :=
  ((0 <=? r) && (r <=? 0x1F)) || ((0x7F <=? r) && (r <=? 0x9F)).
Definition isSpace (r : Z) : bool :=
  ((9 <=? r) && (r <=? 13)) || (r =? 32) || (r =? 0x85) || (r =? 0xA0) || (r =? 0x1680) ||
  ((0x2000 <=? r) && (r <=? 0x200A)) || (r =? 0x2028) || (r =? 0x2029) || (r =? 0x202F) ||
  (r =? 0x205F) || (r =? 0x3000).

(** [strings.TrimSpace(s) != s], on valid UTF-8: a space at either end. *)
Definition trims (s : bytes) : bool :=
  match runes s with
  | [] => false
  | p :: ps => isSpace (snd p) || isSpace (snd (List.last (p :: ps) p))
  end.

(** [validPeerID]: nil is [None]. *)
Definition validPeerID (id : string) : option error :=
  let b := list_ascii_of_string id in
  if slen id =? 0 then Some (errorf ErrProtocol "peer id is empty" None)
  else if MaxPeerIDLength <? slen id then
    Some (errorf ErrProtocol "peer id of %d bytes exceeds the %d byte limit" None)
  else if negb (valid b) then Some (errorf ErrProtocol "peer id is not valid UTF-8" None)
  else if existsb (fun p => isControl (snd p)) (runes b) then
    Some (errorf ErrProtocol "peer id contains a control character" None)
  else if trims b then
    Some (errorf ErrProtocol "peer id has leading or trailing whitespace" None)
  else None.

(** [validSDP]. *)
Definition validSDP (sdp : string) : option error :=
  if slen sdp =? 0 then Some (errorf ErrProtocol "pipe: sdp is empty" None)
  else if MaxSDPSize <? slen sdp then
    Some (errorf ErrProtocol "pipe: sdp of %d bytes exceeds the %d byte limit" None)
  else if negb (valid_string sdp) then Some (errorf ErrProtocol "pipe: sdp is not valid UTF-8" None)
  else None.

(** [validReason]. *)
Definition validReason (reason : string) : option error :=
  if MaxReasonLength <? slen reason then
    Some (errorf ErrProtocol "pipe: reason of %d bytes exceeds the %d byte limit" None)
  else if negb (valid_string reason) then
    Some (errorf ErrProtocol "pipe: reason is not valid UTF-8" None)
  else None.

(** The checks on a decoded candidate. *)
Definition validCandidate (p : candidatePayload) : option error :=
  if slen (cp_Candidate p) =? 0 then
    Some (errorf ErrProtocol "pipe: candidate is empty; use %q for end-of-candidates" None)
  else if MaxCandidateSize <? slen (cp_Candidate p) then
    Some (errorf ErrProtocol "pipe: candidate of %d bytes exceeds the %d byte limit" None)
  else if negb (valid_string (cp_Candidate p)) then
    Some (errorf ErrProtocol "pipe: candidate is not valid UTF-8" None)
  else
    match cp_UsernameFragment p with
    | Some u => if maxUsernameFragmentLength <? slen u then
        Some (errorf ErrProtocol "pipe: username fragment exceeds the %d byte limit" None) else None
    | None => None
    end.

(** Decode, then check. *)
Definition decode_then {P} (r : result error P) (check : P -> option error) : option error :=
  match r with Err e => Some e | Ok p => check p end.

(** [validatePayload]. *)
Definition validatePayload (s : Signal) : option error :=
  if bool_decide (Kind s = KindOffer) || bool_decide (Kind s = KindAnswer) then
    decode_then (decodeSdp (Payload s)) (fun p => validSDP (sp_SDP p))
  else if bool_decide (Kind s = KindCandidate) then
    decode_then (decodeCandidate (Payload s)) validCandidate
  else if bool_decide (Kind s = KindICEComplete) then
    if negb (zlen (Payload s) =? 0) &&
       negb (bool_decide (string_of_list_ascii (Payload s) = "null"%string)) &&
       negb (bool_decide (string_of_list_ascii (Payload s) = "{}"%string))
    then Some (errorf ErrProtocol "pipe: %q must not carry a payload" None)
    else None
  else if bool_decide (Kind s = KindRestart) then
    decode_then (decodeRestart (Payload s)) (fun p =>
      if rp_Generation p =? 0 then
        Some (errorf ErrProtocol "pipe: restart generation must be greater than zero" None)
      else validSDP (rp_SDP p))
  else if bool_decide (Kind s = KindReject) then
    decode_then (decodeReject (Payload s)) (fun p =>
      if negb (RejectCode_valid (jp_Code p)) then
        Some (errorf ErrProtocol "pipe: unknown reject code %q" None)
      else validReason (jp_Reason p))
  else if bool_decide (Kind s = KindClose) then
    decode_then (decodeClose (Payload s)) (fun p =>
      if negb (CloseCode_valid (lp_Code p)) then
        Some (errorf ErrProtocol "pipe: unknown close code %q" None)
      else validReason (lp_Reason p))
  else Some (errorf ErrProtocol "pipe: unknown signal kind %q" None).

(** [Signal.Validate]. *)
Definition Validate (s : Signal) : option error :=
  if negb (Version s =? ProtocolVersion) then
    Some (errorf ErrProtocol "pipe: unsupported signal version %d" None)
  else if negb (validID (ID s)) then Some (errorf ErrProtocol "pipe: invalid signal id" None)
  else if negb (validID (SessionID s)) then
    Some (errorf ErrProtocol "pipe: invalid session id" None)
  else
    match validPeerID (From s) with
    | Some e => Some (errorf ErrProtocol "pipe: invalid from: %w" (Some e))
    | None =>
      match validPeerID (To s) with
      | Some e => Some (errorf ErrProtocol "pipe: invalid to: %w" (Some e))
      | None =>
        if bool_decide (From s = To s) then
          Some (errorf ErrProtocol "pipe: signal addressed to its own sender" None)
        else if MaxEnvelopeSize <? zlen (Payload s) then
          Some (errorf ErrProtocol "pipe: signal payload of %d bytes exceeds the %d byte limit" None)
        else validatePayload s
      end
    end.

(** ** Building a signal *)

(** [hex.EncodeToString]. *)
Definition hex_encode (b : bytes) : bytes :=
  mjoin ((fun c => [hex_digit (byte_val c / 16); hex_digit (byte_val c mod 16)]) <$> b).

(** [NewID], from the sixteen bytes [rand.Read] filled. *)
Definition NewID (rand : bytes) : string := string_of_list_ascii (hex_encode rand).

(** [newSignal]. *)
Definition newSignal (rand : bytes) (kind from to sessionID : string) (p : option payload)
    : result error Signal :=
  let sig raw := {| Version := ProtocolVersion; ID := NewID rand; SessionID := sessionID;
                    Kind := kind; From := from; To := to; Payload := raw |} in
  let finish sig :=
    match Validate sig with
    | Some e => Err (EWrap "pipe: built invalid %s signal: %w" [e])
    | None => Ok sig
    end in
  match p with
  | None => finish (sig [])
  | Some p =>
    match encodePayload p with
    | Err e => Err e
    | Ok raw => finish (sig raw)
    end
  end.

(** ** Lemmas *)

Lemma of_to_bytes s : string_of_list_ascii (list_ascii_of_string s) = s.
Proof. apply string_of_list_ascii_of_string. Qed.

Lemma str_member_ok name s :
  valid_string name = true -> valid_string s = true -> member_ok (str_member name s).
Proof. intros Hn Hs. split; [done|]. by apply reads_string. Qed.

Lemma uint_member_ok name z :
  valid_string name = true -> 0 <= z < 2 ^ 64 -> member_ok (uint_member name z).
Proof. intros Hn Hz. split; [done|]. by apply reads_uint. Qed.

Lemma decode_encoded {P} (set : bytes -> bytes -> json -> P -> result error P) zero m ms :
  member_ok m -> Forall member_ok ms ->
  decodePayload set zero (json_object (printed <$> m :: ms)) =
  match set_struct set (JObj (parsed <$> m :: ms)) zero with
  | Ok p => Ok p
  | Err e => Err (errorf ErrProtocol "pipe: decode signal payload: %w" (Some e))
  end.
Proof.
  intros Hm Hms. pose proof (object_parse m ms Hm Hms) as Hp. cbv zeta in Hp.
  unfold decodePayload, decode_value. rewrite Hp. rewrite members_text_object.
  rewrite zlen_cons. pose proof (zlen_nonneg (members_text m ms)).
  rewrite (proj2 (Z.eqb_neq _ _)) by lia. by rewrite skip_ws_not.
Qed.

Lemma set_string_bytes s old : set_string (JStr (list_ascii_of_string s)) old = Ok s.
Proof. simpl. by rewrite of_to_bytes. Qed.

Lemma set_uint_text w z old :
  0 <= z < 2 ^ w -> 2 ^ w <= 2 ^ 64 -> set_uint w (JNum (json_uint z)) old = Ok z.
Proof.
  intros Hz Hw. unfold set_uint, json_uint.
  destruct (decimal_ok 20 z) as (H1 & H2 & _); [lia|lia|].
  rewrite H1, H2, (proj2 (Z.ltb_lt _ _)) by lia. done.
Qed.

(** The strings and numbers a payload's Go fields can hold, in valid UTF-8. *)
Definition opt_ok {A} (P : A -> Prop) (o : option A) : Prop :=
  match o with Some a => P a | None => True end.

Definition payload_wf (p : payload) : Prop :=
  match p with
  | PSdp p => valid_string (sp_SDP p) = true
  | PCandidate p =>
    valid_string (cp_Candidate p) = true /\
    opt_ok (fun s => valid_string s = true) (cp_SDPMid p) /\
    opt_ok (fun z => 0 <= z < 2 ^ 16) (cp_SDPMLineIndex p) /\
    opt_ok (fun s => valid_string s = true) (cp_UsernameFragment p)
  | PRestart p => 0 <= rp_Generation p < 2 ^ 32 /\ valid_string (rp_SDP p) = true
  | PReject p => valid_string (jp_Code p) = true /\ valid_string (jp_Reason p) = true
  | PClose p => valid_string (lp_Code p) = true /\ valid_string (lp_Reason p) = true
  end.

(** The receiving side's decoding of an encoded payload, at the payload's own type. *)
Definition decodes_to (raw : bytes) (p : payload) : Prop :=
  match p with
  | PSdp p => decodeSdp raw = Ok p
  | PCandidate p => decodeCandidate raw = Ok p
  | PRestart p => decodeRestart raw = Ok p
  | PReject p => decodeReject raw = Ok p
  | PClose p => decodeClose raw = Ok p
  end.

#[local] Arguments json_uint : simpl never.
#[local] Arguments set_uint : simpl never.
#[local] Arguments set_string : simpl never.
#[local] Arguments json_string : simpl never.
#[local] Arguments key_is : simpl never.

Lemma set_ptr_string s old zero :
  set_ptr set_string zero (JStr (list_ascii_of_string s)) old = Ok (Some s).
Proof. unfold set_ptr. by rewrite set_string_bytes. Qed.

Lemma set_ptr_uint w z old :
  0 <= z < 2 ^ w -> 2 ^ w <= 2 ^ 64 -> set_ptr (set_uint w) 0 (JNum (json_uint z)) old = Ok (Some z).
Proof. intros. unfold set_ptr. by rewrite set_uint_text. Qed.

(** Which field a member of the encoder is: names are compared by computation. *)
Ltac keys := repeat match goal with
  | |- context [key_is ?a ?b] => let r := eval vm_compute in (key_is a b) in
      change (key_is a b) with r; cbv iota
  end.

Ltac decode_tac :=
  unfold parsed; cbn [m_name m_text m_value str_member uint_member]; keys;
  rewrite ?set_string_bytes, ?set_ptr_string, ?set_uint_text, ?set_ptr_uint by (done || lia);
  simpl; rewrite ?of_to_bytes.

Lemma opt_member_ok {A} (P : A -> Prop) f o :
  opt_ok P o -> (forall a, P a -> member_ok (f a)) -> Forall member_ok (opt_member f o).
Proof. destruct o as [a|]; simpl; [|done]. intros Ha H. constructor; auto. Qed.

Lemma decodes_encoded p raw : payload_wf p -> encodePayload p = Ok raw -> decodes_to raw p.
Proof.
  intros Hwf [= <-]. destruct p as [[s]|[c m i u]|[g s]|[c r]|[c r]]; cbn in Hwf.
  - unfold decodes_to, decodeSdp. cbn [payload_members sp_SDP].
    rewrite decode_encoded; [|by apply str_member_ok|done].
    simpl. unfold set_sdp. by decode_tac.
  - destruct Hwf as (Hc & Hm & Hi & Hu).
    unfold decodes_to, decodeCandidate. cbn [payload_members cp_Candidate cp_SDPMid cp_SDPMLineIndex cp_UsernameFragment].
    rewrite decode_encoded; [|by apply str_member_ok|].
    + destruct m as [m|], i as [i|], u as [u|]; simpl in *; unfold set_candidate;
        repeat decode_tac; done.
    + apply Forall_app_2; [|apply Forall_app_2]; eapply opt_member_ok; try done.
      * intros a. by apply str_member_ok.
      * intros a Ha. apply uint_member_ok; [done|]. simpl in Ha. lia.
      * intros a. by apply str_member_ok.
  - destruct Hwf as [Hg Hs]. unfold decodes_to, decodeRestart. cbn [payload_members rp_Generation rp_SDP].
    rewrite decode_encoded; [|apply uint_member_ok; [done|lia]|constructor; [by apply str_member_ok|done]].
    simpl. unfold set_restart. by do 2 decode_tac.
  - destruct Hwf as [Hc Hr]. unfold decodes_to, decodeReject. cbn [payload_members jp_Code jp_Reason].
    rewrite decode_encoded; [|by apply str_member_ok|constructor; [by apply str_member_ok|done]].
    simpl. unfold set_reject. by do 2 decode_tac.
  - destruct Hwf as [Hc Hr]. unfold decodes_to, decodeClose. cbn [payload_members lp_Code lp_Reason].
    rewrite decode_encoded; [|by apply str_member_ok|constructor; [by apply str_member_ok|done]].
    simpl. unfold set_close. by do 2 decode_tac.
Qed.

(** ** What an accepted signal is *)

(** Thirty-two lowercase hex digits, or a canonical lowercase UUID, for ASCII strings. *)
Definition hex_byte (b : byte) : Prop := isHexLower (byte_val b) = true.

Definition canonical_id (b : bytes) : Prop :=
  (List.length b = 32%nat /\ Forall hex_byte b) \/
  (List.length b = 36%nat /\ forall i c, b !! i = Some c ->
     if bool_decide (i ∈ [8; 13; 18; 23]%nat) then byte_val c = 45 else hex_byte c).

Definition peer_ok (id : string) : Prop :=
  0 < slen id <= MaxPeerIDLength /\ valid_string id = true /\
  (forall i r, (i, r) ∈ runes (list_ascii_of_string id) -> isControl r = false) /\
  trims (list_ascii_of_string id) = false.

Definition sdp_ok (sdp : string) : Prop := 0 < slen sdp <= MaxSDPSize /\ valid_string sdp = true.
Definition reason_ok (r : string) : Prop := slen r <= MaxReasonLength /\ valid_string r = true.

Definition body_ok (kind : string) (raw : bytes) : Prop :=
  ((kind = KindOffer \/ kind = KindAnswer) /\
     exists p, decodeSdp raw = Ok p /\ sdp_ok (sp_SDP p)) \/
  (kind = KindCandidate /\
     exists p, decodeCandidate raw = Ok p /\ 0 < slen (cp_Candidate p) <= MaxCandidateSize /\
       valid_string (cp_Candidate p) = true /\
       opt_ok (fun u => slen u <= maxUsernameFragmentLength) (cp_UsernameFragment p)) \/
  (kind = KindICEComplete /\
     (raw = [] \/ raw = list_ascii_of_string "null" \/ raw = list_ascii_of_string "{}")) \/
  (kind = KindRestart /\
     exists p, decodeRestart raw = Ok p /\ rp_Generation p <> 0 /\ sdp_ok (rp_SDP p)) \/
  (kind = KindReject /\
     exists p, decodeReject raw = Ok p /\ RejectCode_valid (jp_Code p) = true /\
       reason_ok (jp_Reason p)) \/
  (kind = KindClose /\
     exists p, decodeClose raw = Ok p /\ CloseCode_valid (lp_Code p) = true /\
       reason_ok (lp_Reason p)).

Definition signal_ok (s : Signal) : Prop :=
  Version s = ProtocolVersion /\ validID (ID s) = true /\ validID (SessionID s) = true /\
  peer_ok (From s) /\ peer_ok (To s) /\ From s <> To s /\
  zlen (Payload s) <= MaxEnvelopeSize /\ body_ok (Kind s) (Payload s).

Lemma slen_nonneg s : 0 <= slen s.
Proof. unfold slen. lia. Qed.

Lemma validSDP_spec s : validSDP s = None <-> sdp_ok s.
Proof.
  unfold validSDP, sdp_ok. pose proof (slen_nonneg s).
  destruct (Z.eqb_spec (slen s) 0), (Z.ltb_spec MaxSDPSize (slen s)), (valid_string s); simpl;
    intuition (try done; try lia).
Qed.

Lemma validReason_spec s : validReason s = None <-> reason_ok s.
Proof.
  unfold validReason, reason_ok.
  destruct (Z.ltb_spec MaxReasonLength (slen s)), (valid_string s); simpl;
    intuition (try done; try lia).
Qed.

Lemma validPeerID_spec id : validPeerID id = None <-> peer_ok id.
Proof.
  unfold validPeerID, peer_ok, valid_string. pose proof (slen_nonneg id).
  set (b := list_ascii_of_string id). cbv zeta. fold b.
  assert (He : existsb (fun p => isControl (snd p)) (runes b) = false <->
    forall i r, (i, r) ∈ runes b -> isControl r = false).
  { rewrite <- not_true_iff_false, existsb_exists. split.
    - intros Hn i r Hin. apply not_true_iff_false. intros Hc. apply Hn. exists (i, r).
      split; [by apply list_elem_of_In|done].
    - intros Hall ([i r] & Hin & Hc). apply list_elem_of_In in Hin. simpl in Hc.
      by rewrite (Hall _ _ Hin) in Hc. }
  destruct (Z.eqb_spec (slen id) 0), (Z.ltb_spec MaxPeerIDLength (slen id)), (valid b); simpl;
    try (intuition (done || lia)).
  destruct (existsb _ _); simpl.
  - split; [done|]. intros (_ & _ & Hc & _). by apply He in Hc.
  - destruct (trims b); split; try done; intros; intuition (try done; try lia).
Qed.

Lemma validCandidate_spec p :
  validCandidate p = None <->
  0 < slen (cp_Candidate p) <= MaxCandidateSize /\ valid_string (cp_Candidate p) = true /\
  opt_ok (fun u => slen u <= maxUsernameFragmentLength) (cp_UsernameFragment p).
Proof.
  unfold validCandidate. pose proof (slen_nonneg (cp_Candidate p)).
  destruct (Z.eqb_spec (slen (cp_Candidate p)) 0),
    (Z.ltb_spec MaxCandidateSize (slen (cp_Candidate p))), (valid_string (cp_Candidate p)); simpl;
    try (intuition (done || lia)).
  destruct (cp_UsernameFragment p) as [u|]; simpl; [|intuition (done || lia)].
  destruct (Z.ltb_spec maxUsernameFragmentLength (slen u)); intuition (done || lia).
Qed.

Lemma decode_then_spec {P} (r : result error P) check (Q : P -> Prop) :
  (forall p, check p = None <-> Q p) ->
  decode_then r check = None <-> exists p, r = Ok p /\ Q p.
Proof.
  intros H. destruct r as [p|e]; simpl.
  - rewrite H. split; [by eauto|]. by intros (q & [= ->] & Hq).
  - split; [done|]. by intros (q & ? & _).
Qed.

(** The disjunct of [body_ok] for a known kind. *)
Ltac other_kind := match goal with
  | H : ?k = _, H' : ?k = _ |- _ => rewrite H in H'; discriminate H'
  | H : ?k = _ \/ ?k = _, H' : ?k = _ |- _ => destruct H as [H|H]; rewrite H in H'; discriminate H'
  end.

Ltac pick_kind := intros
  [[?K ?B]|[[?K ?B]|[[?K ?B]|[[?K ?B]|[[?K ?B]|[?K ?B]]]]]]; try (exfalso; other_kind); try done.

Lemma ice_payload_spec raw :
  negb (zlen raw =? 0) && negb (bool_decide (string_of_list_ascii raw = "null"%string)) &&
    negb (bool_decide (string_of_list_ascii raw = "{}"%string)) = false <->
  raw = [] \/ raw = list_ascii_of_string "null" \/ raw = list_ascii_of_string "{}".
Proof.
  rewrite !andb_false_iff, !negb_false_iff, !bool_decide_eq_true, Z.eqb_eq.
  assert (Hs : forall w, string_of_list_ascii raw = w <-> raw = list_ascii_of_string w).
  { intros w. split; [intros <-; by rewrite list_ascii_of_string_of_list_ascii|intros ->; apply of_to_bytes]. }
  rewrite !Hs. destruct raw; [intuition|]. rewrite zlen_cons.
  pose proof (zlen_nonneg raw). intuition (done || lia).
Qed.

Lemma validatePayload_spec s : validatePayload s = None <-> body_ok (Kind s) (Payload s).
Proof.
  unfold validatePayload, body_ok.
  destruct (bool_decide_reflect (Kind s = KindOffer)) as [E|E]; simpl.
  { rewrite (decode_then_spec _ _ (fun p => sdp_ok (sp_SDP p))) by (intros; apply validSDP_spec).
    split; [by left; eauto|pick_kind]. }
  destruct (bool_decide_reflect (Kind s = KindAnswer)) as [E1|E1]; simpl.
  { rewrite (decode_then_spec _ _ (fun p => sdp_ok (sp_SDP p))) by (intros; apply validSDP_spec).
    split; [by left; eauto|pick_kind]. }
  destruct (bool_decide_reflect (Kind s = KindCandidate)) as [E2|E2].
  { rewrite (decode_then_spec _ _ _ validCandidate_spec).
    split; [by right; left; eauto|pick_kind]. }
  destruct (bool_decide_reflect (Kind s = KindICEComplete)) as [E3|E3].
  { rewrite <- ice_payload_spec.
    destruct (negb (zlen (Payload s) =? 0) && _ && _); split; try done; [pick_kind|].
    intros _. right; right; left. done. }
  destruct (bool_decide_reflect (Kind s = KindRestart)) as [E4|E4].
  { rewrite (decode_then_spec _ _ (fun p => rp_Generation p <> 0 /\ sdp_ok (rp_SDP p))).
    - split; [by do 3 right; left; eauto|pick_kind].
    - intros p. destruct (Z.eqb_spec (rp_Generation p) 0); [intuition done|].
      rewrite validSDP_spec. intuition. }
  destruct (bool_decide_reflect (Kind s = KindReject)) as [E5|E5].
  { rewrite (decode_then_spec _ _ (fun p => RejectCode_valid (jp_Code p) = true /\ reason_ok (jp_Reason p))).
    - split; [by do 4 right; left; eauto|pick_kind].
    - intros p. destruct (RejectCode_valid (jp_Code p)); simpl; [|intuition done].
      rewrite validReason_spec. intuition. }
  destruct (bool_decide_reflect (Kind s = KindClose)) as [E6|E6].
  { rewrite (decode_then_spec _ _ (fun p => CloseCode_valid (lp_Code p) = true /\ reason_ok (lp_Reason p))).
    - split; [by do 5 right; eauto|pick_kind].
    - intros p. destruct (CloseCode_valid (lp_Code p)); simpl; [|intuition done].
      rewrite validReason_spec. intuition. }
  split; [done|]. intros. exfalso. tauto.
Qed.

Lemma Validate_iff s : Validate s = None <-> signal_ok s.
Proof.
  unfold Validate, signal_ok.
  destruct (Z.eqb_spec (Version s) ProtocolVersion); simpl; [|intuition done].
  destruct (validID (ID s)); simpl; [|intuition done].
  destruct (validID (SessionID s)); simpl; [|intuition done].
  destruct (validPeerID (From s)) eqn:Ef.
  { split; [done|]. intros (_ & _ & _ & H & _). apply validPeerID_spec in H. congruence. }
  destruct (validPeerID (To s)) eqn:Et.
  { split; [done|]. intros (_ & _ & _ & _ & H & _). apply validPeerID_spec in H. congruence. }
  apply validPeerID_spec in Ef, Et.
  case_bool_decide; [split; [done|]; tauto|].
  destruct (Z.ltb_spec MaxEnvelopeSize (zlen (Payload s))); [split; [done|]; intuition lia|].
  rewrite validatePayload_spec. intuition.
Qed.


Lemma decodePayload_err {P} set (zero : P) raw e :
  decodePayload set zero raw = Err e -> errIs e ErrProtocol = true.
Proof. unfold decodePayload. intros H. repeat case_match; simplify_eq; apply errIs_category. Qed.

Lemma decode_then_err {P} set (zero : P) raw check e :
  (forall p e, check p = Some e -> errIs e ErrProtocol = true) ->
  decode_then (decodePayload set zero raw) check = Some e -> errIs e ErrProtocol = true.
Proof.
  intros Hc. unfold decode_then. destruct (decodePayload _ _ _) as [p|e'] eqn:E; [by apply Hc|].
  intros [= <-]. by eapply decodePayload_err.
Qed.

(** Whatever makes [Validate] refuse a signal, the error is a protocol error, so the
    endpoint's caller can tell it from a transport failure. *)
Theorem Validate_errors_are_protocol s e : Validate s = Some e -> errIs e ErrProtocol = true.
Proof.
  assert (Hsdp : forall x e, validSDP x = Some e -> errIs e ErrProtocol = true)
    by (unfold validSDP; intros; repeat case_match; simplify_eq; apply errIs_category).
  assert (Hrsn : forall x e, validReason x = Some e -> errIs e ErrProtocol = true)
    by (unfold validReason; intros; repeat case_match; simplify_eq; apply errIs_category).
  unfold Validate. intros H.
  repeat match type of H with
  | (if ?c then _ else _) = _ => destruct c; [simplify_eq; apply errIs_category|]
  | match ?c with Some _ => _ | None => _ end = _ =>
    destruct c; [simplify_eq; apply errIs_category|]
  end.
  unfold validatePayload, decodeSdp, decodeCandidate, decodeRestart, decodeReject, decodeClose in H.
  repeat match type of H with (if ?c then _ else _) = _ => destruct c end;
    try (simplify_eq; apply errIs_category).
  all: revert H; try (apply decode_then_err; intros p e0;
    unfold validCandidate; intros Hp; repeat case_match; simplify_eq;
    solve [apply errIs_category | eauto]).
Qed.

Definition bad_signal : Signal :=
  {| Version := 1; ID := "0123456789abcdef0123456789abcdef";
     SessionID := "fedcba9876543210fedcba9876543210"; Kind := KindOffer;
     From := "alice"; To := "bob"; Payload := list_ascii_of_string "{" |}.

Example Validate_errors_are_protocol_witness :
  exists e, Validate bad_signal = Some e /\ errIs e ErrProtocol = true.
Proof.
  eexists. split; [vm_compute; reflexivity|].
  apply (Validate_errors_are_protocol bad_signal). vm_compute. reflexivity.
Defined.

(** ** Identifiers *)

Lemma isHexLower_ascii b : hex_byte b -> byte_val b < 0x80.
Proof. unfold hex_byte, isHexLower. intros H. apply orb_true_iff in H. lia. Qed.

Lemma canonical_ascii b : canonical_id b -> Forall (fun c => byte_val c < 0x80) b.
Proof.
  intros [[_ H]|[_ H]].
  - eapply Forall_impl; [done|]. apply isHexLower_ascii.
  - apply Forall_lookup. intros i c Hc. specialize (H i c Hc).
    case_bool_decide; [lia|by apply isHexLower_ascii].
Qed.

(** One position of the loop of [validID] on an ASCII byte. *)
Lemma uuid_rune_ascii i c :
  byte_val c < 0x80 ->
  uuid_rune (Z.of_nat i, byte_val c) = true <->
  if bool_decide (i ∈ [8; 13; 18; 23]%nat) then byte_val c = 45 else hex_byte c.
Proof.
  intros Hc. unfold uuid_rune, hex_byte, u8. pose proof (byte_val_bound c).
  rewrite Z.mod_small by (simpl; lia).
  assert (Hi : (Z.of_nat i =? 8) || (Z.of_nat i =? 13) || (Z.of_nat i =? 18) || (Z.of_nat i =? 23) =
    bool_decide (i ∈ [8; 13; 18; 23]%nat)).
  { apply eq_iff_eq_true. rewrite bool_decide_eq_true, !orb_true_iff, !Z.eqb_eq.
    rewrite !elem_of_cons, elem_of_nil. lia. }
  rewrite Hi. case_bool_decide; [by rewrite Z.eqb_eq|done].
Qed.

(** Among ASCII strings [validID] accepts exactly the two documented forms: 32
    lowercase hex digits, or a canonical lowercase UUID. *)
Theorem validID_canonical id :
  Forall (fun c => byte_val c < 0x80) (list_ascii_of_string id) ->
  validID id = true <-> canonical_id (list_ascii_of_string id).
Proof.
  intros Ha. unfold validID, canonical_id. rewrite !slen_bytes.
  set (b := list_ascii_of_string id) in *. unfold zlen.
  destruct (Z.eqb_spec (Z.of_nat (List.length b)) 32) as [E|E].
  - unfold allHexLower. fold b. rewrite forallb_forall. unfold hex_byte. rewrite List.Forall_forall.
    split.
    + intros H. left. split; [lia|]. exact H.
    + intros [[_ H]|[? _]]; [exact H|lia].
  - destruct (Z.eqb_spec (Z.of_nat (List.length b)) 36) as [E36|E36].
    2: { split; [done|]. intros [[? _]|[? _]]; lia. }
    rewrite runes_ascii by done. rewrite forallb_forall. rewrite Forall_lookup in Ha. split.
    + intros H. right. split; [lia|]. intros i c Hc. apply uuid_rune_ascii; [by eapply Ha|].
      apply H, list_elem_of_In, list_elem_of_lookup. exists i. by rewrite list_lookup_imap, Hc.
    + intros [[? _]|[_ H]]; [lia|]. intros x Hx.
      apply list_elem_of_In, list_elem_of_lookup in Hx as [i Hx].
      rewrite list_lookup_imap in Hx. destruct (b !! i) as [c|] eqn:Hc; [|done].
      simplify_eq/=. apply uuid_rune_ascii; [by eapply Ha|by apply H].
Qed.

Example validID_canonical_witness :
  canonical_id (list_ascii_of_string "0f8fad5b-d9cb-469f-a165-70867728950e").
Proof.
  apply (validID_canonical "0f8fad5b-d9cb-469f-a165-70867728950e").
  - repeat (apply Forall_cons; split; [vm_compute; reflexivity|]). apply Forall_nil. exact I.
  - vm_compute. reflexivity.
Defined.

(** Outside ASCII it accepts strings that are no identifier: the conversion [byte(r)]
    keeps the low eight bits of a rune, and a two-byte rune straddling a dash position
    hides it. Here U+0130 passes as the digit [0] and covers the dash at offset 8. *)
Definition odd_id : string :=
  ("0123456" ++ String (byte_of 0xC4) (String (byte_of 0xB0) "0123-4567-89ab-cdef01234567"))%string.

Lemma validID_accepts_non_ascii :
  validID odd_id = true /\ ~ canonical_id (list_ascii_of_string odd_id).
Proof.
  split; [vm_compute; reflexivity|]. intros [[H _]|[_ H]]; [by vm_compute in H|].
  specialize (H 8%nat (byte_of 0xB0)). by vm_compute in H; discriminate H.
Qed.

(** ** Building signals *)

Lemma hex_encode_length b : List.length (hex_encode b) = (2 * List.length b)%nat.
Proof.
  induction b as [|c b IH]; [done|]. unfold hex_encode in *. rewrite fmap_cons.
  simpl. rewrite IH. lia.
Qed.

Lemma hex_digit_lower z : 0 <= z < 16 -> hex_byte (hex_digit z).
Proof.
  intros Hz. unfold hex_byte.
  apply (forallb_below (fun z => isHexLower (byte_val (hex_digit z))) 16); [|done].
  vm_compute. reflexivity.
Qed.

Lemma hex_encode_lower b : Forall hex_byte (hex_encode b).
Proof.
  induction b as [|c b IH]; [by constructor|]. unfold hex_encode in *. rewrite fmap_cons. simpl.
  pose proof (byte_val_bound c).
  repeat (apply Forall_cons; split); [| |exact IH]; apply hex_digit_lower;
    Z.div_mod_to_equations; lia.
Qed.

Lemma NewID_valid rand : List.length rand = 16%nat -> validID (NewID rand) = true.
Proof.
  intros Hl. unfold validID, NewID. rewrite slen_bytes, list_ascii_of_string_of_list_ascii.
  unfold zlen. rewrite hex_encode_length, Hl. simpl (_ =? _). cbv iota.
  unfold allHexLower. rewrite list_ascii_of_string_of_list_ascii. apply forallb_forall.
  apply List.Forall_forall. apply hex_encode_lower.
Qed.

(** A payload of the kind's type, within the kind's bounds; an end-of-candidates has none. *)
Definition payload_fits (kind : string) (p : option payload) : Prop :=
  match p with
  | Some (PSdp p) => (kind = KindOffer \/ kind = KindAnswer) /\ sdp_ok (sp_SDP p)
  | Some (PCandidate p) =>
    kind = KindCandidate /\ 0 < slen (cp_Candidate p) <= MaxCandidateSize /\
    opt_ok (fun u => slen u <= maxUsernameFragmentLength) (cp_UsernameFragment p)
  | Some (PRestart p) => kind = KindRestart /\ rp_Generation p <> 0 /\ sdp_ok (rp_SDP p)
  | Some (PReject p) =>
    kind = KindReject /\ RejectCode_valid (jp_Code p) = true /\ reason_ok (jp_Reason p)
  | Some (PClose p) =>
    kind = KindClose /\ CloseCode_valid (lp_Code p) = true /\ reason_ok (lp_Reason p)
  | None => kind = KindICEComplete
  end.

Lemma fits_body_ok kind p raw :
  payload_wf p -> payload_fits kind (Some p) -> decodes_to raw p -> body_ok kind raw.
Proof.
  intros Hwf Hf Hd. unfold body_ok. destruct p; simpl in *.
  - left. destruct Hf. eauto.
  - right; left. destruct Hf as (? & ? & ?), Hwf as (? & _). eauto 10.
  - do 3 right; left. destruct Hf. eauto.
  - do 4 right; left. destruct Hf. eauto.
  - do 5 right. destruct Hf. eauto.
Qed.

(** C25. Building and receiving a signal agree: from sixteen random bytes, a valid session
    and two different valid peers, [newSignal] succeeds on every payload that fits its
    kind (in valid UTF-8, and once encoded within the envelope limit); the signal is
    addressed as asked, the receiver's [Validate] accepts it, and decoding its payload
    gives back the payload, whatever characters it holds. *)
Theorem newSignal_roundtrip rand kind from to sessionID p :
  List.length rand = 16%nat -> validID sessionID = true -> peer_ok from -> peer_ok to ->
  from <> to -> payload_fits kind p ->
  match p with
  | Some p => payload_wf p /\
              forall raw, encodePayload p = Ok raw -> zlen raw <= MaxEnvelopeSize
  | None => True
  end ->
  exists sig, newSignal rand kind from to sessionID p = Ok sig /\
    Validate sig = None /\ Kind sig = kind /\ From sig = from /\ To sig = to /\
    SessionID sig = sessionID /\
    match p with Some p => decodes_to (Payload sig) p | None => Payload sig = [] end.
Proof.
  intros Hr Hs Hf Ht Hne Hfit Hwf.
  assert (Hok : forall raw, zlen raw <= MaxEnvelopeSize -> body_ok kind raw ->
    Validate {| Version := ProtocolVersion; ID := NewID rand; SessionID := sessionID;
                Kind := kind; From := from; To := to; Payload := raw |} = None).
  { intros raw Hl Hb. apply Validate_iff. repeat split; try done; try apply Hf; try apply Ht.
    by apply NewID_valid. }
  unfold newSignal. destruct p as [p|].
  - destruct Hwf as [Hwf Hl]. destruct (encodePayload p) as [raw|] eqn:Ee; [|discriminate].
    pose proof (decodes_encoded p raw Hwf Ee) as Hd. cbv zeta.
    assert (Hv := Hok raw (Hl raw eq_refl) (fits_body_ok kind p raw Hwf Hfit Hd)).
    rewrite Hv. eexists. split; [reflexivity|]. split; [exact Hv|]. done.
  - cbv zeta. assert (Hb : body_ok kind []) by (right; right; left; split; [done|by left]).
    assert (H0 : zlen (@nil ascii) <= MaxEnvelopeSize) by done.
    assert (Hv := Hok [] H0 Hb). rewrite Hv.
    eexists. split; [reflexivity|]. split; [exact Hv|]. done.
Qed.

Example newSignal_roundtrip_witness :
  exists sig,
    newSignal (replicate 16 (byte_of 7)) KindReject "alice" "bob"
      "fedcba9876543210fedcba9876543210"
      (Some (PReject {| jp_Code := RejectBusy; jp_Reason := "a<b" |})) = Ok sig /\
    decodeReject (Payload sig) = Ok {| jp_Code := RejectBusy; jp_Reason := "a<b" |} /\
    string_of_list_ascii (drop 24 (Payload sig)) =
      String quote ("a\u003cb" ++ String quote "}").
Proof.
  assert (Hpeer : forall p, validPeerID p = None -> peer_ok p) by (intros; by apply validPeerID_spec).
  destruct (newSignal_roundtrip (replicate 16 (byte_of 7)) KindReject "alice" "bob"
    "fedcba9876543210fedcba9876543210"
    (Some (PReject {| jp_Code := RejectBusy; jp_Reason := "a<b" |})))
    as (sig & Hn & _ & _ & _ & _ & _ & Hd).
  - reflexivity.
  - vm_compute; reflexivity.
  - apply Hpeer; vm_compute; reflexivity.
  - apply Hpeer; vm_compute; reflexivity.
  - discriminate.
  - split; [reflexivity|]. split; [vm_compute; reflexivity|].
    split; [vm_compute; discriminate|vm_compute; reflexivity].
  - split; [split; vm_compute; reflexivity|]. intros raw H. injection H as <-.
    vm_compute. discriminate.
  - exists sig. split; [exact Hn|]. split; [exact Hd|].
    vm_compute in Hn. injection Hn as <-. vm_compute. reflexivity.
Defined.
