(* ===== verification/Strings.v ===== *)
(** * The functions of package strings the code uses

    On byte strings: [Cut], [ToLower], [EqualFold], [TrimSpace] and [Split], each as the
    Go library has it, on the arguments the code gives them (one-byte separators, ASCII
    words to compare with). *)

From Stdlib Require Import String.
From S2P Require Import Prelude.
From S2P Require Import Utf8.
From S2P Require Import Json.
From S2P Require Import Signal.

(** [strings.Cut(s, sep)] at a one-byte separator. *)
Fixpoint cut (sep : byte) (s : bytes) : option (bytes * bytes) :=
  match s with
  | [] => None
  | c :: s' =>
    if Ascii.eqb c sep then Some ([], s')
    else match cut sep s' with Some (a, b) => Some (c :: a, b) | None => None end
  end.

(** [strings.ToLower], compared below with ASCII words only. *)
Definition lower (b : byte) : byte :=
  if in_range 65 90 b then byte_of (byte_val b + 32) else b.
Definition to_lower (s : bytes) : string := string_of_list_ascii (lower <$> s).

(** [strings.EqualFold(s, word)] for a lower-case ASCII word. *)
Definition equal_fold (word : string) (s : bytes) : bool := key_is word s.

(** The first rune and its width: an invalid byte is a [RuneError] of one byte. *)
Definition next_rune (s : bytes) : Z * nat :=
  match decode_rune s with Some p => p | None => (rune_error, 1%nat) end.

(** [strings.TrimSpace]: the spaces in front, then those at the end. The last rune of a
    string is also the last when runes are taken from the front, because a continuation
    byte never starts one. The fuel is the length. *)
Fixpoint trim_left (fuel : nat) (s : bytes) : bytes :=
  match s, fuel with
  | [], _ => []
  | _, O => s
  | _, S f => let '(r, n) := next_rune s in if isSpace r then trim_left f (drop n s) else s
  end.

Fixpoint trim_right (fuel : nat) (s : bytes) : bytes :=
  match s, fuel with
  | [], _ => []
  | _, O => s
  | _, S f =>
    let '(r, n) := next_rune s in
    match trim_right f (drop n s) with
    | [] => if isSpace r then [] else take n s
    | rest => take n s ++ rest
    end
  end.

Definition trim_space (s : bytes) : bytes :=
  let s := trim_left (List.length s) s in trim_right (List.length s) s.

(** [strings.SplitSeq(s, sep)]. *)
Fixpoint split (sep : byte) (s : bytes) : list bytes :=
  match s with
  | [] => [[]]
  | c :: s' =>
    if Ascii.eqb c sep then [] :: split sep s'
    else match split sep s' with w :: ws => (c :: w) :: ws | [] => [[c]] end
  end.

(** ** Lemmas *)

Lemma cut_spec sep s a b : cut sep s = Some (a, b) <-> s = a ++ sep :: b /\ sep ∉ a.
Proof.
  revert a b. induction s as [|c s IH]; intros a b; simpl; [split; [done|]; intros [H _]; by destruct a|].
  destruct (Ascii.eqb_spec c sep) as [->|Hc].
  - split; [intros [= <- <-]; split; [done|apply not_elem_of_nil]|]. intros [H Hn].
    destruct a as [|x a]; [by injection H as <-|]. injection H as -> _. destruct Hn. by left.
  - destruct (cut sep s) as [[x y]|] eqn:E.
    + pose proof (proj1 (IH x y) eq_refl) as [-> Hn]. split.
      * intros [= <- <-]. split; [done|]. apply not_elem_of_cons. by split.
      * intros [H Hna]. destruct a as [|z a]; [by injection H as -> _|].
        injection H as -> H. apply not_elem_of_cons in Hna as [_ Hna].
        assert (Some (x, y) = Some (a, b)) as [= -> ->]; [by apply IH|done].
    + split; [done|]. intros [H Hna]. destruct a as [|z a]; [by injection H as -> _|].
      injection H as -> ->. apply not_elem_of_cons in Hna as [_ Hna].
      assert (None = Some (a, b)); [by apply IH|done].
Qed.

Lemma cut_none sep s : cut sep s = None <-> sep ∉ s.
Proof.
  split.
  - intros Hc Hin. apply list_elem_of_split in Hin as (l1 & l2 & ->). revert Hc.
    induction l1 as [|x l1 IH]; simpl; [by rewrite Ascii.eqb_refl|].
    destruct (Ascii.eqb x sep); [done|]. by destruct (cut sep (l1 ++ sep :: l2)) as [[]|].
  - intros Hn. destruct (cut sep s) as [[a b]|] eqn:E; [|done].
    apply cut_spec in E as [-> _]. destruct Hn. apply elem_of_app. right. by left.
Qed.
