(* ===== verification/Envelope.v ===== *)
(** * The signal envelope on the wire

    [json.Marshal] and [json.Unmarshal] of a [Signal] (signaling.go), which the SSE
    transport sends in both directions. The payload is a [json.RawMessage]: [Marshal]
    compacts it and escapes it for HTML, [Unmarshal] keeps its raw text. The theorem
    [built_signal_survives_wire]: what [newSignal] built comes out unchanged. *)

From Stdlib Require Import String.
From S2P Require Import Prelude.
From S2P Require Import Utf8.
From S2P Require Import Errors.
From S2P Require Import Json.
From S2P Require Import JsonCodec.
From S2P Require Import Signal.

(** ** [json.Marshal] *)

(** [appendCompact] with HTML escaping, on valid JSON: [instr] tells whether the text is
    inside a string, [esc] whether after a backslash. *)
Fixpoint compact (instr esc : bool) (s : bytes) : bytes :=
  match s with
  | [] => []
  | c :: s' =>
    if negb instr then
      if is_ws c then compact false false s' else c :: compact (byte_val c =? 34) false s'
    else if esc then c :: compact true false s'
    else if byte_val c =? 34 then c :: compact false false s'
    else if byte_val c =? 92 then c :: compact true true s'
    else if (byte_val c =? 60) || (byte_val c =? 62) || (byte_val c =? 38) then
      backslash :: list_ascii_of_string "u00" ++ [hex_digit (byte_val c / 16); hex_digit (byte_val c mod 16)]
        ++ compact true false s'
    else
      match s' with
      | b1 :: b2 :: s'' =>
        if (byte_val c =? 0xE2) && (byte_val b1 =? 0x80) && ((byte_val b2 =? 0xA8) || (byte_val b2 =? 0xA9)) then
          backslash :: list_ascii_of_string "u202" ++ [hex_digit (byte_val b2 mod 16)] ++ compact true false s''
        else c :: compact true false s'
      | _ => c :: compact true false s'
      end
  end.

(** The members but the payload, in the order of the fields. *)
Definition head_members (s : Signal) : list member :=
  [str_member "id" (ID s); str_member "session_id" (SessionID s); str_member "kind" (Kind s);
   str_member "from" (From s); str_member "to" (To s)].

(** [omitempty] leaves an empty payload out. *)
Definition payload_member (s : Signal) (v : json) : member :=
  {| m_name := "payload"; m_text := compact false false (Payload s); m_value := v |}.

Definition marshal_signal (s : Signal) : result error bytes :=
  let head := uint_member "v" (Version s) in
  if zlen (Payload s) =? 0 then Ok (json_object (printed <$> head :: head_members s))
  else
    match unmarshal_value (Payload s) with
    | Err e => Err (EWrap "json: error calling MarshalJSON for type json.RawMessage: %w" [e])
    | Ok v => Ok (json_object (printed <$> head :: head_members s ++ [payload_member s v]))
    end.

(** ** [json.Unmarshal] *)

Definition zero_signal : Signal := {|
  Version := 0; ID := ""; SessionID := ""; Kind := ""; From := ""; To := ""; Payload := [] |}.

Definition set_signal (k raw : bytes) (v : json) (s : Signal) : result error Signal :=
  let '(Build_Signal ver id sid kind from to pay) := s in
  if key_is "v" k then upd (set_uint 16 v ver) (fun x => Build_Signal x id sid kind from to pay)
  else if key_is "id" k then upd (set_string v id) (fun x => Build_Signal ver x sid kind from to pay)
  else if key_is "session_id" k then upd (set_string v sid) (fun x => Build_Signal ver id x kind from to pay)
  else if key_is "kind" k then upd (set_string v kind) (fun x => Build_Signal ver id sid x from to pay)
  else if key_is "from" k then upd (set_string v from) (fun x => Build_Signal ver id sid kind x to pay)
  else if key_is "to" k then upd (set_string v to) (fun x => Build_Signal ver id sid kind from x pay)
  else if key_is "payload" k then Ok (Build_Signal ver id sid kind from to raw)
  else Ok s.

Definition unmarshal_signal (body : bytes) : result error Signal :=
  match unmarshal_value body with
  | Err e => Err e
  | Ok v => set_struct set_signal v zero_signal
  end.

(** ** Text that [compact] leaves alone *)

Definition inside (e : bytes) : Prop := forall t, compact true false (e ++ t) = e ++ compact true false t.
Definition stable (e : bytes) : Prop := forall t, compact false false (e ++ t) = e ++ compact false false t.

Lemma inside_app a b : inside a -> inside b -> inside (a ++ b).
Proof. intros Ha Hb t. by rewrite <- !app_assoc, Ha, Hb. Qed.

Lemma stable_app a b : stable a -> stable b -> stable (a ++ b).
Proof. intros Ha Hb t. by rewrite <- !app_assoc, Ha, Hb. Qed.

Lemma stable_nil : stable [].
Proof. by intros t. Qed.

Lemma stable_compact e : stable e -> compact false false e = e.
Proof. intros He. rewrite <- (app_nil_r e) at 1. rewrite He. simpl. by rewrite app_nil_r. Qed.

Lemma inside_byte b :
  byte_val b <> 34 -> byte_val b <> 92 -> byte_val b <> 60 -> byte_val b <> 62 -> byte_val b <> 38 ->
  byte_val b <> 0xE2 -> inside [b].
Proof.
  intros H1 H2 H3 H4 H5 H6 t. simpl. rewrite !(proj2 (Z.eqb_neq (byte_val b) _)) by done. simpl.
  by destruct t as [|? [|? ?]].
Qed.

Lemma inside_escape x : inside [backslash; x].
Proof. by intros t. Qed.

Lemma inside_bytes e :
  Forall (fun b => byte_val b <> 34 /\ byte_val b <> 92 /\ byte_val b <> 60 /\ byte_val b <> 62 /\
                   byte_val b <> 38 /\ byte_val b <> 0xE2) e -> inside e.
Proof.
  induction 1 as [|b e Hb _ IH]; [by intros t|].
  apply (inside_app [b]); [|done]. apply inside_byte; tauto.
Qed.

Lemma inside_separator b0 b1 b2 :
  byte_val b0 = 0xE2 -> 0x80 <= byte_val b1 < 0xE2 -> 0x80 <= byte_val b2 < 0xE2 ->
  ~ (byte_val b1 = 0x80 /\ (byte_val b2 = 0xA8 \/ byte_val b2 = 0xA9)) -> inside [b0; b1; b2].
Proof.
  intros H0 H1 H2 Hn t. pose proof (inside_bytes [b1; b2]) as Hr.
  cbn [app compact]. rewrite H0. simpl (_ =? _). cbv iota. cbn [negb orb andb].
  replace ((byte_val b1 =? 128) && ((byte_val b2 =? 168) || (byte_val b2 =? 169))) with false.
  - f_equal. apply (Hr ltac:(repeat constructor; lia) t).
  - symmetry. rewrite andb_false_iff, orb_false_iff, !Z.eqb_neq. lia.
Qed.

(** The bytes of a rune above ASCII: none starts an ASCII character, and the first is
    [0xE2] only in three. *)
Lemma decode_rune_high s r n :
  decode_rune s = Some (r, n) -> 0x80 <= r ->
  Forall (fun b => 0x80 <= byte_val b /\ byte_val b <> 0xE2) (take n s) \/
  exists b1 b2, n = 3%nat /\ take n s = [byte_of 0xE2; b1; b2] /\
    0x80 <= byte_val b1 < 0xC0 /\ 0x80 <= byte_val b2 < 0xC0 /\
    r = (2 * 64 + byte_val b1 mod 64) * 64 + byte_val b2 mod 64.
Proof.
  unfold decode_rune, first_info, is_cont, in_range, low6.
  destruct s as [|b0 s]; [done|]. pose proof (byte_val_bound b0). intros Hd Hr.
  destruct (Z.ltb_spec (byte_val b0) 0x80); [injection Hd as <- <-; lia|].
  destruct (decide (byte_val b0 = 0xE2)) as [E|E].
  - right. rewrite E in Hd. simpl in Hd. destruct s as [|b1 [|b2 s]]; try discriminate.
    destruct (_ && _) eqn:Hc in Hd; [|discriminate]. injection Hd as <- <-.
    rewrite !andb_true_iff, !Z.leb_le in Hc. exists b1, b2. split; [done|].
    split; [simpl; by rewrite <- E, byte_of_val|]. split; [lia|]. split; [lia|]. reflexivity.
  - left.
    repeat (match type of Hd with context [if ?c then _ else _] => destruct c eqn:? end; try discriminate).
    all: repeat (match type of Hd with context [match ?l with [] => _ | _ => _ end] => destruct l end;
      try discriminate).
    all: repeat (match type of Hd with context [if ?c then _ else _] => destruct c eqn:? end;
      try discriminate).
    all: injection Hd as <- <-; rewrite ?andb_true_iff, ?Z.leb_le, ?Z.ltb_lt, ?Z.ltb_ge, ?Z.eqb_eq, ?Z.eqb_neq in *.
    all: repeat constructor; lia.
Qed.

Lemma inside_unicode e : Forall (fun b => is_hex b = true) e -> inside (backslash :: chr "u" :: e).
Proof.
  intros He. apply (inside_app [backslash; chr "u"]); [apply inside_escape|]. apply inside_bytes.
  eapply Forall_impl; [exact He|]. intros b Hb. unfold is_hex, is_digit, in_range in Hb.
  rewrite !orb_true_iff, !andb_true_iff, !Z.leb_le in Hb. lia.
Qed.

Lemma inside_rune s r n :
  decode_rune s = Some (r, n) -> inside (escape_rune (Some r) (take n s)).
Proof.
  intros Hd. unfold escape_rune.
  destruct (decode_rune_bytes _ _ _ Hd) as [(-> & Hr & b & Hb & Hbv)|(Hr & _ & _)].
  - rewrite Hb. pose proof (byte_val_bound b).
    repeat match goal with |- inside (if ?c then _ else _) => destruct c eqn:? end;
      rewrite ?orb_true_iff, ?orb_false_iff, ?Z.eqb_eq, ?Z.eqb_neq, ?Z.ltb_lt, ?Z.ltb_ge in *;
      try apply inside_escape; try lia.
    + pose proof (hex_pair r) as Hp. unfold hex_pair_ok in Hp.
      rewrite !andb_true_iff in Hp. destruct Hp as [[H1 H2] _]; [lia|].
      apply (inside_unicode [chr "0"; chr "0"; _; _]). by repeat constructor.
    + apply inside_byte; lia.
  - repeat match goal with |- inside (if ?c then _ else _) => destruct c eqn:? end;
      rewrite ?orb_true_iff, ?orb_false_iff, ?Z.eqb_eq, ?Z.eqb_neq, ?Z.ltb_lt, ?Z.ltb_ge in *; try lia.
    + apply (inside_unicode [chr "2"; chr "0"; chr "2"; hex_digit (r mod 16)]).
      match goal with Hx : r = _ \/ r = _ |- _ => destruct Hx as [-> | ->]; by repeat constructor end.
    + destruct (decode_rune_high _ _ _ Hd Hr) as [Hf|(b1 & b2 & _ & -> & H1 & H2 & Hv)].
      * apply inside_bytes. eapply Forall_impl; [exact Hf|]. intros; simpl in *; lia.
      * apply inside_separator; [done|lia|lia|]. intros [E [E'|E']]; rewrite E, E' in Hv; vm_compute in Hv; lia.
Qed.

Lemma inside_escaped fuel s : inside (escape fuel s).
Proof.
  revert s. induction fuel as [|f IH]; intros [|c s]; try by intros t.
  cbn [escape]. destruct (decode_rune (c :: s)) as [[r n]|] eqn:E.
  - apply inside_app; [by apply inside_rune|apply IH].
  - apply inside_app; [|apply IH]. apply (inside_unicode (list_ascii_of_string "fffd")). by repeat constructor.
Qed.

Lemma stable_string s : stable (json_string s).
Proof.
  intros t. unfold json_string. cbn [app compact negb].
  change (is_ws quote) with false. change (byte_val quote =? 34) with true. cbv iota. f_equal.
  by rewrite <- !app_assoc, inside_escaped.
Qed.

Lemma stable_plain e : Forall (fun b => is_ws b = false /\ byte_val b <> 34) e -> stable e.
Proof.
  induction 1 as [|b e [Hw Hq] _ IH]; [by intros t|]. apply (stable_app [b]); [|done].
  intros t. cbn [app compact negb]. by rewrite Hw, (proj2 (Z.eqb_neq _ _) Hq).
Qed.

Lemma stable_uint z : 0 <= z < 2 ^ 64 -> stable (json_uint z).
Proof.
  intros Hz. apply stable_plain. unfold json_uint. destruct (decimal_ok 20 z) as [Hd _]; [lia|lia|].
  apply Forall_forall. intros b Hb. rewrite forallb_forall in Hd. specialize (Hd b (proj1 (list_elem_of_In _ _) Hb)).
  unfold is_digit, in_range in Hd. rewrite andb_true_iff, !Z.leb_le in Hd. split; [|lia].
  unfold is_ws. by rewrite !(proj2 (Z.eqb_neq _ _)) by lia.
Qed.

Lemma stable_object m ms :
  Forall (fun m => stable (m_text m)) (m :: ms) -> stable (json_object (printed <$> m :: ms)).
Proof.
  intros Hms. rewrite members_text_object.
  assert (Hone : forall b, is_ws b = false -> byte_val b <> 34 -> stable [b])
    by (intros; apply stable_plain; by repeat constructor).
  apply (stable_app [chr "{"]); [by apply Hone|].
  revert m Hms. induction ms as [|m' ms IH]; intros m [Hm Hms]%Forall_cons; cbn [members_text].
  all: apply stable_app; [unfold json_member; apply stable_app; [apply stable_string|];
    apply (stable_app [chr ":"]); [by apply Hone|exact Hm]|].
  - by apply Hone.
  - apply (stable_app [comma]); [by apply Hone|]. by apply IH.
Qed.

(** ** The texts of a signal *)

#[local] Arguments json_uint : simpl never.
#[local] Arguments set_uint : simpl never.
#[local] Arguments set_string : simpl never.
#[local] Arguments json_string : simpl never.
#[local] Arguments key_is : simpl never.
#[local] Arguments json_object : simpl never.

Lemma runes_valid fuel i s :
  (List.length s <= fuel)%nat -> (forall p, p ∈ runes_fuel fuel i s -> snd p <> rune_error) ->
  valid_fuel fuel s = true.
Proof.
  revert i s. induction fuel as [|f IH]; intros i [|c s] Hl Hr; try done; [simpl in Hl; lia|].
  cbn [runes_fuel] in Hr. cbn [valid_fuel]. destruct (decode_rune (c :: s)) as [[r n]|] eqn:E.
  - apply (IH (i + Z.of_nat n)); [|intros p Hp; apply Hr; by right].
    rewrite length_drop. destruct (decode_rune_width _ _ _ E). simpl in *. lia.
  - exfalso. by apply (Hr (i, rune_error)); [left|].
Qed.

Lemma isHexLower_ascii_bound c : isHexLower c = true -> 48 <= c < 128.
Proof. unfold isHexLower. rewrite orb_true_iff, !andb_true_iff, !Z.leb_le. lia. Qed.

Lemma validID_utf8 id : validID id = true -> valid_string id = true.
Proof.
  unfold validID, valid_string. destruct (slen id =? 32).
  - unfold allHexLower. intros Hf. apply valid_ascii, Forall_forall. intros b Hb.
    rewrite forallb_forall in Hf. specialize (Hf b (proj1 (list_elem_of_In _ _) Hb)).
    apply isHexLower_ascii_bound in Hf. lia.
  - destruct (slen id =? 36); [|done]. intros Hf. apply (runes_valid _ 0); [done|]. intros [i r] Hp E.
    simpl in E. subst r. rewrite forallb_forall in Hf.
    specialize (Hf _ (proj1 (list_elem_of_In _ _) Hp)). unfold uuid_rune in Hf.
    destruct (_ || _) in Hf; vm_compute in Hf; discriminate.
Qed.

Lemma kind_utf8 s : body_ok (Kind s) (Payload s) -> valid_string (Kind s) = true.
Proof.
  intros H. assert (Hk : Kind s ∈ [KindOffer; KindAnswer; KindCandidate; KindICEComplete; KindRestart; KindReject; KindClose]).
  { unfold body_ok in H.
    repeat match goal with Hx : _ \/ _ |- _ => destruct Hx | Hx : _ /\ _ |- _ => destruct Hx end;
    match goal with Hx : Kind s = _ |- _ => rewrite Hx; set_solver end. }
  repeat (apply elem_of_cons in Hk as [-> | Hk]; [vm_compute; reflexivity|]). by apply not_elem_of_nil in Hk.
Qed.

Lemma head_ok s : Validate s = None -> Forall member_ok (uint_member "v" (Version s) :: head_members s).
Proof.
  rewrite Validate_iff. intros (Hv & Hi & Hs & Hf & Ht & _ & _ & Hb).
  constructor; [apply uint_member_ok; [done|rewrite Hv; unfold ProtocolVersion; lia]|].
  assert (Hcons : forall name str ms, valid_string name = true -> valid_string str = true -> Forall member_ok ms ->
    Forall member_ok (str_member name str :: ms)) by (intros; constructor; [by apply str_member_ok|done]).
  repeat (apply Hcons; [done|auto using validID_utf8, kind_utf8; by apply Hf || apply Ht|]). done.
Qed.

Lemma payload_members_ok p : payload_wf p -> Forall member_ok (payload_members p).
Proof.
  destruct p as [[s]|[c m i u]|[g s]|[c r]|[c r]]; cbn; intros Hw.
  - repeat constructor. by apply reads_string.
  - destruct Hw as (Hc & Hm & Hi & Hu). constructor; [by apply str_member_ok|].
    apply Forall_app_2; [|apply Forall_app_2]; eapply opt_member_ok; try done.
    + intros a. by apply str_member_ok.
    + intros a Ha. apply uint_member_ok; [done|]. simpl in Ha. lia.
    + intros a. by apply str_member_ok.
  - destruct Hw. constructor; [apply uint_member_ok; [done|lia]|]. constructor; [by apply str_member_ok|done].
  - destruct Hw. repeat (constructor; [by apply str_member_ok|]). done.
  - destruct Hw. repeat (constructor; [by apply str_member_ok|]). done.
Qed.

Lemma payload_members_stable p : payload_wf p -> Forall (fun m => stable (m_text m)) (payload_members p).
Proof.
  destruct p as [[s]|[c m i u]|[g s]|[c r]|[c r]]; cbn; intros Hw;
    repeat (constructor; [first [apply stable_string|apply stable_uint; lia]|]); try done.
  destruct Hw as (_ & _ & Hi & _).
  destruct m, i, u; simpl in *; repeat constructor; try apply stable_string; apply stable_uint; lia.
Qed.

(** The payload of a built signal: nothing, or a stable object of a few members. *)
Lemma built_payload rand kind from to sid p sig :
  newSignal rand kind from to sid p = Ok sig ->
  Validate sig = None /\
  match p with
  | None => Payload sig = []
  | Some p => Payload sig = json_object (printed <$> payload_members p)
  end.
Proof.
  unfold newSignal, encodePayload. destruct p as [p|]; cbv zeta;
    (destruct (Validate _) eqn:E; [discriminate|]); intros Hs; injection Hs as <-; done.
Qed.

Lemma payload_members_shape p : exists m ms, payload_members p = m :: ms /\ (List.length ms <= 3)%nat.
Proof.
  destruct p as [[s]|[c m i u]|[g s]|[c r]|[c r]]; cbn; try (eexists _, _; split; [done|simpl; lia]).
  eexists _, _. split; [done|]. destruct m, i, u; simpl; lia.
Qed.

(** ** Size *)

Lemma escape_rune_length s r n :
  decode_rune s = Some (r, n) -> zlen (escape_rune (Some r) (take n s)) <= 6 * Z.of_nat n.
Proof.
  intros Hd. destruct (decode_rune_width _ _ _ Hd) as [Hn Hl].
  assert (Hb : r < 128 -> n = 1%nat).
  { destruct (decode_rune_bytes _ _ _ Hd) as [[-> _]|(Hr & _)]; [done|lia]. }
  assert (Ht : zlen (take n s) = Z.of_nat n) by (unfold zlen; rewrite length_take; lia).
  unfold escape_rune, zlen in *.
  repeat match goal with |- context [if ?c then _ else _] => destruct c end;
    simpl List.length; rewrite ?length_app, ?length_cons; simpl; lia.
Qed.

Lemma escape_length fuel s : zlen (escape fuel s) <= 6 * zlen s.
Proof.
  revert s. induction fuel as [|f IH]; intros [|c s]; try done; cbn [escape].
  all: try (unfold zlen; simpl; lia).
  destruct (decode_rune (c :: s)) as [[r n]|] eqn:E; rewrite zlen_app.
  - pose proof (escape_rune_length _ _ _ E). specialize (IH (drop n (c :: s))).
    destruct (decode_rune_width _ _ _ E). unfold zlen in *. rewrite length_drop in IH. lia.
  - specialize (IH s). rewrite zlen_cons. unfold zlen in *. simpl. lia.
Qed.

Lemma json_string_length s : zlen (json_string (list_ascii_of_string s)) <= 6 * slen s + 2.
Proof.
  unfold json_string. rewrite zlen_cons, zlen_app.
  pose proof (escape_length (List.length (list_ascii_of_string s)) (list_ascii_of_string s)).
  rewrite slen_bytes. unfold zlen in *. simpl. lia.
Qed.

Lemma json_member_length n t : zlen (json_member (n, t)) = zlen (json_string (list_ascii_of_string n)) + 1 + zlen t.
Proof. unfold json_member. cbn [fst snd]. rewrite !zlen_app. simpl. unfold zlen. simpl. lia. Qed.

Lemma members_text_zlen m ms :
  zlen (members_text m ms) =
  fold_right (fun m a => zlen (json_member (printed m)) + 1 + a) 0 (m :: ms).
Proof.
  revert m. induction ms as [|m' ms IH]; intros m; cbn [members_text fold_right].
  - rewrite zlen_app. done.
  - rewrite zlen_app, zlen_cons, IH. cbn [fold_right]. lia.
Qed.

Lemma validID_length id : validID id = true -> slen id <= 36.
Proof. unfold validID. destruct (Z.eqb_spec (slen id) 32), (Z.eqb_spec (slen id) 36); try done; lia. Qed.

(** What the envelope adds to the payload. *)
Lemma marshal_length s tail :
  Validate s = None ->
  zlen (json_object (printed <$> uint_member "v" (Version s) :: head_members s ++ tail)) <=
  2500 + fold_right (fun m a => zlen (json_member (printed m)) + 1 + a) 0 tail.
Proof.
  rewrite Validate_iff. intros (Hv & Hi & Hs & Hf & Ht & _ & _ & Hb).
  rewrite members_text_object, zlen_cons, members_text_zlen. unfold head_members, printed, str_member, uint_member.
  cbn [app fold_right m_name m_text]. rewrite !json_member_length, Hv.
  pose proof (json_string_length (ID s)). pose proof (validID_length _ Hi).
  pose proof (json_string_length (SessionID s)). pose proof (validID_length _ Hs).
  pose proof (json_string_length (From s)). pose proof (json_string_length (To s)).
  destruct Hf as [Hf _], Ht as [Ht _]. unfold MaxPeerIDLength in *.
  pose proof (json_string_length (Kind s)). assert (slen (Kind s) <= 12).
  { unfold body_ok in Hb.
    repeat match goal with Hx : _ \/ _ |- _ => destruct Hx | Hx : _ /\ _ |- _ => destruct Hx end;
    match goal with Hx : Kind s = _ |- _ => rewrite Hx; vm_compute; discriminate end. }
  assert (Hn : forall n, n ∈ ["v"; "id"; "session_id"; "kind"; "from"; "to"]%string ->
    zlen (json_string (list_ascii_of_string n)) <= 12).
  { intros n Hn. repeat (apply elem_of_cons in Hn as [-> | Hn]; [vm_compute; discriminate|]).
    by apply not_elem_of_nil in Hn. }
  pose proof (Hn "v"%string ltac:(set_solver)). pose proof (Hn "id"%string ltac:(set_solver)).
  pose proof (Hn "session_id"%string ltac:(set_solver)). pose proof (Hn "kind"%string ltac:(set_solver)).
  pose proof (Hn "from"%string ltac:(set_solver)). pose proof (Hn "to"%string ltac:(set_solver)).
  change (zlen (json_uint ProtocolVersion)) with 1. lia.
Qed.

(** ** Decoding the members *)

Ltac member_keys := repeat match goal with
  | |- context [key_is ?a ?b] => let r := eval vm_compute in (key_is a b) in
      change (key_is a b) with r; cbv iota
  end.

Lemma set_struct_cons {P} (set : bytes -> bytes -> json -> P -> result error P) m ms p p' :
  set (list_ascii_of_string (m_name m)) (m_text m) (m_value m) p = Ok p' ->
  set_struct set (JObj (parsed <$> m :: ms)) p = set_struct set (JObj (parsed <$> ms)) p'.
Proof. intros Hs. cbn. by rewrite Hs. Qed.

Lemma decode_head s tail :
  Version s = ProtocolVersion ->
  set_struct set_signal (JObj (parsed <$> uint_member "v" (Version s) :: head_members s ++ tail)) zero_signal =
  set_struct set_signal (JObj (parsed <$> tail))
    (Build_Signal (Version s) (ID s) (SessionID s) (Kind s) (From s) (To s) []).
Proof.
  intros Hv. unfold head_members, zero_signal. cbn [app].
  erewrite set_struct_cons by (cbn [uint_member m_name m_text m_value]; unfold set_signal; member_keys;
    rewrite set_uint_text by (rewrite ?Hv; unfold ProtocolVersion; lia); reflexivity).
  do 5 (erewrite set_struct_cons by (cbn [str_member m_name m_text m_value]; unfold set_signal; member_keys;
    rewrite set_string_bytes; reflexivity)).
  done.
Qed.

Lemma built_survives rand kind from to sid p sig :
  newSignal rand kind from to sid p = Ok sig ->
  match p with Some p => payload_wf p | None => True end ->
  exists raw, marshal_signal sig = Ok raw /\ unmarshal_signal raw = Ok sig /\
    zlen raw < zlen (Payload sig) + Z.shiftl 4 10 /\ zlen raw <= MaxEnvelopeSize + Z.shiftl 4 10.
Proof.
  intros Hn Hwf. destruct (built_payload _ _ _ _ _ _ _ Hn) as [Hval Hp].
  pose proof (head_ok _ Hval) as Hok. pose proof (proj1 (Validate_iff _) Hval) as (Hv & _ & _ & _ & _ & _ & Hlen & _).
  change (Z.shiftl 4 10) with 4096. unfold marshal_signal. cbv zeta.
  destruct p as [p|].
  - destruct (payload_members_shape p) as (m & ms & Hms & Hl3).
    pose proof (payload_members_ok p Hwf) as Hpok. pose proof (payload_members_stable p Hwf) as Hst.
    rewrite Hms in *. pose proof (stable_compact _ (stable_object _ _ Hst)) as Hcomp. rewrite <- Hp in Hcomp.
    assert (Hpm : forall k d, (1 <= k)%nat -> Forall (member_from k d) (m :: ms))
      by (intros; eapply Forall_impl; [exact Hpok|]; intros; by apply member_ok_from).
    assert (Hparse : unmarshal_value (Payload sig) = Ok (JObj (parsed <$> m :: ms))).
    { unfold unmarshal_value. apply Forall_cons in Hpok as [Hpm1 Hpms]. rewrite Hp, object_parse; done. }
    assert (Hz : zlen (Payload sig) =? 0 = false).
    { rewrite Hp, members_text_object, zlen_cons. pose proof (zlen_nonneg (members_text m ms)). lia. }
    rewrite Hz, Hparse. set (pm := payload_member sig (JObj (parsed <$> m :: ms))).
    assert (Hpay : member_from 6 1 pm).
    { split; [done|]. cbn [pm payload_member m_text m_value]. rewrite Hcomp, Hp.
      eapply reads_from_mono, (reads_object 1); [lia|by apply Hpm|done]. }
    eexists. split; [reflexivity|]. split; [|].
    + unfold unmarshal_signal, unmarshal_value.
      pose proof (object_parse_fuel 6 (uint_member "v" (Version sig)) (head_members sig ++ [pm])) as Ho.
      cbv zeta in Ho. rewrite Ho.
      * cbn [skip_ws]. rewrite decode_head by done.
        erewrite set_struct_cons by (cbn [pm payload_member m_name m_text m_value]; unfold set_signal; member_keys; reflexivity).
        rewrite Hcomp. by destruct sig.
      * apply Forall_cons in Hok as [Hh Ht]. constructor; [by apply member_ok_from; [lia|]|].
        apply Forall_app_2; [|by constructor]. eapply Forall_impl; [exact Ht|]. intros. apply member_ok_from; [lia|done].
      * rewrite members_text_object. simpl.  pose proof (members_text_length (uint_member "v" (Version sig)) (head_members sig ++ [pm])) as Hl.
        rewrite length_app in Hl. simpl in Hl. lia.
    + pose proof (marshal_length sig [pm] Hval) as Hl. cbn [fold_right] in Hl.
      change (printed pm) with ("payload"%string, compact false false (Payload sig)) in Hl.
      rewrite json_member_length, Hcomp in Hl.
      change (zlen (json_string (list_ascii_of_string "payload"))) with 9 in Hl. lia.
  - rewrite Hp. change (zlen (@nil ascii) =? 0) with true. cbv iota. eexists. split; [reflexivity|]. split.
    + unfold unmarshal_signal, unmarshal_value. pose proof (decode_head sig [] Hv) as Hd. rewrite app_nil_r in Hd.
      apply Forall_cons in Hok as [Hh Ht]. rewrite object_parse by done. cbn [skip_ws]. rewrite Hd.
      change (parsed <$> []) with (@nil (bytes * bytes * json)). cbn [set_struct fold_left].
      rewrite <- Hp. by destruct sig.
    + pose proof (marshal_length sig [] Hval) as Hl. rewrite app_nil_r in Hl. cbn [fold_right] in Hl.
      change (zlen (@nil ascii)) with 0. change MaxEnvelopeSize with 262144. lia.
Qed.

(** C36. What [newSignal] built survives the wire: marshalling succeeds, unmarshalling the
    bytes gives back the same signal, its payload byte for byte, and the envelope adds less
    than 4 KiB to the payload, so a body limit with that slack never refuses it. The
    payload's strings are in valid UTF-8, as what the decoder accepts always is. *)
Theorem built_signal_survives_wire rand kind from to sid p sig :
  newSignal rand kind from to sid p = Ok sig ->
  match p with Some p => payload_wf p | None => True end ->
  exists raw, marshal_signal sig = Ok raw /\ unmarshal_signal raw = Ok sig /\
    zlen raw < zlen (Payload sig) + Z.shiftl 4 10 /\ zlen raw <= MaxEnvelopeSize + Z.shiftl 4 10.
Proof. apply built_survives. Qed.

Example built_signal_survives_wire_witness :
  exists sig raw,
    newSignal (replicate 16 (byte_of 7)) KindReject "alice" "bob" "fedcba9876543210fedcba9876543210"
      (Some (PReject {| jp_Code := RejectBusy; jp_Reason := "a<b" |})) = Ok sig /\
    marshal_signal sig = Ok raw /\ unmarshal_signal raw = Ok sig /\ List.length raw = 183%nat.
Proof.
  destruct (newSignal (replicate 16 (byte_of 7)) KindReject "alice" "bob" "fedcba9876543210fedcba9876543210"
    (Some (PReject {| jp_Code := RejectBusy; jp_Reason := "a<b" |}))) as [sig|] eqn:Hn;
    [|vm_compute in Hn; discriminate].
  destruct (built_signal_survives_wire _ _ _ _ _ _ _ Hn) as (raw & Hm & Hu & _); [by vm_compute|].
  exists sig, raw. split; [reflexivity|]. split; [exact Hm|]. split; [exact Hu|].
  vm_compute in Hn. injection Hn as <-. vm_compute in Hm. injection Hm as <-. vm_compute. reflexivity.
Defined.
