(* ===== verification/Config.v ===== *)
(** * Endpoint configuration (config.go)

    [clone] checks a configuration and fills in the documented defaults. Durations are
    nanoseconds; the two floating-point fields of the backoff are IEEE 754 values, so
    that comparisons with NaN are as the code has them. The fields that only carry
    handles (signaler, logger, metrics, clock, Pion options) are their presence. *)

From Stdlib Require Import SpecFloat.
From Stdlib Require Import String.
From S2P Require Import Prelude.
From S2P Require Import Utf8.
From S2P Require Import Errors.
From S2P Require Import Floats.
From S2P Require Import Stream.
From S2P Require Import Json.
From S2P Require Import JsonCodec.
From S2P Require Import Signal.
From S2P Require Import Strings.

(** ** Constants *)

Definition DefaultDialTimeout : Z := 30 * second.
Definition DefaultICETimeout : Z := 20 * second.
Definition DefaultAcceptBacklog : Z := 64.
Definition DefaultFramePayload : Z := Z.shiftl 16 10.
Definition DefaultReadBuffer : Z := Z.shiftl 1 20.
Definition MaxFramePayload : Z := Z.shiftl 256 10.
Definition signalSendTimeout : Z := 10 * second.
Definition dedupeCacheSize : Z := 4096.

(** ** Data *)

(** [ICECredentialType] and [ICETransportPolicy] are [int]s with named values. *)
Definition ICECredentialPassword : Z := 0.
Definition ICECredentialOAuth : Z := 1.
Definition ICECredentialType_String (t : Z) : string :=
  if t =? ICECredentialPassword then "password" else if t =? ICECredentialOAuth then "oauth"
  else "unknown".

Definition ICETransportPolicyAll : Z := 0.
Definition ICETransportPolicyRelay : Z := 1.
Definition ICETransportPolicy_String (p : Z) : string :=
  if p =? ICETransportPolicyAll then "all" else if p =? ICETransportPolicyRelay then "relay"
  else "unknown".

Record ICEServer := { URLs : list string; Username : string; Credential : string;
                      CredentialType : Z }.

Record KeepAliveConfig := { Interval : Z; Timeout : Z }.

Record Backoff := { Initial : Z; Maximum : Z; Factor : spec_float; Jitter : spec_float }.

Record ReconnectPolicy := { Enabled : bool; MaxAttempts : Z; AttemptTimeout : Z;
                            rp_Backoff : Backoff }.

Record Config := {
  cfg_ID : string; Signaler : bool; ICEServers : list ICEServer; TransportPolicy : Z;
  DialTimeout : Z; ICETimeout : Z; KeepAlive : KeepAliveConfig; Reconnect : ReconnectPolicy;
  AcceptBacklog : Z; AllowPeer : option (string -> bool); FramePayload : Z; ReadBuffer : Z
}.

#[export] Instance Config_eta : Eta Config := fun c => {|
  cfg_ID := cfg_ID c; Signaler := Signaler c; ICEServers := ICEServers c;
  TransportPolicy := TransportPolicy c; DialTimeout := DialTimeout c;
  ICETimeout := ICETimeout c; KeepAlive := KeepAlive c; Reconnect := Reconnect c;
  AcceptBacklog := AcceptBacklog c; AllowPeer := AllowPeer c;
  FramePayload := FramePayload c; ReadBuffer := ReadBuffer c |}.

(** ** Validation *)

(** The scheme of a URL, and whether it needs a credential. *)
Definition url_turn (raw : string) : result error bool :=
  match cut (chr ":") (list_ascii_of_string raw) with
  | None => Err (errorf ErrConfig "URL %q is not a valid ICE URL" None)
  | Some (scheme, rest) =>
    if zlen rest =? 0 then Err (errorf ErrConfig "URL %q is not a valid ICE URL" None)
    else if bool_decide (to_lower scheme = "stun"%string) ||
            bool_decide (to_lower scheme = "stuns"%string) then Ok false
    else if bool_decide (to_lower scheme = "turn"%string) ||
            bool_decide (to_lower scheme = "turns"%string) then Ok true
    else Err (errorf ErrConfig "URL %q must use the stun, stuns, turn, or turns scheme" None)
  end.

(** The loop over the URLs: the first error, or whether one of them was TURN. *)
Fixpoint urls_turn (urls : list string) (needs : bool) : result error bool :=
  match urls with
  | [] => Ok needs
  | u :: urls' =>
    match url_turn u with
    | Err e => Err e
    | Ok t => urls_turn urls' (needs || t)
    end
  end.

Definition validateICEServer (s : ICEServer) : option error :=
  if (List.length (URLs s) =? 0)%nat then Some (errorf ErrConfig "at least one URL is required" None)
  else
    match urls_turn (URLs s) false with
    | Err e => Some e
    | Ok needsCredential =>
      if CredentialType s =? ICECredentialOAuth then
        Some (errorf ErrConfig "OAuth ICE credentials are not supported" None)
      else if negb (CredentialType s =? ICECredentialPassword) then
        Some (errorf ErrConfig "unknown credential type %d" None)
      else
        let noUser := slen (Username s) =? 0 in
        let noCred := slen (Credential s) =? 0 in
        if needsCredential && (noUser || noCred) then
          Some (errorf ErrConfig "TURN URLs require a username and credential" None)
        else if negb needsCredential && (negb noUser || negb noCred) then
          Some (errorf ErrConfig "STUN URLs must not carry credentials" None)
        else None
    end.

(** The first server in error. *)
Fixpoint validateICEServers (l : list ICEServer) : option error :=
  match l with
  | [] => None
  | s :: l' =>
    match validateICEServer s with
    | Some e => Some (errorf ErrConfig "pipe: config ICEServers[%d]: %w" (Some e))
    | None => validateICEServers l'
    end
  end.

(** The scheme [strings.Cut] gives a URL: all of it without a colon. *)
Definition url_scheme (raw : string) : string :=
  match cut (chr ":") (list_ascii_of_string raw) with
  | Some (scheme, _) => to_lower scheme
  | None => to_lower (list_ascii_of_string raw)
  end.

Definition hasTURN (servers : list ICEServer) : bool :=
  existsb (fun s => existsb (fun raw =>
    bool_decide (url_scheme raw = "turn"%string) ||
    bool_decide (url_scheme raw = "turns"%string)) (URLs s)) servers.

Definition setTimeout (field def : Z) (name : string) : result error Z :=
  if field =? 0 then Ok def
  else if field <? 0 then Err (errorf ErrConfig "pipe: config %s must not be negative" None)
  else Ok field.

Definition validateKeepAlive (ka : KeepAliveConfig) : result error KeepAliveConfig :=
  if (Interval ka <? 0) || (Timeout ka <? 0) then
    Err (errorf ErrConfig "pipe: config KeepAlive durations must not be negative" None)
  else if Interval ka =? 0 then Ok {| Interval := 0; Timeout := 0 |}
  else
    let timeout := if Timeout ka =? 0 then Interval ka else Timeout ka in
    if Interval ka <? timeout then
      Err (errorf ErrConfig "pipe: config KeepAlive.Timeout must not exceed KeepAlive.Interval" None)
    else Ok {| Interval := Interval ka; Timeout := timeout |}.

Definition defaultReconnectPolicy : ReconnectPolicy :=
  {| Enabled := true; MaxAttempts := 3; AttemptTimeout := 10 * second;
     rp_Backoff := {| Initial := 500 * millisecond; Maximum := 5 * second;
                      Factor := f_two; Jitter := f_fifth |} |}.

(** [*rp == (ReconnectPolicy{})]: floats compare with [==]. *)
Definition reconnect_zero (rp : ReconnectPolicy) : bool :=
  negb (Enabled rp) && (MaxAttempts rp =? 0) && (AttemptTimeout rp =? 0) &&
  (Initial (rp_Backoff rp) =? 0) && (Maximum (rp_Backoff rp) =? 0) &&
  SFeqb (Factor (rp_Backoff rp)) f_zero && SFeqb (Jitter (rp_Backoff rp)) f_zero.

Definition validateReconnect (rp : ReconnectPolicy) : result error ReconnectPolicy :=
  if reconnect_zero rp then Ok defaultReconnectPolicy
  else if negb (Enabled rp) then Ok rp
  else if MaxAttempts rp <=? 0 then
    Err (errorf ErrConfig "pipe: config Reconnect.MaxAttempts must be positive when enabled" None)
  else if AttemptTimeout rp <=? 0 then
    Err (errorf ErrConfig "pipe: config Reconnect.AttemptTimeout must be positive when enabled" None)
  else
    let b := rp_Backoff rp in
    if (Initial b <? 0) || (Maximum b <? 0) then
      Err (errorf ErrConfig "pipe: config Reconnect.Backoff durations must not be negative" None)
    else
      let initial := if Initial b =? 0 then 500 * millisecond else Initial b in
      let maximum := if Maximum b =? 0 then 5 * second else Maximum b in
      if maximum <? initial then
        Err (errorf ErrConfig "pipe: config Reconnect.Backoff.Maximum must be at least Initial" None)
      else
        let factor := if SFeqb (Factor b) f_zero then f_two else Factor b in
        if SFltb factor f_one then
          Err (errorf ErrConfig "pipe: config Reconnect.Backoff.Factor must be at least 1" None)
        else if SFltb (Jitter b) f_zero || SFltb f_one (Jitter b) then
          Err (errorf ErrConfig "pipe: config Reconnect.Backoff.Jitter must be in [0, 1]" None)
        else
          Ok {| Enabled := true; MaxAttempts := MaxAttempts rp; AttemptTimeout := AttemptTimeout rp;
                rp_Backoff := {| Initial := initial; Maximum := maximum; Factor := factor;
                                 Jitter := Jitter b |} |}.

(** [clone]. The nil logger, metrics and clock become their defaults, which the model
    does not distinguish. *)
Definition clone (cfg : Config) : result error Config :=
  match validPeerID (cfg_ID cfg) with
  | Some e => Err (errorf ErrConfig "pipe: config ID: %w" (Some e))
  | None =>
    if negb (Signaler cfg) then Err (errorf ErrConfig "pipe: config Signaler is required" None)
    else
      match validateICEServers (ICEServers cfg) with
      | Some e => Err e
      | None =>
        if negb ((TransportPolicy cfg =? ICETransportPolicyAll) ||
                 (TransportPolicy cfg =? ICETransportPolicyRelay)) then
          Err (errorf ErrConfig "pipe: config ICETransportPolicy %d is unknown" None)
        else if (TransportPolicy cfg =? ICETransportPolicyRelay) && negb (hasTURN (ICEServers cfg)) then
          Err (errorf ErrConfig "pipe: config ICETransportPolicy relay requires a TURN server" None)
        else
          match setTimeout (DialTimeout cfg) DefaultDialTimeout "DialTimeout" with
          | Err e => Err e
          | Ok dialTimeout =>
            match setTimeout (ICETimeout cfg) DefaultICETimeout "ICETimeout" with
            | Err e => Err e
            | Ok iceTimeout =>
              let backlog := if AcceptBacklog cfg =? 0 then DefaultAcceptBacklog else AcceptBacklog cfg in
              if backlog <? 0 then
                Err (errorf ErrConfig "pipe: config AcceptBacklog must not be negative" None)
              else
                let payload := if FramePayload cfg =? 0 then DefaultFramePayload else FramePayload cfg in
                if (payload <? 0) || (MaxFramePayload <? payload) then
                  Err (errorf ErrConfig "pipe: config FramePayload must be in (0, %d]" None)
                else
                  let readBuffer := if ReadBuffer cfg =? 0 then DefaultReadBuffer else ReadBuffer cfg in
                  if readBuffer <? payload then
                    Err (errorf ErrConfig "pipe: config ReadBuffer must be at least FramePayload (%d)" None)
                  else
                    match validateKeepAlive (KeepAlive cfg) with
                    | Err e => Err e
                    | Ok ka =>
                      match validateReconnect (Reconnect cfg) with
                      | Err e => Err e
                      | Ok rp =>
                        Ok (cfg <| DialTimeout := dialTimeout |> <| ICETimeout := iceTimeout |>
                                <| AcceptBacklog := backlog |> <| FramePayload := payload |>
                                <| ReadBuffer := readBuffer |> <| KeepAlive := ka |>
                                <| Reconnect := rp |>)
                      end
                    end
            end
          end
      end
  end.

(** ** What an accepted configuration satisfies *)

Record config_ok (c : Config) : Prop := {
  ok_id : peer_ok (cfg_ID c);
  ok_signaler : Signaler c = true;
  ok_servers : Forall (fun s => validateICEServer s = None) (ICEServers c);
  ok_policy : TransportPolicy c = ICETransportPolicyAll \/
    (TransportPolicy c = ICETransportPolicyRelay /\ hasTURN (ICEServers c) = true);
  ok_dial : 0 < DialTimeout c;
  ok_ice : 0 < ICETimeout c;
  ok_backlog : 0 < AcceptBacklog c;
  ok_payload : 0 < FramePayload c <= MaxFramePayload;
  ok_readbuf : FramePayload c <= ReadBuffer c;
  ok_keepalive : (Interval (KeepAlive c) = 0 /\ Timeout (KeepAlive c) = 0) \/
    0 < Timeout (KeepAlive c) <= Interval (KeepAlive c);
  ok_reconnect : reconnect_zero (Reconnect c) = false;
  ok_attempts : Enabled (Reconnect c) = true ->
    0 < MaxAttempts (Reconnect c) /\ 0 < AttemptTimeout (Reconnect c) /\
    0 < Initial (rp_Backoff (Reconnect c)) <= Maximum (rp_Backoff (Reconnect c)) /\
    SFeqb (Factor (rp_Backoff (Reconnect c))) f_zero = false /\
    SFltb (Factor (rp_Backoff (Reconnect c))) f_one = false /\
    SFltb (Jitter (rp_Backoff (Reconnect c))) f_zero = false /\
    SFltb f_one (Jitter (rp_Backoff (Reconnect c))) = false
}.

Lemma validateICEServers_spec l :
  validateICEServers l = None <-> Forall (fun s => validateICEServer s = None) l.
Proof.
  induction l as [|s l IH]; simpl; [by split|].
  destruct (validateICEServer s) eqn:E.
  - split; [done|]. intros H. apply Forall_cons in H as [? _]. congruence.
  - rewrite IH. split; [by constructor|]. intros H. by apply Forall_cons in H as [_ ?].
Qed.

Lemma setTimeout_spec field def name t :
  0 < def -> setTimeout field def name = Ok t -> 0 < t /\ (field = 0 -> t = def) /\ (0 < field -> t = field).
Proof.
  intros Hd. unfold setTimeout. destruct (Z.eqb_spec field 0); [intros [= <-]; lia|].
  destruct (Z.ltb_spec field 0); [done|]. intros [= <-]. lia.
Qed.

Lemma validateKeepAlive_spec ka ka' :
  validateKeepAlive ka = Ok ka' ->
  (Interval ka' = 0 /\ Timeout ka' = 0) \/ 0 < Timeout ka' <= Interval ka'.
Proof.
  unfold validateKeepAlive.
  destruct (Z.ltb_spec (Interval ka) 0), (Z.ltb_spec (Timeout ka) 0); simpl; try done.
  destruct (Z.eqb_spec (Interval ka) 0); [intros [= <-]; by left|].
  destruct (Z.eqb_spec (Timeout ka) 0).
  - destruct (Z.ltb_spec (Interval ka) (Interval ka)); [done|]. intros [= <-]. right. simpl. lia.
  - destruct (Z.ltb_spec (Interval ka) (Timeout ka)); [done|]. intros [= <-]. right. simpl. lia.
Qed.

Lemma validateReconnect_spec rp rp' :
  validateReconnect rp = Ok rp' ->
  reconnect_zero rp' = false /\
  (Enabled rp' = true ->
    0 < MaxAttempts rp' /\ 0 < AttemptTimeout rp' /\
    0 < Initial (rp_Backoff rp') <= Maximum (rp_Backoff rp') /\
    SFeqb (Factor (rp_Backoff rp')) f_zero = false /\
    SFltb (Factor (rp_Backoff rp')) f_one = false /\
    SFltb (Jitter (rp_Backoff rp')) f_zero = false /\
    SFltb f_one (Jitter (rp_Backoff rp')) = false).
Proof.
  unfold validateReconnect. destruct (reconnect_zero rp) eqn:Ez; [by intros [= <-]|].
  destruct (Enabled rp) eqn:Ee; simpl; [|intros [= <-]; by rewrite Ee].
  destruct (Z.leb_spec (MaxAttempts rp) 0); [done|].
  destruct (Z.leb_spec (AttemptTimeout rp) 0); [done|].
  destruct (Z.ltb_spec (Initial (rp_Backoff rp)) 0), (Z.ltb_spec (Maximum (rp_Backoff rp)) 0);
    simpl; try done.
  set (i := if Initial (rp_Backoff rp) =? 0 then _ else _).
  set (m := if Maximum (rp_Backoff rp) =? 0 then _ else _).
  assert (Hi : 0 < i) by (unfold i; destruct (Z.eqb_spec (Initial (rp_Backoff rp)) 0);
    unfold millisecond; lia).
  destruct (Z.ltb_spec m i); [done|].
  set (f := if SFeqb _ _ then _ else _).
  assert (Hf : SFeqb f f_zero = false) by (unfold f; by destruct (SFeqb _ f_zero) eqn:E).
  destruct (SFltb f f_one) eqn:Ef; [done|].
  destruct (SFltb (Jitter (rp_Backoff rp)) f_zero) eqn:Ej; [done|].
  destruct (SFltb f_one (Jitter (rp_Backoff rp))) eqn:Ej1; [done|].
  intros [= <-]. simpl. split; [done|]. intros _. split_and!; done || lia.
Qed.

Lemma clone_ok cfg out : clone cfg = Ok out -> config_ok out.
Proof.
  unfold clone. destruct (validPeerID (cfg_ID cfg)) eqn:Ei; [done|].
  destruct (Signaler cfg) eqn:Es; [simpl|done].
  destruct (validateICEServers (ICEServers cfg)) eqn:Ev; [done|].
  destruct (Z.eqb_spec (TransportPolicy cfg) ICETransportPolicyAll) as [Ea|Ea];
    destruct (Z.eqb_spec (TransportPolicy cfg) ICETransportPolicyRelay) as [Er|Er]; simpl; try done.
  1: rewrite Ea in Er; done.
  all: try (destruct (hasTURN (ICEServers cfg)) eqn:Et; [simpl|done]).
  all: destruct (setTimeout (DialTimeout cfg) _ _) eqn:Ed; [|done];
    apply setTimeout_spec in Ed as [Hd _]; [|done].
  all: destruct (setTimeout (ICETimeout cfg) _ _) eqn:Ec; [|done];
    apply setTimeout_spec in Ec as [Hc _]; [|done].
  all: set (backlog := if AcceptBacklog cfg =? 0 then _ else _);
    assert (Hb0 : backlog <> 0) by (unfold backlog; destruct (Z.eqb_spec (AcceptBacklog cfg) 0); done);
    destruct (Z.ltb_spec backlog 0); [done|].
  all: set (pl := if FramePayload cfg =? 0 then _ else _);
    assert (Hp0 : pl <> 0) by (unfold pl; destruct (Z.eqb_spec (FramePayload cfg) 0); done);
    destruct (Z.ltb_spec pl 0), (Z.ltb_spec MaxFramePayload pl); simpl; try done.
  all: destruct (Z.ltb_spec (if ReadBuffer cfg =? 0 then DefaultReadBuffer else ReadBuffer cfg) pl); [done|].
  all: destruct (validateKeepAlive (KeepAlive cfg)) eqn:Ek; [|done]; apply validateKeepAlive_spec in Ek.
  all: destruct (validateReconnect (Reconnect cfg)) eqn:Erp; [|done];
    apply validateReconnect_spec in Erp as [Hz Hr].
  all: intros [= <-]; constructor; simpl; try done; try lia; auto.
  all: first [by apply validPeerID_spec | by apply validateICEServers_spec].
Qed.

Lemma config_ok_clone c : config_ok c -> clone c = Ok c.
Proof.
  intros []. unfold clone. rewrite (proj2 (validPeerID_spec _) ok_id0), ok_signaler0. simpl.
  rewrite (proj2 (validateICEServers_spec _) ok_servers0).
  assert (Hp : negb ((TransportPolicy c =? ICETransportPolicyAll) ||
                     (TransportPolicy c =? ICETransportPolicyRelay)) = false /\
               (TransportPolicy c =? ICETransportPolicyRelay) && negb (hasTURN (ICEServers c)) = false).
  { destruct ok_policy0 as [-> | [-> ->]]; done. }
  destruct Hp as [-> ->].
  unfold setTimeout. rewrite !(proj2 (Z.eqb_neq _ _)) by lia.
  rewrite !(proj2 (Z.ltb_ge _ _)) by lia. simpl.
  assert (Hk : validateKeepAlive (KeepAlive c) = Ok (KeepAlive c)).
  { unfold validateKeepAlive. destruct (KeepAlive c) as [i t]; simpl in *.
    destruct ok_keepalive0 as [[-> ->]|Ht]; [done|].
    rewrite !(proj2 (Z.eqb_neq _ _)), !(proj2 (Z.ltb_ge _ _)) by lia. done. }
  rewrite Hk.
  assert (Hr : validateReconnect (Reconnect c) = Ok (Reconnect c)).
  { unfold validateReconnect. rewrite ok_reconnect0.
    destruct (Reconnect c) as [en ma at_ [i m f j]]; simpl in *. destruct en; [simpl|done].
    destruct ok_attempts0 as (H1 & H2 & H3 & H4 & H5 & H6 & H7); [done|].
    rewrite !(proj2 (Z.leb_gt _ _)) by lia.
    rewrite !(proj2 (Z.eqb_neq _ _)), !(proj2 (Z.ltb_ge _ _)) by lia. simpl.
    by rewrite H4, H5, H6, H7. }
  rewrite Hr. by destruct c.
Qed.

(** Walks the branches of a check down to its errors. *)
Ltac err_branches H :=
  cbv zeta in H;
  repeat match type of H with
  | (if ?c then _ else _) = Err _ => destruct c
  | match (if ?c then _ else _) with Ok _ => _ | Err _ => _ end = Err _ => destruct c
  | match Ok _ with Ok _ => _ | Err _ => _ end = Err _ => cbv iota in H
  | match Err _ with Ok _ => _ | Err _ => _ end = Err _ => cbv iota in H
  | match ?c with _ => _ end = Err _ => destruct c eqn:?
  end;
  first [discriminate H | injection H as <-; first [apply errIs_category | eauto]].


(** NaN is neither below 1 nor outside [0, 1] for the comparisons of the code. *)
Definition nan_policy : ReconnectPolicy :=
  {| Enabled := true; MaxAttempts := 1; AttemptTimeout := second;
     rp_Backoff := {| Initial := second; Maximum := second; Factor := S754_nan; Jitter := S754_nan |} |}.

Lemma reconnect_accepts_nan : validateReconnect nan_policy = Ok nan_policy.
Proof. reflexivity. Qed.
