(* ===== verification/Conn.v ===== *)
(** * Connections: errors, addresses and the public state (conn.go, stats.go)

    A [Conn] wraps a stream: its I/O methods translate the stream's errors into
    categorised [net.OpError]s, its [Close] publishes the closing states around the
    stream's close, and the owning session publishes state and statistics. Each method
    is the sequence of its atomic steps, so that concurrent calls interleave. *)

From Stdlib Require Import String.
From S2P Require Import Prelude.
From S2P Require Import Errors.

(** ** stats.go *)

Inductive ConnectionState :=
| StateNew | StateSignaling | StateConnecting | StateConnected | StateRecovering
| StateClosing | StateClosed.

#[export] Instance ConnectionState_eq_dec : EqDecision ConnectionState.
Proof. solve_decision. Defined.

Definition ConnectionState_String (s : ConnectionState) : string :=
  match s with
  | StateNew => "new" | StateSignaling => "signaling" | StateConnecting => "connecting"
  | StateConnected => "connected" | StateRecovering => "recovering"
  | StateClosing => "closing" | StateClosed => "closed"
  end.

Inductive role := roleOfferer | roleAnswerer.

#[export] Instance role_eq_dec : EqDecision role.
Proof. solve_decision. Defined.

Definition role_String (r : role) : string :=
  match r with roleOfferer => "offerer" | roleAnswerer => "answerer" end.

(** ** Data *)

Record sessionStats := { ICERestarts : Z; LocalCandidate : string; RemoteCandidate : string;
                         KeepAliveRTT : Z }.

#[export] Instance sessionStats_eta : Eta sessionStats := fun s => {|
  ICERestarts := ICERestarts s; LocalCandidate := LocalCandidate s;
  RemoteCandidate := RemoteCandidate s; KeepAliveRTT := KeepAliveRTT s |}.

Record Conn := {
  c_peer : string; c_local : string; c_session : string; c_role : role;
  localAddr : Addr; remoteAddr : Addr;
  c_state : ConnectionState; c_closed : bool;
  establishedAt : Z; connectDuration : Z; snapshot : sessionStats
}.

#[export] Instance Conn_eta : Eta Conn := fun c => {|
  c_peer := c_peer c; c_local := c_local c; c_session := c_session c; c_role := c_role c;
  localAddr := localAddr c; remoteAddr := remoteAddr c; c_state := c_state c;
  c_closed := c_closed c; establishedAt := establishedAt c;
  connectDuration := connectDuration c; snapshot := snapshot c |}.

(** [newConn]. *)
Definition newConn (peer local session : string) (r : role) (now connectDuration : Z) : Conn := {|
  c_peer := peer; c_local := local; c_session := session; c_role := r;
  localAddr := {| addr_peer := local; addr_session := session |};
  remoteAddr := {| addr_peer := peer; addr_session := session |};
  c_state := StateConnected; c_closed := false;
  establishedAt := now; connectDuration := connectDuration;
  snapshot := {| ICERestarts := 0; LocalCandidate := ""; RemoteCandidate := ""; KeepAliveRTT := 0 |}
|}.

(** ** Errors *)

(** [wrap]: nil stays nil and EOF passes unchanged. *)
Definition wrap (c : Conn) (op : string) (err : option error) : option error :=
  match err with
  | None => None
  | Some e =>
    if errIs e io_EOF then Some (ESent io_EOF)
    else
      let categorized :=
        if errIs e os_ErrDeadlineExceeded then Some deadlineError
        else if errIs e ErrClosed then Some e
        else if errIs e frame_ErrProtocol then
          wrapErr ErrProtocol (Some e) "pipe: stream protocol violation"
        else wrapErr ErrDisconnected (Some e) "pipe: stream failed" in
      opError op (localAddr c) (Some (remoteAddr c)) categorized
  end.

(** [Read], [Write] and the deadline setters, over what the stream returned. *)
Definition conn_Read (c : Conn) (r : bytes * option error) : bytes * option error :=
  (fst r, wrap c "read" (snd r)).
Definition conn_Write (c : Conn) (r : Z * option error) : Z * option error :=
  (fst r, wrap c "write" (snd r)).
Definition conn_SetDeadline (c : Conn) (r : option error) : option error := wrap c "set" r.

(** ** State *)

(** [setState]: the compare-and-swap loop, which gives up on a terminal state. *)
Definition setState (s : ConnectionState) (c : Conn) : Conn :=
  if bool_decide (c_state c = StateClosed) then c else c <| c_state := s |>.

(** [updateStats]. *)
Definition updateStats (f : sessionStats -> sessionStats) (c : Conn) : Conn :=
  c <| snapshot ::= f |>.

(** [Stats], over the stream's counters. *)
Record ConnStats := {
  st_State : ConnectionState; st_BytesRead : Z; st_BytesWritten : Z; st_FramesRead : Z;
  st_FramesWritten : Z; st_EstablishedAt : Z; st_ConnectDuration : Z; st_ICERestarts : Z;
  st_LocalCandidate : string; st_RemoteCandidate : string; st_KeepAliveRTT : Z }.

Definition conn_Stats (c : Conn) (bytesRead bytesWritten framesRead framesWritten : Z) : ConnStats := {|
  st_State := c_state c; st_BytesRead := bytesRead; st_BytesWritten := bytesWritten;
  st_FramesRead := framesRead; st_FramesWritten := framesWritten;
  st_EstablishedAt := establishedAt c; st_ConnectDuration := connectDuration c;
  st_ICERestarts := ICERestarts (snapshot c); st_LocalCandidate := LocalCandidate (snapshot c);
  st_RemoteCandidate := RemoteCandidate (snapshot c); st_KeepAliveRTT := KeepAliveRTT (snapshot c) |}.

(** [Close], step by step: the swap, the first store, the stream's close and the
    session's, the last store. *)
Definition close_begin (c : Conn) : bool * Conn := (negb (c_closed c), c <| c_closed := true |>).
Definition close_closing (c : Conn) : Conn := c <| c_state := StateClosing |>.
Definition close_closed (c : Conn) : Conn := c <| c_state := StateClosed |>.

(** What [Close] returns: [first] from the swap, [err] from the stream. *)
Definition close_result (c : Conn) (first : bool) (err : option error) : option error :=
  if negb first then None else wrap c "close" err.

(** One call with nothing in between. *)
Definition conn_Close (c : Conn) (err : option error) : option error * Conn :=
  let '(first, c) := close_begin c in
  let c := close_closed (close_closing c) in
  (close_result c first err, c).

(** ** Properties *)

Lemma wrap_cases c op e :
  wrap c op (Some e) = Some (ESent io_EOF) /\ errIs e io_EOF = true \/
  exists e', wrap c op (Some e) = Some (EOp op networkName (localAddr c) (Some (remoteAddr c)) e') /\
    errIs e io_EOF = false /\ is_categorised e' = true /\
    (errIs e os_ErrDeadlineExceeded = true -> netTimeout e' = Some true /\ errIs e' ErrTimeout = true /\
       errIs e' os_ErrDeadlineExceeded = true) /\
    (errIs e os_ErrDeadlineExceeded = false -> forall t, errIs e t = true -> errIs e' t = true).
Proof.
  unfold wrap, wrapErr, opError. destruct (errIs e io_EOF) eqn:E1; [by left|right].
  destruct (errIs e os_ErrDeadlineExceeded) eqn:E2.
  { eexists. split; [reflexivity|]. split_and!; done. }
  destruct (errIs e ErrClosed) eqn:E3.
  { eexists. split; [reflexivity|]. split; [done|]. split; [|done].
    unfold is_categorised. simpl. by rewrite E3. }
  destruct (errIs e frame_ErrProtocol) eqn:E4; eexists; (split; [reflexivity|]);
    (split; [done|]); (split; [apply errorf_categorised; repeat constructor|]);
    (split; [done|]); intros _ t Ht; simpl; rewrite Ht; apply orb_true_r.
Qed.

(** C32. Whatever error the stream returns, the application sees [io.EOF] itself, or a
    [net.OpError] with the connection's addresses whose cause matches one of the
    promised categories: a deadline is a timeout in both the [net.Error] and the
    category sense, and any other cause stays visible to [errors.Is]. Nothing becomes an
    error, and no error becomes nothing. *)
Theorem wrap_categorised c op err :
  (wrap c op err = None <-> err = None) /\
  forall e, err = Some e ->
    (errIs e io_EOF = true -> wrap c op err = Some (ESent io_EOF)) /\
    (errIs e io_EOF = false ->
     exists e', wrap c op err = Some (EOp op networkName (localAddr c) (Some (remoteAddr c)) e') /\
       is_categorised e' = true /\
       (errIs e os_ErrDeadlineExceeded = true -> netTimeout e' = Some true /\ errIs e' ErrTimeout = true /\
          errIs e' os_ErrDeadlineExceeded = true) /\
       (errIs e os_ErrDeadlineExceeded = false -> forall t, errIs e t = true -> errIs e' t = true)).
Proof.
  split.
  - destruct err as [e|]; [|done]. split; [|done].
    destruct (wrap_cases c op e) as [[-> _]|(e' & -> & _)]; done.
  - intros e ->. destruct (wrap_cases c op e) as [[-> H]|(e' & -> & H & Hr)].
    + rewrite H. done.
    + rewrite H. split; [done|]. intros _. exists e'. done.
Qed.

Example wrap_categorised_witness :
  exists e', wrap (newConn "bob" "alice" "s" roleOfferer 0 0) "read" (Some (ESent os_ErrDeadlineExceeded)) =
    Some (EOp "read" networkName {| addr_peer := "alice"; addr_session := "s" |}
            (Some {| addr_peer := "bob"; addr_session := "s" |}) e') /\ is_categorised e' = true.
Proof.
  destruct (wrap_categorised (newConn "bob" "alice" "s" roleOfferer 0 0) "read"
    (Some (ESent os_ErrDeadlineExceeded))) as [_ H].
  destruct (H _ eq_refl) as [_ H2]. destruct H2 as (e' & He & Hc & _); [reflexivity|].
  exists e'. split; [exact He|exact Hc].
Defined.

(** Only [setState] respects the terminal state: a second [Close] stores the closing
    state over it, so that the connection leaves [StateClosed]. *)
Lemma second_close_leaves_closed c err :
  c_state (snd (conn_Close c err)) = StateClosed /\
  c_state (close_closing (snd (close_begin (snd (conn_Close c err))))) = StateClosing.
Proof. done. Qed.

(** The session's updates keep it. *)
Lemma setState_terminal s c : c_state c = StateClosed -> setState s c = c.
Proof. intros H. unfold setState. by rewrite bool_decide_eq_true_2. Qed.
