(* ===== verification/Metrics.v ===== *)
(** * Measurements (metrics.go)

    A measurement is a value; a component that records one appends it to what it
    made observable. *)

From Stdlib Require Import String.
From S2P Require Import Prelude.
From S2P Require Import Conn.

Record Label := { Key : string; Value : string }.

Inductive metric :=
| Count (name : string) (delta : Z) (labels : list Label)
| Gauge (name : string) (value : Z) (labels : list Label)
| Duration (name : string) (d : Z) (labels : list Label).

Definition metricDialAttempts : string := "pipe.dial.attempts".
Definition metricDialResults : string := "pipe.dial.results".
Definition metricAcceptAttempts : string := "pipe.accept.attempts".
Definition metricAcceptResults : string := "pipe.accept.results".
Definition metricSessionsActive : string := "pipe.sessions.active".
Definition metricSessionsPending : string := "pipe.sessions.pending".
Definition metricSignalSent : string := "pipe.signal.sent".
Definition metricSignalReceived : string := "pipe.signal.received".
Definition metricConnectDuration : string := "pipe.connect.duration".
Definition metricRestartAttempts : string := "pipe.restart.attempts".
Definition metricRestartResults : string := "pipe.restart.results".
Definition metricRestartDuration : string := "pipe.restart.duration".
Definition metricStreamBytesRead : string := "pipe.stream.bytes.read".
Definition metricStreamBytesWrite : string := "pipe.stream.bytes.written".
Definition metricKeepAliveRTT : string := "pipe.keepalive.rtt".
Definition metricKeepAliveFailures : string := "pipe.keepalive.failures".
Definition metricProtocolFailures : string := "pipe.protocol.failures".

Definition labelResult (v : string) : Label := {| Key := "result"; Value := v |}.
Definition labelKind (k : string) : Label := {| Key := "kind"; Value := k |}.
Definition labelRole (r : role) : Label := {| Key := "role"; Value := role_String r |}.
Definition labelScope (v : string) : Label := {| Key := "scope"; Value := v |}.
Definition labelReason (v : string) : Label := {| Key := "reason"; Value := v |}.
