(* ===== verification/Pionx.v ===== *)
(** * The WebRTC adapter (internal/pionx/pionx.go)

    [pion/webrtc] is a parameter, the class [WebRTC]: its peer connection is a state
    of type [PC] that its methods read and change. The file translates the adapter
    over it: the factory, the peer with its single data channel, the callbacks that
    turn Pion's notifications into events, and the channel contract. The class
    [PeerConn] is what the session relies on; the adapter implements it. *)

From Stdlib Require Import String.
From S2P Require Import Prelude.
From S2P Require Import Errors.

(** ** Data *)

Definition ChannelLabel : string := "pipe.stream.v1".
Definition ChannelProtocol : string := "pipe/1".

Inductive EventKind :=
| EventLocalCandidate | EventGatheringComplete | EventConnected | EventDisconnected
| EventFailed | EventPeerClosed | EventChannelOpen | EventChannelClosed | EventError.

#[export] Instance EventKind_eq_dec : EqDecision EventKind.
Proof. solve_decision. Defined.

Definition EventKind_String (k : EventKind) : string :=
  match k with
  | EventLocalCandidate => "local-candidate"
  | EventGatheringComplete => "gathering-complete"
  | EventConnected => "connected"
  | EventDisconnected => "disconnected"
  | EventFailed => "failed"
  | EventPeerClosed => "peer-closed"
  | EventChannelOpen => "channel-open"
  | EventChannelClosed => "channel-closed"
  | EventError => "error"
  end.

Record Candidate := {
  Candidate_line : string; SDPMid : option string; SDPMLineIndex : option Z;
  UsernameFragment : option string
}.

#[export] Instance Candidate_eq_dec : EqDecision Candidate.
Proof. solve_decision. Defined.

Definition no_candidate : Candidate := Build_Candidate "" None None None.

Record Event := { ev_Kind : EventKind; ev_Candidate : Candidate; ev_Err : option error }.

(** An event that carries only its kind. *)
Definition event (k : EventKind) : Event :=
  {| ev_Kind := k; ev_Candidate := no_candidate; ev_Err := None |}.

Definition error_event (e : error) : Event :=
  {| ev_Kind := EventError; ev_Candidate := no_candidate; ev_Err := Some e |}.

Record ICEServer := { ice_URLs : list string; ice_Username : string; ice_Credential : string }.

(** The part of [webrtc.Configuration] the adapter sets. *)
Record Configuration := { rc_ICEServers : list ICEServer; rc_RelayOnly : bool }.

(** The parameters of a remote data channel that the contract reads. *)
Record ChannelInfo := {
  ch_Label : string; ch_Protocol : string; ch_Ordered : bool;
  ch_MaxRetransmits : option Z; ch_MaxPacketLifeTime : option Z
}.

Inductive SDPType := SDPTypeOffer | SDPTypeAnswer.

Inductive PeerConnectionState :=
| PCNew | PCConnecting | PCConnected | PCDisconnected | PCFailed | PCClosed.

(** ** pion/webrtc

    Data channels are handles, [nat]; their state is part of the connection's. *)

Class WebRTC (SE API PC : Type) := {
  se_zero : SE;
  se_DetachDataChannels : SE -> SE;
  se_EnableDataChannelBlockWrite : bool -> SE -> SE;
  se_SetRelayAcceptanceMinWait : Z -> SE -> SE;
  NewAPI : SE -> API;
  NewPeerConnection : Configuration -> API -> result error PC * API;
  pc_CreateDataChannel : string -> bool -> string -> PC -> result error nat * PC;
  pc_CreateOffer : bool -> PC -> result error string * PC;
  pc_CreateAnswer : PC -> result error string * PC;
  pc_SetLocalDescription : SDPType -> string -> PC -> option error * PC;
  pc_SetRemoteDescription : SDPType -> string -> PC -> option error * PC;
  pc_RemoteDescription : PC -> option string;
  pc_AddICECandidate : Candidate -> PC -> option error * PC;
  pc_Close : PC -> option error * PC;
  dc_info : nat -> PC -> ChannelInfo;
  dc_open : nat -> PC -> bool;
  dc_Close : nat -> PC -> option error * PC;
  dc_DetachWithDeadline : nat -> PC -> option error * PC;
  (* the SCTP transport, when there is one: its maximum message size *)
  pc_SCTP : PC -> option Z;
  (* [sctp.Transport().ICETransport()], when neither is nil *)
  pc_ICETransport : PC -> bool;
  ice_GetSelectedCandidatePair : PC -> result error (option (option string * option string))
}.

(** ** What the session relies on *)

Class PeerConn (F P : Type) := {
  NewOfferer : F -> result error P * F;
  NewAnswerer : F -> result error P * F;
  CreateOffer : bool -> P -> result error string * P;
  SetRemoteOffer : string -> P -> option error * P;
  CreateAnswer : P -> result error string * P;
  SetRemoteAnswer : string -> P -> option error * P;
  HasRemoteDescription : P -> bool;
  AddCandidate : Candidate -> P -> option error * P;
  EndOfRemoteCandidates : P -> option error * P;
  Detach : P -> option error * P;
  MaxMessageSize : P -> Z;
  SelectedCandidatePair : P -> string * string;
  peer_Close : P -> option error * P
}.

Section adapter.
Context {SE API PC : Type} `{WebRTC SE API PC}.

Record Config := {
  ICEServers : list ICEServer; RelayOnly : bool;
  ConfigureSettingEngine : option (SE -> SE);
  ConfigureConfiguration : option (Configuration -> Configuration)
}.

Record Factory := { f_api : API; f_base : Configuration }.

Record Peer := { p_pc : PC; p_dc : option nat; p_detached : bool; p_closed : bool }.

#[export] Instance Peer_eta : Eta Peer := fun p =>
  {| p_pc := p_pc p; p_dc := p_dc p; p_detached := p_detached p; p_closed := p_closed p |}.

Definition negotiation (msg : string) (e : error) : error :=
  EWrap msg [ESent pionx_ErrNegotiation; e].

(** [NewFactory]. *)
Definition NewFactory (cfg : Config) : Factory :=
  let se := se_EnableDataChannelBlockWrite true (se_DetachDataChannels se_zero) in
  let se := if RelayOnly cfg then se_SetRelayAcceptanceMinWait 0 se else se in
  let se := match ConfigureSettingEngine cfg with Some f => f se | None => se end in
  let base := {| rc_ICEServers := ICEServers cfg; rc_RelayOnly := RelayOnly cfg |} in
  let base := match ConfigureConfiguration cfg with Some f => f base | None => base end in
  {| f_api := NewAPI se; f_base := base |}.

(** [newPeer]: [sink] tells whether one was given. *)
Definition newPeer (sink : bool) (f : Factory) : result error Peer * Factory :=
  if negb sink then (Err (EOther "pionx: a sink is required" None), f)
  else
    let '(r, api) := NewPeerConnection (f_base f) (f_api f) in
    let f := {| f_api := api; f_base := f_base f |} in
    match r with
    | Err e => (Err (negotiation "%w: create peer connection: %w" e), f)
    | Ok pc => (Ok {| p_pc := pc; p_dc := None; p_detached := false; p_closed := false |}, f)
    end.

(** [Close]: a detached channel belongs to the stream adapter. *)
Definition Peer_Close (p : Peer) : option error * Peer :=
  if p_closed p then (None, p)
  else
    let p := p <| p_closed := true |> in
    let pc := match p_dc p with
              | Some dc => if negb (p_detached p) then snd (dc_Close dc (p_pc p)) else p_pc p
              | None => p_pc p
              end in
    let '(e, pc) := pc_Close pc in (e, p <| p_pc := pc |>).

(** [Factory.NewOfferer]. *)
Definition Factory_NewOfferer (sink : bool) (f : Factory) : result error Peer * Factory :=
  match newPeer sink f with
  | (Err e, f) => (Err e, f)
  | (Ok p, f) =>
    match pc_CreateDataChannel ChannelLabel true ChannelProtocol (p_pc p) with
    | (Err e, pc) =>
      (* [p.Close()] acts on the connection that is dropped *)
      (Err (negotiation "%w: create data channel: %w" e), f)
    | (Ok dc, pc) => (Ok (p <| p_pc := pc |> <| p_dc := Some dc |>), f)
    end
  end.

(** [Factory.NewAnswerer]. *)
Definition Factory_NewAnswerer (sink : bool) (f : Factory) : result error Peer * Factory :=
  newPeer sink f.

(** [validateChannel]. *)
Definition rejected (msg : string) : option error := Some (EWrap msg [ESent pionx_ErrChannelRejected]).

Definition validateChannel (c : ChannelInfo) : option error :=
  if negb (bool_decide (ch_Label c = ChannelLabel)) then rejected "%w: label %q is not %q"
  else if negb (bool_decide (ch_Protocol c = ChannelProtocol)) then rejected "%w: protocol %q is not %q"
  else if negb (ch_Ordered c) then rejected "%w: channel is unordered"
  else if bool_decide (ch_MaxRetransmits c <> None) then rejected "%w: channel limits retransmits"
  else if bool_decide (ch_MaxPacketLifeTime c <> None) then rejected "%w: channel limits packet lifetime"
  else None.

(** The [OnDataChannel] callback of the answering side. *)
Definition on_data_channel (dc : nat) (p : Peer) : list Event * Peer :=
  let drop_channel p := p <| p_pc := snd (dc_Close dc (p_pc p)) |> in
  match validateChannel (dc_info dc (p_pc p)) with
  | Some e => ([error_event e], drop_channel p)
  | None =>
    match p_dc p with
    | Some _ =>
      ([error_event (EWrap "%w: peer opened a second data channel" [ESent pionx_ErrChannelRejected])],
       drop_channel p)
    | None => ([], p <| p_dc := Some dc |>)
    end
  end.

(** The [OnICECandidate] callback. *)
Definition on_ice_candidate (c : option Candidate) : Event :=
  match c with
  | None => event EventGatheringComplete
  | Some c => {| ev_Kind := EventLocalCandidate; ev_Candidate := c; ev_Err := None |}
  end.

(** The [OnConnectionStateChange] callback. *)
Definition on_state_change (st : PeerConnectionState) : list Event :=
  match st with
  | PCConnected => [event EventConnected]
  | PCDisconnected => [event EventDisconnected]
  | PCFailed => [event EventFailed]
  | PCClosed => [event EventPeerClosed]
  | _ => []
  end.

(** [watchChannel]: the three callbacks it registers. *)
Definition on_open : Event := event EventChannelOpen.
Definition on_close : Event := event EventChannelClosed.
Definition on_error (e : error) : Event := error_event e.

(** A call on the peer connection that returns an error. *)
Definition pc_call (msg : string) (f : PC -> option error * PC) (p : Peer) : option error * Peer :=
  let '(e, pc) := f (p_pc p) in
  (negotiation msg <$> e, p <| p_pc := pc |>).

(** [CreateOffer] and [CreateAnswer]: create the description, then apply it. *)
Definition create_local (ty : SDPType) (create_msg set_msg : string)
    (create : PC -> result error string * PC) (p : Peer) : result error string * Peer :=
  match create (p_pc p) with
  | (Err e, pc) => (Err (negotiation create_msg e), p <| p_pc := pc |>)
  | (Ok sdp, pc) =>
    match pc_call set_msg (pc_SetLocalDescription ty sdp) (p <| p_pc := pc |>) with
    | (Some e, p) => (Err e, p)
    | (None, p) => (Ok sdp, p)
    end
  end.

Definition Peer_CreateOffer (restart : bool) : Peer -> result error string * Peer :=
  create_local SDPTypeOffer "%w: create offer: %w" "%w: set local offer: %w" (pc_CreateOffer restart).

Definition Peer_CreateAnswer : Peer -> result error string * Peer :=
  create_local SDPTypeAnswer "%w: create answer: %w" "%w: set local answer: %w" pc_CreateAnswer.

Definition Peer_SetRemoteOffer (sdp : string) : Peer -> option error * Peer :=
  pc_call "%w: set remote offer: %w" (pc_SetRemoteDescription SDPTypeOffer sdp).

Definition Peer_SetRemoteAnswer (sdp : string) : Peer -> option error * Peer :=
  pc_call "%w: set remote answer: %w" (pc_SetRemoteDescription SDPTypeAnswer sdp).

Definition Peer_HasRemoteDescription (p : Peer) : bool :=
  match pc_RemoteDescription (p_pc p) with Some _ => true | None => false end.

Definition Peer_AddCandidate (c : Candidate) : Peer -> option error * Peer :=
  pc_call "%w: add remote candidate: %w" (pc_AddICECandidate c).

Definition Peer_EndOfRemoteCandidates : Peer -> option error * Peer :=
  pc_call "%w: end of remote candidates: %w" (pc_AddICECandidate no_candidate).

(** [Detach]. *)
Definition Peer_Detach (p : Peer) : option error * Peer :=
  let fail msg := (Some (EWrap msg [ESent pionx_ErrNegotiation]), p) in
  if p_closed p then (Some (ESent pionx_ErrClosed), p)
  else match p_dc p with
  | None => fail "%w: data channel is not open"%string
  | Some dc =>
    if p_detached p then fail "%w: data channel is already detached"%string
    else if negb (dc_open dc (p_pc p)) then fail "%w: data channel is %s, not open"%string
    else match pc_call "%w: detach data channel: %w" (dc_DetachWithDeadline dc) p with
         | (Some e, p) => (Some e, p)
         | (None, p) => (None, p <| p_detached := true |>)
         end
  end.

(** [MaxMessageSize]: zero while it is unknown. *)
Definition Peer_MaxMessageSize (p : Peer) : Z := default 0 (pc_SCTP (p_pc p)).

(** [SelectedCandidatePair]. *)
Definition Peer_SelectedCandidatePair (p : Peer) : string * string :=
  match pc_SCTP (p_pc p) with
  | None => ("", "")%string
  | Some _ =>
    if negb (pc_ICETransport (p_pc p)) then ("", "")%string
    else match ice_GetSelectedCandidatePair (p_pc p) with
         | Ok (Some (Some local, Some remote)) => (local, remote)
         | _ => ("", "")%string
         end
  end.

#[export] Instance adapter_peer : PeerConn Factory Peer := {|
  NewOfferer := Factory_NewOfferer true; NewAnswerer := Factory_NewAnswerer true;
  CreateOffer := Peer_CreateOffer; SetRemoteOffer := Peer_SetRemoteOffer;
  CreateAnswer := Peer_CreateAnswer; SetRemoteAnswer := Peer_SetRemoteAnswer;
  HasRemoteDescription := Peer_HasRemoteDescription; AddCandidate := Peer_AddCandidate;
  EndOfRemoteCandidates := Peer_EndOfRemoteCandidates; Detach := Peer_Detach;
  MaxMessageSize := Peer_MaxMessageSize; SelectedCandidatePair := Peer_SelectedCandidatePair;
  peer_Close := Peer_Close |}.
End adapter.
Arguments Config : clear implicits.
Arguments Factory : clear implicits.
Arguments Peer : clear implicits.

(** ** The contract of the parameter and of the adapter

    What WebRTC documents about descriptions: a fresh connection has no remote
    description, a successful [setRemoteDescription] sets one and nothing removes it, and
    a connection that has a local offer outstanding refuses a remote offer. *)

Definition pc_has_remote `{WebRTC SE API PC} (pc : PC) : bool :=
  match pc_RemoteDescription pc with Some _ => true | None => false end.

(** Two observations a call leaves as they are. *)
Definition kept {P} (f g : P -> bool) (p p' : P) : Prop := f p' = f p /\ g p' = g p.

Class WebRTCLaws (SE API PC : Type) `{WebRTC SE API PC} := {
  have_local_offer : PC -> bool;
  law_new : forall c a pc a', NewPeerConnection c a = (Ok pc, a') ->
    pc_has_remote pc = false;
  law_channel : forall l o p pc, kept pc_has_remote have_local_offer pc (snd (pc_CreateDataChannel l o p pc));
  law_offer : forall b pc, kept pc_has_remote have_local_offer pc (snd (pc_CreateOffer b pc));
  law_answer : forall pc, kept pc_has_remote have_local_offer pc (snd (pc_CreateAnswer pc));
  law_add : forall c pc, kept pc_has_remote have_local_offer pc (snd (pc_AddICECandidate c pc));
  law_close : forall pc, kept pc_has_remote have_local_offer pc (snd (pc_Close pc));
  law_dc_close : forall d pc, kept pc_has_remote have_local_offer pc (snd (dc_Close d pc));
  law_dc_detach : forall d pc, kept pc_has_remote have_local_offer pc (snd (dc_DetachWithDeadline d pc));
  law_local : forall ty sdp pc,
    pc_has_remote (snd (pc_SetLocalDescription ty sdp pc)) = pc_has_remote pc /\
    (fst (pc_SetLocalDescription ty sdp pc) = None -> ty = SDPTypeOffer ->
     have_local_offer (snd (pc_SetLocalDescription ty sdp pc)) = true) /\
    (have_local_offer pc = true -> have_local_offer (snd (pc_SetLocalDescription ty sdp pc)) = true);
  law_remote_ok : forall ty sdp pc, fst (pc_SetRemoteDescription ty sdp pc) = None ->
    pc_has_remote (snd (pc_SetRemoteDescription ty sdp pc)) = true;
  law_remote_err : forall ty sdp pc, fst (pc_SetRemoteDescription ty sdp pc) <> None ->
    kept pc_has_remote have_local_offer pc (snd (pc_SetRemoteDescription ty sdp pc));
  law_glare : forall sdp pc, have_local_offer pc = true ->
    fst (pc_SetRemoteDescription SDPTypeOffer sdp pc) <> None
}.

(** The session's view: [offering] says that this side's offer is outstanding. *)
Class PeerLaws (F P : Type) `{PeerConn F P} := {
  offering : P -> bool;
  peer_new : forall f p f', NewOfferer f = (Ok p, f') -> HasRemoteDescription p = false;
  peer_offer : forall b p,
    HasRemoteDescription (snd (CreateOffer b p)) = HasRemoteDescription p /\
    (is_ok (fst (CreateOffer b p)) = true -> offering (snd (CreateOffer b p)) = true) /\
    (offering p = true -> offering (snd (CreateOffer b p)) = true);
  peer_answer : forall p,
    HasRemoteDescription (snd (CreateAnswer p)) = HasRemoteDescription p /\
    (offering p = true -> offering (snd (CreateAnswer p)) = true);
  peer_remote_offer : forall sdp p,
    (fst (SetRemoteOffer sdp p) = None -> HasRemoteDescription (snd (SetRemoteOffer sdp p)) = true) /\
    (fst (SetRemoteOffer sdp p) <> None -> kept HasRemoteDescription offering p (snd (SetRemoteOffer sdp p))) /\
    (offering p = true -> fst (SetRemoteOffer sdp p) <> None);
  peer_remote_answer : forall sdp p,
    (fst (SetRemoteAnswer sdp p) = None -> HasRemoteDescription (snd (SetRemoteAnswer sdp p)) = true) /\
    (fst (SetRemoteAnswer sdp p) <> None -> kept HasRemoteDescription offering p (snd (SetRemoteAnswer sdp p)));
  peer_add : forall c p, kept HasRemoteDescription offering p (snd (AddCandidate c p));
  peer_end : forall p, kept HasRemoteDescription offering p (snd (EndOfRemoteCandidates p));
  peer_detach : forall p, kept HasRemoteDescription offering p (snd (Detach p))
}.

Section adapter_laws.
Context {SE API PC : Type} `{HR : WebRTC SE API PC, !WebRTCLaws SE API PC}.

Definition Peer_offering (p : Peer PC) : bool := have_local_offer (p_pc p).

Lemma pc_call_pc msg f (p : Peer PC) :
  p_pc (snd (pc_call msg f p)) = snd (f (p_pc p)) /\
  (fst (pc_call msg f p) = None <-> fst (f (p_pc p)) = None).
Proof. unfold pc_call. destruct (f (p_pc p)) as [[e|] pc]; done. Qed.

Lemma kept_peer (p p' : Peer PC) :
  kept pc_has_remote have_local_offer (p_pc p) (p_pc p') ->
  kept Peer_HasRemoteDescription Peer_offering p p'.
Proof. done. Qed.

Lemma create_local_spec ty m1 m2 create (p : Peer PC) :
  (forall pc, kept pc_has_remote have_local_offer pc (snd (create pc))) ->
  let r := create_local ty m1 m2 create p in
  Peer_HasRemoteDescription (snd r) = Peer_HasRemoteDescription p /\
  (is_ok (fst r) = true -> ty = SDPTypeOffer -> Peer_offering (snd r) = true) /\
  (Peer_offering p = true -> Peer_offering (snd r) = true).
Proof.
  intros Hc. unfold create_local. specialize (Hc (p_pc p)).
  destruct (create (p_pc p)) as [[sdp|e] pc]; destruct Hc as [Hr Ho]; simpl in Hr, Ho.
  2: { split_and!; [exact Hr|done|]. unfold Peer_offering. simpl. by rewrite Ho. }
  destruct (law_local ty sdp pc) as (Hl1 & Hl2 & Hl3).
  pose proof (pc_call_pc m2 (pc_SetLocalDescription ty sdp) (p <| p_pc := pc |>)) as [Hp He].
  destruct (pc_call m2 _ _) as [e p'] eqn:E. simpl in Hp, He.
  assert (Hrp : Peer_HasRemoteDescription p' = Peer_HasRemoteDescription p).
  { change (pc_has_remote (p_pc p') = pc_has_remote (p_pc p)). by rewrite Hp, Hl1. }
  assert (Hop : Peer_offering p = true -> Peer_offering p' = true).
  { unfold Peer_offering. rewrite Hp, <- Ho. apply Hl3. }
  destruct e as [e|]; simpl; split_and!; try done.
  intros _ Hty. unfold Peer_offering. rewrite Hp. apply Hl2; [by apply He|done].
Qed.

#[export] Program Instance adapter_peer_laws : PeerLaws (Factory API) (Peer PC) := {|
  offering := Peer_offering |}.
Next Obligation.
  intros f p f' Hn. simpl in *. unfold Factory_NewOfferer, newPeer in Hn. simpl in Hn.
  destruct (NewPeerConnection (f_base f) (f_api f)) as [[pc|e] a] eqn:E; [|done].
  pose proof (law_new _ _ _ _ E) as Hnew. simpl in Hn.
  pose proof (law_channel ChannelLabel true ChannelProtocol pc) as [Hc _].
  destruct (pc_CreateDataChannel _ _ _ pc) as [[dc|e] pc'] eqn:E2; [|done].
  injection Hn as <- <-. rewrite <- Hnew. exact Hc.
Qed.
Next Obligation.
  intros b p. simpl. unfold Peer_CreateOffer.
  destruct (create_local_spec SDPTypeOffer "%w: create offer: %w" "%w: set local offer: %w"
    (pc_CreateOffer b) p (law_offer b)) as (H1 & H2 & H3).
  split; [exact H1|]. split; [intros Hk; by apply H2|exact H3].
Qed.
Next Obligation.
  intros p. simpl. unfold Peer_CreateAnswer.
  destruct (create_local_spec SDPTypeAnswer "%w: create answer: %w" "%w: set local answer: %w"
    pc_CreateAnswer p law_answer) as (H1 & _ & H3).
  split; [exact H1|exact H3].
Qed.
Next Obligation.
  intros sdp p. simpl. unfold Peer_SetRemoteOffer.
  destruct (pc_call_pc "%w: set remote offer: %w" (pc_SetRemoteDescription SDPTypeOffer sdp) p) as [Hp He].
  split_and!.
  - intros Hn. change (pc_has_remote (p_pc (snd (pc_call "%w: set remote offer: %w" (pc_SetRemoteDescription SDPTypeOffer sdp) p))) = true). rewrite Hp. apply law_remote_ok. by apply He.
  - intros Hn. apply kept_peer. rewrite Hp. apply law_remote_err. by rewrite <- He.
  - intros Ho. rewrite He. by apply law_glare.
Qed.
Next Obligation.
  intros sdp p. simpl. unfold Peer_SetRemoteAnswer.
  destruct (pc_call_pc "%w: set remote answer: %w" (pc_SetRemoteDescription SDPTypeAnswer sdp) p) as [Hp He].
  split.
  - intros Hn. change (pc_has_remote (p_pc (snd (pc_call "%w: set remote answer: %w" (pc_SetRemoteDescription SDPTypeAnswer sdp) p))) = true). rewrite Hp. apply law_remote_ok. by apply He.
  - intros Hn. apply kept_peer. rewrite Hp. apply law_remote_err. by rewrite <- He.
Qed.
Next Obligation.
  intros c p. apply kept_peer. simpl. unfold Peer_AddCandidate.
  rewrite (proj1 (pc_call_pc _ _ _)). apply law_add.
Qed.
Next Obligation.
  intros p. apply kept_peer. simpl. unfold Peer_EndOfRemoteCandidates.
  rewrite (proj1 (pc_call_pc _ _ _)). apply law_add.
Qed.
Next Obligation.
  intros p. apply kept_peer. simpl. unfold Peer_Detach.
  assert (Hid : kept pc_has_remote have_local_offer (p_pc p) (p_pc p)) by done.
  repeat case_match; simpl; try exact Hid.
  all: pose proof (pc_call_pc "%w: detach data channel: %w" (dc_DetachWithDeadline n) p) as [Hp _].
  all: match goal with Hx : pc_call _ _ _ = _ |- _ => rewrite Hx in Hp end; simpl in Hp.
  all: rewrite ?Hp; simpl; rewrite ?Hp; apply law_dc_detach.
Qed.
End adapter_laws.

(** ** One channel per peer, by contract *)

Section channels.
Context {SE API PC : Type} `{HR : WebRTC SE API PC}.

(** What happens to an answering peer: Pion's [OnDataChannel], and the session's calls. *)
Inductive peer_act := PaChannel (dc : nat) | PaDetach | PaClose | PaOther (pc : PC).

(** What an act made of it. *)
Inductive peer_out := PoAdopted (dc : nat) (c : ChannelInfo) | PoRefused (e : error)
| PoDetached (dc : nat) | PoError (e : error) | PoClosed (first : bool) | PoNone.

Definition peer_exec (a : peer_act) (p : Peer PC) : peer_out * Peer PC :=
  match a with
  | PaChannel dc =>
    match on_data_channel dc p with
    | ([], p') => (PoAdopted dc (dc_info dc (p_pc p)), p')
    | (ev :: _, p') => (PoRefused (default (ESent pionx_ErrClosed) (ev_Err ev)), p')
    end
  | PaDetach =>
    match Peer_Detach p with
    | (Some e, p') => (PoError e, p')
    | (None, p') => (match p_dc p with Some dc => PoDetached dc | None => PoNone end, p')
    end
  | PaClose => (PoClosed (negb (p_closed p)), snd (Peer_Close p))
  | PaOther pc => (PoNone, p <| p_pc := pc |>)
  end.

Fixpoint peer_run (acts : list peer_act) (p : Peer PC) : list peer_out * Peer PC :=
  match acts with
  | [] => ([], p)
  | a :: acts =>
    let '(o, p) := peer_exec a p in
    let '(os, p) := peer_run acts p in (o :: os, p)
  end.

Definition adopted_of (os : list peer_out) : list nat :=
  omap (fun o => match o with PoAdopted d _ => Some d | _ => None end) os.
Definition detached_of (os : list peer_out) : list nat :=
  omap (fun o => match o with PoDetached d => Some d | _ => None end) os.
Definition closes_of (os : list peer_out) : list unit :=
  omap (fun o => match o with PoClosed true => Some tt | _ => None end) os.

(** The channel contract of guides/11-protocol.md. *)
Definition contract (c : ChannelInfo) : Prop :=
  ch_Label c = ChannelLabel /\ ch_Protocol c = ChannelProtocol /\ ch_Ordered c = true /\
  ch_MaxRetransmits c = None /\ ch_MaxPacketLifeTime c = None.

Lemma validateChannel_spec c : validateChannel c = None <-> contract c.
Proof.
  unfold validateChannel, contract, rejected.
  destruct (bool_decide_reflect (ch_Label c = ChannelLabel)) as [H1|H1];
  destruct (bool_decide_reflect (ch_Protocol c = ChannelProtocol)) as [H2|H2];
  destruct (ch_Ordered c); destruct (ch_MaxRetransmits c); destruct (ch_MaxPacketLifeTime c);
  rewrite ?bool_decide_eq_true_2, ?bool_decide_eq_false_2 by naive_solver; simpl; naive_solver.
Qed.

Lemma validateChannel_err c e : validateChannel c = Some e -> errIs e pionx_ErrChannelRejected = true.
Proof. unfold validateChannel, rejected. repeat case_match; naive_solver. Qed.

(** The peer after a run, against what the run produced. *)
Record peer_log (os : list peer_out) (p : Peer PC) : Prop := {
  pl_adopted : adopted_of os = match p_dc p with Some d => [d] | None => [] end;
  pl_detached : detached_of os =
    if p_detached p then match p_dc p with Some d => [d] | None => [] end else [];
  pl_owned : p_detached p = true -> p_dc p <> None;
  pl_closed : closes_of os = if p_closed p then [tt] else [];
  pl_contract : forall d c, PoAdopted d c ∈ os -> contract c;
  pl_refused : forall e, PoRefused e ∈ os -> errIs e pionx_ErrChannelRejected = true
}.

Lemma peer_log_snoc os p o p' a :
  peer_log os p -> peer_exec a p = (o, p') -> peer_log (os ++ [o]) p'.
Proof.
  intros [Ha Hd Ho Hc Hk Hf] Hx.
  assert (Hin : forall x, x ∈ os ++ [o] -> x ∈ os \/ x = o).
  { intros x [?|Hx']%elem_of_app; [by left|right]. by apply list_elem_of_singleton. }
  destruct a as [dc| | |pc]; simpl in Hx.
  - unfold on_data_channel in Hx.
    destruct (validateChannel (dc_info dc (p_pc p))) as [e|] eqn:Ev.
    { injection Hx as <- <-. split; unfold adopted_of, detached_of, closes_of;
        rewrite ?omap_app; simpl; rewrite ?app_nil_r; try done.
      - intros d c [?|?]%Hin; [eauto|done].
      - intros e' [?|[= ->]]%Hin; [eauto|]. simpl. by eapply validateChannel_err. }
    destruct (p_dc p) as [d0|] eqn:Ep; injection Hx as <- <-;
      split; unfold adopted_of, detached_of, closes_of in *;
      rewrite ?omap_app; simpl; rewrite ?app_nil_r, ?Ep, ?Ha, ?Hd; try done.
    + intros d c [?|?]%Hin; [eauto|done].
    + intros e' [?|[= ->]]%Hin; [eauto|done].
    + destruct (p_detached p); [by destruct Ho|done].
    + intros d c [?|[= -> ->]]%Hin; [eauto|]. by apply validateChannel_spec.
    + intros e' [?|?]%Hin; [eauto|done].
  - assert (Hsame : forall e q, p_dc q = p_dc p -> p_detached q = p_detached p ->
      p_closed q = p_closed p -> peer_log (os ++ [PoError e]) q).
    { intros e q H1 H2 H3. split; unfold adopted_of, detached_of, closes_of in *;
        rewrite ?omap_app; simpl; rewrite ?app_nil_r, ?H1, ?H2, ?H3; try done.
      - intros d c [?|Hx']%elem_of_app; [eauto|]. by apply list_elem_of_singleton in Hx'.
      - intros e' [?|Hx']%elem_of_app; [eauto|]. by apply list_elem_of_singleton in Hx'. }
    unfold Peer_Detach in Hx. destruct (p_closed p) eqn:Ec.
    { injection Hx as <- <-. by apply Hsame. }
    destruct (p_dc p) as [d0|] eqn:Ep; [|injection Hx as <- <-; by apply Hsame].
    destruct (p_detached p) eqn:Ed; [injection Hx as <- <-; by apply Hsame|].
    destruct (negb _); [injection Hx as <- <-; by apply Hsame|].
    unfold pc_call in Hx. destruct (dc_DetachWithDeadline d0 (p_pc p)) as [[e|] pc].
    { injection Hx as <- <-. by apply Hsame. }
    injection Hx as <- <-. split; unfold adopted_of, detached_of, closes_of in *;
      rewrite ?omap_app; simpl; rewrite ?Ep, ?Ha, ?Hd, ?Hc, ?Ec, ?app_nil_r; try done.
    + intros d c [?|?]%Hin; [eauto|done].
    + intros e' [?|?]%Hin; [eauto|done].
  - injection Hx as <- <-. unfold Peer_Close.
    split; unfold adopted_of, detached_of, closes_of in *;
      rewrite ?omap_app; simpl; rewrite ?Ha, ?Hd, ?Hc;
      destruct (p_closed p) eqn:Ec; simpl; try destruct (pc_Close _) as [e pc] eqn:Eq; simpl;
      rewrite ?app_nil_r, ?Ec; try done.
    all: try (intros ? ? [?|?]%Hin; naive_solver); intros ? [?|?]%Hin; naive_solver.
  - injection Hx as <- <-.
    split; unfold adopted_of, detached_of, closes_of in *;
      rewrite ?omap_app; simpl; rewrite ?app_nil_r; try done.
    all: try (intros ? ? [?|?]%Hin; naive_solver); intros ? [?|?]%Hin; naive_solver.
Qed.
End channels.

Lemma peer_run_log `{HR : WebRTC SE API PC} acts (p : Peer PC) os0 os p' :
  peer_log os0 p -> peer_run acts p = (os, p') -> peer_log (os0 ++ os) p'.
Proof.
  revert p os0 os. induction acts as [|a acts IH]; intros p os0 os Hl Hr.
  - injection Hr as <- <-. by rewrite app_nil_r.
  - simpl in Hr. destruct (peer_exec a p) as [o p1] eqn:Ex.
    destruct (peer_run acts p1) as [os' p2] eqn:Er. injection Hr as <- <-.
    rewrite (app_assoc os0 [o] os' : os0 ++ o :: os' = _).
    eapply IH; [|exact Er]. by eapply peer_log_snoc.
Qed.

(** C31. Whatever data channels the remote side opens and however the session detaches and
    closes, an answering peer adopts at most one channel, the one it adopts meets the
    channel contract (label, subprotocol, ordered, fully reliable), every other one is
    refused with an error the session recognises, the only channel ever handed out is
    the adopted one, at most once, and the connection is closed at most once. *)
Theorem adapter_single_channel {SE API PC} (HR : WebRTC SE API PC) f (p p' : Peer PC) f' acts os :
  Factory_NewAnswerer true f = (Ok p, f') -> peer_run acts p = (os, p') ->
  (length (adopted_of os) <= 1)%nat /\
  (forall d, d ∈ detached_of os -> d ∈ adopted_of os) /\ (length (detached_of os) <= 1)%nat /\
  (length (closes_of os) <= 1)%nat /\
  (forall d c, PoAdopted d c ∈ os -> contract c) /\
  (forall e, PoRefused e ∈ os -> errIs e pionx_ErrChannelRejected = true).
Proof.
  intros Hn Hr. assert (H0 : peer_log [] p).
  { unfold Factory_NewAnswerer, newPeer in Hn. simpl in Hn.
    destruct (NewPeerConnection (f_base f) (f_api f)) as [[pc|e] a]; [|done].
    injection Hn as <- <-. split; try done; intros; by apply not_elem_of_nil in H. }
  destruct (peer_run_log acts p [] os p' H0 Hr) as [Ha Hd _ Hc Hk Hf]. simpl in *.
  rewrite Ha, Hd, Hc. split_and!; try done.
  - destruct (p_dc p'); simpl; lia.
  - intros d. destruct (p_detached p'); [done|]. by intros ?%not_elem_of_nil.
  - destruct (p_detached p'), (p_dc p'); simpl; lia.
  - destruct (p_closed p'); simpl; lia.
Qed.

(** ** A small concrete WebRTC

    The peer connection records its remote description, whether its own offer is
    outstanding and whether an applied description was an offer; every channel is open
    and the odd ones are unordered. *)
Module Demo.
Record pc := { remote : option string; offered : bool }.

Definition set_local (ty : SDPType) (sdp : string) (c : pc) : option error * pc :=
  (None, {| remote := remote c;
            offered := match ty with SDPTypeOffer => true | SDPTypeAnswer => offered c end |}).

Definition set_remote (ty : SDPType) (sdp : string) (c : pc) : option error * pc :=
  match ty with
  | SDPTypeOffer =>
    if offered c then (Some (EOther "InvalidStateError" None), c)
    else (None, {| remote := Some sdp; offered := false |})
  | SDPTypeAnswer =>
    if offered c then (None, {| remote := Some sdp; offered := false |})
    else (Some (EOther "InvalidStateError" None), c)
  end.

#[export] Instance demo_rtc : WebRTC unit unit pc := {|
  se_zero := tt; se_DetachDataChannels s := s; se_EnableDataChannelBlockWrite _ s := s;
  se_SetRelayAcceptanceMinWait _ s := s; NewAPI _ := tt;
  NewPeerConnection _ a := (Ok {| remote := None; offered := false |}, a);
  pc_CreateDataChannel _ _ _ c := (Ok 0%nat, c);
  pc_CreateOffer restart c := (Ok (if restart then "offer-restart" else "offer"), c)%string;
  pc_CreateAnswer c := (Ok "answer"%string, c);
  pc_SetLocalDescription := set_local; pc_SetRemoteDescription := set_remote;
  pc_RemoteDescription := remote;
  pc_AddICECandidate _ c := (None, c); pc_Close c := (None, c);
  dc_info d _ := {| ch_Label := ChannelLabel; ch_Protocol := ChannelProtocol;
                    ch_Ordered := Nat.even d; ch_MaxRetransmits := None;
                    ch_MaxPacketLifeTime := None |};
  dc_open _ _ := true; dc_Close _ c := (None, c); dc_DetachWithDeadline _ c := (None, c);
  pc_SCTP _ := Some 65536; pc_ICETransport _ := true;
  ice_GetSelectedCandidatePair _ := Ok (Some (Some "host", Some "srflx"))%string
|}.

#[export] Program Instance demo_laws : WebRTCLaws unit unit pc := {|
  have_local_offer := offered |}.
Solve Obligations with (unfold kept, pc_has_remote; simpl; naive_solver).
Next Obligation. intros [] ? [[] []]; done. Qed.
Next Obligation. intros [] ? [[] []]; done. Qed.
Next Obligation. intros [] ? [[] []]; done. Qed.
Next Obligation. intros ? [[] []]; done. Qed.

Definition factory : Factory unit := NewFactory (SE := unit) (PC := pc) {| ICEServers := []; RelayOnly := false;
  ConfigureSettingEngine := None; ConfigureConfiguration := None |}.

Definition answerer : Peer pc :=
  {| p_pc := {| remote := None; offered := false |}; p_dc := None; p_detached := false; p_closed := false |}.
End Demo.

Example adapter_single_channel_witness :
  let os := fst (peer_run (HR := Demo.demo_rtc) [PaChannel 1; PaDetach; PaChannel 2; PaChannel 4; PaDetach; PaDetach;
                           PaClose; PaClose] Demo.answerer) in
  adopted_of os = [2%nat] /\ detached_of os = [2%nat] /\ length (closes_of os) = 1%nat /\
  forall e, PoRefused e ∈ os -> errIs e pionx_ErrChannelRejected = true.
Proof.
  intros os. split; [reflexivity|]. split; [reflexivity|]. split; [reflexivity|].
  pose proof (adapter_single_channel Demo.demo_rtc Demo.factory Demo.answerer _ Demo.factory
    [PaChannel 1; PaDetach; PaChannel 2; PaChannel 4; PaDetach; PaDetach; PaClose; PaClose]
    os eq_refl eq_refl) as H.
  apply H.
Defined.
