(* ===== verification/Session.v ===== *)
(** * A session: one negotiation and one connection (session.go)

    One goroutine, the session loop, owns the negotiation: it starts it, then takes one
    event after another (mailbox batches, timers, the stream's end, the endpoint's
    shutdown) until one of them yields a closing intent, then tears everything down. A
    handler is a computation in the state monad over [session]. What it calls outside
    the file is reached through two interfaces: [PeerConn] (the WebRTC adapter) and
    [Env] (the endpoint: clock, randomness, signaling, accept queue). The stream is the
    stream model itself. [slog] output is left out; metrics and every other outward call
    are recorded in [trace]. *)

From Stdlib Require Import SpecFloat.
From Stdlib Require Import String.
From S2P Require Import Prelude.
From S2P Require Import Errors.
From S2P Require Import Floats.
From S2P Require Import Frame.
From S2P Require Import Stream.
From S2P Require Import Mailbox.
From S2P Require Import JsonCodec.
From S2P Require Import Signal.
From S2P Require Import Config.
From S2P Require Import Conn.
From S2P Require Import Metrics.
From S2P Require Import Pionx.

(** ** Constants *)

Definition closeSignalTimeout : Z := 2 * second.
Definition closeReleaseTimeout : Z := 3 * second.
Definition closeAckGrace : Z := 400 * millisecond.
Definition closeLingerTimeout : Z := 5 * second.

(** ** Data *)

Record closeIntent := { ci_code : string; ci_reason : string; ci_err : option error;
                        ci_notify : bool; ci_graceful : bool }.

Record keepaliveResult := { ka_rtt : Z; ka_err : option error }.

(** Exactly one field of the Go struct is set. *)
Inductive sessionEvent :=
| SevSignal (sig : Signal) | SevPion (ev : Event) | SevKeepalive (res : keepaliveResult)
| SevClose (intent : closeIntent).

(** A dial's result: the connection or the error. *)
Abbreviation dialResult := (result error Conn) (only parsing).

(** What a session makes observable, and what it applied. *)
Inductive sev :=
| LNewPeer | LPeerClosed
| LReceived (c : Candidate) | LApplied (c : Candidate) (remote : bool)
| LAnswered | LRestart (g : Z) | LAccepted (g : Z) | LRecovered
| LSent (sig : Signal) (e : option error)
| LMetric (m : metric)
| LResult (r : dialResult) | LEnqueued (ok : bool)
| LReleased | LRemoved
| LStreamEnd (how code : Z) (reason : string).

(** How teardown ends the stream. *)
Definition HowShutdownEOF : Z := 0.
Definition HowShutdown : Z := 1.
Definition HowClose : Z := 2.

(** Where the session goroutine is: about to start (with the offer it answers), at
    the loop's [select], about to tear down, waiting for the stream's release, ended. *)
Inductive session_pc :=
| PcStart (offer : option Signal) | PcLoop | PcTeardown (i : closeIntent)
| PcAwait (i : closeIntent) | PcDone.

(** ** The endpoint, as a session uses it *)

Class Env (E : Type) := {
  env_now : E -> Z;                                  (* [cfg.clock.Now()] *)
  env_rand16 : E -> bytes * E;                       (* [crypto/rand.Read] of 16 bytes *)
  env_float64 : E -> spec_float * E;                 (* [math/rand.Float64] *)
  (* [ep.send] under a timeout, bound or not to the endpoint's context *)
  env_send : Z -> bool -> Signal -> E -> option error * E;
  (* a session is identified by its address, a number; its backlog slot likewise *)
  env_enqueueInbound : Conn -> option nat -> E -> option error * E;
  env_removeSession : nat -> string -> E -> E;
  env_releaseSlot : nat -> E -> E;
  env_ctxDone : E -> bool                            (* [<-ep.ctx.Done()] is ready *)
}.

(** What a session relies on: time does not run backwards, whatever the endpoint and the
    other goroutines do, and a failed send is a signaling error. *)
Class EnvLaws (E : Type) `{Env E} := {
  env_evolves : E -> E -> Prop;
  env_time : forall e e', env_evolves e e' -> env_now e <= env_now e';
  env_rand_time : forall e, env_now e <= env_now (snd (env_rand16 e));
  env_float_time : forall e, env_now e <= env_now (snd (env_float64 e));
  env_send_time : forall t b sig e, env_now e <= env_now (snd (env_send t b sig e));
  env_enqueue_time : forall c b e, env_now e <= env_now (snd (env_enqueueInbound c b e));
  env_remove_time : forall u i e, env_now e <= env_now (env_removeSession u i e);
  env_release_time : forall i e, env_now e <= env_now (env_releaseSlot i e);
  env_send_error : forall t b sig e err, fst (env_send t b sig e) = Some err ->
    errIs err ErrSignaling = true
}.

Section session.
Context {F P E : Type} `{PeerConn F P} `{Env E}.

Record session := {
  s_uid : nat; s_id : string; s_peer : string; s_role : role;
  box : @mailbox sessionEvent;
  result_ch : option dialResult;       (* the one-element channel [result] *)
  finished : bool;
  releaseSlot : bool;                  (* whether it is non-nil *)
  peerConn : option P;
  stream : option Stream.stream;
  conn : option Conn;
  state : ConnectionState;
  pendingCands : list Candidate;
  remoteComplete : bool;
  generation : Z;                      (* uint32 *)
  restarts : Z;
  restartAttempt : Z;
  restartStarted : option Z;           (* [None]: the zero time *)
  startedAt : Z;
  delivered : bool;
  pinging : bool;
  peerClosed : bool;
  (* timers: the deadline they fire at *)
  negotiateTimer : option Z; recoveryTimer : option Z;
  keepaliveTimer : option Z; lingerTimer : option Z;
  (* beyond the Go struct: the address [s_uid], the goroutine, the factory and the endpoint behind [ep], the
     probe goroutine, what was made observable, a nil dereference *)
  pc : session_pc; factory : F; ep : E; probe : bool;
  trace : list sev; panicked : bool
}.

#[export] Instance session_eta : Eta session := fun s => {|
  s_uid := s_uid s; s_id := s_id s; s_peer := s_peer s; s_role := s_role s; box := box s;
  result_ch := result_ch s; finished := finished s; releaseSlot := releaseSlot s;
  peerConn := peerConn s; stream := stream s; conn := conn s; state := state s;
  pendingCands := pendingCands s; remoteComplete := remoteComplete s;
  generation := generation s; restarts := restarts s; restartAttempt := restartAttempt s;
  restartStarted := restartStarted s; startedAt := startedAt s; delivered := delivered s;
  pinging := pinging s; peerClosed := peerClosed s; negotiateTimer := negotiateTimer s;
  recoveryTimer := recoveryTimer s; keepaliveTimer := keepaliveTimer s;
  lingerTimer := lingerTimer s; pc := pc s; factory := factory s; ep := ep s;
  probe := probe s; trace := trace s; panicked := panicked s |}.

(** The endpoint's configuration. *)
Variable cfg : Config.Config.

Definition newSession (uid : nat) (id peer : string) (r : role) (slot : bool) (offer : option Signal)
    (f : F) (e : E) : session := {|
  s_uid := uid; s_id := id; s_peer := peer; s_role := r; box := newMailbox; result_ch := None;
  finished := false; releaseSlot := slot; peerConn := None; stream := None; conn := None;
  state := StateNew; pendingCands := []; remoteComplete := false; generation := 0;
  restarts := 0; restartAttempt := 0; restartStarted := None; startedAt := 0;
  delivered := false; pinging := false; peerClosed := false; negotiateTimer := None;
  recoveryTimer := None; keepaliveTimer := None; lingerTimer := None;
  pc := PcStart offer; factory := f; ep := e; probe := false; trace := []; panicked := false |}.

(** ** Primitives of the handlers *)

Abbreviation M := (state_m session) (only parsing).

Definition emit (ev : sev) : M unit := modify (fun s => s <| trace ::= (fun l => l ++ [ev]) |>).
Definition metric_ (m : metric) : M unit := emit (LMetric m).

(** A call on the peer connection; on a nil pointer Go panics. *)
Definition with_peer {A} (dflt : A) (f : P -> A * P) : M A := fun s =>
  match peerConn s with
  | None => (dflt, s <| panicked := true |>)
  | Some p => let '(a, p) := f p in (a, s <| peerConn := Some p |>)
  end.

Definition read_peer {A} (dflt : A) (f : P -> A) : M A := with_peer dflt (fun p => (f p, p)).

(** A call on the endpoint. *)
Definition with_ep {A} (f : E -> A * E) : M A := fun s =>
  let '(a, e) := f (ep s) in (a, s <| ep := e |>).

(** [clock.Now()]. *)
Definition clock_now : M Z := gets (fun s => env_now (ep s)).

(** A publication on the connection, if there is one. *)
Definition on_conn (f : Conn -> Conn) : M unit := modify (fun s => s <| conn ::= fmap f |>).

(** ** Intents *)

(** [requestClose]'s intent. *)
Definition requestClose_intent : closeIntent :=
  {| ci_code := CloseNormal; ci_reason := ""; ci_err := Some (ESent ErrClosed);
     ci_notify := true; ci_graceful := false |}.

(** [errors.Is(err, target)] of an error that may be nil. *)
Definition is_err (err : option error) (t : sentinel) : bool :=
  match err with Some e => errIs e t | None => false end.

(** [intentFor]. *)
Definition intentFor_ (err : option error) : closeIntent :=
  {| ci_code := if is_err err ErrProtocol then CloseProtocolError
                else if is_err err ErrTimeout then CloseTimeout
                else CloseInternal;
     ci_reason := ""; ci_err := err; ci_notify := true; ci_graceful := false |}.
Definition intentFor (e : error) : closeIntent := intentFor_ (Some e).

(** [streamCloseCode]. *)
Definition streamCloseCode (c : string) : Z :=
  if bool_decide (c = CloseProtocolError) then Frame.CloseProtocolError
  else if bool_decide (c = CloseGoingAway) then Frame.CloseGoingAway
  else if bool_decide (c = CloseInternal) || bool_decide (c = CloseTimeout) then Frame.CloseInternal
  else Frame.CloseNormal.

(** ** Signals *)

(** [sendSignal]. *)
Definition sendSignal (kind : string) (p : option payload) : M (option error) :=
  rand ← with_ep env_rand16;
  s ← get_s;
  match newSignal rand kind (cfg_ID cfg) (s_peer s) (s_id s) p with
  | Err e => mret (Some e)
  | Ok sig =>
    err ← with_ep (env_send signalSendTimeout true sig);
    emit (LSent sig err);; mret err
  end.

(** [sendCloseSignal]. *)
Definition sendCloseSignal (i : closeIntent) : M unit :=
  rand ← with_ep env_rand16;
  s ← get_s;
  match newSignal rand KindClose (cfg_ID cfg) (s_peer s) (s_id s)
          (Some (PClose {| lp_Code := ci_code i; lp_Reason := ci_reason i |})) with
  | Err _ => mret tt
  | Ok sig =>
    err ← with_ep (env_send closeSignalTimeout false sig);
    emit (LSent sig err)
  end.

(** [dropSignal]. *)
Definition dropSignal : M unit := metric_ (Count metricProtocolFailures 1 [labelScope "routing"]).

(** ** Candidates *)

(** Whether the peer connection has a remote description, for the record. *)
Definition remote_set (s : session) : bool :=
  match peerConn s with Some p => HasRemoteDescription p | None => false end.

(** Applying one candidate, its failure counted and survived. *)
Definition addCandidate (c : Candidate) : M unit :=
  remote ← gets remote_set;
  err ← with_peer None (AddCandidate c);
  emit (LApplied c remote);;
  match err with
  | Some _ => metric_ (Count metricProtocolFailures 1 [labelScope "candidate"])
  | None => mret tt
  end.

Fixpoint addCandidates (l : list Candidate) : M unit :=
  match l with
  | [] => mret tt
  | c :: l => addCandidate c;; addCandidates l
  end.

(** [flushCandidates]. *)
Definition flushCandidates : M (option error) :=
  has ← read_peer false HasRemoteDescription;
  if negb has then mret None
  else
    cands ← gets pendingCands;
    addCandidates cands;;
    modify (fun s => s <| pendingCands := [] |>);;
    complete ← gets remoteComplete;
    if complete : bool then
      modify (fun s => s <| remoteComplete := false |>);;
      with_peer None EndOfRemoteCandidates;; mret None
    else mret None.

(** ** Timers

    [NewTimer(d)] fires at the clock's reading plus [d]; a nil timer is [None]. *)
Definition armRecovery (d : Z) : M unit :=
  now ← clock_now;
  let d := if d <=? 0 then second else d in
  modify (fun s => s <| recoveryTimer := Some (now + d) |>).

Definition armKeepAlive : M unit :=
  s ← get_s;
  if (Interval (KeepAlive cfg) <=? 0) || bool_decide (stream s = None) || pinging s then mret tt
  else
    now ← clock_now;
    modify (fun s => s <| keepaliveTimer := Some (now + Interval (KeepAlive cfg)) |>).

(** [refreshCandidateStats]. *)
Definition refreshCandidateStats : M unit :=
  s ← get_s;
  match conn s with
  | None => mret tt
  | Some _ =>
    pair ← read_peer ("", "")%string SelectedCandidatePair;
    let '(local, remote) := pair : string * string in
    if bool_decide (local = "") && bool_decide (remote = "") then mret tt
    else on_conn (updateStats (fun st => st <| LocalCandidate := local |>
                                            <| RemoteCandidate := remote |>))
  end.

(** ** Backoff *)

(** [backoffFor]. *)
Definition backoffFor (attempt : Z) : M Z :=
  let b := rp_Backoff (Reconnect cfg) in
  if Initial b <=? 0 then mret 0
  else
    let d := f_mul (f_of_Z (Initial b)) (pow (Factor b) (attempt - 1)) in
    let max := f_of_Z (Maximum b) in
    let d := if SFltb max d then max else d in
    if SFltb f_zero (Jitter b) then
      r ← with_ep env_float64;
      mret (int64_of (f_mul d (f_add (f_sub f_one (Jitter b)) (f_mul (f_mul f_two (Jitter b)) r))))
    else mret (int64_of d).

(** ** Recovery *)

(** [attemptRestart]. *)
Definition attemptRestart : M (option closeIntent) :=
  let policy := Reconnect cfg in
  s ← get_s;
  if negb (Enabled policy) || negb (bool_decide (s_role s = roleOfferer)) ||
     (MaxAttempts policy <=? restartAttempt s) then
    mret (Some {| ci_code := CloseNormal; ci_reason := "connectivity lost";
                  ci_err := Some (errorf ErrDisconnected
                    "pipe: connection to %s was lost and could not be recovered" None);
                  ci_notify := true; ci_graceful := false |})
  else
    now ← clock_now;
    modify (fun s => s <| restartAttempt ::= Z.succ |>
                       <| generation := u32 (generation s + 1) |>
                       <| restartStarted := Some now |>);;
    s ← get_s;
    emit (LRestart (generation s));;
    metric_ (Count metricRestartAttempts 1 []);;
    offer ← with_peer (Err (ESent pionx_ErrClosed)) (CreateOffer true);
    match offer with
    | Err e =>
      metric_ (Count metricRestartResults 1 [labelResult "error"]);;
      mret (Some (intentFor (errorf ErrICE "pipe: create restart offer" (Some e))))
    | Ok sdp =>
      err ← sendSignal KindRestart (Some (PRestart {| rp_Generation := generation s; rp_SDP := sdp |}));
      match err with
      | Some e =>
        metric_ (Count metricRestartResults 1 [labelResult "error"]);;
        mret (Some (intentFor e))
      | None =>
        b ← backoffFor (restartAttempt s);
        armRecovery (AttemptTimeout policy + b);; mret None
      end
    end.

(** [onConnectivityUp]. *)
Definition onConnectivityUp : M unit :=
  refreshCandidateStats;;
  modify (fun s => s <| recoveryTimer := None |>);;
  s ← get_s;
  if negb (bool_decide (state s = StateRecovering)) then mret tt
  else
    modify (fun s => s <| state := StateConnected |>);;
    on_conn (setState StateConnected);;
    match restartStarted s with
    | Some t0 =>
      modify (fun s => s <| restarts ::= Z.succ |>);;
      now ← clock_now;
      metric_ (Duration metricRestartDuration (now - t0) []);;
      metric_ (Count metricRestartResults 1 [labelResult "success"]);;
      modify (fun s => s <| restartStarted := None |>);;
      n ← gets restarts;
      on_conn (updateStats (fun st => st <| ICERestarts := n |>))
    | None => mret tt
    end;;
    modify (fun s => s <| restartAttempt := 0 |>);;
    emit LRecovered;;
    armKeepAlive.

(** [onConnectivityLost]. *)
Definition onConnectivityLost : M unit :=
  s ← get_s;
  if negb (bool_decide (state s = StateConnected)) then mret tt
  else
    modify (fun s => s <| state := StateRecovering |>);;
    on_conn (setState StateRecovering);;
    armRecovery (if Enabled (Reconnect cfg) then AttemptTimeout (Reconnect cfg)
                 else ICETimeout cfg).

(** [onConnectivityFailed]. *)
Definition onConnectivityFailed : M (option closeIntent) :=
  s ← get_s;
  match state s with
  | StateConnected => onConnectivityLost;; attemptRestart
  | StateRecovering => attemptRestart
  | _ => mret (Some (intentFor (errorf ErrICE "pipe: connectivity establishment failed" None)))
  end.

(** [onRecoveryDeadline]. *)
Definition onRecoveryDeadline : M (option closeIntent) :=
  s ← get_s;
  if negb (bool_decide (state s = StateRecovering)) then mret None else attemptRestart.

(** ** Keepalive *)

(** [startProbe]: the probe itself runs in its own goroutine, [probe]. *)
Definition startProbe : M unit :=
  s ← get_s;
  if negb (bool_decide (state s = StateConnected)) || bool_decide (stream s = None) || pinging s
  then mret tt
  else modify (fun s => s <| pinging := true |> <| probe := true |>).

(** [onKeepAlive]. *)
Definition onKeepAlive (res : keepaliveResult) : M (option closeIntent) :=
  modify (fun s => s <| pinging := false |>);;
  match ka_err res with
  | Some _ =>
    metric_ (Count metricKeepAliveFailures 1 [labelReason "no-pong"]);;
    s ← get_s;
    if bool_decide (state s = StateConnected) then onConnectivityLost;; attemptRestart
    else mret None
  | None =>
    metric_ (Duration metricKeepAliveRTT (ka_rtt res) []);;
    on_conn (updateStats (fun st => st <| KeepAliveRTT := ka_rtt res |>));;
    armKeepAlive;; mret None
  end.

(** ** Establishment *)

(** [deliver]. *)
Definition deliver (c : Conn) : M (option closeIntent) :=
  modify (fun s => s <| delivered := true |>);;
  s ← get_s;
  match s_role s with
  | roleOfferer =>
    match result_ch s with
    | None => modify (fun s => s <| result_ch := Some (Ok c) |>);; emit (LResult (Ok c));; mret None
    | Some _ => mret (Some requestClose_intent)
    end
  | roleAnswerer =>
    err ← with_ep (env_enqueueInbound c (if releaseSlot s then Some (s_uid s) else None));
    match err with
    | Some e =>
      emit (LEnqueued false);;
      mret (Some {| ci_code := CloseNormal; ci_reason := "listener is unavailable";
                    ci_err := Some e; ci_notify := true; ci_graceful := false |})
    | None => emit (LEnqueued true);; modify (fun s => s <| releaseSlot := false |>);; mret None
    end
  end.

(** [onChannelOpen]. *)
Definition onChannelOpen : M (option closeIntent) :=
  s ← get_s;
  match stream s with
  | Some _ => mret None
  | None =>
    max ← read_peer 0 MaxMessageSize;
    if negb (max =? 0) && (max <? HeaderSize + FramePayload cfg) then
      mret (Some (intentFor (errorf ErrNegotiation
        "pipe: frame size %d exceeds the negotiated SCTP maximum message size %d" None)))
    else
      err ← with_peer None Detach;
      match wrapErr ErrNegotiation err "pipe: detach data channel" with
      | Some e => mret (Some (intentFor e))
      | None =>
        modify (fun s => s <| stream := Some (NewStream {| MaxPayload := FramePayload cfg;
                                                           Stream.ReadBuffer := ReadBuffer cfg |}) |>
                           <| state := StateConnected |> <| negotiateTimer := None |>);;
        now ← clock_now;
        s ← get_s;
        modify (fun s => s <| conn := Some (newConn (s_peer s) (cfg_ID cfg) (s_id s) (s_role s)
                                              now (now - startedAt s)) |>);;
        refreshCandidateStats;;
        metric_ (Duration metricConnectDuration (now - startedAt s) [labelRole (s_role s)]);;
        armKeepAlive;;
        s ← get_s;
        match conn s with
        | Some c => deliver c
        | None => mret None
        end
      end
  end.

(** ** Pion's events (onPionEvent) *)
Definition onPionEvent (ev : Event) : M (option closeIntent) :=
  s ← get_s;
  match ev_Kind ev with
  | EventLocalCandidate =>
    let c := ev_Candidate ev in
    err ← sendSignal KindCandidate (Some (PCandidate {|
            cp_Candidate := Candidate_line c; cp_SDPMid := SDPMid c;
            cp_SDPMLineIndex := SDPMLineIndex c; cp_UsernameFragment := UsernameFragment c |}));
    match err with
    | Some e =>
      if errIs e ErrSignaling && negb (bool_decide (state s = StateConnected))
      then mret (Some (intentFor e)) else mret None
    | None => mret None
    end
  | EventGatheringComplete => sendSignal KindICEComplete None;; mret None
  | EventConnected => onConnectivityUp;; mret None
  | EventDisconnected => onConnectivityLost;; mret None
  | EventFailed => onConnectivityFailed
  | EventPeerClosed =>
    if bool_decide (state s = StateConnected) then
      mret (Some {| ci_code := CloseNormal; ci_reason := ""; ci_err := Some (ESent ErrDisconnected);
                    ci_notify := true; ci_graceful := false |})
    else mret (Some (intentFor (errorf ErrNegotiation "pipe: peer connection closed during negotiation" None)))
  | EventChannelOpen => onChannelOpen
  | EventChannelClosed =>
    match stream s with
    | Some _ => mret None
    | None => mret (Some (intentFor (errorf ErrNegotiation "pipe: data channel closed before it opened" None)))
    end
  | EventError =>
    if is_err (ev_Err ev) pionx_ErrChannelRejected then
      mret (Some {| ci_code := CloseProtocolError;
                    ci_reason := "data channel does not match the protocol contract";
                    ci_err := wrapErr ErrProtocol (ev_Err ev) "pipe: data channel rejected";
                    ci_notify := true; ci_graceful := false |})
    else if bool_decide (state s = StateConnected) then
      (* [ev.Err.Error()] *)
      match ev_Err ev with
      | Some _ => mret None
      | None => modify (fun s => s <| panicked := true |>);; mret None
      end
    else mret (Some (intentFor_ (wrapErr ErrNegotiation (ev_Err ev) "pipe: peer connection failed")))
  end.

(** ** Signals (onSignal, onRestartSignal) *)

(** The rest of a handler, once a payload is decoded. *)
Definition decoded {Q} (r : result error Q) (k : Q -> M (option closeIntent)) : M (option closeIntent) :=
  match r with
  | Err e => mret (Some (intentFor e))
  | Ok body => k body
  end.

Definition onRestartSignal (sig : Signal) : M (option closeIntent) :=
  decoded (decodeRestart (Payload sig)) (fun body =>
    s ← get_s;
    if rp_Generation body <=? generation s then dropSignal;; mret None
    else
      modify (fun s => s <| generation := rp_Generation body |>);;
      emit (LAccepted (rp_Generation body));;
      err ← with_peer None (SetRemoteOffer (rp_SDP body));
      match wrapErr ErrNegotiation err "pipe: apply restart offer" with
      | Some e => mret (Some (intentFor e))
      | None =>
        answer ← with_peer (Err (ESent pionx_ErrClosed)) CreateAnswer;
        match answer with
        | Err e => mret (Some (intentFor (errorf ErrNegotiation "pipe: create restart answer" (Some e))))
        | Ok sdp =>
          err ← sendSignal KindAnswer (Some (PSdp {| sp_SDP := sdp |}));
          mret (intentFor <$> err)
        end
      end).

Definition onSignal (sig : Signal) : M (option closeIntent) :=
  s ← get_s;
  if bool_decide (Kind sig = KindAnswer) then
    if negb (bool_decide (s_role s = roleOfferer)) then dropSignal;; mret None
    else
      has ← read_peer false HasRemoteDescription;
      if has && (restartAttempt s =? 0) then dropSignal;; mret None
      else decoded (decodeSdp (Payload sig)) (fun body =>
        err ← with_peer None (SetRemoteAnswer (sp_SDP body));
        match wrapErr ErrNegotiation err "pipe: apply answer" with
        | Some e => mret (Some (intentFor e))
        | None =>
          modify (fun s => s <| restartAttempt := 0 |>);;
          emit LAnswered;;
          modify (fun s => if bool_decide (state s = StateSignaling)
                           then s <| state := StateConnecting |> else s);;
          err ← flushCandidates;
          mret (intentFor <$> err)
        end)
  else if bool_decide (Kind sig = KindOffer) then dropSignal;; mret None
  else if bool_decide (Kind sig = KindRestart) then onRestartSignal sig
  else if bool_decide (Kind sig = KindCandidate) then
    decoded (decodeCandidate (Payload sig)) (fun body =>
      let cand := {| Candidate_line := cp_Candidate body; SDPMid := cp_SDPMid body;
                     SDPMLineIndex := cp_SDPMLineIndex body;
                     UsernameFragment := cp_UsernameFragment body |} in
      has ← read_peer false HasRemoteDescription;
      if negb has then
        s ← get_s;
        if maxPendingCandidates <=? zlen (pendingCands s) then
          mret (Some (intentFor (errorf ErrProtocol
            "pipe: peer sent more than %d candidates before its description" None)))
        else
          emit (LReceived cand);;
          modify (fun s => s <| pendingCands ::= (fun l => l ++ [cand]) |>);; mret None
      else emit (LReceived cand);; addCandidate cand;; mret None)
  else if bool_decide (Kind sig = KindICEComplete) then
    has ← read_peer false HasRemoteDescription;
    if negb has then modify (fun s => s <| remoteComplete := true |>);; mret None
    else with_peer None EndOfRemoteCandidates;; mret None
  else if bool_decide (Kind sig = KindReject) then
    decoded (decodeReject (Payload sig)) (fun body =>
      s ← get_s;
      mret (Some {| ci_code := CloseNormal; ci_reason := "";
                    ci_err := Some (ERejected (jp_Code body) (jp_Reason body) (s_peer s));
                    ci_notify := false; ci_graceful := false |}))
  else if bool_decide (Kind sig = KindClose) then
    decoded (decodeClose (Payload sig)) (fun _ =>
      s ← get_s;
      if negb (bool_decide (state s = StateConnected)) || bool_decide (stream s = None) then
        mret (Some {| ci_code := CloseNormal; ci_reason := "";
                      ci_err := Some (errorf ErrPeerRejected
                        "pipe: peer closed the session during negotiation (%s)" None);
                      ci_notify := false; ci_graceful := false |})
      else
        modify (fun s => s <| peerClosed := true |>);;
        s ← get_s;
        match lingerTimer s with
        | None =>
          now ← clock_now;
          modify (fun s => s <| lingerTimer := Some (now + closeLingerTimeout) |>);; mret None
        | Some _ => mret None
        end)
  else mret None.

(** [handle]. *)
Definition handle (ev : sessionEvent) : M (option closeIntent) :=
  match ev with
  | SevClose i => mret (Some i)
  | SevSignal sig => onSignal sig
  | SevPion ev => onPionEvent ev
  | SevKeepalive res => onKeepAlive res
  end.

(** The batch of one [drain]: the first intent ends it. *)
Fixpoint handle_all (evs : list sessionEvent) : M (option closeIntent) :=
  match evs with
  | [] => mret None
  | ev :: evs =>
    i ← handle ev;
    match i with Some i => mret (Some i) | None => handle_all evs end
  end.

(** [onStreamDone]. *)
Definition onStreamDone (err : option error) : closeIntent :=
  if match err with None => true | Some e => errIs e ErrClosed end then
    {| ci_code := CloseNormal; ci_reason := ""; ci_err := Some (ESent ErrClosed);
       ci_notify := true; ci_graceful := false |}
  else if is_err err frame_ErrProtocol then
    {| ci_code := CloseProtocolError; ci_reason := "invalid stream frame";
       ci_err := wrapErr ErrProtocol err "pipe: peer sent an invalid frame";
       ci_notify := true; ci_graceful := false |}
  else
    {| ci_code := CloseNormal; ci_reason := ""; ci_err := Some (ESent ErrClosed);
       ci_notify := false; ci_graceful := true |}.

(** ** The session goroutine *)

(** [start]. *)
Definition start (offer : option Signal) : M (option error) :=
  s ← get_s;
  match s_role s with
  | roleOfferer =>
    let '(r, f) := NewOfferer (factory s) in
    modify (fun s => s <| factory := f |>);;
    match r with
    | Err e => mret (wrapErr ErrNegotiation (Some e) "pipe: create peer connection")
    | Ok p =>
      modify (fun s => s <| peerConn := Some p |>);; emit LNewPeer;;
      offer ← with_peer (Err (ESent pionx_ErrClosed)) (CreateOffer false);
      match offer with
      | Err e => mret (wrapErr ErrNegotiation (Some e) "pipe: create offer")
      | Ok sdp =>
        modify (fun s => s <| state := StateSignaling |>);;
        sendSignal KindOffer (Some (PSdp {| sp_SDP := sdp |}))
      end
    end
  | roleAnswerer =>
    let '(r, f) := NewAnswerer (factory s) in
    modify (fun s => s <| factory := f |>);;
    match r with
    | Err e => mret (wrapErr ErrNegotiation (Some e) "pipe: create peer connection")
    | Ok p =>
      modify (fun s => s <| peerConn := Some p |>);; emit LNewPeer;;
      match offer with
      | None => modify (fun s => s <| panicked := true |>);; mret None
      | Some offer =>
        match decodeSdp (Payload offer) with
        | Err e => mret (Some e)
        | Ok body =>
          err ← with_peer None (SetRemoteOffer (sp_SDP body));
          match wrapErr ErrNegotiation err "pipe: apply offer" with
          | Some e => mret (Some e)
          | None =>
            answer ← with_peer (Err (ESent pionx_ErrClosed)) CreateAnswer;
            match answer with
            | Err e => mret (wrapErr ErrNegotiation (Some e) "pipe: create answer")
            | Ok sdp =>
              modify (fun s => s <| state := StateConnecting |>);;
              err ← sendSignal KindAnswer (Some (PSdp {| sp_SDP := sdp |}));
              match err with
              | Some e => mret (Some e)
              | None => flushCandidates
              end
            end
          end
        end
      end
    end
  end.

(** [negotiate] up to its loop. *)
Definition begin (offer : option Signal) : M (option closeIntent) :=
  now ← clock_now;
  modify (fun s => s <| startedAt := now |>);;
  err ← start offer;
  match err with
  | Some e => mret (Some (intentFor e))
  | None =>
    now ← clock_now;
    modify (fun s => s <| negotiateTimer := Some (now + DialTimeout cfg) |>);; mret None
  end.

(** ** The loop's [select] *)

Inductive loop_sel := SelBox | SelNegotiate | SelRecovery | SelKeepAlive | SelLinger
| SelStreamDone | SelCtx.

Definition due (t : option Z) (s : session) : bool :=
  match t with Some d => d <=? env_now (ep s) | None => false end.

Definition stream_done (s : session) : bool :=
  match stream s with Some st => done st | None => false end.

(** Whether a case of the [select] is ready. *)
Definition ready (sel : loop_sel) (s : session) : bool :=
  match sel with
  | SelBox => mb_notify (box s)
  | SelNegotiate => due (negotiateTimer s) s
  | SelRecovery => due (recoveryTimer s) s
  | SelKeepAlive => due (keepaliveTimer s) s
  | SelLinger => due (lingerTimer s) s
  | SelStreamDone => stream_done s
  | SelCtx => env_ctxDone (ep s)
  end.

Definition timeout_intent : closeIntent :=
  {| ci_code := CloseTimeout; ci_reason := "negotiation timed out";
     ci_err := Some (errorf ErrTimeout "pipe: negotiation with %s timed out after %s" None);
     ci_notify := true; ci_graceful := false |}.

Definition linger_intent : closeIntent :=
  {| ci_code := CloseNormal; ci_reason := ""; ci_err := Some (ESent ErrClosed);
     ci_notify := false; ci_graceful := true |}.

Definition shutdown_intent (notify : bool) : closeIntent :=
  {| ci_code := CloseGoingAway; ci_reason := "endpoint is shutting down";
     ci_err := Some (ESent ErrClosed); ci_notify := notify; ci_graceful := false |}.

(** One iteration of the loop of [negotiate], by the case the [select] took: the intent
    that ends it, if any. *)
Definition loop_body (sel : loop_sel) : M (option closeIntent) :=
  s ← get_s;
  match sel with
  | SelBox =>
    match mb_wait (box s) with
    | None => mret None
    | Some b =>
      let '((events, overflow), b) := drain b in
      modify (fun s => s <| box := b |>);;
      if overflow : bool then
        mret (Some (intentFor (errorf ErrProtocol "pipe: session event queue overflowed" None)))
      else handle_all events
    end
  | SelNegotiate =>
    modify (fun s => s <| negotiateTimer := None |>);;
    match state s with
    | StateConnected | StateRecovering => mret None
    | _ => mret (Some timeout_intent)
    end
  | SelRecovery => modify (fun s => s <| recoveryTimer := None |>);; onRecoveryDeadline
  | SelKeepAlive => modify (fun s => s <| keepaliveTimer := None |>);; startProbe;; mret None
  | SelLinger => modify (fun s => s <| lingerTimer := None |>);; mret (Some linger_intent)
  | SelStreamDone =>
    match stream s with
    | Some st => mret (Some (onStreamDone (readErr st)))
    | None => mret None
    end
  | SelCtx => mret (Some (shutdown_intent false))
  end.

(** ** Teardown *)

(** What [teardown] does to the stream: [cw] is what its close frame's write returned. *)
Definition end_how (i : closeIntent) (s : session) : Z :=
  if ci_graceful i && peerClosed s then HowShutdownEOF
  else if ci_graceful i then HowShutdown
  else HowClose.

Definition end_stream (how code : Z) (reason : string) (cw : chan_write) (st : Stream.stream) : Stream.stream :=
  let body := list_ascii_of_string reason in
  if how =? HowShutdownEOF then snd (ShutdownEOF code body cw st)
  else if how =? HowShutdown then snd (Shutdown code body cw st)
  else snd (CloseWith code body cw st).

(** The statements of [teardown] after the wait: the peer connection's close, the backlog
    slot's release, the result for a [Dial] that still waits, and the end. *)
Definition close_peer : M unit :=
  s ← get_s;
  match peerConn s with
  | Some _ => with_peer None peer_Close;; emit LPeerClosed
  | None => mret tt
  end.

Definition return_slot : M unit :=
  s ← get_s;
  if releaseSlot s then
    with_ep (fun e => (tt, env_releaseSlot (s_uid s) e));; emit LReleased;;
    modify (fun s => s <| releaseSlot := false |>)
  else mret tt.

Definition unblock_dial (i : closeIntent) : M unit :=
  s ← get_s;
  if negb (delivered s) && bool_decide (s_role s = roleOfferer) then
    let err := default (ESent ErrClosed) (ci_err i) in
    match result_ch s with
    | None => modify (fun s => s <| result_ch := Some (Err err) |>);; emit (LResult (Err err))
    | Some _ => mret tt
    end
  else mret tt.

Definition teardown_end (i : closeIntent) : M unit :=
  close_peer;;
  on_conn (setState StateClosed);;
  s ← get_s;
  with_ep (fun e => (tt, env_removeSession (s_uid s) (s_id s) e));; emit LRemoved;;
  return_slot;;
  unblock_dial i;;
  modify (fun s => s <| finished := true |> <| pc := PcDone |>).

(** Whether [awaitRelease] waits at all. *)
Definition must_await (i : closeIntent) (s : session) : bool :=
  bool_decide (stream s <> None) && bool_decide (peerConn s <> None) &&
  negb (is_err (ci_err i) ErrDisconnected || is_err (ci_err i) ErrICE).

(** [teardown] up to that wait. A stopped timer never fires: [None]. *)
Definition teardown (intent : option closeIntent) (cw : chan_write) : M unit :=
  let i := default {| ci_code := CloseInternal; ci_reason := ""; ci_err := Some (ESent ErrClosed);
                      ci_notify := true; ci_graceful := false |} intent in
  modify (fun s => s <| state := StateClosed |> <| box ::= mb_close |>
                     <| negotiateTimer := None |> <| recoveryTimer := None |>
                     <| keepaliveTimer := None |> <| lingerTimer := None |>);;
  (if ci_notify i then sendCloseSignal i else mret tt);;
  s ← get_s;
  match stream s with
  | Some st =>
    metric_ (Count metricStreamBytesRead (bytesRead st) []);;
    metric_ (Count metricStreamBytesWrite (bytesWritten st) []);;
    let how := end_how i s in
    let code := streamCloseCode (ci_code i) in
    emit (LStreamEnd how code (ci_reason i));;
    modify (fun s => s <| stream := Some (end_stream how code (ci_reason i) cw st) |>)
  | None => mret tt
  end;;
  s ← get_s;
  if must_await i s then modify (fun s => s <| pc := PcAwait i |>) else teardown_end i.

(** How the wait for the stream's release ended; the grace period after it passes, or
    the endpoint's context ends it. *)
Inductive await_sel := AwaitReleased | AwaitTimeout.

(** Another closer of the stream is inside [termOnce]; [Once.Do] would wait for it. *)
Definition once_busy (s : session) : bool :=
  match stream s with
  | Some st => match termOnce st with TSend _ _ _ _ | TSent _ _ => true | _ => false end
  | None => false
  end.

(** ** The session and what runs beside it

    [session_step] is one step of the session goroutine; the other rules are the other
    goroutines: the producers of the mailbox, the keepalive probe, the stream's own
    segments, the application's [Conn.Close], a [Dial] that takes the result, and
    everything behind the endpoint and the peer connection. *)

Inductive session_act := GoStart | GoLoop (sel : loop_sel) | GoTeardown (cw : chan_write)
| GoAwait (sel : await_sel).

Definition goto (r : option closeIntent * session) : session :=
  let '(i, s) := r in
  s <| pc := match i with Some i => PcTeardown i | None => PcLoop end |>.

Definition session_step (a : session_act) (s : session) : option session :=
  match a, pc s with
  | GoStart, PcStart offer => Some (goto (begin offer s))
  | GoLoop sel, PcLoop => if ready sel s then Some (goto (loop_body sel s)) else None
  | GoTeardown cw, PcTeardown i =>
    if once_busy s then None else Some (snd (teardown (Some i) cw s))
  | GoAwait AwaitReleased, PcAwait i =>
    if match stream s with Some st => released st | None => false end
    then Some (snd (teardown_end i s)) else None
  | GoAwait AwaitTimeout, PcAwait i => Some (snd (teardown_end i s))
  | _, _ => None
  end.

(** The steps of [Conn.Close] that touch the connection's record. *)
Inductive conn_act := ConnBegin | ConnClosing | ConnClosed.
Definition conn_step (a : conn_act) (c : Conn) : Conn :=
  match a with
  | ConnBegin => snd (close_begin c) | ConnClosing => close_closing c | ConnClosed => close_closed c
  end.

(** Who posts what: only the probe posts its result, and an error event of the adapter
    carries an error. *)
Definition is_keepalive (ev : sessionEvent) : bool :=
  match ev with SevKeepalive _ => true | _ => false end.
Definition event_ok (ev : sessionEvent) : Prop :=
  match ev with SevPion ev => ev_Kind ev = EventError -> ev_Err ev <> None | _ => True end.

Definition post_event (ev : sessionEvent) (s : session) : session :=
  s <| box := snd (post ev (box s)) |>.

Context `{!PeerLaws F P, !EnvLaws E}.

(** What runs beside the goroutine. *)
Inductive sside : session -> session -> Prop :=
| side_post ev s : is_keepalive ev = false -> event_ok ev -> sside s (post_event ev s)
| side_probe res s : probe s = true ->
    sside s (post_event (SevKeepalive res) (s <| probe := false |>))
| side_stream a s st evs st' : stream s = Some st -> exec a st = Some (evs, st') ->
    sside s (s <| stream := Some st' |>)
| side_conn a s : sside s (s <| conn ::= fmap (conn_step a) |>)
| side_take s : sside s (s <| result_ch := None |>)
| side_peer p p' s : peerConn s = Some p -> kept HasRemoteDescription offering p p' ->
    sside s (s <| peerConn := Some p' |>).

Inductive sstep : session -> session -> Prop :=
| step_go a s s' : session_step a s = Some s' -> sstep s s'
| step_side s s' : sside s s' -> sstep s s'
| step_env e s : env_evolves (ep s) e -> sstep s (s <| ep := e |>).

Inductive sreach (s0 : session) : session -> Prop :=
| sreach_refl : sreach s0 s0
| sreach_step s s' : sreach s0 s -> sstep s s' -> sreach s0 s'.

(** A new session: an answerer has an offer and holds a backlog slot. *)
Definition initial (s : session) : Prop :=
  exists uid id peer f e,
    (exists offer, s = newSession uid id peer roleAnswerer true (Some offer) f e) \/
    s = newSession uid id peer roleOfferer false None f e.
End session.
Arguments session : clear implicits.
