(* ===== verification/SessionInv.v ===== *)
(** * The invariant of a session

    [summary] folds a trace into the facts the theorems speak of. [core] is what holds
    of a session until it has torn down, [live] what holds while its loop runs; each
    handler of the loop preserves [live] or leaves with [core]. The sub-handlers have
    symbolic rules: [wp_...] gives the state they leave as an update of the one they
    found. *)

From Stdlib Require Import SpecFloat.
From Stdlib Require Import String.
From S2P Require Import Prelude.
From S2P Require Import Errors.
From S2P Require Import Floats.
From S2P Require Import Stream.
From S2P Require Import StreamCtl.
From S2P Require Import Mailbox.
From S2P Require Import Signal.
From S2P Require Import Config.
From S2P Require Import Conn.
From S2P Require Import Metrics.
From S2P Require Import Pionx.
From S2P Require Import Session.

#[local] Arguments newSignal : simpl never.

(** ** What a trace says *)

Record tsum := {
  t_received : list Candidate; t_applied : list Candidate; t_early : bool;
  t_since : Z;                       (* restart attempts since an answer or a recovery *)
  t_gens : list (bool * Z);          (* generations: requested here ([true]) or accepted *)
  t_results : list (result error Conn); t_enq : nat;
  t_new : nat; t_closed : nat; t_removed : nat; t_released : nat; t_ends : nat
}.

#[export] Instance tsum_eta : Eta tsum := fun t => {|
  t_received := t_received t; t_applied := t_applied t; t_early := t_early t;
  t_since := t_since t; t_gens := t_gens t; t_results := t_results t; t_enq := t_enq t;
  t_new := t_new t; t_closed := t_closed t; t_removed := t_removed t;
  t_released := t_released t; t_ends := t_ends t |}.

Definition t_zero : tsum := Build_tsum [] [] false 0 [] [] 0 0 0 0 0 0.

Definition sum_step (t : tsum) (ev : sev) : tsum :=
  match ev with
  | LReceived c => t <| t_received ::= (fun l => l ++ [c]) |>
  | LApplied c remote => t <| t_applied ::= (fun l => l ++ [c]) |>
                           <| t_early ::= (fun b => b || negb remote) |>
  | LAnswered | LRecovered => t <| t_since := 0 |>
  | LRestart g => t <| t_since ::= Z.succ |> <| t_gens ::= (fun l => l ++ [(true, g)]) |>
  | LAccepted g => t <| t_gens ::= (fun l => l ++ [(false, g)]) |>
  | LResult r => t <| t_results ::= (fun l => l ++ [r]) |>
  | LEnqueued true => t <| t_enq ::= Datatypes.S |>
  | LNewPeer => t <| t_new ::= Datatypes.S |>
  | LPeerClosed => t <| t_closed ::= Datatypes.S |>
  | LRemoved => t <| t_removed ::= Datatypes.S |>
  | LReleased => t <| t_released ::= Datatypes.S |>
  | LStreamEnd _ _ _ => t <| t_ends ::= Datatypes.S |>
  | LEnqueued false | LSent _ _ | LMetric _ => t
  end.

Definition summary (l : list sev) : tsum := fold_left sum_step l t_zero.

#[local] Arguments summary : simpl never.

Lemma summary_snoc l ev : summary (l ++ [ev]) = sum_step (summary l) ev.
Proof. unfold summary. by rewrite fold_left_app. Qed.

(** Each generation follows the one in force, [g]: a request increments it (as a
    [uint32]), an accepted offer's is larger. *)
Fixpoint gens_ok (g : Z) (l : list (bool * Z)) : Prop :=
  match l with
  | [] => True
  | (own, g') :: l => (if own : bool then g' = u32 (g + 1) else g < g') /\ gens_ok g' l
  end.

Definition gen_last (g : Z) (l : list (bool * Z)) : Z := from_option snd g (last l).

Lemma gen_last_snoc g l own g' : gen_last g (l ++ [(own, g')]) = g'.
Proof. unfold gen_last. by rewrite last_snoc. Qed.

Lemma gens_ok_snoc g l own g' :
  gens_ok g (l ++ [(own, g')]) <->
  gens_ok g l /\ (if own : bool then g' = u32 (gen_last g l + 1) else gen_last g l < g').
Proof.
  revert g. induction l as [|[o x] l IH]; intros g; simpl; [tauto|].
  rewrite IH. replace (gen_last g ((o, x) :: l)) with (gen_last x l); [tauto|].
  unfold gen_last. rewrite last_cons. by destruct (last l).
Qed.

Definition b2n (b : bool) : nat := if b then 1%nat else 0%nat.

(** Keepalive results in a queue. *)
Fixpoint probes (l : list sessionEvent) : nat :=
  match l with [] => 0%nat | ev :: l => (b2n (is_keepalive ev) + probes l)%nat end.

Lemma probes_app l k : probes (l ++ k) = (probes l + probes k)%nat.
Proof. induction l as [|x l IH]; simpl; [done|]. rewrite IH. lia. Qed.

(** A state after several updates, as one record. *)
Ltac norm :=
  cbn [setter fst snd s_uid s_id s_peer s_role box result_ch finished releaseSlot
    peerConn stream conn state pendingCands remoteComplete generation restarts restartAttempt
    restartStarted startedAt delivered pinging peerClosed negotiateTimer recoveryTimer
    keepaliveTimer lingerTimer pc factory ep probe trace panicked].

Section inv.
Context {F P E : Type} `{PeerConn F P} `{Env E} `{!PeerLaws F P, !EnvLaws E}.
Variable cfg : Config.Config.
Implicit Types s : session F P E.

(** ** The invariant *)

(** The stream, once there is one, is in a state its own methods keep consistent. *)
Definition stream_ok (o : option Stream.stream) : Prop := forall st, o = Some st -> ctl_ok st.

Record core s : Prop := {
  co_cands : t_received (summary (trace s)) = t_applied (summary (trace s)) ++ pendingCands s;
  co_pend : zlen (pendingCands s) <= maxPendingCandidates;
  co_early : t_early (summary (trace s)) = false;
  co_since : t_since (summary (trace s)) = restartAttempt s;
  co_attempts : 0 <= restartAttempt s <= Z.max 0 (MaxAttempts (Reconnect cfg));
  co_gens : gens_ok 0 (t_gens (summary (trace s)));
  co_gen : gen_last 0 (t_gens (summary (trace s))) = generation s;
  co_own : s_role s = roleAnswerer ->
           Forall (fun g => fst g = false) (t_gens (summary (trace s)));
  co_new : t_new (summary (trace s)) = b2n (bool_decide (is_Some (peerConn s)));
  co_closed : t_closed (summary (trace s)) = 0%nat;
  co_removed : t_removed (summary (trace s)) = 0%nat;
  co_released : t_released (summary (trace s)) = 0%nat;
  co_ends : t_ends (summary (trace s)) = 0%nat;
  co_slot : (b2n (releaseSlot s) + t_enq (summary (trace s)) =
             b2n (bool_decide (s_role s = roleAnswerer)))%nat;
  co_undelivered : delivered s = false ->
    result_ch s = None /\ t_results (summary (trace s)) = [] /\ t_enq (summary (trace s)) = 0%nat;
  co_dialled : delivered s = true -> s_role s = roleOfferer ->
    exists c, t_results (summary (trace s)) = [Ok c];
  co_answered : s_role s = roleAnswerer -> t_results (summary (trace s)) = [];
  co_panic : panicked s = false;
  co_stream : stream_ok (stream s)
}.

(** The phase of the negotiation, and the timers that bound it. *)
Definition phase s : Prop :=
  match state s with
  | StateSignaling | StateConnecting =>
    stream s = None /\ conn s = None /\ delivered s = false /\
    exists d, negotiateTimer s = Some d /\ d <= env_now (ep s) + DialTimeout cfg
  | StateConnected =>
    is_Some (stream s) /\ is_Some (conn s) /\ delivered s = true /\
    (0 < Interval (KeepAlive cfg) -> is_Some (keepaliveTimer s) \/ pinging s = true)
  | StateRecovering =>
    is_Some (stream s) /\ is_Some (conn s) /\ delivered s = true /\ is_Some (recoveryTimer s)
  | _ => False
  end.

(** The peer connection, against the candidates waiting for its description. *)
Definition peer_ready s : Prop :=
  exists p, peerConn s = Some p /\
    (HasRemoteDescription p = true \/ s_role s = roleOfferer /\ offering p = true) /\
    (HasRemoteDescription p = true -> pendingCands s = []).

(** One probe outstanding at most, and while [pinging] its result is on its way. *)
Definition probing (rest : list sessionEvent) s : Prop :=
  let n := (probes (rest ++ mb_items (box s)) + b2n (probe s))%nat in
  (n <= b2n (pinging s))%nat /\ (pinging s = true -> n = 1%nat \/ mb_overflow (box s) = true).

Record live (rest : list sessionEvent) s : Prop := {
  li_core : core s;
  li_peer : peer_ready s;
  li_phase : phase s;
  li_probe : probing rest s;
  li_events : Forall event_ok (rest ++ mb_items (box s));
  li_open : mb_closed (box s) = false
}.

(** After a handler. *)
Definition handled (rest : list sessionEvent) (r : option closeIntent) s : Prop :=
  match r with Some _ => core s | None => live rest s end.

(** ** Rules of the primitives *)

Lemma wp_emit ev (Q : unit -> session F P E -> Prop) s :
  Q tt (s <| trace ::= (fun l => l ++ [ev]) |>) -> wp (emit ev) Q s.
Proof. done. Qed.

Lemma wp_with_ep {A} (f : E -> A * E) (Q : A -> session F P E -> Prop) s :
  Q (fst (f (ep s))) (s <| ep := snd (f (ep s)) |>) -> wp (with_ep f) Q s.
Proof. unfold wp, with_ep. by destruct (f (ep s)). Qed.

Lemma wp_with_peer {A} p dflt (f : P -> A * P) (Q : A -> session F P E -> Prop) s :
  peerConn s = Some p -> Q (fst (f p)) (s <| peerConn := Some (snd (f p)) |>) ->
  wp (with_peer dflt f) Q s.
Proof. unfold wp, with_peer. intros ->. by destruct (f p). Qed.

Lemma peer_id s p : peerConn s = Some p -> s <| peerConn := Some p |> = s.
Proof. intros Hp. destruct s. simpl in *. by subst. Qed.

Lemma wp_read_peer {A} p dflt (f : P -> A) (Q : A -> session F P E -> Prop) s :
  peerConn s = Some p -> Q (f p) s -> wp (read_peer dflt f) Q s.
Proof.
  unfold read_peer. intros Hp HQ. eapply wp_with_peer; [done|]. cbn [fst snd].
  by rewrite (peer_id s p).
Qed.

Lemma wp_on_conn f (Q : unit -> session F P E -> Prop) s :
  Q tt (s <| conn ::= fmap f |>) -> wp (on_conn f) Q s.
Proof. done. Qed.

Lemma wp_sendSignal kind p (Q : option error -> session F P E -> Prop) s :
  (forall err e l, env_now (ep s) <= env_now e -> summary l = summary (trace s) ->
     Q err (s <| ep := e |> <| trace := l |>)) ->
  wp (sendSignal cfg kind p) Q s.
Proof.
  intros HQ. unfold sendSignal. apply wp_bind, wp_with_ep, wp_bind, wp_get.
  pose proof (env_rand_time (ep s)) as Ht1.
  destruct (env_rand16 (ep s)) as [rand e1]. simpl in *.
  destruct (newSignal _ _ _ _ _ _) as [sig|err].
  - pose proof (env_send_time signalSendTimeout true sig e1) as Ht2.
    apply wp_bind, wp_with_ep, wp_bind, wp_emit, wp_ret. simpl.
    destruct (env_send _ _ sig e1) as [err e2]. simpl in *.
    apply (HQ err e2); [lia|]. by rewrite summary_snoc.
  - apply wp_ret. by apply (HQ (Some err) e1 (trace s)).
Qed.

Lemma wp_sendCloseSignal i (Q : unit -> session F P E -> Prop) s :
  (forall e l, env_now (ep s) <= env_now e -> summary l = summary (trace s) ->
     Q tt (s <| ep := e |> <| trace := l |>)) ->
  wp (sendCloseSignal cfg i) Q s.
Proof.
  intros HQ. unfold sendCloseSignal. apply wp_bind, wp_with_ep, wp_bind, wp_get.
  pose proof (env_rand_time (ep s)) as Ht1.
  destruct (env_rand16 (ep s)) as [rand e1]. simpl in *.
  destruct (newSignal _ _ _ _ _ _) as [sig|err].
  - pose proof (env_send_time closeSignalTimeout false sig e1) as Ht2.
    apply wp_bind, wp_with_ep, wp_emit. simpl.
    destruct (env_send _ _ sig e1) as [err e2]. simpl in *.
    apply (HQ e2); [lia|]. by rewrite summary_snoc.
  - apply wp_ret. by apply (HQ e1 (trace s)).
Qed.

Lemma wp_addCandidate c p (Q : unit -> session F P E -> Prop) s :
  peerConn s = Some p -> HasRemoteDescription p = true ->
  (forall p' l, kept HasRemoteDescription offering p p' ->
     summary l = (summary (trace s)) <| t_applied ::= (fun k => k ++ [c]) |> ->
     Q tt (s <| peerConn := Some p' |> <| trace := l |>)) ->
  wp (addCandidate c) Q s.
Proof.
  intros Hp Hr HQ. unfold addCandidate. apply wp_bind, wp_gets, wp_bind.
  eapply wp_with_peer; [done|]. apply wp_bind, wp_emit.
  pose proof (peer_add c p) as Hk. destruct (AddCandidate c p) as [err p']. simpl in *.
  assert (Hs : summary (trace s ++ [LApplied c (remote_set s)]) =
    summary (trace s) <| t_applied ::= (fun k => k ++ [c]) |>).
  { rewrite summary_snoc. unfold remote_set. rewrite Hp, Hr. simpl.
    by rewrite orb_false_r. }
  destruct err as [err|].
  - apply wp_emit. simpl. apply (HQ p'); [done|].
    by rewrite summary_snoc, Hs.
  - apply wp_ret. simpl. by apply (HQ p').
Qed.

Lemma wp_addCandidates cs p (Q : unit -> session F P E -> Prop) s :
  peerConn s = Some p -> HasRemoteDescription p = true ->
  (forall p' l, kept HasRemoteDescription offering p p' ->
     summary l = (summary (trace s)) <| t_applied ::= (fun k => k ++ cs) |> ->
     Q tt (s <| peerConn := Some p' |> <| trace := l |>)) ->
  wp (addCandidates cs) Q s.
Proof.
  revert p s. induction cs as [|c cs IH]; intros p s Hp Hr HQ; simpl.
  - apply wp_ret. specialize (HQ p (trace s)).
    replace s with (s <| peerConn := Some p |> <| trace := trace s |>).
    + apply HQ; [done|]. simpl. rewrite app_nil_r. by destruct (summary (trace s)).
    + destruct s; simpl in *. by subst.
  - apply wp_bind. eapply wp_addCandidate; [done..|]. intros p1 l1 [Hr1 Ho1] Hl1.
    apply (IH p1); [done|by rewrite Hr1|]. intros p2 l2 [Hr2 Ho2] Hl2. simpl in *.
    apply (HQ p2 l2); [split; congruence|]. rewrite Hl2, Hl1. simpl.
    by rewrite <- app_assoc.
Qed.

Lemma wp_flushCandidates p (Q : option error -> session F P E -> Prop) s :
  peerConn s = Some p -> HasRemoteDescription p = true ->
  (forall p' b l, kept HasRemoteDescription offering p p' ->
     summary l = (summary (trace s)) <| t_applied ::= (fun k => k ++ pendingCands s) |> ->
     Q None (s <| peerConn := Some p' |> <| trace := l |> <| pendingCands := [] |>
               <| remoteComplete := b |>)) ->
  wp flushCandidates Q s.
Proof.
  intros Hp Hr HQ. unfold flushCandidates. apply wp_bind.
  eapply wp_read_peer; [done|]. rewrite Hr. simpl.
  apply wp_bind, wp_gets, wp_bind. eapply wp_addCandidates; [done..|].
  intros p1 l1 [Hr1 Ho1] Hl1. apply wp_bind, wp_modify, wp_bind, wp_gets.
  match goal with |- wp (if ?c then _ else _) _ _ => destruct c eqn:Erc end.
  - apply wp_bind, wp_modify, wp_bind. eapply wp_with_peer; [done|]. apply wp_ret. simpl.
    pose proof (peer_end p1) as [Hr2 Ho2]. destruct (EndOfRemoteCandidates p1) as [err p2]. simpl in *.
    apply (HQ p2 false l1); [split; congruence|done].
  - apply wp_ret. by apply (HQ p1 (remoteComplete s) l1).
Qed.

Lemma wp_refreshCandidateStats p (Q : unit -> session F P E -> Prop) s :
  peerConn s = Some p ->
  (forall c, (is_Some c <-> is_Some (conn s)) -> Q tt (s <| conn := c |>)) ->
  wp refreshCandidateStats Q s.
Proof.
  intros Hp HQ. unfold refreshCandidateStats. apply wp_bind, wp_get.
  assert (Hid : Q tt s).
  { replace s with (s <| conn := conn s |>) by (by destruct s). by apply HQ. }
  destruct (conn s) as [c|] eqn:Ec; [|by apply wp_ret].
  apply wp_bind. eapply wp_read_peer; [done|].
  destruct (SelectedCandidatePair p) as [a b].
  destruct (_ && _); [by apply wp_ret|].
  apply wp_on_conn. simpl. rewrite Ec. by apply HQ.
Qed.

Lemma wp_armKeepAlive (Q : unit -> session F P E -> Prop) s :
  (forall t, (0 < Interval (KeepAlive cfg) -> is_Some (stream s) -> is_Some t \/ pinging s = true) ->
     (is_Some (keepaliveTimer s) -> is_Some t) ->
     Q tt (s <| keepaliveTimer := t |>)) ->
  wp (armKeepAlive cfg) Q s.
Proof.
  intros HQ. unfold armKeepAlive. apply wp_bind, wp_get.
  destruct ((Interval (KeepAlive cfg) <=? 0) || bool_decide (stream s = None) || pinging s) eqn:Ec.
  - apply wp_ret. replace s with (s <| keepaliveTimer := keepaliveTimer s |>) by (by destruct s).
    apply HQ; [|done]. intros Hi [st Hst]. rewrite Hst in Ec.
    rewrite bool_decide_eq_false_2 in Ec by done.
    right. destruct (pinging s); [done|]. lia.
  - apply wp_bind, wp_gets, wp_modify. by apply HQ; [left|].
Qed.

Lemma wp_armRecovery d (Q : unit -> session F P E -> Prop) s :
  (forall t, Q tt (s <| recoveryTimer := Some t |>)) -> wp (armRecovery d) Q s.
Proof. intros HQ. unfold armRecovery. apply wp_bind, wp_gets, wp_modify, HQ. Qed.

Lemma wp_backoffFor n (Q : Z -> session F P E -> Prop) s :
  (forall d e, env_now (ep s) <= env_now e -> Q d (s <| ep := e |>)) ->
  wp (backoffFor cfg n) Q s.
Proof.
  intros HQ. unfold backoffFor.
  assert (Hid : forall d, Q d s).
  { intros d. replace s with (s <| ep := ep s |>) by (by destruct s). apply HQ. lia. }
  cbv zeta. destruct (Initial _ <=? 0); [by apply wp_ret|].
  destruct (SFltb f_zero _); [|apply wp_ret, Hid].
  apply wp_bind, wp_with_ep, wp_ret. apply HQ, env_float_time.
Qed.

(** ** Recovery and keepalive *)

(** The fields of [core], after an update: the trace's summary is rewritten first. *)
Ltac sum_rw :=
  repeat (rewrite summary_snoc ||
          match goal with Hl : summary ?l = _ |- context [summary ?l] => rewrite Hl end).
Ltac core_tac Hc :=
  destruct Hc; constructor; simpl; sum_rw; simpl; try done; try lia; try tauto.

(** [core] only reads some fields. *)
Lemma core_frame s s' :
  core s ->
  summary (trace s') = summary (trace s) -> pendingCands s' = pendingCands s ->
  restartAttempt s' = restartAttempt s -> generation s' = generation s ->
  s_role s' = s_role s -> (is_Some (peerConn s') <-> is_Some (peerConn s)) ->
  releaseSlot s' = releaseSlot s -> delivered s' = delivered s ->
  (result_ch s = None -> result_ch s' = None) -> panicked s' = panicked s ->
  (stream_ok (stream s) -> stream_ok (stream s')) -> core s'.
Proof.
  intros Hc H1 H2 H3 H4 H5 H6 H7 H8 H9 H10 H11.
  destruct Hc; constructor; rewrite ?H1, ?H2, ?H3, ?H4, ?H5, ?H7, ?H8, ?H10; try done.
  - rewrite co_new0. f_equal. by apply bool_decide_ext.
  - naive_solver.
  - by apply H11.
Qed.

Lemma u32_bound z : 0 <= u32 z < 2 ^ 32.
Proof. unfold u32. apply Z.mod_pos_bound. lia. Qed.

Lemma wp_attemptRestart rest s :
  state s = StateRecovering -> live rest (s <| recoveryTimer := Some 0 |>) ->
  wp (attemptRestart cfg) (handled rest) s.
Proof.
  intros Hst [Hc (p & Hp & Hpr & Hpp) Hph Hpb Hev Hop].
  unfold attemptRestart. apply wp_bind, wp_get.
  destruct (_ || _) eqn:Eg.
  { apply wp_ret. eapply core_frame; [exact Hc|done..]. }
  rewrite !orb_false_iff, negb_false_iff, negb_false_iff, bool_decide_eq_true in Eg.
  destruct Eg as [[Hen Hro] Hma%Z.leb_gt].
  apply wp_bind, wp_gets, wp_bind, wp_modify, wp_bind, wp_get, wp_bind, wp_emit, wp_bind.
  unfold metric_ at 1. apply wp_emit, wp_bind. eapply wp_with_peer; [done|].
  pose proof (peer_offer true p) as (Ho1 & Ho2 & Ho3).
  destruct (CreateOffer true p) as [offer p1]. simpl in Hp, Ho1, Ho2, Ho3.
  assert (Hcore : forall e l t, summary l = sum_step (summary (trace s)) (LRestart (u32 (generation s + 1))) ->
    core (s <| restartAttempt := Z.succ (restartAttempt s) |> <| generation := u32 (generation s + 1) |>
            <| restartStarted := Some t |> <| peerConn := Some p1 |> <| trace := l |> <| ep := e |>)).
  { intros e l t Hl. destruct Hc; constructor; simpl in *; sum_rw; simpl; try done; try lia.
    - rewrite gens_ok_snoc. split; [done|]. by rewrite co_gen0.
    - apply gen_last_snoc.
    - by rewrite Hro.
    - by rewrite co_new0, Hp. }
  destruct offer as [sdp|e].
  - apply wp_bind, wp_sendSignal. intros err e l Ht Hl. simpl in Ht, Hl.
    rewrite !summary_snoc in Hl. destruct err as [err|].
    + unfold metric_. apply wp_bind, wp_emit, wp_ret. simpl.
      eapply core_frame; [apply (Hcore e l (env_now (ep s)) Hl)|try done..]. simpl. by rewrite summary_snoc.
    + apply wp_bind, wp_backoffFor. intros d e' Ht'. apply wp_bind, wp_armRecovery. intros t.
      apply wp_ret. simpl in *. constructor; try done.
      * eapply core_frame; [apply (Hcore e' l (env_now (ep s)) Hl)|done..].
      * exists p1. simpl. split; [done|]. rewrite Ho1. split; [|done].
        destruct Hpr as [?|[_ Hof]]; [by left|right]. split; [done|]. by apply Ho3.
      * unfold phase in *. simpl in *. rewrite Hst in *. destruct Hph as (?&?&?&?).
        split_and!; eauto.
  - unfold metric_. apply wp_bind, wp_emit, wp_ret. simpl.
    eapply core_frame;
      [apply (Hcore (ep s) (trace s ++ [LRestart (u32 (generation s + 1))]) (env_now (ep s)));
       by rewrite summary_snoc|try done..].
    simpl. by rewrite !summary_snoc.
Qed.

Lemma live_frame rest s s' :
  live rest s ->
  summary (trace s') = summary (trace s) -> pendingCands s' = pendingCands s ->
  restartAttempt s' = restartAttempt s -> generation s' = generation s ->
  s_role s' = s_role s -> peerConn s' = peerConn s ->
  releaseSlot s' = releaseSlot s -> delivered s' = delivered s ->
  (result_ch s = None -> result_ch s' = None) -> panicked s' = panicked s ->
  state s' = state s -> stream s' = stream s ->
  (is_Some (conn s') <-> is_Some (conn s)) -> negotiateTimer s' = negotiateTimer s ->
  (is_Some (keepaliveTimer s) -> is_Some (keepaliveTimer s')) ->
  (state s = StateRecovering -> is_Some (recoveryTimer s) -> is_Some (recoveryTimer s')) ->
  env_now (ep s) <= env_now (ep s') -> pinging s' = pinging s -> probe s' = probe s ->
  box s' = box s -> live rest s'.
Proof.
  intros [Hc Hp Hph Hpb Hev Hop] H1 H2 H3 H4 H5 H6 H7 H8 H9 H10 H11 H12 H13 H14 H15 H16 H17 H18 H19 H20.
  constructor.
  - eapply core_frame; try done; [by rewrite H6|by rewrite H12].
  - unfold peer_ready. by rewrite H2, H5, H6.
  - unfold phase in *. rewrite H8, H11, H14, H18.
    assert (Hn : forall A (a b : option A), (is_Some a <-> is_Some b) -> (a = None <-> b = None)).
    { intros A a b Hab. rewrite !eq_None_not_Some. tauto. }
    destruct (state s) eqn:Est; try done.
    1,2: destruct Hph as (Hs & Hcn & Hd & d & Hnt & Hle);
      rewrite H12, (Hn _ _ _ H13); split_and!; [done..|]; exists d; split; [done|lia].
    all: rewrite H12, H13; tauto.
  - unfold probing. by rewrite H18, H19, H20.
  - by rewrite H20.
  - by rewrite H20.
Qed.

Ltac frame Hl := norm; eapply live_frame; [exact Hl|simpl; sum_rw; simpl; try done; try lia..].

Lemma wp_onConnectivityLost rest s (Q : unit -> session F P E -> Prop) :
  live rest s -> 
  (state s <> StateConnected -> Q tt s) ->
  (state s = StateConnected ->
   forall s', live rest s' -> state s' = StateRecovering -> Q tt s') ->
  wp (onConnectivityLost cfg) Q s.
Proof.
  intros Hl Hn Hy. unfold onConnectivityLost. apply wp_bind, wp_get.
  destruct (bool_decide_reflect (state s = StateConnected)) as [Hs|Hs]; simpl.
  2: by apply wp_ret, Hn.
  apply wp_bind, wp_modify, wp_bind, wp_on_conn, wp_armRecovery. intros t. apply Hy; [done| |done].
  destruct Hl as [Hc Hp Hph Hpb Hev Hop]. constructor; try done.
  - eapply core_frame; [exact Hc|done..].
  - unfold phase in *. simpl. rewrite Hs in Hph. destruct Hph as (? & ? & ? & _).
    split_and!; try done. by rewrite fmap_is_Some.
Qed.

Lemma live_recovery rest s t :
  live rest s -> state s = StateRecovering -> live rest (s <| recoveryTimer := Some t |>).
Proof. intros Hl Hs. frame Hl. Qed.

Lemma wp_onConnectivityFailed rest s :
  live rest s -> wp (onConnectivityFailed cfg) (handled rest) s.
Proof.
  intros Hl. unfold onConnectivityFailed. apply wp_bind, wp_get.
  destruct (state s) eqn:Hs; try (apply wp_ret; apply Hl).
  - apply wp_bind. eapply wp_onConnectivityLost; [exact Hl|congruence|].
    intros _ s' Hl' Hs'. apply wp_attemptRestart; [done|]. by apply live_recovery.
  - apply wp_attemptRestart; [done|]. by apply live_recovery.
Qed.

Lemma wp_onRecoveryDeadline s d :
  live [] s -> recoveryTimer s = Some d ->
  wp (onRecoveryDeadline cfg) (handled []) (s <| recoveryTimer := None |>).
Proof.
  intros Hl Hd. unfold onRecoveryDeadline. apply wp_bind, wp_get. simpl.
  destruct (bool_decide_reflect (state s = StateRecovering)) as [Hs|Hs]; simpl.
  - apply wp_attemptRestart; [done|]. by apply (live_recovery [] s 0).
  - apply wp_ret. frame Hl.
Qed.

(** The end of [onConnectivityUp]. *)
Lemma wp_recovered rest s :
  live rest (s <| state := StateRecovering |> <| recoveryTimer := Some 0 |>) ->
  state s = StateConnected ->
  wp (modify (fun s => s <| restartAttempt := 0 |>);; emit LRecovered;; armKeepAlive cfg)
    (fun _ => live rest) s.
Proof.
  intros [Hco Hpe Hph Hpb Hev Hop] Hs.
  apply wp_bind, wp_modify, wp_bind, wp_emit, wp_armKeepAlive. intros t Ht _.
  constructor; try done.
  - destruct Hco; constructor; simpl in *; sum_rw; simpl; try done; try lia.
  - unfold phase in *. simpl in *. rewrite Hs. destruct Hph as (Hst & Hcn & Hd & _).
    split_and!; try done. intros Hi. by apply Ht.
Qed.

Lemma wp_onConnectivityUp rest s :
  live rest s -> wp (onConnectivityUp cfg) (fun _ => live rest) s.
Proof.
  intros Hl. pose proof (li_peer _ _ Hl) as (p & Hp & _).
  unfold onConnectivityUp. apply wp_bind. eapply wp_refreshCandidateStats; [done|].
  intros c Hc. apply wp_bind, wp_modify, wp_bind, wp_get. simpl.
  destruct (bool_decide_reflect (state s = StateRecovering)) as [Hs|Hs]; simpl.
  2: { apply wp_ret. frame Hl. }
  apply wp_bind, wp_modify, wp_bind, wp_on_conn, wp_bind.
  destruct (restartStarted s) as [t0|].
  - apply wp_bind, wp_modify, wp_bind, wp_gets, wp_bind. unfold metric_. norm.
    apply wp_emit, wp_bind, wp_emit, wp_bind, wp_modify, wp_bind, wp_gets, wp_on_conn. norm.
    apply wp_recovered; [|reflexivity]. frame Hl. rewrite <- Hc. by destruct c.
  - apply wp_ret. norm. apply wp_recovered; [|reflexivity]. frame Hl. rewrite <- Hc. by destruct c.
Qed.

Lemma live_next ev rest s : is_keepalive ev = false -> live (ev :: rest) s -> live rest s.
Proof.
  intros He [Hc Hp Hph [Hb1 Hb2] Hev Hop]. constructor; try done.
  - unfold probing in *. simpl in *. rewrite He in *. done.
  - by inversion Hev.
Qed.

Lemma wp_onKeepAlive res rest s :
  live (SevKeepalive res :: rest) s -> wp (onKeepAlive cfg res) (handled rest) s.
Proof.
  intros [Hc Hp Hph [Hb1 Hb2] Hev Hop]. unfold onKeepAlive. apply wp_bind, wp_modify.
  assert (Hn : (probes (rest ++ mb_items (box s)) + b2n (probe s) = 0)%nat).
  { simpl in Hb1. destruct (pinging s); simpl in Hb1; lia. }
  assert (Hev' : Forall event_ok (rest ++ mb_items (box s))) by by inversion Hev.
  destruct (ka_err res) as [e|].
  - apply wp_bind. unfold metric_. apply wp_emit, wp_bind, wp_get. norm.
    destruct (bool_decide_reflect (state s = StateConnected)) as [Hs|Hs].
    + (* the lost connection is recovered, or not *)
      apply wp_bind. unfold onConnectivityLost. apply wp_bind, wp_get. norm.
      rewrite bool_decide_eq_true_2 by done. simpl negb. cbv iota.
      apply wp_bind, wp_modify, wp_bind, wp_on_conn, wp_armRecovery. intros t. norm.
      apply wp_attemptRestart; [done|]. norm. constructor; simpl; try done.
      * eapply core_frame; [exact Hc|simpl; sum_rw; done..].
      * unfold phase in *. rewrite Hs in Hph. simpl. destruct Hph as (? & ? & ? & _).
        split_and!; try done. by rewrite fmap_is_Some.
      * split; simpl; [lia|done].
    + apply wp_ret. constructor; simpl; try done.
      * eapply core_frame; [exact Hc|simpl; sum_rw; done..].
      * unfold phase in *. simpl. by destruct (state s).
      * split; simpl; [lia|done].
  - apply wp_bind. unfold metric_. apply wp_emit, wp_bind, wp_on_conn. norm.
    apply wp_bind, wp_armKeepAlive. intros t Ht _. apply wp_ret. norm. constructor; simpl; try done.
    + eapply core_frame; [exact Hc|simpl; sum_rw; done..].
    + unfold phase in *. simpl in *. destruct (state s); try done.
      * destruct Hph as (? & Hcn & ?). rewrite Hcn. done.
      * destruct Hph as (? & Hcn & ?). rewrite Hcn. done.
      * destruct Hph as (? & ? & ? & ?). split_and!; try done; [by rewrite fmap_is_Some|].
        intros Hi. by apply Ht.
      * destruct Hph as (? & ? & ? & ?). split_and!; try done. by rewrite fmap_is_Some.
    + split; simpl; [lia|done].
Qed.

Lemma wp_deliver c rest s :
  core s -> delivered s = false -> peer_ready s -> phase (s <| delivered := true |>) ->
  probing rest s -> Forall event_ok (rest ++ mb_items (box s)) -> mb_closed (box s) = false ->
  wp (deliver c) (handled rest) s.
Proof.
  intros Hc Hd Hp Hph Hpb Hev Hop. destruct (co_undelivered _ Hc Hd) as (Hq & Hres & Henq).
  unfold deliver. apply wp_bind, wp_modify, wp_bind, wp_get.
  match goal with |- wp (match ?r with _ => _ end) _ _ => destruct r eqn:Hr end; norm; simpl in Hr.
  - rewrite Hq. apply wp_bind, wp_modify, wp_bind, wp_emit, wp_ret. norm. constructor; try done.
    destruct Hc; constructor; simpl; sum_rw; simpl; try done; [|congruence].
    intros _ _. exists c. by rewrite Hres.
  - apply wp_bind, wp_with_ep. norm.
    set (slot := if releaseSlot s then Some (s_uid s) else None).
    pose proof (env_enqueue_time c slot (ep s)) as Ht.
    destruct (env_enqueueInbound c slot (ep s)) as [[e|] e']; simpl in Ht.
    + apply wp_bind, wp_emit, wp_ret. norm.
      destruct Hc; constructor; simpl; sum_rw; simpl; try done. congruence.
    + apply wp_bind, wp_emit, wp_bind, wp_modify, wp_ret. norm. constructor; try done.
      * destruct Hc; constructor; simpl; sum_rw; simpl; try done; [|congruence].
        rewrite Henq in *. rewrite Hr in co_slot0.
        rewrite Hr. simpl in *. destruct (releaseSlot s); simpl in *; lia.
      * unfold phase in *. simpl in *. destruct (state s); try done.
        all: by destruct Hph as (_ & _ & ? & _).
Qed.

Lemma wp_onChannelOpen rest s : live rest s -> wp (onChannelOpen cfg) (handled rest) s.
Proof.
  intros Hl. pose proof (li_peer _ _ Hl) as (p & Hp & Hpr & Hpp).
  unfold onChannelOpen. apply wp_bind, wp_get.
  destruct (stream s) as [st|] eqn:Est; [by apply wp_ret|].
  apply wp_bind. eapply wp_read_peer; [done|].
  destruct (_ && _); [apply wp_ret; apply Hl|].
  apply wp_bind. eapply wp_with_peer; [done|].
  pose proof (peer_detach p) as [Hk1 Hk2]. destruct (Detach p) as [err p1]. simpl in Hk1, Hk2. simpl fst.
  destruct (wrapErr _ err _) as [e|].
  { apply wp_ret. eapply core_frame; [apply Hl|simpl; rewrite ?Hp; done..]. }
  apply wp_bind, wp_modify, wp_bind, wp_gets, wp_bind, wp_get, wp_bind, wp_modify. norm.
  apply wp_bind. eapply wp_refreshCandidateStats; [done|]. intros c Hc. norm.
  apply wp_bind. unfold metric_. apply wp_emit, wp_bind. norm. apply wp_armKeepAlive. intros t Ht _. norm.
  apply wp_bind, wp_get. norm. destruct c as [c|]; [|by destruct Hc as [_ [? ?]]].
  destruct Hl as [Hco Hpe Hph Hpb Hev Hop].
  assert (Hd : delivered s = false).
  { unfold phase in Hph. destruct (state s); try tauto; destruct Hph as ([? Hst] & _); congruence. }
  apply wp_deliver; try done.
  - eapply core_frame; [exact Hco|simpl; sum_rw; rewrite ?Hp; try done..].
    intros _ st' [= <-]. apply ctl_NewStream.
  - exists p1. simpl. rewrite Hk1, Hk2. done.
  - unfold phase. simpl. split_and!; try done. intros Hi. apply Ht; done.
Qed.

Lemma wp_onPionEvent ev rest s :
  live rest s -> event_ok (SevPion ev) -> wp (onPionEvent cfg ev) (handled rest) s.
Proof.
  intros Hl Hev. pose proof (li_core _ _ Hl) as Hc.
  unfold onPionEvent. apply wp_bind, wp_get. destruct (ev_Kind ev) eqn:Ek.
  - apply wp_bind, wp_sendSignal. intros err e l Ht Hs.
    assert (Hl' : live rest (s <| ep := e |> <| trace := l |>)) by (frame Hl).
    destruct err as [err|]; [|by apply wp_ret].
    match goal with |- wp (if ?b then _ else _) _ _ => destruct b end; apply wp_ret; [apply Hl'|done].
  - apply wp_bind, wp_sendSignal. intros err e l Ht Hs. apply wp_ret. frame Hl.
  - apply wp_bind. eapply wp_mono; [by apply wp_onConnectivityUp|]. intros [] s' Hl'. by apply wp_ret.
  - apply wp_bind. eapply wp_onConnectivityLost; [exact Hl|by intros; apply wp_ret|].
    intros _ s' Hl' _. by apply wp_ret.
  - by apply wp_onConnectivityFailed.
  - destruct (bool_decide _); by apply wp_ret.
  - by apply wp_onChannelOpen.
  - destruct (stream s); by apply wp_ret.
  - destruct (is_err _ _); [by apply wp_ret|].
    destruct (bool_decide _); [|by apply wp_ret].
    destruct (ev_Err ev) eqn:Ee; [by apply wp_ret|]. by destruct Hev.
Qed.

Lemma wp_dropSignal (Q : unit -> session F P E -> Prop) s :
  (forall l, summary l = summary (trace s) -> Q tt (s <| trace := l |>)) -> wp dropSignal Q s.
Proof.
  intros HQ. unfold dropSignal, metric_. apply wp_emit.
  apply (HQ (trace s ++ _)). by rewrite summary_snoc.
Qed.

Lemma wp_dropped rest s :
  live rest s -> wp (dropSignal;; mret None) (handled rest) s.
Proof. intros Hl. apply wp_bind, wp_dropSignal. intros l Hs. apply wp_ret. frame Hl. Qed.

Lemma wp_onRestartSignal sig rest s :
  live rest s -> wp (onRestartSignal cfg sig) (handled rest) s.
Proof.
  intros Hl. pose proof (li_peer _ _ Hl) as (p & Hp & Hpr & Hpp). pose proof (li_core _ _ Hl) as Hc.
  unfold onRestartSignal, decoded. destruct (decodeRestart _) as [body|e]; [|by apply wp_ret].
  apply wp_bind, wp_get. destruct (Z.leb_spec (rp_Generation body) (generation s)) as [Hg|Hg].
  { by apply wp_dropped. }
  apply wp_bind, wp_modify, wp_bind, wp_emit, wp_bind. norm. eapply wp_with_peer; [done|]. norm.
  pose proof (peer_remote_offer (rp_SDP body) p) as (Ho1 & Ho2 & Ho3).
  destruct (SetRemoteOffer (rp_SDP body) p) as [err p1]. simpl in Ho1, Ho2, Ho3. norm.
  assert (Hcore : forall e l p', summary l = sum_step (summary (trace s)) (LAccepted (rp_Generation body)) ->
    core (s <| generation := rp_Generation body |> <| peerConn := Some p' |> <| trace := l |> <| ep := e |>)).
  { intros e l p' Hl'. destruct Hc; constructor; simpl in *; sum_rw; simpl; try done; try lia.
    - rewrite gens_ok_snoc. split; [done|]. by rewrite co_gen0.
    - apply gen_last_snoc.
    - intros Hr. apply Forall_app. split; [by apply co_own0|by repeat constructor].
    - by rewrite co_new0, Hp. }
  destruct err as [err|]; simpl.
  { apply wp_ret. apply (Hcore (ep s)). by rewrite summary_snoc. }
  apply wp_bind. eapply wp_with_peer; [done|]. norm.
  pose proof (peer_answer p1) as [Ha1 Ha2]. destruct (CreateAnswer p1) as [ans p2]. simpl in Ha1, Ha2. norm.
  destruct ans as [sdp|e].
  2: { apply wp_ret. apply (Hcore (ep s)). by rewrite summary_snoc. }
  apply wp_bind, wp_sendSignal. intros err e l Ht Hs. norm. simpl in Ht, Hs. rewrite summary_snoc in Hs.
  apply wp_ret. destruct err as [err|]; simpl; [by apply (Hcore e)|].
  destruct Hl as [Hco Hpe Hph Hpb Hev Hop]. constructor; try done.
  - by apply (Hcore e).
  - exists p2. simpl. rewrite Ha1, Ho1 by done. split; [done|]. split; [by left|].
    intros _. apply Hpp. destruct Hpr as [?|[_ Hof]]; [done|]. by destruct (Ho3 Hof).
  - unfold phase in *. simpl in *. destruct (state s); try done.
    all: destruct Hph as (? & ? & ? & d & ? & ?); split_and!; try done; exists d; split; [done|lia].
Qed.

(** ** The signals *)

Lemma wp_candidate body rest s :
  live rest s ->
  wp (let cand := {| Candidate_line := cp_Candidate body; SDPMid := cp_SDPMid body;
                     SDPMLineIndex := cp_SDPMLineIndex body;
                     UsernameFragment := cp_UsernameFragment body |} in
      has ← read_peer false HasRemoteDescription;
      if negb has then
        s ← get_s;
        if maxPendingCandidates <=? zlen (pendingCands s) then
          mret (Some (intentFor (errorf ErrProtocol
            "pipe: peer sent more than %d candidates before its description" None)))
        else
          emit (LReceived cand);;
          modify (fun s => s <| pendingCands ::= (fun l => l ++ [cand]) |>);; mret None
      else emit (LReceived cand);; addCandidate cand;; mret None) (handled rest) s.
Proof.
  intros Hl. destruct Hl as [Hc (p & Hp & Hpr & Hpp) Hph Hpb Hev Hop].
  cbv zeta. apply wp_bind. eapply wp_read_peer; [done|].
  destruct (HasRemoteDescription p) eqn:Eh; simpl negb; cbv iota.
  - apply wp_bind, wp_emit, wp_bind. norm. eapply wp_addCandidate; [exact Hp|done|].
    intros p' l [Hk1 Hk2] Hsum. apply wp_ret. norm. simpl in Hsum. rewrite summary_snoc in Hsum.
    constructor; try done.
    + destruct Hc; constructor; simpl; sum_rw; simpl; try done.
      * rewrite co_cands0, (Hpp eq_refl). by rewrite !app_nil_r.
      * by rewrite co_new0, Hp.
    + exists p'. simpl. rewrite Hk1, Eh. split; [done|]. split; [by left|]. done.
  - apply wp_bind, wp_get. destruct (Z.leb_spec maxPendingCandidates (zlen (pendingCands s))) as [Hm|Hm].
    { apply wp_ret. done. }
    apply wp_bind, wp_emit, wp_bind, wp_modify, wp_ret. norm. constructor; try done.
    + destruct Hc; constructor; simpl; sum_rw; simpl; try done.
      * by rewrite co_cands0, <- app_assoc.
      * rewrite zlen_app, zlen_cons, zlen_nil. lia.
    + exists p. simpl. split; [done|]. split; [by rewrite Eh|]. by rewrite Eh.
Qed.

Lemma wp_answer body rest s :
  live rest s ->
  wp (err ← with_peer None (SetRemoteAnswer (sp_SDP body));
      match wrapErr ErrNegotiation err "pipe: apply answer" with
      | Some e => mret (Some (intentFor e))
      | None =>
        modify (fun s => s <| restartAttempt := 0 |>);;
        emit LAnswered;;
        modify (fun s => if bool_decide (state s = StateSignaling)
                         then s <| state := StateConnecting |> else s);;
        err ← flushCandidates;
        mret (intentFor <$> err)
      end) (handled rest) s.
Proof.
  intros Hl. destruct Hl as [Hc (p & Hp & Hpr & Hpp) Hph Hpb Hev Hop].
  apply wp_bind. eapply wp_with_peer; [done|].
  pose proof (peer_remote_answer (sp_SDP body) p) as [Ha1 Ha2].
  destruct (SetRemoteAnswer (sp_SDP body) p) as [err p1]. simpl in Ha1, Ha2. norm.
  destruct err as [err|]; simpl wrapErr; cbv iota.
  { apply wp_ret. eapply core_frame; [exact Hc|simpl; rewrite ?Hp; done..]. }
  apply wp_bind, wp_modify, wp_bind, wp_emit, wp_bind, wp_modify, wp_bind. norm.
  assert (Hst : exists st, st = (if bool_decide (state s = StateSignaling) then StateConnecting else state s)) by eauto.
  destruct Hst as [st Hst].
  match goal with |- wp _ _ (if ?b then ?x else ?y) =>
    assert (Hx : (if b then x else y) = y <| state := st |>) end.
  { rewrite Hst. destruct (bool_decide _); reflexivity. }
  rewrite Hx. clear Hx. eapply (wp_flushCandidates p1); [reflexivity|by apply Ha1|].
  intros p2 b l [Hk1 Hk2] Hsum. apply wp_ret. simpl in Hsum. rewrite summary_snoc in Hsum. norm.
  constructor; try done.
  - destruct Hc; constructor; simpl; sum_rw; simpl; try done; try lia.
    + by rewrite co_cands0, app_nil_r.
    + by rewrite co_new0, Hp.
  - exists p2. simpl. rewrite Hk1, Ha1 by done. split; [done|]. split; [by left|done].
  - unfold phase in *. simpl. rewrite Hst.
    destruct (bool_decide_reflect (state s = StateSignaling)) as [E'|E']; [by rewrite E' in Hph|].
    by destruct (state s).
Qed.

Lemma wp_onSignal sig rest s : live rest s -> wp (onSignal cfg sig) (handled rest) s.
Proof.
  intros Hl. pose proof (li_peer _ _ Hl) as (p & Hp & Hpr & Hpp). pose proof (li_core _ _ Hl) as Hc.
  unfold onSignal, decoded. apply wp_bind, wp_get.
  destruct (bool_decide (Kind sig = KindAnswer)).
  { destruct (negb _); [by apply wp_dropped|].
    apply wp_bind. eapply wp_read_peer; [done|].
    match goal with |- wp (if ?b then _ else _) _ _ => destruct b end; [by apply wp_dropped|].
    destruct (decodeSdp _) as [body|e]; [|by apply wp_ret]. by apply wp_answer. }
  destruct (bool_decide (Kind sig = KindOffer)); [by apply wp_dropped|].
  destruct (bool_decide (Kind sig = KindRestart)); [by apply wp_onRestartSignal|].
  destruct (bool_decide (Kind sig = KindCandidate)).
  { destruct (decodeCandidate _) as [body|e]; [|by apply wp_ret]. by apply wp_candidate. }
  destruct (bool_decide (Kind sig = KindICEComplete)).
  { apply wp_bind. eapply wp_read_peer; [done|].
    destruct (HasRemoteDescription p) eqn:Eh; simpl negb; cbv iota.
    - apply wp_bind. eapply wp_with_peer; [done|]. apply wp_ret. norm.
      pose proof (peer_end p) as [Hk1 Hk2]. destruct (EndOfRemoteCandidates p) as [err p1]. simpl in Hk1, Hk2.
      simpl. destruct Hl as [? ? Hph Hpb Hev Hop]. constructor; try done.
      + eapply core_frame; [exact Hc|simpl; rewrite ?Hp; done..].
      + exists p1. simpl. rewrite Hk1, Hk2, Eh. done.
    - apply wp_bind, wp_modify, wp_ret. frame Hl. }
  destruct (bool_decide (Kind sig = KindReject)).
  { destruct (decodeReject _) as [body|e]; [|by apply wp_ret].
    by apply wp_bind, wp_get, wp_ret. }
  destruct (bool_decide (Kind sig = KindClose)); [|by apply wp_ret].
  destruct (decodeClose _) as [body|e]; [|by apply wp_ret].
  apply wp_bind, wp_get.
  match goal with |- wp (if ?b then _ else _) _ _ => destruct b end; [by apply wp_ret|].
  apply wp_bind, wp_modify, wp_bind, wp_get. norm. destruct (lingerTimer s).
  - apply wp_ret. frame Hl.
  - apply wp_bind, wp_gets, wp_bind, wp_modify, wp_ret. frame Hl.
Qed.

Lemma wp_handle ev rest s : live (ev :: rest) s -> wp (handle cfg ev) (handled rest) s.
Proof.
  intros Hl. destruct ev as [sig|ev|res|i]; simpl.
  - apply wp_onSignal. by apply (live_next (SevSignal sig)).
  - apply wp_onPionEvent; [by apply (live_next (SevPion ev))|]. pose proof (li_events _ _ Hl) as Hev. by inversion Hev.
  - by apply wp_onKeepAlive.
  - apply wp_ret. apply Hl.
Qed.

Lemma wp_handle_all rest s : live rest s -> wp (handle_all cfg rest) (handled []) s.
Proof.
  revert s. induction rest as [|ev rest IH]; intros s Hl; simpl; [by apply wp_ret|].
  apply wp_bind. eapply wp_mono; [by apply wp_handle|].
  intros [i|] s' Hs'; [by apply wp_ret|by apply IH].
Qed.
End inv.
