(* ===== verification/SessionRun.v ===== *)
(** * The session goroutine from start to end

    [inv] says what holds at each place of the session goroutine, and every step of the
    session and of what runs beside it preserves it. *)

From Stdlib Require Import String.
From S2P Require Import Prelude.
From S2P Require Import Errors.
From S2P Require Import Stream.
From S2P Require Import StreamCtl.
From S2P Require Import Mailbox.
From S2P Require Import Signal.
From S2P Require Import Config.
From S2P Require Import Conn.
From S2P Require Import Metrics.
From S2P Require Import Pionx.
From S2P Require Import Session.
From S2P Require Import SessionInv.

#[local] Arguments newSignal : simpl never.
#[local] Arguments summary : simpl never.

Section run.
Context {F P E : Type} `{PeerConn F P} `{Env E} `{!PeerLaws F P, !EnvLaws E}.
Variable cfg : Config.Config.
Implicit Types s : session F P E.

(** Before the first step: nothing but events posted early. *)
Record fresh (offer : option Signal) s : Prop := {
  fr_core : core cfg s;
  fr_peer : peerConn s = None; fr_stream : stream s = None; fr_conn : conn s = None;
  fr_delivered : delivered s = false; fr_pending : pendingCands s = [];
  fr_probe : probing [] s; fr_events : Forall event_ok (mb_items (box s));
  fr_open : mb_closed (box s) = false;
  fr_offer : s_role s = roleAnswerer -> is_Some offer
}.

(** Every timer stopped and the mailbox closed. *)
Definition quiet s : Prop :=
  negotiateTimer s = None /\ recoveryTimer s = None /\ keepaliveTimer s = None /\
  lingerTimer s = None /\ mb_closed (box s) = true.

(** The stream was ended, once; the rest is as [core] says. *)
Definition torn s : Prop :=
  quiet s /\ is_Some (stream s) /\
  exists l, core cfg (s <| trace := l |>) /\
    summary (trace s) = summary l <| t_ends ::= Datatypes.S |>.

Record ended s : Prop := {
  en_quiet : quiet s;
  en_peer : t_closed (summary (trace s)) = t_new (summary (trace s));
  en_new : (t_new (summary (trace s)) <= 1)%nat;
  en_removed : t_removed (summary (trace s)) = 1%nat;
  en_slot : (t_released (summary (trace s)) + t_enq (summary (trace s)) =
             b2n (bool_decide (s_role s = roleAnswerer)))%nat;
  en_slot_gone : releaseSlot s = false;
  en_ends : t_ends (summary (trace s)) = b2n (bool_decide (is_Some (stream s)));
  en_results : match s_role s with
               | roleOfferer => exists r, t_results (summary (trace s)) = [r]
               | roleAnswerer => t_results (summary (trace s)) = []
               end;
  en_early : t_early (summary (trace s)) = false;
  en_cands : t_applied (summary (trace s)) `prefix_of` t_received (summary (trace s));
  en_gens : gens_ok 0 (t_gens (summary (trace s)));
  en_own : s_role s = roleAnswerer ->
           Forall (fun g => fst g = false) (t_gens (summary (trace s)));
  en_since : 0 <= t_since (summary (trace s)) <= Z.max 0 (MaxAttempts (Reconnect cfg));
  en_finished : finished s = true;
  en_panic : panicked s = false
}.

Definition inv s : Prop :=
  match pc s with
  | PcStart offer => fresh offer s
  | PcLoop => live cfg [] s
  | PcTeardown _ => core cfg s
  | PcAwait _ => torn s
  | PcDone => ended s
  end.

(** ** The start *)

(** [start] leaves a session ready for its loop, but for the timer and the position. *)
Definition started (err : option error) s : Prop :=
  match err with
  | Some _ => core cfg s
  | None => forall d, d <= env_now (ep s) + DialTimeout cfg -> live cfg [] (s <| negotiateTimer := Some d |>)
  end.

Lemma core_pc s q : core cfg s -> core cfg (s <| pc := q |>).
Proof. intros Hc. by eapply core_frame. Qed.

Lemma live_pc rest s q : live cfg rest s -> live cfg rest (s <| pc := q |>).
Proof. intros Hl. by eapply live_frame. Qed.

Lemma core_new s (p : P) l :
  core cfg s -> peerConn s = None -> summary l = sum_step (summary (trace s)) LNewPeer ->
  core cfg (s <| peerConn := Some p |> <| trace := l |>).
Proof.
  intros Hc Hp Hl. destruct Hc; constructor; simpl in *; rewrite ?Hl; simpl; try done.
  by rewrite co_new, Hp.
Qed.

Lemma wp_start_offerer s offer :
  fresh offer s -> s_role s = roleOfferer -> wp (start cfg offer) started s.
Proof.
  intros [Hc Hp Hst Hcn Hd Hpe Hpb Hev Hop _] Hr. unfold start. apply wp_bind, wp_get. rewrite Hr.
  destruct (NewOfferer (factory s)) as [[p|e] f] eqn:En.
  2: { apply wp_bind, wp_modify, wp_ret. by eapply core_frame. }
  pose proof (peer_new _ _ _ En) as Hnew.
  apply wp_bind, wp_modify, wp_bind, wp_modify, wp_bind, wp_emit, wp_bind. norm.
  eapply wp_with_peer; [done|]. norm.
  pose proof (peer_offer false p) as (Ho1 & Ho2 & Ho3).
  destruct (CreateOffer false p) as [[sdp|e] p1]; simpl in Ho1, Ho2, Ho3; norm.
  2: { apply wp_ret. eapply core_frame;
       [apply (core_new s p1 (trace s ++ [LNewPeer]) Hc Hp); by rewrite summary_snoc|done..]. }
  apply wp_bind, wp_modify, wp_sendSignal. intros err e l Ht Hs. norm. simpl in Ht, Hs.
  rewrite summary_snoc in Hs.
  assert (Hcore : core cfg (s <| peerConn := Some p1 |> <| trace := l |>)) by by apply core_new.
  destruct err as [err|].
  { eapply core_frame; [exact Hcore|done..]. }
  intros d Hdl. constructor; try done.
  - eapply core_frame; [exact Hcore|done..].
  - exists p1. simpl. rewrite Ho1, Hnew. split; [done|]. split; [|done]. right. auto.
  - simpl. split_and!; try done. by exists d.
Qed.

Lemma wp_start_answerer s offer :
  fresh offer s -> s_role s = roleAnswerer -> wp (start cfg offer) started s.
Proof.
  intros [Hc Hp Hst Hcn Hd Hpe Hpb Hev Hop Hof] Hr. unfold start. apply wp_bind, wp_get. rewrite Hr.
  destruct (Hof Hr) as [sig ->].
  destruct (NewAnswerer (factory s)) as [[p|e] f] eqn:En.
  2: { apply wp_bind, wp_modify, wp_ret. by eapply core_frame. }
  apply wp_bind, wp_modify, wp_bind, wp_modify, wp_bind, wp_emit. norm.
  assert (Hcore : forall q l, summary l = sum_step (summary (trace s)) LNewPeer ->
    core cfg (s <| peerConn := Some q |> <| trace := l |>)) by (intros; by apply core_new).
  assert (Hsum : summary (trace s ++ [LNewPeer]) = sum_step (summary (trace s)) LNewPeer)
    by by rewrite summary_snoc.
  destruct (decodeSdp _) as [body|e].
  2: { apply wp_ret. eapply core_frame; [exact (Hcore p _ Hsum)|done..]. }
  apply wp_bind. eapply wp_with_peer; [done|]. norm.
  pose proof (peer_remote_offer (sp_SDP body) p) as (Ho1 & _).
  destruct (SetRemoteOffer (sp_SDP body) p) as [[err|] p1]; simpl in Ho1; norm.
  { apply wp_ret. eapply core_frame; [exact (Hcore p1 _ Hsum)|done..]. }
  simpl wrapErr. cbv iota. apply wp_bind. eapply wp_with_peer; [done|]. norm.
  pose proof (peer_answer p1) as [Ha1 _].
  destruct (CreateAnswer p1) as [[sdp|e] p2]; simpl in Ha1; norm.
  2: { apply wp_ret. eapply core_frame; [exact (Hcore p2 _ Hsum)|done..]. }
  apply wp_bind, wp_modify, wp_bind, wp_sendSignal. intros err e l Ht Hs. norm. simpl in Ht, Hs.
  rewrite Hsum in Hs. destruct err as [err|].
  { apply wp_ret. eapply core_frame; [exact (Hcore p2 l Hs)|done..]. }
  eapply (wp_flushCandidates p2); [done|by rewrite Ha1, Ho1|].
  intros p3 b l' [Hk1 Hk2] Hs'. norm. simpl in Hs'. rewrite Hpe, Hs in Hs'.
  intros d Hdl. constructor; try done.
  - eapply core_frame; [apply (Hcore p3 l')|try done..]. rewrite Hs'. simpl. rewrite app_nil_r.
    by destruct (summary (trace s)).
  - exists p3. simpl. rewrite Hk1, Ha1, Ho1 by done. split; [done|]. split; [by left|done].
  - simpl. split_and!; try done. by exists d.
Qed.

(** What [goto] makes of a handled step. *)
Lemma goto_inv (m : state_m (session F P E) (option closeIntent)) s :
  wp m (handled cfg []) s -> inv (goto (m s)).
Proof.
  intros Hm. apply wp_elim in Hm. destruct (m s) as [[i|] s']; simpl in Hm; unfold inv; simpl.
  - by eapply core_frame.
  - by eapply live_frame.
Qed.

Lemma begin_inv offer s : fresh offer s -> inv (goto (begin cfg offer s)).
Proof.
  intros Hf. apply goto_inv. unfold begin. apply wp_bind, wp_gets, wp_bind, wp_modify, wp_bind.
  match goal with |- wp _ _ ?x => set (s1 := x) end.
  assert (Hf1 : fresh offer s1).
  { destruct Hf. constructor; try done. by eapply core_frame. }
  assert (Hs : wp (start cfg offer) started s1).
  { destruct (s_role s1) eqn:Hr; [by apply wp_start_offerer|by apply wp_start_answerer]. }
  eapply wp_mono; [exact Hs|]. intros [err|] s2 Hs2; [by apply wp_ret|].
  apply wp_bind, wp_gets, wp_bind, wp_modify, wp_ret. simpl. apply Hs2. lia.
Qed.

(** ** The loop *)

Lemma stream_live s : live cfg [] s -> stream s <> None -> delivered s = true.
Proof.
  intros [_ _ Hph _ _ _] Hs. unfold phase in Hph. destruct (state s); try tauto.
  all: by destruct Hph as (? & ?).
Qed.

Lemma loop_body_inv sel s : live cfg [] s -> ready sel s = true -> inv (goto (loop_body cfg sel s)).
Proof.
  intros Hl Hr. apply goto_inv. unfold loop_body. apply wp_bind, wp_get.
  pose proof (li_core _ _ _ Hl) as Hc.
  destruct sel; simpl in Hr.
  - unfold mb_wait. rewrite Hr. simpl. apply wp_bind, wp_modify. norm.
    destruct (mb_overflow (box s)) eqn:Eov.
    { apply wp_ret. by eapply core_frame. }
    apply wp_handle_all. destruct Hl as [_ Hp Hph [Hb1 Hb2] Hev Hop]. simpl in *.
    constructor; try done.
    + by eapply core_frame.
    + unfold probing in *. simpl. rewrite app_nil_r. split; [done|].
      intros Hpi. destruct (Hb2 Hpi); [by left|congruence].
    + simpl. by rewrite app_nil_r.
  - apply wp_bind, wp_modify. norm.
    destruct (state s) eqn:Est; try (apply wp_ret; by eapply core_frame).
    all: apply wp_ret; destruct Hl as [_ Hp Hph Hpb Hev Hop]; constructor; try done; [by eapply core_frame|].
    all: unfold phase in *; simpl; rewrite Est in *; done.
  - unfold due in Hr. destruct (recoveryTimer s) as [d|] eqn:Ed; [|done].
    apply wp_bind, wp_modify. by apply (wp_onRecoveryDeadline cfg s d).
  - apply wp_bind, wp_modify, wp_bind. unfold startProbe. apply wp_bind, wp_get.
    destruct Hl as [_ Hp Hph [Hb1 Hb2] Hev Hop]. simpl in Hb1, Hb2.
    match goal with |- wp (if ?b then _ else _) _ _ => destruct b eqn:Eg end; simpl in Eg.
    + apply wp_ret, wp_ret. constructor; try done; [by eapply core_frame|].
      unfold phase in *. simpl in *. destruct (state s); try done.
      destruct Hph as ([st Hst] & ? & ? & Hka). rewrite Hst in Eg |- *. split_and!; try done.
      intros Hi. right. rewrite bool_decide_eq_true_2, bool_decide_eq_false_2 in Eg by done.
      exact Eg.
    + rewrite !orb_false_iff in Eg. destruct Eg as [_ Hpi].
      apply wp_modify, wp_ret. norm. constructor; try done; [by eapply core_frame| |].
      * unfold phase in *. simpl in *. destruct (state s); try done. naive_solver.
      * rewrite Hpi in Hb1. simpl in Hb1. split; simpl; [lia|]. intros _. left. lia.
  - apply wp_bind, wp_modify, wp_ret. by eapply core_frame.
  - destruct (stream s); by apply wp_ret.
  - by apply wp_ret.
Qed.

(** ** Teardown *)

Lemma wp_close_peer (Q : unit -> session F P E -> Prop) s :
  (forall p l, (is_Some p <-> is_Some (peerConn s)) ->
     summary l = summary (trace s) <| t_closed ::= Nat.add (b2n (bool_decide (is_Some (peerConn s)))) |> ->
     Q tt (s <| peerConn := p |> <| trace := l |>)) ->
  wp close_peer Q s.
Proof.
  intros HQ. unfold close_peer. apply wp_bind, wp_get.
  destruct (peerConn s) as [p|] eqn:Ep.
  - apply wp_bind. eapply wp_with_peer; [done|]. apply wp_emit. norm.
    destruct (peer_Close p) as [err p1]. apply (HQ (Some p1)); [done|]. by rewrite summary_snoc.
  - apply wp_ret. specialize (HQ (peerConn s) (trace s)).
    assert (Hid : s <| peerConn := peerConn s |> <| trace := trace s |> = s) by by destruct s.
    rewrite Hid, Ep in HQ. apply HQ; [done|]. by destruct (summary (trace s)).
Qed.

Lemma wp_return_slot (Q : unit -> session F P E -> Prop) s :
  (forall e l, summary l = summary (trace s) <| t_released ::= Nat.add (b2n (releaseSlot s)) |> ->
     Q tt (s <| releaseSlot := false |> <| ep := e |> <| trace := l |>)) ->
  wp return_slot Q s.
Proof.
  intros HQ. unfold return_slot. apply wp_bind, wp_get. destruct (releaseSlot s) eqn:Es.
  - apply wp_bind, wp_with_ep, wp_bind, wp_emit, wp_modify. norm. apply HQ. by rewrite summary_snoc.
  - apply wp_ret. specialize (HQ (ep s) (trace s)).
    assert (Hid : s <| releaseSlot := false |> <| ep := ep s |> <| trace := trace s |> = s)
      by (destruct s; simpl in *; by subst).
    rewrite Hid in HQ. apply HQ. by destruct (summary (trace s)).
Qed.

Lemma wp_unblock_dial i (Q : unit -> session F P E -> Prop) s :
  (delivered s = false -> result_ch s = None) ->
  (forall q l, summary l = summary (trace s) <| t_results ::= (fun k => k ++
       if negb (delivered s) && bool_decide (s_role s = roleOfferer)
       then [Err (default (ESent ErrClosed) (ci_err i))] else []) |> ->
     Q tt (s <| result_ch := q |> <| trace := l |>)) ->
  wp (unblock_dial i) Q s.
Proof.
  intros Hd HQ. unfold unblock_dial. apply wp_bind, wp_get.
  destruct (negb (delivered s) && bool_decide (s_role s = roleOfferer)) eqn:Eg.
  - apply andb_true_iff in Eg as [Ed%negb_true_iff _]. rewrite (Hd Ed).
    apply wp_bind, wp_modify, wp_emit. norm. apply HQ. by rewrite summary_snoc.
  - apply wp_ret. specialize (HQ (result_ch s) (trace s)).
    assert (Hid : s <| result_ch := result_ch s |> <| trace := trace s |> = s) by by destruct s.
    rewrite Hid in HQ. apply HQ. simpl. rewrite app_nil_r. by destruct (summary (trace s)).
Qed.

(** The facts a session brings to the end of its teardown. *)
Definition ending s : Prop :=
  quiet s /\ exists l, core cfg (s <| trace := l |>) /\
    summary (trace s) = summary l <| t_ends ::= Nat.add (b2n (bool_decide (is_Some (stream s)))) |>.

Lemma torn_ending s : torn s -> ending s.
Proof.
  intros (Hq & [st Hst] & l & Hc & Hsum). split; [done|]. exists l. split; [done|]. by rewrite Hst.
Qed.

Lemma core_ending s : core cfg s -> quiet s -> stream s = None -> ending s.
Proof.
  intros Hc Hq Hst. split; [done|]. exists (trace s). split; [by destruct s|].
  rewrite Hst. by destruct (summary (trace s)).
Qed.

Lemma ending_inv i s : ending s -> inv (snd (teardown_end i s)).
Proof.
  intros [Hq (l & Hc & Hsum)]. apply (wp_elim (teardown_end i) (fun _ => inv)).
  unfold teardown_end. apply wp_bind, wp_close_peer. intros p' l1 Hp' Hl1.
  apply wp_bind, wp_on_conn, wp_bind, wp_get, wp_bind, wp_with_ep, wp_bind, wp_emit, wp_bind. norm.
  apply wp_return_slot. intros e2 l2 Hl2. apply wp_bind, wp_unblock_dial.
  { intros Hd. simpl in *. by apply (co_undelivered _ _ Hc). }
  intros q l3 Hl3. apply wp_modify. unfold inv. norm.
  simpl in Hl2, Hl3. rewrite summary_snoc in Hl2. rewrite Hl2, Hl1, Hsum in Hl3. simpl in Hl3.
  destruct Hc. simpl in *. constructor; simpl; rewrite ?Hl3; simpl; try done.
  - rewrite co_new, co_closed. lia.
  - rewrite co_new. destruct (bool_decide _); simpl; lia.
  - by rewrite co_removed.
  - rewrite co_released. lia.
  - rewrite co_ends. lia.
  - destruct (delivered s) eqn:Ed; simpl.
    + rewrite app_nil_r. destruct (s_role s) eqn:Er; [|by apply co_answered].
      destruct (co_dialled eq_refl eq_refl) as [c ->]. by eexists.
    + destruct (co_undelivered eq_refl) as (_ & -> & _).
      destruct (s_role s); [rewrite bool_decide_eq_true_2 by done|rewrite bool_decide_eq_false_2 by done];
        simpl; [by eexists|done].
  - rewrite co_cands. by eexists.
  - lia.
Qed.

Lemma ctl_end_stream how code reason cw st :
  ctl_ok st -> ctl_ok (end_stream how code reason cw st).
Proof.
  intros Hok. unfold end_stream.
  destruct (how =? HowShutdownEOF); [by apply ctl_terminate, ctl_force_eof|].
  destruct (how =? HowShutdown); by apply ctl_terminate.
Qed.

Lemma teardown_inv i cw s : core cfg s -> inv (snd (teardown cfg (Some i) cw s)).
Proof.
  intros Hc. apply (wp_elim (teardown cfg (Some i) cw) (fun _ => inv)).
  unfold teardown. simpl default. cbv zeta. apply wp_bind, wp_modify, wp_bind.
  set (tail := fun _ : unit => _).
  assert (Htail : forall e l, summary l = summary (trace s) ->
    tail tt (s <| state := StateClosed |> <| box ::= mb_close |>
      <| negotiateTimer := None |> <| recoveryTimer := None |> <| keepaliveTimer := None |>
      <| lingerTimer := None |> <| ep := e |> <| trace := l |>)).
  { intros e l Hl. unfold tail. apply wp_bind, wp_get. norm.
    assert (Hend : forall s', ending s' ->
      wp (s ← get_s; if must_await i s then modify (fun s => s <| pc := PcAwait i |>) else teardown_end i)
        (fun _ => inv) s').
    { intros s' He. apply wp_bind, wp_get. destruct (must_await i s') eqn:Em.
      - apply wp_modify. unfold inv. simpl. unfold must_await in Em.
        rewrite !andb_true_iff, bool_decide_eq_true in Em. destruct Em as [[Hs _] _].
        destruct He as [Hq (l' & Hc' & Hsum)]. split; [done|]. simpl.
        assert (Hst : is_Some (stream s')) by (by destruct (stream s')).
        split; [done|]. exists l'. split.
        + eapply core_frame; [exact Hc'|done..].
        + by rewrite Hsum, bool_decide_eq_true_2.
      - unfold wp. by apply ending_inv. }
    apply wp_bind. destruct (stream s) as [st|] eqn:Est.
    - unfold metric_. apply wp_bind, wp_emit, wp_bind, wp_emit, wp_bind, wp_emit, wp_modify. norm.
      apply Hend. split; [done|]. exists (trace s). split.
      { eapply core_frame; [exact Hc|done..|]. intros Hok st' [= <-]. apply ctl_end_stream.
        by apply Hok. }
      norm. rewrite !summary_snoc, Hl. by destruct (summary (trace s)).
    - apply wp_ret, Hend, core_ending; [|done|done]. by eapply core_frame. }
  destruct (ci_notify i).
  - apply wp_sendCloseSignal. intros e l Ht Hl. simpl in Hl. by apply Htail.
  - apply wp_ret. by apply (Htail (ep s) (trace s)).
Qed.

(** ** What runs beside the session *)

Lemma initial_inv s : initial s -> inv s.
Proof.
  intros (uid & id & peer & f & e & [[offer ->]| ->]); unfold inv; simpl.
  all: constructor; try done.
  all: try (constructor; simpl; try done; lia).
  all: split; simpl; [lia|done].
Qed.

(** A change of the other goroutines' part: the mailbox, the probe, the stream, the
    connection's record, the result taken, the endpoint, the peer connection. *)
Record beside (s s' : session F P E) : Prop := {
  be_trace : trace s' = trace s; be_pending : pendingCands s' = pendingCands s;
  be_attempt : restartAttempt s' = restartAttempt s; be_gen : generation s' = generation s;
  be_role : s_role s' = s_role s; be_slot : releaseSlot s' = releaseSlot s;
  be_delivered : delivered s' = delivered s; be_panic : panicked s' = panicked s;
  be_state : state s' = state s; be_pc : pc s' = pc s; be_finished : finished s' = finished s;
  be_ping : pinging s' = pinging s;
  be_timers : negotiateTimer s' = negotiateTimer s /\ recoveryTimer s' = recoveryTimer s /\
              keepaliveTimer s' = keepaliveTimer s /\ lingerTimer s' = lingerTimer s;
  be_result : result_ch s = None -> result_ch s' = None;
  be_peer : match peerConn s with
            | None => peerConn s' = None
            | Some p => exists p', peerConn s' = Some p' /\ kept HasRemoteDescription offering p p'
            end;
  be_stream : is_Some (stream s') <-> is_Some (stream s);
  be_ok : stream_ok (stream s) -> stream_ok (stream s');
  be_conn : is_Some (conn s') <-> is_Some (conn s);
  be_time : env_now (ep s) <= env_now (ep s');
  be_closed : mb_closed (box s') = mb_closed (box s);
  be_events : Forall event_ok (mb_items (box s)) -> Forall event_ok (mb_items (box s'));
  be_probe : mb_closed (box s) = false -> probing [] s -> probing [] s'
}.

Lemma beside_peer_some s s' : beside s s' -> is_Some (peerConn s') <-> is_Some (peerConn s).
Proof.
  intros Hb. pose proof (be_peer _ _ Hb) as Hp. destruct (peerConn s); [|by rewrite Hp].
  by destruct Hp as (p' & -> & _).
Qed.

Lemma beside_core s s' l :
  beside s s' -> core cfg (s <| trace := l |>) -> core cfg (s' <| trace := l |>).
Proof.
  intros Hb Hc. pose proof (beside_peer_some _ _ Hb). destruct Hb.
  eapply core_frame; [exact Hc|simpl; done..].
Qed.

Lemma self_trace s : s <| trace := trace s |> = s.
Proof. by destruct s. Qed.

Lemma beside_core_self s s' : beside s s' -> core cfg s -> core cfg s'.
Proof.
  intros Hb Hc. rewrite <- (self_trace s'). apply (beside_core s); [done|].
  by rewrite (be_trace _ _ Hb), self_trace.
Qed.

Lemma beside_live s s' : beside s s' -> live cfg [] s -> live cfg [] s'.
Proof.
  intros Hb [Hc (p & Hp & Hpr & Hpp) Hph Hpb Hev Hop].
  pose proof Hb as [? ? ? ? ? ? ? ? ? ? ? ? (Hn & Hr & Hk & _) ? Hpe Hst ? Hcn ? ? ? ?].
  constructor; simpl in *.
  - by eapply beside_core_self.
  - rewrite Hp in Hpe. destruct Hpe as (p' & Hp' & Hk1 & Hk2). exists p'.
    rewrite be_pending0, be_role0, Hk1, Hk2. done.
  - unfold phase in *. rewrite be_delivered0, be_state0, be_ping0, Hn, Hr, Hk.
    destruct (state s); try done.
    1,2: destruct Hph as (Hs & Hc' & ? & d & ? & ?); split_and!; try done;
      [apply eq_None_not_Some; rewrite Hst; by rewrite Hs|apply eq_None_not_Some; rewrite Hcn; by rewrite Hc'|].
    1,2: exists d; split; [done|lia].
    all: by rewrite Hst, Hcn.
  - by apply be_probe0.
  - by apply be_events0.
  - by rewrite be_closed0.
Qed.

Lemma beside_inv s s' : beside s s' -> inv s -> inv s'.
Proof.
  intros Hb Hi. pose proof (beside_peer_some _ _ Hb) as Hps. unfold inv in *.
  pose proof (beside_core_self _ _ Hb) as Hcore.
  assert (Hq : quiet s -> quiet s').
  { unfold quiet. destruct Hb as [? ? ? ? ? ? ? ? ? ? ? ? (-> & -> & -> & ->) ? ? ? ? ? ? -> ? ?]. done. }
  rewrite (be_pc _ _ Hb). destruct (pc s).
  - destruct Hi. pose proof Hb as [? ? ? ? ? ? ? ? ? ? ? ? ? ? Hpe Hst ? Hcn ? ? ? ?].
    constructor; simpl in *; try congruence; auto.
    + by rewrite fr_peer0 in Hpe.
    + apply eq_None_not_Some. by rewrite Hst, fr_stream0.
    + apply eq_None_not_Some. by rewrite Hcn, fr_conn0.
    + rewrite be_role0. auto.
  - by eapply beside_live.
  - auto.
  - destruct Hi as (Hqs & Hst & l & Hc & Hsum). split; [auto|].
    rewrite (be_stream _ _ Hb). split; [done|]. exists l. rewrite (be_trace _ _ Hb).
    split; [by eapply beside_core|done].
  - destruct Hi. pose proof Hb. destruct Hb. constructor; rewrite ?be_trace0, ?be_role0; auto.
    + congruence.
    + rewrite en_ends0. f_equal. apply bool_decide_ext. by symmetry.
    + congruence.
    + congruence.
Qed.

(** ** Every step *)

Lemma post_facts ev (m : @mailbox sessionEvent) :
  mb_closed (snd (post ev m)) = mb_closed m /\
  (event_ok ev -> Forall event_ok (mb_items m) -> Forall event_ok (mb_items (snd (post ev m)))) /\
  (mb_closed m = false ->
   probes (mb_items (snd (post ev m))) = (probes (mb_items m) + b2n (is_keepalive ev))%nat /\
   mb_overflow (snd (post ev m)) = mb_overflow m \/
   probes (mb_items (snd (post ev m))) = probes (mb_items m) /\ mb_overflow (snd (post ev m)) = true).
Proof.
  unfold post. destruct (mb_closed m) eqn:Ec; [done|].
  destruct (_ <=? _); simpl; [split; [done|]; split; [done|]; by right|].
  split; [done|]. split; [intros; apply Forall_app; auto|]. intros _. left.
  split; [|done]. rewrite probes_app. simpl. lia.
Qed.

Lemma beside_refl_but s s' :
  trace s' = trace s -> pendingCands s' = pendingCands s -> restartAttempt s' = restartAttempt s ->
  generation s' = generation s -> s_role s' = s_role s -> releaseSlot s' = releaseSlot s ->
  delivered s' = delivered s -> panicked s' = panicked s -> state s' = state s -> pc s' = pc s ->
  finished s' = finished s -> pinging s' = pinging s -> negotiateTimer s' = negotiateTimer s ->
  recoveryTimer s' = recoveryTimer s -> keepaliveTimer s' = keepaliveTimer s ->
  lingerTimer s' = lingerTimer s -> (result_ch s = None -> result_ch s' = None) ->
  (match peerConn s with
   | None => peerConn s' = None
   | Some p => exists p', peerConn s' = Some p' /\ kept HasRemoteDescription offering p p'
   end) ->
  (is_Some (stream s') <-> is_Some (stream s)) -> (stream_ok (stream s) -> stream_ok (stream s')) ->
  (is_Some (conn s') <-> is_Some (conn s)) ->
  env_now (ep s) <= env_now (ep s') -> box s' = box s -> probe s' = probe s -> beside s s'.
Proof.
  intros ? ? ? ? ? ? ? ? ? ? ? Hpi ? ? ? ? ? ? ? ? ? ? Hbox Hpr.
  constructor; try done; rewrite ?Hbox; try done.
  unfold probing. by rewrite Hbox, Hpr, Hpi.
Qed.

Lemma peer_same s : match peerConn s with
   | None => peerConn s = None
   | Some p => exists p', peerConn s = Some p' /\ kept HasRemoteDescription offering p p'
   end.
Proof. destruct (peerConn s) as [p|]; [|done]. by exists p. Qed.

Lemma sstep_inv s s' : inv s -> sstep cfg s s' -> inv s'.
Proof.
  intros Hi Hs.
  destruct Hs as [a s s' Hgo|s s' [ev s1 Hk Hev|res s1 Hpr|a s1 st evs st' Hst Hex|a s1|s1|p p' s1 Hp Hk]|e s Ht].
  - unfold inv in Hi. destruct a as [|sel|cw|[]], (pc s) eqn:Epc; simpl in Hgo; rewrite ?Epc in Hgo; try done.
    + injection Hgo as <-. by apply begin_inv.
    + destruct (ready sel s) eqn:Er; [|done]. injection Hgo as <-. by apply loop_body_inv.
    + destruct (once_busy s); [done|]. injection Hgo as <-. by apply teardown_inv.
    + destruct (match stream s with Some _ => _ | None => _ end); [|done]. injection Hgo as <-. by apply ending_inv, torn_ending.
    + injection Hgo as <-. by apply ending_inv, torn_ending.
  - apply (beside_inv s1); [|done]. destruct (post_facts ev (box s1)) as (Hc & Hf & Hpo).
    constructor; try done; simpl; try apply peer_same; try (by apply Hf).
    intros Hop [Hb1 Hb2]. unfold probing. simpl in *. destruct (Hpo Hop) as [[-> ->]|[-> ->]];
      rewrite ?Hk; simpl; rewrite ?Nat.add_0_r; auto.
  - apply (beside_inv s1); [|done]. destruct (post_facts (SevKeepalive res) (box s1)) as (Hc & Hf & Hpo).
    constructor; try done; simpl; try apply peer_same; try (by apply Hf).
    intros Hop [Hb1 Hb2]. unfold probing. simpl in *. rewrite Hpr in *. simpl in *.
    destruct (Hpo Hop) as [[-> ->]|[-> ->]]; simpl.
    + rewrite Nat.add_0_r. auto.
    + split; [lia|]. by right.
  - apply (beside_inv s1); [|done]. apply beside_refl_but; simpl; try done; rewrite ?Hst; try done;
      try apply peer_same.
    intros Hok st2 [= <-]. eapply exec_ctl; [by apply Hok|exact Hex].
  - apply (beside_inv s1); [|done]. apply beside_refl_but; simpl; try done; rewrite ?fmap_is_Some; try done; apply peer_same.
  - apply (beside_inv s1); [|done]. apply beside_refl_but; simpl; try done; apply peer_same.
  - apply (beside_inv s1); [|done]. apply beside_refl_but; simpl; try done. rewrite Hp. by exists p'.
  - apply (beside_inv s); [|done]. apply beside_refl_but; simpl; try done; try (by apply env_time); apply peer_same.
Qed.

Lemma sreach_inv s0 s : initial s0 -> sreach cfg s0 s -> inv s.
Proof. intros Hi Hr. induction Hr; [by apply initial_inv|by eapply sstep_inv]. Qed.
End run.
