(* ===== verification/SessionProps.v ===== *)
(** * What a session guarantees

    The theorems about [session], from the invariant of [SessionRun] over every
    interleaving, and a concrete endpoint and peer connection for their witnesses. *)

From Stdlib Require Import SpecFloat.
From Stdlib Require Import Sorted.
From Stdlib Require Import String.
From S2P Require Import Prelude.
From S2P Require Import Errors.
From S2P Require Import Floats.
From S2P Require Import Frame.
From S2P Require Import Stream.
From S2P Require Import StreamCtl.
From S2P Require Import StreamRecv.
From S2P Require Import StreamProps.
From S2P Require Import Mailbox.
From S2P Require Import Signal.
From S2P Require Import Config.
From S2P Require Import Conn.
From S2P Require Import Metrics.
From S2P Require Import Pionx.
From S2P Require Import Session.
From S2P Require Import SessionInv.
From S2P Require Import SessionRun.

#[local] Arguments newSignal : simpl never.
#[local] Arguments summary : simpl never.

(** ** Runs that can be executed *)

Inductive sact := SGo (a : session_act) | SPost (ev : sessionEvent) | SProbe (r : keepaliveResult)
| SStream (a : Stream.action) | STake.

Definition postable (ev : sessionEvent) : bool :=
  match ev with
  | SevKeepalive _ => false
  | SevPion ev => negb (bool_decide (ev_Kind ev = EventError)) ||
                  match ev_Err ev with Some _ => true | None => false end
  | _ => true
  end.

Section runs.
Context {F P E : Type} `{PeerConn F P} `{Env E} `{!PeerLaws F P, !EnvLaws E}.
Variable cfg : Config.Config.
Implicit Types s : session F P E.

Definition sexec (a : sact) (s : session F P E) : option (session F P E) :=
  match a with
  | SGo a => session_step cfg a s
  | SPost ev => if postable ev then Some (post_event ev s) else None
  | SProbe r => if probe s then Some (post_event (SevKeepalive r) (s <| probe := false |>)) else None
  | SStream a =>
    match stream s with
    | Some st => match exec a st with Some (_, st') => Some (s <| stream := Some st' |>) | None => None end
    | None => None
    end
  | STake => Some (s <| result_ch := None |>)
  end.

Fixpoint srun (acts : list sact) (s : session F P E) : option (session F P E) :=
  match acts with
  | [] => Some s
  | a :: acts => match sexec a s with Some s' => srun acts s' | None => None end
  end.

Lemma sexec_step a s s' : sexec a s = Some s' -> sstep cfg s s'.
Proof.
  intros He. destruct a as [a|ev|r|a|]; simpl in He.
  - by apply (step_go cfg a).
  - destruct (postable ev) eqn:Ep; [|done]. injection He as <-. apply step_side, side_post.
    + by destruct ev.
    + destruct ev as [|ev| |]; try done. simpl in *. intros Hk. rewrite Hk in Ep. simpl in Ep.
      by destruct (ev_Err ev).
  - destruct (probe s) eqn:Ep; [|done]. injection He as <-. by apply step_side, side_probe.
  - destruct (stream s) as [st|] eqn:Es; [|done]. destruct (exec a st) as [[evs st']|] eqn:Ex; [|done].
    injection He as <-. by eapply step_side, side_stream.
  - injection He as <-. apply step_side, side_take.
Qed.

Lemma srun_reach acts s0 s s' : sreach cfg s0 s -> srun acts s = Some s' -> sreach cfg s0 s'.
Proof.
  revert s. induction acts as [|a acts IH]; intros s Hr; simpl.
  - by intros [= <-].
  - destruct (sexec a s) as [s1|] eqn:Ea; [|done]. intros Hs.
    apply (IH s1); [|done]. eapply sreach_step; [exact Hr|by eapply sexec_step].
Qed.
End runs.

(** ** A concrete world

    The endpoint's clock stands still, every send succeeds and every
    connection is queued; the peer connection is the adapter over [Pionx.Demo]. *)
Module SDemo.
Record env := { now : Z; sent : list Signal }.

#[global] Instance demo_env : Env env := {|
  env_now := now; env_rand16 e := (replicate 16 (byte_of 7), e); env_float64 e := (f_zero, e);
  env_send _ _ sig e := (None, {| now := now e; sent := sent e ++ [sig] |});
  env_enqueueInbound _ _ e := (None, e); env_removeSession _ _ e := e; env_releaseSlot _ e := e;
  env_ctxDone _ := false |}.

#[global] Program Instance demo_env_laws : EnvLaws env := {|
  env_evolves e e' := now e <= now e' |}.
Solve All Obligations with (simpl; intros; first [done|lia]).

#[global] Instance demo_peer : PeerConn (Factory unit) (Peer Demo.pc) := adapter_peer (H := Demo.demo_rtc).
#[global] Instance demo_peer_laws : PeerLaws (Factory unit) (Peer Demo.pc) :=
  @adapter_peer_laws unit unit Demo.pc Demo.demo_rtc Demo.demo_laws.

Definition cfg : Config.Config := {|
  cfg_ID := "alice"; Signaler := true; Config.ICEServers := []; TransportPolicy := 0;
  DialTimeout := 30 * second; ICETimeout := 20 * second;
  KeepAlive := {| Interval := 15 * second; Timeout := 5 * second |};
  Reconnect := {| Enabled := true; MaxAttempts := 3; AttemptTimeout := 10 * second;
                  rp_Backoff := {| Initial := second; Maximum := 8 * second; Factor := f_two;
                                   Jitter := f_fifth |} |};
  AcceptBacklog := 8; AllowPeer := None; FramePayload := 1024; ReadBuffer := 4096 |}.

Definition sid : string := "fedcba9876543210fedcba9876543210".

Definition dialer : session (Factory unit) (Peer Demo.pc) env :=
  newSession 0 sid "bob" roleOfferer false None Demo.factory {| now := 0; sent := [] |}.

Definition signal (kind : string) (p : payload) : Signal := {|
  Version := ProtocolVersion; ID := sid; SessionID := sid; Kind := kind; From := "bob"; To := "alice";
  Payload := match encodePayload p with Ok raw => raw | Err _ => [] end |}.

Definition candidate (line : string) : sessionEvent :=
  SevSignal (signal KindCandidate (PCandidate (Build_candidatePayload line None None None))).

Definition answer : sessionEvent := SevSignal (signal KindAnswer (PSdp {| sp_SDP := "answer" |})).

(** The session reached by a run, or the new one if the run is not possible. *)
Definition after (acts : list sact) : session (Factory unit) (Peer Demo.pc) env :=
  default dialer (srun cfg acts dialer).

Lemma dialer_initial : initial dialer.
Proof. exists 0%nat, sid, "bob"%string, Demo.factory, {| now := 0; sent := [] |}. by right. Qed.

Lemma after_reach acts : sreach cfg dialer (after acts).
Proof.
  unfold after. destruct (srun cfg acts dialer) as [s|] eqn:Es; simpl; [|constructor].
  eapply srun_reach; [constructor|exact Es].
Qed.

(** Two candidates before the answer, one after it. *)
Definition early_candidates : list sact :=
  [SGo GoStart; SPost (candidate "one"); SPost (candidate "two"); SGo (GoLoop SelBox);
   SPost answer; SPost (candidate "three"); SGo (GoLoop SelBox)].

(** The channel opens, and data arrives. *)
Definition connected : list sact :=
  early_candidates ++
  [SPost (SevPion (event EventConnected)); SPost (SevPion (event EventChannelOpen)); SGo (GoLoop SelBox)].
End SDemo.

Example SDemo_runs :
  t_applied (summary (trace (SDemo.after SDemo.early_candidates))) =
    [Build_Candidate "one" None None None; Build_Candidate "two" None None None;
     Build_Candidate "three" None None None] /\
  state (SDemo.after SDemo.connected) = StateConnected.
Proof. split; vm_compute; reflexivity. Qed.

(** ** The theorems *)

Section theorems.
Context {F P E : Type} `{PeerConn F P} `{Env E} `{!PeerLaws F P, !EnvLaws E}.
Variable cfg : Config.Config.
Implicit Types s : session F P E.

(** What every place of the goroutine has in common. *)
Record common s : Prop := {
  cm_early : t_early (summary (trace s)) = false;
  cm_cands : t_applied (summary (trace s)) `prefix_of` t_received (summary (trace s));
  cm_gens : gens_ok 0 (t_gens (summary (trace s)));
  cm_own : s_role s = roleAnswerer -> Forall (fun g => fst g = false) (t_gens (summary (trace s)));
  cm_since : 0 <= t_since (summary (trace s)) <= Z.max 0 (MaxAttempts (Reconnect cfg));
  cm_new : (t_new (summary (trace s)) <= 1)%nat;
  cm_closed : (t_closed (summary (trace s)) <= t_new (summary (trace s)))%nat;
  cm_removed : (t_removed (summary (trace s)) <= 1)%nat;
  cm_ends : (t_ends (summary (trace s)) <= 1)%nat;
  cm_slot : (t_released (summary (trace s)) + t_enq (summary (trace s)) <=
             b2n (bool_decide (s_role s = roleAnswerer)))%nat;
  cm_results : (length (t_results (summary (trace s))) <=
                b2n (bool_decide (s_role s = roleOfferer)))%nat;
  cm_panic : panicked s = false
}.

Lemma b2n_le b : (b2n b <= 1)%nat.
Proof. destruct b; simpl; lia. Qed.

Lemma core_common s l :
  core cfg (s <| trace := l |>) ->
  (summary (trace s) = summary l \/ summary (trace s) = summary l <| t_ends ::= Datatypes.S |>) ->
  common s.
Proof.
  intros Hc Hl. destruct Hc as [A1 A2 A3 A4 A5 A6 A7 A8 A9 A10 A11 A12 A13 A14 A15 A16 A17 A18 A19].
  simpl in *.
  assert (Hres : (length (t_results (summary l)) <= b2n (bool_decide (s_role s = roleOfferer)))%nat).
  { destruct (s_role s) eqn:Er; [|by rewrite A17].
    destruct (delivered s) eqn:Ed.
    - destruct (A16 eq_refl eq_refl) as [c ->]. done.
    - destruct (A15 eq_refl) as (_ & -> & _). simpl. lia. }
  assert (Hslot : (t_released (summary l) + t_enq (summary l) <=
             b2n (bool_decide (s_role s = roleAnswerer)))%nat) by (rewrite A12; lia).
  destruct Hl as [Hl|Hl]; constructor; rewrite ?Hl; simpl; try done; try lia.
  all: try (rewrite A1; by eexists).
  all: rewrite ?A9; apply b2n_le.
Qed.

Lemma inv_common s : inv cfg s -> common s.
Proof.
  unfold inv. intros Hi. destruct (pc s).
  - destruct Hi as [Hc _ _ _ _ _ _ _ _ _]. apply (core_common s (trace s)); [by rewrite self_trace|by left].
  - apply (core_common s (trace s)); [rewrite self_trace; apply Hi|by left].
  - apply (core_common s (trace s)); [by rewrite self_trace|by left].
  - destruct Hi as (_ & _ & l & Hc & Hl). apply (core_common s l); auto.
  - destruct Hi. constructor; try done; try lia.
    + rewrite en_ends. apply b2n_le.
    + destruct (s_role s); [destruct en_results as [r ->]; by rewrite bool_decide_eq_true_2|].
      rewrite en_results. simpl. lia.
Qed.

Lemma reach_common s0 s : initial s0 -> sreach cfg s0 s -> common s.
Proof. intros Hi0 Hr. by eapply inv_common, sreach_inv. Qed.

(** Accepted generations alone are increasing. *)
Lemma accepted_sorted g l :
  gens_ok g l -> Forall (fun x => fst x = false) l -> StronglySorted Z.lt (snd <$> l) /\ Forall (Z.lt g) (snd <$> l).
Proof.
  revert g. induction l as [|[own x] l IH]; intros g Hg Hf; simpl; [split; constructor|].
  inversion Hf as [|? ? Ho Hl]; subst. simpl in Ho. subst own. destruct Hg as [Hx Hg].
  destruct (IH x Hg Hl) as [Hs Hb]. split; [by constructor|]. constructor; [done|].
  eapply Forall_impl; [exact Hb|]. simpl. lia.
Qed.

(** C7. Remote candidates are never applied before the remote description, and they are
    applied in the order received, each once: what has been applied is a prefix of what
    was taken up, the rest waits in a buffer of at most 256, and the buffer is empty once
    the description is there. *)
Theorem candidates_in_order s0 s :
  initial s0 -> sreach cfg s0 s ->
  let t := summary (trace s) in
  t_early t = false /\ t_applied t `prefix_of` t_received t /\
  (pc s = PcLoop ->
   t_received t = t_applied t ++ pendingCands s /\ zlen (pendingCands s) <= maxPendingCandidates /\
   (remote_set s = true -> pendingCands s = [])).
Proof.
  intros Hi0 Hr t. pose proof (reach_common _ _ Hi0 Hr) as Hc.
  split; [apply Hc|]. split; [apply Hc|]. intros Hpc.
  pose proof (sreach_inv cfg _ _ Hi0 Hr) as Hi. unfold inv in Hi. rewrite Hpc in Hi.
  destruct Hi as [Hco (p & Hp & _ & Hpp) _ _ _ _].
  split; [apply Hco|]. split; [apply Hco|]. unfold remote_set. by rewrite Hp.
Qed.

(** C20. Recovery is disciplined. Since the last answer or recovery a session has made at
    most [MaxAttempts] restarts; each request increments the generation in force and
    each restart it accepts raises it, so that a repeated or late restart is dropped
    without any effect; and an answerer only accepts, its generations increasing. *)
Theorem restart_discipline s0 s :
  initial s0 -> sreach cfg s0 s ->
  let t := summary (trace s) in
  0 <= t_since t <= Z.max 0 (MaxAttempts (Reconnect cfg)) /\ gens_ok 0 (t_gens t) /\
  (s_role s = roleAnswerer ->
   Forall (fun g => fst g = false) (t_gens t) /\ StronglySorted Z.lt (snd <$> t_gens t)) /\
  (forall sig body, decodeRestart (Payload sig) = Ok body -> rp_Generation body <= generation s ->
   onRestartSignal cfg sig s =
   (None, s <| trace ::= (fun l => l ++ [LMetric (Count metricProtocolFailures 1 [labelScope "routing"])]) |>)).
Proof.
  intros Hi0 Hr t. pose proof (reach_common _ _ Hi0 Hr) as Hc.
  split; [apply Hc|]. split; [apply Hc|]. split.
  - intros Hrole. split; [by apply Hc|]. eapply accepted_sorted; [apply Hc|by apply Hc].
  - intros sig body Hb Hg. unfold onRestartSignal. rewrite Hb. simpl.
    unfold mbind, state_m_bind, get_s. simpl. by rewrite (proj2 (Z.leb_le _ _) Hg).
Qed.

(** C6. Whatever happens, a session creates at most one peer connection, closes it at most
    once, ends its stream at most once, leaves the endpoint's table at most once and
    gives its backlog slot away (to the listener or back) at most once; and once the
    goroutine has ended each of these has happened exactly as often as it was due, every
    timer is stopped and the mailbox is closed. *)
Theorem teardown_releases_once s0 s :
  initial s0 -> sreach cfg s0 s ->
  let t := summary (trace s) in
  ((t_new t <= 1)%nat /\ (t_closed t <= t_new t)%nat /\ (t_ends t <= 1)%nat /\
   (t_removed t <= 1)%nat /\
   (t_released t + t_enq t <= b2n (bool_decide (s_role s = roleAnswerer)))%nat) /\
  (pc s = PcDone ->
   t_closed t = t_new t /\ t_ends t = b2n (bool_decide (is_Some (stream s))) /\ t_removed t = 1%nat /\
   (t_released t + t_enq t = b2n (bool_decide (s_role s = roleAnswerer)))%nat /\
   releaseSlot s = false /\ quiet s /\ finished s = true).
Proof.
  intros Hi0 Hr t. pose proof (reach_common _ _ Hi0 Hr) as Hc. split.
  - split_and!; apply Hc.
  - intros Hpc. pose proof (sreach_inv cfg _ _ Hi0 Hr) as Hi. unfold inv in Hi. rewrite Hpc in Hi.
    split_and!; apply Hi.
Qed.

(** C19. A [Dial] is answered exactly once: an offering session delivers at most one result,
    and has delivered one, a connection or an error, by the time it has ended; an
    answering session never does. *)
Theorem dial_answered_once s0 s :
  initial s0 -> sreach cfg s0 s ->
  let rs := t_results (summary (trace s)) in
  (s_role s = roleAnswerer -> rs = []) /\ (length rs <= 1)%nat /\
  (s_role s = roleOfferer -> pc s = PcDone -> exists r, rs = [r]).
Proof.
  intros Hi0 Hr rs. pose proof (cm_results _ (reach_common _ _ Hi0 Hr)) as Hc. split_and!.
  - intros Hrole. rewrite Hrole, bool_decide_eq_false_2 in Hc by done.
    apply length_zero_iff_nil. unfold rs. cbn [b2n] in Hc. lia.
  - etransitivity; [exact Hc|apply b2n_le].
  - intros Hrole Hpc. pose proof (sreach_inv cfg _ _ Hi0 Hr) as Hi. unfold inv in Hi. rewrite Hpc in Hi.
    pose proof (en_results _ _ Hi) as Hres. by rewrite Hrole in Hres.
Qed.

(** Some case of the loop will be ready, whatever the others do. *)
Definition waits_bounded s : Prop :=
  match state s with
  | StateSignaling | StateConnecting =>
    forall e, env_now (ep s) + DialTimeout cfg <= env_now e ->
    exists s', session_step cfg (GoLoop SelNegotiate) (s <| ep := e |>) = Some s' /\
               pc s' = PcTeardown timeout_intent
  | StateRecovering =>
    exists d, recoveryTimer s = Some d /\
    forall e, d <= env_now e -> is_Some (session_step cfg (GoLoop SelRecovery) (s <| ep := e |>))
  | StateConnected =>
    0 < Interval (KeepAlive cfg) ->
    is_Some (keepaliveTimer s) \/ probe s = true \/
    (exists r, SevKeepalive r ∈ mb_items (box s)) \/ mb_overflow (box s) = true
  | _ => False
  end.

Lemma probes_in l : (0 < probes l)%nat -> exists r, SevKeepalive r ∈ l.
Proof.
  induction l as [|ev l IH]; simpl; [lia|]. destruct ev; simpl; intros Hl;
    try (destruct IH as [r Hr]; [lia|]; exists r; by right).
  exists res. by left.
Qed.

(** C5. A session never dereferences nil and never waits forever: at every reachable place
    its goroutine can step, or will be able to. While negotiating, the dial timer is
    armed to end the session with a timeout within [DialTimeout]; while recovering, the
    recovery timer is armed; while connected with keepalive on, a probe is scheduled or
    out or its result (or the overflow that ends the session) is queued; the waits of the
    teardown end by a timer of their own. *)
Theorem session_never_stalls s0 s :
  initial s0 -> sreach cfg s0 s ->
  panicked s = false /\
  match pc s with
  | PcStart _ => is_Some (session_step cfg GoStart s)
  | PcLoop => waits_bounded s
  | PcTeardown _ => once_busy s = false -> forall cw, is_Some (session_step cfg (GoTeardown cw) s)
  | PcAwait _ => is_Some (session_step cfg (GoAwait AwaitTimeout) s)
  | PcDone => finished s = true
  end.
Proof.
  intros Hi0 Hr. split; [apply (reach_common _ _ Hi0 Hr)|].
  pose proof (sreach_inv cfg _ _ Hi0 Hr) as Hi. unfold inv in Hi.
  destruct (pc s) eqn:Epc; simpl; rewrite ?Epc; try done; [|by intros ->|apply Hi].
  destruct Hi as [_ _ Hph [Hb1 Hb2] _ _]. unfold waits_bounded, phase in *.
  destruct (state s) eqn:Est; try done.
  1,2: destruct Hph as (_ & _ & _ & d & Hd & Hle); intros e He; simpl; rewrite Epc; simpl;
    unfold due; simpl; rewrite Hd, (proj2 (Z.leb_le _ _)) by lia;
    eexists; split; [reflexivity|]; unfold loop_body, mbind, state_m_bind, modify, get_s; simpl;
    by rewrite Est.
  - destruct Hph as (_ & _ & _ & Hk). intros Hi. destruct (Hk Hi) as [?|Hp]; [by left|right].
    destruct (Hb2 Hp) as [Hn|?]; [|by right; right]. destruct (probe s) eqn:Epr; [by left|right; left].
    apply probes_in. simpl in Hn. lia.
  - destruct Hph as (_ & _ & _ & [d Hd]). exists d. split; [done|]. intros e He. simpl. rewrite Epc. simpl.
    unfold due. simpl. by rewrite Hd, (proj2 (Z.leb_le _ _)) by lia.
Qed.

(** The stream a teardown leaves. *)
Lemma teardown_stream i cw s st :
  stream s = Some st ->
  (delivered s = false -> result_ch s = None) ->
  stream (snd (teardown cfg (Some i) cw s)) =
  Some (end_stream (end_how i s) (streamCloseCode (ci_code i)) (ci_reason i) cw st).
Proof.
  intros Hst Hd. set (st' := end_stream _ _ _ _ _).
  apply (wp_elim (teardown cfg (Some i) cw) (fun _ s => stream s = Some st')).
  unfold teardown. simpl default. cbv zeta. apply wp_bind, wp_modify, wp_bind.
  set (tail := fun _ : unit => _).
  assert (Htail : forall e l, tail tt (s <| state := StateClosed |> <| box ::= mb_close |>
      <| negotiateTimer := None |> <| recoveryTimer := None |> <| keepaliveTimer := None |>
      <| lingerTimer := None |> <| ep := e |> <| trace := l |>)).
  { intros e l. unfold tail. apply wp_bind, wp_get, wp_bind. norm. rewrite Hst.
    unfold metric_. apply wp_bind, wp_emit, wp_bind, wp_emit, wp_bind, wp_emit, wp_modify. norm.
    apply wp_bind, wp_get. destruct (must_await _ _); [by apply wp_modify|].
    unfold teardown_end. apply wp_bind, wp_close_peer. intros p' l1 _ _.
    apply wp_bind, wp_on_conn, wp_bind, wp_get, wp_bind, wp_with_ep, wp_bind, wp_emit, wp_bind. norm.
    apply wp_return_slot. intros e2 l2 _. apply wp_bind, wp_unblock_dial; [done|].
    intros q l3 _. by apply wp_modify. }
  destruct (ci_notify i).
  - apply wp_sendCloseSignal. intros e l _ _. apply Htail.
  - apply wp_ret. apply (Htail (ep s) (trace s)).
Qed.

End theorems.

(** ** Witnesses *)

Example candidates_in_order_witness :
  let s := SDemo.after SDemo.early_candidates in
  pc s = PcLoop /\ t_received (summary (trace s)) = t_applied (summary (trace s)) ++ pendingCands s /\
  length (t_applied (summary (trace s))) = 3%nat.
Proof.
  intros s. assert (Hpc : pc s = PcLoop) by (vm_compute; reflexivity).
  pose proof (candidates_in_order SDemo.cfg _ s SDemo.dialer_initial (SDemo.after_reach _)) as (_ & _ & H).
  split; [exact Hpc|]. split; [apply (H Hpc)|vm_compute; reflexivity].
Defined.

(** Three failures in a row: the third attempt is the last. *)
Definition failing : list sact :=
  SDemo.connected ++ concat (replicate 4 [SPost (SevPion (event EventFailed)); SGo (GoLoop SelBox)]).

Example restart_discipline_witness :
  let s := SDemo.after failing in
  t_since (summary (trace s)) = 3 /\ gens_ok 0 (t_gens (summary (trace s))) /\
  (snd <$> t_gens (summary (trace s))) = [1; 2; 3].
Proof.
  intros s.
  pose proof (restart_discipline SDemo.cfg _ s SDemo.dialer_initial (SDemo.after_reach _)) as (_ & H & _).
  split; [vm_compute; reflexivity|]. split; [exact H|vm_compute; reflexivity].
Defined.

Example teardown_releases_once_witness :
  let s := SDemo.after (failing ++ [SGo (GoTeardown (CWrote 10))]) in
  pc s = PcDone /\ t_closed (summary (trace s)) = 1%nat /\ t_removed (summary (trace s)) = 1%nat.
Proof.
  intros s. assert (Hpc : pc s = PcDone) by (vm_compute; reflexivity).
  pose proof (teardown_releases_once SDemo.cfg _ s SDemo.dialer_initial (SDemo.after_reach _)) as [_ H].
  destruct (H Hpc) as (H1 & _ & H2 & _).
  split; [exact Hpc|]. split; [rewrite H1; vm_compute; reflexivity|exact H2].
Defined.

Example dial_answered_once_witness :
  let s := SDemo.after [SGo GoStart; SPost (SevClose (shutdown_intent true)); SGo (GoLoop SelBox);
                        SGo (GoTeardown (CWrote 10))] in
  t_results (summary (trace s)) = [Err (ESent ErrClosed)] /\
  exists r, t_results (summary (trace s)) = [r].
Proof.
  intros s. split; [vm_compute; reflexivity|].
  pose proof (dial_answered_once SDemo.cfg _ s SDemo.dialer_initial (SDemo.after_reach _)) as (_ & _ & H).
  apply H; vm_compute; reflexivity.
Defined.

Example session_never_stalls_witness :
  let s := SDemo.after [SGo GoStart] in
  exists s', session_step SDemo.cfg (GoLoop SelNegotiate)
    (s <| ep := {| SDemo.now := 31 * second; SDemo.sent := [] |} |>) = Some s' /\
    pc s' = PcTeardown timeout_intent.
Proof.
  intros s.
  pose proof (session_never_stalls SDemo.cfg _ s SDemo.dialer_initial (SDemo.after_reach _)) as [_ H].
  assert (Hpc : pc s = PcLoop) by (vm_compute; reflexivity). rewrite Hpc in H. unfold waits_bounded in H.
  assert (Hst : state s = StateSignaling) by (vm_compute; reflexivity). rewrite Hst in H.
  apply H. vm_compute. discriminate.
Defined.

(** Data arrives, the peer announces its close and the transport dies. *)
Definition peer_gone : list sact :=
  SDemo.connected ++
  [SStream (ALoopRead (Ok (demo_msg "hey"))); SStream ALoopPush;
   SPost (SevSignal (SDemo.signal KindClose (PClose {| lp_Code := CloseNormal; lp_Reason := "" |})));
   SGo (GoLoop SelBox);
   SStream (ALoopRead (Err (EOther "aborted" None))); SStream ALoopCloseData; SStream ALoopCloseDone;
   SGo (GoLoop SelStreamDone)].

