(* ===== verification/SessionSlots.v ===== *)
(** * What a session does to its endpoint

    [EnvContract] is the part of the endpoint's state a session may touch: the backlog
    slots the sessions own, and the session table. The theorem of this file: a session
    uses the slot it owns at most once, removes only itself from the table, and does the
    latter exactly when its goroutine ends. [view] is what the argument needs of a
    session; a computation [keeps] a predicate of it when it preserves it. *)

From Stdlib Require Import SpecFloat.
From Stdlib Require Import String.
From S2P Require Import Prelude.
From S2P Require Import Errors.
From S2P Require Import Stream.
From S2P Require Import Mailbox.
From S2P Require Import Signal.
From S2P Require Import Config.
From S2P Require Import Conn.
From S2P Require Import Metrics.
From S2P Require Import Pionx.
From S2P Require Import Session.

#[local] Arguments newSignal : simpl never.

(** [e'] is as consistent as [e] and has its table and its next address. *)
Definition as_consistent {E} (inv : gset nat -> E -> Prop) (table : E -> gmap string (nat * string))
    (next : E -> nat) (e e' : E) : Prop :=
  (forall O, inv O e -> inv O e') /\ table e' = table e /\ next e' = next e.

(** [ec_inv O e]: [e] is consistent and the sessions of [O] own a slot each, which no
    queued connection holds. *)
Class EnvContract (E : Type) `{Env E} := {
  ec_inv : gset nat -> E -> Prop;
  ec_table : E -> gmap string (nat * string);
  ec_next : E -> nat;
  ec_rand e : as_consistent ec_inv ec_table ec_next e (snd (env_rand16 e));
  ec_float e : as_consistent ec_inv ec_table ec_next e (snd (env_float64 e));
  ec_send t b sig e : as_consistent ec_inv ec_table ec_next e (snd (env_send t b sig e));
  ec_enqueue O c uid e : uid ∈ O -> ec_inv O e ->
    let '(err, e') := env_enqueueInbound c (Some uid) e in
    ec_inv (match err with Some _ => O | None => O ∖ {[uid]} end) e' /\
    ec_table e' = ec_table e /\ ec_next e' = ec_next e;
  ec_release O uid e : uid ∈ O -> ec_inv O e ->
    let e' := env_releaseSlot uid e in
    ec_inv (O ∖ {[uid]}) e' /\ ec_table e' = ec_table e /\ ec_next e' = ec_next e;
  ec_remove uid id e :
    let e' := env_removeSession uid id e in
    (forall O, ec_inv O e -> ec_inv O e') /\ ec_next e' = ec_next e /\
    ec_table e' =
      match ec_table e !! id with
      | Some (cur, _) => if bool_decide (cur = uid) then delete id (ec_table e) else ec_table e
      | None => ec_table e
      end
}.

Section slots.
Context {F P E : Type} `{PeerConn F P} `{Env E}.
Variable cfg : Config.Config.
Implicit Types s : session F P E.

Record view := {
  v_uid : nat; v_id : string; v_peer : string; v_role : role; v_nostream : bool; v_slot : bool;
  v_finished : bool; v_pc : session_pc; v_ep : E
}.

#[export] Instance view_eta : Eta view := fun v => {|
  v_uid := v_uid v; v_id := v_id v; v_peer := v_peer v; v_role := v_role v;
  v_nostream := v_nostream v; v_slot := v_slot v; v_finished := v_finished v;
  v_pc := v_pc v; v_ep := v_ep v |}.

Definition view_of s : view := {|
  v_uid := s_uid s; v_id := s_id s; v_peer := s_peer s; v_role := s_role s;
  v_nostream := bool_decide (stream s = None); v_slot := releaseSlot s;
  v_finished := finished s; v_pc := pc s; v_ep := ep s |}.

Definition alive (v : view) : Prop := v_finished v = false /\ v_pc v <> PcDone.

Implicit Types I : view -> Prop.

Definition leads {A} I (m : state_m (session F P E) A) J : Prop :=
  forall s, I (view_of s) -> J (view_of (snd (m s))).

Abbreviation keeps I m := (leads I m I).

(** ** Computations that keep every predicate stable under the endpoint's services *)

Lemma leads_bind {A B} I J K (m : state_m _ A) (k : A -> state_m _ B) :
  leads I m J -> (forall a, leads J (k a) K) -> leads I (m ≫= k) K.
Proof.
  intros Hm Hk s Hs. unfold mbind, state_m_bind. specialize (Hm s Hs).
  destruct (m s) as [a s']. by apply Hk.
Qed.

Lemma leads_weaken {A} I J K (m : state_m _ A) : leads I m J -> (forall v, J v -> K v) -> leads I m K.
Proof. intros Hm HJ s Hs. by apply HJ, Hm. Qed.

Lemma keeps_bind {A B} I (m : state_m _ A) (k : A -> state_m _ B) :
  keeps I m -> (forall a, keeps I (k a)) -> keeps I (m ≫= k).
Proof. apply leads_bind. Qed.

Lemma keeps_ret {A} I (a : A) : keeps I (mret a).
Proof. by intros s Hs. Qed.
Lemma keeps_get I : keeps I get_s.
Proof. by intros s Hs. Qed.
Lemma keeps_gets {A} I (f : session F P E -> A) : keeps I (gets f).
Proof. by intros s Hs. Qed.
Lemma keeps_modify I f :
  (forall s, view_of (f s) = view_of s) -> keeps I (modify f).
Proof. intros Hf s Hs. simpl. by rewrite Hf. Qed.
Lemma keeps_emit I ev : keeps I (emit ev).
Proof. by apply keeps_modify. Qed.
Lemma keeps_on_conn I f : keeps I (on_conn f).
Proof. by apply keeps_modify. Qed.
Lemma keeps_with_peer {A} I dflt (f : P -> A * P) : keeps I (with_peer dflt f).
Proof.
  intros s Hs. unfold with_peer. destruct (peerConn s); [|done]. by destruct (f _).
Qed.

(** A predicate stable under sends and random numbers. *)
Record stable I : Prop := {
  st_rand v : I v -> I (v <| v_ep ::= fun e => snd (env_rand16 e) |>);
  st_float v : I v -> I (v <| v_ep ::= fun e => snd (env_float64 e) |>);
  st_send t b sig v : I v -> I (v <| v_ep ::= fun e => snd (env_send t b sig e) |>)
}.

Lemma keeps_with_ep {A} I (f : E -> A * E) :
  (forall v, I v -> I (v <| v_ep ::= fun e => snd (f e) |>)) -> keeps I (with_ep f).
Proof.
  intros Hf s Hs. apply Hf in Hs. unfold with_ep. cbn in *. destruct (f (ep s)). exact Hs.
Qed.

Hint Resolve keeps_ret keeps_get keeps_gets keeps_emit keeps_on_conn
  keeps_with_peer : keeps.

(** Walks through a computation, one case at a time. *)
Ltac walk :=
  repeat first
    [ apply keeps_ret | apply keeps_get | apply keeps_gets | apply keeps_emit
    | apply keeps_on_conn | apply keeps_with_peer
    | assumption
    | solve [auto with keeps]
    | apply keeps_bind; [|intros]
    | apply keeps_modify; intros; done
    | match goal with |- leads _ (match ?x with _ => _ end) _ => destruct x end ].

Section stable.
Context {I : view -> Prop} (HI : stable I).

Lemma keeps_rand : keeps I (with_ep env_rand16).
Proof. by apply keeps_with_ep, HI. Qed.
Lemma keeps_float : keeps I (with_ep env_float64).
Proof. by apply keeps_with_ep, HI. Qed.
Lemma keeps_send t b sig : keeps I (with_ep (env_send t b sig)).
Proof. apply keeps_with_ep. intros v. by apply HI. Qed.
Hint Resolve keeps_rand keeps_float keeps_send : keeps.

Lemma keeps_sendSignal kind p : keeps I (sendSignal cfg kind p).
Proof. unfold sendSignal. walk. Qed.
Lemma keeps_sendCloseSignal i : keeps I (sendCloseSignal cfg i).
Proof. unfold sendCloseSignal. walk. Qed.
Lemma keeps_metric m : keeps I (metric_ m).
Proof. unfold metric_. walk. Qed.
Lemma keeps_dropSignal : keeps I dropSignal.
Proof. apply keeps_metric. Qed.
Lemma keeps_read_peer {A} (dflt : A) f : keeps I (read_peer dflt f).
Proof. apply keeps_with_peer. Qed.
Hint Resolve keeps_sendSignal keeps_sendCloseSignal keeps_metric keeps_dropSignal keeps_read_peer : keeps.

Lemma keeps_addCandidates l : keeps I (addCandidates l).
Proof. induction l as [|c l IH]; simpl; [walk|]. unfold addCandidate. walk. Qed.
Hint Resolve keeps_addCandidates : keeps.
Lemma keeps_flushCandidates : keeps I flushCandidates.
Proof. unfold flushCandidates. walk. Qed.
Lemma keeps_clock : keeps I clock_now.
Proof. unfold clock_now. walk. Qed.
Hint Resolve keeps_flushCandidates keeps_clock : keeps.
Lemma keeps_armRecovery d : keeps I (armRecovery d).
Proof. unfold armRecovery. walk. Qed.
Lemma keeps_armKeepAlive : keeps I (armKeepAlive cfg).
Proof. unfold armKeepAlive. walk. Qed.
Lemma keeps_refreshStats : keeps I refreshCandidateStats.
Proof. unfold refreshCandidateStats. walk. Qed.
Lemma keeps_backoffFor n : keeps I (backoffFor cfg n).
Proof. unfold backoffFor. walk. Qed.
Hint Resolve keeps_armRecovery keeps_armKeepAlive keeps_refreshStats keeps_backoffFor : keeps.
Lemma keeps_attemptRestart : keeps I (attemptRestart cfg).
Proof. unfold attemptRestart. walk. Qed.
Hint Resolve keeps_attemptRestart : keeps.
Lemma keeps_onConnectivityLost : keeps I (onConnectivityLost cfg).
Proof. unfold onConnectivityLost. walk. Qed.
Hint Resolve keeps_onConnectivityLost : keeps.
Lemma keeps_onConnectivityUp : keeps I (onConnectivityUp cfg).
Proof. unfold onConnectivityUp. walk. Qed.
Lemma keeps_onConnectivityFailed : keeps I (onConnectivityFailed cfg).
Proof. unfold onConnectivityFailed. walk. Qed.
Lemma keeps_onRecoveryDeadline : keeps I (onRecoveryDeadline cfg).
Proof. unfold onRecoveryDeadline. walk. Qed.
Lemma keeps_startProbe : keeps I startProbe.
Proof. unfold startProbe. walk. Qed.
Lemma keeps_onKeepAlive r : keeps I (onKeepAlive cfg r).
Proof. unfold onKeepAlive. walk. Qed.
Hint Resolve keeps_onConnectivityUp keeps_onConnectivityFailed keeps_onRecoveryDeadline
  keeps_startProbe keeps_onKeepAlive : keeps.
Lemma keeps_decoded {Q} (r : result error Q) k :
  (forall b, keeps I (k b)) -> keeps I (decoded r k).
Proof. intros Hk. unfold decoded. walk. Qed.
Lemma keeps_onRestartSignal sig : keeps I (onRestartSignal cfg sig).
Proof. unfold onRestartSignal. apply keeps_decoded. intros b. walk. Qed.
Hint Resolve keeps_onRestartSignal : keeps.
Lemma keeps_addCandidate c : keeps I (addCandidate c).
Proof. unfold addCandidate. walk. Qed.
Hint Resolve keeps_addCandidate : keeps.
Lemma keeps_onSignal sig : keeps I (onSignal cfg sig).
Proof.
  unfold onSignal. repeat first [apply keeps_decoded; intros ? | progress walk].
  all: apply keeps_modify; intros; by case_bool_decide.
Qed.
End stable.
Hint Resolve keeps_rand keeps_float keeps_send keeps_sendSignal keeps_sendCloseSignal keeps_metric keeps_read_peer keeps_clock
  keeps_flushCandidates keeps_armKeepAlive keeps_refreshStats keeps_backoffFor keeps_attemptRestart
  keeps_onConnectivityUp
  keeps_onConnectivityLost keeps_onConnectivityFailed keeps_onRecoveryDeadline keeps_startProbe
  keeps_onKeepAlive keeps_onSignal : keeps.

(** ** The slot of one session

    The session [uid] among the owners [O] of the other slots; [tbl] is the table. *)
Section contract.
Context `{!EnvContract E}.
Variables (uid : nat) (id peer : string) (rl : role) (O : gset nat) (tbl : gmap string (nat * string)) (nxt : nat).
Hypothesis uid_other : uid ∉ O.

Definition owners (slot : bool) : gset nat := if slot then {[uid]} ∪ O else O.

Record base (v : view) : Prop := {
  ba_uid : v_uid v = uid; ba_id : v_id v = id; ba_peer : v_peer v = peer; ba_role : v_role v = rl;
  ba_inv : ec_inv (owners (v_slot v)) (v_ep v); ba_next : ec_next (v_ep v) = nxt
}.

(** While the session runs: an answerer without a stream still has its slot. *)
Record running (v : view) : Prop := {
  ru_base : base v; ru_live : alive v; ru_table : ec_table (v_ep v) = tbl;
  ru_slot : rl = roleAnswerer -> v_nostream v = true -> v_slot v = true
}.

(** With a stream, not yet delivered. *)
Record undelivered (v : view) : Prop := {
  un_base : base v; un_live : alive v; un_table : ec_table (v_ep v) = tbl;
  un_stream : v_nostream v = false; un_slot : rl = roleAnswerer -> v_slot v = true
}.

(** A service that keeps the endpoint's side keeps what is said of a session. *)
Lemma stable_frame I :
  (forall v e, I v -> as_consistent ec_inv ec_table ec_next (v_ep v) e -> I (v <| v_ep := e |>)) -> stable I.
Proof.
  intros Hf. split; intros; apply Hf; try done; [apply ec_rand|apply ec_float|apply ec_send].
Qed.

Lemma base_frame v e : base v -> as_consistent ec_inv ec_table ec_next (v_ep v) e -> base (v <| v_ep := e |>).
Proof. intros [] (Hi & _ & Hn). split; simpl; auto. congruence. Qed.

Lemma running_stable : stable running.
Proof.
  apply stable_frame. intros v e [Hb Hl Ht Hs] He. split; [by apply base_frame|done| |done].
  destruct He as (_ & He & _). simpl. congruence.
Qed.

Lemma undelivered_stable : stable undelivered.
Proof.
  apply stable_frame. intros v e [Hb Hl Ht Hn Hs] He. split; [by apply base_frame|done| |done..].
  destruct He as (_ & He & _). simpl. congruence.
Qed.
Hint Resolve running_stable undelivered_stable : keeps.

Lemma undelivered_running v : undelivered v -> running v.
Proof. intros [Hb ? ? Hn Hs]. split; [done..|]. by rewrite Hn. Qed.

Lemma owners_use : owners true ∖ {[uid]} = O.
Proof. unfold owners. set_solver. Qed.

(** [deliver] hands the slot over, or keeps it. *)
Lemma leads_deliver c : leads undelivered (deliver c) running.
Proof.
  intros s [[] Hl Ht Hn Hs]. simpl in *. unfold deliver.
  unfold mbind, state_m_bind, modify, get_s. simpl in *.
  destruct (s_role s) eqn:Er; simpl.
  - destruct (result_ch s); simpl; (split; [done..|simpl; by rewrite Hn]).
  - rewrite Hs in * by congruence. subst. unfold with_ep. simpl.
    pose proof (ec_enqueue (owners true) c (s_uid s) (ep s)) as Hq.
    destruct (env_enqueueInbound c (Some (s_uid s)) (ep s)) as [err e'].
    destruct Hq as (Hi & Htb & Hnx); [unfold owners; rewrite ba_uid0; set_solver|done|].
    destruct err as [err|]; simpl; (split; simpl; [split; simpl; try done|done|congruence|by rewrite Hn]).
    + congruence.
    + by rewrite ba_uid0, owners_use in Hi.
    + congruence.
Qed.

(** ** The handlers that touch the slot *)

(** A stream that has just been made leaves an answerer with its slot. *)
Lemma leads_new_stream st :
  leads (fun v => running v /\ v_nostream v = true) (modify (fun s : session F P E => s <| stream := Some st |> <| state := StateConnected |> <| negotiateTimer := None |>)) undelivered.
Proof. intros s [[] Hn]. split; simpl; auto. destruct ru_base0; split; auto. Qed.

Lemma leads_onChannelOpen : keeps running (onChannelOpen cfg).
Proof.
  intros s Hs. unfold onChannelOpen. unfold mbind at 1, state_m_bind at 1, get_s at 1.
  destruct (stream s) eqn:Est; [done|].
  match goal with |- running (view_of (snd (?m s))) =>
    cut (leads (fun v => running v /\ v_nostream v = true) m running);
      [intros Hm; apply Hm; split; [done|]; simpl; by rewrite bool_decide_eq_true_2|] end.
  apply leads_bind with (fun v => running v /\ v_nostream v = true); [apply keeps_read_peer|intros max].
  destruct (_ && _); [intros s' [? _]; done|].
  apply leads_bind with (fun v => running v /\ v_nostream v = true); [apply keeps_with_peer|intros err].
  destruct (wrapErr _ _ _); [intros s' [? _]; done|].
  apply leads_bind with undelivered; [apply leads_new_stream|intros _].
  pose proof undelivered_stable as Hu.
  assert (Hd : forall c, leads undelivered (deliver c) running) by apply leads_deliver.
  assert (Hr : forall A (a : A), leads undelivered (mret a) running)
    by (intros A a s'; apply undelivered_running).
  repeat (apply leads_bind with undelivered; [walk|intros]). destruct (conn _); auto.
Qed.
Hint Resolve leads_onChannelOpen : keeps.

Lemma leads_onPionEvent ev : keeps running (onPionEvent cfg ev).
Proof. pose proof running_stable. unfold onPionEvent. walk. Qed.

Lemma leads_handle_all evs : keeps running (handle_all cfg evs).
Proof.
  pose proof running_stable. pose proof leads_onPionEvent.
  induction evs as [|[] evs IH]; simpl; walk.
Qed.
Hint Resolve leads_handle_all : keeps.

Lemma leads_loop_body sel : keeps running (loop_body cfg sel).
Proof. pose proof running_stable. unfold loop_body. walk. Qed.

Lemma leads_begin offer : keeps running (begin cfg offer).
Proof. pose proof running_stable. unfold begin, start. walk. Qed.

(** ** Teardown *)

(** The table without the session. *)
Definition without (t : gmap string (nat * string)) : gmap string (nat * string) :=
  match t !! id with
  | Some (cur, _) => if bool_decide (cur = uid) then delete id t else t
  | None => t
  end.

Record over (v : view) : Prop := {
  ov_base : base v; ov_finished : v_finished v = true; ov_done : v_pc v = PcDone; ov_table : ec_table (v_ep v) = without tbl;
  ov_slot : v_slot v = false
}.

(** Either the teardown waits, or it is over. *)
Definition closing (v : view) : Prop := base v /\ alive v /\ ec_table (v_ep v) = tbl.

Lemma closing_stable : stable closing.
Proof.
  apply stable_frame. intros v e (Hb & Hl & Ht) He. split; [by apply base_frame|].
  destruct He as (_ & He & _). split; [done|]. simpl. congruence.
Qed.

Definition removed (v : view) : Prop :=
  base v /\ alive v /\ ec_table (v_ep v) = without tbl.

Lemma leads_remove : leads closing (with_ep (fun e => (tt, env_removeSession uid id e))) removed.
Proof.
  intros s ([] & Hl & Ht). unfold with_ep. simpl in *.
  destruct (ec_remove uid id (ep s)) as (Hi & Hnx & Htb).
  split; [split; simpl; auto; congruence|]. split; [done|]. simpl. unfold without. by rewrite Htb, Ht.
Qed.

Lemma leads_return_slot : leads removed return_slot (fun v => removed v /\ v_slot v = false).
Proof.
  intros s ([] & Hl & Ht). unfold return_slot.
  unfold mbind, state_m_bind, get_s, with_ep, modify. simpl in *.
  destruct (releaseSlot s) eqn:Es; simpl.
  - destruct (ec_release (owners true) (s_uid s) (ep s)) as (Hi & Htb & Hnx);
      [unfold owners; rewrite ba_uid0; set_solver|done|].
    rewrite ba_uid0, owners_use in Hi. split; [|done]. split; [split; simpl; rewrite ?ba_uid0 in *; try done; congruence|].
    split; [done|]. simpl. by rewrite ba_uid0 in Htb |- *; rewrite Htb.
  - split; [|done]. split; [|done]. split; simpl; try done. by rewrite Es.
Qed.

(** [leads] through a state read whose value matters only for that state. *)
Lemma leads_get {A} I J (k : session F P E -> state_m (session F P E) A) :
  (forall s, I (view_of s) -> J (view_of (snd (k s s)))) -> leads I (get_s ≫= k) J.
Proof. done. Qed.

Lemma leads_teardown_end i : leads closing (teardown_end i) over.
Proof.
  pose proof closing_stable as Hc. unfold teardown_end.
  apply leads_bind with closing; [unfold close_peer; walk|intros _].
  apply leads_bind with closing; [walk|intros _].
  apply leads_get. intros s Hs. pose proof Hs as [[Hu Hid _ _ _ _] _]. simpl in Hu, Hid.
  rewrite Hu, Hid. revert s Hs Hu Hid.
  match goal with |- forall s, _ -> _ -> _ -> over (view_of (snd (?m s))) =>
    cut (leads closing m over); [auto|] end.
  apply leads_bind with removed; [apply leads_remove|intros _].
  apply leads_bind with removed; [walk|intros _].
  apply leads_bind with (fun v => removed v /\ v_slot v = false); [apply leads_return_slot|intros _].
  apply leads_bind with (fun v => removed v /\ v_slot v = false); [unfold unblock_dial; walk|intros _].
  intros s [(Hb & _ & Ht) Hs]. split; try done. destruct Hb. by split.
Qed.

Lemma leads_teardown i cw : leads closing (teardown cfg (Some i) cw) (fun v => closing v /\ v_pc v = PcAwait i \/ over v).
Proof.
  pose proof closing_stable as Hc. unfold teardown. cbv zeta. cbn [default from_option].
  assert (Hst : forall st, keeps closing (modify (fun s : session F P E => s <| stream := Some st |>))).
  { intros st s (Hb & Ha & Ht). split; [by destruct Hb; split|done]. }
  repeat (apply leads_bind with closing; [walk|intros]).
  destruct (must_await _ _); [|eapply leads_weaken; [apply leads_teardown_end|auto]].
  intros s (Hb & [Hf Hd] & Ht). left. split; [|done].
  split; [by destruct Hb; split|done].
Qed.

Lemma running_closing v : running v -> closing v.
Proof. intros []. by split. Qed.

(** ** One step *)

(** Where the goroutine is, an answerer without a stream still has its slot. *)
Definition slot_phase s : Prop :=
  match pc s with
  | PcStart _ | PcLoop => s_role s = roleAnswerer -> stream s = None -> releaseSlot s = true
  | _ => True
  end.

Lemma leads_goto m s :
  leads running m running -> running (view_of s) ->
  slot_phase (goto (m s)) /\ closing (view_of (goto (m s))).
Proof.
  intros Hm Hs. specialize (Hm s Hs). destruct (m s) as [i s']. simpl in *.
  destruct Hm as [Hb [Hf Hd] Ht Hslot]. destruct Hb. simpl in *. split.
  - unfold slot_phase. destruct i; simpl; [done|]. intros Hr Hn.
    apply Hslot; [congruence|by rewrite bool_decide_eq_true_2].
  - split; [by split|]. split; [|done]. split; [done|]. simpl. by destruct i.
Qed.

(** One step of the goroutine: it stays within [closing] until it is over. *)
Lemma session_step_slots a s s' :
  session_step cfg a s = Some s' -> closing (view_of s) -> slot_phase s ->
  slot_phase s' /\ (closing (view_of s') \/ over (view_of s')).
Proof.
  intros Hs Hc Hp.
  assert (Hrun : pc s = PcLoop \/ (exists o, pc s = PcStart o) -> running (view_of s)).
  { destruct Hc as (Hb & Hl & Ht). intros Hpc. split; try done. simpl. intros Hr Hn.
    apply bool_decide_eq_true in Hn. unfold slot_phase in Hp. destruct Hb. simpl in *.
    destruct Hpc as [Hpc|[o Hpc]]; rewrite Hpc in Hp; apply Hp; congruence. }
  assert (Hphase : forall s', over (view_of s') \/ (exists i, pc s' = PcAwait i) -> slot_phase s').
  { intros s1 Ho. unfold slot_phase. destruct Ho as [[_ _ Hd _ _]|[i Hd]]; simpl in Hd; by rewrite Hd. }
  destruct a as [|sel|cw|[]], (pc s) as [o| |i|i|] eqn:Epc; simpl in Hs; rewrite ?Epc in Hs; try done.
  - injection Hs as <-. edestruct (leads_goto (begin cfg o) s) as [? ?]; eauto using leads_begin.
  - destruct (ready sel s); [|done]. injection Hs as <-.
    edestruct (leads_goto (loop_body cfg sel) s) as [? ?]; eauto using leads_loop_body.
  - destruct (once_busy s); [done|]. injection Hs as <-.
    destruct (leads_teardown i cw s Hc) as [[? ?]|?]; split; eauto.
  - destruct (match stream s with Some _ => _ | None => _ end); [|done]. injection Hs as <-.
    pose proof (leads_teardown_end i s Hc). split; eauto.
  - injection Hs as <-. pose proof (leads_teardown_end i s Hc). split; eauto.
Qed.
End contract.
End slots.
