(* ===== verification/Endpoint.v ===== *)
(** * The endpoint and its listener (endpoint.go, listener.go, dial.go)

    An [Endpoint] routes inbound signals to sessions, admits offers within a backlog,
    queues established connections for [AcceptConn], and hands sessions the services
    they need ([Env]). An operation is a computation in the state monad over [Endpoint];
    where another goroutine can get in between, at the boundaries of its critical
    sections, it is cut into parts which the operation composes and which [System]
    interleaves. The goroutines it starts and the events it posts are recorded in
    [log], which [System] carries out. The signaling connection, the clock and the random
    sources are the class [World]. *)

From Stdlib Require Import SpecFloat.
From Stdlib Require Import String.
From S2P Require Import Prelude.
From S2P Require Import Errors.
From S2P Require Import Dedupe.
From S2P Require Import Signal.
From S2P Require Import Config.
From S2P Require Import Conn.
From S2P Require Import Metrics.
From S2P Require Import Pionx.
From S2P Require Import Session.

#[local] Arguments newSignal : simpl never.

(** ** What lies outside the module

    [w_lock] is the outcome of waiting for the send lock under a context: obtained, or
    the context's error. [w_evolves] is what time and the peers may do to the world. *)
Class World (W : Type) := {
  w_now : W -> Z;
  w_rand16 : W -> bytes * W;
  w_float64 : W -> spec_float * W;
  w_Open : string -> W -> option error * W;          (* [Signaler.Open] *)
  w_lock : Z -> bool -> W -> option error * W;
  w_Send : Signal -> W -> option error * W;          (* [SignalConn.Send] *)
  w_Close : W -> option error * W;                   (* [SignalConn.Close] *)
  w_evolves : W -> W -> Prop
}.

Class WorldLaws (W : Type) `{World W} := {
  w_evolves_time : forall w w', w_evolves w w' -> w_now w <= w_now w';
  w_rand_time : forall w, w_now w <= w_now (snd (w_rand16 w));
  w_float_time : forall w, w_now w <= w_now (snd (w_float64 w));
  w_lock_time : forall t b w, w_now w <= w_now (snd (w_lock t b w));
  w_send_time : forall sig w, w_now w <= w_now (snd (w_Send sig w));
  w_close_time : forall w, w_now w <= w_now (snd (w_Close w))
}.

(** ** Data *)

Record pendingConn := { pd_conn : Conn; pd_release : option nat }.

(** The listener: its accept queue and whether its [closed] channel is closed. *)
Record Listener := { ln_accept : list pendingConn; ln_closed : bool }.

#[export] Instance Listener_eta : Eta Listener := fun l => {|
  ln_accept := ln_accept l; ln_closed := ln_closed l |}.

(** What the endpoint does beyond its own state. *)
Inductive eev :=
| EMetric (m : metric)
| ESend (sig : Signal) (e : option error)
| EPost (uid : nat) (ev : sessionEvent)                (* into a session's mailbox *)
| ESpawn (uid : nat) (id peer : string) (r : role) (offer : option Signal)  (* [go s.run] *)
| EDropConn (c : Conn)                                (* [conn.Close] of a connection nobody has *)
| EQueueFull.                                         (* [push] found no room *)

Section endpoint.
Context {W D : Type} `{World W} `{DupFilter D}.

(** A session is known by its address; [held] has the slots whose [sync.Once] has not
    run. The endpoint creates at most one listener, [ln], and [listener] tells whether
    the field still points to it. *)
Record Endpoint := {
  slots : Z;
  held : gset nat;
  dedupe : D;
  sessions : gmap string (nat * string);
  listener : bool;
  ln : option Listener;
  listened : bool;
  signalErr : option error;
  ep_closed : bool;
  closeOnce : bool;
  closeErr : option error;
  ctx_done : bool;
  next_uid : nat;
  world : W;
  log : list eev
}.

#[export] Instance Endpoint_eta : Eta Endpoint := fun e => {|
  slots := slots e; held := held e; dedupe := dedupe e; sessions := sessions e;
  listener := listener e; ln := ln e; listened := listened e; signalErr := signalErr e;
  ep_closed := ep_closed e; closeOnce := closeOnce e; closeErr := closeErr e;
  ctx_done := ctx_done e; next_uid := next_uid e; world := world e; log := log e |}.

Variable cfg : Config.Config.

Abbreviation M := (state_m Endpoint) (only parsing).

Definition note (ev : eev) : M unit := modify (fun e => e <| log ::= (fun l => l ++ [ev]) |>).
Definition count (name : string) (labels : list Label) : M unit := note (EMetric (Count name 1 labels)).

Definition with_world {A} (f : W -> A * W) : M A := fun e =>
  let '(a, w) := f (world e) in (a, e <| world := w |>).

(** ** Sending (send, reject) *)

Definition ep_send (timeout : Z) (bound : bool) (sig : Signal) : M (option error) :=
  lock ← with_world (w_lock timeout bound);
  match lock with
  | Some cerr =>
    count metricSignalSent [labelKind (Kind sig); labelResult "timeout"];;
    mret (Some (errorf ErrSignaling "pipe: send %s: %w" (Some cerr)))
  | None =>
    err ← with_world (w_Send sig);
    note (ESend sig err);;
    match err with
    | Some e =>
      count metricSignalSent [labelKind (Kind sig); labelResult "error"];;
      mret (wrapErr ErrSignaling (Some e) "pipe: send ")
    | None =>
      count metricSignalSent [labelKind (Kind sig); labelResult "success"];;
      mret None
    end
  end.

Definition reject (sig : Signal) (code reason : string) : M unit :=
  rand ← with_world w_rand16;
  match newSignal rand KindReject (cfg_ID cfg) (From sig) (SessionID sig)
          (Some (PReject {| jp_Code := code; jp_Reason := reason |})) with
  | Err _ => mret tt
  | Ok out => ep_send signalSendTimeout true out;; mret tt
  end.

(** ** The session table *)

Definition addSession (uid : nat) (id peer : string) : M (option error) :=
  e ← get_s;
  if ep_closed e then mret (Some (errorf ErrClosed "pipe: endpoint is closed" None))
  else match signalErr e with
  | Some err => mret (Some err)
  | None =>
    match sessions e !! id with
    | Some _ => mret (Some (errorf ErrProtocol "pipe: session %s already exists" None))
    | None =>
      modify (fun e => e <| sessions := <[id := (uid, peer)]> (sessions e) |>);;
      n ← gets (fun e => Z.of_nat (size (sessions e)));
      note (EMetric (Gauge metricSessionsActive n []));; mret None
    end
  end.

(** Only the very session that is registered is removed. *)
Definition removeSession (uid : nat) (id : string) : M unit :=
  e ← get_s;
  match sessions e !! id with
  | Some (cur, _) =>
    if bool_decide (cur = uid) then
      modify (fun e => e <| sessions := delete id (sessions e) |>);;
      n ← gets (fun e => Z.of_nat (size (sessions e)));
      note (EMetric (Gauge metricSessionsActive n []))
    else mret tt
  | None => mret tt
  end.

Definition setSignalErr (err : error) : M unit :=
  modify (fun e => match signalErr e with None => e <| signalErr := Some err |> | Some _ => e end).

(** ** Backlog slots

    The closure [releaseSlot] of the slot [uid]. *)
Definition releaseSlot_ (uid : nat) : M unit :=
  e ← get_s;
  if bool_decide (uid ∈ held e) then
    modify (fun e => e <| held := held e ∖ {[uid]} |>
                       <| slots := if 0 <? slots e then slots e - 1 else slots e |>);;
    n ← gets slots;
    note (EMetric (Gauge metricSessionsPending n []))
  else mret tt.

Definition release_pending (p : pendingConn) : M unit :=
  match pd_release p with Some uid => releaseSlot_ uid | None => mret tt end.

(** ** The listener *)

Definition ln_isClosed (l : option Listener) : bool :=
  match l with Some l => ln_closed l | None => true end.

(** [push]: the first [select], then the second, whose case is chosen by [pick_closed]
    when the queue has room and the listener has closed meanwhile. *)
Definition push_check : M (option error) :=
  e ← get_s;
  if ln_isClosed (ln e) then mret (Some (errorf ErrClosed "pipe: listener is closed" None))
  else mret None.

Definition push_send (pick_closed : bool) (p : pendingConn) : M (option error) :=
  e ← get_s;
  match ln e with
  | None => mret (Some (errorf ErrClosed "pipe: listener is closed" None))
  | Some l =>
    let room := zlen (ln_accept l) <? AcceptBacklog cfg in
    if ln_closed l && (pick_closed || negb room) then
      mret (Some (errorf ErrClosed "pipe: listener is closed" None))
    else if room then
      modify (fun e => e <| ln := Some (l <| ln_accept ::= (fun q => q ++ [p]) |>) |>);; mret None
    else note EQueueFull;; mret (Some (errorf ErrClosed "pipe: accept queue is full" None))
  end.

Definition push (p : pendingConn) : M (option error) :=
  err ← push_check;
  match err with Some e => mret (Some e) | None => push_send false p end.

Definition enqueueInbound (p : pendingConn) : M (option error) :=
  e ← get_s;
  if negb (listener e) then
    mret (Some (errorf ErrClosed "pipe: no listener is accepting connections" None))
  else push p.

(** [drain], on the queue found. *)
Fixpoint drain_all (q : list pendingConn) : M unit :=
  match q with
  | [] => mret tt
  | p :: q =>
    modify (fun e => e <| ln ::= fmap (fun l => l <| ln_accept ::= tail |>) |>);;
    release_pending p;;
    note (EDropConn (pd_conn p));;
    drain_all q
  end.

Definition drain : M unit :=
  e ← get_s;
  match ln e with Some l => drain_all (ln_accept l) | None => mret tt end.

Definition clearListener : M unit := modify (fun e => e <| listener := false |>).

(** [Listener.Close]: [close(l.closed)], then the rest. *)
Definition ln_close_mark : M unit :=
  modify (fun e => e <| ln ::= fmap (fun l => l <| ln_closed := true |>) |>).

Definition ln_Close : M unit :=
  e ← get_s;
  if ln_isClosed (ln e) then mret tt else ln_close_mark;; clearListener;; drain.

Definition opErr (err : error) : option error :=
  opError "accept" {| addr_peer := cfg_ID cfg; addr_session := "" |} None (Some err).

(** [AcceptConn], by the case its [select] takes; [None]: that case is not ready. *)
Inductive accept_case := CaseConn | CaseClosed | CaseCtx.

Definition AcceptConn (c : accept_case) : M (option (result error Conn)) :=
  e ← get_s;
  match c, ln e with
  | _, None => mret None
  | CaseConn, Some l =>
    match ln_accept l with
    | [] => mret None
    | p :: q =>
      modify (fun e => e <| ln := Some (l <| ln_accept := q |>) |>);;
      release_pending p;;
      count metricAcceptResults [labelResult "success"];;
      mret (Some (Ok (pd_conn p)))
    end
  | CaseClosed, Some l =>
    if ln_closed l then
      drain;;
      mret (Err <$> opErr (errorf ErrClosed "pipe: listener is closed" None))
    else mret None
  | CaseCtx, Some _ =>
    if ctx_done e then
      drain;;
      mret (Err <$> opErr (errorf ErrClosed "pipe: endpoint is closed" None))
    else mret None
  end.

(** [Endpoint.Listen]. *)
Definition Listen : M (option error) :=
  e ← get_s;
  if ep_closed e then mret (Some (errorf ErrClosed "pipe: listen: endpoint is closed" None))
  else if listened e then mret (Some (ESent ErrAlreadyListening))
  else
    modify (fun e => e <| ln := Some {| ln_accept := []; ln_closed := false |} |>
                       <| listener := true |> <| listened := true |>);;
    mret None.

(** ** Inbound signals (route, acceptOffer)

    The receive loop's work on one signal, cut where it gives up the lock: [route_lookup]
    ends with what remains to do. *)
Inductive route_next := RouteDone | RoutePost (uid : nat) | RouteOffer.

Definition route_lookup (sig : Signal) : M route_next :=
  match Validate sig with
  | Some _ =>
    count metricSignalReceived [labelKind (Kind sig); labelResult "invalid"];;
    count metricProtocolFailures [labelScope "signal"];; mret RouteDone
  | None =>
    if negb (bool_decide (To sig = cfg_ID cfg)) then
      count metricSignalReceived [labelKind (Kind sig); labelResult "misrouted"];;
      count metricProtocolFailures [labelScope "signal"];; mret RouteDone
    else
      seen ← (fun e => let '(b, d) := df_mark (ID sig) (dedupe e) in (b, e <| dedupe := d |>));
      if seen : bool then
        count metricSignalReceived [labelKind (Kind sig); labelResult "duplicate"];; mret RouteDone
      else
        count metricSignalReceived [labelKind (Kind sig); labelResult "accepted"];;
        e ← get_s;
        if ep_closed e then mret RouteDone
        else match sessions e !! SessionID sig with
        | Some (uid, peer) =>
          if negb (bool_decide (peer = From sig)) then
            count metricProtocolFailures [labelScope "routing"];; mret RouteDone
          else mret (RoutePost uid)
        | None =>
          if bool_decide (Kind sig = KindOffer) then mret RouteOffer
          else count metricProtocolFailures [labelScope "routing"];; mret RouteDone
        end
  end.

(** [acceptOffer] in its parts: the listener and the peer, the slot and the session.
    The result tells whether the offer goes on. *)
Definition accept_check (sig : Signal) : M bool :=
  count metricAcceptAttempts [];;
  e ← get_s;
  if negb (listener e) || ln_isClosed (ln e) then
    count metricAcceptResults [labelResult "not-listening"];;
    reject sig RejectNotListening "peer is not accepting connections";; mret false
  else if match AllowPeer cfg with Some allow => negb (allow (From sig)) | None => false end then
    count metricAcceptResults [labelResult "unauthorized"];;
    reject sig RejectUnauthorized "peer is not allowed to connect";; mret false
  else mret true.

(** The slot; the address of the session that is about to be created names it. *)
Definition accept_slot (sig : Signal) : M (option nat) :=
  e ← get_s;
  if slots e <? AcceptBacklog cfg then
    let uid := next_uid e in
    modify (fun e => e <| slots ::= Z.succ |> <| held := held e ∪ {[uid]} |>
                       <| next_uid := S uid |>);;
    mret (Some uid)
  else
    count metricAcceptResults [labelResult "busy"];;
    reject sig RejectBusy "accept backlog is full";; mret None.

Definition accept_add (sig : Signal) (uid : nat) : M unit :=
  err ← addSession uid (SessionID sig) (From sig);
  match err with
  | Some _ =>
    releaseSlot_ uid;;
    count metricAcceptResults [labelResult "error"];;
    reject sig RejectInternal "endpoint is not accepting sessions"
  | None =>
    n ← gets slots;
    note (EMetric (Gauge metricSessionsPending n []));;
    note (ESpawn uid (SessionID sig) (From sig) roleAnswerer (Some sig))
  end.

Definition acceptOffer (sig : Signal) : M unit :=
  ok ← accept_check sig;
  if ok : bool then
    slot ← accept_slot sig;
    match slot with Some uid => accept_add sig uid | None => mret tt end
  else mret tt.

Definition route (sig : Signal) : M unit :=
  next ← route_lookup sig;
  match next with
  | RouteDone => mret tt
  | RoutePost uid => note (EPost uid (SevSignal sig))
  | RouteOffer => acceptOffer sig
  end.

(** One iteration of [receiveLoop]; the result tells whether the loop goes on. *)
Definition receive_step (r : result error Signal) : M bool :=
  match r with
  | Ok sig => route sig;; mret true
  | Err err =>
    e ← get_s;
    (if negb (ctx_done e)
     then setSignalErr (ECat (Errors.ESent ErrSignaling) (Some err) "pipe: signaling receive failed")
     else mret tt);;
    mret false
  end.

(** ** Dialing

    [dial] until it waits: the address of the new session, or the error. [ctx] is the
    error of the caller's context. *)
Definition dial_start (ctx : option error) (peer : string) : M (result error nat) :=
  match validPeerID peer with
  | Some e => mret (Err (errorf ErrConfig "pipe: dial: %w" (Some e)))
  | None =>
    if bool_decide (peer = cfg_ID cfg) then
      mret (Err (errorf ErrConfig "pipe: dial: an endpoint cannot dial itself" None))
    else match ctx with
    | Some e => mret (Err e)
    | None =>
      rand ← with_world w_rand16;
      uid ← gets next_uid;
      modify (fun e => e <| next_uid := S uid |>);;
      err ← addSession uid (NewID rand) peer;
      match err with
      | Some e => mret (Err e)
      | None => note (ESpawn uid (NewID rand) peer roleOfferer None);; mret (Ok uid)
      end
    end
  end.

(** How the wait ends: the session's result, the caller's context with what the session
    had delivered by its end, or the endpoint's context. *)
Inductive dial_case := DialResult (r : result error Conn)
| DialCtx (err : error) (late : option (result error Conn))
| DialClosed.

Definition cancel_intent (err : error) : closeIntent :=
  {| ci_code := CloseNormal; ci_reason := "caller cancelled the dial"; ci_err := Some err;
     ci_notify := true; ci_graceful := false |}.

Definition dial_wait (uid : nat) (c : dial_case) : M (result error Conn) :=
  match c with
  | DialResult r => mret r
  | DialCtx err late =>
    note (EPost uid (SevClose (cancel_intent err)));;
    match late with Some (Ok c) => note (EDropConn c) | _ => mret tt end;;
    if errIs err context_DeadlineExceeded then
      mret (Err (errorf ErrTimeout "pipe: dial %s: %w" (Some err)))
    else mret (Err (errorf ErrClosed "pipe: dial %s: %w" (Some err)))
  | DialClosed => mret (Err (errorf ErrClosed "pipe: dial %s: endpoint is closed" None))
  end.

Definition dial (ctx : option error) (peer : string) (c : nat -> dial_case) : M (result error Conn) :=
  r ← dial_start ctx peer;
  match r with Err e => mret (Err e) | Ok uid => dial_wait uid (c uid) end.

(** The label of a dial's outcome. *)
Definition dial_label (r : result error Conn) : string :=
  match r with
  | Ok _ => "success"
  | Err e => if errIs e ErrTimeout then "timeout" else if errIs e ErrPeerRejected then "rejected"
             else "error"
  end.

Definition Dial (ctx : option error) (peer : string) (c : nat -> dial_case) : M (result error Conn) :=
  count metricDialAttempts [];;
  r ← dial ctx peer c;
  count metricDialResults [labelResult (dial_label r)];;
  mret r.

(** ** Closing *)

Definition goaway_intent : closeIntent :=
  {| ci_code := CloseGoingAway; ci_reason := "endpoint is shutting down";
     ci_err := Some (Errors.ESent ErrClosed); ci_notify := true; ci_graceful := false |}.

(** The first critical section: the sessions found, and whether there is a listener. *)
Definition close_mark : M (list nat * bool) :=
  e ← get_s;
  modify (fun e => e <| closeOnce := true |> <| ep_closed := true |>);;
  mret ((fun p => fst (snd p)) <$> map_to_list (sessions e), listener e).

Fixpoint close_sessions (uids : list nat) : M unit :=
  match uids with
  | [] => mret tt
  | uid :: uids => note (EPost uid (SevClose goaway_intent));; close_sessions uids
  end.

(** After the wait for the sessions, which the grace period bounds. *)
Definition close_end : M unit :=
  modify (fun e => e <| ctx_done := true |>);;
  err ← with_world w_Close;
  modify (fun e => e <| closeErr := err |>).

Definition Endpoint_Close : M (option error) :=
  e ← get_s;
  if closeOnce e then mret (closeErr e)
  else
    p ← close_mark;
    (if snd (p : list nat * bool) then ln_Close else mret tt);;
    close_sessions (fst p);;
    close_end;;
    gets closeErr.

(** ** Construction (New, dial.go) *)

Definition toPionICEServers (servers : list Config.ICEServer) : list Pionx.ICEServer :=
  (fun s => {| ice_URLs := URLs s; ice_Username := Username s; ice_Credential := Credential s |})
  <$> servers.

Definition pionx_config {SE} (se : option (SE -> SE)) (conf : option (Configuration -> Configuration))
    : Pionx.Config SE := {|
  Pionx.ICEServers := toPionICEServers (Config.ICEServers cfg);
  RelayOnly := TransportPolicy cfg =? ICETransportPolicyRelay;
  ConfigureSettingEngine := se; ConfigureConfiguration := conf |}.

Definition newEndpoint (d : D) (w : W) : Endpoint := {|
  slots := 0; held := ∅; dedupe := d; sessions := ∅; listener := false; ln := None;
  listened := false; signalErr := None; ep_closed := false; closeOnce := false; closeErr := None;
  ctx_done := false; next_uid := 0; world := w; log := [] |}.
End endpoint.

Arguments Endpoint : clear implicits.

Section construction.
Context {SE API PC W : Type} `{WebRTC SE API PC} `{World W}.

(** [New]: the configuration in force, the factory and the endpoint. [NewFactory] always
    succeeds; [se] and [conf] are the hooks of [cfg.Pion]. *)
Definition New (se : option (SE -> SE)) (conf : option (Configuration -> Configuration))
    (cfg : Config.Config) (w : W)
    : result error (Config.Config * Factory API * Endpoint W dedupeCache) * W :=
  match clone cfg with
  | Err e => (Err e, w)
  | Ok c =>
    let factory := NewFactory (pionx_config c se conf) in
    let '(err, w) := w_Open (cfg_ID c) w in
    match wrapErr ErrSignaling err "pipe: open signaling" with
    | Some e => (Err e, w)
    | None => (Ok (c, factory, newEndpoint (newDedupeCache dedupeCacheSize) w), w)
    end
  end.

(** dial.go: [Dial], [Listen] and the [Close] of what they return, with the error
    [err] of the wrapped connection's or listener's own [Close]. *)
Definition single_Dial (se : option (SE -> SE)) (conf : option (Configuration -> Configuration))
    (cfg : Config.Config) (w : W) (ctx : option error) (peer : string)
    (c : nat -> dial_case) : result error Conn * option (Endpoint W dedupeCache) :=
  match fst (New se conf cfg w) with
  | Err e => (Err e, None)
  | Ok (cfg, _, ep) =>
    let '(r, ep) := Dial cfg ctx peer c ep in
    match r with
    | Err e => (Err e, Some (snd (Endpoint_Close ep)))
    | Ok conn => (Ok conn, Some ep)
    end
  end.

Definition single_Listen (se : option (SE -> SE)) (conf : option (Configuration -> Configuration))
    (cfg : Config.Config) (w : W) : option error * option (Endpoint W dedupeCache) :=
  match fst (New se conf cfg w) with
  | Err e => (Some e, None)
  | Ok (cfg, _, ep) =>
    let '(err, ep) := Listen ep in
    match err with
    | Some e => (Some e, Some (snd (Endpoint_Close ep)))
    | None => (None, Some ep)
    end
  end.

Definition owned_Close (err : option error) : state_m (Endpoint W dedupeCache) (option error) :=
  cerr ← Endpoint_Close;
  mret (match err with Some e => Some e | None => cerr end).
End construction.

(** ** The services a session gets ([Env]) *)

Section env.
Context {W D : Type} `{World W} `{DupFilter D}.

(** The endpoint of the configuration [cfg]. *)
Definition endpoint_env (cfg : Config.Config) : Env (Endpoint W D) := {|
  env_now e := w_now (world e);
  env_rand16 := with_world w_rand16;
  env_float64 := with_world w_float64;
  env_send := ep_send;
  env_enqueueInbound c slot := enqueueInbound cfg {| pd_conn := c; pd_release := slot |};
  env_removeSession uid id e := snd (removeSession uid id e);
  env_releaseSlot uid e := snd (releaseSlot_ uid e);
  env_ctxDone := ctx_done
|}.
End env.
