(* ===== verification/EndpointInv.v ===== *)
(** * The invariant of the endpoint

    [ep_inv O e]: the backlog is exactly accounted for (a slot in use belongs to one of
    [O], sessions and offers being admitted, or to one queued connection), and no
    connection was ever refused for want of room. Every operation has a rule; together they make the endpoint an [EnvContract]
    for its sessions. *)

From Stdlib Require Import SpecFloat.
From Stdlib Require Import String.
From S2P Require Import Prelude.
From S2P Require Import Errors.
From S2P Require Import Dedupe.
From S2P Require Import Signal.
From S2P Require Import Config.
From S2P Require Import Conn.
From S2P Require Import Metrics.
From S2P Require Import Session.
From S2P Require Import SessionSlots.
From S2P Require Import Endpoint.

#[local] Arguments newSignal : simpl never.
#[local] Arguments Validate : simpl never.

(** Events other than measurements and sends. *)
Definition is_effect (ev : eev) : bool :=
  match ev with EMetric _ | ESend _ _ => false | _ => true end.
Definition effects (l : list eev) : list eev := List.filter is_effect l.

Lemma effects_app l k : effects (l ++ k) = effects l ++ effects k.
Proof. apply List.filter_app. Qed.

Section inv.
Context {W D : Type} `{World W} `{DupFilter D}.
Variable cfg : Config.Config.
Implicit Types e : Endpoint W D.

Definition queue e : list pendingConn := match ln e with Some l => ln_accept l | None => [] end.
Definition tokens e : list nat := omap pd_release (queue e).

Record ep_inv (O : gset nat) e : Prop := {
  ei_slots : slots e = Z.of_nat (size (held e));
  ei_bound : slots e <= AcceptBacklog cfg;
  ei_queue : Forall (fun p => is_Some (pd_release p)) (queue e);
  ei_nodup : NoDup (tokens e);
  ei_held : forall u, u ∈ held e <-> u ∈ O \/ u ∈ tokens e;
  ei_owned : forall u, u ∈ O -> u ∉ tokens e;
  ei_full : EQueueFull ∉ log e;
  ei_fresh : forall u, u ∈ held e -> (u < next_uid e)%nat;
  ei_listened : listened e = false -> ln e = None
}.

(** What does not touch the backlog. *)
Definition same_backlog e e' : Prop :=
  slots e' = slots e /\ held e' = held e /\ queue e' = queue e /\ next_uid e' = next_uid e /\
  (listened e' = listened e /\ (ln e = None -> ln e' = None)) /\ exists l, log e' = log e ++ l /\ EQueueFull ∉ l.

Lemma ep_inv_frame O e e' : ep_inv O e -> same_backlog e e' -> ep_inv O e'.
Proof.
  intros [] (Hs & Hh & Hq & Hn & [Hli Hno] & l & Hl & Hf).
  constructor; unfold tokens in *; rewrite ?Hs, ?Hh, ?Hq, ?Hn, ?Hli, ?Hl; try done; auto.
  rewrite elem_of_app. tauto.
Qed.

(** ** Sends, random numbers and measurements *)

(** Only the world changed, and the log grew by what is no effect. *)
Definition calm e e' : Prop :=
  exists w l, e' = e <| world := w |> <| log := log e ++ l |> /\ effects l = [].

Lemma calm_refl e : calm e e.
Proof. exists (world e), []. rewrite app_nil_r. by destruct e. Qed.

Lemma calm_trans e1 e2 e3 : calm e1 e2 -> calm e2 e3 -> calm e1 e3.
Proof.
  intros (w & l & -> & Hl) (w' & l' & -> & Hl'). exists w', (l ++ l'). simpl.
  rewrite effects_app, Hl, Hl', app_assoc. done.
Qed.

Lemma calm_full l : effects l = [] -> EQueueFull ∉ l.
Proof.
  intros Hl Hin. apply list_elem_of_In in Hin.
  assert (Hi : List.In EQueueFull (effects l)) by (by apply List.filter_In). by rewrite Hl in Hi.
Qed.

Lemma calm_backlog e e' : calm e e' -> same_backlog e e'.
Proof.
  intros (w & l & -> & Hl). split_and!; try done. exists l. split; [done|]. by apply calm_full.
Qed.

Definition calmly {A} (m : state_m (Endpoint W D) A) : Prop := forall e, calm e (snd (m e)).

Lemma calmly_bind {A B} (m : state_m (Endpoint W D) A) (k : A -> state_m _ B) :
  calmly m -> (forall a, calmly (k a)) -> calmly (m ≫= k).
Proof.
  intros Hm Hk e. unfold mbind, state_m_bind. specialize (Hm e). destruct (m e) as [a e1].
  eapply calm_trans; [exact Hm|apply Hk].
Qed.
Lemma calmly_ret {A} (a : A) : calmly (mret a).
Proof. intros e. apply calm_refl. Qed.
Lemma calmly_get : calmly get_s.
Proof. intros e. apply calm_refl. Qed.
Lemma calmly_gets {A} (f : Endpoint W D -> A) : calmly (gets f).
Proof. intros e. apply calm_refl. Qed.
Lemma calmly_note ev : is_effect ev = false -> calmly (note ev).
Proof.
  intros He e. exists (world e), [ev]. simpl. rewrite He. by destruct e.
Qed.
Lemma calmly_world {A} (f : W -> A * W) : calmly (with_world f).
Proof.
  intros e. unfold with_world. destruct (f (world e)) as [a w]. exists w, []. simpl.
  rewrite app_nil_r. by destruct e.
Qed.
Hint Resolve calmly_ret calmly_get calmly_gets calmly_note calmly_world : calm.

Ltac calm_walk :=
  repeat first
    [ solve [auto with calm]
    | apply calmly_bind; [|intros]
    | match goal with |- calmly (match ?x with _ => _ end) => destruct x end ].

Lemma calmly_count n l : calmly (count n l).
Proof. by apply calmly_note. Qed.
Hint Resolve calmly_count : calm.
Lemma calmly_send t b sig : calmly (ep_send t b sig).
Proof. unfold ep_send. calm_walk. Qed.
Hint Resolve calmly_send : calm.
Lemma calmly_reject sig c r : calmly (reject cfg sig c r).
Proof. unfold reject. calm_walk. Qed.

Lemma ep_send_error t b sig e err :
  fst (ep_send t b sig e) = Some err -> errIs err ErrSignaling = true.
Proof.
  unfold ep_send, with_world, count, note, mbind, state_m_bind, modify, mret, state_m_ret.
  destruct (w_lock t b (world e)) as [[c|] w]; simpl; [by intros [= <-]|].
  destruct (w_Send sig w) as [[c|] w']; simpl; [by intros [= <-]|done].
Qed.

(** ** Slots *)

Lemma release_inv O u e :
  ep_inv O e -> u ∉ tokens e ->
  let e' := snd (releaseSlot_ u e) in
  ep_inv (O ∖ {[u]}) e' /\ sessions e' = sessions e /\ tokens e' = tokens e /\
  next_uid e' = next_uid e /\ effects (log e') = effects (log e).
Proof.
  intros [] Hu. unfold releaseSlot_, mbind, state_m_bind, get_s.
  case_bool_decide as Hh; simpl.
  - assert (Hsz : (size (held e) = S (size (held e ∖ {[u]})))%nat).
    { pose proof (size_difference (held e) {[u]}) as Hd.
      pose proof (subseteq_size {[u]} (held e)) as Hs. rewrite size_singleton in *.
      rewrite Hd by set_solver. assert ({[u]} ⊆ held e) by set_solver.
      specialize (Hs ltac:(done)). lia. }
    split; [|by rewrite effects_app, app_nil_r]. constructor; simpl; try done.
    + destruct (Z.ltb_spec 0 (slots e)); lia.
    + destruct (Z.ltb_spec 0 (slots e)); lia.
    + intros v. rewrite elem_of_difference, ei_held0. change (tokens _) with (tokens e). set_solver.
    + set_solver.
    + rewrite elem_of_app. set_solver.
    + set_solver.
  - split; [|done]. rewrite ei_held0 in Hh. replace (O ∖ {[u]}) with O by set_solver. done.
Qed.

(** ** The session table *)

Lemma addSession_spec uid id peer e :
  let '(err, e') := addSession uid id peer e in
  same_backlog e e' /\ effects (log e') = effects (log e) /\
  match err with
  | None => ep_closed e = false /\ signalErr e = None /\ sessions e !! id = None /\
            sessions e' = <[id := (uid, peer)]> (sessions e)
  | Some _ => sessions e' = sessions e /\
              (ep_closed e = true \/ is_Some (signalErr e) \/ is_Some (sessions e !! id))
  end.
Proof.
  assert (Hr : same_backlog e e).
  { split_and!; try done. exists []. rewrite app_nil_r. split; [done|set_solver]. }
  unfold addSession, mbind, state_m_bind, get_s. destruct (ep_closed e); simpl; [by auto|].
  destruct (signalErr e) eqn:Es; simpl; [by eauto 7|].
  destruct (sessions e !! id) eqn:El; simpl; [by eauto 7|].
  split; [|split; [by rewrite effects_app, app_nil_r|done]].
  split_and!; try done. eexists. split; [done|]. set_solver.
Qed.

Lemma removeSession_spec uid id e :
  let e' := snd (removeSession uid id e) in
  same_backlog e e' /\
  sessions e' = match sessions e !! id with
                | Some (cur, _) => if bool_decide (cur = uid) then delete id (sessions e) else sessions e
                | None => sessions e
                end.
Proof.
  assert (Hr : same_backlog e e).
  { split_and!; try done. exists []. rewrite app_nil_r. split; [done|set_solver]. }
  unfold removeSession, mbind, state_m_bind, get_s.
  destruct (sessions e !! id) as [[cur peer]|] eqn:El; simpl; [|done].
  case_bool_decide; simpl; [|done]. split; [|done].
  split_and!; try done. eexists. split; [done|]. set_solver.
Qed.

(** ** The accept queue *)

Lemma tokens_length O e : ep_inv O e -> length (tokens e) = length (queue e).
Proof.
  intros [_ _ Hq _ _ _ _ _ _]. unfold tokens. induction (queue e) as [|p q IH]; [done|].
  apply Forall_cons in Hq as [[v Hv] Hq]. simpl. rewrite Hv. simpl. f_equal. by apply IH.
Qed.

(** The slots in use are those of the owners and of the queue. *)
Lemma held_size O e : ep_inv O e -> size (held e) = (size O + length (tokens e))%nat.
Proof.
  intros []. assert (Hh : held e = O ∪ list_to_set (tokens e)).
  { apply leibniz_equiv. intros u. rewrite ei_held0, elem_of_union, elem_of_list_to_set. done. }
  rewrite Hh, size_union, size_list_to_set; try done.
  intros u Hu Hv. apply elem_of_list_to_set in Hv. by apply (ei_owned0 u).
Qed.

Lemma queue_room O u e :
  ep_inv O e -> u ∈ held e -> u ∉ tokens e -> zlen (queue e) < AcceptBacklog cfg.
Proof.
  intros Hi Hh Hu. pose proof (tokens_length O e Hi) as Hlen. destruct Hi.
  pose proof (size_list_to_set (C := gset nat) (u :: tokens e)) as Hsz.
  assert (Hnd : NoDup (u :: tokens e)) by (by constructor). specialize (Hsz Hnd). simpl length in Hsz.
  pose proof (subseteq_size (list_to_set (u :: tokens e)) (held e)) as Hss.
  assert (list_to_set (u :: tokens e) ⊆ held e).
  { intros v Hv. apply elem_of_list_to_set, elem_of_cons in Hv as [->|Hv]; [done|].
    apply ei_held0. auto. }
  specialize (Hss ltac:(done)). unfold zlen. lia.
Qed.

Lemma enqueue_inv O c u e :
  u ∈ O -> ep_inv O e ->
  let '(err, e') := enqueueInbound cfg {| pd_conn := c; pd_release := Some u |} e in
  ep_inv (match err with Some _ => O | None => O ∖ {[u]} end) e' /\ sessions e' = sessions e /\
  next_uid e' = next_uid e.
Proof.
  intros Hu Hi. pose proof (ei_owned _ _ Hi u Hu) as Ht.
  assert (Hh : u ∈ held e) by (apply (ei_held _ _ Hi); auto).
  pose proof (queue_room _ _ _ Hi Hh Ht) as Hroom.
  unfold enqueueInbound, push, push_check, push_send, mbind, state_m_bind, get_s.
  destruct (listener e); simpl; [|done].
  unfold queue in Hroom. destruct (ln e) as [l|] eqn:El; simpl; [|done].
  destruct (ln_closed l) eqn:Ecl; simpl; [done|]. rewrite El, Ecl. simpl.
  rewrite (proj2 (Z.ltb_lt _ _) Hroom). simpl. split; [|done].
  assert (Hq : queue e = ln_accept l) by (unfold queue; by rewrite El).
  destruct Hi. unfold tokens in *. rewrite Hq in *. constructor; unfold tokens, queue; simpl; try done.
  - apply Forall_app. split; [done|]. repeat constructor. by exists u.
  - rewrite omap_app. simpl. apply NoDup_app. split; [done|]. split; [|apply NoDup_singleton].
    intros v Hv Hin. apply list_elem_of_singleton in Hin as ->. done.
  - intros v. rewrite ei_held0, omap_app, elem_of_app. simpl.
    rewrite list_elem_of_singleton, elem_of_difference, elem_of_singleton.
    destruct (decide (v = u)) as [->|]; tauto.
  - intros v Hv. apply elem_of_difference in Hv as [Hv Hne]. specialize (ei_owned0 v Hv).
    rewrite omap_app, elem_of_app. simpl. rewrite list_elem_of_singleton. set_solver.
  - intros Hli. by rewrite ei_listened0 in El.
Qed.

(** Taking the head of the queue and returning its slot. *)
Definition pop e : Endpoint W D := e <| ln ::= fmap (fun l => l <| ln_accept ::= tail |>) |>.

Lemma queue_pop e : queue (pop e) = tail (queue e).
Proof. unfold queue, pop. simpl. by destruct (ln e). Qed.

Lemma pop_inv O p q e :
  ep_inv O e -> queue e = p :: q ->
  let e' := snd (release_pending p (pop e)) in
  ep_inv O e' /\ sessions e' = sessions e /\ queue e' = q.
Proof.
  intros Hi Hq. pose proof Hi as []. rewrite Hq in ei_queue0. apply Forall_cons in ei_queue0 as [[u Hu] Hall].
  assert (Htok : tokens e = u :: omap pd_release q) by (unfold tokens; rewrite Hq; simpl; by rewrite Hu).
  assert (Hpop : tokens (pop e) = omap pd_release q) by (unfold tokens; by rewrite queue_pop, Hq).
  rewrite Htok in *. apply NoDup_cons in ei_nodup0 as [Hnu Hnd].
  assert (HuO : u ∉ O) by (intros HO; apply ei_owned0 in HO; set_solver).
  assert (Hpi : ep_inv ({[u]} ∪ O) (pop e)).
  { constructor; rewrite ?Hpop; try done.
    - by rewrite queue_pop, Hq.
    - intros v. change (held (pop e)) with (held e). rewrite ei_held0, elem_of_cons. set_solver.
    - intros v Hv. apply elem_of_union in Hv as [Hv%elem_of_singleton|Hv]; [by subst|].
      specialize (ei_owned0 v Hv). set_solver.
    - intros Hli. unfold pop. simpl. by rewrite ei_listened0. }
  unfold release_pending. rewrite Hu.
  destruct (release_inv ({[u]} ∪ O) u (pop e) Hpi) as (Hr & Hs & Ht & _); [by rewrite Hpop|].
  replace (({[u]} ∪ O) ∖ {[u]}) with O in Hr by set_solver. split; [done|]. split; [done|].
  unfold releaseSlot_, mbind, state_m_bind, get_s. case_bool_decide; simpl.
  - unfold queue, pop. simpl. unfold queue in Hq. destruct (ln e); simpl in *; [|done]. by rewrite Hq.
  - by rewrite queue_pop, Hq.
Qed.

Lemma note_inv O ev e : ev <> EQueueFull -> ep_inv O e -> ep_inv O (e <| log ::= (fun l => l ++ [ev]) |>).
Proof.
  intros Hev Hi. apply (ep_inv_frame O e); [done|]. split_and!; try done. exists [ev]. split; [done|]. set_solver.
Qed.

Lemma drain_all_cons p q e :
  drain_all (p :: q) e =
  drain_all q (snd (release_pending p (pop e)) <| log ::= (fun l => l ++ [EDropConn (pd_conn p)]) |>).
Proof.
  simpl. unfold mbind, state_m_bind, modify, note, pop. simpl.
  by destruct (release_pending p _) as [[] e1].
Qed.

Lemma drain_all_inv O q e :
  ep_inv O e -> queue e = q ->
  let e' := snd (drain_all q e) in ep_inv O e' /\ sessions e' = sessions e.
Proof.
  revert e. induction q as [|p q IH]; intros e Hi Hq; [done|].
  destruct (pop_inv O p q e Hi Hq) as (Hp & Hs & Hq').
  rewrite drain_all_cons. destruct (release_pending p (pop e)) as [[] e1]. simpl in Hp, Hs, Hq'.
  destruct (IH (e1 <| log ::= (fun l => l ++ [EDropConn (pd_conn p)]) |>)) as [Hi' Hs'].
  - by apply note_inv.
  - done.
  - split; [done|]. etransitivity; [exact Hs'|exact Hs].
Qed.

Lemma drain_inv O e : ep_inv O e -> ep_inv O (snd (drain e)) /\ sessions (snd (drain e)) = sessions e.
Proof.
  intros Hi. unfold drain, mbind, state_m_bind, get_s. destruct (ln e) eqn:El; [|done].
  apply drain_all_inv; [done|]. unfold queue. by rewrite El.
Qed.

Lemma AcceptConn_pop p q e :
  queue e = p :: q ->
  AcceptConn cfg CaseConn e =
  (Some (Ok (pd_conn p)), snd (release_pending p (pop e)) <| log ::= (fun l =>
    l ++ [EMetric (Count metricAcceptResults 1 [labelResult "success"])]) |>).
Proof.
  unfold queue. intros Hq. destruct (ln e) as [l|] eqn:El; [|done].
  assert (Hpop : pop e = e <| ln := Some (l <| ln_accept := q |>) |>)
    by (unfold pop; simpl; rewrite El; simpl; by rewrite Hq).
  rewrite Hpop. unfold AcceptConn, mbind, state_m_bind, get_s, modify, count, note, mret, state_m_ret.
  rewrite El, Hq. simpl. by destruct (release_pending p _) as [[] e1].
Qed.

Lemma AcceptConn_inv O c e :
  ep_inv O e -> ep_inv O (snd (AcceptConn cfg c e)) /\ sessions (snd (AcceptConn cfg c e)) = sessions e.
Proof.
  intros Hi. destruct c.
  - destruct (queue e) as [|p q] eqn:Eq.
    + unfold queue in Eq. unfold AcceptConn, mbind, state_m_bind, get_s.
      destruct (ln e) as [l|]; simpl; [|done]. by rewrite Eq.
    + rewrite (AcceptConn_pop p q e Eq). destruct (pop_inv O p q e Hi Eq) as (Hp & Hs & _).
      split; [by apply note_inv|exact Hs].
  - unfold AcceptConn, mbind, state_m_bind, get_s. destruct (ln e) as [l|] eqn:El; [|done].
    destruct (ln_closed l); [|done].
    destruct (drain_inv O e Hi). by destruct (drain e).
  - unfold AcceptConn, mbind, state_m_bind, get_s. destruct (ln e) as [l|] eqn:El; [|done].
    destruct (ctx_done e); [|done].
    destruct (drain_inv O e Hi). by destruct (drain e).
Qed.

(** ** Admission *)

Lemma accept_slot_inv O sig e :
  ep_inv O e ->
  let '(slot, e') := accept_slot cfg sig e in
  sessions e' = sessions e /\
  match slot with
  | Some uid => uid = next_uid e /\ next_uid e' = S uid /\ ep_inv ({[uid]} ∪ O) e'
  | None => ep_inv O e' /\ next_uid e' = next_uid e
  end.
Proof.
  intros Hi. unfold accept_slot, mbind at 1, state_m_bind at 1, get_s.
  destruct (Z.ltb_spec (slots e) (AcceptBacklog cfg)) as [Hlt|Hge].
  - unfold mbind, state_m_bind, modify, mret, state_m_ret. simpl.
    split; [done|]. split; [done|]. split; [done|]. destruct Hi.
    assert (Hfr : next_uid e ∉ held e) by (intros Hin; apply ei_fresh0 in Hin; lia).
    assert (Htk : next_uid e ∉ tokens e) by (intros Hin; apply Hfr, ei_held0; auto).
    constructor; simpl; try done.
    + rewrite size_union by set_solver. rewrite size_singleton. lia.
    + lia.
    + intros u. change (tokens _) with (tokens e). rewrite !elem_of_union, ei_held0. tauto.
    + intros u Hu. apply elem_of_union in Hu as [Hu%elem_of_singleton|Hu]; [by subst|auto].
    + intros u Hu. apply elem_of_union in Hu as [Hu|Hu]; [|set_solver].
      apply ei_fresh0 in Hu. lia.
  - assert (Hc : calmly (count metricAcceptResults [labelResult "busy"];;
      reject cfg sig RejectBusy "accept backlog is full";; mret (@None nat)))
      by (pose proof calmly_reject; calm_walk).
    specialize (Hc e). revert Hc. unfold mbind, state_m_bind, mret, state_m_ret, count, note, modify.
    cbn [fst snd setter]. destruct (reject _ _ _ _ _) as [[] e']. cbn [fst snd]. intros Hc.
    split; [by destruct Hc as (w & l & -> & _)|].
    split; [by apply (ep_inv_frame O e), calm_backlog|by destruct Hc as (w & l & -> & _)].
Qed.

Lemma wp_let {A} (m : state_m (Endpoint W D) A) (Q : A -> Endpoint W D -> Prop) e :
  (let '(a, e') := m e in Q a e') -> wp m Q e.
Proof. unfold wp. by destruct (m e). Qed.

Lemma wp_calm {A} (m : state_m (Endpoint W D) A) (Q : A -> Endpoint W D -> Prop) e :
  calmly m -> (forall a e', calm e e' -> Q a e') -> wp m Q e.
Proof. intros Hm HQ. apply HQ, Hm. Qed.

Lemma wp_release (Q : unit -> Endpoint W D -> Prop) O u e :
  ep_inv O e -> u ∉ tokens e ->
  (forall e', ep_inv (O ∖ {[u]}) e' -> sessions e' = sessions e -> next_uid e' = next_uid e ->
     effects (log e') = effects (log e) -> Q tt e') ->
  wp (releaseSlot_ u) Q e.
Proof.
  intros Hi Hu HQ. unfold wp. destruct (release_inv O u e Hi Hu) as (Hr & Hs & _ & Hn & He).
  destruct (releaseSlot_ u e) as [[] e']. by apply HQ.
Qed.

Definition added (O : gset nat) sig uid e (_ : unit) e' : Prop :=
  next_uid e' = next_uid e /\
  (ep_inv (O ∖ {[uid]}) e' /\ sessions e' = sessions e /\ effects (log e') = effects (log e) \/
   ep_inv O e' /\ sessions e !! SessionID sig = None /\
   sessions e' = <[SessionID sig := (uid, From sig)]> (sessions e) /\
   effects (log e') = effects (log e) ++ [ESpawn uid (SessionID sig) (From sig) roleAnswerer (Some sig)]).

Lemma accept_add_inv O sig uid e :
  uid ∈ O -> ep_inv O e -> wp (accept_add cfg sig uid) (added O sig uid e) e.
Proof.
  intros Hu Hi. unfold accept_add. apply wp_bind, wp_let.
  pose proof (addSession_spec uid (SessionID sig) (From sig) e) as Hadd.
  destruct (addSession _ _ _ e) as [err e1]. destruct Hadd as (Hb & Heff & Hadd).
  pose proof (ep_inv_frame _ _ _ Hi Hb) as Hi1. destruct Hb as (_ & _ & _ & Hn & _).
  destruct err as [err|].
  - destruct Hadd as [Hs _]. apply wp_bind.
    eapply wp_release; [exact Hi1|by apply (ei_owned _ _ Hi1)|]. intros e2 Hi2 Hs2 Hn2 He2.
    apply wp_calm; [apply calmly_bind; [apply calmly_count|intros []; apply calmly_reject]|].
    intros [] e3 Hc. pose proof (ep_inv_frame _ _ _ Hi2 (calm_backlog _ _ Hc)) as Hi3.
    destruct Hc as (w & l & -> & Hl). split; [simpl; congruence|]. left. split; [done|].
    simpl. rewrite effects_app, Hl, app_nil_r. split; congruence.
  - destruct Hadd as (_ & _ & Hno & Hs). apply wp_bind, wp_gets, wp_bind.
    apply wp_let. simpl. split; [done|]. right.
    split; [by repeat apply note_inv|]. split; [done|]. split; [done|].
    simpl. rewrite !effects_app, Heff. simpl. by rewrite app_nil_r.
Qed.

(** ** The other operations *)

Lemma Listen_inv O e : ep_inv O e ->
  ep_inv O (snd (Listen e)) /\ sessions (snd (Listen e)) = sessions e.
Proof.
  intros Hi. unfold Listen, mbind, state_m_bind, get_s. destruct (ep_closed e); [done|].
  destruct (listened e) eqn:El; [done|]. split; [|done].
  pose proof (ei_listened _ _ Hi El) as Hln. destruct Hi.
  unfold tokens, queue in *. rewrite Hln in *. by constructor.
Qed.

(** A change that leaves the backlog and the table alone. *)
Definition idle {A} (m : state_m (Endpoint W D) A) : Prop :=
  forall e, same_backlog e (snd (m e)) /\ sessions (snd (m e)) = sessions e /\
    exists l, log (snd (m e)) = log e ++ l /\ effects l = [].

Lemma idle_modify f :
  (forall e, slots (f e) = slots e /\ held (f e) = held e /\ queue (f e) = queue e /\
     next_uid (f e) = next_uid e /\ listened (f e) = listened e /\ (ln e = None -> ln (f e) = None) /\
     log (f e) = log e /\ sessions (f e) = sessions e) -> idle (modify f).
Proof.
  intros Hf e. destruct (Hf e) as (? & ? & ? & ? & ? & ? & Hl & ?). simpl.
  split; [|split; [done|exists []; by rewrite Hl, app_nil_r]].
  split_and!; try done. exists []. rewrite Hl, app_nil_r. split; [done|set_solver].
Qed.

Lemma idle_calm {A} (m : state_m (Endpoint W D) A) : calmly m -> idle m.
Proof.
  intros Hm e. split; [by apply calm_backlog|]. destruct (Hm e) as (w & l & -> & Hl).
  split; [done|by exists l].
Qed.

Lemma same_backlog_trans e1 e2 e3 : same_backlog e1 e2 -> same_backlog e2 e3 -> same_backlog e1 e3.
Proof.
  intros (A1 & A2 & A3 & A4 & [A5 A6] & l & A7 & A8) (B1 & B2 & B3 & B4 & [B5 B6] & k & B7 & B8).
  split_and!; try congruence; [auto|]. exists (l ++ k). rewrite B7, A7, app_assoc.
  split; [done|]. rewrite elem_of_app. tauto.
Qed.

Lemma idle_bind {A B} (m : state_m (Endpoint W D) A) (k : A -> state_m _ B) :
  idle m -> (forall a, idle (k a)) -> idle (m ≫= k).
Proof.
  intros Hm Hk e. unfold mbind, state_m_bind. specialize (Hm e). destruct (m e) as [a e1].
  destruct (Hk a e1) as (Hb & Hs & l' & Hl' & He'). destruct Hm as (Hb' & Hs' & l & Hl & He).
  simpl in *. split; [by eapply same_backlog_trans|]. split; [congruence|].
  exists (l ++ l'). by rewrite Hl', Hl, app_assoc, effects_app, He, He'.
Qed.

Lemma idle_route_lookup sig : idle (route_lookup cfg sig).
Proof.
  assert (Hd : idle (fun e => let '(b, d) := df_mark (ID sig) (dedupe e) in (b, e <| dedupe := d |>))).
  { intros e. destruct (df_mark _ _) as [b d]. simpl.
    split; [|split; [done|exists []; by rewrite app_nil_r]]. split_and!; try done. exists [].
    rewrite app_nil_r. split; [done|set_solver]. }
  pose proof (fun A (a : A) => idle_calm (mret a) (calmly_ret a)) as Hr.
  pose proof (fun n l => idle_calm (count n l) (calmly_count n l)) as Hn.
  pose proof (idle_calm get_s calmly_get) as Hg.
  unfold route_lookup.
  repeat first [ apply Hr | apply Hn | apply Hg | apply Hd | apply idle_bind; [|intros]
    | match goal with |- idle (match ?x with _ => _ end) => destruct x end ].
Qed.

Lemma calmly_accept_check sig : calmly (accept_check cfg sig).
Proof. pose proof calmly_reject. unfold accept_check. calm_walk. Qed.

Lemma idle_receive_error err : idle (receive_step cfg (Err err)).
Proof.
  unfold receive_step. apply idle_bind; [apply idle_calm, calmly_get|intros e].
  apply idle_bind; [|intros; apply idle_calm, calmly_ret].
  destruct (negb _); [|apply idle_calm, calmly_ret].
  apply idle_modify. intros e'. by destruct (signalErr e').
Qed.

Lemma idle_ln_close_mark : idle ln_close_mark.
Proof. apply idle_modify. intros e. unfold queue. simpl. by destruct (ln e). Qed.
Lemma idle_clearListener : idle clearListener.
Proof. by apply idle_modify. Qed.
Lemma idle_close_mark : idle close_mark.
Proof.
  apply idle_bind; [apply idle_calm, calmly_get|intros].
  apply idle_bind; [by apply idle_modify|intros; apply idle_calm, calmly_ret].
Qed.
Lemma idle_close_end : idle close_end.
Proof.
  apply idle_bind; [by apply idle_modify|intros].
  apply idle_bind; [apply idle_calm, calmly_world|intros]. by apply idle_modify.
Qed.

(** A dial that started its session, or one that did not. *)
Definition dialled (O : gset nat) peer e (_ : result error nat) e' : Prop :=
  ep_inv O e' /\ (next_uid e <= next_uid e')%nat /\
  (sessions e' = sessions e /\ effects (log e') = effects (log e) \/
   exists id, sessions e !! id = None /\ next_uid e' = S (next_uid e) /\
     sessions e' = <[id := (next_uid e, peer)]> (sessions e) /\
     effects (log e') = effects (log e) ++ [ESpawn (next_uid e) id peer roleOfferer None]).

Lemma dial_start_inv O ctx peer e :
  ep_inv O e -> wp (dial_start cfg ctx peer) (dialled O peer e) e.
Proof.
  intros Hi. assert (Hno : forall r, dialled O peer e r e) by (intros r; split; auto).
  unfold dial_start. destruct (validPeerID peer); [by apply wp_ret|].
  destruct (bool_decide _); [by apply wp_ret|]. destruct ctx as [err|]; [by apply wp_ret|].
  apply wp_bind, wp_calm; [apply calmly_world|]. intros rand e1 Hc.
  apply wp_bind, wp_gets, wp_bind, wp_modify, wp_bind, wp_let.
  pose proof (ep_inv_frame _ _ _ Hi (calm_backlog _ _ Hc)) as Hi1.
  assert (Hi2 : ep_inv O (e1 <| next_uid := S (next_uid e1) |>)).
  { destruct Hi1. constructor; simpl; try done. intros u Hu. apply ei_fresh0 in Hu. lia. }
  pose proof (addSession_spec (next_uid e1) (NewID rand) peer (e1 <| next_uid := S (next_uid e1) |>)) as Hadd.
  destruct (addSession _ _ _ _) as [err e2]. destruct Hadd as (Hb & Heff & Hadd).
  pose proof (ep_inv_frame _ _ _ Hi2 Hb) as Hi3. destruct Hb as (_ & _ & _ & Hn & _).
  destruct Hc as (w & l & -> & Hl). simpl in *. rewrite effects_app, Hl, app_nil_r in Heff.
  destruct err as [err|].
  - apply wp_ret. split; [done|]. split; [lia|]. left. by destruct Hadd.
  - apply wp_bind. destruct Hadd as (_ & _ & Hfr & Hs).
    apply (note_inv _ (ESpawn (next_uid e) (NewID rand) peer roleOfferer None)) in Hi3; [|done].
    unfold note. apply wp_modify, wp_ret. split; [done|]. split; [simpl; lia|]. right.
    exists (NewID rand). split; [done|]. split; [done|]. split; [done|].
    simpl. by rewrite effects_app, Heff.
Qed.

(** ** The log only grows

    Orders are the events that concern sessions. *)

Definition is_order (ev : eev) : bool :=
  match ev with EPost _ _ | ESpawn _ _ _ _ _ => true | _ => false end.
Definition orders (l : list eev) : list eev := List.filter is_order l.

Lemma orders_effects l : orders (effects l) = orders l.
Proof. induction l as [|[] l IH]; simpl; by rewrite ?IH. Qed.

(** Nothing is asked of the sessions, and addresses are not reused. *)
Definition mute {A} (m : state_m (Endpoint W D) A) : Prop :=
  forall e, (exists l, log (snd (m e)) = log e ++ l /\ orders l = []) /\
    (next_uid e <= next_uid (snd (m e)))%nat.

Lemma mute_bind {A B} (m : state_m (Endpoint W D) A) (k : A -> state_m _ B) :
  mute m -> (forall a, mute (k a)) -> mute (m ≫= k).
Proof.
  intros Hm Hk e. unfold mbind, state_m_bind. destruct (Hm e) as [(l & Hl & Ho) Hn].
  destruct (m e) as [a e1]. destruct (Hk a e1) as [(l' & Hl' & Ho') Hn']. simpl in *.
  split; [|lia]. exists (l ++ l'). rewrite Hl'. unfold orders in *.
  by rewrite Hl, app_assoc, List.filter_app, Ho, Ho'.
Qed.
Lemma mute_same {A} (m : state_m (Endpoint W D) A) :
  (forall e, log (snd (m e)) = log e /\ (next_uid e <= next_uid (snd (m e)))%nat) -> mute m.
Proof. intros Hm e. destruct (Hm e) as [Hl ?]. split; [|done]. exists []. by rewrite Hl, app_nil_r. Qed.
Lemma mute_note ev : is_order ev = false -> mute (note ev).
Proof. intros Ho e. split; [|done]. exists [ev]. simpl. by rewrite Ho. Qed.
Lemma mute_idle {A} (m : state_m (Endpoint W D) A) : idle m -> mute m.
Proof.
  intros Hm e. destruct (Hm e) as ((_ & _ & _ & Hn & _) & _ & l & Hl & He). split; [|lia].
  exists l. split; [done|]. by rewrite <- orders_effects, He.
Qed.

Ltac still := apply mute_same; intros; split; [done|first [apply Nat.le_refl|simpl; lia]].

Lemma mute_release u : mute (releaseSlot_ u).
Proof.
  apply mute_bind; [still|intros e]. case_bool_decide; [|still].
  apply mute_bind; [still|intros]. apply mute_bind; [still|intros].
  by apply mute_note.
Qed.
Lemma mute_drain : mute drain.
Proof.
  apply mute_bind; [still|intros e]. destruct (ln e) as [l|]; [|still].
  generalize (ln_accept l). intros q. induction q as [|p q IH]; [still|]. simpl.
  apply mute_bind; [still|intros]. apply mute_bind; [|intros].
  - unfold release_pending. destruct (pd_release p); [apply mute_release|still].
  - apply mute_bind; [by apply mute_note|done].
Qed.
Lemma mute_AcceptConn c : mute (AcceptConn cfg c).
Proof.
  apply mute_bind; [still|intros e]. destruct c, (ln e) as [l|]; try still.
  - destruct (ln_accept l) as [|p q]; [still|].
    apply mute_bind; [still|intros]. apply mute_bind; [|intros].
    + unfold release_pending. destruct (pd_release p); [apply mute_release|still].
    + apply mute_bind; [by apply mute_note|intros; still].
  - destruct (ln_closed l); [|still].
    apply mute_bind; [apply mute_drain|intros; still].
  - destruct (ctx_done e); [|still].
    apply mute_bind; [apply mute_drain|intros; still].
Qed.
Lemma mute_Listen : mute Listen.
Proof.
  apply mute_bind; [still|intros e]. destruct (ep_closed e); [still|].
  destruct (listened e); [still|]. apply mute_bind; intros; still.
Qed.
Lemma mute_accept_slot sig : mute (accept_slot cfg sig).
Proof.
  intros e. unfold accept_slot, mbind at 1 2 4 5, state_m_bind at 1 2 4 5, get_s.
  destruct (slots e <? AcceptBacklog cfg).
  - split; [exists []; by rewrite app_nil_r|]. simpl. lia.
  - match goal with |- context [snd (?m e)] => cut (mute m); [intros Hm; apply (Hm e)|] end.
    apply mute_idle, idle_calm. pose proof calmly_reject. calm_walk.
Qed.

Definition grows {A} (m : state_m (Endpoint W D) A) : Prop :=
  forall e, exists l, log (snd (m e)) = log e ++ l.

Lemma grows_bind {A B} (m : state_m (Endpoint W D) A) (k : A -> state_m _ B) :
  grows m -> (forall a, grows (k a)) -> grows (m ≫= k).
Proof.
  intros Hm Hk e. unfold mbind, state_m_bind. destruct (Hm e) as [l Hl]. destruct (m e) as [a e1].
  destruct (Hk a e1) as [l' Hl']. exists (l ++ l'). rewrite Hl'. simpl in Hl. by rewrite Hl, app_assoc.
Qed.
Lemma grows_same {A} (m : state_m (Endpoint W D) A) : (forall e, log (snd (m e)) = log e) -> grows m.
Proof. intros Hm e. exists []. by rewrite Hm, app_nil_r. Qed.
Lemma grows_note ev : grows (note ev).
Proof. intros e. by exists [ev]. Qed.
Lemma grows_idle {A} (m : state_m (Endpoint W D) A) : idle m -> grows m.
Proof. intros Hm e. destruct (Hm e) as (_ & _ & l & Hl & _). by exists l. Qed.
Lemma grows_calm {A} (m : state_m (Endpoint W D) A) : calmly m -> grows m.
Proof. intros Hm. by apply grows_idle, idle_calm. Qed.

Lemma grows_mute {A} (m : state_m (Endpoint W D) A) : mute m -> grows m.
Proof. intros Hm e. destruct (Hm e) as [(l & Hl & _) _]. by exists l. Qed.

Lemma grows_addSession uid id peer : grows (addSession uid id peer).
Proof.
  intros e. pose proof (addSession_spec uid id peer e) as Ha.
  destruct (addSession uid id peer e). destruct Ha as [(_ & _ & _ & _ & _ & l & Hl & _) _]. by exists l.
Qed.
Lemma grows_accept_add sig uid : grows (accept_add cfg sig uid).
Proof.
  unfold accept_add. apply grows_bind; [apply grows_addSession|intros [err|]].
  - apply grows_bind; [apply grows_mute, mute_release|intros].
    apply grows_calm. pose proof calmly_reject. calm_walk.
  - apply grows_bind; [by apply grows_same|intros]. apply grows_bind; intros; apply grows_note.
Qed.
Lemma grows_dial_start ctx peer : grows (dial_start cfg ctx peer).
Proof.
  unfold dial_start. destruct (validPeerID peer); [by apply grows_same|].
  destruct (bool_decide _); [by apply grows_same|]. destruct ctx; [by apply grows_same|].
  apply grows_bind; [apply grows_calm, calmly_world|intros].
  apply grows_bind; [by apply grows_same|intros]. apply grows_bind; [by apply grows_same|intros].
  apply grows_bind; [apply grows_addSession|intros [|]]; [by apply grows_same|].
  apply grows_bind; [apply grows_note|intros; by apply grows_same].
Qed.
End inv.

(** ** The endpoint as its sessions see it *)

Section contract.
Context {W D : Type} `{World W} `{DupFilter D} `{!WorldLaws W}.
Variable cfg : Config.Config.

Definition ep_as_env : Env (Endpoint W D) := endpoint_env cfg.
#[local] Existing Instance ep_as_env.

Lemma world_time {A} (f : W -> A * W) (e : Endpoint W D) :
  (forall w, w_now w <= w_now (snd (f w))) -> w_now (world e) <= w_now (world (snd (with_world f e))).
Proof.
  intros Hf. unfold with_world. specialize (Hf (world e)). by destruct (f (world e)).
Qed.

Definition timely {A} (m : state_m (Endpoint W D) A) : Prop :=
  forall e, w_now (world e) <= w_now (world (snd (m e))).

Lemma timely_bind {A B} (m : state_m (Endpoint W D) A) (k : A -> state_m _ B) :
  timely m -> (forall a, timely (k a)) -> timely (m ≫= k).
Proof.
  intros Hm Hk e. unfold mbind, state_m_bind. specialize (Hm e). destruct (m e) as [a e1].
  etransitivity; [exact Hm|apply Hk].
Qed.
Lemma timely_same {A} (m : state_m (Endpoint W D) A) :
  (forall e, world (snd (m e)) = world e) -> timely m.
Proof. intros Hm e. by rewrite Hm. Qed.
Lemma timely_world {A} (f : W -> A * W) :
  (forall w, w_now w <= w_now (snd (f w))) -> timely (with_world f).
Proof. intros Hf e. by apply world_time. Qed.

Lemma send_time t b sig : timely (ep_send t b sig).
Proof.
  unfold ep_send. apply timely_bind; [apply timely_world, w_lock_time|intros [c|]].
  - by apply timely_same.
  - apply timely_bind; [apply timely_world; intros; apply w_send_time|intros [c|]]; by apply timely_same.
Qed.

Lemma enqueue_time p : timely (enqueueInbound cfg p).
Proof.
  apply timely_same. intros e.
  unfold enqueueInbound, push, push_check, push_send, mbind, state_m_bind, get_s, mret, state_m_ret.
  destruct (listener e), (ln e) as [l|] eqn:El; simpl; rewrite ?El; try done.
  destruct (ln_closed l) eqn:Ecl; simpl; rewrite ?El, ?Ecl; simpl; [done|]. repeat case_match; done.
Qed.

#[export] Instance endpoint_env_laws : EnvLaws (Endpoint W D).
Proof.
  refine {| env_evolves e e' := w_now (world e) <= w_now (world e') |}; simpl; try done; intros.
  - apply world_time, w_rand_time.
  - apply world_time, w_float_time.
  - apply send_time.
  - apply enqueue_time.
  - unfold removeSession, mbind, state_m_bind, get_s.
    destruct (sessions e !! i) as [[? ?]|]; [|done]. by case_bool_decide.
  - unfold releaseSlot_, mbind, state_m_bind, get_s. by case_bool_decide.
  - by eapply ep_send_error.
Defined.

Lemma calm_consistent e e' :
  calm e e' -> as_consistent (ep_inv cfg) sessions next_uid e (e' : Endpoint W D).
Proof.
  intros Hc. split; [intros O Hi; by apply (ep_inv_frame _ O e), calm_backlog|].
  by destruct Hc as (w & l & -> & _).
Qed.

(** The endpoint honours the contract of [SessionSlots]. *)
#[export] Instance endpoint_contract : EnvContract (Endpoint W D).
Proof.
  refine {| ec_inv := ep_inv cfg; ec_table := sessions; ec_next := next_uid |}; simpl; intros.
  - apply calm_consistent, calmly_world.
  - apply calm_consistent, calmly_world.
  - apply calm_consistent, calmly_send.
  - by apply enqueue_inv.
  - destruct (release_inv cfg O uid e) as (Hr & Hs & _ & Hn & _); [done|by eapply ei_owned|]. done.
  - destruct (removeSession_spec uid id e) as [Hb Hs].
    split; [intros O Hi; by apply (ep_inv_frame _ O e)|]. split; [|done]. by destruct Hb as (_ & _ & _ & Hn & _).
Defined.
End contract.
