(* ===== verification/EndpointProps.v ===== *)
(** * What an endpoint guarantees by itself

    Routing ([route_delivers_exactly]), dialing ([dial_outcome]) and a race of the listener
    ([push_after_close]). *)

From Stdlib Require Import SpecFloat.
From Stdlib Require Import String.
From S2P Require Import Prelude.
From S2P Require Import Errors.
From S2P Require Import Dedupe.
From S2P Require Import Signal.
From S2P Require Import Config.
From S2P Require Import Conn.
From S2P Require Import Metrics.
From S2P Require Import Session.
From S2P Require Import Endpoint.
From S2P Require Import EndpointInv.

#[local] Arguments newSignal : simpl never.
#[local] Arguments Validate : simpl never.

Section props.
Context {W D : Type} `{World W} `{DupFilter D}.
Variable cfg : Config.Config.
Implicit Types e : Endpoint W D.

(** ** Routing *)

(** A signal the endpoint acts upon. *)
Definition admissible (sig : Signal) e : Prop :=
  Validate sig = None /\ To sig = cfg_ID cfg /\ ~ df_knows (dedupe e) (ID sig) /\ ep_closed e = false.

(** What it takes to start a session for an offer. *)
Definition acceptable (sig : Signal) e : Prop :=
  Kind sig = KindOffer /\ sessions e !! SessionID sig = None /\
  listener e = true /\ ln_isClosed (ln e) = false /\
  (forall allow, AllowPeer cfg = Some allow -> allow (From sig) = true) /\
  slots e < AcceptBacklog cfg /\ signalErr e = None.

(** Only the filter and the log changed. *)
Definition looked e (d : D) (l : list eev) : Endpoint W D :=
  e <| dedupe := d |> <| log := log e ++ l |>.

Definition lookup_ok (sig : Signal) e (next : route_next) : Prop :=
  match next with
  | RoutePost uid => admissible sig e /\ sessions e !! SessionID sig = Some (uid, From sig)
  | RouteOffer => admissible sig e /\ Kind sig = KindOffer /\ sessions e !! SessionID sig = None
  | RouteDone => ~ (admissible sig e /\
      ((exists uid, sessions e !! SessionID sig = Some (uid, From sig)) \/
       Kind sig = KindOffer /\ sessions e !! SessionID sig = None))
  end.

Lemma wp_count_looked n labels (Q : unit -> Endpoint W D -> Prop) e d l :
  Q tt (looked e d (l ++ [EMetric (Count n 1 labels)])) -> wp (count n labels) Q (looked e d l).
Proof. unfold looked. simpl. by rewrite app_assoc. Qed.

Lemma looked_nil e : e = looked e (dedupe e) [].
Proof. unfold looked. simpl. rewrite app_nil_r. by destruct e. Qed.

Lemma wp_route_lookup sig (Q : route_next -> Endpoint W D -> Prop) e :
  (forall next d l, lookup_ok sig e next -> effects l = [] ->
     (Validate sig = None -> To sig = cfg_ID cfg -> df_knows d (ID sig)) ->
     Q next (looked e d l)) ->
  wp (route_lookup cfg sig) Q e.
Proof.
  intros HQ. unfold route_lookup. rewrite (looked_nil e).
  destruct (Validate sig) as [err|] eqn:Ev.
  { do 2 apply wp_bind, wp_count_looked. apply wp_ret, HQ; [|done|done].
    intros [(? & _) _]. congruence. }
  destruct (bool_decide (To sig = cfg_ID cfg)) eqn:Hto; simpl negb; cbv iota.
  2: { apply bool_decide_eq_false in Hto. do 2 apply wp_bind, wp_count_looked.
       apply wp_ret, HQ; [|done|done]. by intros [(_ & ? & _) _]. }
  apply bool_decide_eq_true in Hto.
  pose proof (df_answer (ID sig) (dedupe e)) as Hans. pose proof (df_learns (ID sig) (dedupe e)) as Hln.
  apply wp_bind, wp_let. simpl. destruct (df_mark (ID sig) (dedupe e)) as [seen d]. simpl in Hans, Hln.
  change (looked e (dedupe e) [] <| dedupe := d |>) with (looked e d []).
  destruct seen.
  { apply wp_bind, wp_count_looked, wp_ret, HQ; [|done|done].
    intros [(_ & _ & Hn & _) _]. by apply Hn, Hans. }
  assert (Hadm : ep_closed e = false -> admissible sig e).
  { intros Hc. split_and!; try done. intros Hk. by apply Hans in Hk. }
  apply wp_bind, wp_count_looked, wp_bind, wp_get.
  change (ep_closed (looked e d _)) with (ep_closed e).
  change (sessions (looked e d _)) with (sessions e).
  destruct (ep_closed e) eqn:Ec.
  { apply wp_ret, HQ; [|done|done]. intros [(_ & _ & _ & ?) _]. congruence. }
  destruct (sessions e !! SessionID sig) as [[uid peer]|] eqn:Es.
  - destruct (bool_decide (peer = From sig)) eqn:Hp; simpl negb; cbv iota.
    + apply bool_decide_eq_true in Hp as ->. apply wp_ret, HQ; try done. split; [auto|done].
    + apply bool_decide_eq_false in Hp. apply wp_bind, wp_count_looked, wp_ret, HQ; try done.
      intros [_ [[u Hu]|[_ Hu]]]; congruence.
  - destruct (bool_decide (Kind sig = KindOffer)) eqn:Hk.
    + apply bool_decide_eq_true in Hk. apply wp_ret, HQ; try done. split; [auto|done].
    + apply bool_decide_eq_false in Hk. apply wp_bind, wp_count_looked, wp_ret, HQ; try done.
      intros [_ [[u Hu]|[? Hu]]]; congruence.
Qed.

Lemma wp_accept_check sig (Q : bool -> Endpoint W D -> Prop) e :
  (forall ok e', calm e e' ->
     (ok = true <-> listener e = true /\ ln_isClosed (ln e) = false /\
        (forall allow, AllowPeer cfg = Some allow -> allow (From sig) = true)) -> Q ok e') ->
  wp (accept_check cfg sig) Q e.
Proof.
  intros HQ. unfold accept_check. apply wp_bind, wp_calm; [apply calmly_count|].
  intros [] e1 Hc1. apply wp_bind, wp_get.
  assert (E1 : listener e1 = listener e /\ ln e1 = ln e) by (by destruct Hc1 as (w & l & -> & _)).
  destruct E1 as [-> ->]. pose proof (calmly_reject (W := W) (D := D) cfg sig) as Hrej.
  destruct (negb (listener e) || ln_isClosed (ln e)) eqn:El.
  { apply wp_bind, wp_calm; [apply calmly_count|]. intros [] e2 Hc2.
    apply wp_bind, wp_calm; [apply Hrej|]. intros [] e3 Hc3. apply wp_ret, HQ.
    - eauto using calm_trans.
    - split; [done|]. intros (Hl & Hn & _). by rewrite Hl, Hn in El. }
  apply orb_false_elim in El as [El Hn]. apply negb_false_iff in El.
  destruct (AllowPeer cfg) as [allow|] eqn:Ea.
  - destruct (allow (From sig)) eqn:Ef; simpl.
    + apply wp_ret, HQ; [done|]. naive_solver.
    + apply wp_bind, wp_calm; [apply calmly_count|]. intros [] e2 Hc2.
      apply wp_bind, wp_calm; [apply Hrej|]. intros [] e3 Hc3. apply wp_ret, HQ.
      * eauto using calm_trans.
      * split; [done|]. intros (_ & _ & Hall). by rewrite (Hall allow) in Ef.
  - apply wp_ret, HQ; [done|]. naive_solver.
Qed.

(** What a call of [route] asks of the sessions, [l], and does to the table. *)
Definition routed (sig : Signal) e (l : list eev) e' : Prop :=
  admissible sig e /\ (exists uid, sessions e !! SessionID sig = Some (uid, From sig) /\
    orders l = [EPost uid (SevSignal sig)] /\ sessions e' = sessions e) \/
  admissible sig e /\ acceptable sig e /\
    orders l = [ESpawn (next_uid e) (SessionID sig) (From sig) roleAnswerer (Some sig)] /\
    sessions e' = <[SessionID sig := (next_uid e, From sig)]> (sessions e) \/
  ~ (admissible sig e /\ ((exists uid, sessions e !! SessionID sig = Some (uid, From sig)) \/
                          acceptable sig e)) /\
    orders l = [] /\ sessions e' = sessions e.

(** The state after the lookup and the listener's check. *)
Lemma looked_facts e d l :
  sessions (looked e d l) = sessions e /\ listener (looked e d l) = listener e /\
  ln (looked e d l) = ln e /\ slots (looked e d l) = slots e /\ held (looked e d l) = held e /\
  signalErr (looked e d l) = signalErr e /\ ep_closed (looked e d l) = ep_closed e /\
  next_uid (looked e d l) = next_uid e.
Proof. done. Qed.

Lemma calm_facts e e' : calm e e' ->
  sessions e' = sessions e /\ slots e' = slots e /\ signalErr e' = signalErr e /\
  ep_closed e' = ep_closed e /\ next_uid e' = next_uid e /\ held e' = held e /\
  dedupe e' = dedupe e /\ exists l, log e' = log e ++ l /\ orders l = [].
Proof.
  intros (w & l & -> & Hl). split_and!; try done. exists l. split; [done|]. by rewrite <- orders_effects, Hl.
Qed.

(** What [accept_slot] and [accept_add] make of an offer. *)
Lemma wp_accept_rest sig (Q : unit -> Endpoint W D -> Prop) e :
  ep_closed e = false -> sessions e !! SessionID sig = None ->
  (forall e' l, log e' = log e ++ l -> dedupe e' = dedupe e ->
     (slots e < AcceptBacklog cfg /\ signalErr e = None /\
        orders l = [ESpawn (next_uid e) (SessionID sig) (From sig) roleAnswerer (Some sig)] /\
        sessions e' = <[SessionID sig := (next_uid e, From sig)]> (sessions e) \/
      ~ (slots e < AcceptBacklog cfg /\ signalErr e = None) /\ orders l = [] /\
        sessions e' = sessions e) -> Q tt e') ->
  wp (slot ← accept_slot cfg sig; match slot with Some uid => accept_add cfg sig uid | None => mret tt end) Q e.
Proof.
  intros Hc Hno HQ. pose proof (calmly_reject (W := W) (D := D) cfg sig) as Hrej.
  unfold accept_slot. apply wp_bind, wp_bind, wp_get.
  destruct (Z.ltb_spec (slots e) (AcceptBacklog cfg)) as [Hs|Hs].
  - apply wp_bind, wp_modify, wp_ret. unfold accept_add, addSession.
    apply wp_bind, wp_bind, wp_get. simpl. rewrite Hc.
    destruct (signalErr e) as [err|] eqn:Es.
    + apply wp_ret, wp_bind. unfold releaseSlot_. apply wp_bind, wp_get. simpl.
      rewrite bool_decide_eq_true_2 by set_solver.
      apply wp_bind, wp_modify, wp_bind, wp_gets, wp_modify, wp_bind, wp_calm; [apply calmly_count|].
      intros [] e1 Hc1. apply wp_calm; [apply Hrej|]. intros [] e2 Hc2.
      assert (Hc3 := calm_trans _ _ _ Hc1 Hc2). destruct (calm_facts _ _ Hc3) as (Ht & _ & _ & _ & _ & _ & Hd & l & Hl & Ho).
      simpl in *. eapply HQ; [rewrite Hl, <- app_assoc; done|done|]. right. simpl. rewrite Ho. naive_solver.
    + simpl. rewrite Hno. apply wp_bind, wp_modify, wp_bind, wp_gets, wp_bind, wp_modify, wp_ret.
      apply wp_bind, wp_gets, wp_bind, wp_modify, wp_modify.
      eapply HQ; [simpl; rewrite <- !app_assoc; done|done|]. left. done.
  - apply wp_bind, wp_calm; [apply calmly_count|]. intros [] e1 Hc1.
    apply wp_bind, wp_calm; [apply Hrej|]. intros [] e2 Hc2. apply wp_ret, wp_ret.
    assert (Hc3 := calm_trans _ _ _ Hc1 Hc2). destruct (calm_facts _ _ Hc3) as (Ht & _ & _ & _ & _ & _ & Hd & l & Hl & Ho).
    eapply HQ; [done|done|]. right. split; [lia|done].
Qed.

Lemma route_routed sig e :
  wp (route cfg sig) (fun _ e' => exists l, log e' = log e ++ l /\ routed sig e l e' /\
    (Validate sig = None -> To sig = cfg_ID cfg -> df_knows (dedupe e') (ID sig))) e.
Proof.
  unfold route. apply wp_bind, wp_route_lookup. intros next d l Hok Hl Hk.
  assert (Ho : orders l = []) by (by rewrite <- orders_effects, Hl).
  destruct next as [|uid|].
  - apply wp_ret. exists l. split; [done|]. split; [|done]. right. right. split; [|done].
    intros [Ha Hx]. apply Hok. split; [done|]. unfold acceptable in Hx. naive_solver.
  - unfold note. apply wp_modify. exists (l ++ [EPost uid (SevSignal sig)]).
    split; [simpl; by rewrite app_assoc|]. split; [|done]. left. destruct Hok as [Ha Hs].
    split; [done|]. exists uid. split; [done|]. split; [|done].
    unfold orders in *. by rewrite List.filter_app, Ho.
  - destruct Hok as (Ha & Hkind & Hno). unfold acceptOffer. apply wp_bind, wp_accept_check.
    intros ok e1 Hc Hok. destruct (calm_facts _ _ Hc) as (Ht & Hsl & Hse & Hcl & Hnx & _ & Hd & l1 & Hl1 & Ho1).
    destruct (looked_facts e d l) as (F1 & F2 & F3 & F4 & _ & F6 & F7 & F8).
    rewrite F1 in Ht. rewrite F4 in Hsl. rewrite F6 in Hse. rewrite F7 in Hcl. rewrite F8 in Hnx.
    rewrite F2, F3 in Hok. simpl in Hd, Hl1.
    destruct ok.
    + destruct Hok as [Hok _]. specialize (Hok eq_refl).
      apply wp_accept_rest; [destruct Ha as (_ & _ & _ & ?); congruence|by rewrite Ht|].
      rewrite Hsl, Hse, Ht, Hnx. intros e2 l2 Hl2 Hd2 Hcase. exists (l ++ l1 ++ l2).
      split; [by rewrite Hl2, Hl1, !app_assoc|].
      split; [|by rewrite Hd2, Hd]. unfold routed, acceptable.
      assert (Hor : orders (l ++ l1 ++ l2) = orders l2).
      { unfold orders in *. by rewrite !List.filter_app, Ho, Ho1. }
      rewrite Hor. destruct Hcase as [(A & B & C & E)|(A & B & C)]; [right; left|right; right].
      * split; [done|]. split; [tauto|done].
      * split; [|done]. intros [_ [[uid Hu]|Hx]]; [congruence|tauto].
    + apply wp_ret. exists (l ++ l1). split; [by rewrite Hl1, app_assoc|]. split; [|by rewrite Hd].
      right. right. split; [|split; [|done]].
      * intros [_ [[uid Hu]|(_ & _ & Hx & Hy & Hz & _)]]; [congruence|].
        destruct Hok as [_ Hok]. discriminate Hok. done.
      * unfold orders in *. by rewrite List.filter_app, Ho, Ho1.
Qed.

Lemma orders_in ev l : is_order ev = true -> ev ∈ l <-> ev ∈ orders l.
Proof.
  intros Ho. rewrite !list_elem_of_In. unfold orders. rewrite List.filter_In. tauto.
Qed.

(** C10. Routing is exact. One signal is handed to a session if and only if it is valid,
    addressed to this endpoint, not a repeat, the endpoint is open and the session of its
    ID is with its sender; it starts an answering session if and only if, the same
    conditions met, it is an offer for an unknown session that an open listener, the
    application's policy, the backlog and the signaling state admit. Nothing else is
    asked of any session, the table changes only by that new session, and routing the
    same signal again does nothing. *)
Theorem route_delivers_exactly sig e :
  let e' := snd (route cfg sig e) in
  exists l, log e' = log e ++ l /\
  (forall uid ev, EPost uid ev ∈ l <->
     ev = SevSignal sig /\ admissible sig e /\ sessions e !! SessionID sig = Some (uid, From sig)) /\
  (forall uid id peer r offer, ESpawn uid id peer r offer ∈ l <->
     uid = next_uid e /\ id = SessionID sig /\ peer = From sig /\ r = roleAnswerer /\ offer = Some sig /\
     admissible sig e /\ acceptable sig e) /\
  (admissible sig e /\ acceptable sig e ->
     sessions e' = <[SessionID sig := (next_uid e, From sig)]> (sessions e)) /\
  (~ (admissible sig e /\ acceptable sig e) -> sessions e' = sessions e) /\
  (let e'' := snd (route cfg sig e') in
   exists k, log e'' = log e' ++ k /\ orders k = [] /\ sessions e'' = sessions e').
Proof.
  intros e'. destruct (wp_elim _ _ _ (route_routed sig e)) as (l & Hl & Hr & Hk). fold e' in Hl, Hr, Hk.
  exists l. split; [done|].
  assert (Hagain : let e'' := snd (route cfg sig e') in
    exists k, log e'' = log e' ++ k /\ orders k = [] /\ sessions e'' = sessions e').
  { intros e''. destruct (wp_elim _ _ _ (route_routed sig e')) as (k & Hlk & Hrk & _). fold e'' in Hlk, Hrk.
    exists k. split; [done|].
    assert (Hna : ~ admissible sig e') by (intros (A & B & C & _); by apply C, Hk).
    unfold routed in Hrk. tauto. }
  assert (Hp : forall uid ev, EPost uid ev ∈ l <-> EPost uid ev ∈ orders l) by (intros; by apply orders_in).
  assert (Hs : forall uid id peer r o, ESpawn uid id peer r o ∈ l <-> ESpawn uid id peer r o ∈ orders l)
    by (intros; by apply orders_in).
  unfold acceptable in *.
  destruct Hr as [(Ha & u & Hu & Ho & Hses)|[(Ha & Hac & Ho & Hses)|(Hn & Ho & Hses)]]; rewrite Ho in *.
  - split; [|split; [|split; [|by split]]].
    + intros uid ev. rewrite Hp, list_elem_of_singleton. split; [intros [= <- <-]; done|].
      intros (-> & _ & Hx). congruence.
    + intros. rewrite Hs, list_elem_of_singleton. split; [done|]. intros (_ & _ & _ & _ & _ & _ & _ & Hx & _). congruence.
    + intros [_ (_ & Hx & _)]. congruence.
  - split; [|split; [|split; [done|split; [intros Hx; by destruct Hx|done]]]].
    + intros. rewrite Hp, list_elem_of_singleton. split; [done|]. intros (_ & _ & Hx). destruct Hac as (_ & Hy & _). congruence.
    + intros. rewrite Hs, list_elem_of_singleton. split; [intros [= -> -> -> -> ->]; done|].
      intros (-> & -> & -> & -> & -> & _). done.
  - split; [|split; [|split; [|by split]]].
    + intros uid ev. rewrite Hp. split; [intros Hx; by apply not_elem_of_nil in Hx|].
      intros (_ & Ha & Hx). destruct Hn. split; [done|left; by exists uid].
    + intros. rewrite Hs. split; [intros Hx; by apply not_elem_of_nil in Hx|].
      intros (_ & _ & _ & _ & _ & Ha & Hx). destruct Hn. split; [done|by right].
    + intros [Ha Hx]. destruct Hn. split; [done|by right].
Qed.

(** ** Dialing *)

Lemma dial_start_orders ctx peer e :
  wp (dial_start cfg ctx peer) (fun r e' => exists l, log e' = log e ++ l /\
    match r with
    | Ok uid => exists id, orders l = [ESpawn uid id peer roleOfferer None]
    | Err _ => orders l = []
    end) e.
Proof.
  assert (Hno : exists l, log e = log e ++ l /\ orders l = [])
    by (exists []; by rewrite app_nil_r).
  unfold dial_start. destruct (validPeerID peer); [by apply wp_ret, Hno|].
  destruct (bool_decide _); [by apply wp_ret, Hno|]. destruct ctx; [by apply wp_ret, Hno|].
  apply wp_bind, wp_calm; [apply calmly_world|]. intros rand e1 Hc.
  destruct (calm_facts _ _ Hc) as (_ & _ & _ & _ & _ & _ & _ & l & Hl & Ho).
  apply wp_bind, wp_gets, wp_bind, wp_modify, wp_bind, wp_let.
  pose proof (addSession_spec (next_uid e1) (NewID rand) peer (e1 <| next_uid := S (next_uid e1) |>)) as Ha.
  destruct (addSession _ _ _ _) as [err e2].
  destruct Ha as [(_ & _ & _ & _ & _ & l2 & Hl2 & _) [Hef _]]. simpl in Hl2, Hef.
  rewrite Hl2, effects_app in Hef.
  assert (Ho2 : orders l2 = []).
  { rewrite <- orders_effects, (app_inv_head (effects (log e1)) (effects l2) []); [done|].
    by rewrite app_nil_r. }
  assert (Hk : orders (l ++ l2) = []) by (unfold orders in *; by rewrite List.filter_app, Ho, Ho2).
  destruct err as [err|].
  - apply wp_ret. exists (l ++ l2). by rewrite Hl2, Hl, app_assoc.
  - apply wp_bind, wp_modify, wp_ret. exists ((l ++ l2) ++ [ESpawn (next_uid e1) (NewID rand) peer roleOfferer None]).
    split; [simpl; by rewrite Hl2, Hl, !app_assoc|]. exists (NewID rand).
    unfold orders in *. by rewrite List.filter_app, Hk.
Qed.

Lemma wp_late (late : option (result error Conn)) e :
  wp (match late with Some (Ok conn) => note (EDropConn conn) | _ => mret tt end)
    (fun _ e' => log e' = log e ++ match late with Some (Ok conn) => [EDropConn conn] | _ => [] end) e.
Proof.
  destruct late as [[conn|er]|]; [by apply wp_modify|apply wp_ret; by rewrite app_nil_r..].
Qed.

(** What the wait of a dial does in each case: the value returned, and the events after
    the session's start. *)
Definition dial_return (c : dial_case) : result error Conn :=
  match c with
  | DialResult r => r
  | DialCtx err _ =>
      Err (if errIs err context_DeadlineExceeded then errorf ErrTimeout "pipe: dial %s: %w" (Some err)
           else errorf ErrClosed "pipe: dial %s: %w" (Some err))
  | DialClosed => Err (errorf ErrClosed "pipe: dial %s: endpoint is closed" None)
  end.

Definition dial_after (uid : nat) (c : dial_case) : list eev :=
  match c with
  | DialCtx err late => EPost uid (SevClose (cancel_intent err)) ::
      match late with Some (Ok conn) => [EDropConn conn] | _ => [] end
  | _ => []
  end.

(** A dial either starts no session and fails, or starts one and waits for it. *)
Definition dialled (peer : string) (c : nat -> dial_case) (r : result error Conn) (l : list eev) : Prop :=
  (exists er, r = Err er /\ orders l = []) \/
  exists uid id k, l = k ++ dial_after uid (c uid) /\
    orders k = [ESpawn uid id peer roleOfferer None] /\ r = dial_return (c uid).

(** The events and the result of a dial. *)
Lemma Dial_dialled ctx peer c e :
  wp (Dial cfg ctx peer c) (fun r e' =>
    exists l, log e' = log e ++ [EMetric (Count metricDialAttempts 1 [])] ++ l ++
                     [EMetric (Count metricDialResults 1 [labelResult (dial_label r)])] /\
    dialled peer c r l) e.
Proof.
  assert (Hfin : forall r e2 l, log e2 = log e ++ [EMetric (Count metricDialAttempts 1 [])] ++ l -> dialled peer c r l ->
    wp (count metricDialResults [labelResult (dial_label r)];; mret r) (fun r e' =>
      exists l, log e' = log e ++ [EMetric (Count metricDialAttempts 1 [])] ++ l ++
                     [EMetric (Count metricDialResults 1 [labelResult (dial_label r)])] /\ dialled peer c r l) e2).
  { intros r e2 l Hl Hq. apply wp_bind, wp_modify, wp_ret. exists l. split; [|done].
    simpl. rewrite Hl. simpl. by rewrite <- !app_assoc. }
  unfold Dial. apply wp_bind, wp_modify, wp_bind. unfold dial. apply wp_bind.
  eapply wp_mono; [apply dial_start_orders|]. intros [uid|er] e1 (l & Hl & Ho); simpl in Hl;
    rewrite <- app_assoc in Hl.
  - destruct Ho as [id Ho]. unfold dial_wait.
    assert (Hq : forall r l', r = dial_return (c uid) -> l' = dial_after uid (c uid) -> dialled peer c r (l ++ l')).
    { intros r l' -> ->. right. by exists uid, id, l. }
    destruct (c uid) as [r|err late|].
    + apply wp_ret, (Hfin _ _ (l ++ [])); [by rewrite app_nil_r|by apply Hq].
    + apply wp_bind, wp_modify, wp_bind.
      eapply wp_mono; [apply (wp_late late)|]. intros [] e2 Hl2. simpl in Hl2. rewrite Hl in Hl2.
      simpl in Hl2. rewrite <- !app_assoc in Hl2.
      assert (Hl3 : log e2 = log e ++ [EMetric (Count metricDialAttempts 1 [])] ++
        l ++ dial_after uid (DialCtx err late)) by (rewrite Hl2; simpl; by rewrite <- ?app_assoc).
      specialize (Hq _ _ eq_refl eq_refl). unfold dial_return in Hq.
      destruct (errIs err context_DeadlineExceeded); (apply wp_ret, (Hfin _ _ _ Hl3), Hq).
    + apply wp_ret, (Hfin _ _ (l ++ [])); [by rewrite app_nil_r|by apply Hq].
  - apply wp_ret, (Hfin _ _ l); [done|]. left. by exists er.
Qed.

(** ** The listener

    [push] checks for a closed listener and then queues: when [Close] runs in between and
    [select] picks the queue, the connection stays in the queue of a closed listener,
    after [Close] has drained it. *)
Lemma push_after_close p e :
  ln e = Some {| ln_accept := []; ln_closed := false |} -> 0 < AcceptBacklog cfg ->
  let e1 := snd (ln_Close e) in
  let e2 := snd (push_send cfg false p e1) in
  fst (push_check e) = None /\ fst (push_send cfg false p e1) = None /\
  ln e1 = Some {| ln_accept := []; ln_closed := true |} /\
  ln e2 = Some {| ln_accept := [p]; ln_closed := true |}.
Proof.
  intros Hl Hb.
  assert (Hc : fst (push_check e) = None)
    by (unfold push_check, mbind, state_m_bind, get_s; simpl; by rewrite Hl).
  assert (Hl1 : ln (snd (ln_Close e)) = Some {| ln_accept := []; ln_closed := true |}).
  { unfold ln_Close, drain, mbind, state_m_bind, get_s. simpl. rewrite Hl. simpl. by rewrite Hl. }
  intros e1 e2. split; [done|]. unfold e2. fold e1 in Hl1.
  unfold push_send, mbind, state_m_bind, get_s. simpl. rewrite Hl1. simpl.
  assert ((zlen (@nil pendingConn) <? AcceptBacklog cfg) = true) as -> by (apply Z.ltb_lt; exact Hb). done.
Qed.
End props.
