(* ===== verification/System.v ===== *)
(** * One endpoint with its sessions

    [system] composes [Endpoint] with the sessions it started. Its steps are those of
    every goroutine: the receive loop's work on a signal in the parts of [route] and
    [acceptOffer], the sessions' goroutines, what runs beside them, the application's
    calls, the parts of the two [Close]s, and the passing of time. Events the endpoint
    notes (a posted event, a started goroutine) take effect at once. The theorems: the
    backlog is exactly accounted for and never overflows, and the session table is
    exactly the sessions whose goroutine has not ended. *)

From Stdlib Require Import SpecFloat.
From Stdlib Require Import String.
From S2P Require Import Prelude.
From S2P Require Import Errors.
From S2P Require Import Dedupe.
From S2P Require Import Stream.
From S2P Require Import Mailbox.
From S2P Require Import Signal.
From S2P Require Import Config.
From S2P Require Import Conn.
From S2P Require Import Metrics.
From S2P Require Import Pionx.
From S2P Require Import Session.
From S2P Require Import SessionSlots.
From S2P Require Import Endpoint.
From S2P Require Import EndpointInv.

#[local] Arguments newSignal : simpl never.
#[local] Arguments Validate : simpl never.

(** Where the receive loop is: waiting for a signal, or at a part of [acceptOffer]. *)
Inductive recv_pc := RecvIdle | RecvOffer (sig : Signal) | RecvSlot (sig : Signal)
| RecvAdd (sig : Signal) (uid : nat) | RecvStopped.

(** How far [Listener.Close] and [Endpoint.Close] have come. *)
Inductive ln_pc := LnIdle | LnMarked | LnCleared | LnDone.
Inductive close_pc := ClIdle | ClListener (uids : list nat) (b : bool) | ClSessions (uids : list nat)
| ClEnd | ClDone.

#[export] Instance ln_pc_eq_dec : EqDecision ln_pc.
Proof. solve_decision. Defined.

Section system.
Context {F P W D : Type} `{PeerConn F P} `{World W} `{DupFilter D}.
Context `{!PeerLaws F P, !WorldLaws W}.
Variable cfg : Config.Config.

Abbreviation endpoint := (Endpoint W D) (only parsing).
#[local] Instance sys_env : Env (Endpoint W D) := ep_as_env cfg.
Abbreviation sess := (session F P (Endpoint W D)) (only parsing).

Record system := {
  sys_ep : Endpoint W D; sys_factory : F; sys_run : gmap nat (session F P (Endpoint W D));
  sys_recv : recv_pc; sys_ln : ln_pc; sys_close : close_pc
}.

#[export] Instance system_eta : Eta system := fun s => {|
  sys_ep := sys_ep s; sys_factory := sys_factory s; sys_run := sys_run s;
  sys_recv := sys_recv s; sys_ln := sys_ln s; sys_close := sys_close s |}.

Implicit Types y : system.

Definition sys_init (f : F) (d : D) (w : W) : system := {|
  sys_ep := newEndpoint d w; sys_factory := f; sys_run := ∅; sys_recv := RecvIdle;
  sys_ln := LnIdle; sys_close := ClIdle |}.

(** What an event of the endpoint does to the sessions. *)
Definition perform (f : F) (e : Endpoint W D) (rs : gmap nat sess) (ev : eev) : gmap nat sess :=
  match ev with
  | EPost uid ev => alter (post_event ev) uid rs
  | ESpawn uid id peer r offer =>
    <[uid := newSession uid id peer r (bool_decide (r = roleAnswerer)) offer f e]> rs
  | _ => rs
  end.

(** An operation of the endpoint, with the events it noted carried out. *)
Definition run_op {A} (m : state_m (Endpoint W D) A) (y : system) : A * system :=
  let '(a, e) := m (sys_ep y) in
  (a, y <| sys_ep := e |>
        <| sys_run := fold_left (perform (sys_factory y) e)
             (drop (length (log (sys_ep y))) (log e)) (sys_run y) |>).

Definition op {A} (m : state_m (Endpoint W D) A) (y : system) : system := snd (run_op m y).

(** A session as it finds the endpoint and the factory now. *)
Definition present (y : system) (s : sess) : sess :=
  s <| ep := sys_ep y |> <| factory := sys_factory y |>.

(** The goroutines' next steps. *)
Inductive sys_act :=
| AGo (uid : nat) (a : session_act)
| AReceive (r : result error Signal) | ARecv
| AListen | AAccept (c : accept_case) | ADial (ctx : option error) (peer : string)
| ALnClose | AClose.

Definition recv_exec (y : system) : option system :=
  match sys_recv y with
  | RecvOffer sig =>
    let '(ok, y) := run_op (accept_check cfg sig) y in
    Some (y <| sys_recv := if ok : bool then RecvSlot sig else RecvIdle |>)
  | RecvSlot sig =>
    let '(slot, y) := run_op (accept_slot cfg sig) y in
    Some (y <| sys_recv := match slot with Some uid => RecvAdd sig uid | None => RecvIdle end |>)
  | RecvAdd sig uid => Some (op (accept_add cfg sig uid) y <| sys_recv := RecvIdle |>)
  | RecvIdle | RecvStopped => None
  end.

Definition receive_exec (r : result error Signal) (y : system) : option system :=
  match sys_recv y, r with
  | RecvIdle, Ok sig =>
    let '(next, y) := run_op (route_lookup cfg sig) y in
    Some match next with
         | RouteDone => y
         | RoutePost uid => op (note (EPost uid (SevSignal sig))) y
         | RouteOffer => y <| sys_recv := RecvOffer sig |>
         end
  | RecvIdle, Err err =>
    Some (op (receive_step cfg (Err err)) y <| sys_recv := RecvStopped |>)
  | _, _ => None
  end.

Definition ln_exec (y : system) : option system :=
  match sys_ln y with
  | LnIdle =>
    match ln (sys_ep y) with
    | Some _ => Some (op ln_close_mark y <| sys_ln := LnMarked |>)
    | None => None
    end
  | LnMarked => Some (op clearListener y <| sys_ln := LnCleared |>)
  | LnCleared => Some (op drain y <| sys_ln := LnDone |>)
  | LnDone => None
  end.

Definition close_exec (y : system) : option system :=
  match sys_close y with
  | ClIdle =>
    let '(p, y) := run_op close_mark y in Some (y <| sys_close := ClListener (fst p) (snd p) |>)
  | ClListener uids b =>
    if b && negb (bool_decide (sys_ln y = LnDone)) then None
    else Some (y <| sys_close := ClSessions uids |>)
  | ClSessions (uid :: uids) =>
    Some (op (note (EPost uid (SevClose goaway_intent))) y <| sys_close := ClSessions uids |>)
  | ClSessions [] => Some (y <| sys_close := ClEnd |>)
  | ClEnd => Some (op close_end y <| sys_close := ClDone |>)
  | ClDone => None
  end.

Definition sys_exec (a : sys_act) (y : system) : option system :=
  match a with
  | AGo uid a =>
    match sys_run y !! uid with
    | Some s =>
      match session_step cfg a (present y s) with
      | Some s' => Some (y <| sys_ep := ep s' |> <| sys_factory := factory s' |>
                           <| sys_run := <[uid := s']> (sys_run y) |>)
      | None => None
      end
    | None => None
    end
  | AReceive r => receive_exec r y
  | ARecv => recv_exec y
  | AListen => Some (op Listen y)
  | AAccept c => Some (op (AcceptConn cfg c) y)
  | ADial ctx peer => Some (op (dial_start cfg ctx peer) y)
  | ALnClose => ln_exec y
  | AClose => close_exec y
  end.

Inductive sys_step : system -> system -> Prop :=
| sys_do a y y' : sys_exec a y = Some y' -> sys_step y y'
| sys_side uid s s' y : sys_run y !! uid = Some s -> sside s s' ->
    sys_step y (y <| sys_run := <[uid := s']> (sys_run y) |>)
| sys_world w y : w_evolves (world (sys_ep y)) w ->
    sys_step y (y <| sys_ep ::= fun e => e <| world := w |> |>).

Inductive sys_reach (y0 : system) : system -> Prop :=
| sys_refl : sys_reach y0 y0
| sys_next y y' : sys_reach y0 y -> sys_step y y' -> sys_reach y0 y'.

Fixpoint sys_execs (acts : list sys_act) (y : system) : option system :=
  match acts with
  | [] => Some y
  | a :: acts => match sys_exec a y with Some y => sys_execs acts y | None => None end
  end.

Lemma sys_execs_reach acts y0 y y' :
  sys_reach y0 y -> sys_execs acts y = Some y' -> sys_reach y0 y'.
Proof.
  revert y. induction acts as [|a acts IH]; intros y Hr; simpl; [by intros [= <-]|].
  destruct (sys_exec a y) as [y1|] eqn:Ea; [|done]. intros Hs. apply (IH y1); [|done].
  eapply sys_next; [exact Hr|by eapply sys_do].
Qed.
End system.
Arguments system : clear implicits.
