(* ===== verification/SystemProps.v ===== *)
(** * What an endpoint and its sessions guarantee together *)

From Stdlib Require Import SpecFloat.
From Stdlib Require Import String.
From S2P Require Import Prelude.
From S2P Require Import Errors.
From S2P Require Import Floats.
From S2P Require Import Dedupe.
From S2P Require Import Stream.
From S2P Require Import Mailbox.
From S2P Require Import Signal.
From S2P Require Import Config.
From S2P Require Import Conn.
From S2P Require Import Metrics.
From S2P Require Import Pionx.
From S2P Require Import Session.
From S2P Require Import SessionSlots.
From S2P Require Import Endpoint.
From S2P Require Import EndpointInv.
From S2P Require Import System.

#[local] Arguments newSignal : simpl never.
#[local] Arguments Validate : simpl never.

Section inv.
Context {F P W D : Type} `{PeerConn F P} `{World W} `{DupFilter D}.
Context `{!PeerLaws F P, !WorldLaws W}.
Variable cfg : Config.Config.
#[local] Instance sys_env' : Env (Endpoint W D) := ep_as_env cfg.
Implicit Types y : system F P W D.
Implicit Types s : session F P (Endpoint W D).
Implicit Types rs : gmap nat (session F P (Endpoint W D)).

(** ** Sessions, up to what the endpoint does not see *)

Definition seen (e : Endpoint W D) s : view := view_of (s <| ep := e |>).

Lemma view_seen s : view_of s = seen (ep s) s.
Proof. by destruct s. Qed.

Definition alike (e : Endpoint W D) rs rs' : Prop :=
  forall u, seen e <$> rs !! u = seen e <$> rs' !! u.

Lemma side_seen e s s' : sside s s' -> seen e s' = seen e s.
Proof.
  intros [ev s1 Hk Hev|res s1 Hpr|a s1 st evs st' Hst Hex|a s1|s1|p p' s1 Hp Hk]; try done.
  unfold seen, view_of. simpl. by rewrite Hst.
Qed.

(** ** Who owns a slot *)

Definition run_owners rs : gset nat := dom (filter (fun p => releaseSlot (snd p) = true) rs).

Lemma elem_run_owners u rs :
  u ∈ run_owners rs <-> exists s, rs !! u = Some s /\ releaseSlot s = true.
Proof.
  unfold run_owners. rewrite elem_of_dom. unfold is_Some. setoid_rewrite map_lookup_filter_Some. done.
Qed.

Lemma run_owners_insert u s rs :
  run_owners (<[u := s]> rs) = if releaseSlot s then {[u]} ∪ run_owners (delete u rs)
                               else run_owners (delete u rs).
Proof.
  apply leibniz_equiv. intros v. rewrite elem_run_owners.
  assert (Hd : v ∈ run_owners (delete u rs) <-> v <> u /\ v ∈ run_owners rs).
  { rewrite !elem_run_owners. setoid_rewrite lookup_delete_Some. split.
    - intros (s1 & [Hne Hl] & Hs1). split; [congruence|eauto].
    - intros [Hne (s1 & Hl & Hs1)]. exists s1. split; [|done]. split; [congruence|done]. }
  destruct (decide (v = u)) as [->|Hne].
  - rewrite lookup_insert_eq. destruct (releaseSlot s) eqn:Es.
    + split; [intros _; apply elem_of_union_l, elem_of_singleton; done|]. intros _. by exists s.
    + rewrite Hd. split; [intros (s1 & [= <-] & ?); congruence|by intros []].
  - rewrite lookup_insert_ne by done. rewrite <- elem_run_owners.
    destruct (releaseSlot s); rewrite ?elem_of_union, ?elem_of_singleton, Hd; tauto.
Qed.

Lemma run_owners_alike e rs rs' : alike e rs rs' -> run_owners rs' = run_owners rs.
Proof.
  intros Ha. apply leibniz_equiv. intros u. rewrite !elem_run_owners. specialize (Ha u).
  destruct (rs !! u) as [s|], (rs' !! u) as [s'|]; try done; try (by split; intros (? & [=] & _)).
  injection Ha as ? ? ? ? ? Hr ? ?. split; intros (s1 & [= <-] & Hs1); eexists; split; try done; congruence.
Qed.

Definition recv_owner y : gset nat := match sys_recv y with RecvAdd _ uid => {[uid]} | _ => ∅ end.
Definition owners_of y : gset nat := run_owners (sys_run y) ∪ recv_owner y.

(** ** The invariant *)

(** What is known of a registered goroutine: it runs, or it is over and left nothing. *)
Record entry_ok (n : nat) (u : nat) s : Prop := {
  en_uid : s_uid s = u; en_old : (u < n)%nat; en_phase : slot_phase s;
  en_state : finished s = false /\ pc s <> PcDone \/
             finished s = true /\ pc s = PcDone /\ releaseSlot s = false
}.

Record sys_inv y : Prop := {
  si_ep : ep_inv cfg (owners_of y) (sys_ep y);
  si_entry u s : sys_run y !! u = Some s -> entry_ok (next_uid (sys_ep y)) u s;
  si_table id u peer : sessions (sys_ep y) !! id = Some (u, peer) <->
    exists s, sys_run y !! u = Some s /\ s_id s = id /\ s_peer s = peer /\ finished s = false;
  si_recv sig u : sys_recv y = RecvAdd sig u -> sys_run y !! u = None /\ (u < next_uid (sys_ep y))%nat
}.

Lemma entry_seen e n u s s' : seen e s = seen e s' -> entry_ok n u s -> entry_ok n u s'.
Proof.
  intros Hs [Hu Ho Hp He]. unfold seen, view_of in Hs. simpl in Hs.
  injection Hs as E1 E2 E3 E4 E5 E6 E7 E8. constructor; [congruence|done| |].
  - unfold slot_phase in *. rewrite <- E4, <- E6, <- E8. destruct (pc s); try done.
    all: intros Hr Hn; apply Hp; [done|]; apply (bool_decide_eq_true_1 (stream s = None)); rewrite E5; by apply bool_decide_eq_true_2.
  - rewrite <- E7, <- E8, <- E6. done.
Qed.

Lemma sys_inv_alike y rs' :
  alike (sys_ep y) (sys_run y) rs' -> sys_inv y -> sys_inv (y <| sys_run := rs' |>).
Proof.
  intros Ha []. constructor; simpl.
  - unfold owners_of, recv_owner. simpl. by rewrite (run_owners_alike _ _ _ Ha).
  - intros u s' Hs'. specialize (Ha u). rewrite Hs' in Ha.
    destruct (sys_run y !! u) as [s|] eqn:Es; [|done].
    apply (entry_seen (sys_ep y) _ _ s); [apply (inj Some), Ha|by apply si_entry0].
  - intros id u peer. rewrite si_table0. specialize (Ha u).
    destruct (sys_run y !! u) as [s|], (rs' !! u) as [s'|]; try done; try (by split; intros (? & [=] & _)).
    injection Ha as ? Hid Hpe ? ? ? Hfi ?. split; intros (s1 & [= <-] & ? & ? & ?);
      eexists; (split; [done|]); split_and!; congruence.
  - intros sig u Hr. destruct (si_recv0 sig u Hr) as [Hn ?]. split; [|done]. specialize (Ha u).
    rewrite Hn in Ha. by destruct (rs' !! u).
Qed.

(** The endpoint changed without touching backlog and table; the other places are free. *)
Lemma sys_inv_ep y y' :
  sys_inv y -> sys_run y' = sys_run y ->
  ep_inv cfg (owners_of y') (sys_ep y') -> sessions (sys_ep y') = sessions (sys_ep y) ->
  (next_uid (sys_ep y) <= next_uid (sys_ep y'))%nat ->
  (forall sig u, sys_recv y' = RecvAdd sig u -> sys_run y !! u = None /\ (u < next_uid (sys_ep y'))%nat) ->
  sys_inv y'.
Proof.
  intros [] Hr He Hs Hn Hrc. constructor; rewrite ?Hr, ?Hs; try done.
  intros u s Hu. destruct (si_entry0 u s Hu). constructor; try done. lia.
Qed.

(** ** Operations of the endpoint *)

Lemma perform_orders f e l rs :
  fold_left (perform f e) l rs = fold_left (perform f e) (orders l) rs.
Proof.
  revert rs. induction l as [|ev l IH]; intros rs; [done|]. simpl. rewrite IH. by destruct ev.
Qed.

Lemma run_op_eq {A} (m : state_m (Endpoint W D) A) y l :
  log (snd (m (sys_ep y))) = log (sys_ep y) ++ l ->
  run_op m y = (fst (m (sys_ep y)), y <| sys_ep := snd (m (sys_ep y)) |>
    <| sys_run := fold_left (perform (sys_factory y) (snd (m (sys_ep y)))) (orders l) (sys_run y) |>).
Proof.
  intros Hl. unfold run_op. destruct (m (sys_ep y)) as [a e]. simpl in *. f_equal.
  rewrite <- perform_orders, Hl, drop_app_length. done.
Qed.

Lemma run_op_mute {A} (m : state_m (Endpoint W D) A) y :
  mute m -> run_op m y = (fst (m (sys_ep y)), y <| sys_ep := snd (m (sys_ep y)) |>).
Proof.
  intros Hm. destruct (Hm (sys_ep y)) as [(l & Hl & Ho) _]. rewrite (run_op_eq m y l Hl), Ho. by destruct y.
Qed.

Lemma sys_inv_op {A} (m : state_m (Endpoint W D) A) y :
  (forall O, ep_inv cfg O (sys_ep y) ->
     ep_inv cfg O (snd (m (sys_ep y))) /\ sessions (snd (m (sys_ep y))) = sessions (sys_ep y)) ->
  mute m -> sys_inv y -> sys_inv (op m y).
Proof.
  intros Hm Hq Hi. destruct (Hq (sys_ep y)) as [_ Hn]. unfold op. rewrite run_op_mute by done. simpl.
  destruct (Hm (owners_of y)) as [He Hs]; [by apply si_ep|].
  apply (sys_inv_ep y); simpl; try done. intros sig u Hr. destruct (si_recv _ Hi sig u Hr). split; [done|lia].
Qed.

Lemma sys_inv_idle {A} (m : state_m (Endpoint W D) A) y : idle m -> sys_inv y -> sys_inv (op m y).
Proof.
  intros Hm. destruct (Hm (sys_ep y)) as (Hb & Hs & _).
  apply sys_inv_op; [|by apply mute_idle].
  intros O Ho. split; [by apply (ep_inv_frame cfg O (sys_ep y))|done].
Qed.

Lemma sys_inv_post uid ev y : sys_inv y -> sys_inv (op (note (EPost uid ev)) y).
Proof.
  intros Hi. unfold op. rewrite (run_op_eq _ y [EPost uid ev]) by done. simpl.
  set (y1 := y <| sys_ep ::= fun e => e <| log ::= (fun l => l ++ [EPost uid ev]) |> |>).
  assert (Hi1 : sys_inv y1).
  { apply (sys_inv_ep y); try done; simpl; [apply note_inv; [done|apply (si_ep _ Hi)]|]. apply Hi. }
  apply (sys_inv_alike y1); [|done]. intros u. simpl. destruct (decide (u = uid)) as [->|Hne].
  - rewrite lookup_alter_eq. by destruct (sys_run y !! uid).
  - by rewrite lookup_alter_ne.
Qed.

(** The places of the receive loop and of the two closes do not matter. *)
Lemma sys_inv_places y y' :
  sys_inv y -> sys_ep y' = sys_ep y -> sys_run y' = sys_run y -> recv_owner y' = recv_owner y ->
  (forall sig u, sys_recv y' = RecvAdd sig u -> sys_recv y = RecvAdd sig u) -> sys_inv y'.
Proof.
  intros Hi He Hr Ho Hrc. apply (sys_inv_ep y); rewrite ?He; try done.
  - unfold owners_of. rewrite Hr, Ho. apply Hi.
  - intros sig u Hs. by eapply si_recv, Hrc.
Qed.

(** A new session. *)
Lemma sys_inv_spawn y y' uid id peer r offer f e :
  sys_inv y ->
  sys_run y' = <[uid := newSession uid id peer r (bool_decide (r = roleAnswerer)) offer f e]> (sys_run y) ->
  sys_run y !! uid = None -> sessions (sys_ep y) !! id = None ->
  sessions (sys_ep y') = <[id := (uid, peer)]> (sessions (sys_ep y)) ->
  (uid < next_uid (sys_ep y'))%nat -> (next_uid (sys_ep y) <= next_uid (sys_ep y'))%nat ->
  ep_inv cfg (owners_of y') (sys_ep y') ->
  (forall sig u, sys_recv y' = RecvAdd sig u -> u <> uid /\ sys_recv y = RecvAdd sig u) ->
  sys_inv y'.
Proof.
  intros [] Hr Hn Hid Hs Hu Hnx He Hrc. constructor; rewrite ?Hr, ?Hs; try done.
  - intros u s Hl. apply lookup_insert_Some in Hl as [[<- <-]|[Hne Hl]].
    + constructor; try done; [|by left]. unfold slot_phase. simpl. by intros ->.
    + destruct (si_entry0 u s Hl). constructor; try done. lia.
  - intros id' u p. rewrite lookup_insert_Some, si_table0. split.
    + intros [[<- [= <- <-]]|[Hne (s & Hl & Hx)]].
      * rewrite lookup_insert_eq. eexists. split; [done|]. done.
      * exists s. split; [|done]. rewrite lookup_insert_ne; [done|]. intros <-. congruence.
    + intros (s & Hl & Hx & Hp & Hf). apply lookup_insert_Some in Hl as [[<- <-]|[Hne Hl]].
      * left. simpl in *. by subst.
      * right. split; [|by exists s]. intros <-.
        assert (Ht : sessions (sys_ep y) !! id = Some (u, p)) by (apply si_table0; by exists s). congruence.
  - intros sig u Hsr. destruct (Hrc sig u Hsr) as [Hne Hy]. destruct (si_recv0 sig u Hy).
    rewrite lookup_insert_ne by done. split; [done|lia].
Qed.

Lemma run_fresh y n : sys_inv y -> (next_uid (sys_ep y) <= n)%nat -> sys_run y !! n = None.
Proof.
  intros Hi Hn. destruct (sys_run y !! n) as [s|] eqn:Es; [|done].
  destruct (si_entry _ Hi n s Es). lia.
Qed.

(** ** A session's step *)

Lemma owners_split uid s y :
  sys_inv y -> sys_run y !! uid = Some s ->
  let O := run_owners (delete uid (sys_run y)) ∪ recv_owner y in
  uid ∉ O /\ owners_of y = owners uid O (releaseSlot s).
Proof.
  intros Hi Hl O. split.
  - intros Hin. apply elem_of_union in Hin as [Hin|Hin].
    + apply elem_run_owners in Hin as (s' & Hs' & _). by rewrite lookup_delete_eq in Hs'.
    + unfold recv_owner in Hin. destruct (sys_recv y) eqn:Er; try set_solver.
      destruct (si_recv _ Hi _ _ Er). apply elem_of_singleton in Hin. subst. congruence.
  - unfold owners_of, owners, O. rewrite <- (insert_id (sys_run y) uid s) at 1 by done.
    rewrite run_owners_insert. destruct (releaseSlot s); [|done]. apply leibniz_equiv. set_solver.
Qed.

Lemma sys_inv_go uid a s s' y :
  sys_inv y -> sys_run y !! uid = Some s -> session_step cfg a (present y s) = Some s' ->
  sys_inv (y <| sys_ep := ep s' |> <| sys_factory := factory s' |>
             <| sys_run := <[uid := s']> (sys_run y) |>).
Proof.
  intros Hi Hl Hs. destruct (owners_split uid s y Hi Hl) as [Hout Hown]. cbv zeta in Hout, Hown.
  set (O := run_owners (delete uid (sys_run y)) ∪ recv_owner y) in *.
  destruct (si_entry _ Hi uid s Hl) as [Hu Hold Hph Hst].
  assert (Hlive : finished s = false /\ pc s <> PcDone).
  { destruct Hst as [?|(Hf & Hd & _)]; [done|]. exfalso. destruct a as [| | |[]]; simpl in Hs; by rewrite Hd in Hs. }
  assert (Hc : closing uid (s_id s) (s_peer s) (s_role s) O (sessions (sys_ep y)) (next_uid (sys_ep y))
                 (view_of (present y s))).
  { split; [|done]. split; simpl; try done. rewrite <- Hown. apply Hi. }
  assert (Htab : sessions (sys_ep y) !! s_id s = Some (uid, s_peer s)).
  { apply (si_table _ Hi). exists s. by destruct Hlive. }
  destruct (session_step_slots cfg uid (s_id s) (s_peer s) (s_role s) O (sessions (sys_ep y))
    (next_uid (sys_ep y)) Hout a (present y s) s' Hs Hc Hph) as [Hph' Hv].
  assert (Hb : base uid (s_id s) (s_peer s) (s_role s) O (next_uid (sys_ep y)) (view_of s') /\
    (finished s' = false /\ pc s' <> PcDone /\ sessions (ep s') = sessions (sys_ep y) \/
     finished s' = true /\ pc s' = PcDone /\ releaseSlot s' = false /\
     sessions (ep s') = delete (s_id s) (sessions (sys_ep y)))).
  { destruct Hv as [(Hb & [Hf Hd] & Ht)|[Hb Hf Hd Ht Hsl]]; (split; [done|]); [by left|right].
    split_and!; try done. simpl in Ht. rewrite Ht. unfold without. rewrite Htab. by rewrite bool_decide_eq_true_2. }
  destruct Hb as [[Hu' Hid Hpe Hro Hinv Hnx] Hend]. simpl in *.
  constructor; simpl.
  - unfold owners_of, recv_owner. simpl. rewrite run_owners_insert.
    replace (_ ∪ _) with (owners uid O (releaseSlot s')); [done|].
    unfold owners, O, recv_owner. apply leibniz_equiv. destruct (releaseSlot s'); set_solver.
  - rewrite Hnx. intros u s1 Hs1. apply lookup_insert_Some in Hs1 as [[<- <-]|[Hne Hs1]].
    + constructor; try done. naive_solver.
    + by apply Hi.
  - intros id u p. destruct (decide (u = uid)) as [->|Hne].
    + rewrite lookup_insert_eq. destruct Hend as [(Hf & _ & ->)|(Hf & _ & _ & ->)].
      * rewrite (si_table _ Hi). rewrite Hl. split; intros (s1 & [= <-] & ? & ? & ?); eexists; split; try done;
          split_and!; try congruence. by destruct Hlive.
      * split; [|intros (s1 & [= <-] & _ & _ & ?); congruence].
        intros Hx. apply lookup_delete_Some in Hx as [Hne Hx]. apply (si_table _ Hi) in Hx as (s1 & Hs1 & ? & _).
        rewrite Hl in Hs1. simplify_eq.
    + rewrite lookup_insert_ne by done. rewrite <- (si_table _ Hi).
      destruct Hend as [(_ & _ & ->)|(_ & _ & _ & ->)]; [done|]. rewrite lookup_delete_Some.
      split; [by intros []|]. intros Hx. split; [|done]. intros <-. rewrite Htab in Hx. simplify_eq.
  - rewrite Hnx. intros sig u Hr. destruct (si_recv _ Hi sig u Hr) as [Hno Hlt]. split; [|done].
    rewrite lookup_insert_ne; [done|]. intros <-. congruence.
Qed.

(** ** The receive loop *)

Lemma recv_idle_owners y : (forall sig u, sys_recv y <> RecvAdd sig u) -> recv_owner y = ∅.
Proof. unfold recv_owner. intros Hn. destruct (sys_recv y) eqn:Er; try done. by destruct (Hn sig uid). Qed.

Lemma sys_inv_place y pl :
  (forall sig u, sys_recv y <> RecvAdd sig u) -> (forall sig u, pl <> RecvAdd sig u) ->
  sys_inv y -> sys_inv (y <| sys_recv := pl |>).
Proof.
  intros Hy Hp Hi. apply (sys_inv_places y); try done.
  - rewrite !recv_idle_owners; done.
  - intros sig u Hr. by destruct (Hp sig u).
Qed.

Lemma op_recv {A} (m : state_m (Endpoint W D) A) y : sys_recv (op m y) = sys_recv y.
Proof. unfold op, run_op. by destruct (m (sys_ep y)). Qed.

Lemma sys_inv_receive r y y' : sys_inv y -> receive_exec cfg r y = Some y' -> sys_inv y'.
Proof.
  unfold receive_exec. intros Hi. destruct (sys_recv y) eqn:Er; try done. destruct r as [sig|err].
  - pose proof (idle_route_lookup (W := W) (D := D) cfg sig) as Hm.
    pose proof (sys_inv_idle _ y Hm Hi) as Hi1. unfold op in Hi1.
    pose proof (op_recv (route_lookup cfg sig) y) as Hr1. unfold op in Hr1. rewrite Er in Hr1.
    destruct (run_op _ y) as [[| uid|] y1]; intros [= <-]; [done|by apply sys_inv_post|].
    simpl in Hr1. by apply sys_inv_place; [intros ? ?; rewrite Hr1| |].
  - intros [= <-]. apply sys_inv_place; [intros ? ?; by rewrite op_recv, Er|done|].
    apply sys_inv_idle; [apply (idle_receive_error cfg)|done].
Qed.

Lemma sys_inv_recv y y' : sys_inv y -> recv_exec cfg y = Some y' -> sys_inv y'.
Proof.
  unfold recv_exec. intros Hi. destruct (sys_recv y) as [|sig|sig|sig uid|] eqn:Er; try done.
  - pose proof (sys_inv_idle _ y (idle_calm _ (calmly_accept_check cfg sig)) Hi) as Hi1.
    pose proof (op_recv (accept_check cfg sig) y) as Hr1. unfold op in *. rewrite Er in Hr1.
    destruct (run_op _ y) as [ok y1]. intros [= <-].
    simpl in Hr1. apply sys_inv_place; [intros ? ?; by rewrite Hr1|by destruct ok|done].
  - rewrite run_op_mute by apply mute_accept_slot. intros [= <-].
    pose proof (accept_slot_inv cfg (owners_of y) sig (sys_ep y) (si_ep _ Hi)) as Ha.
    destruct (accept_slot cfg sig (sys_ep y)) as [[uid|] e] eqn:Ea; destruct Ha as [Hs Ha]; simpl.
    + destruct Ha as (-> & Hn & He). apply (sys_inv_ep y); simpl; try done; [|lia|].
      * unfold owners_of, recv_owner in *. simpl. rewrite Er in He.
        replace (_ ∪ {[_]}) with ({[next_uid (sys_ep y)]} ∪ (run_owners (sys_run y) ∪ ∅)); [done|].
        apply leibniz_equiv. set_solver.
      * intros sig' u [= _ <-]. split; [by apply run_fresh|lia].
    + destruct Ha as [He Hn]. apply (sys_inv_ep y); simpl; try done; [|lia].
      unfold owners_of, recv_owner in *. by rewrite Er in He.
  - intros [= <-]. destruct (si_recv _ Hi sig uid Er) as [Hno Hlt].
    assert (Hown : owners_of y = {[uid]} ∪ run_owners (sys_run y)).
    { unfold owners_of, recv_owner. rewrite Er. apply leibniz_equiv. set_solver. }
    assert (Hnr : uid ∉ run_owners (sys_run y)).
    { intros Hin. apply elem_run_owners in Hin as (s & Hs & _). congruence. }
    pose proof (accept_add_inv cfg (owners_of y) sig uid (sys_ep y)) as Ha.
    destruct (grows_accept_add cfg sig uid (sys_ep y)) as [l Hl].
    unfold wp, added in Ha. unfold op. rewrite (run_op_eq _ y l Hl). simpl.
    destruct (accept_add cfg sig uid (sys_ep y)) as [[] e]. simpl in *.
    destruct Ha as [Hn Ha]; [rewrite Hown; set_solver|apply Hi|].
    destruct Ha as [(He & Hs & Hef)|(He & Hfr & Hs & Hef)]; rewrite Hl, effects_app in Hef.
    + assert (effects l = []) as Hl0 by (apply (app_inv_head (effects (log (sys_ep y)))); by rewrite app_nil_r).
      rewrite <- orders_effects, Hl0. simpl. apply (sys_inv_ep y); simpl; try done; [|lia].
      unfold owners_of at 1, recv_owner. simpl. rewrite Hown in He.
      replace (_ ∪ ∅) with (({[uid]} ∪ run_owners (sys_run y)) ∖ {[uid]}); [done|].
      apply leibniz_equiv. set_solver.
    + apply app_inv_head in Hef. rewrite <- orders_effects, Hef. simpl.
      apply (sys_inv_spawn y _ uid (SessionID sig) (From sig) roleAnswerer (Some sig) (sys_factory y) e);
        simpl; try done; [lia|lia|].
      unfold owners_of at 1, recv_owner. simpl. rewrite run_owners_insert. simpl.
      rewrite delete_id by done. rewrite Hown in He. replace (_ ∪ ∅) with ({[uid]} ∪ run_owners (sys_run y)); [done|].
      apply leibniz_equiv. set_solver.
Qed.

(** ** The application's calls *)

Lemma sys_inv_dial ctx peer y : sys_inv y -> sys_inv (op (dial_start cfg ctx peer) y).
Proof.
  intros Hi. destruct (grows_dial_start cfg ctx peer (sys_ep y)) as [l Hl].
  pose proof (dial_start_inv cfg (owners_of y) ctx peer (sys_ep y) (si_ep _ Hi)) as Ha.
  unfold wp, dialled in Ha. unfold op. rewrite (run_op_eq _ y l Hl). simpl.
  destruct (dial_start cfg ctx peer (sys_ep y)) as [r e]. simpl in *. destruct Ha as (He & Hn & Ha).
  destruct Ha as [(Hs & Hef)|(id & Hfr & Hnx & Hs & Hef)]; rewrite Hl, effects_app in Hef.
  - assert (effects l = []) as Hl0 by (apply (app_inv_head (effects (log (sys_ep y)))); by rewrite app_nil_r).
    rewrite <- orders_effects, Hl0. simpl. apply (sys_inv_ep y); simpl; try done.
    intros sig u Hr. destruct (si_recv _ Hi sig u Hr). split; [done|lia].
  - apply app_inv_head in Hef. rewrite <- orders_effects, Hef. simpl.
    assert (Hno : sys_run y !! next_uid (sys_ep y) = None) by (by apply run_fresh).
    apply (sys_inv_spawn y _ (next_uid (sys_ep y)) id peer roleOfferer None (sys_factory y) e);
      simpl; try done; [lia| |].
    + unfold owners_of at 1, recv_owner. simpl. rewrite run_owners_insert. simpl.
      by rewrite delete_id by done.
    + intros sig u Hr. destruct (si_recv _ Hi sig u Hr). split; [lia|done].
Qed.

Lemma some_inv z y' : sys_inv z -> Some z = Some y' -> sys_inv y'.
Proof. congruence. Qed.

Lemma sys_inv_ln y y' : sys_inv y -> ln_exec y = Some y' -> sys_inv y'.
Proof.
  unfold ln_exec. intros Hi.
  assert (Hp : forall p y, sys_inv y -> sys_inv (y <| sys_ln := p |>)) by (intros p z Hz; by apply (sys_inv_places z)).
  destruct (sys_ln y).
  - destruct (ln (sys_ep y)); [|done]. apply some_inv. apply Hp, sys_inv_idle; [apply idle_ln_close_mark|done].
  - apply some_inv. apply Hp, sys_inv_idle; [apply idle_clearListener|done].
  - apply some_inv. apply Hp, sys_inv_op; [intros; by apply drain_inv|apply mute_drain|done].
  - done.
Qed.

Lemma sys_inv_close y y' : sys_inv y -> close_exec y = Some y' -> sys_inv y'.
Proof.
  unfold close_exec. intros Hi.
  assert (Hp : forall p z, sys_inv z -> sys_inv (z <| sys_close := p |>)) by (intros p z Hz; by apply (sys_inv_places z)).
  destruct (sys_close y) as [|uids b|[|uid uids]| |].
  - pose proof (sys_inv_idle _ y idle_close_mark Hi) as Hi1. unfold op in Hi1.
    destruct (run_op _ y) as [p y1]. apply some_inv. by apply Hp.
  - destruct (_ && _); [done|]. apply some_inv. by apply Hp.
  - apply some_inv. by apply Hp.
  - apply some_inv. by apply Hp, sys_inv_post.
  - apply some_inv. apply Hp, sys_inv_idle; [apply idle_close_end|done].
  - done.
Qed.

(** ** Every step *)

Lemma sys_exec_inv a y y' : sys_inv y -> sys_exec cfg a y = Some y' -> sys_inv y'.
Proof.
  intros Hi. destruct a as [uid a|r| | |c|ctx peer| |]; simpl.
  - destruct (sys_run y !! uid) as [s|] eqn:Es; [|done].
    destruct (session_step cfg a (present y s)) as [s'|] eqn:Ea; [|done].
    intros [= <-]. by eapply sys_inv_go.
  - by apply sys_inv_receive.
  - by apply sys_inv_recv.
  - intros [= <-]. apply sys_inv_op; [intros; by apply Listen_inv|apply mute_Listen|done].
  - intros [= <-]. apply sys_inv_op; [intros; by apply AcceptConn_inv|apply mute_AcceptConn|done].
  - intros [= <-]. by apply sys_inv_dial.
  - by apply sys_inv_ln.
  - by apply sys_inv_close.
Qed.

Lemma sys_step_inv y y' : sys_inv y -> sys_step cfg y y' -> sys_inv y'.
Proof.
  intros Hi Hs. destruct Hs as [a y y' Ha|uid s s' y Hl Hs|w y Hw].
  - by eapply sys_exec_inv.
  - apply sys_inv_alike; [|done]. intros u. destruct (decide (u = uid)) as [->|Hne].
    + rewrite lookup_insert_eq, Hl. simpl. f_equal. symmetry. by apply side_seen.
    + by rewrite lookup_insert_ne.
  - apply (sys_inv_ep y); try done; [|by apply Hi]. apply (ep_inv_frame _ _ (sys_ep y)); [apply Hi|].
    split_and!; try done. exists []. rewrite app_nil_r. split; [done|set_solver].
Qed.

Hypothesis backlog_nonneg : 0 <= AcceptBacklog cfg.

Lemma sys_init_inv f d w : sys_inv (sys_init f d w).
Proof.
  constructor; simpl; try done.
  - constructor; simpl; try done.
    + constructor.
    + unfold owners_of, recv_owner. simpl. intros u. rewrite elem_of_union, elem_run_owners. split; [set_solver|].
      intros [[(s & Hs & _)|Hu]|Hu]; set_solver.
    + set_solver.
  - intros id u peer. split; [done|]. intros (s & Hs & _). done.
Qed.

Lemma sys_reach_inv f d w y : sys_reach cfg (sys_init f d w) y -> sys_inv y.
Proof. intros Hr. induction Hr; [apply sys_init_inv|by eapply sys_step_inv]. Qed.
End inv.

(** ** A concrete system *)
Module YDemo.
(** A world whose clock stands still and whose sends succeed. *)
#[global] Instance demo_world : World unit := {|
  w_now _ := 0; w_rand16 w := (replicate 16 (byte_of 7), w); w_float64 w := (f_zero, w);
  w_Open _ w := (None, w); w_lock _ _ w := (None, w); w_Send _ w := (None, w);
  w_Close w := (None, w); w_evolves _ _ := True |}.

#[global] Instance demo_world_laws : WorldLaws unit.
Proof. by split. Defined.

Abbreviation sys := (system (Factory unit) (Peer Demo.pc) unit dedupeCache) (only parsing).

#[global] Instance demo_peer : PeerConn (Factory unit) (Peer Demo.pc) := adapter_peer (H := Demo.demo_rtc).
#[global] Instance demo_peer_laws : PeerLaws (Factory unit) (Peer Demo.pc) :=
  @adapter_peer_laws unit unit Demo.pc Demo.demo_rtc Demo.demo_laws.

Definition cfg : Config.Config := {|
  cfg_ID := "alice"; Signaler := true; Config.ICEServers := []; TransportPolicy := 0;
  DialTimeout := 30 * second; ICETimeout := 20 * second;
  KeepAlive := {| Interval := 15 * second; Timeout := 5 * second |};
  Reconnect := {| Enabled := true; MaxAttempts := 3; AttemptTimeout := 10 * second;
                  rp_Backoff := {| Initial := second; Maximum := 8 * second; Factor := f_two;
                                   Jitter := f_fifth |} |};
  AcceptBacklog := 1; AllowPeer := None; FramePayload := 1024; ReadBuffer := 4096 |}.

Definition start : sys := sys_init Demo.factory (newDedupeCache 16) tt.

Definition offer (id sid from : string) : Signal := {|
  Version := ProtocolVersion; ID := id; SessionID := sid; Kind := KindOffer; From := from; To := "alice";
  Payload := match encodePayload (PSdp {| sp_SDP := "offer" |}) with Ok raw => raw | Err _ => [] end |}.

Definition id1 : string := "fedcba9876543210fedcba9876543210".
Definition id2 : string := "0123456789abcdef0123456789abcdef".

(** An offer is admitted and answered. *)
Definition admission : list sys_act :=
  [AListen; AReceive (Ok (offer id1 id1 "bob")); ARecv; ARecv; ARecv; AGo 0 GoStart].

(** Its channel opens: the session queues the connection. *)
Definition opened : list sys_act := [AGo 0 (GoLoop SelBox)].

(** A second offer finds the backlog full. *)
Definition busy : list sys_act := [AReceive (Ok (offer id2 id2 "carol")); ARecv; ARecv].

Definition post_to (uid : nat) (ev : sessionEvent) (y : sys) : sys :=
  match sys_run y !! uid with
  | Some s => y <| sys_run := <[uid := post_event ev s]> (sys_run y) |>
  | None => y
  end.

(** The peer of session [uid] gets its data channel from the remote side. *)
Definition channel_to (uid : nat) (y : sys) : sys :=
  match sys_run y !! uid with
  | Some s =>
    match peerConn s with
    | Some p => y <| sys_run := <[uid := s <| peerConn :=
                    Some (snd (on_data_channel (H := Demo.demo_rtc) 2 p)) |>]> (sys_run y) |>
    | None => y
    end
  | None => y
  end.

Definition run (acts : list sys_act) (y : sys) : sys := default y (sys_execs cfg acts y).

Definition after_admit : sys := run admission start.
Definition after_open : sys :=
  run opened (post_to 0 (SevPion (event EventChannelOpen)) (channel_to 0
    (post_to 0 (SevPion (event EventConnected)) after_admit))).
Definition after_busy : sys := run busy after_open.
Definition after_accept : sys := run [AAccept CaseConn] after_busy.

Lemma run_reach acts y0 y : sys_reach cfg y0 y -> sys_reach cfg y0 (run acts y).
Proof.
  intros Hr. unfold run. destruct (sys_execs cfg acts y) as [y'|] eqn:Es; [|done].
  by eapply sys_execs_reach.
Qed.

Lemma post_reach uid ev y0 y :
  is_keepalive ev = false -> event_ok ev -> sys_reach cfg y0 y -> sys_reach cfg y0 (post_to uid ev y).
Proof.
  intros Hk He Hr. unfold post_to. destruct (sys_run y !! uid) as [s|] eqn:Es; [|done].
  eapply sys_next; [exact Hr|]. by apply (sys_side cfg uid s), side_post.
Qed.

Lemma channel_reach uid y0 y : sys_reach cfg y0 y -> sys_reach cfg y0 (channel_to uid y).
Proof.
  intros Hr. unfold channel_to. destruct (sys_run y !! uid) as [s|] eqn:Es; [|done].
  destruct (peerConn s) as [p|] eqn:Ep; [|done].
  eapply sys_next; [exact Hr|]. apply (sys_side cfg uid s); [done|]. apply (side_peer p); [done|].
  destruct p as [? [|] ? ?]; by split.
Qed.

Lemma busy_reach : sys_reach cfg start after_busy.
Proof. by repeat first [apply run_reach | apply post_reach | apply channel_reach | constructor]. Qed.
End YDemo.

Example YDemo_runs :
  (slots (sys_ep YDemo.after_admit), length (queue (sys_ep YDemo.after_admit))) = (1, 0%nat) /\
  (slots (sys_ep YDemo.after_busy), length (queue (sys_ep YDemo.after_busy)),
   sys_recv YDemo.after_busy) = (1, 1%nat, RecvIdle) /\
  (slots (sys_ep YDemo.after_accept), length (queue (sys_ep YDemo.after_accept))) = (0, 0%nat).
Proof. split_and!; vm_compute; reflexivity. Qed.

(** ** The theorems *)

Section theorems.
Context {F P W D : Type} `{PeerConn F P} `{World W} `{DupFilter D}.
Context `{!PeerLaws F P, !WorldLaws W}.
Variable cfg : Config.Config.
Implicit Types y : system F P W D.
Implicit Types s : session F P (Endpoint W D).

(** C8. Whatever the peers, the sessions and the application do, and however their steps
    interleave, the backlog is exactly accounted for: the slots in use are one for each
    session that still has its slot, one for each queued connection and one for the
    offer being admitted. They never exceed the configured backlog, nor does the accept
    queue, and so no established connection was ever refused because the queue was full. *)
Theorem backlog_never_overflows f d w y :
  0 <= AcceptBacklog cfg -> sys_reach cfg (sys_init f d w) y ->
  let holding := filter (fun p : nat * session F P (Endpoint W D) => releaseSlot (snd p) = true) (sys_run y) in
  let admitting := match sys_recv y with RecvAdd _ _ => 1 | _ => 0 end in
  slots (sys_ep y) = Z.of_nat (size holding) + zlen (queue (sys_ep y)) + admitting /\
  slots (sys_ep y) <= AcceptBacklog cfg /\ zlen (queue (sys_ep y)) <= AcceptBacklog cfg /\
  EQueueFull ∉ log (sys_ep y).
Proof.
  intros Hb Hr holding admitting. pose proof (sys_reach_inv cfg Hb f d w y Hr) as Hi.
  pose proof (si_ep _ _ Hi) as He.
  assert (Hs : slots (sys_ep y) = Z.of_nat (size holding) + zlen (queue (sys_ep y)) + admitting).
  { unfold zlen. rewrite (ei_slots _ _ _ He), <- (tokens_length _ _ _ He).
    rewrite (held_size _ _ _ He). unfold owners_of, holding.
    rewrite size_union, <- size_dom.
    - fold (run_owners (sys_run y)). unfold recv_owner, admitting.
      destruct (sys_recv y); rewrite ?size_empty, ?size_singleton; unfold zlen; lia.
    - intros u Hu Hv. unfold recv_owner in Hv. destruct (sys_recv y) eqn:Er; try set_solver.
      apply elem_of_singleton in Hv as ->. destruct (si_recv _ _ Hi _ _ Er) as [Hn _].
      apply elem_run_owners in Hu as (s & Hs & _). congruence. }
  pose proof (ei_bound _ _ _ He). split; [done|]. split; [done|]. split; [|apply He].
  unfold admitting, zlen in *. destruct (sys_recv y); lia.
Qed.

(** C9. The session table is exact at every moment: a session is registered, under its ID
    and with its peer, if and only if its goroutine has not ended. So a signal is handed
    to the live session of its ID and of no other peer, two live sessions never share an
    ID, and a session that ended does not stay behind or remove its successor. *)
Theorem session_table_exact f d w y :
  0 <= AcceptBacklog cfg -> sys_reach cfg (sys_init f d w) y ->
  (forall id u peer, sessions (sys_ep y) !! id = Some (u, peer) <->
     exists s, sys_run y !! u = Some s /\ s_id s = id /\ s_peer s = peer /\ pc s <> PcDone) /\
  (forall u v s s', sys_run y !! u = Some s -> sys_run y !! v = Some s' -> s_id s = s_id s' ->
     pc s <> PcDone -> pc s' <> PcDone -> u = v).
Proof.
  intros Hb Hr. pose proof (sys_reach_inv cfg Hb f d w y Hr) as Hi.
  assert (Ht : forall id u peer, sessions (sys_ep y) !! id = Some (u, peer) <->
     exists s, sys_run y !! u = Some s /\ s_id s = id /\ s_peer s = peer /\ pc s <> PcDone).
  { intros id u peer. rewrite (si_table _ _ Hi).
    split; intros (s & Hs & ? & ? & Hd); exists s; (split; [done|]); split_and!; try done;
      destruct (en_state _ _ _ (si_entry _ _ Hi u s Hs)) as [[? ?]|(? & ? & _)]; congruence. }
  split; [done|]. intros u v s s' Hu Hv Hid Hd Hd'.
  assert (A : sessions (sys_ep y) !! s_id s = Some (u, s_peer s)) by (apply Ht; by exists s).
  assert (B : sessions (sys_ep y) !! s_id s = Some (v, s_peer s')) by (apply Ht; by exists s').
  congruence.
Qed.

End theorems.

Example backlog_never_overflows_witness :
  slots (sys_ep YDemo.after_busy) = 1 /\ EQueueFull ∉ log (sys_ep YDemo.after_busy).
Proof.
  destruct (backlog_never_overflows YDemo.cfg Demo.factory (newDedupeCache 16) tt YDemo.after_busy
    ltac:(by vm_compute) YDemo.busy_reach) as (Hs & _ & _ & Hf). split; [|exact Hf].
  rewrite Hs. vm_compute. reflexivity.
Defined.

Example session_table_exact_witness :
  exists s, sys_run YDemo.after_busy !! 0%nat = Some s /\ s_id s = YDemo.id1 /\
    s_peer s = "bob"%string /\ pc s <> PcDone.
Proof.
  destruct (session_table_exact YDemo.cfg Demo.factory (newDedupeCache 16) tt YDemo.after_busy
    ltac:(by vm_compute) YDemo.busy_reach) as [Ht _].
  apply (Ht YDemo.id1 0%nat "bob"%string). vm_compute. reflexivity.
Defined.
