(* ===== verification/SsePeer.v ===== *)
(** * A peer's queue on the signaling server (signaling/sse/server.go)

    [peer] is the record of one peer: its sequence numbers, the log of entries not yet
    delivered plus a replay window, and the stream they go to. Each operation is one
    critical section of [peer.mu]. An attachment is known by a number; an operation that
    calls [end] or [poke] on one returns its number. The reaper is [armed] while its timer
    runs. [preach] is any sequence of operations in which every attachment is attached
    once, as the handlers do. Theorems: a stream is given a contiguous part of what was
    accepted, each entry once and in order, resuming after the client's last event
    ([stream_contiguous]); the log is bounded ([peer_memory_bounded]). *)

From Stdlib Require Import String.
From S2P Require Import Prelude.

(** The fields of [Config] but the authenticator, which the server takes beside it. *)
Record Config := {
  QueueSize : Z; ReplayDepth : Z; OfflineGrace : Z; KeepAlive : Z; MaxPeers : Z
}.

Record entry := { e_id : Z; e_data : bytes }.

Record peer := {
  p_id : string;
  seq : Z; sentUpTo : Z;
  plog : list entry;
  stream : option nat;
  armed : bool;
  down : bool
}.

#[export] Instance peer_eta : Eta peer := fun p => {|
  p_id := p_id p; seq := seq p; sentUpTo := sentUpTo p; plog := plog p; stream := stream p;
  armed := armed p; down := down p |}.

Definition newPeer (id : string) : peer := {|
  p_id := id; seq := 0; sentUpTo := 0; plog := []; stream := None; armed := true; down := false |}.

Section ops.
Variable cfg : Config.

(** Whether there was room, and the stream to poke. *)
Definition enqueue (data : bytes) (p : peer) : bool * option nat * peer :=
  if down p then (false, None, p)
  else if u64 (QueueSize cfg) <=? u64 (seq p - sentUpTo p) then (false, None, p)
  else
    let n := u64 (seq p + 1) in
    (true, stream p, p <| seq := n |> <| plog := plog p ++ [{| e_id := n; e_data := data |}] |>).

(** The stream that is told it was replaced. *)
Definition attach (att : nat) (lastID : Z) (p : peer) : option nat * peer :=
  let ended := stream p in
  let p := p <| stream := Some att |> <| armed := false |> in
  let p :=
    if lastID <? sentUpTo p then
      let floor := match plog p with [] => seq p | e :: _ => u64 (e_id e - 1) end in
      p <| sentUpTo := Z.max lastID floor |>
    else p in
  (ended, p).

Definition detach (att : nat) (p : peer) : peer :=
  if bool_decide (stream p = Some att) then
    let p := p <| stream := None |> in
    if down p then p else p <| armed := true |>
  else p.

(** The entries from the first one above [sent]. *)
Fixpoint unsent (sent : Z) (l : list entry) : list entry :=
  match l with
  | [] => []
  | e :: l' => if sent <? e_id e then l else unsent sent l'
  end.

Definition takeUnsent (att : nat) (p : peer) : list entry * peer :=
  if bool_decide (stream p = Some att) then
    let out := unsent (sentUpTo p) (plog p) in
    let p := match last out with Some e => p <| sentUpTo := e_id e |> | None => p end in
    let extra := zlen (plog p) - ReplayDepth cfg in
    (out, if 0 <? extra then p <| plog := drop (Z.to_nat extra) (plog p) |> else p)
  else ([], p).

(** Whether the peer is now to be forgotten. *)
Definition expire (p : peer) : bool * peer :=
  if bool_decide (stream p <> None) || down p then (false, p)
  else (true, p <| down := true |> <| plog := [] |>).

(** The stream that is told of the shutdown. *)
Definition shutdown (p : peer) : option nat * peer :=
  (stream p, p <| down := true |> <| plog := [] |> <| armed := false |> <| stream := None |>).

(** ** Runs *)

Inductive pop := OEnqueue (data : bytes) | OAttach (att : nat) (lastID : Z) | ODetach (att : nat)
| OTake (att : nat) | OExpire | OShutdown.

(** What an operation did: [PAttached att k] resumes after sequence number [k]. *)
Inductive pev := PAccepted (data : bytes) | PAttached (att : nat) (k : Z)
| PTook (att : nat) (es : list entry).

Definition pexec (o : pop) (p : peer) : list pev * peer :=
  match o with
  | OEnqueue data => let '(ok, _, p) := enqueue data p in (if ok then [PAccepted data] else [], p)
  | OAttach att lastID => let p := snd (attach att lastID p) in ([PAttached att (sentUpTo p)], p)
  | ODetach att => ([], detach att p)
  | OTake att => let '(es, p) := takeUnsent att p in ([PTook att es], p)
  | OExpire => ([], snd (expire p))
  | OShutdown => ([], snd (shutdown p))
  end.

Definition accepted (tr : list pev) : list bytes :=
  omap (fun ev => match ev with PAccepted d => Some d | _ => None end) tr.

Definition delivered (att : nat) (tr : list pev) : list entry :=
  mjoin ((fun ev => match ev with PTook a es => if bool_decide (a = att) then es else [] | _ => [] end) <$> tr).

Definition attached (tr : list pev) : list nat :=
  omap (fun ev => match ev with PAttached a _ => Some a | _ => None end) tr.

Inductive preach (id : string) : peer -> list pev -> Prop :=
| preach_new : preach id (newPeer id) []
| preach_step o p tr : preach id p tr ->
    (forall att lastID, o = OAttach att lastID -> att ∉ attached tr /\ 0 <= lastID) ->
    preach id (snd (pexec o p)) (tr ++ fst (pexec o p)).

Fixpoint prun (os : list pop) (p : peer) (tr : list pev) : peer * list pev :=
  match os with
  | [] => (p, tr)
  | o :: os => prun os (snd (pexec o p)) (tr ++ fst (pexec o p))
  end.

(** Everything accepted, with the sequence numbers it got. *)
Definition number (acc : list bytes) : list entry :=
  imap (fun i d => {| e_id := Z.of_nat (S i); e_data := d |}) acc.
End ops.

(** ** Numbered entries *)

Lemma number_length acc : List.length (number acc) = List.length acc.
Proof. apply length_imap. Qed.

Lemma number_snoc acc d :
  number (acc ++ [d]) = number acc ++ [{| e_id := Z.of_nat (S (List.length acc)); e_data := d |}].
Proof.
  unfold number. rewrite imap_app. f_equal. cbn [imap]. unfold compose. by rewrite Nat.add_0_r.
Qed.

Lemma number_lookup acc i e : number acc !! i = Some e -> e_id e = Z.of_nat (S i) /\ (i < List.length acc)%nat.
Proof.
  unfold number. rewrite list_lookup_imap. intros Hi. apply fmap_Some in Hi as (d & Hd & ->).
  split; [done|]. by apply lookup_lt_Some in Hd.
Qed.

(** Entries [k + 1] to [k + m]. *)
Definition slice (k m : nat) (acc : list bytes) : list entry := take m (drop k (number acc)).

Lemma slice_app k m acc acc' :
  (k + m <= List.length acc)%nat -> slice k m (acc ++ acc') = slice k m acc.
Proof.
  intros Hl. unfold slice, number. rewrite imap_app.
  rewrite drop_app_le by (rewrite length_imap; lia). rewrite take_app_le; [done|].
  rewrite length_drop, length_imap. lia.
Qed.

Lemma slice_rest k m acc :
  (k + m <= List.length acc)%nat ->
  slice k m acc ++ drop (k + m) (number acc) = slice k (List.length acc - k) acc.
Proof.
  intros Hl. unfold slice. rewrite <- drop_drop, take_drop.
  rewrite take_ge; [done|]. rewrite length_drop, number_length. lia.
Qed.

Lemma unsent_number s j acc :
  0 <= s -> unsent s (drop j (number acc)) = drop (Nat.max j (Z.to_nat s)) (number acc).
Proof.
  intros Hs. remember (List.length acc - j)%nat as n eqn:Hn. revert j Hn. induction n as [|n IH]; intros j Hn.
  - rewrite !drop_ge by (rewrite number_length; lia). done.
  - destruct (lookup_lt_is_Some_2 (number acc) j) as [e He]; [rewrite number_length; lia|].
    destruct (number_lookup _ _ _ He) as [Hid _]. rewrite (drop_S _ _ _ He). cbn [unsent]. rewrite Hid.
    destruct (Z.ltb_spec s (Z.of_nat (S j))).
    + replace (Nat.max j (Z.to_nat s)) with j by lia. by rewrite (drop_S _ _ _ He).
    + rewrite IH by lia. f_equal. lia.
Qed.

Lemma last_number s acc :
  (s < List.length acc)%nat ->
  exists e, last (drop s (number acc)) = Some e /\ e_id e = zlen acc.
Proof.
  intros Hs. rewrite last_lookup, lookup_drop, length_drop, number_length.
  replace (s + pred (List.length acc - s))%nat with (pred (List.length acc)) by lia.
  destruct (lookup_lt_is_Some_2 (number acc) (pred (List.length acc))) as [e He]; [rewrite number_length; lia|].
  exists e. split; [done|]. destruct (number_lookup _ _ _ He) as [-> _]. unfold zlen. lia.
Qed.

(** ** The invariant *)

Section inv.
Variable cfg : Config.
Hypothesis HQ : 0 < QueueSize cfg < 2 ^ 63.
Hypothesis HR : 0 <= ReplayDepth cfg.

(** What a stream was given: entries [k + 1] to [k + m]. *)
Definition given (att : nat) (k m : nat) (tr : list pev) : Prop :=
  (k + m <= List.length (accepted tr))%nat /\ delivered att tr = slice k m (accepted tr).

Record pinv (p : peer) (tr : list pev) : Prop := {
  pi_seq : seq p = zlen (accepted tr);
  pi_sent : 0 <= sentUpTo p <= seq p;
  pi_log : exists j, (j <= List.length (accepted tr))%nat /\
    plog p = if down p then [] else drop j (number (accepted tr));
  pi_unsent : down p = false -> seq p - sentUpTo p <= zlen (plog p);
  pi_replay : down p = false -> Z.min (ReplayDepth cfg) (seq p) <= zlen (plog p);
  pi_window : zlen (plog p) <= ReplayDepth cfg + (seq p - sentUpTo p);
  pi_bound : zlen (plog p) <= ReplayDepth cfg + QueueSize cfg;
  pi_stream : forall att, stream p = Some att -> att ∈ attached tr;
  pi_fresh : forall att, att ∉ attached tr -> delivered att tr = [];
  pi_given : forall att k, PAttached att k ∈ tr -> 0 <= k /\ exists m, given att (Z.to_nat k) m tr /\
    (stream p = Some att -> down p = false -> k <= sentUpTo p /\ m = Z.to_nat (sentUpTo p - k))
}.

Lemma paccepted_app tr tr' : accepted (tr ++ tr') = accepted tr ++ accepted tr'.
Proof. apply omap_app. Qed.

Lemma attached_app tr tr' : attached (tr ++ tr') = attached tr ++ attached tr'.
Proof. apply omap_app. Qed.

Lemma delivered_app att tr tr' : delivered att (tr ++ tr') = delivered att tr ++ delivered att tr'.
Proof. unfold delivered. by rewrite fmap_app, join_app. Qed.

Lemma attached_in tr att k : PAttached att k ∈ tr -> att ∈ attached tr.
Proof. intros Hin. apply list_elem_of_omap. by exists (PAttached att k). Qed.

(** An operation that delivers nothing, accepts nothing and keeps the log of a live peer. *)
Lemma pinv_quiet p p' tr :
  pinv p tr -> seq p' = seq p -> sentUpTo p' = sentUpTo p ->
  (down p' = down p /\ plog p' = plog p \/ down p' = true /\ plog p' = []) ->
  (stream p' = stream p \/ stream p' = None) -> pinv p' tr.
Proof.
  intros [I1 I2 (j & Hj & Hlog) I4 I5 I6 I7 I8 I9 I10] Hs Hu Hl Hst.
  assert (Hz : zlen (@nil entry) = 0) by done.
  split; rewrite ?Hs, ?Hu; try done.
  - exists j. split; [done|]. destruct Hl as [[-> ->]|[-> ->]]; done.
  - intros Hd. destruct Hl as [[Hd' ->]|[Hd' _]]; [|congruence]. apply I4. congruence.
  - intros Hd. destruct Hl as [[Hd' ->]|[Hd' _]]; [|congruence]. apply I5. congruence.
  - destruct Hl as [[_ ->]|[_ ->]]; [done|lia].
  - destruct Hl as [[_ ->]|[_ ->]]; [done|lia].
  - intros att Ha. apply I8. destruct Hst; congruence.
  - intros att k Hin. destruct (I10 att k Hin) as (Hk & m & Hg & Hcur). split; [done|].
    exists m. split; [done|]. intros Hst' Hd'. apply Hcur; [destruct Hst; congruence|].
    destruct Hl as [[Hd _]|[Hd _]]; congruence.
Qed.

Lemma pinv_new id : pinv (newPeer id) [].
Proof.
  split; simpl; try done; try (unfold zlen; simpl; lia).
  - by exists 0%nat.
  - intros att k Hin. by apply not_elem_of_nil in Hin.
Qed.

Lemma given_mono att k m tr tr' :
  accepted tr' = [] -> delivered att tr' = [] -> given att k m tr -> given att k m (tr ++ tr').
Proof.
  intros Ha Hd [Hl Hg]. unfold given. by rewrite paccepted_app, delivered_app, Ha, Hd, !app_nil_r.
Qed.

Lemma pinv_enqueue d p tr :
  pinv p tr -> zlen (accepted (tr ++ fst (pexec cfg (OEnqueue d) p))) < 2 ^ 64 ->
  pinv (snd (pexec cfg (OEnqueue d) p)) (tr ++ fst (pexec cfg (OEnqueue d) p)).
Proof.
  intros I. pose proof I as [I1 I2 (j & Hj & Hlog) I4 I5 I6 I7 I8 I9 I10].
  cbn [pexec]. unfold enqueue.
  destruct (down p) eqn:Hd; [intros _; by rewrite app_nil_r|].
  destruct (Z.leb_spec (u64 (QueueSize cfg)) (u64 (seq p - sentUpTo p))) as [Hq|Hq];
    [intros _; by rewrite app_nil_r|].
  simpl. rewrite paccepted_app, zlen_app. change (zlen (accepted [PAccepted d])) with 1. intros Hn.
  specialize (I4 eq_refl). specialize (I5 eq_refl).
  pose proof (zlen_nonneg (accepted tr)).
  rewrite !u64_small in Hq by lia.
  assert (Hu : u64 (seq p + 1) = seq p + 1) by (apply u64_small; lia). rewrite Hu.
  assert (Hz : zlen (plog p ++ [{| e_id := seq p + 1; e_data := d |}]) = zlen (plog p) + 1)
    by (rewrite zlen_app; done).
  split; simpl; rewrite ?Hz, ?paccepted_app, ?zlen_app, ?attached_app, ?Hd; simpl;
    change (zlen [d]) with 1; rewrite ?app_nil_r;
    try match goal with |- false = false -> _ => intros _ end; try lia.
  - exists j. rewrite length_app. split; [lia|]. rewrite number_snoc, drop_app_le by (rewrite number_length; lia).
    rewrite Hlog. do 3 f_equal. rewrite I1. unfold zlen. lia.
  - done.
  - intros att Ha. rewrite delivered_app, I9 by done. done.
  - intros att k Hin. apply elem_of_app in Hin as [Hin|Hin]; [|by apply list_elem_of_singleton in Hin].
    destruct (I10 att k Hin) as (Hk & m & [Hm Hg] & Hcur). split; [done|]. exists m.
    split; [|intros Hst _; by apply Hcur].
    unfold given. rewrite paccepted_app, delivered_app, length_app. split; [lia|].
    rewrite slice_app by done. by rewrite Hg, app_nil_r.
Qed.

Lemma attach_sent lastID p tr att :
  pinv p tr -> zlen (accepted tr) < 2 ^ 64 -> 0 <= lastID ->
  let p' := snd (attach att lastID p) in
  plog p' = plog p /\ seq p' = seq p /\ down p' = down p /\ stream p' = Some att /\
  0 <= sentUpTo p' <= seq p /\ seq p - sentUpTo p' >= 0 /\
  (down p = false -> sentUpTo p' <= sentUpTo p /\ seq p - sentUpTo p' <= zlen (plog p)) /\
  sentUpTo p' = if lastID <? sentUpTo p then Z.max lastID (seq p - zlen (plog p)) else sentUpTo p.
Proof.
  intros [I1 I2 (j & Hj & Hlog) I4 I5 I6 I7 I8 I9 I10] Hn Hl. unfold attach. cbn.
  destruct (Z.ltb_spec lastID (sentUpTo p)); simpl; [|repeat split; try done; try lia; auto].
  assert (Hfl : match plog p with [] => seq p | e :: _ => u64 (e_id e - 1) end = seq p - zlen (plog p)).
  { destruct (plog p) as [|e l] eqn:El; [unfold zlen; simpl; lia|]. destruct (down p); [discriminate|].
    assert (He : number (accepted tr) !! j = Some e).
    { pose proof (lookup_drop (number (accepted tr)) j 0) as Hx. rewrite <- Hlog in Hx. simpl in Hx.
      rewrite Nat.add_0_r in Hx. done. }
    destruct (number_lookup _ _ _ He) as [-> Hlt]. rewrite u64_small by (unfold zlen in *; lia).
    rewrite Hlog, I1. unfold zlen. rewrite length_drop, number_length. lia. }
  rewrite Hfl. pose proof (zlen_nonneg (plog p)). repeat split; try done; try lia;
    specialize (I4 ltac:(assumption)); lia.
Qed.

Lemma pinv_attach att lastID p tr :
  pinv p tr -> zlen (accepted tr) < 2 ^ 64 -> 0 <= lastID -> att ∉ attached tr ->
  pinv (snd (pexec cfg (OAttach att lastID) p)) (tr ++ fst (pexec cfg (OAttach att lastID) p)).
Proof.
  intros I Hn Hl Hf. pose proof (attach_sent lastID p tr att I Hn Hl) as Ha. cbn [pexec fst snd] in *.
  set (p' := snd (attach att lastID p)) in *. destruct Ha as (Hlog' & Hs' & Hd' & Hst' & Hb & _ & Hlive & _).
  destruct I as [I1 I2 (j & Hj & Hlog) I4 I5 I6 I7 I8 I9 I10].
  assert (Hacc : accepted (tr ++ [PAttached att (sentUpTo p')]) = accepted tr)
    by (rewrite paccepted_app; apply app_nil_r).
  assert (Hdel : forall a, delivered a (tr ++ [PAttached att (sentUpTo p')]) = delivered a tr)
    by (intros a; rewrite delivered_app; apply app_nil_r).
  split; rewrite ?Hlog', ?Hs', ?Hd', ?Hacc; try done.
  - by exists j.
  - intros Hd. by apply Hlive.
  - destruct (down p) eqn:Hd; [|specialize (Hlive eq_refl); lia]. rewrite Hlog. change (zlen []) with 0. lia.
  - intros a [= <-]%(eq_trans (eq_sym Hst')). rewrite attached_app, elem_of_app. right. by left.
  - intros a Hn'. rewrite Hdel. apply I9. intros Hin. apply Hn'. rewrite attached_app, elem_of_app. by left.
  - intros a k Hin. unfold given. rewrite Hacc, Hdel. apply elem_of_app in Hin as [Hin|Hin].
    + destruct (I10 a k Hin) as (Hk & m & Hg & _). split; [done|]. exists m. split; [done|].
      intros Ha. apply attached_in in Hin. congruence.
    + apply list_elem_of_singleton in Hin as [= -> ->]. split; [lia|]. exists 0%nat.
      split; [|intros _ _; lia]. rewrite I9 by done. unfold slice. split; [unfold zlen in *; lia|done].
Qed.

Lemma take_out p tr att :
  pinv p tr -> stream p = Some att ->
  fst (takeUnsent cfg att p) =
    if down p then [] else drop (Z.to_nat (sentUpTo p)) (number (accepted tr)).
Proof.
  intros [I1 I2 (j & Hj & Hlog) I4 I5 I6 I7 I8 I9 I10] Hst. unfold takeUnsent.
  rewrite bool_decide_eq_true_2 by done. simpl. rewrite Hlog. destruct (down p); [done|].
  rewrite unsent_number by lia. f_equal. specialize (I4 eq_refl). rewrite Hlog in I4.
  unfold zlen in *. rewrite length_drop, number_length in I4. lia.
Qed.

(** What a take leaves: everything is marked sent and the replay window is kept. *)
Lemma take_after p tr att :
  pinv p tr -> stream p = Some att -> down p = false ->
  let p' := snd (takeUnsent cfg att p) in
  sentUpTo p' = seq p /\ seq p' = seq p /\ stream p' = stream p /\ down p' = false /\
  zlen (plog p') = Z.min (ReplayDepth cfg) (zlen (plog p)) /\
  exists i, plog p' = drop i (plog p).
Proof.
  intros I Hst Hd p'. pose proof (take_out _ _ _ I Hst) as Ho. rewrite Hd in Ho.
  destruct I as [I1 I2 _ _ _ _ _ _ _ _].
  set (out := drop (Z.to_nat (sentUpTo p)) (number (accepted tr))) in *.
  set (q := match last out with Some e => p <| sentUpTo := e_id e |> | None => p end).
  assert (Hp : p' = if 0 <? zlen (plog q) - ReplayDepth cfg
    then q <| plog := drop (Z.to_nat (zlen (plog q) - ReplayDepth cfg)) (plog q) |> else q).
  { unfold p', takeUnsent in *. rewrite bool_decide_eq_true_2 in Ho by done.
    rewrite bool_decide_eq_true_2 by done. cbn [fst snd] in *. by rewrite Ho. }
  assert (Hq : sentUpTo q = seq p /\ seq q = seq p /\ stream q = stream p /\ down q = false /\ plog q = plog p).
  { unfold q, out. destruct (decide (Z.to_nat (sentUpTo p) < List.length (accepted tr))%nat) as [Hlt|Hge].
    - destruct (last_number _ _ Hlt) as (e & -> & He). simpl. repeat split; try done. by rewrite I1.
    - rewrite drop_ge by (rewrite number_length; lia). simpl. repeat split; try done. unfold zlen in *. lia. }
  destruct Hq as (Hq1 & Hq2 & Hq3 & Hq4 & Hq5). rewrite Hp, Hq5. clear Hp.
  destruct (Z.ltb_spec 0 (zlen (plog p) - ReplayDepth cfg)); simpl; rewrite ?Hq1, ?Hq2, ?Hq3, ?Hq4, ?Hq5;
    repeat split; try done.
  - unfold zlen in *. rewrite length_drop. lia.
  - eauto.
  - lia.
  - by exists 0%nat.
Qed.
Lemma take_not_current att p : stream p <> Some att -> takeUnsent cfg att p = ([], p).
Proof. intros H. unfold takeUnsent. by rewrite bool_decide_eq_false_2. Qed.

Lemma take_down p tr att :
  pinv p tr -> stream p = Some att -> down p = true ->
  takeUnsent cfg att p = ([], p).
Proof.
  intros [I1 I2 (j & Hj & Hlog) I4 I5 I6 I7 I8 I9 I10] Hst Hd. unfold takeUnsent.
  rewrite bool_decide_eq_true_2 by done. rewrite Hd in Hlog. rewrite Hlog. cbn.
  rewrite Hlog. change (zlen []) with 0. rewrite (proj2 (Z.ltb_ge _ _)) by lia. done.
Qed.

Lemma delivered_took a att es tr :
  delivered a (tr ++ [PTook att es]) = delivered a tr ++ if bool_decide (att = a) then es else [].
Proof. rewrite delivered_app. f_equal. unfold delivered. cbn. by rewrite app_nil_r. Qed.

Lemma given_took a att k m es tr :
  (att = a -> es = []) -> given a k m tr -> given a k m (tr ++ [PTook att es]).
Proof.
  intros He [Hl Hg]. unfold given. rewrite paccepted_app, delivered_took. change (accepted [PTook att es]) with (@nil bytes).
  rewrite app_nil_r, Hg. split; [done|]. case_bool_decide; [rewrite He by done|]; by rewrite app_nil_r.
Qed.

Lemma pinv_took_nothing p tr att : pinv p tr -> pinv p (tr ++ [PTook att []]).
Proof.
  intros [I1 I2 I3 I4 I5 I6 I7 I8 I9 I10].
  assert (Hacc : accepted (tr ++ [PTook att []]) = accepted tr) by (rewrite paccepted_app; apply app_nil_r).
  assert (Hatt : attached (tr ++ [PTook att []]) = attached tr) by (rewrite attached_app; apply app_nil_r).
  split; rewrite ?Hacc, ?Hatt; try done.
  - intros a Ha. rewrite delivered_took, I9 by done. by case_bool_decide.
  - intros a k Hin. apply elem_of_app in Hin as [Hin|Hin]; [|by apply list_elem_of_singleton in Hin].
    destruct (I10 a k Hin) as (Hk & m & Hg & Hc). split; [done|]. exists m. split; [by apply given_took|done].
Qed.

Lemma pinv_take att p tr :
  pinv p tr -> pinv (snd (pexec cfg (OTake att) p)) (tr ++ fst (pexec cfg (OTake att) p)).
Proof.
  intros I. cbn [pexec].
  destruct (decide (stream p = Some att)) as [Hst|Hst];
    [|rewrite take_not_current by done; by apply pinv_took_nothing].
  destruct (down p) eqn:Hd; [rewrite (take_down p tr) by done; by apply pinv_took_nothing|].
  pose proof (take_out _ _ _ I Hst) as Ho. rewrite Hd in Ho.
  pose proof (take_after _ _ _ I Hst Hd) as (A1 & A2 & A3 & A4 & A5 & i & A6).
  destruct (takeUnsent cfg att p) as [es p']. cbn [fst snd] in *. subst es.
  pose proof I as [I1 I2 (j & Hj & Hlog) I4 I5 I6 I7 I8 I9 I10]. rewrite Hd in Hlog.
  specialize (I4 Hd). specialize (I5 Hd).
  assert (Hacc : accepted (tr ++ [PTook att (drop (Z.to_nat (sentUpTo p)) (number (accepted tr)))]) = accepted tr)
    by (rewrite paccepted_app; apply app_nil_r).
  assert (Hatt : attached (tr ++ [PTook att (drop (Z.to_nat (sentUpTo p)) (number (accepted tr)))]) = attached tr)
    by (rewrite attached_app; apply app_nil_r).
  split; rewrite ?Hacc, ?Hatt, ?A1, ?A2, ?A3, ?A4, ?A5; try done; try lia.
  - exists (Nat.min (j + i) (List.length (accepted tr))). split; [lia|]. rewrite A6, Hlog, drop_drop.
    destruct (Nat.min_spec (j + i) (List.length (accepted tr))) as [[_ ->]|[? ->]]; [done|].
    by rewrite !drop_ge by (rewrite number_length; lia).
  - intros a Ha. rewrite delivered_took, I9 by done. case_bool_decide; [|done]. subst a. destruct Ha. auto.
  - intros a k Hin. apply elem_of_app in Hin as [Hin|Hin]; [|by apply list_elem_of_singleton in Hin].
    destruct (I10 a k Hin) as (Hk & m & Hg & Hcur). split; [done|].
    destruct (decide (att = a)) as [<-|Hne].
    + destruct (Hcur Hst Hd) as [Hks ->]. exists (Z.to_nat (seq p - k)).
      split; [|intros _ _; split; [lia|done]]. destruct Hg as [Hl Hg]. split; [rewrite Hacc; unfold zlen in *; lia|].
      rewrite Hacc, delivered_took, bool_decide_eq_true_2, Hg by done.
      pose proof (slice_rest _ _ _ Hl) as Hr.
      replace (Z.to_nat k + Z.to_nat (sentUpTo p - k))%nat with (Z.to_nat (sentUpTo p)) in Hr by lia.
      rewrite Hr. f_equal. unfold zlen in *. lia.
    + exists m. split; [by apply given_took|]. intros Ha. congruence.
Qed.

Lemma pexec_inv o p tr :
  pinv p tr -> zlen (accepted (tr ++ fst (pexec cfg o p))) < 2 ^ 64 ->
  (forall att lastID, o = OAttach att lastID -> att ∉ attached tr /\ 0 <= lastID) ->
  pinv (snd (pexec cfg o p)) (tr ++ fst (pexec cfg o p)).
Proof.
  intros I Hn Hf. destruct o as [d|att lastID|att|att| |].
  - by apply pinv_enqueue.
  - destruct (Hf att lastID eq_refl). apply pinv_attach; try done.
    revert Hn. cbn [pexec fst]. rewrite paccepted_app, zlen_app. unfold zlen. simpl. lia.
  - cbn [pexec fst snd]. rewrite app_nil_r. unfold detach. case_bool_decide; [|done]. simpl.
    destruct (down p) eqn:Hd; apply (pinv_quiet p); simpl; auto; left; by rewrite ?Hd.
  - by apply pinv_take.
  - cbn [pexec fst snd]. rewrite app_nil_r. unfold expire.
    destruct (bool_decide _ || down p); [done|]. apply (pinv_quiet p); simpl; auto.
  - cbn [pexec fst snd]. rewrite app_nil_r. apply (pinv_quiet p); simpl; auto.
Qed.

Lemma accepted_prefix_bound tr tr' b : zlen (accepted (tr ++ tr')) < b -> zlen (accepted tr) < b.
Proof. rewrite paccepted_app, zlen_app. pose proof (zlen_nonneg (accepted tr')). lia. Qed.

Lemma preach_inv id p tr : preach cfg id p tr -> zlen (accepted tr) < 2 ^ 64 -> pinv p tr.
Proof.
  induction 1 as [|o p tr Hr IH Hf]; intros Hn; [apply pinv_new|].
  apply pexec_inv; [|done|done]. apply IH. by eapply accepted_prefix_bound.
Qed.

(** C34. A stream gets a contiguous part of what the server accepted for the peer: the
    entries after the sequence number it resumes from, each once, in order, with the data
    that was accepted, however enqueues, takeovers, detaches and expiry interleave. When
    the current stream takes, it has everything accepted so far. A stream attached with
    the last event it has seen resumes right after it, without a gap, as long as that
    event was sent and at most [ReplayDepth] entries were accepted since. *)
Theorem stream_contiguous id p tr :
  preach cfg id p tr -> zlen (accepted tr) < 2 ^ 64 ->
  (forall att k, PAttached att k ∈ tr -> 0 <= k /\
     (exists m, (Z.to_nat k + m <= List.length (accepted tr))%nat /\
        delivered att tr = slice (Z.to_nat k) m (accepted tr)) /\
     (stream p = Some att -> down p = false ->
        delivered att tr ++ fst (takeUnsent cfg att p) = drop (Z.to_nat k) (number (accepted tr)))) /\
  (forall att lastID, 0 <= lastID -> down p = false ->
     let k := sentUpTo (snd (attach att lastID p)) in
     k <= Z.max lastID (sentUpTo p) /\ (lastID <= sentUpTo p -> lastID <= k) /\
     (zlen (accepted tr) - ReplayDepth cfg <= lastID -> k <= lastID) /\
     (zlen (accepted tr) - ReplayDepth cfg <= lastID <= sentUpTo p -> k = lastID)).
Proof.
  intros Hr Hn. pose proof (preach_inv _ _ _ Hr Hn) as I. split.
  - intros att k Hin. destruct (pi_given _ _ I att k Hin) as (Hk & m & [Hl Hg] & Hcur). split; [done|].
    split; [by exists m|]. intros Hst Hd. destruct (Hcur Hst Hd) as [Hks ->].
    rewrite Hg, (take_out p tr), Hd by done. pose proof (slice_rest _ _ _ Hl) as Hs.
    replace (Z.to_nat k + Z.to_nat (sentUpTo p - k))%nat with (Z.to_nat (sentUpTo p)) in Hs by lia.
    rewrite Hs. unfold slice. rewrite take_ge; [done|]. rewrite length_drop, number_length. lia.
  - intros att lastID Hl Hd k. destruct (attach_sent lastID p tr att I Hn Hl) as (_ & _ & _ & _ & Hb & _ & Hlive & Hk).
    destruct (Hlive Hd). pose proof (pi_replay _ _ I Hd). pose proof (pi_seq _ _ I). pose proof (pi_sent _ _ I).
    fold k in Hk, Hb. destruct (Z.ltb_spec lastID (sentUpTo p)); repeat split; lia.
Qed.

(** The server's memory for a peer is bounded: the log never holds more than the queue
    size plus the replay depth, whatever senders and reconnecting streams do; a signal is
    refused exactly when the peer is gone or as many signals as the queue size wait unsent,
    and an accepted one is the last entry of the log, so a stream attached later gets it. *)
Theorem peer_memory_bounded id p tr d :
  preach cfg id p tr -> zlen (accepted tr) + 1 < 2 ^ 64 ->
  zlen (plog p) <= QueueSize cfg + ReplayDepth cfg /\
  let '(ok, _, p') := enqueue cfg d p in
  (ok = true <-> down p = false /\ seq p - sentUpTo p < QueueSize cfg) /\
  (ok = true -> plog p' = plog p ++ [{| e_id := zlen (accepted tr) + 1; e_data := d |}]) /\
  (ok = false -> p' = p).
Proof.
  intros Hr Hn. pose proof (preach_inv _ _ _ Hr ltac:(lia)) as I.
  pose proof (pi_bound _ _ I). split; [lia|]. pose proof (pi_sent _ _ I). pose proof (pi_seq _ _ I) as Hs.
  unfold enqueue. destruct (down p); [naive_solver|]. rewrite (u64_small (seq p - sentUpTo p)) by lia.
  rewrite (u64_small (QueueSize cfg)) by lia. rewrite u64_small by lia.
  destruct (Z.leb_spec (QueueSize cfg) (seq p - sentUpTo p)); simpl; [split; [split; [done|lia]|done]|].
  split; [split; [done|lia]|]. split; [|done]. intros _. by rewrite Hs.
Qed.
End inv.

(** ** Runs computed *)

Definition fresh (os : list pop) : bool :=
  bool_decide (NoDup (omap (fun o => match o with OAttach att _ => Some att | _ => None end) os)) &&
  forallb (fun o => match o with OAttach _ l => 0 <=? l | _ => true end) os.

Lemma prun_reach cfg id os :
  fresh os = true -> preach cfg id (fst (prun cfg os (newPeer id) [])) (snd (prun cfg os (newPeer id) [])).
Proof.
  assert (Hg : forall os p tr, preach cfg id p tr -> fresh os = true ->
    (forall att l, OAttach att l ∈ os -> att ∉ attached tr) ->
    preach cfg id (fst (prun cfg os p tr)) (snd (prun cfg os p tr))).
  { clear os. induction os as [|o os IH]; intros p tr Hr Hf Hn; [done|]. cbn [prun].
    unfold fresh in *. rewrite andb_true_iff, bool_decide_eq_true in Hf. cbn [forallb omap list_omap] in Hf.
    rewrite andb_true_iff in Hf. destruct Hf as (Hnd & Ho & Hall).
    apply IH.
    - apply preach_step; [done|]. intros att l ->. split; [apply (Hn att l); by left|lia].
    - rewrite andb_true_iff, bool_decide_eq_true. split; [|done].
      destruct o; cbn in Hnd; try done. by apply NoDup_cons in Hnd as [_ Hnd].
    - intros att l Hin. rewrite attached_app, elem_of_app. intros [Hi|Hi]; [by apply (Hn att l); [right|]|].
      destruct o as [d|a la|a|a| |]; cbn in Hi; try by apply not_elem_of_nil in Hi.
      + destruct (enqueue cfg d p) as [[[] ?] ?]; cbn in Hi; by apply not_elem_of_nil in Hi.
      + apply list_elem_of_singleton in Hi as ->. apply NoDup_cons in Hnd as [Hnd _]. apply Hnd.
        apply list_elem_of_omap. by exists (OAttach a l).
      + destruct (takeUnsent cfg a p); cbn in Hi; by apply not_elem_of_nil in Hi. }
  intros Hf. apply Hg; [constructor|done|]. intros att l _ Hi. by apply not_elem_of_nil in Hi.
Qed.

Module PeerDemo.
Definition cfg : Config := {| QueueSize := 2; ReplayDepth := 2; OfflineGrace := 30; KeepAlive := 15; MaxPeers := 0 |}.
Definition d (z : Z) : bytes := [byte_of z].

(** Two signals are queued, a stream takes them and is replaced by one that saw only the first. *)
Definition os : list pop :=
  [OEnqueue (d 1); OEnqueue (d 2); OEnqueue (d 3); OAttach 0 0; OTake 0; OEnqueue (d 4); OAttach 1 1; OTake 0].
Definition p : peer := fst (prun cfg os (newPeer "alice") []).
Definition tr : list pev := snd (prun cfg os (newPeer "alice") []).

Lemma reach : preach cfg "alice" p tr.
Proof. apply prun_reach. vm_compute. reflexivity. Qed.

(** A take of four entries whose stream then breaks before any was written. *)
Definition lost_cfg : Config := {| QueueSize := 4; ReplayDepth := 1; OfflineGrace := 30; KeepAlive := 15; MaxPeers := 0 |}.
Definition lost : list pop :=
  [OEnqueue (d 1); OEnqueue (d 2); OEnqueue (d 3); OAttach 0 0; OTake 0; ODetach 0; OAttach 1 0; OTake 1].
End PeerDemo.

Example stream_contiguous_witness :
  delivered 1 PeerDemo.tr ++ fst (takeUnsent PeerDemo.cfg 1 PeerDemo.p) =
    [{| e_id := 2; e_data := PeerDemo.d 2 |}; {| e_id := 3; e_data := PeerDemo.d 4 |}] /\
  sentUpTo (snd (attach 2 1 PeerDemo.p)) = 1.
Proof.
  destruct (stream_contiguous PeerDemo.cfg ltac:(vm_compute; split; reflexivity) ltac:(vm_compute; discriminate)
    "alice" PeerDemo.p PeerDemo.tr PeerDemo.reach ltac:(vm_compute; reflexivity)) as [Hg Ha].
  split.
  - destruct (Hg 1%nat 1) as (_ & _ & Hc).
    + vm_compute. repeat constructor.
    + rewrite Hc; [vm_compute; reflexivity|vm_compute; reflexivity|vm_compute; reflexivity].
  - apply (Ha 2%nat 1); [discriminate|vm_compute; reflexivity|vm_compute; split; discriminate].
Defined.

Example peer_memory_bounded_witness :
  zlen (plog PeerDemo.p) <= 4 /\ fst (fst (enqueue PeerDemo.cfg (PeerDemo.d 5) PeerDemo.p)) = false.
Proof.
  destruct (peer_memory_bounded PeerDemo.cfg ltac:(vm_compute; split; reflexivity) ltac:(vm_compute; discriminate)
    "alice" PeerDemo.p PeerDemo.tr (PeerDemo.d 5) PeerDemo.reach ltac:(vm_compute; reflexivity)) as [Hb _].
  split; [exact Hb|vm_compute; reflexivity].
Defined.

(** [takeUnsent] counts entries as delivered, and trims them to the replay window, before
    they are written: when the stream breaks first, undelivered entries are lost. *)
Example unwritten_entries_lost :
  let tr := snd (prun PeerDemo.lost_cfg PeerDemo.lost (newPeer "alice") []) in
  accepted tr = [PeerDemo.d 1; PeerDemo.d 2; PeerDemo.d 3] /\
  delivered 1 tr = [{| e_id := 3; e_data := PeerDemo.d 3 |}].
Proof. vm_compute. split; reflexivity. Qed.
