(* ===== verification/SseServer.v ===== *)
(** * The signaling server (signaling/sse/server.go, mux_server.go)

    [server] has the fields of [Server] with the objects its pointers name on heaps: the
    peers ([SsePeer]), the multiplexed streams and the attachments. A handler is a
    computation over it; its parts between two critical sections are definitions of their
    own, so that their interleavings can be written down. A response is its status and
    text. The pusher ([openPusher]) is outside: whether it could be opened is an argument,
    and a stream's messages are the result of the part that pushes them. *)

From Stdlib Require Import String.
From stdpp Require Import sorting.
From S2P Require Import Prelude.
From S2P Require Import Errors.
From S2P Require Import Json.
From S2P Require Import Signal.
From S2P Require Import Envelope.
From S2P Require Import SsePeer.

(** ** Configuration *)

Definition DefaultQueueSize : Z := 256.
Definition DefaultReplayDepth : Z := 256.
Definition DefaultOfflineGrace : Z := 30 * 10 ^ 9.
Definition DefaultKeepAlive : Z := 15 * 10 ^ 9.
Definition maxBodySlack : Z := Z.shiftl 4 10.

(** [NewServer] on the configuration: [auth] tells whether there is an authenticator. *)
Definition NewServer_config (auth : bool) (cfg : Config) : result error Config :=
  if negb auth then Err (EOther "sse: Config.Authenticator is required" None)
  else if ReplayDepth cfg <? 0 then Err (EOther "sse: Config.ReplayDepth must not be negative" None)
  else if MaxPeers cfg <? 0 then Err (EOther "sse: Config.MaxPeers must not be negative" None)
  else Ok {|
    QueueSize := if QueueSize cfg <=? 0 then DefaultQueueSize else QueueSize cfg;
    ReplayDepth := if ReplayDepth cfg =? 0 then DefaultReplayDepth else ReplayDepth cfg;
    OfflineGrace := if OfflineGrace cfg <=? 0 then DefaultOfflineGrace else OfflineGrace cfg;
    KeepAlive := if KeepAlive cfg <=? 0 then DefaultKeepAlive else KeepAlive cfg;
    MaxPeers := MaxPeers cfg |}.

(** ** Requests and responses *)

(** [r_Header] is [r.Header.Get]; [r_Body] is what the body yields before it ends, and
    [r_BodyOk] whether it ends without an error. *)
Record request := {
  r_Method : string; r_Header : string -> string; r_Body : bytes; r_BodyOk : bool
}.

Definition PeerHeader : string := "X-Pipe-Peer".
Definition MuxHeader : string := "X-Pipe-Mux".
Definition LastEventID : string := "Last-Event-ID".

Record reply := { status : Z; text : string }.

Definition StatusAccepted : Z := 202.
Definition StatusNoContent : Z := 204.
Definition StatusBadRequest : Z := 400.
Definition StatusUnauthorized : Z := 401.
Definition StatusForbidden : Z := 403.
Definition StatusNotFound : Z := 404.
Definition StatusMethodNotAllowed : Z := 405.
Definition StatusRequestEntityTooLarge : Z := 413.
Definition StatusInternalServerError : Z := 500.
Definition StatusServiceUnavailable : Z := 503.

Definition Error (msg : string) (code : Z) : reply := {| status := code; text := msg |}.

(** [strconv.ParseUint(s, 10, 64)]. *)
Definition ParseUint (s : string) : option Z :=
  let b := list_ascii_of_string s in
  match b with
  | [] => None
  | _ => if forallb is_digit b && (digits_val b <? 2 ^ 64) then Some (digits_val b) else None
  end.

(** The resume point of a request; [None]: it is not a number. *)
Definition last_event (r : request) : option Z :=
  if bool_decide (r_Header r LastEventID = ""%string) then Some 0 else ParseUint (r_Header r LastEventID).

(** Events on a stream: name and, where there is one, data. *)
Inductive message :=
| MHello (peer : string) | MSignal (id : Z) (data : bytes) | MPing | MReason (event : string)
| MMux (id : string) | MDetached (peer reason : string).

Definition eventReplaced : string := "replaced".
Definition eventShutdown : string := "shutdown".

(** ** State *)

(** An attachment: of a single stream, with its wake token and the reason it ended, or of
    a peer on a multiplexed stream. *)
Inductive attachment :=
| AttStream (wake : bool) (ended : option string)
| AttMux (m : nat) (peer : string).

Record muxStream := {
  m_id : string; m_owner : string;
  m_wake : bool; m_down : bool;
  members : gmap string (nat * nat);      (* the peer and its attachment *)
  m_detached : list (string * string);
  m_closed : bool
}.

#[export] Instance muxStream_eta : Eta muxStream := fun m => {|
  m_id := m_id m; m_owner := m_owner m; m_wake := m_wake m; m_down := m_down m;
  members := members m; m_detached := m_detached m; m_closed := m_closed m |}.

Record server := {
  sv_peers : gmap string nat;
  sv_muxes : gmap string nat;
  sv_closed : bool;
  pheap : gmap nat peer;
  mheap : gmap nat muxStream;
  atts : gmap nat attachment;
  fresh_addr : nat
}.

#[export] Instance server_eta : Eta server := fun s => {|
  sv_peers := sv_peers s; sv_muxes := sv_muxes s; sv_closed := sv_closed s; pheap := pheap s;
  mheap := mheap s; atts := atts s; fresh_addr := fresh_addr s |}.

Definition new_server : server := {|
  sv_peers := ∅; sv_muxes := ∅; sv_closed := false; pheap := ∅; mheap := ∅; atts := ∅; fresh_addr := 0 |}.

Section server.
Variable cfg : Config.
Variable Authenticate : request -> result error string.

Abbreviation M := (state_m server).

Definition alloc : M nat := fun s => (fresh_addr s, s <| fresh_addr ::= S |>).

(** One critical section of a peer, of a multiplexed stream. *)
Definition on_peer {A} (d : A) (a : nat) (f : peer -> A * peer) : M A := fun s =>
  match pheap s !! a with
  | Some p => let '(x, p) := f p in (x, s <| pheap := <[a := p]> (pheap s) |>)
  | None => (d, s)
  end.

Definition on_mux {A} (d : A) (m : nat) (f : muxStream -> A * muxStream) : M A := fun s =>
  match mheap s !! m with
  | Some x => let '(r, x) := f x in (r, s <| mheap := <[m := x]> (mheap s) |>)
  | None => (d, s)
  end.

(** ** Attachments *)

(** [muxStream.ended]. *)
Definition ended (m : nat) (id : string) (att : nat) (reason : string) : M unit :=
  on_mux tt m (fun x =>
    match members x !! id with
    | Some (_, att') =>
      if bool_decide (att' = att) then
        let x := x <| members := delete id (members x) |> in
        let x := if bool_decide (reason = eventReplaced)
                 then x <| m_detached := m_detached x ++ [(id, reason)] |> else x in
        (tt, x <| m_wake := true |>)
      else (tt, x)
    | None => (tt, x)
    end).

(** [attachment.end] and [attachment.poke]. *)
Definition att_end (att : nat) (reason : string) : M unit :=
  s ← get_s;
  match atts s !! att with
  | Some (AttStream w _) => modify (fun s => s <| atts := <[att := AttStream w (Some reason)]> (atts s) |>)
  | Some (AttMux m id) => ended m id att reason
  | None => mret tt
  end.

Definition poke (att : nat) : M unit :=
  s ← get_s;
  match atts s !! att with
  | Some (AttStream _ e) => modify (fun s => s <| atts := <[att := AttStream true e]> (atts s) |>)
  | Some (AttMux m _) => on_mux tt m (fun x => (tt, x <| m_wake := true |>))
  | None => mret tt
  end.

Definition opt_do {A} (f : A -> M unit) (o : option A) : M unit :=
  match o with Some a => f a | None => mret tt end.

(** ** Peers *)

Definition sv_enqueue (a : nat) (data : bytes) : M bool :=
  r ← on_peer (false, None) a (fun p => let '(ok, st, p) := enqueue cfg data p in ((ok, st), p));
  opt_do poke (snd r);;
  mret (fst r : bool).

(** [attach] calls [end] on the old stream with the peer's mutex held. *)
Definition sv_attach (a att : nat) (lastID : Z) : M unit :=
  old ← on_peer None a (attach att lastID);
  opt_do (fun o => att_end o eventReplaced) old;;
  poke att.

Definition sv_detach (a att : nat) : M unit := on_peer tt a (fun p => (tt, detach att p)).

Definition sv_take (a att : nat) : M (list entry) := on_peer [] a (takeUnsent cfg att).

(** [forget]: only the very record that is registered. *)
Definition forget (a : nat) : M unit :=
  s ← get_s;
  match pheap s !! a with
  | Some p =>
    if bool_decide (sv_peers s !! p_id p = Some a)
    then modify (fun s => s <| sv_peers := delete (p_id p) (sv_peers s) |>) else mret tt
  | None => mret tt
  end.

(** [expire] in its two critical sections. *)
Definition expire_mark (a : nat) : M bool := on_peer false a expire.

Definition sv_expire (a : nat) : M unit :=
  gone ← expire_mark a;
  if gone : bool then forget a else mret tt.

Definition sv_shutdown (a : nat) : M unit :=
  old ← on_peer None a shutdown;
  opt_do (fun o => att_end o eventShutdown) old.

(** The peer with an identifier, created within the limit. *)
Definition admit_peer (id : string) : M (result error nat) :=
  s ← get_s;
  if sv_closed s then mret (Err (ESent sse_errServerClosing))
  else match sv_peers s !! id with
  | Some a => mret (Ok a)
  | None =>
    if (0 <? MaxPeers cfg) && (MaxPeers cfg <=? Z.of_nat (size (sv_peers s)))
    then mret (Err (EOther "peer limit reached" None))
    else
      a ← alloc;
      modify (fun s => s <| pheap := <[a := newPeer id]> (pheap s) |> <| sv_peers := <[id := a]> (sv_peers s) |>);;
      mret (Ok a)
  end.

Definition lookup_peer (id : string) : M (option nat) := gets (fun s => sv_peers s !! id).

(** ** Sending (POST) *)

(** What [serveSend] decides before it looks up the recipient. *)
Definition send_check (from : string) (r : request) : result reply Signal :=
  if MaxEnvelopeSize + maxBodySlack <? zlen (r_Body r) then
    Err (Error "signal is too large" StatusRequestEntityTooLarge)
  else if negb (r_BodyOk r) then Err (Error "could not read the request body" StatusBadRequest)
  else
    match unmarshal_signal (r_Body r) with
    | Err _ => Err (Error "body is not a signal envelope" StatusBadRequest)
    | Ok sig =>
      if negb (bool_decide (From sig = from)) then
        Err (Error "signal From does not match the authenticated peer" StatusForbidden)
      else match Validate sig with
           | Some _ => Err (Error "invalid signal: " StatusBadRequest)
           | None => Ok sig
           end
    end.

(** With the recipient found: encode and queue. *)
Definition send_enqueue (sig : Signal) (dst : nat) : M reply :=
  match marshal_signal sig with
  | Err _ => mret (Error "could not encode the signal" StatusInternalServerError)
  | Ok data =>
    ok ← sv_enqueue dst data;
    mret (if ok : bool then {| status := StatusAccepted; text := "" |}
          else Error "recipient queue is full" StatusServiceUnavailable)
  end.

Definition serveSend (from : string) (r : request) : M reply :=
  match send_check from r with
  | Err e => mret e
  | Ok sig =>
    dst ← lookup_peer (To sig);
    match dst with
    | None => mret (Error "recipient is not connected" StatusNotFound)
    | Some a => send_enqueue sig a
    end
  end.

(** ** A peer's own stream (GET) *)

(** The beginning of [serveStream], up to the hello: the peer and the attachment. *)
Definition stream_open (id : string) (r : request) (opened : bool) : M (result reply (nat * nat)) :=
  p ← admit_peer id;
  match p with
  | Err (ESent _) => mret (Err (Error "signaling server is shutting down" StatusServiceUnavailable))
  | Err _ => mret (Err (Error "peer limit reached" StatusServiceUnavailable))
  | Ok a =>
    match last_event r with
    | None => mret (Err (Error "Last-Event-ID is not a number" StatusBadRequest))
    | Some lastID =>
      if negb opened then mret (Err (Error "streaming is not supported" StatusInternalServerError))
      else
        att ← alloc;
        modify (fun s => s <| atts := <[att := AttStream false None]> (atts s) |>);;
        sv_attach a att lastID;;
        mret (Ok (a, att))
    end
  end.

(** What one round of the loop pushes. *)
Definition stream_batch (a att : nat) : M (list message) :=
  es ← sv_take a att;
  mret ((fun e => MSignal (e_id e) (e_data e)) <$> es).

(** The [select]: [None] when the case is not ready; the flag tells whether the loop goes
    on. A context that ends needs no case: the handler then just detaches. *)
Inductive wait_case := CaseWake | CaseTick | CaseDone.

Definition stream_wait (att : nat) (c : wait_case) : M (option (list message * bool)) :=
  s ← get_s;
  match atts s !! att, c with
  | Some (AttStream true e), CaseWake =>
    modify (fun s => s <| atts := <[att := AttStream false e]> (atts s) |>);; mret (Some ([], true))
  | Some (AttStream _ _), CaseTick => mret (Some ([MPing], true))
  | Some (AttStream _ (Some reason)), CaseDone => mret (Some ([MReason reason], false))
  | _, _ => mret None
  end.

(** ** Multiplexed streams *)

Definition openMux (owner : string) (rand : bytes) : M (result error nat) :=
  s ← get_s;
  if sv_closed s then mret (Err (ESent sse_errServerClosing))
  else
    m ← alloc;
    modify (fun s => s <| mheap := <[m := {| m_id := NewID rand; m_owner := owner; m_wake := false;
                                             m_down := false; members := ∅; m_detached := []; m_closed := false |}]> (mheap s) |>
                       <| sv_muxes := <[NewID rand := m]> (sv_muxes s) |>);;
    mret (Ok m).

Definition lookupMux (id : string) : M (option nat) :=
  if bool_decide (id = ""%string) then mret None else gets (fun s => sv_muxes s !! id).

(** [closeMux] in its parts; the members found are detached one by one. *)
Definition closeMux_unregister (m : nat) : M unit :=
  s ← get_s;
  match mheap s !! m with
  | Some x =>
    if bool_decide (sv_muxes s !! m_id x = Some m)
    then modify (fun s => s <| sv_muxes := delete (m_id x) (sv_muxes s) |>) else mret tt
  | None => mret tt
  end.

Definition closeMux_mark (m : nat) : M (list (nat * nat)) :=
  on_mux [] m (fun x => (snd <$> map_to_list (members x), x <| m_closed := true |> <| members := ∅ |>)).

Fixpoint detach_all (l : list (nat * nat)) : M unit :=
  match l with
  | [] => mret tt
  | (a, att) :: l => sv_detach a att;; detach_all l
  end.

Definition closeMux (m : nat) : M unit :=
  closeMux_unregister m;;
  l ← closeMux_mark m;
  detach_all l.

(** [join] in its parts: the record, the attachment, the check. *)
Definition join_record (m a : nat) : M (option (nat * option (nat * nat))) :=
  s ← get_s;
  match pheap s !! a with
  | None => mret None
  | Some p =>
    att ← alloc;
    modify (fun s => s <| atts := <[att := AttMux m (p_id p)]> (atts s) |>);;
    on_mux None m (fun x =>
      if m_closed x then (None, x)
      else (Some (att, members x !! p_id p), x <| members := <[p_id p := (a, att)]> (members x) |>))
  end.

Definition join_previous (a : nat) (prev : option (nat * nat)) : M unit :=
  match prev with
  | Some (b, att) => if bool_decide (b = a) then mret tt else sv_detach b att
  | None => mret tt
  end.

Definition join_check (m a att : nat) : M bool :=
  s ← get_s;
  if match mheap s !! m with Some x => m_closed x | None => true end
  then sv_detach a att;; mret false else mret true.

Definition join (m a : nat) (lastID : Z) : M bool :=
  r ← join_record m a;
  match r with
  | None => mret false
  | Some (att, prev) => join_previous a prev;; sv_attach a att lastID;; join_check m a att
  end.

(** [leave] in its parts. *)
Definition leave_remove (m : nat) (id : string) : M (option (nat * nat)) :=
  on_mux None m (fun x => (members x !! id, x <| members := delete id (members x) |>)).

Definition leave (m : nat) (id : string) : M unit :=
  mem ← leave_remove m id;
  opt_do (fun p => sv_detach (fst p) (snd p)) mem.

Definition snapshot (m : nat) : M (list (nat * nat)) :=
  on_mux [] m (fun x => (snd <$> map_to_list (members x), x)).

Definition takeDetached (m : nat) : M (list (string * string)) :=
  on_mux [] m (fun x => (m_detached x, x <| m_detached := [] |>)).

Fixpoint take_all (l : list (nat * nat)) : M (list message) :=
  match l with
  | [] => mret []
  | (a, att) :: l =>
    ms ← stream_batch a att;
    rest ← take_all l;
    mret (ms ++ rest)
  end.

(** What one round of the loop of [serveMuxStream] pushes. *)
Definition mux_batch (m : nat) : M (list message) :=
  l ← snapshot m;
  ms ← take_all l;
  ds ← takeDetached m;
  mret (ms ++ ((fun d => MDetached (fst d) (snd d)) <$> ds)).

Definition mux_wait (m : nat) (c : wait_case) : M (option (list message * bool)) :=
  s ← get_s;
  match mheap s !! m, c with
  | Some x, CaseWake =>
    if m_wake x then on_mux tt m (fun x => (tt, x <| m_wake := false |>));; mret (Some ([], true)) else mret None
  | Some _, CaseTick => mret (Some ([MPing], true))
  | Some x, CaseDone => if m_down x then mret (Some ([MReason eventShutdown], false)) else mret None
  | None, _ => mret None
  end.

Definition mux_open (owner : string) (rand : bytes) (opened : bool) : M (result reply nat) :=
  r ← openMux owner rand;
  match r with
  | Err _ => mret (Err (Error "signaling server is shutting down" StatusServiceUnavailable))
  | Ok m =>
    if negb opened then closeMux m;; mret (Err (Error "streaming is not supported" StatusInternalServerError))
    else mret (Ok m)
  end.

Definition serveJoin (id : string) (r : request) : M reply :=
  m ← lookupMux (r_Header r MuxHeader);
  match m with
  | None => mret (Error "multiplexed stream not found" StatusNotFound)
  | Some m =>
    match last_event r with
    | None => mret (Error "Last-Event-ID is not a number" StatusBadRequest)
    | Some lastID =>
      p ← admit_peer id;
      match p with
      | Err (ESent _) => mret (Error "signaling server is shutting down" StatusServiceUnavailable)
      | Err _ => mret (Error "peer limit reached" StatusServiceUnavailable)
      | Ok a =>
        ok ← join m a lastID;
        mret (if ok : bool then {| status := StatusNoContent; text := "" |}
              else Error "multiplexed stream not found" StatusNotFound)
      end
    end
  end.

Definition serveLeave (id : string) (r : request) : M reply :=
  m ← lookupMux (r_Header r MuxHeader);
  opt_do (fun m => leave m id) m;;
  mret {| status := StatusNoContent; text := "" |}.

(** ** The handler and the server's end *)

Inductive served := Replied (r : reply) | Streaming (a att : nat) | MuxStreaming (m : nat).

Definition served_of {A} (f : A -> served) (r : result reply A) : served :=
  match r with Ok a => f a | Err e => Replied e end.

Definition authorize (r : request) : result reply string :=
  match Authenticate r with
  | Err _ => Err (Error "unauthorized" StatusUnauthorized)
  | Ok id =>
    let claimed := r_Header r PeerHeader in
    if negb (bool_decide (claimed = ""%string)) && negb (bool_decide (claimed = id)) then
      Err (Error "credential does not belong to the claimed peer" StatusForbidden)
    else Ok id
  end.

(** [ServeHTTP], up to the loop of a stream. *)
Definition ServeHTTP (r : request) (opened : bool) (rand : bytes) : M served :=
  closed ← gets sv_closed;
  if closed : bool then
    mret (Replied (Error "signaling server is shutting down" StatusServiceUnavailable))
  else
    match authorize r with
    | Err e => mret (Replied e)
    | Ok id =>
      if bool_decide (r_Method r = "GET"%string) then
        if negb (bool_decide (r_Header r MuxHeader = ""%string)) then
          x ← mux_open id rand opened; mret (served_of MuxStreaming x)
        else x ← stream_open id r opened; mret (served_of (fun p => Streaming (fst p) (snd p)) x)
      else if bool_decide (r_Method r = "POST"%string) then x ← serveSend id r; mret (Replied x)
      else if bool_decide (r_Method r = "PUT"%string) then x ← serveJoin id r; mret (Replied x)
      else if bool_decide (r_Method r = "DELETE"%string) then x ← serveLeave id r; mret (Replied x)
      else mret (Replied (Error "method not allowed" StatusMethodNotAllowed))
    end.

(** [Server.Close] in its parts. *)
Definition close_mark : M (list nat * list nat) :=
  s ← get_s;
  modify (fun s => s <| sv_closed := true |> <| sv_peers := ∅ |> <| sv_muxes := ∅ |>);;
  mret (snd <$> map_to_list (sv_peers s), snd <$> map_to_list (sv_muxes s)).

Definition mux_shutdown (m : nat) : M unit := on_mux tt m (fun x => (tt, x <| m_down := true |>)).

Fixpoint for_all (f : nat -> M unit) (l : list nat) : M unit :=
  match l with [] => mret tt | a :: l => f a;; for_all f l end.

Definition Close : M unit :=
  l ← close_mark;
  for_all sv_shutdown (fst l);;
  for_all mux_shutdown (snd l).

Definition Peers : M (list string) :=
  gets (fun s => merge_sort (fun a b => Is_true (String.leb a b)) (fst <$> map_to_list (sv_peers s))).
End server.
