(* ===== verification/SseAuth.v ===== *)
(** * Authentication of signaling requests (signaling/sse/auth.go)

    [StaticTokens] and [TrustPeerHeader] are the two authenticators of the package; each
    is a value for the [Authenticate] parameter of [SseServer]. A header is a function
    from canonical names to values. *)

From Stdlib Require Import String.
From S2P Require Import Prelude.
From S2P Require Import Errors.
From S2P Require Import Strings.
From S2P Require Import SseServer.

Definition Authorization : string := "Authorization".

(** [BearerToken]; [None] is a false second result. *)
Definition BearerToken (r : request) : option bytes :=
  let h := list_ascii_of_string (r_Header r Authorization) in
  if (zlen h <=? 7) || negb (equal_fold "bearer " (take 7 h)) then None
  else
    let token := trim_space (drop 7 h) in
    match token with [] => None | _ => Some token end.

(** The table of [StaticTokens]: entries without a token or a peer are left out. *)
Definition token_table (tokens : gmap string string) : gmap string string :=
  filter (fun tp => tp.1 <> "" /\ tp.2 <> "")%string tokens.

(** The loop compares every candidate; at most one is equal. *)
Definition StaticTokens (tokens : gmap string string) (r : request) : result error string :=
  match BearerToken r with
  | None => Err (ESent sse_ErrUnauthorized)
  | Some token =>
    match token_table tokens !! string_of_list_ascii token with
    | Some peer => Ok peer
    | None => Err (ESent sse_ErrUnauthorized)
    end
  end.

Definition TrustPeerHeader (r : request) : result error string :=
  match trim_space (list_ascii_of_string (r_Header r PeerHeader)) with
  | [] => Err (ESent sse_ErrUnauthorized)
  | peer => Ok (string_of_list_ascii peer)
  end.
