(* ===== verification/SseServerProps.v ===== *)
(** * What the signaling server guarantees

    [post_delivers_exactly]: a signal is queued if and only if its author sent it, it is
    valid and the recipient has room, and every refusal has the documented status.
    [mux_agreement]: the members of the multiplexed streams and the attachments of the
    peers agree. The races the code leaves open are at the end. *)

From Stdlib Require Import String.
From S2P Require Import Prelude.
From S2P Require Import Errors.
From S2P Require Import Signal.
From S2P Require Import Envelope.
From S2P Require Import SsePeer.
From S2P Require Import SseServer.

#[local] Arguments marshal_signal : simpl never.
#[local] Arguments unmarshal_signal : simpl never.
#[local] Arguments Validate : simpl never.

(** ** Sending *)

Section send.
Variable cfg : Config.
Variable Authenticate : request -> result error string.

(** A request that proves who sends it. *)
Definition sent_by (r : request) (id : string) : Prop :=
  Authenticate r = Ok id /\ (r_Header r PeerHeader = ""%string \/ r_Header r PeerHeader = id).

(** A readable body that is a signal. *)
Definition carries (r : request) (sig : Signal) : Prop :=
  zlen (r_Body r) <= MaxEnvelopeSize + maxBodySlack /\ r_BodyOk r = true /\
  unmarshal_signal (r_Body r) = Ok sig.

Lemma authorize_spec r id : authorize Authenticate r = Ok id <-> sent_by r id.
Proof.
  unfold authorize, sent_by. destruct (Authenticate r) as [a|e]; [|naive_solver].
  destruct (bool_decide_reflect (r_Header r PeerHeader = ""%string)) as [E|E];
    destruct (bool_decide_reflect (r_Header r PeerHeader = a)) as [E'|E']; simpl; naive_solver.
Qed.

Lemma send_check_spec from r sig :
  send_check from r = Ok sig <-> carries r sig /\ From sig = from /\ Validate sig = None.
Proof.
  unfold send_check, carries.
  destruct (Z.ltb_spec (MaxEnvelopeSize + maxBodySlack) (zlen (r_Body r))); [split; [done|intros ((? & _) & _); lia]|].
  destruct (r_BodyOk r); simpl; [|naive_solver].
  destruct (unmarshal_signal (r_Body r)) as [x|]; [|naive_solver].
  case_bool_decide; simpl; [|naive_solver]. destruct (Validate x) eqn:E; naive_solver.
Qed.

(** What [ServeHTTP] does with a POST. *)
Lemma serve_post r opened rand s :
  r_Method r = "POST"%string ->
  ServeHTTP cfg Authenticate r opened rand s =
    if sv_closed s then (Replied (Error "signaling server is shutting down" StatusServiceUnavailable), s)
    else match authorize Authenticate r with
         | Err e => (Replied e, s)
         | Ok id => let '(x, s') := serveSend cfg id r s in (Replied x, s')
         end.
Proof.
  intros Hm. unfold ServeHTTP, mbind, state_m_bind, gets. rewrite Hm.
  destruct (sv_closed s); [done|]. destruct (authorize Authenticate r) as [id|e]; [|done].
  rewrite (bool_decide_eq_false_2 ("POST"%string = "GET"%string)) by done. cbn. done.
Qed.

Lemma poke_pheap att s : pheap (snd (poke att s)) = pheap s /\ sv_peers (snd (poke att s)) = sv_peers s.
Proof.
  unfold poke, on_mux, mbind, state_m_bind, get_s, modify, mret, state_m_ret.
  destruct (atts s !! att) as [[]|]; simpl; try done. by destruct (mheap s !! m).
Qed.

Lemma sv_enqueue_spec a data s :
  let '(ok, s') := sv_enqueue cfg a data s in
  sv_peers s' = sv_peers s /\
  match pheap s !! a with
  | Some p => ok = fst (fst (enqueue cfg data p)) /\ pheap s' = <[a := snd (enqueue cfg data p)]> (pheap s)
  | None => ok = false /\ pheap s' = pheap s
  end.
Proof.
  unfold sv_enqueue, on_peer, mbind, state_m_bind. destruct (pheap s !! a) as [p|]; [|by cbn].
  destruct (enqueue cfg data p) as [[ok st] p']. destruct st as [att|]; cbn; [|done].
  pose proof (poke_pheap att (s <| pheap := <[a := p']> (pheap s) |>)) as [H1 H2].
  destruct (poke att _) as [[] s']. cbn in *. done.
Qed.

Lemma refused_same data p : fst (fst (enqueue cfg data p)) = false -> snd (enqueue cfg data p) = p.
Proof. unfold enqueue. destruct (down p); [done|]. by destruct (u64 (QueueSize cfg) <=? _). Qed.

(** The outcome of a signal that passed the checks. *)
Definition queued (sig : Signal) (rep : reply) (s s' : server) : Prop :=
  match sv_peers s !! To sig with
  | None => s' = s /\ status rep = 404
  | Some a =>
    match marshal_signal sig with
    | Err _ => s' = s /\ status rep = 500
    | Ok data =>
      sv_peers s' = sv_peers s /\
      match pheap s !! a with
      | Some p => status rep = (if fst (fst (enqueue cfg data p)) then 202 else 503) /\
                  pheap s' = <[a := snd (enqueue cfg data p)]> (pheap s)
      | None => status rep = 503 /\ pheap s' = pheap s
      end
    end
  end.

Lemma queued_peers sig rep s s' : queued sig rep s s' -> sv_peers s' = sv_peers s.
Proof.
  unfold queued. destruct (sv_peers s !! To sig); [|by intros [-> _]].
  destruct (marshal_signal sig); [by intros []|by intros [-> _]].
Qed.

Lemma queued_accepted sig rep s s' : queued sig rep s s' -> status rep = 202 ->
  exists a p data, sv_peers s !! To sig = Some a /\ marshal_signal sig = Ok data /\ pheap s !! a = Some p /\
    fst (fst (enqueue cfg data p)) = true /\ pheap s' = <[a := snd (enqueue cfg data p)]> (pheap s).
Proof.
  unfold queued. intros Hq H202. destruct (sv_peers s !! To sig) as [a|]; [|destruct Hq; congruence].
  destruct (marshal_signal sig) as [data|]; [|destruct Hq; congruence].
  destruct (pheap s !! a) as [p|] eqn:E; [|destruct Hq as (_ & ? & _); congruence].
  destruct Hq as (_ & Hs & Hh). destruct (fst (fst (enqueue cfg data p))) eqn:?; [|congruence].
  by exists a, p, data.
Qed.

Lemma queued_refused sig rep s s' : queued sig rep s s' -> status rep <> 202 -> pheap s' = pheap s.
Proof.
  unfold queued. intros Hq H202. destruct (sv_peers s !! To sig) as [a|]; [|by destruct Hq as [-> _]].
  destruct (marshal_signal sig) as [data|]; [|by destruct Hq as [-> _]].
  destruct (pheap s !! a) as [p|] eqn:E; [|by destruct Hq as (_ & _ & ?)].
  destruct Hq as (_ & Hs & ->). destruct (fst (fst (enqueue cfg data p))) eqn:?; [congruence|].
  rewrite refused_same by done. by apply insert_id.
Qed.

(** What [serveSend] answers, by how far it gets. *)
Lemma serve_send_cases id r s :
  let '(rep, s') := serveSend cfg id r s in
  ((forall sig, send_check id r <> Ok sig) /\ s' = s /\ status rep <> 202 /\
     forall sig, carries r sig -> (From sig <> id -> status rep = 403) /\
       (From sig = id -> Validate sig <> None -> status rep = 400)) \/
  exists sig, send_check id r = Ok sig /\
    queued sig rep s s'.
Proof.
  unfold serveSend, queued. destruct (send_check id r) as [sig|e] eqn:E.
  - unfold lookup_peer, gets, mbind, state_m_bind. destruct (sv_peers s !! To sig) as [a|] eqn:Ea;
      [|cbn; right; exists sig; by rewrite Ea].
    unfold send_enqueue. destruct (marshal_signal sig) as [data|] eqn:Ed; [|cbn; right; exists sig; by rewrite Ea, Ed].
    unfold mbind, state_m_bind. pose proof (sv_enqueue_spec a data s) as Hs.
    destruct (sv_enqueue cfg a data s) as [ok s'] eqn:Ee. cbn. right. exists sig. split; [done|]. rewrite Ea, Ed.
    destruct Hs as [Hp Hs]. split; [done|]. destruct (pheap s !! a) as [p|]; destruct Hs as [-> Hs];
      split; try done. by destruct (fst (fst (enqueue cfg data p))).
  - left. cbn. split; [done|]. split; [done|]. revert E. unfold send_check, carries.
    destruct (Z.ltb_spec (MaxEnvelopeSize + maxBodySlack) (zlen (r_Body r)));
      [intros [= <-]; split; [done|]; intros ? [? _]; lia|].
    destruct (r_BodyOk r); simpl; [|intros [= <-]; split; [done|]; intros ? (_ & ? & _); done].
    destruct (unmarshal_signal (r_Body r)) as [x|]; [|intros [= <-]; split; [done|]; intros ? (_ & _ & ?); done].
    case_bool_decide as Hf; simpl.
    + destruct (Validate x) eqn:Hv; [|done]. intros [= <-]. split; [done|]. intros sig (_ & _ & [= ->]). done.
    + intros [= <-]. split; [done|]. intros sig (_ & _ & [= ->]). done.
Qed.

(** What an endpoint built is carried whole. *)
Lemma built_carried r rand kind from sid to p sig raw :
  newSignal rand kind from to sid p = Ok sig ->
  match p with Some p => payload_wf p | None => True end ->
  marshal_signal sig = Ok raw -> r_Body r = raw -> r_BodyOk r = true -> carries r sig /\ Validate sig = None.
Proof.
  intros Hn Hw Hm Hb Ho. destruct (built_survives _ _ _ _ _ _ _ Hn Hw) as (raw' & Hm' & Hu & _ & Hl).
  assert (raw' = raw) as -> by congruence. split; [|by apply built_payload in Hn as [? _]].
  split; [|split; [done|by rewrite Hb]]. rewrite Hb. exact Hl.
Qed.

(** C14. Sending to the server does exactly what the wire protocol says. A signal enters a
    queue only if the request's credential belongs to the peer in its From field, it is
    valid, and it is the recipient's queue; what is queued is its canonical encoding. The
    answer is 202 exactly then, 403 when From is not the caller, 404 when the recipient is
    unknown and 503 when its queue is full, and no queue changes unless the answer is 202.
    In particular what an endpoint built is never refused as malformed or too large. *)
Theorem post_delivers_exactly r opened rand s :
  r_Method r = "POST"%string ->
  exists rep, fst (ServeHTTP cfg Authenticate r opened rand s) = Replied rep /\
  let s' := snd (ServeHTTP cfg Authenticate r opened rand s) in
  sv_peers s' = sv_peers s /\
  (status rep = 202 -> exists id sig data a p, sent_by r id /\ carries r sig /\ From sig = id /\
     Validate sig = None /\ marshal_signal sig = Ok data /\ sv_peers s !! To sig = Some a /\
     pheap s !! a = Some p /\ fst (fst (enqueue cfg data p)) = true /\
     pheap s' = <[a := snd (enqueue cfg data p)]> (pheap s)) /\
  (status rep <> 202 -> pheap s' = pheap s) /\
  (forall id sig, sv_closed s = false -> sent_by r id -> carries r sig ->
     (From sig <> id -> status rep = 403) /\
     (From sig = id -> Validate sig <> None -> status rep = 400) /\
     (From sig = id -> Validate sig = None -> sv_peers s !! To sig = None -> status rep = 404) /\
     (forall a p data, From sig = id -> Validate sig = None -> sv_peers s !! To sig = Some a ->
        pheap s !! a = Some p -> marshal_signal sig = Ok data ->
        status rep = if fst (fst (enqueue cfg data p)) then 202 else 503)) /\
  (forall rand' kind sid to p sig raw, newSignal rand' kind (From sig) to sid p = Ok sig ->
     match p with Some p => payload_wf p | None => True end ->
     marshal_signal sig = Ok raw -> r_Body r = raw -> r_BodyOk r = true -> carries r sig /\ Validate sig = None).
Proof.
  intros Hm. rewrite serve_post by done.
  assert (Hbuilt : forall rand' kind sid to p sig raw, newSignal rand' kind (From sig) to sid p = Ok sig ->
     match p with Some p => payload_wf p | None => True end ->
     marshal_signal sig = Ok raw -> r_Body r = raw -> r_BodyOk r = true -> carries r sig /\ Validate sig = None)
    by (intros until 1; by eapply built_carried).
  destruct (sv_closed s) eqn:Hc.
  { eexists. split; [reflexivity|]. cbn. repeat split; try done; naive_solver. }
  destruct (authorize Authenticate r) as [id|e] eqn:Ha.
  2: { assert (Hst : status e <> 202).
       { unfold authorize in Ha. destruct (Authenticate r); [|by injection Ha as <-].
         destruct (_ && _); [by injection Ha as <-|done]. }
       eexists. split; [reflexivity|]. cbn. split; [done|]. split; [intros; congruence|]. split; [done|]. split; [|done].
       intros id sig _ Hs. apply authorize_spec in Hs. congruence. }
  pose proof (serve_send_cases id r s) as Hcases.
  destruct (serveSend cfg id r s) as [rep s']. cbn [fst snd] in *. exists rep. split; [done|].
  apply authorize_spec in Ha.
  destruct Hcases as [(Hno & -> & Hst & Hst')|(sig & Hok & Hcases)].
  - cbn. split; [done|]. split; [done|]. split; [done|]. split; [|done].
    intros id' sig _ Hs' Hca. assert (id' = id) as -> by (destruct Ha, Hs'; congruence).
    split; [intros; by apply (Hst' sig)|]. split; [intros; by apply (Hst' sig)|].
    split; [intros; destruct (Hno sig); by apply send_check_spec|].
    intros. destruct (Hno sig). by apply send_check_spec.
  - pose proof Hok as (Hca & Hfrom & Hval)%send_check_spec.
    assert (Huniq : forall sig', carries r sig' -> sig' = sig) by (intros ? (_ & _ & ?); destruct Hca as (_ & _ & ?); congruence).
    assert (Hid : forall id', sent_by r id' -> id' = id) by (intros ? [? _]; destruct Ha; congruence).
    assert (Hqueued : forall a p data, sv_peers s !! To sig = Some a -> pheap s !! a = Some p ->
      marshal_signal sig = Ok data -> status rep = if fst (fst (enqueue cfg data p)) then 202 else 503).
    { intros a p data E1 E2 E3. unfold queued in Hcases. rewrite E1, E3, E2 in Hcases. by destruct Hcases as (_ & ? & _). }
    assert (Hnone : sv_peers s !! To sig = None -> status rep = 404).
    { intros E1. unfold queued in Hcases. rewrite E1 in Hcases. by destruct Hcases. }
    split; [by eapply queued_peers|]. split; [|split; [|split; [|done]]].
    + intros H202. destruct (queued_accepted _ _ _ _ Hcases H202) as (a & p & data & ?).
      exists id, sig, data, a, p. naive_solver.
    + by eapply queued_refused.
    + intros id' sig' _ Hs' Hca'. rewrite (Hid id' Hs'), (Huniq sig' Hca').
      split; [done|]. split; [congruence|]. split; [auto|]. intros; eauto.
Qed.
End send.

Module PostDemo.
Definition cfg : Config := {| QueueSize := 4; ReplayDepth := 4; OfflineGrace := 30; KeepAlive := 15; MaxPeers := 0 |}.

(** Everyone is who the peer header says. *)
Definition auth (r : request) : result error string := Ok (r_Header r PeerHeader).

Definition body : bytes :=
  match newSignal (replicate 16 (byte_of 7)) KindReject "bob" "alice" "fedcba9876543210fedcba9876543210"
          (Some (PReject {| jp_Code := RejectBusy; jp_Reason := "full" |})) with
  | Ok sig => match marshal_signal sig with Ok raw => raw | Err _ => [] end
  | Err _ => []
  end.

Definition req (method from : string) (b : bytes) : request := {|
  r_Method := method; r_Header := fun h => if bool_decide (h = PeerHeader) then from else "";
  r_Body := b; r_BodyOk := true |}.

(** Alice has opened her stream. *)
Definition s : server := snd (ServeHTTP cfg auth (req "GET" "alice" []) true [] new_server).
Definition out (from : string) : served := fst (ServeHTTP cfg auth (req "POST" from body) true [] s).
End PostDemo.

Example post_delivers_exactly_witness :
  (exists sig, From sig = "bob"%string /\ To sig = "alice"%string /\ Validate sig = None /\
     unmarshal_signal PostDemo.body = Ok sig) /\
  PostDemo.out "mallory" = Replied (Error "signal From does not match the authenticated peer" 403).
Proof.
  destruct (post_delivers_exactly PostDemo.cfg PostDemo.auth (PostDemo.req "POST" "bob" PostDemo.body) true [] PostDemo.s
    eq_refl) as (rep & Hrep & _ & H202 & _).
  split; [|vm_compute; reflexivity].
  destruct H202 as (id & sig & data & a & p & [Hid _] & Hca & Hf & Hv & _ & Hto & _).
  - vm_compute in Hrep. injection Hrep as <-. reflexivity.
  - exists sig. destruct Hca as (_ & _ & Hu). pose proof Hu as Hu'. vm_compute in Hu'. injection Hu' as <-.
    split; [reflexivity|]. split; [reflexivity|]. split; [exact Hv|]. vm_compute. reflexivity.
Defined.
