(* ===== verification/SseMux.v ===== *)
(** * Multiplexed streams and their members (signaling/sse/mux_server.go)

    [agree E F s]: every peer attached to a multiplexed stream is a member of it and every
    member is attached, up to the pairs in [E], which a handler has yet to detach, and in
    [F], which it has yet to attach. Each operation of the server is a rule of this
    invariant. [mux_agreement]: when the handlers run one after the other nothing is
    pending; [takeover_reported] says what a takeover does. When a join overlaps with
    another join or a leave of the same peer, the agreement can break
    ([joins_race], [leave_race]). *)

From Stdlib Require Import String.
From S2P Require Import Prelude.
From S2P Require Import Errors.
From S2P Require Import Signal.
From S2P Require Import Envelope.
From S2P Require Import SsePeer.
From S2P Require Import SseServer.

#[local] Arguments marshal_signal : simpl never.
#[local] Arguments unmarshal_signal : simpl never.
#[local] Arguments Validate : simpl never.

Abbreviation pairs := (gset (nat * nat)) (only parsing).

Record agree (E F : pairs) (s : server) : Prop := {
  ag_att : forall a p att m id, pheap s !! a = Some p -> stream p = Some att ->
    atts s !! att = Some (AttMux m id) ->
    (a, att) ∈ E \/ exists x, mheap s !! m = Some x /\ members x !! id = Some (a, att);
  ag_mem : forall m x id a att, mheap s !! m = Some x -> members x !! id = Some (a, att) ->
    atts s !! att = Some (AttMux m id) /\
    ((a, att) ∈ F \/ exists p, pheap s !! a = Some p /\ stream p = Some att);
  ag_id : forall a p att m id, pheap s !! a = Some p -> stream p = Some att ->
    atts s !! att = Some (AttMux m id) -> p_id p = id;
  ag_closed : forall m x, mheap s !! m = Some x -> m_closed x = true -> members x = ∅;
  ag_fresh : forall k, (fresh_addr s <= k)%nat ->
    atts s !! k = None /\ pheap s !! k = None /\ mheap s !! k = None;
  ag_old : forall a p att, pheap s !! a = Some p -> stream p = Some att -> (att < fresh_addr s)%nat;
  ag_uniq : forall a b p q att, pheap s !! a = Some p -> pheap s !! b = Some q ->
    stream p = Some att -> stream q = Some att -> a = b;
  ag_reg : forall id a, sv_peers s !! id = Some a -> exists p, pheap s !! a = Some p /\ p_id p = id
}.

Lemma agree_weaken E E' F F' s : E ⊆ E' -> F ⊆ F' -> agree E F s -> agree E' F' s.
Proof.
  intros HE HF [A1 A2 A3 A4 A5 A6 A8 A7]. split; try done.
  - intros. destruct (A1 a p att m id) as [?|?]; auto.
  - intros. destruct (A2 m x id a att) as [? [?|?]]; auto.
Qed.

Lemma agree_new : agree ∅ ∅ new_server.
Proof. split; simpl; intros; simplify_map_eq; try done. Qed.

(** ** Frame rules *)

(** A peer changes, its stream and identity do not. *)
Lemma agree_peer E F s a p p' :
  agree E F s -> pheap s !! a = Some p -> stream p' = stream p -> p_id p' = p_id p ->
  agree E F (s <| pheap := <[a := p']> (pheap s) |>).
Proof.
  intros [A1 A2 A3 A4 A5 A6 A8 A7] Hp Hs Hi. split; simpl; try done.
  - intros b q att m id Hb Hq. apply lookup_insert_Some in Hb as [[<- <-]|[_ Hb]]; [|by eapply A1].
    rewrite Hs in Hq. by eapply A1.
  - intros m x id b att Hm Hx. destruct (A2 m x id b att Hm Hx) as [Ha [Hf|(q & Hq & Hst)]]; split; auto.
    right. destruct (decide (a = b)) as [<-|Hne].
    + exists p'. rewrite lookup_insert_eq. split; [done|]. congruence.
    + exists q. by rewrite lookup_insert_ne.
  - intros b q att m id Hb Hq. apply lookup_insert_Some in Hb as [[<- <-]|[_ Hb]]; [|by eapply A3].
    rewrite Hi. rewrite Hs in Hq. by eapply A3.
  - intros k Hk. destruct (A5 k Hk) as (? & Hn & ?). split_and!; try done.
    rewrite lookup_insert_ne; [done|]. intros <-. congruence.
  - intros b q att Hb Hq. apply lookup_insert_Some in Hb as [[<- <-]|[_ Hb]]; [|by eapply A6].
    rewrite Hs in Hq. by eapply A6.
  - intros b c q q' att Hb Hc Hq Hq'. apply lookup_insert_Some in Hb as [[<- <-]|[_ Hb]];
      apply lookup_insert_Some in Hc as [[<- <-]|[_ Hc]]; rewrite ?Hs in *; eauto; congruence.
  - intros id b Hb. destruct (A7 id b Hb) as (q & Hq & Hid). destruct (decide (a = b)) as [<-|Hne].
    + exists p'. rewrite lookup_insert_eq. split; [done|]. congruence.
    + exists q. by rewrite lookup_insert_ne.
Qed.

(** A peer loses its stream, which is no member, or one still to attach. *)
Lemma agree_unstream E F s a p p' :
  agree E F s -> pheap s !! a = Some p -> stream p' = None -> p_id p' = p_id p ->
  (forall m x id att, stream p = Some att -> mheap s !! m = Some x -> members x !! id = Some (a, att) -> (a, att) ∈ F) ->
  agree (filter (fun q => q.1 <> a) E) F (s <| pheap := <[a := p']> (pheap s) |>).
Proof.
  intros [A1 A2 A3 A4 A5 A6 A8 A7] Hp Hs Hi Hno. split; simpl; try done.
  - intros b q att m id Hb Hq. apply lookup_insert_Some in Hb as [[<- <-]|[Hne Hb]]; [congruence|].
    intros Hat. destruct (A1 b q att m id Hb Hq Hat) as [HE|?]; [left|by right].
    apply elem_of_filter. split; [simpl; congruence|done].
  - intros m x id b att Hm Hx. destruct (A2 m x id b att Hm Hx) as [Ha [Hf|(q & Hq & Hst)]]; split; auto.
    destruct (decide (a = b)) as [<-|Hne].
    + left. eapply Hno; [|exact Hm|exact Hx]. congruence.
    + right. exists q. by rewrite lookup_insert_ne.
  - intros b q att m id Hb Hq. apply lookup_insert_Some in Hb as [[<- <-]|[_ Hb]]; [congruence|by eapply A3].
  - intros k Hk. destruct (A5 k Hk) as (? & Hn & ?). split_and!; try done.
    rewrite lookup_insert_ne; [done|]. intros <-. congruence.
  - intros b q att Hb Hq. apply lookup_insert_Some in Hb as [[<- <-]|[_ Hb]]; [congruence|by eapply A6].
  - intros b c q q' att Hb Hc Hq Hq'. apply lookup_insert_Some in Hb as [[<- <-]|[_ Hb]];
      apply lookup_insert_Some in Hc as [[<- <-]|[_ Hc]]; rewrite ?Hs in *; eauto; congruence.
  - intros id b Hb. destruct (A7 id b Hb) as (q & Hq & Hid). destruct (decide (a = b)) as [<-|Hne].
    + exists p'. rewrite lookup_insert_eq. split; [done|]. congruence.
    + exists q. by rewrite lookup_insert_ne.
Qed.

(** A peer gets the stream [att]; the one it had is pending from then on. *)
Lemma agree_restream E F s a p p' att :
  agree E F s -> pheap s !! a = Some p -> stream p' = Some att -> p_id p' = p_id p ->
  (att < fresh_addr s)%nat -> (forall b q, pheap s !! b = Some q -> stream q = Some att -> b = a) ->
  match atts s !! att with Some (AttMux m id) =>
    p_id p = id /\ exists x, mheap s !! m = Some x /\ members x !! id = Some (a, att) | _ => True end ->
  agree (filter (fun q => q.1 <> a) E) ((F ∖ {[(a, att)]}) ∪ match stream p with Some o => {[(a, o)]} | None => ∅ end)
    (s <| pheap := <[a := p']> (pheap s) |>).
Proof.
  intros [A1 A2 A3 A4 A5 A6 A8 A7] Hp Hs Hi Hlt Huq Hmem. split; simpl; try done.
  - intros b q att' m id Hb Hq Hat. apply lookup_insert_Some in Hb as [[<- <-]|[Hne Hb]].
    + right. rewrite Hs in Hq. injection Hq as <-. rewrite Hat in Hmem. destruct Hmem as [_ Hx]. exact Hx.
    + destruct (A1 b q att' m id Hb Hq Hat) as [HE|?]; [left|by right].
      apply elem_of_filter. split; [simpl; congruence|done].
  - intros m x id b att' Hm Hx. destruct (A2 m x id b att' Hm Hx) as [Ha Hc]. split; [done|].
    destruct (decide (a = b)) as [<-|Hne].
    + destruct (decide (att' = att)) as [->|Hna].
      * right. exists p'. by rewrite lookup_insert_eq.
      * left. apply elem_of_union. destruct Hc as [Hf|(q & Hq & Hst)]; [left; set_solver|right].
        assert (q = p) as -> by congruence. rewrite Hst. set_solver.
    + destruct Hc as [Hf|(q & Hq & Hst)]; [left; set_solver|right; exists q; by rewrite lookup_insert_ne].
  - intros b q att' m id Hb Hq Hat. apply lookup_insert_Some in Hb as [[<- <-]|[_ Hb]]; [|by eapply A3].
    rewrite Hs in Hq. injection Hq as <-. rewrite Hat in Hmem. destruct Hmem. congruence.
  - intros k Hk. destruct (A5 k Hk) as (? & Hn & ?). split_and!; try done.
    rewrite lookup_insert_ne; [done|]. intros <-. congruence.
  - intros b q att' Hb Hq. apply lookup_insert_Some in Hb as [[<- <-]|[_ Hb]]; [congruence|by eapply A6].
  - intros b c q q' att' Hb Hc Hq Hq'. apply lookup_insert_Some in Hb as [[<- <-]|[_ Hb]];
      apply lookup_insert_Some in Hc as [[<- <-]|[_ Hc]]; rewrite ?Hs in *; eauto.
    + injection Hq as <-. symmetry. by eapply Huq, Hq'.
    + injection Hq' as <-. by eapply Huq, Hq.
  - intros id b Hb. destruct (A7 id b Hb) as (q & Hq & Hid). destruct (decide (a = b)) as [<-|Hne].
    + exists p'. rewrite lookup_insert_eq. split; [done|]. congruence.
    + exists q. by rewrite lookup_insert_ne.
Qed.

(** A multiplexed stream changes, its members do not. *)
Lemma agree_mux E F s m x x' :
  agree E F s -> mheap s !! m = Some x -> members x' = members x -> m_closed x' = m_closed x ->
  agree E F (s <| mheap := <[m := x']> (mheap s) |>).
Proof.
  intros [A1 A2 A3 A4 A5 A6 A8 A7] Hm Hs Hc. split; simpl; try done.
  - intros a p att m' id Ha Hp Hat. destruct (A1 a p att m' id Ha Hp Hat) as [?|(y & Hy & Hid)]; [by left|].
    right. destruct (decide (m = m')) as [<-|Hne]; [|exists y; by rewrite lookup_insert_ne].
    exists x'. rewrite lookup_insert_eq. split; [done|]. congruence.
  - intros m' y id a att Hy Hid. apply lookup_insert_Some in Hy as [[<- <-]|[_ Hy]]; [|by eapply A2].
    rewrite Hs in Hid. by eapply A2.
  - intros m' y Hy. apply lookup_insert_Some in Hy as [[<- <-]|[_ Hy]]; [|by eapply A4].
    rewrite Hc, Hs. by eapply A4.
  - intros k Hk. destruct (A5 k Hk) as (? & ? & Hn). split_and!; try done.
    rewrite lookup_insert_ne; [done|]. intros <-. congruence.
Qed.

(** Flags of an attachment of a single stream. *)
Lemma agree_flags E F s att w e w' e' :
  agree E F s -> atts s !! att = Some (AttStream w e) ->
  agree E F (s <| atts := <[att := AttStream w' e']> (atts s) |>).
Proof.
  intros [A1 A2 A3 A4 A5 A6 A8 A7] Ha. split; simpl; try done.
  - intros a p att' m id Hp Hs Hat. apply lookup_insert_Some in Hat as [[_ ?]|[_ Hat]]; [done|by eapply A1].
  - intros m x id a att' Hm Hx. destruct (A2 m x id a att' Hm Hx) as [Hat ?]. split; [|done].
    rewrite lookup_insert_ne; [done|]. congruence.
  - intros a p att' m id Hp Hs Hat. apply lookup_insert_Some in Hat as [[_ ?]|[_ Hat]]; [done|by eapply A3].
  - intros k Hk. destruct (A5 k Hk) as (Hn & ? & ?). split_and!; try done.
    rewrite lookup_insert_ne; [done|]. congruence.
Qed.

(** A member that no peer is attached by is removed. *)
Lemma agree_remove E F s m x id a att x' :
  agree E F s -> mheap s !! m = Some x -> members x !! id = Some (a, att) ->
  (forall b p, pheap s !! b = Some p -> stream p = Some att -> (b, att) ∈ E) ->
  members x' = delete id (members x) -> m_closed x' = m_closed x ->
  agree E (filter (fun q => q.2 <> att) F) (s <| mheap := <[m := x']> (mheap s) |>).
Proof.
  intros [A1 A2 A3 A4 A5 A6 A8 A7] Hm Hx Hno Hs Hc. destruct (A2 _ _ _ _ _ Hm Hx) as [Hat _].
  split; simpl; try done.
  - intros b p att' m' id' Ha Hp Hat'. destruct (A1 b p att' m' id' Ha Hp Hat') as [?|(y & Hy & Hid)]; [by left|].
    destruct (decide (att' = att)) as [->|Hne]; [left; by eapply Hno|]. right.
    destruct (decide (m = m')) as [<-|Hnm]; [|exists y; by rewrite lookup_insert_ne].
    exists x'. rewrite lookup_insert_eq. split; [done|]. rewrite Hs. assert (y = x) as -> by congruence.
    rewrite lookup_delete_ne; [done|]. intros <-. congruence.
  - intros m' y id' b att' Hy Hid.
    assert (Hold : exists y', mheap s !! m' = Some y' /\ members y' !! id' = Some (b, att') /\ (m' = m -> id' <> id)).
    { apply lookup_insert_Some in Hy as [[<- <-]|[Hne Hy]]; [|by exists y].
      rewrite Hs in Hid. apply lookup_delete_Some in Hid as [Hne Hid]. by exists x. }
    destruct Hold as (y' & Hy' & Hid' & Hne). destruct (A2 m' y' id' b att' Hy' Hid') as [Ha Hf]. split; [done|].
    destruct Hf as [Hf|?]; [left|by right]. apply elem_of_filter. split; [|done]. simpl. intros ->.
    rewrite Hat in Ha. injection Ha as <- <-. by apply Hne.
  - intros m' y Hy. apply lookup_insert_Some in Hy as [[<- <-]|[_ Hy]]; [|by eapply A4].
    rewrite Hc, Hs. intros Hcl. rewrite (A4 m x Hm Hcl). apply delete_empty.
  - intros k Hk. destruct (A5 k Hk) as (? & ? & Hn). split_and!; try done.
    rewrite lookup_insert_ne; [done|]. intros <-. congruence.
Qed.

(** ** The operations *)

Definition keeps {A} (m : state_m server A) : Prop := forall E F s, agree E F s -> agree E F (snd (m s)).

Lemma agrees_ret {A} (a : A) : keeps (mret a).
Proof. by intros E F s. Qed.

Lemma agrees_bind {A B} (m : state_m server A) (k : A -> state_m server B) :
  keeps m -> (forall a, keeps (k a)) -> keeps (m ≫= k).
Proof.
  intros Hm Hk E F s Hs. unfold mbind, state_m_bind. specialize (Hm E F s Hs).
  destruct (m s) as [a s']. by apply Hk.
Qed.

Lemma agrees_gets {A} (f : server -> A) : keeps (gets f).
Proof. by intros E F s. Qed.

Lemma keeps_poke att : keeps (poke att).
Proof.
  intros E F s Hs. unfold poke, mbind, state_m_bind, get_s.
  destruct (atts s !! att) as [[w e|m id]|] eqn:Ea; [by eapply agree_flags| |done].
  unfold on_mux. destruct (mheap s !! m) as [x|] eqn:Em; [|done]. by eapply agree_mux.
Qed.

Lemma keeps_opt_poke o : keeps (opt_do poke o).
Proof. destruct o; [apply keeps_poke|apply agrees_ret]. Qed.

Lemma keeps_on_peer {A} (d : A) a f :
  (forall p, stream (snd (f p)) = stream p /\ p_id (snd (f p)) = p_id p) -> keeps (on_peer d a f).
Proof.
  intros Hf E F s Hs. unfold on_peer. destruct (pheap s !! a) as [p|] eqn:Hp; [|done].
  pose proof (Hf p) as [H1 H2]. destruct (f p) as [x p']. by eapply agree_peer.
Qed.

Lemma keeps_enqueue cfg a data : keeps (sv_enqueue cfg a data).
Proof.
  apply agrees_bind; [|intros r; apply agrees_bind; [apply keeps_opt_poke|intros; apply agrees_ret]].
  apply keeps_on_peer. intros p. unfold enqueue. destruct (down p); [done|]. by destruct (_ <=? _).
Qed.

Lemma take_same cfg att p :
  stream (snd (takeUnsent cfg att p)) = stream p /\ p_id (snd (takeUnsent cfg att p)) = p_id p.
Proof.
  unfold takeUnsent. case_bool_decide; [|done]. cbn [snd].
  destruct (last (unsent (sentUpTo p) (plog p))); destruct (0 <? _); done.
Qed.

Lemma keeps_take cfg a att : keeps (sv_take cfg a att).
Proof. apply keeps_on_peer. intros. apply take_same. Qed.

Lemma keeps_expire_mark a : keeps (expire_mark a).
Proof. apply keeps_on_peer. intros p. unfold expire. by destruct (_ || _). Qed.

Lemma keeps_forget a : keeps (forget a).
Proof.
  intros E F s [A1 A2 A3 A4 A5 A6 A8 A7]. unfold forget, mbind, state_m_bind, get_s.
  destruct (pheap s !! a) as [p|]; [|done]. case_bool_decide; [|done]. split; simpl; try done.
  intros id b Hb. apply lookup_delete_Some in Hb as [_ Hb]. auto.
Qed.

Lemma keeps_expire a : keeps (sv_expire a).
Proof. apply agrees_bind; [apply keeps_expire_mark|]. intros []; [apply keeps_forget|apply agrees_ret]. Qed.

(** [end] of an attachment by which no peer is attached any more. *)
Lemma agree_end E F s att reason :
  agree E F s -> (forall b p, pheap s !! b = Some p -> stream p = Some att -> (b, att) ∈ E) ->
  agree E (filter (fun q => q.2 <> att) F) (snd (att_end att reason s)).
Proof.
  intros Hs Hno. unfold att_end, mbind, state_m_bind, get_s.
  assert (Hnot : (forall m x id a, mheap s !! m = Some x -> members x !! id <> Some (a, att)) ->
    agree E (filter (fun q => q.2 <> att) F) s).
  { intros Hn. destruct Hs as [A1 A2 A3 A4 A5 A6 A8 A7]. split; try done.
    intros m x id a att' Hm Hx. destruct (A2 m x id a att' Hm Hx) as [Ha [Hf|?]]; split; auto.
    left. apply elem_of_filter. split; [|done]. simpl. intros ->. by eapply Hn. }
  destruct (atts s !! att) as [[w e|m id]|] eqn:Ea.
  - eapply agree_flags; [|exact Ea]. apply Hnot. intros m x id a Hm Hx.
    destruct (ag_mem _ _ _ Hs _ _ _ _ _ Hm Hx). congruence.
  - unfold ended, on_mux. destruct (mheap s !! m) as [x|] eqn:Em.
    + destruct (members x !! id) as [[a att']|] eqn:Ex.
      * case_bool_decide as Hd; cbn [snd].
        -- subst att'. eapply agree_remove; [exact Hs|exact Em|exact Ex|exact Hno| |]; simpl; by case_bool_decide.
        -- eapply agree_mux; [|exact Em|done|done]. apply Hnot. intros m' x' id' a' Hm' Hx'.
           destruct (ag_mem _ _ _ Hs _ _ _ _ _ Hm' Hx') as [Ha _]. congruence.
      * cbn [snd]. eapply agree_mux; [|exact Em|done|done]. apply Hnot. intros m' x' id' a' Hm' Hx'.
        destruct (ag_mem _ _ _ Hs _ _ _ _ _ Hm' Hx') as [Ha _]. congruence.
    + apply Hnot. intros m' x' id' a' Hm' Hx'. destruct (ag_mem _ _ _ Hs _ _ _ _ _ Hm' Hx') as [Ha _]. congruence.
  - apply Hnot. intros m' x' id' a' Hm' Hx'. destruct (ag_mem _ _ _ Hs _ _ _ _ _ Hm' Hx') as [Ha _]. congruence.
Qed.

Lemma agree_drop E F s a att :
  agree E F s -> (forall p, pheap s !! a = Some p -> stream p <> Some att) -> agree (E ∖ {[(a, att)]}) F s.
Proof.
  intros [A1 A2 A3 A4 A5 A6 A8 A7] Hn. split; try done.
  intros b p att' m id Hb Hp Hat. destruct (A1 b p att' m id Hb Hp Hat) as [?|?]; [left|by right].
  apply elem_of_difference. split; [done|]. rewrite elem_of_singleton. intros [= -> ->]. by eapply Hn.
Qed.

Lemma agree_detach E F s a att :
  agree E F s -> (forall m x id, mheap s !! m = Some x -> members x !! id <> Some (a, att)) ->
  agree (E ∖ {[(a, att)]}) F (snd (sv_detach a att s)).
Proof.
  intros Hs Hno. unfold sv_detach, on_peer. destruct (pheap s !! a) as [p|] eqn:Hp.
  - cbn [snd]. unfold detach. case_bool_decide as Hst.
    + eapply agree_weaken; [| |apply (agree_unstream E F s a p)]; try done.
      * intros [b o] [Hne Hin]%elem_of_filter. simpl in Hne. set_solver.
      * simpl. by destruct (down p).
      * simpl. by destruct (down p).
      * intros m x id o Ho Hm Hx. assert (o = att) as -> by congruence. by destruct (Hno m x id Hm).
    + eapply agree_peer; [|exact Hp|done|done]. apply agree_drop; [done|]. intros q Hq. congruence.
  - cbn [snd]. apply agree_drop; [done|]. congruence.
Qed.

(** The end of the stream a peer just lost. *)
Lemma agree_end_old E F s a old reason :
  agree E (F ∪ {[(a, old)]}) s -> (forall b p, pheap s !! b = Some p -> stream p <> Some old) ->
  agree E F (snd (att_end old reason s)).
Proof.
  intros Hs Hno. eapply agree_weaken; [done| |apply (agree_end E (F ∪ {[(a, old)]}) s old reason Hs)].
  - intros [b o] [Hne Hin]%elem_of_filter. simpl in Hne. set_solver.
  - intros b p Hb Hst. by destruct (Hno b p Hb).
Qed.

Lemma agree_attach E F s a p att lastID :
  agree E F s -> pheap s !! a = Some p -> (att < fresh_addr s)%nat ->
  (forall b q, pheap s !! b = Some q -> stream q <> Some att) ->
  match atts s !! att with Some (AttMux m id) =>
    p_id p = id /\ exists x, mheap s !! m = Some x /\ members x !! id = Some (a, att) | _ => True end ->
  agree (filter (fun q => q.1 <> a) E) (F ∖ {[(a, att)]}) (snd (sv_attach a att lastID s)).
Proof.
  intros Hs Hp Hlt Hno Hmem. unfold sv_attach, on_peer, mbind, state_m_bind. rewrite Hp.
  set (p' := snd (attach att lastID p)).
  assert (Hatt : attach att lastID p = (stream p, p')) by (unfold p', attach; done).
  assert (Hst : stream p' = Some att) by (unfold p', attach; simpl; by destruct (_ <? _)).
  assert (Hid : p_id p' = p_id p) by (unfold p', attach; simpl; by destruct (_ <? _)).
  rewrite Hatt. pose proof (agree_restream E F s a p p' att Hs Hp Hst Hid Hlt
    (fun b q Hb Hq => False_ind _ (Hno b q Hb Hq)) Hmem) as Hr.
  set (s1 := s <| pheap := <[a := p']> (pheap s) |>) in *.
  destruct (stream p) as [old|] eqn:Eo; cbn [opt_do].
  - assert (He : agree (filter (fun q => q.1 <> a) E) (F ∖ {[(a, att)]}) (snd (att_end old eventReplaced s1))).
    { eapply agree_end_old; [exact Hr|]. intros b q Hb Hq. unfold s1 in Hb. simpl in Hb.
      apply lookup_insert_Some in Hb as [[<- <-]|[Hne Hb]].
      - rewrite Hst in Hq. injection Hq as ->. by eapply Hno.
      - apply Hne. by eapply (ag_uniq _ _ _ Hs). }
    destruct (att_end old eventReplaced s1) as [[] s2]. by apply keeps_poke.
  - rewrite union_empty_r_L in Hr. by apply keeps_poke.
Qed.

Lemma agree_shutdown E F s a : agree E F s -> agree E F (snd (sv_shutdown a s)).
Proof.
  intros Hs. unfold sv_shutdown, on_peer, mbind, state_m_bind. destruct (pheap s !! a) as [p|] eqn:Hp; [|done].
  set (p' := snd (shutdown p)). assert (Hsh : shutdown p = (stream p, p')) by done. rewrite Hsh.
  destruct (stream p) as [old|] eqn:Eo; cbn [opt_do].
  - apply (agree_end_old _ _ _ a).
    + eapply agree_weaken; [|done|eapply (agree_unstream E _ s a p p')]; try done.
      * intros q [_ Hq]%elem_of_filter. exact Hq.
      * eapply agree_weaken; [done| |exact Hs]. set_solver.
      * intros m x id att Ha _ _. assert (att = old) as -> by congruence. set_solver.
    + intros b q Hb Hq. simpl in Hb. apply lookup_insert_Some in Hb as [[<- <-]|[Hne Hb]]; [done|].
      apply Hne. by eapply (ag_uniq _ _ _ Hs).
  - eapply agree_weaken; [|done|eapply (agree_unstream E F s a p p')]; try done.
    + intros q [_ Hq]%elem_of_filter. exact Hq.
    + intros m x id att Ha. congruence.
Qed.

(** ** The handlers *)

Lemma agree_new_att E F s v :
  agree E F s ->
  agree E F (s <| fresh_addr ::= S |> <| atts := <[fresh_addr s := v]> (atts s) |>).
Proof.
  intros [A1 A2 A3 A4 A5 A6 A8 A7]. destruct (A5 (fresh_addr s) ltac:(lia)) as (N1 & N2 & N3).
  split; simpl; try done.
  - intros a p att m id Hp Hst Hat. rewrite lookup_insert_ne in Hat by (specialize (A6 a p att Hp Hst); lia).
    by eapply A1.
  - intros m x id a att Hm Hx. destruct (A2 m x id a att Hm Hx) as [Ha ?]. split; [|done].
    rewrite lookup_insert_ne; [done|]. congruence.
  - intros a p att m id Hp Hst Hat. rewrite lookup_insert_ne in Hat by (specialize (A6 a p att Hp Hst); lia).
    by eapply A3.
  - intros k Hk. destruct (A5 k ltac:(lia)) as (? & ? & ?). split_and!; try done. rewrite lookup_insert_ne by lia. done.
  - intros a p att Hp Hst. specialize (A6 a p att Hp Hst). lia.
Qed.

Lemma admit_peer_spec cfg id E F s :
  agree E F s ->
  wp (admit_peer cfg id) (fun r s' => agree E F s' /\ (fresh_addr s <= fresh_addr s')%nat /\
    match r with Ok a => exists p, pheap s' !! a = Some p /\ p_id p = id | Err _ => True end) s.
Proof.
  intros Hs. unfold admit_peer. apply wp_bind, wp_get. destruct (sv_closed s); [by apply wp_ret|].
  destruct (sv_peers s !! id) as [a|] eqn:Ea.
  { apply wp_ret. split; [done|]. split; [done|]. by apply (ag_reg _ _ _ Hs). }
  destruct (_ && _); [by apply wp_ret|]. apply wp_bind. unfold alloc, wp at 1. cbn [fst snd].
  apply wp_bind, wp_modify, wp_ret.
  destruct Hs as [A1 A2 A3 A4 A5 A6 A8 A7]. destruct (A5 (fresh_addr s) ltac:(lia)) as (N1 & N2 & N3).
  split; [|split; [simpl; lia|exists (newPeer id); simpl; by rewrite lookup_insert_eq]]. split; simpl; try done.
  - intros b p att m i Hb Hst. apply lookup_insert_Some in Hb as [[<- <-]|[_ Hb]]; [done|by eapply A1].
  - intros m x i b att Hm Hx. destruct (A2 m x i b att Hm Hx) as [Ha [?|(p & Hp & Hst)]]; split; auto.
    right. exists p. rewrite lookup_insert_ne; [done|]. congruence.
  - intros b p att m i Hb Hst. apply lookup_insert_Some in Hb as [[<- <-]|[_ Hb]]; [done|by eapply A3].
  - intros k Hk. destruct (A5 k ltac:(lia)) as (? & ? & ?). split_and!; try done. rewrite lookup_insert_ne by lia. done.
  - intros b p att Hb Hst. apply lookup_insert_Some in Hb as [[<- <-]|[_ Hb]]; [done|].
    specialize (A6 b p att Hb Hst). lia.
  - intros b c p q att Hb Hc Hst Hst'. apply lookup_insert_Some in Hb as [[<- <-]|[_ Hb]]; [done|].
    apply lookup_insert_Some in Hc as [[<- <-]|[_ Hc]]; [done|eauto].
  - intros i b Hb. apply lookup_insert_Some in Hb as [[<- <-]|[_ Hb]].
    + exists (newPeer id). by rewrite lookup_insert_eq.
    + destruct (A7 i b Hb) as (p & Hp & Hi). exists p. rewrite lookup_insert_ne; [done|]. congruence.
Qed.

(** Serial handlers leave nothing pending. *)
Definition tidy {A} (m : state_m server A) : Prop := forall s, agree ∅ ∅ s -> agree ∅ ∅ (snd (m s)).

Lemma tidy_keeps {A} (m : state_m server A) : keeps m -> tidy m.
Proof. intros Hm s. apply Hm. Qed.

Lemma tidy_bind {A B} (m : state_m server A) (k : A -> state_m server B) :
  tidy m -> (forall a, tidy (k a)) -> tidy (m ≫= k).
Proof.
  intros Hm Hk s Hs. unfold mbind, state_m_bind. specialize (Hm s Hs). destruct (m s) as [a s']. by apply Hk.
Qed.

Lemma tidy_stream_open cfg id r opened : tidy (stream_open cfg id r opened).
Proof.
  intros s Hs. unfold stream_open.
  pose proof (admit_peer_spec cfg id ∅ ∅ s Hs) as Ha. unfold wp in Ha. unfold mbind at 1, state_m_bind at 1.
  destruct (admit_peer cfg id s) as [[a|e] s1]; cbn [fst snd] in Ha; destruct Ha as (Ha & _ & Hp).
  - destruct (last_event r) as [lastID|]; [|done]. destruct opened; cbn [negb]; [|done].
    unfold alloc, modify, mbind, state_m_bind. cbn.
    destruct Hp as (p & Hp & _).
    pose proof (agree_new_att ∅ ∅ s1 (AttStream false None) Ha) as Hn.
    set (s2 := s1 <| fresh_addr ::= S |> <| atts := _ |>) in *.
    pose proof (agree_attach ∅ ∅ s2 a p (fresh_addr s1) lastID Hn Hp) as Hat.
    destruct (sv_attach a (fresh_addr s1) lastID s2) as [[] s3] eqn:Es.
    assert (H3 : agree (filter (fun q => q.1 <> a) ∅) (∅ ∖ {[(a, fresh_addr s1)]}) s3).
    { apply Hat.
      - simpl. lia.
      - intros b q Hb Hq. pose proof (ag_old _ _ _ Ha b q _ Hb Hq). lia.
      - simpl. by rewrite lookup_insert_eq. }
    match goal with |- context [sv_attach a _ lastID ?x] => change x with s2 end. rewrite Es.
    eapply agree_weaken; [| |exact H3]; set_solver.
  - by destruct e.
Qed.

Lemma keeps_batch cfg a att : keeps (stream_batch cfg a att).
Proof. apply agrees_bind; [apply keeps_take|intros; apply agrees_ret]. Qed.

Lemma keeps_wait att c : keeps (stream_wait att c).
Proof.
  intros E F s Hs. unfold stream_wait, mbind, state_m_bind, get_s.
  destruct (atts s !! att) as [[[] [e|]|m id]|] eqn:Ea, c; try done; by eapply agree_flags.
Qed.

(** A single stream's end. *)
Lemma tidy_stream_end a att s :
  agree ∅ ∅ s -> (forall m id, atts s !! att <> Some (AttMux m id)) -> agree ∅ ∅ (snd (sv_detach a att s)).
Proof.
  intros Hs Hno. eapply agree_weaken; [| |apply (agree_detach ∅ ∅)]; try done; [set_solver|].
  intros m x id Hm Hx. destruct (ag_mem _ _ _ Hs _ _ _ _ _ Hm Hx) as [Ha _]. by eapply Hno.
Qed.

Lemma keeps_on_mux {A} (d : A) m f :
  (forall x, members (snd (f x)) = members x /\ m_closed (snd (f x)) = m_closed x) -> keeps (on_mux d m f).
Proof.
  intros Hf E F s Hs. unfold on_mux. destruct (mheap s !! m) as [x|] eqn:Hm; [|done].
  pose proof (Hf x) as [H1 H2]. destruct (f x) as [r x']. by eapply agree_mux.
Qed.

Lemma keeps_take_all cfg l : keeps (take_all cfg l).
Proof.
  induction l as [|[a att] l IH]; [apply agrees_ret|].
  apply agrees_bind; [apply keeps_batch|]. intros. apply agrees_bind; [done|]. intros. apply agrees_ret.
Qed.

Lemma keeps_mux_batch cfg m : keeps (mux_batch cfg m).
Proof.
  apply agrees_bind; [by apply keeps_on_mux|]. intros. apply agrees_bind; [apply keeps_take_all|]. intros.
  apply agrees_bind; [by apply keeps_on_mux|]. intros. apply agrees_ret.
Qed.

Lemma keeps_mux_wait m c : keeps (mux_wait m c).
Proof.
  intros E F s Hs. unfold mux_wait, mbind, state_m_bind, get_s.
  destruct (mheap s !! m) as [x|] eqn:Em; [|done]. destruct c; [|done|by destruct (m_down x)].
  destruct (m_wake x); [|done]. unfold on_mux. rewrite Em. by eapply agree_mux.
Qed.

(** The members of a stream become pending when they are taken off it. *)
Lemma agree_replace E F s m x x' P :
  agree E F s -> mheap s !! m = Some x ->
  (forall id a att, members x' !! id = Some (a, att) ->
     members x !! id = Some (a, att) \/ ((a, att) ∈ F /\ atts s !! att = Some (AttMux m id))) ->
  (forall id a att, members x !! id = Some (a, att) -> members x' !! id <> Some (a, att) -> (a, att) ∈ P) ->
  (m_closed x' = true -> members x' = ∅) ->
  agree (E ∪ P) F (s <| mheap := <[m := x']> (mheap s) |>).
Proof.
  intros [A1 A2 A3 A4 A5 A6 A8 A7] Hm Hin Hout Hc. split; simpl; try done.
  - intros a p att m' id Hp Hst Hat. destruct (A1 a p att m' id Hp Hst Hat) as [?|(y & Hy & Hid)]; [left; set_solver|].
    destruct (decide (m = m')) as [<-|Hne]; [|right; exists y; by rewrite lookup_insert_ne].
    assert (y = x) as -> by congruence. destruct (decide (members x' !! id = Some (a, att))).
    + right. exists x'. by rewrite lookup_insert_eq.
    + left. apply elem_of_union. right. by eapply Hout.
  - intros m' y id a att Hy Hid. apply lookup_insert_Some in Hy as [[<- <-]|[_ Hy]]; [|by eapply A2].
    destruct (Hin id a att Hid) as [Hx|[Hf Ha]]; [by eapply A2|]. split; [done|by left].
  - intros m' y Hy. apply lookup_insert_Some in Hy as [[<- <-]|[_ Hy]]; [done|by eapply A4].
  - intros k Hk. destruct (A5 k Hk) as (? & ? & Hn). split_and!; try done.
    rewrite lookup_insert_ne; [done|]. intros <-. congruence.
Qed.

Lemma tidy_leave m id : tidy (leave m id).
Proof.
  intros s Hs. unfold leave, leave_remove, on_mux, mbind, state_m_bind.
  destruct (mheap s !! m) as [x|] eqn:Em; [|done].
  set (x' := x <| members := delete id (members x) |>).
  assert (Hl : forall P, (forall a att, members x !! id = Some (a, att) -> (a, att) ∈ P) ->
    agree (∅ ∪ P) ∅ (s <| mheap := <[m := x']> (mheap s) |>)).
  { intros P HP. eapply agree_replace; [exact Hs|exact Em| | |].
    - intros i a att Hx. left. simpl in Hx. by apply lookup_delete_Some in Hx as [_ Hx].
    - intros i a att Hx Hn. simpl in Hn. destruct (decide (id = i)) as [<-|Hne]; [by apply HP|].
      destruct Hn. by rewrite lookup_delete_ne.
    - simpl. intros Hc. rewrite (ag_closed _ _ _ Hs m x Em Hc). apply delete_empty. }
  destruct (members x !! id) as [[a att]|] eqn:Ex; cbn [opt_do fst snd].
  - specialize (Hl {[(a, att)]} ltac:(set_solver)).
    eapply agree_weaken; [| |apply (agree_detach (∅ ∪ {[(a, att)]}) ∅ _ a att Hl)]; [set_solver|done|].
    intros m' y i Hy Hi. simpl in Hy. destruct (ag_mem _ _ _ Hs _ _ _ _ _ Em Ex) as [Ha _].
    destruct (ag_mem _ _ _ Hl m' y i a att Hy Hi) as [Ha' _]. simpl in Ha'.
    rewrite Ha in Ha'. injection Ha' as <- <-. rewrite lookup_insert_eq in Hy. injection Hy as <-.
    simpl in Hi. by rewrite lookup_delete_eq in Hi.
  - specialize (Hl ∅). rewrite union_empty_l_L in Hl. apply Hl. congruence.
Qed.

Lemma sv_detach_frame a att s :
  mheap (snd (sv_detach a att s)) = mheap s /\ atts (snd (sv_detach a att s)) = atts s /\
  fresh_addr (snd (sv_detach a att s)) = fresh_addr s /\
  (forall b p, pheap (snd (sv_detach a att s)) !! b = Some p -> exists p0, pheap s !! b = Some p0 /\
     (stream p = stream p0 \/ stream p = None) /\ p_id p = p_id p0) /\
  (forall b p, pheap s !! b = Some p -> exists p', pheap (snd (sv_detach a att s)) !! b = Some p' /\ p_id p' = p_id p).
Proof.
  unfold sv_detach, on_peer. destruct (pheap s !! a) as [p|] eqn:Hp; [|cbn; naive_solver].
  assert (Hd : (stream (detach att p) = stream p \/ stream (detach att p) = None) /\ p_id (detach att p) = p_id p).
  { unfold detach. case_bool_decide; [|auto]. simpl. destruct (down p); auto. }
  cbn. split_and!; try done.
  - intros b q Hb. apply lookup_insert_Some in Hb as [[<- <-]|[_ Hb]]; [by exists p|]. exists q. auto.
  - intros b q Hb. destruct (decide (a = b)) as [<-|Hne].
    + exists (detach att p). rewrite lookup_insert_eq. split; [done|]. destruct Hd. congruence.
    + exists q. by rewrite lookup_insert_ne.
Qed.

Lemma agree_detach_all F s l :
  agree (list_to_set l) F s ->
  (forall a att m x id, (a, att) ∈ l -> mheap s !! m = Some x -> members x !! id <> Some (a, att)) ->
  agree ∅ F (snd (detach_all l s)).
Proof.
  revert s. induction l as [|[a att] l IH]; intros s Hs Hno; [exact Hs|].
  cbn [detach_all]. unfold mbind, state_m_bind.
  pose proof (agree_detach _ F s a att Hs ltac:(intros; apply (Hno a att m); [by left|done])) as Hd.
  destruct (sv_detach_frame a att s) as (Hm & _). destruct (sv_detach a att s) as [[] s1]. cbn [snd] in *.
  apply IH.
  - eapply agree_weaken; [|done|exact Hd]. set_solver.
  - intros b att' m x id Hin Hx. rewrite Hm in Hx. by apply (Hno b att' m x id); [right|].
Qed.

Lemma tidy_closeMux m : tidy (closeMux m).
Proof.
  unfold closeMux. apply tidy_bind.
  { apply tidy_keeps. intros E F s [A1 A2 A3 A4 A5 A6 A8 A7]. unfold closeMux_unregister, mbind, state_m_bind, get_s.
    destruct (mheap s !! m) as [x|]; [|done]. by case_bool_decide. }
  intros _ s Hs. unfold closeMux_mark, on_mux, mbind, state_m_bind.
  destruct (mheap s !! m) as [x|] eqn:Em; [|done].
  set (l := snd <$> map_to_list (members x)). set (x' := x <| m_closed := true |> <| members := ∅ |>).
  assert (Hl : forall a att, (a, att) ∈ l <-> exists id, members x !! id = Some (a, att)).
  { intros a att. unfold l. rewrite list_elem_of_fmap. split.
    - intros ([id v] & Hv & Hin). simpl in Hv. subst v. apply elem_of_map_to_list in Hin. by exists id.
    - intros [id Hid]. exists (id, (a, att)). split; [done|]. by apply elem_of_map_to_list. }
  assert (Hr : agree (∅ ∪ list_to_set l) ∅ (s <| mheap := <[m := x']> (mheap s) |>)).
  { eapply agree_replace; [exact Hs|exact Em|done| |done].
    intros id a att Hx _. apply elem_of_list_to_set, Hl. by exists id. }
  rewrite union_empty_l_L in Hr. apply agree_detach_all; [exact Hr|].
  intros a att m' y id [i Hi]%Hl Hy Hid. destruct (ag_mem _ _ _ Hs _ _ _ _ _ Em Hi) as [Ha _].
  destruct (ag_mem _ _ _ Hr m' y id a att Hy Hid) as [Ha' _]. simpl in Ha'. rewrite Ha in Ha'.
  injection Ha' as <- <-. simpl in Hy. rewrite lookup_insert_eq in Hy. injection Hy as <-. done.
Qed.

Lemma tidy_openMux owner rand : tidy (openMux owner rand).
Proof.
  intros s Hs. unfold openMux, mbind, state_m_bind, get_s. destruct (sv_closed s); [done|].
  unfold alloc, modify. cbn. destruct Hs as [A1 A2 A3 A4 A5 A6 A8 A7].
  destruct (A5 (fresh_addr s) ltac:(lia)) as (N1 & N2 & N3). split; simpl; try done.
  - intros a p att m id Hp Hst Hat. destruct (A1 a p att m id Hp Hst Hat) as [?|(x & Hx & Hid)]; [by left|right].
    exists x. rewrite lookup_insert_ne; [done|]. congruence.
  - intros m x id a att Hm Hx. apply lookup_insert_Some in Hm as [[<- <-]|[_ Hm]]; [done|by eapply A2].
  - intros m x Hm. apply lookup_insert_Some in Hm as [[<- <-]|[_ Hm]]; [done|by eapply A4].
  - intros k Hk. destruct (A5 k ltac:(lia)) as (? & ? & ?). split_and!; try done. rewrite lookup_insert_ne by lia. done.
  - intros a p att Hp Hst. specialize (A6 a p att Hp Hst). lia.
Qed.

(** A join that has recorded the peer [a] as the member [id] and not yet attached it; the
    member it displaced is pending. *)
Record recorded (prev : option (nat * nat)) (m a att : nat) (id : string) (s : server) : Prop := {
  rc_agree : agree (match prev with Some q => {[q]} | None => ∅ end) {[(a, att)]} s;
  rc_free : forall b q, pheap s !! b = Some q -> stream q <> Some att;
  rc_att : atts s !! att = Some (AttMux m id);
  rc_mem : exists x, mheap s !! m = Some x /\ members x !! id = Some (a, att) /\ m_closed x = false;
  rc_lt : (att < fresh_addr s)%nat;
  rc_peer : exists p, pheap s !! a = Some p /\ p_id p = id;
  rc_prev : forall b att0 m' x i, prev = Some (b, att0) -> mheap s !! m' = Some x -> members x !! i <> Some (b, att0)
}.

Lemma join_record_spec m a s :
  agree ∅ ∅ s ->
  match join_record m a s with
  | (None, s') => agree ∅ ∅ s'
  | (Some (att, prev), s') => exists id, recorded prev m a att id s'
  end.
Proof.
  intros Hs. unfold join_record, alloc, modify, mbind, state_m_bind, get_s.
  destruct (pheap s !! a) as [p|] eqn:Hp; [|done]. cbn [fst snd].
  pose proof (agree_new_att ∅ ∅ s (AttMux m (p_id p)) Hs) as Hn.
  set (s1 := s <| fresh_addr ::= S |> <| atts := <[fresh_addr s := AttMux m (p_id p)]> (atts s) |>) in *.
  set (att := fresh_addr s) in *.
  match goal with |- context [on_mux None m ?g ?y] => change y with s1 end.
  unfold on_mux. change (mheap s1) with (mheap s). destruct (mheap s !! m) as [x|] eqn:Em; [|exact Hn].
  destruct (m_closed x) eqn:Hc; [apply (agree_mux _ _ s1 m x x Hn Em); done|].
  exists (p_id p). set (x' := x <| members := <[p_id p := (a, att)]> (members x) |>).
  assert (Hold : forall b q, pheap s !! b = Some q -> stream q <> Some att).
  { intros b q Hb Hq. pose proof (ag_old _ _ _ Hs b q att Hb Hq). unfold att in *. lia. }
  assert (Hmem : members x' !! p_id p = Some (a, att)) by (simpl; by rewrite lookup_insert_eq).
  assert (Hr : agree (∅ ∪ match members x !! p_id p with Some q => {[q]} | None => ∅ end) {[(a, att)]}
                 (s1 <| mheap := <[m := x']> (mheap s1) |>)).
  { eapply agree_replace; [eapply agree_weaken; [| |exact Hn]; set_solver|exact Em| | |simpl; by rewrite Hc].
    - intros id b att' Hx. simpl in Hx. apply lookup_insert_Some in Hx as [[<- [= <- <-]]|[_ Hx]]; [|by left].
      right. split; [set_solver|]. simpl. by rewrite lookup_insert_eq.
    - intros id b att' Hx Hn'. simpl in Hn'. destruct (decide (p_id p = id)) as [<-|Hne]; [rewrite Hx; set_solver|].
      destruct Hn'. by rewrite lookup_insert_ne. }
  rewrite union_empty_l_L in Hr. split; simpl; try done.
  - by rewrite lookup_insert_eq.
  - exists x'. by rewrite lookup_insert_eq.
  - unfold att. lia.
  - by exists p.
  - intros b att0 m' y i Hx Hy Hi. destruct (ag_mem _ _ _ Hs m x _ _ _ Em Hx) as [Ha0 _].
    assert (Hne : att0 <> att). { intros ->. destruct (ag_fresh _ _ _ Hs att) as (? & _); [done|congruence]. }
    destruct (ag_mem _ _ _ Hr m' y i b att0 Hy Hi) as [Ha _]. simpl in Ha. rewrite lookup_insert_ne in Ha by done.
    rewrite Ha0 in Ha. injection Ha as <- <-. rewrite lookup_insert_eq in Hy. injection Hy as <-. congruence.
Qed.

Lemma join_previous_spec prev m a att id s :
  recorded prev m a att id s ->
  exists prev', recorded prev' m a att id (snd (join_previous a prev s)) /\
    (forall q, prev' = Some q -> q.1 = a).
Proof.
  intros Hr. destruct prev as [[b att0]|]; cbn [join_previous]; [|by exists None].
  case_bool_decide as Hb; [exists (Some (b, att0)); split; [exact Hr|]; by intros q [= <-]|].
  exists None. split; [|done]. destruct Hr as [R1 R2 R3 (x & Hx & Hxm & Hxc) R5 (p & Hp & Hi) R7].
  destruct (sv_detach_frame b att0 s) as (F1 & F2 & F3 & F4 & F5).
  split; rewrite ?F1, ?F2, ?F3; try done.
  - eapply agree_weaken; [|done|apply (agree_detach _ _ _ b att0 R1)]; [set_solver|].
    intros. by eapply R7.
  - intros c q Hq. destruct (F4 c q Hq) as (q0 & Hq0 & [-> | ->] & _); [by eapply R2|done].
  - by exists x.
  - destruct (F5 a p Hp) as (p' & Hp' & Hi'). exists p'. split; [done|congruence].
Qed.

(** Operations leave open streams open. *)
Definition opens {A} (c : state_m server A) : Prop := forall s m x, mheap s !! m = Some x ->
  exists y, mheap (snd (c s)) !! m = Some y /\ m_closed y = m_closed x.

Lemma opens_on_mux {A} (d : A) m f : (forall x, m_closed (snd (f x)) = m_closed x) -> opens (on_mux d m f).
Proof.
  intros Hf s m' x Hx. unfold on_mux. destruct (mheap s !! m) as [z|] eqn:Em; [|by exists x].
  pose proof (Hf z) as Hz. destruct (f z) as [r z']. cbn. destruct (decide (m = m')) as [<-|Hne].
  - exists z'. rewrite lookup_insert_eq. split; [done|]. simpl in Hz. congruence.
  - exists x. by rewrite lookup_insert_ne.
Qed.

Lemma opens_bind {A B} (c : state_m server A) (k : A -> state_m server B) :
  opens c -> (forall a, opens (k a)) -> opens (c ≫= k).
Proof.
  intros Hc Hk s m x Hx. unfold mbind, state_m_bind. destruct (Hc s m x Hx) as (y & Hy & Hcl).
  destruct (c s) as [a s1]. destruct (Hk a s1 m y Hy) as (z & Hz & Hcl'). exists z. split; [done|congruence].
Qed.

Lemma opens_same {A} (c : state_m server A) : (forall s, mheap (snd (c s)) = mheap s) -> opens c.
Proof. intros Hc s m x Hx. exists x. by rewrite Hc. Qed.

Lemma opens_poke att : opens (poke att).
Proof.
  intros s. unfold poke, mbind, state_m_bind, get_s. destruct (atts s !! att) as [[w e|m id]|];
    [by intros m x; exists x|by apply opens_on_mux|by intros m x; exists x].
Qed.

Lemma opens_end att reason : opens (att_end att reason).
Proof.
  intros s. unfold att_end, mbind, state_m_bind, get_s. destruct (atts s !! att) as [[w e|m id]|];
    [by intros m x; exists x| |by intros m x; exists x].
  apply opens_on_mux. intros x. destruct (members x !! id) as [[b att']|]; [|done].
  case_bool_decide; [|done]. cbn. by case_bool_decide.
Qed.

Lemma opens_attach a att lastID : opens (sv_attach a att lastID).
Proof.
  apply opens_bind; [apply opens_same; intros s; unfold on_peer; by destruct (pheap s !! a)|].
  intros old. apply opens_bind; [|intros; apply opens_poke].
  destruct old; [apply opens_end|by apply opens_same].
Qed.

Lemma tidy_join m a lastID : tidy (join m a lastID).
Proof.
  intros s Hs. unfold join, mbind, state_m_bind. pose proof (join_record_spec m a s Hs) as Hr.
  destruct (join_record m a s) as [[[att prev]|] s1]; [|exact Hr]. destruct Hr as [id Hr].
  destruct (join_previous_spec _ _ _ _ _ _ Hr) as (prev' & Hr' & Hpa).
  destruct (join_previous a prev s1) as [[] s2]. cbn [snd] in Hr'.
  destruct Hr' as [R1 R2 R3 (x & Hx & Hxm & Hxc) R5 (p & Hp & Hi) R7].
  assert (H3 : agree ∅ ∅ (snd (sv_attach a att lastID s2))).
  { eapply agree_weaken; [| |eapply (agree_attach _ _ s2 a p att lastID R1 Hp R5 R2)].
    - intros [b o]. rewrite elem_of_filter. intros [Hne Hin]. destruct prev' as [q|]; [|set_solver].
      apply elem_of_singleton in Hin as <-. by destruct Hne; apply Hpa.
    - set_solver.
    - rewrite R3. split; [done|]. by exists x. }
  destruct (opens_attach a att lastID s2 m x Hx) as (y & Hy & Hyc).
  destruct (sv_attach a att lastID s2) as [[] s3]. cbn [snd] in *.
  unfold join_check, mbind, state_m_bind, get_s. by rewrite Hy, Hyc, Hxc.
Qed.

Lemma keeps_serveSend cfg id r : keeps (serveSend cfg id r).
Proof.
  unfold serveSend. destruct (send_check id r) as [sig|]; [|apply agrees_ret].
  apply agrees_bind; [apply agrees_gets|]. intros [a|]; [|apply agrees_ret].
  unfold send_enqueue. destruct (marshal_signal sig); [|apply agrees_ret].
  apply agrees_bind; [apply keeps_enqueue|]. intros; apply agrees_ret.
Qed.

Lemma tidy_ret {A} (a : A) : tidy (mret a).
Proof. apply tidy_keeps, agrees_ret. Qed.

Lemma tidy_mux_open owner rand opened : tidy (mux_open owner rand opened).
Proof.
  apply tidy_bind; [apply tidy_openMux|]. intros [m|e]; [|apply tidy_ret].
  destruct opened; cbn [negb]; [apply tidy_ret|]. apply tidy_bind; [apply tidy_closeMux|]. intros; apply tidy_ret.
Qed.

Lemma tidy_admit cfg id : tidy (admit_peer cfg id).
Proof. intros s Hs. by destruct (admit_peer_spec cfg id ∅ ∅ s Hs). Qed.

Lemma keeps_lookupMux id : keeps (lookupMux id).
Proof. unfold lookupMux. case_bool_decide; [apply agrees_ret|apply agrees_gets]. Qed.

Lemma tidy_serveJoin cfg id r : tidy (serveJoin cfg id r).
Proof.
  apply tidy_bind; [apply tidy_keeps, keeps_lookupMux|]. intros [m|]; [|apply tidy_ret].
  destruct (last_event r); [|apply tidy_ret]. apply tidy_bind; [apply tidy_admit|].
  intros [a|[]]; try apply tidy_ret. apply tidy_bind; [apply tidy_join|]. intros; apply tidy_ret.
Qed.

Lemma tidy_serveLeave id r : tidy (serveLeave id r).
Proof.
  apply tidy_bind; [apply tidy_keeps, keeps_lookupMux|]. intros m.
  apply tidy_bind; [destruct m; [apply tidy_leave|apply tidy_ret]|]. intros; apply tidy_ret.
Qed.

Lemma tidy_ServeHTTP cfg auth r opened rand : tidy (ServeHTTP cfg auth r opened rand).
Proof.
  apply tidy_bind; [apply tidy_keeps, agrees_gets|]. intros []; [apply tidy_ret|].
  destruct (authorize auth r) as [id|]; [|apply tidy_ret].
  repeat case_bool_decide; cbn [negb]; try apply tidy_ret; (apply tidy_bind; [|intros; apply tidy_ret]).
  - apply tidy_stream_open.
  - apply tidy_mux_open.
  - apply tidy_keeps, keeps_serveSend.
  - apply tidy_serveJoin.
  - apply tidy_serveLeave.
Qed.

Lemma keeps_for_all f l : (forall a, keeps (f a)) -> keeps (for_all f l).
Proof. intros Hf. induction l as [|a l IH]; [apply agrees_ret|]. by apply agrees_bind. Qed.

Lemma keeps_Close : keeps Close.
Proof.
  apply agrees_bind.
  - intros E F s [A1 A2 A3 A4 A5 A6 A8 A7]. by split.
  - intros l. apply agrees_bind; [apply keeps_for_all; intros a E F s; apply agree_shutdown|].
    intros _. apply keeps_for_all. intros m. by apply keeps_on_mux.
Qed.

(** ** The server with handlers that run one after the other *)

Section serial.
Variable cfg : Config.
Variable Authenticate : request -> result error string.

Inductive serial_op :=
| SoRequest (r : request) (opened : bool) (rand : bytes)
| SoBatch (a att : nat) | SoWait (att : nat) (c : wait_case) | SoEnd (a att : nat)
| SoMuxBatch (m : nat) | SoMuxWait (m : nat) (c : wait_case) | SoMuxEnd (m : nat)
| SoExpire (a : nat) | SoClose.

Definition serial_exec (o : serial_op) (s : server) : server :=
  match o with
  | SoRequest r opened rand => snd (ServeHTTP cfg Authenticate r opened rand s)
  | SoBatch a att => snd (stream_batch cfg a att s)
  | SoWait att c => snd (stream_wait att c s)
  | SoEnd a att => match atts s !! att with Some (AttStream _ _) => snd (sv_detach a att s) | _ => s end
  | SoMuxBatch m => snd (mux_batch cfg m s)
  | SoMuxWait m c => snd (mux_wait m c s)
  | SoMuxEnd m => snd (closeMux m s)
  | SoExpire a => snd (sv_expire a s)
  | SoClose => snd (Close s)
  end.

Definition serial_run (os : list serial_op) : server := fold_left (fun s o => serial_exec o s) os new_server.

Lemma serial_exec_agree o s : agree ∅ ∅ s -> agree ∅ ∅ (serial_exec o s).
Proof.
  destruct o; cbn [serial_exec]; intros Hs.
  - by apply tidy_ServeHTTP.
  - by apply keeps_batch.
  - by apply keeps_wait.
  - destruct (atts s !! att) as [[]|] eqn:Ea; [|done|done]. apply tidy_stream_end; [done|]. congruence.
  - by apply keeps_mux_batch.
  - by apply keeps_mux_wait.
  - by apply tidy_closeMux.
  - by apply keeps_expire.
  - by apply keeps_Close.
Qed.

Lemma serial_agree os : agree ∅ ∅ (serial_run os).
Proof.
  unfold serial_run. assert (Hg : forall s, agree ∅ ∅ s -> agree ∅ ∅ (fold_left (fun s o => serial_exec o s) os s));
    [|apply Hg, agree_new].
  induction os as [|o os IH]; intros s Hs; [done|]. apply IH. by apply serial_exec_agree.
Qed.

(** The effect of [end] on a member that lost its peer to another stream. *)
Lemma end_member m x id a att s :
  mheap s !! m = Some x -> members x !! id = Some (a, att) -> atts s !! att = Some (AttMux m id) ->
  exists x', mheap (snd (att_end att eventReplaced s)) !! m = Some x' /\ m_wake x' = true /\
    members x' = delete id (members x) /\ m_detached x' = m_detached x ++ [(id, eventReplaced)] /\
    pheap (snd (att_end att eventReplaced s)) = pheap s /\ atts (snd (att_end att eventReplaced s)) = atts s.
Proof.
  intros Hm Hx Ha. unfold att_end, mbind, state_m_bind, get_s. rewrite Ha. unfold ended, on_mux. rewrite Hm, Hx.
  rewrite bool_decide_eq_true_2 by done. cbn [snd]. eexists. simpl. rewrite lookup_insert_eq. split; [reflexivity|].
  done.
Qed.

(** C35. When the server's handlers do not overlap, the members of the multiplexed streams
    and the streams of the peers agree, whatever requests, takeovers, expiries and closings
    happened: a peer is attached to a multiplexed stream if and only if it is a member of
    it under its own ID, so the stream's loop serves exactly the peers attached to it; a
    closed stream has none. When another stream takes such a peer over, the multiplexed
    stream loses that member only, is woken, and reports the peer exactly once. *)
Theorem mux_agreement os :
  let s := serial_run os in
  (forall m x id a att, mheap s !! m = Some x ->
     (members x !! id = Some (a, att) <->
      atts s !! att = Some (AttMux m id) /\ exists p, pheap s !! a = Some p /\ stream p = Some att)) /\
  (forall m x a att, mheap s !! m = Some x ->
     ((a, att) ∈ fst (snapshot m s) <->
      exists p id, atts s !! att = Some (AttMux m id) /\ pheap s !! a = Some p /\ stream p = Some att /\ p_id p = id)) /\
  (forall m x, mheap s !! m = Some x -> m_closed x = true -> members x = ∅) /\
  (forall a p att m x id att' w e lastID, pheap s !! a = Some p -> stream p = Some att ->
     atts s !! att = Some (AttMux m id) -> mheap s !! m = Some x -> atts s !! att' = Some (AttStream w e) ->
     let s' := snd (sv_attach a att' lastID s) in
     exists x', mheap s' !! m = Some x' /\ members x' = delete id (members x) /\
       m_wake x' = true /\ m_detached x' = m_detached x ++ [(id, eventReplaced)] /\
       exists p', pheap s' !! a = Some p' /\ stream p' = Some att').
Proof.
  intros s. pose proof (serial_agree os) as Hs. fold s in Hs.
  assert (Hiff : forall m x id a att, mheap s !! m = Some x ->
     (members x !! id = Some (a, att) <->
      atts s !! att = Some (AttMux m id) /\ exists p, pheap s !! a = Some p /\ stream p = Some att)).
  { intros m x id a att Hm. split.
    - intros Hx. destruct (ag_mem _ _ _ Hs m x id a att Hm Hx) as [Ha [Hf|Hp]]; [set_solver|done].
    - intros (Ha & p & Hp & Hst). destruct (ag_att _ _ _ Hs a p att m id Hp Hst Ha) as [He|(y & Hy & Hid)];
        [set_solver|]. congruence. }
  split; [done|]. split; [|split; [by apply Hs|]].
  - intros m x a att Hm. unfold snapshot, on_mux. rewrite Hm. cbn [fst]. rewrite list_elem_of_fmap. split.
    + intros ([id v] & Hv & Hin). simpl in Hv. subst v. apply elem_of_map_to_list in Hin.
      apply (Hiff m x id a att Hm) in Hin as (Ha & p & Hp & Hst). exists p, id. split_and!; try done.
      by eapply (ag_id _ _ _ Hs).
    + intros (p & id & Ha & Hp & Hst & _). exists (id, (a, att)). split; [done|]. apply elem_of_map_to_list.
      apply (Hiff m x id a att Hm). split; [done|by exists p].
  - intros a p att m x id att' w e lastID Hp Hst Ha Hm Ha' s'.
    assert (Hx : members x !! id = Some (a, att)) by (apply (Hiff m x id a att Hm); split; [done|by exists p]).
    unfold s', sv_attach, on_peer, mbind, state_m_bind. rewrite Hp.
    set (p' := snd (attach att' lastID p)).
    assert (Hatt : attach att' lastID p = (stream p, p')) by (unfold p', attach; done).
    assert (Hst' : stream p' = Some att') by (unfold p', attach; simpl; by destruct (_ <? _)).
    rewrite Hatt, Hst. cbn [opt_do].
    set (s1 := s <| pheap := <[a := p']> (pheap s) |>).
    destruct (end_member m x id a att s1 Hm Hx Ha) as (x' & E1 & E2 & E3 & E4 & E5 & E6).
    destruct (att_end att eventReplaced s1) as [[] s2]. cbn [fst snd] in *.
    unfold poke, mbind, state_m_bind, get_s. rewrite E6. change (atts s1) with (atts s). rewrite Ha'.
    cbn. exists x'. split_and!; try done. exists p'. rewrite E5. unfold s1. simpl. by rewrite lookup_insert_eq.
Qed.
End serial.

(** ** Races the locks leave open *)

Module MuxDemo.
Definition cfg : Config := {| QueueSize := 4; ReplayDepth := 4; OfflineGrace := 30; KeepAlive := 15; MaxPeers := 0 |}.

(** A stream [m] and a registered peer [a]. *)
Definition setup : (nat * nat) * server :=
  (r ← openMux "alice" (replicate 16 (byte_of 0));
   p ← admit_peer cfg "alice";
   mret (match r with Ok m => m | Err _ => 0%nat end, match p with Ok a => a | Err _ => 0%nat end)) new_server.

Definition att_of (r : option (nat * option (nat * nat))) : nat :=
  match r with Some (att, _) => att | None => 0%nat end.

(** Two joins of the same peer: both record, the second attaches, then the first. *)
Definition two_joins : state_m server unit :=
  r1 ← join_record 0 1;
  r2 ← join_record 0 1;
  sv_attach 1 (att_of r2) 0;;
  sv_attach 1 (att_of r1) 0;;
  ok2 ← join_check 0 1 (att_of r2);
  ok1 ← join_check 0 1 (att_of r1);
  mret tt.

(** A leave between the record and the attachment of a join. *)
Definition join_and_leave : state_m server unit :=
  r ← join_record 0 1;
  leave 0 "alice";;
  sv_attach 1 (att_of r) 0;;
  ok ← join_check 0 1 (att_of r);
  mret tt.

(** A peer expires between [admit_peer] and [attach] of a new stream; then a signal arrives. *)
Definition expired_attach : state_m server (option nat) :=
  p ← admit_peer cfg "alice";
  sv_expire 1;;
  att ← alloc;
  modify (fun s => s <| atts := <[att := AttStream false None]> (atts s) |>);;
  sv_attach 1 att 0;;
  lookup_peer "alice".

Definition stranded (s : server) : option (nat * nat) * option nat :=
  (match mheap s !! 0%nat with Some x => members x !! "alice"%string | None => None end,
   match pheap s !! 1%nat with Some p => stream p | None => None end).
End MuxDemo.

(** Overlapping joins: both succeed, the peer is attached but not a member, so the stream
    never serves it; the client is told that the peer was taken over. *)
Example joins_race :
  let s := snd (MuxDemo.two_joins (snd MuxDemo.setup)) in
  MuxDemo.stranded s = (None, Some 2%nat) /\
  (m_detached <$> mheap s !! 0%nat) = Some [("alice"%string, eventReplaced)] /\
  (let s' := snd (closeMux 0 s) in MuxDemo.stranded s' = (None, Some 2%nat)).
Proof. vm_compute. done. Qed.

(** A leave that overlaps with a join: the peer stays attached, also after the stream
    closed, so it is neither served nor ever forgotten. *)
Example leave_race :
  let s := snd (MuxDemo.join_and_leave (snd MuxDemo.setup)) in
  MuxDemo.stranded s = (None, Some 2%nat) /\
  (let s' := snd (sv_expire 1 (snd (closeMux 0 s))) in
   MuxDemo.stranded s' = (None, Some 2%nat) /\ sv_peers s' !! "alice"%string = Some 1%nat).
Proof. vm_compute. done. Qed.

(** A stream attached to a peer that has just expired: it is open, and the peer unknown. *)
Example expiry_race :
  let '(found, s) := MuxDemo.expired_attach (snd MuxDemo.setup) in
  found = None /\ MuxDemo.stranded s = (None, Some 2%nat) /\ (down <$> pheap s !! 1%nat) = Some true.
Proof. vm_compute. done. Qed.
