(* ===== verification/SseRefine.v ===== *)
(** * The server refines its peers

    The server as a system of parts: every stretch of a handler between two points where
    other handlers can run is one step ([part]), and a run is any sequence of them, so any
    interleaving of any number of handlers. [sys] adds the joins that recorded a member and
    have yet to attach it, and the history of what happened to each peer. The theorem
    projects a run to each peer's record, which makes [SsePeer]'s theorems hold of the
    server, and shows that the handlers are sequences of the parts. *)

From Stdlib Require Import String.
From S2P Require Import Prelude.
From S2P Require Import Errors.
From S2P Require Import Json.
From S2P Require Import JsonCodec.
From S2P Require Import Signal.
From S2P Require Import Envelope.
From S2P Require Import SsePeer.
From S2P Require Import SseServer.
From S2P Require Import SseServerProps.
From S2P Require Import SseMux.

#[local] Arguments marshal_signal : simpl never.
#[local] Arguments unmarshal_signal : simpl never.
#[local] Arguments Validate : simpl never.

(** ** Parts *)

Record sys := { sy_sv : server; sy_wait : list (nat * nat); sy_tr : list (nat * pev) }.

Inductive part :=
  | QAdmit (id : string) | QEnqueue (a : nat) (data : bytes) | QOpen (a : nat) (lastID : Z)
  | QTake (a att : nat) | QDetach (a att : nat) | QExpire (a : nat) | QForget (a : nat)
  | QWait (att : nat) (c : wait_case)
  | QOpenMux (owner : string) (rand : bytes) | QUnregister (m : nat) | QMark (m : nat)
  | QRecord (m a : nat) | QAttach (a att : nat) (lastID : Z) | QRemove (m : nat) (id : string)
  | QDetached (m : nat) | QMuxWait (m : nat) (c : wait_case)
  | QClose | QShutdown (a : nat) | QMuxShutdown (m : nat).

Section sys.
Variable cfg : Config.

Abbreviation M := (state_m server).

(** The part of [serveStream] that makes the attachment. *)
Definition open_stream (a : nat) (lastID : Z) : M nat :=
  att ← alloc;
  modify (fun s => s <| atts := <[att := AttStream false None]> (atts s) |>);;
  sv_attach a att lastID;;
  mret att.

(** What an operation adds to the history of the peer it runs on. *)
Definition evs (a : nat) (o : pop) (s : server) : list (nat * pev) :=
  match pheap s !! a with Some p => pair a <$> fst (pexec cfg o p) | None => [] end.

Definition run_part {A} (m : M A) (tr : list (nat * pev)) (y : sys) : sys :=
  {| sy_sv := snd (m (sy_sv y)); sy_wait := sy_wait y; sy_tr := sy_tr y ++ tr |}.

Definition on_op {A} (m : M A) (a : nat) (o : pop) (y : sys) : sys := run_part m (evs a o (sy_sv y)) y.

Definition sexec (q : part) (y : sys) : sys :=
  match q with
  | QAdmit id => run_part (admit_peer cfg id) [] y
  | QEnqueue a data => on_op (sv_enqueue cfg a data) a (OEnqueue data) y
  | QOpen a lastID =>
    if 0 <=? lastID then on_op (open_stream a lastID) a (OAttach (fresh_addr (sy_sv y)) lastID) y else y
  | QTake a att => on_op (sv_take cfg a att) a (OTake att) y
  | QDetach a att => on_op (sv_detach a att) a (ODetach att) y
  | QExpire a => on_op (expire_mark a) a OExpire y
  | QForget a => run_part (forget a) [] y
  | QWait att c => run_part (stream_wait att c) [] y
  | QOpenMux owner rand => run_part (openMux owner rand) [] y
  | QUnregister m => run_part (closeMux_unregister m) [] y
  | QMark m => run_part (closeMux_mark m) [] y
  | QRecord m a =>
    {| sy_sv := snd (join_record m a (sy_sv y));
       sy_wait := sy_wait y ++ match fst (join_record m a (sy_sv y)) with Some (att, _) => [(a, att)] | None => [] end;
       sy_tr := sy_tr y |}
  | QAttach a att lastID =>
    if bool_decide ((a, att) ∈ sy_wait y) && (0 <=? lastID) then
      on_op (sv_attach a att lastID) a (OAttach att lastID)
        {| sy_sv := sy_sv y; sy_wait := filter (fun p => p <> (a, att)) (sy_wait y); sy_tr := sy_tr y |}
    else y
  | QRemove m id => run_part (leave_remove m id) [] y
  | QDetached m => run_part (takeDetached m) [] y
  | QMuxWait m c => run_part (mux_wait m c) [] y
  | QClose => run_part close_mark [] y
  | QShutdown a => on_op (sv_shutdown a) a OShutdown y
  | QMuxShutdown m => run_part (mux_shutdown m) [] y
  end.

Definition srun (qs : list part) (y : sys) : sys := fold_left (fun y q => sexec q y) qs y.

Definition sstart : sys := {| sy_sv := new_server; sy_wait := []; sy_tr := [] |}.

(** What happened to one peer. *)
Definition proj (a : nat) (tr : list (nat * pev)) : list pev :=
  omap (fun x => if bool_decide (x.1 = a) then Some x.2 else None) tr.

(** ** Parts that leave the peers' records alone *)

Record same (s s' : server) : Prop := {
  sm_heap : pheap s' = pheap s;
  sm_fresh : (fresh_addr s <= fresh_addr s')%nat;
  sm_peers : sv_peers s' ⊆ sv_peers s
}.

Definition quietm {A} (m : M A) : Prop := forall s, same s (snd (m s)).

Lemma same_refl s : same s s.
Proof. by split. Qed.

Lemma same_trans s1 s2 s3 : same s1 s2 -> same s2 s3 -> same s1 s3.
Proof. intros [H1 F1 P1] [H2 F2 P2]. split; [congruence|lia|by etrans]. Qed.

Lemma quietm_bind {A B} (m : M A) (k : A -> M B) : quietm m -> (forall a, quietm (k a)) -> quietm (m ≫= k).
Proof.
  intros Hm Hk s. unfold mbind, state_m_bind. specialize (Hm s). destruct (m s) as [a s1].
  apply (same_trans _ s1); [done|]. apply Hk.
Qed.

Lemma quietm_ret {A} (x : A) : quietm (mret x).
Proof. intros s. apply same_refl. Qed.

Lemma quietm_gets {A} (f : server -> A) : quietm (gets f).
Proof. intros s. apply same_refl. Qed.

Lemma quietm_state {A} (k : server -> M A) : (forall x s, x = s -> same s (snd (k x s))) -> quietm (get_s ≫= k).
Proof. intros H s. by apply H. Qed.

Lemma quietm_on_mux {A} (d : A) m f : quietm (on_mux d m f).
Proof. intros s. unfold on_mux. destruct (mheap s !! m); [|apply same_refl]. destruct (f _). by split. Qed.

Lemma quietm_get_s : quietm get_s.
Proof. intros s. apply same_refl. Qed.

Lemma quietm_modify f : (forall s, same s (f s)) -> quietm (modify f).
Proof. intros H s. apply H. Qed.

Lemma quietm_alloc : quietm alloc.
Proof. intros s. split; simpl; [done|lia|done]. Qed.
End sys.

#[export] Hint Resolve same_refl quietm_ret quietm_gets quietm_on_mux quietm_get_s quietm_alloc : quiet.

(** Follows a computation and its cases. *)
Ltac quiet :=
  repeat (auto with quiet;
    match goal with
    | |- quietm (_ ≫= _) => apply quietm_bind; [|intros ?]
    | |- quietm (modify _) => apply quietm_modify; intros ?; split; simpl; try done; try apply delete_subseteq; try apply map_empty_subseteq
    | |- quietm (match ?x with _ => _ end) => destruct x
    | |- quietm (opt_do _ ?x) => destruct x; simpl
    end).

Lemma quietm_poke att : quietm (poke att).
Proof. unfold poke. quiet. Qed.

Lemma quietm_end att reason : quietm (att_end att reason).
Proof. unfold att_end, ended. quiet. Qed.

Lemma quietm_forget a : quietm (forget a).
Proof. unfold forget. quiet. Qed.

Lemma quietm_wait att c : quietm (stream_wait att c).
Proof. unfold stream_wait. quiet. Qed.

Lemma quietm_mux_wait m c : quietm (mux_wait m c).
Proof. unfold mux_wait. quiet. Qed.

Lemma quietm_openMux owner rand : quietm (openMux owner rand).
Proof. unfold openMux. quiet. Qed.

Lemma quietm_unregister m : quietm (closeMux_unregister m).
Proof. unfold closeMux_unregister. quiet. Qed.

Lemma quietm_record m a : quietm (join_record m a).
Proof. unfold join_record. quiet. Qed.

Lemma quietm_close : quietm close_mark.
Proof. unfold close_mark. quiet. Qed.
#[export] Hint Resolve quietm_poke quietm_end quietm_forget quietm_wait quietm_mux_wait quietm_openMux
  quietm_unregister quietm_record quietm_close : quiet.

(** ** Parts that are an operation of one peer *)

Section refine.
Variable cfg : Config.

Abbreviation M := (state_m server).

Record acts (a : nat) (o : pop) (s s' : server) : Prop := {
  ac_heap : pheap s' = match pheap s !! a with
                       | Some p => <[a := snd (pexec cfg o p)]> (pheap s)
                       | None => pheap s
                       end;
  ac_fresh : (fresh_addr s <= fresh_addr s')%nat;
  ac_peers : sv_peers s' ⊆ sv_peers s
}.

Lemma acts_pre a o s1 s2 s3 : same s1 s2 -> acts a o s2 s3 -> acts a o s1 s3.
Proof. intros [H F P] [H' F' P']. split; [by rewrite H', H|lia|by etrans]. Qed.

Lemma acts_post a o s1 s2 s3 : acts a o s1 s2 -> same s2 s3 -> acts a o s1 s3.
Proof. intros [H F P] [H' F' P']. split; [by rewrite H', H|lia|by etrans]. Qed.

Lemma acts_bind {A B} a o (m : M A) (k : A -> M B) s :
  acts a o s (snd (m s)) -> (forall x, quietm (k x)) -> acts a o s (snd ((m ≫= k) s)).
Proof.
  intros Hm Hk. unfold mbind, state_m_bind. destruct (m s) as [x s1]. apply (acts_post _ _ _ s1); [done|]. apply Hk.
Qed.

Lemma acts_on_peer {A} (d : A) a o f s :
  (forall p, snd (f p) = snd (pexec cfg o p)) -> acts a o s (snd (on_peer d a f s)).
Proof.
  intros Hf. unfold on_peer. split; destruct (pheap s !! a) as [p|] eqn:E; try done.
  all: specialize (Hf p); destruct (f p) as [x p']; simpl in *; subst; done.
Qed.

Lemma acts_enqueue a data s : acts a (OEnqueue data) s (snd (sv_enqueue cfg a data s)).
Proof.
  unfold sv_enqueue. apply acts_bind; [|intros ?; quiet]. apply acts_on_peer. intros p. simpl.
  by destruct (enqueue cfg data p) as [[ok st] p'].
Qed.

Lemma acts_attach a att lastID s : acts a (OAttach att lastID) s (snd (sv_attach a att lastID s)).
Proof. unfold sv_attach. apply acts_bind; [|intros ?; quiet]. by apply acts_on_peer. Qed.

Lemma acts_open a lastID s :
  acts a (OAttach (fresh_addr s) lastID) s (snd (open_stream a lastID s)) /\
  (fresh_addr s < fresh_addr (snd (open_stream a lastID s)))%nat.
Proof.
  set (s1 := s <| fresh_addr ::= S |> <| atts := <[fresh_addr s := AttStream false None]> (atts s) |>).
  change (snd (open_stream a lastID s))
    with (snd ((sv_attach a (fresh_addr s) lastID ≫= fun _ => mret (fresh_addr s)) s1)).
  assert (A : acts a (OAttach (fresh_addr s) lastID) s1
                (snd ((sv_attach a (fresh_addr s) lastID ≫= fun _ => mret (fresh_addr s)) s1)))
    by (apply acts_bind; [apply acts_attach|intros ?; quiet]).
  split; [apply (acts_pre _ _ _ s1); [split; simpl; [done|lia|done]|done]|].
  pose proof (ac_fresh _ _ _ _ A) as F. simpl in F. lia.
Qed.

Lemma acts_detach a att s : acts a (ODetach att) s (snd (sv_detach a att s)).
Proof. by apply acts_on_peer. Qed.

Lemma acts_take a att s : acts a (OTake att) s (snd (sv_take cfg a att s)).
Proof. apply acts_on_peer. intros p. simpl. by destruct (takeUnsent cfg att p). Qed.

Lemma acts_expire a s : acts a OExpire s (snd (expire_mark a s)).
Proof. by apply acts_on_peer. Qed.

Lemma acts_shutdown a s : acts a OShutdown s (snd (sv_shutdown a s)).
Proof. unfold sv_shutdown. apply acts_bind; [|intros ?; quiet]. by apply acts_on_peer. Qed.

(** ** The invariant *)

Record J (y : sys) : Prop := {
  j_peer : forall a p, pheap (sy_sv y) !! a = Some p -> preach cfg (p_id p) p (proj a (sy_tr y));
  j_none : forall a, pheap (sy_sv y) !! a = None -> proj a (sy_tr y) = [];
  j_heap : forall a, is_Some (pheap (sy_sv y) !! a) -> (a < fresh_addr (sy_sv y))%nat;
  j_used : forall att, att ∈ attached (snd <$> sy_tr y) -> (att < fresh_addr (sy_sv y))%nat;
  j_wait : forall b att, (b, att) ∈ sy_wait y ->
    (att < fresh_addr (sy_sv y))%nat /\ att ∉ attached (snd <$> sy_tr y);
  j_once : NoDup (snd <$> sy_wait y);
  j_reg : forall id a, sv_peers (sy_sv y) !! id = Some a -> exists p, pheap (sy_sv y) !! a = Some p /\ p_id p = id;
  j_max : 0 < MaxPeers cfg -> Z.of_nat (size (sv_peers (sy_sv y))) <= MaxPeers cfg
}.

Lemma J_start : J sstart.
Proof.
  split; simpl; try done.
  - intros a [p Hp]. by apply lookup_empty_Some in Hp.
  - intros att Ha. by apply not_elem_of_nil in Ha.
  - intros b att Ha. by apply not_elem_of_nil in Ha.
  - constructor.
  - rewrite map_size_empty. lia.
Qed.

Lemma proj_app a tr tr' : proj a (tr ++ tr') = proj a tr ++ proj a tr'.
Proof. apply omap_app. Qed.

Lemma proj_pair a b tr : proj a (pair b <$> tr) = if bool_decide (b = a) then tr else [].
Proof.
  induction tr as [|e tr IH]; [by case_bool_decide|].
  change (pair b <$> e :: tr) with ([(b, e)] ++ (pair b <$> tr)). rewrite proj_app, IH.
  unfold proj. simpl. by case_bool_decide.
Qed.

Lemma proj_attached a tr att : att ∈ attached (proj a tr) -> att ∈ attached (snd <$> tr).
Proof.
  unfold attached, proj. rewrite !list_elem_of_omap. intros (e & He & H). exists e. split; [|done].
  apply list_elem_of_omap in He as ([b e'] & Hb & E). simpl in E. case_bool_decide; [|done]. injection E as ->.
  apply list_elem_of_fmap. by exists (b, e).
Qed.

Lemma pexec_id o p : p_id (snd (pexec cfg o p)) = p_id p.
Proof.
  destruct o; simpl.
  - unfold enqueue. destruct (down p); [done|]. by destruct (_ <=? _).
  - unfold attach. simpl. by destruct (lastID <? sentUpTo p).
  - unfold detach. case_bool_decide; [|done]. simpl. by destruct (down p).
  - unfold takeUnsent. case_bool_decide; [|done]. simpl. destruct (last _); by destruct (0 <? _).
  - unfold expire. by destruct (_ || _).
  - done.
Qed.

Lemma attached_evs a o s :
  attached (snd <$> evs cfg a o s) = match pheap s !! a, o with Some _, OAttach att _ => [att] | _, _ => [] end.
Proof.
  unfold evs. destruct (pheap s !! a) as [p|]; [|done]. rewrite <- list_fmap_compose.
  destruct o; simpl; try done.
  - by destruct (enqueue cfg data p) as [[[] ?] ?].
  - by destruct (takeUnsent cfg att p).
Qed.

Lemma J_same s s' w w' tr :
  J {| sy_sv := s; sy_wait := w; sy_tr := tr |} -> same s s' -> w' `sublist_of` w ->
  J {| sy_sv := s'; sy_wait := w'; sy_tr := tr |}.
Proof.
  intros [P N H U W O R X] [Eh Ef Ep] Sw. simpl in *. split; simpl; rewrite ?Eh; try done.
  - intros a Ha. specialize (H a Ha). lia.
  - intros att Ha. specialize (U att Ha). lia.
  - intros b att Ha. destruct (W b att) as [? ?]; [by eapply elem_of_sublist|]. split; [lia|done].
  - eapply sublist_NoDup; [done|]. by apply fmap_sublist.
  - intros id a Ha. apply R. by eapply lookup_weaken.
  - intros Hm. specialize (X Hm). pose proof (map_subseteq_size _ _ Ep). lia.
Qed.

(** An operation of one peer; an attachment must be new. *)
Lemma J_acts a o s s' w tr :
  J {| sy_sv := s; sy_wait := w; sy_tr := tr |} -> acts a o s s' ->
  (forall att lastID, o = OAttach att lastID ->
     att ∉ attached (snd <$> tr) /\ att ∉ snd <$> w /\ (att < fresh_addr s')%nat /\ 0 <= lastID) ->
  J {| sy_sv := s'; sy_wait := w; sy_tr := tr ++ evs cfg a o s |}.
Proof.
  intros [P N H U W O R X] [Eh Ef Ep] F. simpl in *.
  assert (Dom : forall b, is_Some (pheap s' !! b) <-> is_Some (pheap s !! b)).
  { intros b. rewrite Eh. destruct (pheap s !! a) eqn:E; [|done].
    destruct (decide (a = b)) as [->|D]; [by rewrite lookup_insert_eq, E|by rewrite lookup_insert_ne]. }
  assert (Att : forall att, att ∈ attached (snd <$> evs cfg a o s) -> exists lastID, o = OAttach att lastID).
  { intros att. rewrite attached_evs. destruct (pheap s !! a); [|by intros ?%not_elem_of_nil].
    destruct o; try (by intros ?%not_elem_of_nil). rewrite list_elem_of_singleton. intros ->. eauto. }
  assert (Ev : forall b, proj b (evs cfg a o s) =
      match pheap s !! a with Some p => if bool_decide (a = b) then fst (pexec cfg o p) else [] | None => [] end)
    by (intros b; unfold evs; destruct (pheap s !! a); [apply proj_pair|done]).
  split; simpl; rewrite ?fmap_app, ?attached_app.
  - intros b p Hb. rewrite proj_app, Ev. rewrite Eh in Hb.
    destruct (pheap s !! a) as [q|] eqn:E; [|rewrite app_nil_r; by apply P].
    case_bool_decide as D; [subst b|rewrite lookup_insert_ne in Hb by done; rewrite app_nil_r; by apply P].
    rewrite lookup_insert_eq in Hb. injection Hb as <-. rewrite pexec_id. apply preach_step; [by apply P|].
    intros att lastID Ho. destruct (F att lastID Ho) as (F1 & _ & _ & F4). split; [|done].
    intros Ha. destruct F1. by eapply proj_attached.
  - intros b Hb. rewrite proj_app, Ev, N, app_nil_l; [|by apply eq_None_not_Some; rewrite <- Dom, Hb; intros []].
    destruct (pheap s !! a) eqn:E; [|done]. case_bool_decide; [subst|done].
    destruct (proj2 (Dom b)) as [? ?]; [by eexists|congruence].
  - intros b Hb%Dom. specialize (H b Hb). lia.
  - intros att [Ha|Ha]%elem_of_app; [specialize (U att Ha); lia|].
    destruct (Att att Ha) as [lastID Ho]. by apply (F att lastID).
  - intros b att Hb. destruct (W b att Hb) as [W1 W2]. split; [lia|]. intros [Ha|Ha]%elem_of_app; [done|].
    destruct (Att att Ha) as [lastID Ho]. destruct (F att lastID Ho) as (_ & F2 & _). apply F2, list_elem_of_fmap. by exists (b, att).
  - done.
  - intros id b Hb. destruct (R id b) as (p & Hp & Hid); [by eapply lookup_weaken|]. rewrite Eh.
    destruct (pheap s !! a) as [q|] eqn:E; [|eauto]. destruct (decide (a = b)) as [->|D].
    + exists (snd (pexec cfg o q)). rewrite lookup_insert_eq, pexec_id. split; [done|congruence].
    + exists p. by rewrite lookup_insert_ne.
  - intros Hm. specialize (X Hm). pose proof (map_subseteq_size _ _ Ep). lia.
Qed.

(** A peer that is registered anew. *)
Lemma J_register id s w tr :
  J {| sy_sv := s; sy_wait := w; sy_tr := tr |} -> sv_peers s !! id = None ->
  (0 < MaxPeers cfg -> Z.of_nat (size (sv_peers s)) < MaxPeers cfg) ->
  J {| sy_sv := s <| fresh_addr ::= S |> <| pheap := <[fresh_addr s := newPeer id]> (pheap s) |>
                  <| sv_peers := <[id := fresh_addr s]> (sv_peers s) |>; sy_wait := w; sy_tr := tr |}.
Proof.
  intros [P N H U W O R X] E L. simpl in *.
  assert (Hn : pheap s !! fresh_addr s = None)
    by (apply eq_None_not_Some; intros Hs; specialize (H _ Hs); lia).
  split; simpl; try done.
  - intros a p. rewrite lookup_insert_Some. intros [[<- <-]|[_ Ha]]; [|by apply P].
    rewrite N by done. constructor.
  - intros a. rewrite lookup_insert_None. intros [Ha _]. by apply N.
  - intros a [p Ha]. rewrite lookup_insert_Some in Ha. destruct Ha as [[<- _]|[_ Ha]]; [lia|].
    specialize (H a ltac:(by eexists)). lia.
  - intros att Ha. specialize (U att Ha). lia.
  - intros b att Hb. destruct (W b att Hb). split; [lia|done].
  - intros i a. rewrite lookup_insert_Some. intros [[<- <-]|[_ Ha]].
    + exists (newPeer id). by rewrite lookup_insert_eq.
    + destruct (R i a Ha) as (p & Hp & Hi). exists p. rewrite lookup_insert_ne by congruence. done.
  - intros Hm. rewrite map_size_insert_None by done. specialize (L Hm). lia.
Qed.

Lemma J_admit id s w tr :
  J {| sy_sv := s; sy_wait := w; sy_tr := tr |} ->
  J {| sy_sv := snd (admit_peer cfg id s); sy_wait := w; sy_tr := tr |}.
Proof.
  intros I. unfold admit_peer, mbind, state_m_bind, get_s. destruct (sv_closed s); [done|].
  destruct (sv_peers s !! id) as [a|] eqn:E; [done|].
  destruct (Z.ltb_spec 0 (MaxPeers cfg)) as [L|L];
    [destruct (Z.leb_spec (MaxPeers cfg) (Z.of_nat (size (sv_peers s)))) as [L'|L']; [done|]|];
    apply (J_register id) in I; try done; try lia.
Qed.

Lemma filter_sublist {A} (P : A -> Prop) `{forall x, Decision (P x)} (l : list A) : filter P l `sublist_of` l.
Proof. induction l as [|x l IH]; [constructor|]. rewrite filter_cons. case_decide; by constructor. Qed.

Lemma NoDup_snd {A B} (l : list (A * B)) a b x :
  NoDup (snd <$> l) -> (a, x) ∈ l -> (b, x) ∈ l -> (b, x) = (a, x).
Proof.
  intros N [i Hi]%list_elem_of_lookup [j Hj]%list_elem_of_lookup.
  assert (i = j) as ->; [|congruence].
  eapply (NoDup_lookup (snd <$> l)); [done| |]; rewrite list_lookup_fmap, fmap_Some; eauto.
Qed.

(** What a join recorded and has not attached has not been attached before. *)
Lemma J_attach a att lastID s w tr :
  J {| sy_sv := s; sy_wait := w; sy_tr := tr |} -> (a, att) ∈ w -> 0 <= lastID ->
  J {| sy_sv := snd (sv_attach a att lastID s); sy_wait := filter (fun p => p <> (a, att)) w;
       sy_tr := tr ++ evs cfg a (OAttach att lastID) s |}.
Proof.
  intros I Hw Hl. pose proof I as [_ _ _ _ W O _ _]. simpl in *. destruct (W a att Hw) as [W1 W2].
  pose proof (acts_attach a att lastID s) as A.
  apply (J_acts a (OAttach att lastID) s); [|done|].
  - eapply J_same; [exact I|apply same_refl|apply filter_sublist].
  - intros ? ? [= <- <-]. split; [done|]. split; [|split; [pose proof (ac_fresh _ _ _ _ A); lia|done]].
    intros ([b att'] & Eb & Hb)%list_elem_of_fmap. simpl in Eb. subst att'.
    apply list_elem_of_filter in Hb as [Nb Hb]. destruct Nb. by eapply NoDup_snd.
Qed.

Lemma record_fresh m a s att prev :
  fst (join_record m a s) = Some (att, prev) ->
  att = fresh_addr s /\ (fresh_addr s < fresh_addr (snd (join_record m a s)))%nat.
Proof.
  unfold join_record, mbind, state_m_bind, get_s. destruct (pheap s !! a) as [p|]; [|done]. simpl.
  unfold on_mux. simpl. destruct (mheap s !! m) as [x|]; [|done]. simpl. destruct (m_closed x); [done|].
  intros [= <- _]. simpl. split; [done|lia].
Qed.

Lemma J_record m a s w tr :
  J {| sy_sv := s; sy_wait := w; sy_tr := tr |} ->
  J {| sy_sv := snd (join_record m a s);
       sy_wait := w ++ match fst (join_record m a s) with Some (att, _) => [(a, att)] | None => [] end;
       sy_tr := tr |}.
Proof.
  intros I. pose proof (J_same _ _ w w tr I (quietm_record m a s) ltac:(done)) as I'.
  destruct (fst (join_record m a s)) as [[att prev]|] eqn:E; [|by rewrite app_nil_r].
  apply record_fresh in E as [-> F]. destruct I as [_ _ _ U W _ _ _], I' as [P' N' H' U' W' O' R' X']. simpl in *.
  split; simpl; try done.
  - intros b att [Hb|Hb%list_elem_of_singleton]%elem_of_app; [by apply (W' b)|]. injection Hb as -> ->.
    split; [done|]. intros Hu%U. lia.
  - rewrite fmap_app. apply NoDup_app. split; [done|]. split; [|apply NoDup_singleton].
    intros x ([b att] & -> & Hb)%list_elem_of_fmap Hx%list_elem_of_singleton. simpl in Hx. subst.
    destruct (W b _ Hb). lia.
Qed.

Lemma J_part {A} (m : M A) y :
  quietm m -> J y -> J (run_part m [] y).
Proof.
  intros Q. destruct y as [s w tr]. intros I. unfold run_part. simpl. rewrite app_nil_r.
  by apply (J_same s _ w).
Qed.

Lemma J_op {A} (m : M A) a o y :
  (forall s, acts a o s (snd (m s))) -> (forall att lastID, o <> OAttach att lastID) -> J y -> J (on_op cfg m a o y).
Proof.
  intros Q N. destruct y as [s w tr]. intros I. apply (J_acts a o); [done|apply Q|].
  intros att lastID E. by destruct (N att lastID).
Qed.

Lemma J_step q y : J y -> J (sexec cfg q y).
Proof.
  intros I. destruct q; cbn [sexec]; unfold closeMux_mark, leave_remove, takeDetached, mux_shutdown; try (apply J_part; [solve [quiet]|done]).
  - destruct y as [s w tr]. unfold run_part. simpl. rewrite app_nil_r. by apply J_admit.
  - apply J_op; [apply acts_enqueue|done|done].
  - destruct (Z.leb_spec 0 lastID); [|done]. destruct y as [s w tr]. destruct (acts_open a lastID s) as [A F].
    apply (J_acts a (OAttach (fresh_addr s) lastID)); [done|done|]. intros ? ? [= <- <-].
    destruct I as [_ _ _ U W _ _ _]. simpl in *. split; [intros Hu%U; lia|]. split; [|split; [|done]].
    + intros ([b att] & E & Hb)%list_elem_of_fmap. simpl in E. subst. destruct (W b _ Hb). lia.
    + done.
  - apply J_op; [apply acts_take|done|done].
  - apply J_op; [apply acts_detach|done|done].
  - apply J_op; [apply acts_expire|done|done].
  - destruct y as [s w tr]. by apply J_record.
  - destruct (bool_decide_reflect ((a, att) ∈ sy_wait y)); [|done]. destruct (Z.leb_spec 0 lastID); [|done].
    destruct y as [s w tr]. by apply J_attach.
  - apply J_op; [apply acts_shutdown|done|done].
Qed.

Lemma J_run qs : forall y, J y -> J (srun cfg qs y).
Proof. induction qs as [|q qs IH]; intros y I; [done|]. apply IH. by apply J_step. Qed.

(** ** The handlers are sequences of the parts *)

Definition parts {A} (m : M A) : Prop := forall y, exists qs, sy_sv (srun cfg qs y) = snd (m (sy_sv y)).

Lemma srun_app qs qs' y : srun cfg (qs ++ qs') y = srun cfg qs' (srun cfg qs y).
Proof. apply fold_left_app. Qed.

Lemma parts_one {A} (m : M A) q : (forall y, sy_sv (sexec cfg q y) = snd (m (sy_sv y))) -> parts m.
Proof. intros H y. exists [q]. apply H. Qed.

Lemma parts_none {A} (m : M A) : (forall s, snd (m s) = s) -> parts m.
Proof. intros H y. exists []. simpl. by rewrite H. Qed.

Lemma parts_bind {A B} (m : M A) (k : A -> M B) : parts m -> (forall x, parts (k x)) -> parts (m ≫= k).
Proof.
  intros Hm Hk y. destruct (Hm y) as [qs Hq]. unfold mbind, state_m_bind.
  destruct (m (sy_sv y)) as [x s1]. simpl in Hq. destruct (Hk x (srun cfg qs y)) as [qs' Hq'].
  exists (qs ++ qs'). by rewrite srun_app, Hq', Hq.
Qed.

Lemma parts_ext {A B} (m : M A) (m' : M B) : (forall s, snd (m s) = snd (m' s)) -> parts m' -> parts m.
Proof. intros H Hm y. destruct (Hm y) as [qs Hq]. exists qs. by rewrite Hq, H. Qed.

Lemma parts_ret {A} (x : A) : parts (mret x).
Proof. by apply parts_none. Qed.
Lemma parts_gets {A} (f : server -> A) : parts (gets f).
Proof. by apply parts_none. Qed.
Lemma parts_get_s : parts get_s.
Proof. by apply parts_none. Qed.
Lemma parts_admit id : parts (admit_peer cfg id).
Proof. by apply (parts_one _ (QAdmit id)). Qed.
Lemma parts_enqueue a data : parts (sv_enqueue cfg a data).
Proof. by apply (parts_one _ (QEnqueue a data)). Qed.
Lemma parts_take a att : parts (sv_take cfg a att).
Proof. by apply (parts_one _ (QTake a att)). Qed.
Lemma parts_detach a att : parts (sv_detach a att).
Proof. by apply (parts_one _ (QDetach a att)). Qed.
Lemma parts_mark a : parts (expire_mark a).
Proof. by apply (parts_one _ (QExpire a)). Qed.
Lemma parts_forget a : parts (forget a).
Proof. by apply (parts_one _ (QForget a)). Qed.
Lemma parts_wait att c : parts (stream_wait att c).
Proof. by apply (parts_one _ (QWait att c)). Qed.
Lemma parts_openMux owner rand : parts (openMux owner rand).
Proof. by apply (parts_one _ (QOpenMux owner rand)). Qed.
Lemma parts_unregister m : parts (closeMux_unregister m).
Proof. by apply (parts_one _ (QUnregister m)). Qed.
Lemma parts_closeMux_mark m : parts (closeMux_mark m).
Proof. by apply (parts_one _ (QMark m)). Qed.
Lemma parts_remove m id : parts (leave_remove m id).
Proof. by apply (parts_one _ (QRemove m id)). Qed.
Lemma parts_detached m : parts (takeDetached m).
Proof. by apply (parts_one _ (QDetached m)). Qed.
Lemma parts_mux_wait m c : parts (mux_wait m c).
Proof. by apply (parts_one _ (QMuxWait m c)). Qed.
Lemma parts_close_mark : parts close_mark.
Proof. by apply (parts_one _ QClose). Qed.
Lemma parts_shutdown a : parts (sv_shutdown a).
Proof. by apply (parts_one _ (QShutdown a)). Qed.
Lemma parts_mux_shutdown m : parts (mux_shutdown m).
Proof. by apply (parts_one _ (QMuxShutdown m)). Qed.

Lemma parts_open a lastID : 0 <= lastID -> parts (open_stream a lastID).
Proof.
  intros H. apply (parts_one _ (QOpen a lastID)). intros y. simpl.
  by rewrite (proj2 (Z.leb_le 0 lastID)) by done.
Qed.

Lemma parts_snapshot m : parts (snapshot m).
Proof.
  apply parts_none. intros s. unfold snapshot, on_mux. destruct (mheap s !! m) as [x|] eqn:E; [|done]. simpl.
  rewrite insert_id by done. by destruct s.
Qed.

#[local] Hint Resolve parts_ret parts_gets parts_get_s parts_admit parts_enqueue parts_take parts_detach parts_mark
  parts_forget parts_wait parts_openMux parts_unregister parts_closeMux_mark parts_remove parts_detached parts_mux_wait
  parts_close_mark parts_shutdown parts_mux_shutdown parts_snapshot : parts.

#[local] Ltac parts :=
  repeat (auto with parts;
    match goal with
    | |- parts (_ ≫= _) => apply parts_bind; [|intros ?]
    | |- parts (match ?x with _ => _ end) => destruct x
    | |- parts (opt_do _ ?x) => destruct x; simpl
    end).

Lemma parts_detach_all l : parts (detach_all l).
Proof. induction l as [|[a att] l IH]; simpl; parts. Qed.

Lemma parts_closeMux m : parts (closeMux m).
Proof. unfold closeMux. parts. apply parts_detach_all. Qed.

Lemma parts_take_all l : parts (take_all cfg l).
Proof. induction l as [|[a att] l IH]; simpl; unfold stream_batch; parts. Qed.

Lemma parts_mux_batch m : parts (mux_batch cfg m).
Proof. unfold mux_batch. parts. apply parts_take_all. Qed.

Lemma parts_for_all f l : (forall a, parts (f a)) -> parts (for_all f l).
Proof. intros H. induction l as [|a l IH]; simpl; parts. Qed.

Lemma parts_Close : parts Close.
Proof. unfold Close. parts; apply parts_for_all; parts. Qed.

Lemma last_event_nonneg r n : last_event r = Some n -> 0 <= n.
Proof.
  unfold last_event, ParseUint. case_bool_decide; [by intros [= <-]|].
  destruct (list_ascii_of_string _) as [|c l]; [done|]. destruct (forallb is_digit (c :: l)) eqn:D; [|done].
  destruct (_ <? _); [|done]. intros [= <-]. by apply digits_val_nonneg.
Qed.

Lemma parts_stream_open id r opened : parts (stream_open cfg id r opened).
Proof.
  unfold stream_open. apply parts_bind; [auto with parts|]. intros [a|e]; [|destruct e; parts].
  destruct (last_event r) as [n|] eqn:E; [|parts]. destruct opened; simpl; [|parts].
  apply (parts_ext _ (open_stream a n)); [|by apply parts_open, (last_event_nonneg r)].
  intros s. unfold open_stream, alloc, modify, mbind, state_m_bind. cbn -[sv_attach].
  by destruct (sv_attach a _ n _).
Qed.

(** A join: what its record adds to the joins to come is there when it attaches. *)
Lemma parts_join m a lastID : 0 <= lastID -> parts (join m a lastID).
Proof.
  intros Hl y. set (y1 := sexec cfg (QRecord m a) y).
  unfold join, mbind, state_m_bind.
  assert (E1 : sy_sv y1 = snd (join_record m a (sy_sv y))) by done.
  assert (W1 : sy_wait y1 = sy_wait y ++ match fst (join_record m a (sy_sv y)) with
                                        | Some (att, _) => [(a, att)] | None => [] end) by done.
  assert (Y : sexec cfg (QRecord m a) y = y1) by done. clearbody y1.
  destruct (join_record m a (sy_sv y)) as [[[att prev]|] s1]; cbn [fst snd] in *; [|by exists [QRecord m a]; cbn [srun fold_left]; rewrite Y].
  assert (H2 : exists qs, sy_sv (srun cfg qs y1) = snd (join_previous a prev s1) /\
                          (a, att) ∈ sy_wait (srun cfg qs y1)).
  { rewrite <- E1. assert ((a, att) ∈ sy_wait y1) by (rewrite W1; apply elem_of_app; right; by left).
    unfold join_previous. destruct prev as [[b att']|]; [|by exists []].
    case_bool_decide; [by exists []|]. by exists [QDetach b att']. }
  destruct H2 as (qs2 & E2 & W2). destruct (join_previous a prev s1) as [[] s2]. simpl in E2.
  set (y2 := srun cfg qs2 y1) in *. set (y3 := sexec cfg (QAttach a att lastID) y2).
  assert (E3 : sy_sv y3 = snd (sv_attach a att lastID s2)).
  { unfold y3. simpl. rewrite bool_decide_eq_true_2 by done. rewrite (proj2 (Z.leb_le 0 lastID)) by done.
    simpl. by rewrite E2. }
  destruct (sv_attach a att lastID s2) as [[] s3]. simpl in E3.
  assert (P : parts (join_check m a att)) by (unfold join_check; parts).
  destruct (P y3) as [qs4 E4]. exists (QRecord m a :: qs2 ++ QAttach a att lastID :: qs4).
  change (srun cfg (QRecord m a :: qs2 ++ QAttach a att lastID :: qs4) y)
    with (srun cfg (qs2 ++ QAttach a att lastID :: qs4) (sexec cfg (QRecord m a) y)).
  rewrite Y, srun_app. change (sy_sv (srun cfg qs4 y3) = snd (join_check m a att s3)). by rewrite E4, E3.
Qed.

Lemma parts_serveJoin id r : parts (serveJoin cfg id r).
Proof.
  unfold serveJoin. apply parts_bind; [unfold lookupMux; parts|]. intros [m|]; [|parts].
  destruct (last_event r) as [n|] eqn:E; [|parts]. parts. by apply parts_join, (last_event_nonneg r).
Qed.

Lemma parts_ServeHTTP auth r opened rand : parts (ServeHTTP cfg auth r opened rand).
Proof.
  unfold ServeHTTP, mux_open, serveSend, lookup_peer, send_enqueue, serveLeave, leave, lookupMux.
  parts; auto using parts_closeMux, parts_stream_open, parts_serveJoin.
Qed.

Lemma parts_serial auth o y : exists qs, sy_sv (srun cfg qs y) = serial_exec cfg auth o (sy_sv y).
Proof.
  destruct o; simpl.
  - apply parts_ServeHTTP.
  - revert y. change (parts (stream_batch cfg a att)). unfold stream_batch. parts.
  - apply parts_wait.
  - destruct (atts (sy_sv y) !! att) as [[]|]; [apply parts_detach|by exists []..].
  - apply parts_mux_batch.
  - apply parts_mux_wait.
  - apply parts_closeMux.
  - revert y. change (parts (sv_expire a)). unfold sv_expire. parts.
  - apply parts_Close.
Qed.

(** C13. The server refines its peers, whatever its handlers do at the same time. In any
    interleaving of the parts of any number of requests, streams, expirations and of the
    shutdown, what has happened to each peer's record is a run of the peer's own
    operations, each stream attached at most once, from the record's creation on: so a
    stream of the server gets a contiguous part of what the server accepted, and the
    server's memory for a peer is bounded, as for a peer alone. A registered peer is the
    record of its identifier, and no more than [MaxPeers] are registered when there is a
    limit. The handlers themselves, each run by itself, are sequences of these parts. *)
Theorem server_refines_peers (Authenticate : request -> result error string) (qs : list part) :
  let y := srun cfg qs sstart in
  (forall a p, pheap (sy_sv y) !! a = Some p -> preach cfg (p_id p) p (proj a (sy_tr y))) /\
  (forall id a, sv_peers (sy_sv y) !! id = Some a -> exists p, pheap (sy_sv y) !! a = Some p /\ p_id p = id) /\
  (0 < MaxPeers cfg -> Z.of_nat (size (sv_peers (sy_sv y))) <= MaxPeers cfg) /\
  (forall o, exists qs', sy_sv (srun cfg qs' y) = serial_exec cfg Authenticate o (sy_sv y)).
Proof.
  intros y. pose proof (J_run qs _ J_start) as [P _ _ _ _ _ R X]. split_and!; try done. intros o. apply parts_serial.
Qed.
End refine.
