(* ===== verification/SseTypes.v ===== *)
(** * The references of the signaling server

    Peers, multiplexed streams and attachments point at each other, and handlers keep such
    pointers between their critical sections. [has s a k] types an address: what object is
    there, and what of it never changes. [typed] is a store in which every reference has
    the type its use needs; [extends] says that later stores type the same addresses the
    same way, so that a reference a handler holds stays good whatever runs in between.
    [safe] is the judgement of a computation over such stores. The theorem is type
    soundness for the parts of [SseRefine], in any interleaving. *)

From Stdlib Require Import String.
From S2P Require Import Prelude.
From S2P Require Import Errors.
From S2P Require Import Json.
From S2P Require Import Signal.
From S2P Require Import Envelope.
From S2P Require Import SsePeer.
From S2P Require Import SseServer.
From S2P Require Import SseServerProps.
From S2P Require Import SseMux.
From S2P Require Import SseRefine.

#[local] Arguments marshal_signal : simpl never.
#[local] Arguments unmarshal_signal : simpl never.
#[local] Arguments Validate : simpl never.

(** ** Types of addresses *)

Inductive kind :=
| KPeer (id : string)                     (* a peer's record *)
| KMux (id owner : string)                (* a multiplexed stream *)
| KStream                                 (* the attachment of a single stream *)
| KMember (m : nat) (peer : string).      (* that of a peer on a multiplexed stream *)

Definition peer_kind (p : peer) : kind := KPeer (p_id p).
Definition mux_kind (x : muxStream) : kind := KMux (m_id x) (m_owner x).
Definition att_kind (a : attachment) : kind :=
  match a with AttStream _ _ => KStream | AttMux m id => KMember m id end.

Definition has (s : server) (a : nat) (k : kind) : Prop :=
  match k with
  | KPeer _ => peer_kind <$> pheap s !! a = Some k
  | KMux _ _ => mux_kind <$> mheap s !! a = Some k
  | KStream | KMember _ _ => att_kind <$> atts s !! a = Some k
  end.

Definition has_peer (s : server) (a : nat) : Prop := exists id, has s a (KPeer id).
Definition has_mux (s : server) (m : nat) : Prop := exists id owner, has s m (KMux id owner).
Definition has_att (s : server) (att : nat) : Prop := exists k, has s att k /\ match k with KStream | KMember _ _ => True | _ => False end.

(** An attachment a peer may have. *)
Definition good_stream (s : server) (id : string) (att : nat) : Prop :=
  has s att KStream \/ exists m, has s att (KMember m id) /\ has_mux s m.

Record typed (s : server) : Prop := {
  ty_peers : forall id a, sv_peers s !! id = Some a -> has s a (KPeer id);
  ty_muxes : forall id m, sv_muxes s !! id = Some m -> exists owner, has s m (KMux id owner);
  ty_atts : forall att m id, has s att (KMember m id) -> has_mux s m;
  ty_stream : forall a p att, pheap s !! a = Some p -> stream p = Some att -> good_stream s (p_id p) att;
  ty_member : forall m x id a att, mheap s !! m = Some x -> members x !! id = Some (a, att) ->
    has s a (KPeer id) /\ has s att (KMember m id);
  ty_closed : forall m x, mheap s !! m = Some x -> m_closed x = true -> members x = ∅;
  ty_down : sv_closed s = true -> sv_peers s = ∅ /\ sv_muxes s = ∅;
  ty_fresh : forall a k, has s a k -> (a < fresh_addr s)%nat;
  ty_one : forall a k k', has s a k -> has s a k' -> k = k'
}.

Definition extends (s s' : server) : Prop := forall a k, has s a k -> has s' a k.

#[export] Instance extends_preorder : PreOrder extends.
Proof. split; [by intros s a k|]. intros s1 s2 s3 H1 H2 a k H. by apply H2, H1. Qed.

Lemma extends_peer s s' a : extends s s' -> has_peer s a -> has_peer s' a.
Proof. intros E [id H]. exists id. by apply E. Qed.
Lemma extends_mux s s' m : extends s s' -> has_mux s m -> has_mux s' m.
Proof. intros E (id & o & H). exists id, o. by apply E. Qed.
Lemma extends_good s s' id att : extends s s' -> good_stream s id att -> good_stream s' id att.
Proof. intros E [H|(m & H & Hm)]; [left; by apply E|right; exists m; split; [by apply E|by eapply extends_mux]]. Qed.
#[export] Hint Resolve extends_peer extends_mux extends_good : types.

Lemma has_peer_at s a id : has s a (KPeer id) <-> exists p, pheap s !! a = Some p /\ p_id p = id.
Proof.
  unfold has, peer_kind. rewrite fmap_Some. split; intros (p & Hp & E); exists p; split; congruence.
Qed.
Lemma has_mux_at s m id o : has s m (KMux id o) <-> exists x, mheap s !! m = Some x /\ m_id x = id /\ m_owner x = o.
Proof.
  unfold has, mux_kind. rewrite fmap_Some. split.
  - intros (x & Hx & E). exists x. split; [done|]. split; congruence.
  - intros (x & Hx & <- & <-). by exists x.
Qed.
Lemma has_stream_at s att : has s att KStream <-> exists w e, atts s !! att = Some (AttStream w e).
Proof.
  unfold has, att_kind. rewrite fmap_Some. split; [|by intros (w & e & H); exists (AttStream w e)].
  intros ([w e|m id] & H & E); [eauto|done].
Qed.
Lemma has_member_at s att m id : has s att (KMember m id) <-> atts s !! att = Some (AttMux m id).
Proof.
  unfold has, att_kind. rewrite fmap_Some. split; [|by intros H; exists (AttMux m id)].
  intros ([w e|m' id'] & H & E); [done|]. by injection E as -> ->.
Qed.

(** ** Updates that keep every type *)

Lemma fmap_insert_same {A B} (f : A -> B) (m : gmap nat A) i x x' j :
  m !! i = Some x -> f x' = f x -> f <$> <[i := x']> m !! j = f <$> m !! j.
Proof.
  intros Hi E. destruct (decide (i = j)) as [<-|N]; [rewrite lookup_insert_eq, Hi; cbn; by rewrite E|].
  by rewrite lookup_insert_ne.
Qed.

Record retypes (s s' : server) : Prop := {
  rt_has : forall a k, has s' a k <-> has s a k;
  rt_fresh : (fresh_addr s <= fresh_addr s')%nat;
  rt_peers : sv_peers s' ⊆ sv_peers s;
  rt_muxes : sv_muxes s' ⊆ sv_muxes s;
  rt_down : sv_closed s' = true -> sv_closed s = true \/ (sv_peers s' = ∅ /\ sv_muxes s' = ∅)
}.

Lemma retypes_extends s s' : retypes s s' -> extends s s'.
Proof. intros R a k H. by apply (rt_has _ _ R). Qed.
Lemma retypes_mux s s' m : retypes s s' -> has_mux s' m <-> has_mux s m.
Proof. intros R. unfold has_mux. by setoid_rewrite (rt_has _ _ R). Qed.

Lemma empty_subseteq (m : gmap string nat) : m ⊆ ∅ -> m = ∅.
Proof. intros H. apply (anti_symm (⊆)); [done|apply map_empty_subseteq]. Qed.

Lemma typed_retypes s s' : typed s -> retypes s s' ->
  (forall a p att, pheap s' !! a = Some p -> stream p = Some att -> good_stream s (p_id p) att) ->
  (forall m x id a att, mheap s' !! m = Some x -> members x !! id = Some (a, att) ->
     has s a (KPeer id) /\ has s att (KMember m id)) ->
  (forall m x, mheap s' !! m = Some x -> m_closed x = true -> members x = ∅) ->
  typed s'.
Proof.
  intros [P M A S B C D F O] R HS HM HC. pose proof (rt_has _ _ R) as Hh. pose proof (retypes_extends _ _ R) as E.
  split; try done.
  - intros id a H. apply Hh, P. by eapply lookup_weaken, (rt_peers _ _ R).
  - intros id m H. destruct (M id m) as [o Ho]; [by eapply lookup_weaken, (rt_muxes _ _ R)|]. exists o. by apply Hh.
  - intros att m id H. apply (extends_mux s); [done|]. eapply A. by apply Hh.
  - intros a p att Hp Hs. eapply extends_good; [done|]. by eapply HS.
  - intros m x id a att Hm Hx. destruct (HM m x id a att Hm Hx). split; by apply Hh.
  - intros Hd. destruct (rt_down _ _ R Hd) as [Hd'|]; [|done]. destruct (D Hd') as [E1 E2].
    pose proof (rt_peers _ _ R) as P1. pose proof (rt_muxes _ _ R) as P2. rewrite E1 in P1. rewrite E2 in P2.
    split; by apply empty_subseteq.
  - intros a k H. apply Hh, F in H. pose proof (rt_fresh _ _ R). lia.
  - intros a k k' H H'. apply (O a); by apply Hh.
Qed.

Lemma retypes_peer s a p p' : pheap s !! a = Some p -> p_id p' = p_id p ->
  retypes s (s <| pheap := <[a := p']> (pheap s) |>).
Proof.
  intros Hp Hi. split; simpl; try done; [|by left]. intros b [id| | |]; simpl; try done.
  rewrite (fmap_insert_same _ _ _ p); [done|done|]. unfold peer_kind. by rewrite Hi.
Qed.

Lemma retypes_mux_at s m x x' : mheap s !! m = Some x -> m_id x' = m_id x -> m_owner x' = m_owner x ->
  retypes s (s <| mheap := <[m := x']> (mheap s) |>).
Proof.
  intros Hm Hi Ho. split; simpl; try done; [|by left]. intros b [|id o| |]; simpl; try done.
  rewrite (fmap_insert_same _ _ _ x); [done|done|]. unfold mux_kind. by rewrite Hi, Ho.
Qed.

Lemma retypes_flags s att w e w' e' : atts s !! att = Some (AttStream w e) ->
  retypes s (s <| atts := <[att := AttStream w' e']> (atts s) |>).
Proof.
  intros Ha. split; simpl; try done; [|by left]. intros b [| | |m id]; simpl; try done.
  all: by rewrite (fmap_insert_same _ _ _ (AttStream w e)).
Qed.

(** A peer's stream stays, ends, or is one it may have. *)
Lemma typed_peer s a p p' : typed s -> pheap s !! a = Some p -> p_id p' = p_id p ->
  (stream p' = stream p \/ forall att, stream p' = Some att -> good_stream s (p_id p) att) ->
  typed (s <| pheap := <[a := p']> (pheap s) |>).
Proof.
  intros T Hp Hi Hs. apply (typed_retypes s); [done|by eapply retypes_peer| | |].
  - intros b q att Hb Hq. simpl in Hb. apply lookup_insert_Some in Hb as [[<- <-]|[_ Hb]]; [|by eapply (ty_stream _ T)].
    rewrite Hi. destruct Hs as [E|Hs]; [|by apply Hs]. rewrite E in Hq. by eapply (ty_stream _ T).
  - apply (ty_member _ T).
  - apply (ty_closed _ T).
Qed.

Lemma typed_mux s m x x' : typed s -> mheap s !! m = Some x -> m_id x' = m_id x -> m_owner x' = m_owner x ->
  (m_closed x' = true -> members x' = ∅) ->
  (forall id a att, members x' !! id = Some (a, att) ->
     members x !! id = Some (a, att) \/ has s a (KPeer id) /\ has s att (KMember m id)) ->
  typed (s <| mheap := <[m := x']> (mheap s) |>).
Proof.
  intros T Hm Hi Ho Hc Hx. apply (typed_retypes s); [done|by eapply retypes_mux_at|apply (ty_stream _ T)| |].
  - intros m' y id a att Hy. simpl in Hy. apply lookup_insert_Some in Hy as [[<- <-]|[_ Hy]].
    + intros [Hid|?]%Hx; [|done]. by eapply (ty_member _ T).
    + by eapply (ty_member _ T).
  - intros m' y Hy. simpl in Hy. apply lookup_insert_Some in Hy as [[<- <-]|[_ Hy]]; [done|]. by eapply (ty_closed _ T).
Qed.

Lemma typed_flags s att w e w' e' : typed s -> atts s !! att = Some (AttStream w e) ->
  typed (s <| atts := <[att := AttStream w' e']> (atts s) |>).
Proof.
  intros T Ha. apply (typed_retypes s); [done|by eapply retypes_flags|apply (ty_stream _ T)|apply (ty_member _ T)|apply (ty_closed _ T)].
Qed.

(** Registrations that go, and the address counter. *)
Lemma typed_names s s' : typed s ->
  pheap s' = pheap s -> mheap s' = mheap s -> atts s' = atts s -> (fresh_addr s <= fresh_addr s')%nat ->
  sv_peers s' ⊆ sv_peers s -> sv_muxes s' ⊆ sv_muxes s ->
  (sv_closed s' = true -> sv_closed s = true \/ (sv_peers s' = ∅ /\ sv_muxes s' = ∅)) ->
  typed s' /\ extends s s'.
Proof.
  intros T Hp Hm Ha Hf Hps Hms Hd.
  assert (R : retypes s s') by (split; try done; intros a []; simpl; by rewrite ?Hp, ?Hm, ?Ha).
  split; [|by apply retypes_extends]. apply (typed_retypes s); try done; rewrite ?Hp, ?Hm; apply T.
Qed.

(** ** New objects *)

Record grows (k0 : kind) (s s' : server) : Prop := {
  gr_has : forall b k, has s' b k <-> has s b k \/ (b = fresh_addr s /\ k = k0);
  gr_fresh : fresh_addr s' = S (fresh_addr s);
  gr_att : forall m id, k0 = KMember m id -> has_mux s m;
  gr_peers : forall id a, sv_peers s' !! id = Some a -> sv_peers s !! id = Some a \/ (a = fresh_addr s /\ k0 = KPeer id);
  gr_muxes : forall id m, sv_muxes s' !! id = Some m ->
    sv_muxes s !! id = Some m \/ (m = fresh_addr s /\ exists o, k0 = KMux id o);
  gr_pheap : forall a p, pheap s' !! a = Some p -> pheap s !! a = Some p \/ stream p = None;
  gr_mheap : forall m x, mheap s' !! m = Some x -> mheap s !! m = Some x \/ members x = ∅;
  gr_down : sv_closed s' = true -> sv_closed s = true /\ sv_peers s' = sv_peers s /\ sv_muxes s' = sv_muxes s
}.

Lemma typed_grows k0 s s' : typed s -> grows k0 s s' -> typed s' /\ extends s s'.
Proof.
  intros [P M A S B C D F O] [Gh Gf Ga Gp Gm Gs Gx Gd].
  assert (E : extends s s') by (intros a k H; apply Gh; by left). split; [|done]. split.
  - intros id a [H|[-> ->]]%Gp; [by apply E, P|]. apply Gh. by right.
  - intros id m [H|[-> [o ->]]]%Gm; [destruct (M id m H) as [o Ho]; exists o; by apply E|]. exists o. apply Gh. by right.
  - intros att m id [H|[-> H]]%Gh; (eapply extends_mux; [done|]); [by eapply A|by eapply Ga].
  - intros a p att [H|H]%Gs Hs; [|congruence]. eapply extends_good; [done|by eapply S].
  - intros m x id a att [H|H]%Gx Hx; [|by rewrite H in Hx]. destruct (B m x id a att H Hx). split; by apply E.
  - intros m x [H|H]%Gx Hc; [by eapply C|done].
  - intros (Hd & -> & ->)%Gd. by apply D.
  - intros a k [H|[-> _]]%Gh; [apply F in H|]; lia.
  - assert (N : forall k, ~ has s (fresh_addr s) k) by (intros k H%F; lia).
    intros a k k' [H|[-> ->]]%Gh [H'|[E' ->]]%Gh; [by eapply O| |by destruct (N k')|done]. subst. by destruct (N k).
Qed.

Lemma fmap_insert_new {A B} (f : A -> B) (m : gmap nat A) i x j k :
  f <$> m !! i = None -> f <$> <[i := x]> m !! j = Some k <-> f <$> m !! j = Some k \/ (j = i /\ k = f x).
Proof.
  intros Hi. destruct (decide (i = j)) as [<-|N].
  - rewrite lookup_insert_eq, Hi. cbn. split; [intros [= <-]; by right|]. intros [?|[_ ->]]; done.
  - rewrite lookup_insert_ne by done. split; [by left|]. intros [?|[-> _]]; done.
Qed.

Lemma fresh_none s k : typed s -> ~ has s (fresh_addr s) k.
Proof. intros T H%(ty_fresh _ T). lia. Qed.

Lemma fresh_peer s : typed s -> peer_kind <$> pheap s !! fresh_addr s = None.
Proof.
  intros T. destruct (pheap s !! fresh_addr s) as [p|] eqn:E; [|done].
  destruct (fresh_none s (KPeer (p_id p)) T). simpl. by rewrite E.
Qed.
Lemma fresh_mux s : typed s -> mux_kind <$> mheap s !! fresh_addr s = None.
Proof.
  intros T. destruct (mheap s !! fresh_addr s) as [x|] eqn:E; [|done].
  destruct (fresh_none s (mux_kind x) T). simpl. by rewrite E.
Qed.
Lemma fresh_att s : typed s -> att_kind <$> atts s !! fresh_addr s = None.
Proof.
  intros T. destruct (atts s !! fresh_addr s) as [x|] eqn:E; [|done].
  destruct (fresh_none s (att_kind x) T). destruct x; simpl; by rewrite E.
Qed.

Lemma grows_peer s id : typed s -> sv_closed s = false ->
  grows (KPeer id) s (s <| fresh_addr ::= S |> <| pheap := <[fresh_addr s := newPeer id]> (pheap s) |>
                        <| sv_peers := <[id := fresh_addr s]> (sv_peers s) |>).
Proof.
  intros T Hd. split; simpl; try done; try congruence; try (intros; by left).
  - intros b [i| | |]; simpl; try (by split; [left|intros [?|[_ ?]]]).
    rewrite fmap_insert_new by (by apply fresh_peer). unfold peer_kind at 3. done.
  - intros i a [[<- <-]|[_ H]]%lookup_insert_Some; [by right|by left].
  - intros a p [[<- <-]|[_ H]]%lookup_insert_Some; [by right|by left].
Qed.

Lemma grows_mux s x : typed s -> sv_closed s = false -> members x = ∅ ->
  grows (mux_kind x) s (s <| fresh_addr ::= S |> <| mheap := <[fresh_addr s := x]> (mheap s) |>
                          <| sv_muxes := <[m_id x := fresh_addr s]> (sv_muxes s) |>).
Proof.
  intros T Hd Hx. split; simpl; try done; try congruence; try (intros; by left).
  - intros b [|i o| |]; simpl; try (by split; [left|intros [?|[_ ?]]]).
    by rewrite fmap_insert_new by (by apply fresh_mux).
  - intros i m [[<- <-]|[_ H]]%lookup_insert_Some; [right; split; [done|]; by exists (m_owner x)|by left].
  - intros m y [[<- <-]|[_ H]]%lookup_insert_Some; [by right|by left].
Qed.

Lemma grows_att s a : typed s -> (forall m id, a = AttMux m id -> has_mux s m) ->
  grows (att_kind a) s (s <| fresh_addr ::= S |> <| atts := <[fresh_addr s := a]> (atts s) |>).
Proof.
  intros T Ha. split; simpl; try done; try (intros; by left).
  - intros b k. assert (H : att_kind <$> <[fresh_addr s := a]> (atts s) !! b = Some k <->
      att_kind <$> atts s !! b = Some k \/ b = fresh_addr s /\ k = att_kind a) by (by apply fmap_insert_new, fresh_att).
    destruct k; simpl; try done; (split; [by left|]; intros [?|[_ E]]; [done|by destruct a]).
  - intros m id. destruct a as [|m' id']; [done|]. intros [= <- <-]. by eapply Ha.
Qed.

(** ** Computations *)

Section safe.
Variable cfg : Config.

Abbreviation M := (state_m server).

(** From the typed store [s] the computation ends in a typed store that extends it, with a
    result of which [R] holds there. *)
Definition safe {A} (m : M A) (R : A -> server -> Prop) (s : server) : Prop :=
  typed s -> typed (snd (m s)) /\ extends s (snd (m s)) /\ R (fst (m s)) (snd (m s)).

Definition any_result {A} (_ : A) (_ : server) : Prop := True.

Lemma safe_bind {A B} (m : M A) (k : A -> M B) R Q s :
  safe m R s -> (forall x s', extends s s' -> R x s' -> safe (k x) Q s') -> safe (m ≫= k) Q s.
Proof.
  intros Hm Hk T. unfold mbind, state_m_bind. destruct (Hm T) as (T1 & E1 & H1). destruct (m s) as [x s1].
  destruct (Hk x s1 E1 H1 T1) as (T2 & E2 & H2). split; [done|]. split; [by etrans|done].
Qed.

Lemma safe_any {A} (m : M A) R s : safe m R s -> safe m any_result s.
Proof. intros H T. by destruct (H T) as (? & ? & _). Qed.

Lemma safe_seq {A B} (m : M A) (k : M B) Q s :
  safe m any_result s -> (forall s', extends s s' -> safe k Q s') -> safe (m ≫= fun _ => k) Q s.
Proof. intros Hm Hk. apply (safe_bind m _ any_result); [done|]. intros; by apply Hk. Qed.

Lemma safe_ret {A} (x : A) (Q : A -> server -> Prop) s : Q x s -> safe (mret x) Q s.
Proof. done. Qed.

Lemma safe_gets {A} (f : server -> A) (Q : A -> server -> Prop) s : (typed s -> Q (f s) s) -> safe (gets f) Q s.
Proof. intros H T. split; [done|]. split; [done|]. by apply H. Qed.

Lemma safe_state {A} (k : server -> M A) Q s : safe (k s) Q s -> safe (get_s ≫= k) Q s.
Proof. done. Qed.

Lemma safe_modify f (Q : unit -> server -> Prop) s :
  (typed s -> typed (f s) /\ extends s (f s) /\ Q tt (f s)) -> safe (modify f) Q s.
Proof. done. Qed.

Lemma safe_on_peer {A} (d : A) a f s :
  (forall p, pheap s !! a = Some p -> p_id (snd (f p)) = p_id p /\
     (stream (snd (f p)) = stream p \/ forall att, stream (snd (f p)) = Some att -> good_stream s (p_id p) att)) ->
  safe (on_peer d a f) any_result s.
Proof.
  intros Hf T. unfold on_peer. destruct (pheap s !! a) as [p|] eqn:Hp; [|done]. destruct (Hf p eq_refl) as [Hi Hs].
  destruct (f p) as [x p']. cbn [fst snd] in *. split; [by eapply typed_peer|]. split; [|done].
  by eapply retypes_extends, retypes_peer.
Qed.

Lemma safe_on_mux {A} (d : A) m f (R : A -> server -> Prop) s :
  (mheap s !! m = None -> R d s) ->
  (forall x, typed s -> mheap s !! m = Some x ->
     let x' := snd (f x) in
     m_id x' = m_id x /\ m_owner x' = m_owner x /\ (m_closed x' = true -> members x' = ∅) /\
     (forall id a att, members x' !! id = Some (a, att) ->
        members x !! id = Some (a, att) \/ has s a (KPeer id) /\ has s att (KMember m id)) /\
     (forall s', typed s -> extends s s' -> R (fst (f x)) s')) ->
  safe (on_mux d m f) R s.
Proof.
  intros Hd Hf T. unfold on_mux. destruct (mheap s !! m) as [x|] eqn:Hm; [|split; [done|]; split; [done|]; by apply Hd].
  destruct (Hf x T eq_refl) as (Hi & Ho & Hc & Hx & HR). destruct (f x) as [r x']. cbn [fst snd] in *.
  assert (E : extends s (s <| mheap := <[m := x']> (mheap s) |>)) by (by eapply retypes_extends, retypes_mux_at).
  split; [by eapply typed_mux|]. split; [done|]. by apply HR.
Qed.

(** A multiplexed stream whose members stay. *)
Lemma safe_mux_flags {A} (d : A) m f s :
  (forall x, m_id (snd (f x)) = m_id x /\ m_owner (snd (f x)) = m_owner x /\ m_closed (snd (f x)) = m_closed x /\
             members (snd (f x)) = members x) ->
  safe (on_mux d m f) any_result s.
Proof.
  intros Hf. apply safe_on_mux; [done|]. intros x T Hm. destruct (Hf x) as (Hi & Ho & Hc & Hx). cbn zeta.
  rewrite Hi, Ho, Hc, Hx. split_and!; try done; [by eapply ty_closed|]. auto.
Qed.

(** ** The parts *)

Lemma safe_names f s :
  pheap (f s) = pheap s -> mheap (f s) = mheap s -> atts (f s) = atts s -> fresh_addr (f s) = fresh_addr s ->
  sv_peers (f s) ⊆ sv_peers s -> sv_muxes (f s) ⊆ sv_muxes s ->
  (sv_closed (f s) = true -> sv_closed s = true \/ (sv_peers (f s) = ∅ /\ sv_muxes (f s) = ∅)) ->
  safe (modify f) any_result s.
Proof.
  intros Hp Hm Ha Hf Hps Hms Hd T. destruct (typed_names s (f s) T) as [T' E]; try done. by rewrite Hf.
Qed.

Lemma safe_poke att s : safe (poke att) any_result s.
Proof.
  apply safe_state. destruct (atts s !! att) as [[w e|m id]|] eqn:Ea; [|by apply safe_mux_flags|done].
  apply safe_modify. intros T. split; [by eapply typed_flags|]. split; [|done]. by eapply retypes_extends, retypes_flags.
Qed.

Lemma safe_end att reason s : safe (att_end att reason) any_result s.
Proof.
  apply safe_state. destruct (atts s !! att) as [[w e|m id]|] eqn:Ea; [| |done].
  - apply safe_modify. intros T. split; [by eapply typed_flags|]. split; [|done].
    by eapply retypes_extends, retypes_flags.
  - apply safe_on_mux; [done|]. intros x T Hm. pose proof (ty_closed _ T m x Hm) as Hc.
    destruct (members x !! id) as [[b att']|] eqn:Ex; [|cbn; split_and!; try done; auto].
    case_bool_decide; [|cbn; split_and!; try done; auto].
    case_bool_decide; cbn; (split; [done|]; split; [done|]; split; [intros D; rewrite (Hc D); apply delete_empty|]);
      (split; [|done]); intros i a o [_ Hi]%lookup_delete_Some; by left.
Qed.

Lemma safe_opt {A} (f : A -> M unit) o s : (forall x, safe (f x) any_result s) -> safe (opt_do f o) any_result s.
Proof. intros H. destruct o; [apply H|done]. Qed.

Lemma safe_enqueue a data s : safe (sv_enqueue cfg a data) any_result s.
Proof.
  apply (safe_bind _ _ any_result).
  - apply safe_on_peer. intros p _. unfold enqueue. destruct (down p); [auto|]. destruct (_ <=? _); cbn; auto.
  - intros r s' _ _. apply safe_seq; [apply safe_opt; intros; apply safe_poke|done].
Qed.

Lemma safe_attach a att lastID s :
  (forall id, has s a (KPeer id) -> good_stream s id att) -> safe (sv_attach a att lastID) any_result s.
Proof.
  intros Hg. apply (safe_bind _ _ any_result).
  - apply safe_on_peer. intros p Hp. assert (G : good_stream s (p_id p) att) by (apply Hg, has_peer_at; eauto).
    unfold attach. destruct (_ <? _); cbn; (split; [done|]); right; by intros ? [= <-].
  - intros old s' _ _. apply safe_seq; [|intros; apply safe_poke]. apply safe_opt. intros o. apply safe_end.
Qed.

Lemma safe_detach a att s : safe (sv_detach a att) any_result s.
Proof.
  apply safe_on_peer. intros p _. unfold detach. case_bool_decide; [|auto]. cbn.
  destruct (down p); cbn; (split; [done|]); by right.
Qed.

Lemma safe_take a att s : safe (sv_take cfg a att) any_result s.
Proof. apply safe_on_peer. intros p _. destruct (take_same cfg att p) as [-> ->]. auto. Qed.

Lemma safe_expire a s : safe (expire_mark a) any_result s.
Proof. apply safe_on_peer. intros p _. unfold expire. destruct (_ || _); cbn; auto. Qed.

Lemma safe_forget a s : safe (forget a) any_result s.
Proof.
  apply safe_state. destruct (pheap s !! a) as [p|]; [|done]. case_bool_decide; [|done].
  apply safe_names; try done; [apply delete_subseteq|by left].
Qed.

Lemma safe_shutdown a s : safe (sv_shutdown a) any_result s.
Proof.
  apply (safe_bind _ _ any_result); [apply safe_on_peer; intros p _; cbn; split; [done|by right]|]. intros old s' _ _.
  apply safe_opt. intros o. apply safe_end.
Qed.

Lemma safe_wait att c s : safe (stream_wait att c) any_result s.
Proof.
  apply safe_state. destruct (atts s !! att) as [[[] [e|]|m id]|] eqn:Ea, c; try done.
  all: apply safe_seq; [|done]; apply safe_modify; intros T; (split; [by eapply typed_flags|]);
    (split; [|done]); by eapply retypes_extends, retypes_flags.
Qed.

Definition made_peer (id : string) (r : result error nat) (s : server) : Prop :=
  match r with Ok a => has s a (KPeer id) | Err _ => True end.

Lemma safe_admit id s : safe (admit_peer cfg id) (made_peer id) s.
Proof.
  apply safe_state. destruct (sv_closed s) eqn:Hd; [done|]. destruct (sv_peers s !! id) as [a|] eqn:Hp.
  - intros T. split; [done|]. split; [done|]. by apply (ty_peers _ T).
  - destruct (_ && _); [done|]. intros T.
    destruct (typed_grows _ _ _ T (grows_peer s id T Hd)) as [T' E]. split; [done|]. split; [done|].
    simpl. by rewrite lookup_insert_eq.
Qed.
End safe.

(** What the other parts return: references that are good. *)
Section parts.
Abbreviation M := (state_m server).

Definition opened_mux (r : result error nat) (s : server) : Prop :=
  match r with Ok m => has_mux s m | Err _ => True end.

Definition good_peers (l : list (nat * nat)) (s : server) : Prop := Forall (fun p => has_peer s p.1) l.
Definition good_member (o : option (nat * nat)) (s : server) : Prop :=
  match o with Some p => has_peer s p.1 | None => True end.

(** A join that recorded a member: what it has yet to attach, and whom that replaces. *)
Definition to_attach (a : nat) (r : option (nat * option (nat * nat))) (s : server) : Prop :=
  match r with
  | Some (att, prev) => (exists m id, has s att (KMember m id) /\ has s a (KPeer id)) /\ good_member prev s
  | None => True
  end.

Lemma safe_openMux owner rand s : safe (openMux owner rand) opened_mux s.
Proof.
  apply safe_state. destruct (sv_closed s) eqn:Hd; [done|]. intros T.
  set (x := {| m_id := NewID rand; m_owner := owner; m_wake := false; m_down := false; members := ∅;
               m_detached := []; m_closed := false |}).
  destruct (typed_grows _ _ _ T (grows_mux s x T Hd eq_refl)) as [T' E]. split; [done|]. split; [done|].
  simpl. exists (NewID rand), owner. simpl. by rewrite lookup_insert_eq.
Qed.

Lemma safe_unregister m s : safe (closeMux_unregister m) any_result s.
Proof.
  apply safe_state. destruct (mheap s !! m) as [x|]; [|done]. case_bool_decide; [|done].
  apply safe_names; try done; [apply delete_subseteq|by left].
Qed.

Lemma members_good m x s : typed s -> mheap s !! m = Some x -> good_peers (snd <$> map_to_list (members x)) s.
Proof.
  intros T Hm. apply Forall_fmap, Forall_forall. intros [id [a att]] Hin%elem_of_map_to_list.
  destruct (ty_member _ T m x id a att Hm Hin) as [H _]. by exists id.
Qed.

Lemma extends_good_peers l s s' : extends s s' -> good_peers l s -> good_peers l s'.
Proof. intros E H. eapply Forall_impl; [exact H|]. intros p. by apply extends_peer. Qed.

Lemma safe_mark m s : safe (closeMux_mark m) good_peers s.
Proof.
  apply safe_on_mux; [intros _; by constructor|]. intros x T Hm. cbn. split_and!; try done.
  intros s' _ E. eapply extends_good_peers; [done|]. by eapply members_good.
Qed.

Lemma safe_snapshot m s : safe (snapshot m) good_peers s.
Proof.
  apply safe_on_mux; [intros _; by constructor|]. intros x T Hm. cbn. split_and!; try done; [by eapply ty_closed|auto|].
  intros s' _ E. eapply extends_good_peers; [done|]. by eapply members_good.
Qed.

Lemma safe_remove m id s : safe (leave_remove m id) good_member s.
Proof.
  apply safe_on_mux; [done|]. intros x T Hm. cbn. split_and!; try done.
  - intros D. rewrite (ty_closed _ T m x Hm D). apply delete_empty.
  - intros i a att [_ Hi]%lookup_delete_Some. by left.
  - intros s' _ E. destruct (members x !! id) as [[a att]|] eqn:Ex; [|done]. eapply extends_peer; [done|].
    destruct (ty_member _ T m x id a att Hm Ex) as [H _]. by exists id.
Qed.

Lemma safe_detached m s : safe (takeDetached m) any_result s.
Proof. by apply safe_mux_flags. Qed.

Lemma safe_mux_wait m c s : safe (mux_wait m c) any_result s.
Proof.
  apply safe_state. destruct (mheap s !! m) as [x|]; [|done]. destruct c; [|done|].
  - destruct (m_wake x); [|done]. apply safe_seq; [by apply safe_mux_flags|done].
  - by destruct (m_down x).
Qed.

Lemma safe_mux_shutdown m s : safe (mux_shutdown m) any_result s.
Proof. by apply safe_mux_flags. Qed.

Lemma safe_close_mark s :
  safe close_mark (fun l s' => Forall (has_peer s') l.1 /\ Forall (has_mux s') l.2) s.
Proof.
  intros T. set (s' := s <| sv_closed := true |> <| sv_peers := ∅ |> <| sv_muxes := ∅ |>).
  destruct (typed_names s s' T) as [T' E]; try done; try apply map_empty_subseteq; [by right|].
  change (typed s' /\ extends s s' /\ Forall (has_peer s') (snd <$> map_to_list (sv_peers s)) /\
          Forall (has_mux s') (snd <$> map_to_list (sv_muxes s))).
  split; [done|]. split; [done|]. split; apply Forall_fmap, Forall_forall; intros [id a] H%elem_of_map_to_list; cbn.
  - eapply extends_peer; [done|]. exists id. by apply (ty_peers _ T).
  - eapply extends_mux; [done|]. exists id. by apply (ty_muxes _ T).
Qed.

Lemma safe_alloc_att a s : (forall m id, a = AttMux m id -> has_mux s m) ->
  safe (att ← alloc; modify (fun s => s <| atts := <[att := a]> (atts s) |>);; mret att)
    (fun att s' => has s' att (att_kind a)) s.
Proof.
  intros Ha T. destruct (typed_grows _ _ _ T (grows_att s a T Ha)) as [T' E]. split; [done|]. split; [done|].
  destruct a; simpl; by rewrite lookup_insert_eq.
Qed.

Lemma safe_ext {A} (m m' : M A) R s : m s = m' s -> safe m' R s -> safe m R s.
Proof. unfold safe. by intros ->. Qed.

Lemma safe_open a lastID s : safe (open_stream a lastID) (fun att s' => has s' att KStream) s.
Proof.
  apply (safe_ext _ ((att ← alloc; modify (fun s => s <| atts := <[att := AttStream false None]> (atts s) |>);; mret att)
                     ≫= fun att => sv_attach a att lastID;; mret att)); [done|].
  eapply safe_bind; [by apply safe_alloc_att|]. intros att s1 _ H. cbn in H.
  apply safe_seq; [apply safe_attach; by left|]. intros s2 E. apply safe_ret. by apply (E att KStream).
Qed.

Lemma safe_record m a s : has_mux s m -> safe (join_record m a) (to_attach a) s.
Proof.
  intros Hmx. apply safe_state. destruct (pheap s !! a) as [p|] eqn:Hp; [|done].
  apply (safe_ext _ ((att ← alloc; modify (fun s => s <| atts := <[att := AttMux m (p_id p)]> (atts s) |>);; mret att)
    ≫= fun att => on_mux None m (fun x =>
      if m_closed x then (None, x)
      else (Some (att, members x !! p_id p), x <| members := <[p_id p := (a, att)]> (members x) |>)))); [done|].
  assert (Ha : has s a (KPeer (p_id p))) by (apply has_peer_at; eauto).
  eapply safe_bind; [apply safe_alloc_att; by intros ? ? [= <- <-]|]. intros att s1 E H.
  cbn [att_kind] in H. apply E in Ha. apply safe_on_mux; [done|]. intros x T Hm. pose proof (ty_closed _ T m x Hm) as Hc.
  destruct (m_closed x) eqn:Hd; cbn; split_and!; try done; try congruence; auto.
  - intros id b o Hi. apply lookup_insert_Some in Hi as [[<- [= <- <-]]|[_ Hi]]; [by right|by left].
  - intros s' _ E'. split; [exists m, (p_id p); split; [by apply (E' att (KMember m (p_id p)))|by apply (E' a (KPeer (p_id p)))]|].
    destruct (members x !! p_id p) as [[b o]|] eqn:Ex; [|done]. cbn. eapply extends_peer; [done|].
    destruct (ty_member _ T m x _ b o Hm Ex) as [Hb _]. by exists (p_id p).
Qed.
End parts.

(** ** Any interleaving *)

Section sound.
Variable cfg : Config.

Abbreviation M := (state_m server).

(** The references a part is started with are good. *)
Definition part_ok (q : part) (s : server) : Prop :=
  match q with
  | QAdmit _ | QOpenMux _ _ | QClose => True
  | QEnqueue a _ | QOpen a _ | QTake a _ | QDetach a _ | QExpire a | QForget a | QShutdown a | QAttach a _ _ => has_peer s a
  | QWait att _ => has s att KStream
  | QUnregister m | QMark m | QRemove m _ | QDetached m | QMuxWait m _ | QMuxShutdown m => has_mux s m
  | QRecord m a => has_mux s m /\ has_peer s a
  end.

Fixpoint run_ok (qs : list part) (y : sys) : Prop :=
  match qs with [] => True | q :: qs => part_ok q (sy_sv y) /\ run_ok qs (sexec cfg q y) end.

Record typed_sys (y : sys) : Prop := {
  ts_store : typed (sy_sv y);
  ts_wait : forall a att, (a, att) ∈ sy_wait y ->
    exists m id, has (sy_sv y) att (KMember m id) /\ has (sy_sv y) a (KPeer id)
}.

Lemma typed_start : typed_sys sstart.
Proof.
  split; [|by intros a att H%not_elem_of_nil]. split; try done.
  - by intros a [].
  - by intros a [].
Qed.

(** A part that leaves the joins to come alone. *)
Lemma step_part {A} (m : M A) R tr y :
  safe m R (sy_sv y) -> typed_sys y -> typed_sys (run_part m tr y) /\ extends (sy_sv y) (sy_sv (run_part m tr y)).
Proof.
  intros Hm [T W]. destruct (Hm T) as (T' & E & _). split; [|done]. split; [done|]. intros a att Hw.
  destruct (W a att Hw) as (mx & id & H1 & H2). exists mx, id.
  split; [by apply (E att (KMember mx id))|by apply (E a (KPeer id))].
Qed.

Lemma typed_step q y : typed_sys y -> part_ok q (sy_sv y) ->
  typed_sys (sexec cfg q y) /\ extends (sy_sv y) (sy_sv (sexec cfg q y)).
Proof.
  intros T K. pose proof T as [Ts W]. destruct q; cbn [sexec part_ok] in *; unfold on_op;
    try (eapply step_part; [|done]).
  - apply safe_admit.
  - apply safe_enqueue.
  - destruct (0 <=? lastID); [|done]. eapply step_part; [apply safe_open|done].
  - apply safe_take.
  - apply safe_detach.
  - apply safe_expire.
  - apply safe_forget.
  - apply safe_wait.
  - apply safe_openMux.
  - apply safe_unregister.
  - apply safe_mark.
  - destruct K as [Km _]. destruct (safe_record m a (sy_sv y) Km Ts) as (T' & E & R). split; [|done]. split; [done|].
    cbn. intros b att [Hw|Hw]%elem_of_app.
    + destruct (W b att Hw) as (mx & id & H1 & H2). exists mx, id.
      split; [by apply (E att (KMember mx id))|by apply (E b (KPeer id))].
    + destruct (fst (join_record m a (sy_sv y))) as [[att' prev]|]; [|by apply not_elem_of_nil in Hw].
      apply list_elem_of_singleton in Hw. injection Hw as -> ->. apply R.
  - destruct (bool_decide_reflect ((a, att) ∈ sy_wait y)) as [Hw|]; [|done]. destruct (0 <=? lastID); [|done]. cbn [andb].
    set (y' := {| sy_sv := sy_sv y; sy_wait := _; sy_tr := sy_tr y |}). apply (step_part _ any_result _ y').
    + apply safe_attach. intros id Hi. destruct (W a att Hw) as (m & id' & H1 & H2).
      pose proof (ty_one _ Ts _ _ _ Hi H2) as [= <-]. right. exists m. split; [done|]. by eapply (ty_atts _ Ts).
    + split; [done|]. intros b o [_ Hb]%list_elem_of_filter. by apply W.
  - apply safe_remove.
  - apply safe_detached.
  - apply safe_mux_wait.
  - apply safe_close_mark.
  - apply safe_shutdown.
  - apply safe_mux_shutdown.
Qed.

Lemma typed_run qs : forall y, typed_sys y -> run_ok qs y ->
  typed_sys (srun cfg qs y) /\ extends (sy_sv y) (sy_sv (srun cfg qs y)).
Proof.
  induction qs as [|q qs IH]; intros y T; [done|]. intros [K Ks]. destruct (typed_step q y T K) as [T1 E1].
  destruct (IH _ T1 Ks) as [T2 E2]. split; [done|]. by etrans.
Qed.

(** ** The handlers use good references *)

(** The computation is a sequence of parts, each started with good references, and [R]
    holds of its result. *)
Definition oparts {A} (m : M A) (R : A -> server -> Prop) (y : sys) : Prop :=
  typed_sys y -> exists qs, run_ok qs y /\ sy_sv (srun cfg qs y) = snd (m (sy_sv y)) /\
    R (fst (m (sy_sv y))) (sy_sv (srun cfg qs y)).

Lemma run_ok_app qs qs' y : run_ok qs y -> run_ok qs' (srun cfg qs y) -> run_ok (qs ++ qs') y.
Proof. revert y. induction qs as [|q qs IH]; intros y; [done|]. intros [K Ks] H. split; [done|]. by apply IH. Qed.

Lemma op_bind {A B} (m : M A) (k : A -> M B) R Q y :
  oparts m R y -> (forall x y', extends (sy_sv y) (sy_sv y') -> R x (sy_sv y') -> oparts (k x) Q y') ->
  oparts (m ≫= k) Q y.
Proof.
  intros Hm Hk T. destruct (Hm T) as (qs & K & Eq & HR). destruct (typed_run qs y T K) as [T1 E1].
  destruct (Hk (fst (m (sy_sv y))) (srun cfg qs y) E1 HR T1) as (qs' & K' & Eq' & HQ).
  exists (qs ++ qs'). rewrite srun_app. split; [by apply run_ok_app|]. rewrite Eq in Eq'.
  unfold mbind, state_m_bind. rewrite Eq in HQ. destruct (m (sy_sv y)) as [x s1]. by split.
Qed.

Lemma op_seq {A B} (m : M A) (k : M B) Q y :
  oparts m any_result y -> (forall y', extends (sy_sv y) (sy_sv y') -> oparts k Q y') -> oparts (m ≫= fun _ => k) Q y.
Proof. intros Hm Hk. apply (op_bind m _ any_result); [done|]. intros; by apply Hk. Qed.

Lemma op_one {A} (m : M A) q (R : A -> server -> Prop) y :
  sy_sv (sexec cfg q y) = snd (m (sy_sv y)) -> part_ok q (sy_sv y) -> safe m R (sy_sv y) -> oparts m R y.
Proof.
  intros Hq K Hs T. exists [q]. split; [done|]. change (srun cfg [q] y) with (sexec cfg q y). rewrite Hq. split; [done|].
  by apply Hs, T.
Qed.

Lemma op_ret {A} (x : A) (R : A -> server -> Prop) y : R x (sy_sv y) -> oparts (mret x) R y.
Proof. intros H T. by exists []. Qed.

Lemma op_gets {A} (f : server -> A) (R : A -> server -> Prop) y :
  (typed (sy_sv y) -> R (f (sy_sv y)) (sy_sv y)) -> oparts (gets f) R y.
Proof. intros H T. exists []. split; [done|]. split; [done|]. by apply H, T. Qed.

Lemma op_state {A} (k : server -> M A) R y : oparts (k (sy_sv y)) R y -> oparts (get_s ≫= k) R y.
Proof. done. Qed.

Lemma op_weaken {A} (m : M A) (R R' : A -> server -> Prop) y :
  (forall x s, R x s -> R' x s) -> oparts m R y -> oparts m R' y.
Proof. intros H Hm T. destruct (Hm T) as (qs & ? & ? & ?). exists qs. auto. Qed.

Lemma op_detach a att y : has_peer (sy_sv y) a -> oparts (sv_detach a att) any_result y.
Proof. intros H. apply (op_one _ (QDetach a att)); [done|done|apply safe_detach]. Qed.

Lemma op_opt {A} (f : A -> M unit) o y :
  (forall x, o = Some x -> oparts (f x) any_result y) -> oparts (opt_do f o) any_result y.
Proof. destruct o; intros H; [by apply H|by apply op_ret]. Qed.

Lemma op_detach_all l : forall y, good_peers l (sy_sv y) -> oparts (detach_all l) any_result y.
Proof.
  induction l as [|[a att] l IH]; intros y; [by intros _; apply op_ret|]. intros [Ha Hl]%Forall_cons.
  apply op_seq; [by apply op_detach|]. intros y' E. apply IH. by eapply extends_good_peers.
Qed.

Lemma op_closeMux m y : has_mux (sy_sv y) m -> oparts (closeMux m) any_result y.
Proof.
  intros H. apply op_seq; [apply (op_one _ (QUnregister m)); [done|done|apply safe_unregister]|]. intros y1 E1.
  eapply op_bind; [apply (op_one _ (QMark m)); [done|by eapply extends_mux|apply safe_mark]|]. intros l y2 _ Hl.
  by apply op_detach_all.
Qed.

Lemma op_batch a att y : has_peer (sy_sv y) a -> oparts (stream_batch cfg a att) any_result y.
Proof.
  intros H. apply (op_bind _ _ any_result); [apply (op_one _ (QTake a att)); [done|done|apply safe_take]|].
  intros es y' _ _. by apply op_ret.
Qed.

Lemma op_take_all l : forall y, good_peers l (sy_sv y) -> oparts (take_all cfg l) any_result y.
Proof.
  induction l as [|[a att] l IH]; intros y; [by intros _; apply op_ret|]. intros [Ha Hl]%Forall_cons.
  apply (op_bind _ _ any_result); [by apply op_batch|]. intros ms y1 E1 _.
  apply (op_bind _ _ any_result); [apply IH; by eapply extends_good_peers|]. intros rest y2 _ _. by apply op_ret.
Qed.

Lemma op_snapshot m y : oparts (snapshot m) good_peers y.
Proof.
  intros T. destruct (safe_snapshot m (sy_sv y) (ts_store _ T)) as (_ & _ & H).
  assert (Es : snd (snapshot m (sy_sv y)) = sy_sv y).
  { unfold snapshot, on_mux. destruct (mheap (sy_sv y) !! m) as [x|] eqn:E; [|done]. simpl.
    rewrite insert_id by done. by destruct (sy_sv y). }
  rewrite Es in H. by exists [].
Qed.

Lemma op_mux_batch m y : has_mux (sy_sv y) m -> oparts (mux_batch cfg m) any_result y.
Proof.
  intros Hm. eapply op_bind; [apply op_snapshot|]. intros l y1 E1 Hl.
  apply (op_bind _ _ any_result); [by apply op_take_all|]. intros ms y2 E2 _.
  apply (op_bind _ _ any_result);
    [apply (op_one _ (QDetached m)); [done| |apply safe_detached]|intros ds y3 _ _; by apply op_ret].
  eapply extends_mux; [|exact Hm]. by etrans.
Qed.

Lemma op_for_all f (good : server -> nat -> Prop) l :
  (forall s s' a, extends s s' -> good s a -> good s' a) ->
  (forall a y, good (sy_sv y) a -> oparts (f a) any_result y) ->
  forall y, Forall (good (sy_sv y)) l -> oparts (for_all f l) any_result y.
Proof.
  intros Hg Hf. induction l as [|a l IH]; intros y; [by intros _; apply op_ret|]. intros [Ha Hl]%Forall_cons.
  apply op_seq; [by apply Hf|]. intros y' E. apply IH. eapply Forall_impl; [exact Hl|]. intros b. by apply Hg.
Qed.

Lemma op_Close y : oparts Close any_result y.
Proof.
  eapply op_bind; [apply (op_one _ QClose); [done|done|apply safe_close_mark]|]. intros l y1 _ [Hp Hm].
  apply op_seq.
  - apply (op_for_all _ has_peer); [by intros; eapply extends_peer| |done].
    intros a y' Ha. apply (op_one _ (QShutdown a)); [done|done|apply safe_shutdown].
  - intros y2 E. apply (op_for_all _ has_mux); [by intros; eapply extends_mux| |].
    + intros m y' H. apply (op_one _ (QMuxShutdown m)); [done|done|apply safe_mux_shutdown].
    + eapply Forall_impl; [exact Hm|]. intros m. by apply extends_mux.
Qed.

Lemma op_admit id y : oparts (admit_peer cfg id) (made_peer id) y.
Proof. apply (op_one _ (QAdmit id)); [done|done|apply safe_admit]. Qed.

Lemma op_lookupMux id y : oparts (lookupMux id) (fun r s => forall m, r = Some m -> has_mux s m) y.
Proof.
  unfold lookupMux. case_bool_decide; [by apply op_ret|]. apply op_gets. intros T m Hm. exists id.
  by apply (ty_muxes _ T).
Qed.

Lemma op_open a lastID y : has_peer (sy_sv y) a -> 0 <= lastID ->
  oparts (open_stream a lastID) (fun att s => has s att KStream) y.
Proof.
  intros H L. apply (op_one _ (QOpen a lastID)); [|done|apply safe_open].
  cbn [sexec]. by rewrite (proj2 (Z.leb_le 0 lastID)).
Qed.

(** What a request leaves to its handler's loop. *)
Definition good_served (r : served) (s : server) : Prop :=
  match r with
  | Replied _ => True
  | Streaming a att => has_peer s a /\ has s att KStream
  | MuxStreaming m => has_mux s m
  end.

Lemma oparts_ext {A} (m m' : M A) R y : (forall s, m s = m' s) -> oparts m' R y -> oparts m R y.
Proof. intros H. unfold oparts. by rewrite H. Qed.

Lemma op_stream_open id r opened y :
  oparts (stream_open cfg id r opened)
    (fun x s => match x with Ok (a, att) => has_peer s a /\ has s att KStream | Err _ => True end) y.
Proof.
  unfold stream_open. eapply op_bind; [apply op_admit|]. intros [a|e] y1 _ Ha; [|by destruct e; apply op_ret].
  destruct (last_event r) as [n|] eqn:El; [|by apply op_ret]. destruct opened; cbn [negb]; [|by apply op_ret].
  apply (oparts_ext _ (open_stream a n ≫= fun att => mret (Ok (a, att)))).
  { intros s. unfold open_stream, alloc, modify, mbind, state_m_bind. cbn -[sv_attach]. by destruct (sv_attach a _ n _). }
  eapply op_bind; [apply op_open; [by exists id|by eapply last_event_nonneg]|]. intros att y2 E H. apply op_ret.
  split; [|done]. exists id. by apply (E a (KPeer id)).
Qed.

Lemma op_serveSend id r y : oparts (serveSend cfg id r) any_result y.
Proof.
  unfold serveSend. destruct (send_check id r) as [sig|]; [|by apply op_ret].
  apply (op_bind _ _ (fun o s => forall a, o = Some a -> has_peer s a)).
  - apply op_gets. intros T a Ha. exists (To sig). by apply (ty_peers _ T).
  - intros [a|] y1 _ Ha; [|by apply op_ret]. unfold send_enqueue. destruct (marshal_signal sig) as [data|]; [|by apply op_ret].
    apply (op_bind _ _ any_result); [|intros; by apply op_ret].
    apply (op_one _ (QEnqueue a data)); [done|by apply Ha|apply safe_enqueue].
Qed.

Lemma op_mux_open owner rand opened y :
  oparts (mux_open owner rand opened) (fun r s => match r with Ok m => has_mux s m | Err _ => True end) y.
Proof.
  unfold mux_open. eapply op_bind; [apply (op_one _ (QOpenMux owner rand)); [done|done|apply safe_openMux]|].
  intros [m|e] y1 _ Hm; [|by apply op_ret]. destruct opened; cbn [negb]; [by apply op_ret|].
  apply op_seq; [by apply op_closeMux|]. intros y2 _. by apply op_ret.
Qed.

Lemma op_serveLeave id r y : oparts (serveLeave id r) any_result y.
Proof.
  eapply op_bind; [apply op_lookupMux|]. intros m y1 _ Hm. apply op_seq; [|intros; by apply op_ret].
  apply op_opt. intros x ->. unfold leave.
  eapply op_bind; [apply (op_one _ (QRemove x id)); [done|by apply Hm|apply safe_remove]|]. intros mem y2 _ Hg.
  apply op_opt. intros [a att] ->. by apply op_detach.
Qed.

(** Attaching what a join recorded. *)
Lemma op_attach a att lastID y : has_peer (sy_sv y) a -> (a, att) ∈ sy_wait y -> 0 <= lastID ->
  oparts (sv_attach a att lastID) any_result y.
Proof.
  intros Ha Hw L T. assert (S : safe (sv_attach a att lastID) any_result (sy_sv y)).
  { apply safe_attach. intros id Hi. destruct (ts_wait _ T a att Hw) as (m & id' & H1 & H2).
    pose proof (ty_one _ (ts_store _ T) _ _ _ Hi H2) as [= <-]. right. exists m. split; [done|].
    by eapply (ty_atts _ (ts_store _ T)). }
  revert T. apply (op_one _ (QAttach a att lastID)); [|done|done]. cbn [sexec].
  rewrite bool_decide_eq_true_2 by done. by rewrite (proj2 (Z.leb_le 0 lastID)).
Qed.

Lemma op_join_check m a att y : has_peer (sy_sv y) a -> oparts (join_check m a att) any_result y.
Proof.
  intros H. unfold join_check. apply op_state. destruct (match mheap _ !! m with Some x => _ | None => _ end); [|by apply op_ret].
  apply op_seq; [by apply op_detach|]. intros; by apply op_ret.
Qed.

Lemma op_previous a prev y : good_member prev (sy_sv y) ->
  exists qs, run_ok qs y /\ sy_sv (srun cfg qs y) = snd (join_previous a prev (sy_sv y)) /\
    sy_wait (srun cfg qs y) = sy_wait y.
Proof.
  intros H. unfold join_previous. destruct prev as [[b att]|]; [|by exists []]. case_bool_decide; [by exists []|].
  by exists [QDetach b att].
Qed.

Lemma op_join m a lastID y : has_mux (sy_sv y) m -> has_peer (sy_sv y) a -> 0 <= lastID ->
  oparts (join m a lastID) any_result y.
Proof.
  intros Hm Ha L T. set (y1 := sexec cfg (QRecord m a) y).
  destruct (safe_record m a (sy_sv y) Hm (ts_store _ T)) as (_ & E1 & HR).
  assert (T1 : typed_sys y1) by (by apply (typed_step (QRecord m a))).
  assert (W1 : sy_wait y1 = sy_wait y ++ match fst (join_record m a (sy_sv y)) with
                                         | Some (att, _) => [(a, att)] | None => [] end) by done.
  assert (V1 : sy_sv y1 = snd (join_record m a (sy_sv y))) by done.
  assert (Y : sexec cfg (QRecord m a) y = y1) by done. clearbody y1.
  unfold join, mbind at 1, state_m_bind at 1.
  destruct (join_record m a (sy_sv y)) as [[[att prev]|] s1]; cbn [fst snd] in *;
    [|exists [QRecord m a]; cbn [run_ok srun fold_left part_ok]; by rewrite Y].
  destruct HR as [_ Hp]. rewrite <- V1 in *. assert (Ha1 : has_peer (sy_sv y1) a) by (by eapply extends_peer).
  assert (Hw1 : (a, att) ∈ sy_wait y1) by (rewrite W1; apply elem_of_app; right; by left).
  destruct (op_previous a prev y1 Hp) as (qs2 & K2 & V2 & W2). destruct (typed_run qs2 y1 T1 K2) as [T2 E2].
  assert (P : oparts (sv_attach a att lastID;; join_check m a att) any_result (srun cfg qs2 y1)).
  { apply op_seq; [apply op_attach; [by eapply extends_peer|by rewrite W2|done]|]. intros y3 E3.
    apply op_join_check. eapply extends_peer; [|exact Ha1]. by etrans. }
  destruct (P T2) as (qs3 & K3 & V3 & _). exists (QRecord m a :: qs2 ++ qs3).
  cbn [run_ok part_ok]. rewrite Y. change (srun cfg (QRecord m a :: qs2 ++ qs3) y)
    with (srun cfg (qs2 ++ qs3) (sexec cfg (QRecord m a) y)). rewrite Y, srun_app. split; [|split; [|done]].
  - split; [done|]. by apply run_ok_app.
  - rewrite V3, V2. unfold mbind, state_m_bind. by destruct (join_previous a prev (sy_sv y1)).
Qed.

Lemma op_serveJoin id r y : oparts (serveJoin cfg id r) any_result y.
Proof.
  eapply op_bind; [apply op_lookupMux|]. intros [m|] y1 _ Hm; [|by apply op_ret].
  destruct (last_event r) as [n|] eqn:El; [|by apply op_ret].
  eapply op_bind; [apply op_admit|]. intros [a|e] y2 E2 Ha; [|by destruct e; apply op_ret].
  apply (op_bind _ _ any_result); [|intros; by apply op_ret]. apply op_join.
  - eapply extends_mux; [done|]. by apply Hm.
  - by exists id.
  - by eapply last_event_nonneg.
Qed.

Lemma op_ServeHTTP auth r opened rand y : oparts (ServeHTTP cfg auth r opened rand) good_served y.
Proof.
  apply (op_bind _ _ any_result); [by apply op_gets|]. intros [] y1 _ _; [by apply op_ret|].
  destruct (authorize auth r) as [id|]; [|by apply op_ret]. repeat case_bool_decide; cbn [negb]; try (by apply op_ret).
  - eapply op_bind; [apply op_stream_open|]. intros [[a att]|e] y2 _ Hg; by apply op_ret.
  - eapply op_bind; [apply op_mux_open|]. intros [m|e] y2 _ Hg; by apply op_ret.
  - eapply op_bind; [apply op_serveSend|]. intros x y2 _ _; by apply op_ret.
  - eapply op_bind; [apply op_serveJoin|]. intros x y2 _ _; by apply op_ret.
  - eapply op_bind; [apply op_serveLeave|]. intros x y2 _ _; by apply op_ret.
Qed.

Lemma part_ok_mono q s s' : extends s s' -> part_ok q s -> part_ok q s'.
Proof.
  intros E. destruct q; cbn [part_ok]; try done; try (by apply extends_peer); try (by apply extends_mux).
  - by apply (E att KStream).
  - intros [Hm Ha]. split; [by eapply extends_mux|by eapply extends_peer].
Qed.

(** The references of a step of a stream's loop. *)
Definition op_ok (o : serial_op) (s : server) : Prop :=
  match o with
  | SoRequest _ _ _ | SoClose => True
  | SoBatch a _ | SoEnd a _ | SoExpire a => has_peer s a
  | SoWait att _ => has s att KStream
  | SoMuxBatch m | SoMuxWait m _ | SoMuxEnd m => has_mux s m
  end.

Lemma op_serial auth o y : op_ok o (sy_sv y) -> typed_sys y ->
  exists qs, run_ok qs y /\ sy_sv (srun cfg qs y) = serial_exec cfg auth o (sy_sv y).
Proof.
  assert (P : forall A (m : M A), oparts m any_result y -> typed_sys y ->
    exists qs, run_ok qs y /\ sy_sv (srun cfg qs y) = snd (m (sy_sv y))).
  { intros A m Hm T. destruct (Hm T) as (qs & ? & ? & _). by exists qs. }
  intros K T. destruct o; cbn [op_ok serial_exec] in *.
  - destruct (op_ServeHTTP auth r opened rand y T) as (qs & ? & ? & _). by exists qs.
  - apply (P _ (stream_batch cfg a att)); [by apply op_batch|done].
  - apply (P _ (stream_wait att c)); [apply (op_one _ (QWait att c)); [done|done|apply safe_wait]|done].
  - destruct (atts (sy_sv y) !! att) as [[]|]; try (by exists []).
    apply (P _ (sv_detach a att)); [by apply op_detach|done].
  - apply (P _ (mux_batch cfg m)); [by apply op_mux_batch|done].
  - apply (P _ (mux_wait m c)); [apply (op_one _ (QMuxWait m c)); [done|done|apply safe_mux_wait]|done].
  - apply (P _ (closeMux m)); [by apply op_closeMux|done].
  - apply (P _ (sv_expire a)); [|done].
    apply (op_bind _ _ any_result); [apply (op_one _ (QExpire a)); [done|done|apply safe_expire]|].
    intros [] y1 E _; [|by apply op_ret]. apply (op_one _ (QForget a)); [done|by eapply extends_peer|apply safe_forget].
  - apply (P _ Close); [apply op_Close|done].
Qed.

(** C16. No reference of the signaling server dangles or has the wrong type, whatever its
    handlers do at the same time. In any interleaving of the parts of handlers, each started
    with good references: a registered peer, a registered stream, the attachment of a peer
    and the members of a multiplexed stream are objects of the type they are used at, under
    their own identifier; a closed stream has no members and a closed server registers
    nothing. Whatever part runs next, every reference that was good stays good, so those
    that handlers keep between their critical sections do. And the handlers meet the
    condition: a request of any kind, and with the references it left any step of a
    stream's loop, the expiry of a peer and the shutdown, are sequences of such parts. *)
Theorem references_typed (Authenticate : request -> result error string) (qs : list part) :
  run_ok qs sstart ->
  let y := srun cfg qs sstart in
  typed (sy_sv y) /\
  (forall q q', part_ok q (sy_sv y) -> part_ok q' (sy_sv y) -> part_ok q' (sy_sv (sexec cfg q y))) /\
  (forall r opened rand, exists qs', run_ok qs' y /\
     sy_sv (srun cfg qs' y) = snd (ServeHTTP cfg Authenticate r opened rand (sy_sv y)) /\
     good_served (fst (ServeHTTP cfg Authenticate r opened rand (sy_sv y))) (sy_sv (srun cfg qs' y))) /\
  (forall o, op_ok o (sy_sv y) ->
     exists qs', run_ok qs' y /\ sy_sv (srun cfg qs' y) = serial_exec cfg Authenticate o (sy_sv y)).
Proof.
  intros K y. destruct (typed_run qs sstart typed_start K) as [T _]. fold y in T. split; [apply T|]. split; [|split].
  - intros q q' Hq. destruct (typed_step q y T Hq) as [_ E]. by apply part_ok_mono.
  - intros r opened rand. by apply op_ServeHTTP.
  - intros o Ho. by apply op_serial.
Qed.
End sound.

Module TypesDemo.
(** A peer joins a stream while it expires and the stream is closed. *)
Definition run : list part :=
  [QOpenMux "alice" (replicate 16 (byte_of 0)); QAdmit "alice"; QRecord 0 1; QExpire 1; QMark 0;
   QAttach 1 2 0; QForget 1; QDetach 1 2].
End TypesDemo.

Example references_typed_witness :
  typed (sy_sv (srun MuxDemo.cfg TypesDemo.run sstart)) /\
  part_ok (QEnqueue 1 []) (sy_sv (srun MuxDemo.cfg TypesDemo.run sstart)).
Proof.
  destruct (references_typed MuxDemo.cfg (fun _ => Ok "alice"%string) TypesDemo.run) as (T & _).
  - repeat split; try (eexists; vm_compute; reflexivity); do 2 eexists; vm_compute; reflexivity.
  - split; [exact T|]. eexists. vm_compute. reflexivity.
Defined.
