(* ===== verification/SseClient.v ===== *)
(** * The signaling client (signaling/sse/client.go)

    [conn] is one peer's connection: the stream goroutine [run] with its program counter,
    and what [Send], [Receive] and [Close] see of it. The HTTP transport and the receiver
    of the sse package are outside: what they return is the input of a step. A header is
    a function from canonical names to values; [Authorize] is its effect on it. *)

From Stdlib Require Import SpecFloat.
From Stdlib Require Import String.
From S2P Require Import Prelude.
From S2P Require Import Errors.
From S2P Require Import Floats.
From S2P Require Import Stream.
From S2P Require Import Json.
From S2P Require Import Signal.
From S2P Require Import Envelope.
From S2P Require Import Config.
From S2P Require Import SsePeer.
From S2P Require Import SseServer.
From S2P Require Import SseAuth.

(** ** Configuration *)

Definition DefaultInbox : Z := 64.

Record Client := {
  URL : string; Token : string;
  Authorize : option ((string -> string) -> string -> string -> string);
  ClientBackoff : Backoff; Inbox : Z
}.

Definition inbox_size (c : Client) : Z := if 0 <? Inbox c then Inbox c else DefaultInbox.

(** [Client.backoff]. *)
Definition backoff (c : Client) : Backoff :=
  let b := ClientBackoff c in
  let initial := if Initial b <=? 0 then 500 * millisecond else Initial b in
  let maximum := if Maximum b <=? 0 then 10 * second else Maximum b in
  let maximum := if maximum <? initial then initial else maximum in
  {| Initial := initial; Maximum := maximum;
     Factor := if SFltb (Factor b) f_one then f_two else Factor b;
     Jitter := if SFltb (Jitter b) f_zero || SFltb f_one (Jitter b) then f_fifth else Jitter b |}.

(** [delayFor]; [r] is what [rand.Float64] returned. *)
Definition delayFor (b : Backoff) (attempt : Z) (r : spec_float) : Z :=
  let d := f_mul (f_of_Z (Initial b)) (pow (Factor b) (attempt - 1)) in
  let max := f_of_Z (Maximum b) in
  let d := if SFltb max d then max else d in
  let d := if SFltb f_zero (Jitter b)
           then f_mul d (f_add (f_sub f_one (Jitter b)) (f_mul (f_mul f_two (Jitter b)) r)) else d in
  int64_of d.

(** ** Requests *)

Definition h_set (k v : string) (h : string -> string) : string -> string :=
  fun x => if bool_decide (x = k) then v else h x.

Definition no_header : string -> string := fun _ => ""%string.

Definition decorate (c : Client) (local : string) (h : string -> string) : string -> string :=
  let h := h_set PeerHeader local h in
  let h := if bool_decide (Token c = "")%string then h
           else h_set Authorization ("Bearer " +:+ Token c) h in
  match Authorize c with Some f => f h local | None => h end.

(** A response: status code and body. *)
Record response := { resp_code : Z; resp_body : bytes }.

(** [postSignal] up to the request, and from the response on. [url_ok] tells whether the
    URL parses. *)
Definition post_request (url_ok : option error) (msg : Signal) (dec : (string -> string) -> string -> string)
    : result error request :=
  match marshal_signal msg with
  | Err e => Err (EWrap "sse: encode signal: %w" [e])
  | Ok body =>
    match url_ok with
    | Some e => Err (EWrap "sse: build request: %w" [e])
    | None =>
      Ok {| r_Method := "POST";
            r_Header := dec (h_set "Idempotency-Key" (ID msg) (h_set "Content-Type" "application/json" no_header));
            r_Body := body; r_BodyOk := true |}
    end
  end.

Definition post_result (r : result error response) : option error :=
  match r with
  | Err e => Some (EWrap "sse: send %s: %w" [e])
  | Ok r =>
    let code := resp_code r in
    if (code =? 202) || (code =? 200) || (code =? 204) then None
    else if code =? 404 then Some (EWrap "sse: send %s to %s: %w" [ESent ErrPeerUnavailable])
    else if (code =? 401) || (code =? 403) then Some (EWrap "sse: send %s: %s: %w" [ESent sse_ErrUnauthorized])
    else Some (EOther "sse: send %s: %s" None)
  end.

Definition postSignal (url_ok : option error) (Do : request -> result error response) (msg : Signal)
    (dec : (string -> string) -> string -> string) : option error :=
  match post_request url_ok msg dec with
  | Err e => Some e
  | Ok req => post_result (Do req)
  end.

(** The stream request of [streamOnce]. *)
Definition stream_request (c : Client) (local : string) (lastID : Z) : request := {|
  r_Method := "GET";
  r_Header := decorate c local
    (if 0 <? lastID then h_set LastEventID (string_of_list_ascii (json_uint lastID)) no_header else no_header);
  r_Body := []; r_BodyOk := true |}.

(** ** Failures of a stream *)

(** What the receiver reports: a refused request's status ([sse.StatusError]), or another error. *)
Inductive receive_error := RcvStatus (code : Z) (body : bytes) | RcvFailed (e : error).

Definition classifyStream (e : receive_error) : error :=
  match e with
  | RcvFailed e => EWrap "sse: stream: %w" [e]
  | RcvStatus code _ =>
    if (code =? 401) || (code =? 403) then EWrap "%w: %s: %w" [ESent sse_ErrPermanent; ESent sse_ErrUnauthorized]
    else if (code =? 404) || (code =? 405) then
      EWrap "%w: %s is not a pipe signaling server (%s)" [ESent sse_ErrPermanent]
    else EOther "sse: stream: %s" None
  end.

(** ** The connection *)

(** Where [run] is: about to connect, about to receive, putting a signal into the inbox,
    waiting before the next attempt, or gone. *)
Inductive run_pc :=
| RTop (attempt : Z) | RLoop (attempt : Z) | RPush (attempt : Z) (sig : Signal)
| RWait (attempt : Z) | RExit.

Record conn := {
  local : string;
  lastID : Z;
  inbox : list Signal;
  ready : bool;
  closed : bool; cancelled : bool; done : bool;
  termErr : option error;
  receiver : bool;
  pc : run_pc
}.

#[export] Instance conn_eta : Eta conn := fun c => {|
  local := local c; lastID := lastID c; inbox := inbox c; ready := ready c; closed := closed c;
  cancelled := cancelled c; done := done c; termErr := termErr c; receiver := receiver c; pc := pc c |}.

Definition new_conn (id : string) : conn := {|
  local := id; lastID := 0; inbox := []; ready := false; closed := false; cancelled := false;
  done := false; termErr := None; receiver := false; pc := RTop 0 |}.

Definition terminal (c : conn) : error :=
  match termErr c with Some e => e | None => ESent ErrClosed end.

Definition setTerminal (e : error) (c : conn) : conn :=
  match termErr c with None => c <| termErr := Some e |> | Some _ => c end.

Definition checkOpen (c : conn) : option error :=
  if closed c then Some (ESent ErrClosed) else if done c then Some (terminal c) else None.

(** *** handleEvent *)

(** An event of the stream: its name, its id and its data. *)
Record event := { ev_name : string; ev_id : string; ev_data : bytes }.

Definition eventHello : string := "hello".
Definition eventSignal : string := "signal".

(** Either an error, or the connection with the signal to queue, if any. *)
Definition handleEvent (e : event) (c : conn) : result error (option Signal * conn) :=
  if bool_decide (ev_name e = eventHello) then
    match unmarshal_value (ev_data e) with
    | Err _ => Err (EWrap "%w: malformed hello event" [ESent sse_ErrPermanent])
    | Ok v =>
      match set_string v "" with
      | Err _ => Err (EWrap "%w: malformed hello event" [ESent sse_ErrPermanent])
      | Ok peer =>
        if negb (bool_decide (peer = local c)) then
          Err (EWrap "%w: credential belongs to peer %q, not %q" [ESent sse_ErrPermanent])
        else Ok (None, c <| ready := true |>)
      end
    end
  else if bool_decide (ev_name e = eventSignal) then
    match unmarshal_signal (ev_data e) with
    | Err _ => Ok (None, c)
    | Ok sig =>
      Ok (Some sig,
          if bool_decide (ev_id e = "")%string then c
          else match ParseUint (ev_id e) with Some n => c <| lastID := n |> | None => c end)
    end
  else if bool_decide (ev_name e = eventReplaced) then
    Err (EWrap "%w: another client is signaling as %q" [ESent sse_ErrPermanent])
  else if bool_decide (ev_name e = eventShutdown) then Err (EOther "sse: server is shutting down" None)
  else Ok (None, c).

(** *** run *)

(** [conn.classify]: a cancelled connection has no error to report. *)
Definition classify (e : receive_error) (c : conn) : option error :=
  if cancelled c then None else Some (classifyStream e).

Definition exit_run (c : conn) : conn := c <| done := true |> <| pc := RExit |>.

(** What [run] does with the outcome of [streamOnce]. *)
Definition stream_ended (attempt : Z) (err : option error) (c : conn) : conn :=
  let c := c <| receiver := false |> in
  if cancelled c then exit_run c
  else match err with
       | Some e => if errIs e sse_ErrPermanent then exit_run (setTerminal e c)
                   else c <| pc := RWait (attempt + 1) |>
       | None => c <| pc := RWait (attempt + 1) |>
       end.

(** What the world answers to the step [run] waits in. *)
Inductive run_input :=
| InConnect (r : option receive_error)                     (* [CreateHttpReceiver] *)
| InReceive (wrongType : bool) (r : result receive_error event)
| InRoom | InCancelled | InTimer.

Definition run_step (cl : Client) (i : run_input) (c : conn) : option conn :=
  match pc c, i with
  | RTop a, InConnect (Some e) => Some (stream_ended a (classify e c) c)
  | RTop a, InConnect None =>
    Some (if cancelled c then stream_ended a None c else c <| receiver := true |> <| pc := RLoop a |>)
  | RLoop a, InReceive wrongType r =>
    Some (if wrongType : bool then
            stream_ended a (Some (EWrap "%w: %s did not return an event stream" [ESent sse_ErrPermanent])) c
          else match r with
          | Err e => stream_ended a (classify e c) c
          | Ok e =>
            if bool_decide (ev_name e = "")%string then c
            else match handleEvent e c with
                 | Err err => stream_ended a (Some err) c
                 | Ok (None, c) => c
                 | Ok (Some sig, c) => c <| pc := RPush a sig |>
                 end
          end)
  | RPush a sig, InRoom =>
    if zlen (inbox c) <? inbox_size cl then Some (c <| inbox := inbox c ++ [sig] |> <| pc := RLoop a |>) else None
  | RPush a _, InCancelled => if cancelled c then Some (stream_ended a (Some (ESent context_Canceled)) c) else None
  | RWait a, InTimer => Some (c <| pc := RTop a |>)
  | RWait a, InCancelled => if cancelled c then Some (exit_run c) else None
  | _, _ => None
  end.

(** ** The application's side *)

(** [Open] before the goroutine starts; then the case of its [select]. *)
Definition open_check (cl : Client) (ctx : option error) : option error :=
  if bool_decide (URL cl = "")%string then Some (EOther "sse: Client.URL is required" None) else ctx.

(** [Close]: the first call cancels everything; the wait for [done] is bounded. *)
Definition Close (c : conn) : conn := c <| closed := true |> <| cancelled := true |>.

Inductive open_case := OpenReady | OpenDone | OpenCtx (e : error).

Definition open_wait (w : open_case) (c : conn) : option (option error * conn) :=
  match w with
  | OpenReady => if ready c then Some (None, c) else None
  | OpenDone => if done c then Some (Some (terminal c), c) else None
  | OpenCtx e => Some (Some e, Close c)
  end.

(** [Send]: [err] is what the post returned, [c'] the connection by then. *)
Definition send_end (err : option error) (c' : conn) : option error :=
  match err with
  | None => None
  | Some e =>
    if errIs e ErrPeerUnavailable || errIs e sse_ErrUnauthorized then Some e
    else match checkOpen c' with Some ce => Some ce | None => Some e end
  end.

Definition Send (cl : Client) (url_ok : option error) (Do : request -> result error response) (msg : Signal)
    (c c' : conn) : option error :=
  match checkOpen c with
  | Some e => Some e
  | None => send_end (postSignal url_ok Do msg (decorate cl (local c))) c'
  end.

(** [Receive] in its two [select]s: what has arrived goes first, then any ready case. *)
Definition receive_poll (c : conn) : option (Signal * conn) :=
  match inbox c with
  | sig :: rest => Some (sig, c <| inbox := rest |>)
  | [] => None
  end.

Inductive receive_case := RcvInbox | RcvClosed | RcvDone | RcvCtx (e : error).

Definition receive_wait (w : receive_case) (c : conn) : option (result error Signal * conn) :=
  match w with
  | RcvInbox => match receive_poll c with Some (sig, c) => Some (Ok sig, c) | None => None end
  | RcvClosed => if closed c then Some (Err (ESent ErrClosed), c) else None
  | RcvDone => if done c then Some (Err (terminal c), c) else None
  | RcvCtx e => Some (Err e, c)
  end.
