(* ===== verification/SseWire.v ===== *)
(** * The events of a stream on the wire

    What the server's handlers push ([message], [SseServer]) as the events the client's
    receiver returns: [serveStream] and [serveMuxStream] give every message a name, an id
    and data, and the sse package carries them unchanged. The data of the hello event is
    [strconv.Quote] of the peer, of which [IsPrint] beyond Latin-1 is a table. *)

From Stdlib Require Import String.
From S2P Require Import Prelude.
From S2P Require Import Errors.
From S2P Require Import Utf8.
From S2P Require Import Json.
From S2P Require Import JsonCodec.
From S2P Require Import Signal.
From S2P Require Import SseServer.
From S2P Require Import SseClient.

(** ** strconv *)

Definition FormatUint (z : Z) : string := string_of_list_ascii (json_uint z).

(** [n] hexadecimal digits. *)
Fixpoint hex_digits (n : nat) (z : Z) : bytes :=
  match n with O => [] | S n => hex_digits n (z / 16) ++ [hex_digit (z mod 16)] end.

Section quote.
Variable print_table : Z -> bool.

Definition IsPrint (r : Z) : bool :=
  if r <=? 0xFF then ((0x20 <=? r) && (r <? 0x7F)) || ((0xA1 <=? r) && negb (r =? 0xAD)) else print_table r.

(** [appendEscapedRune]; [raw] are the bytes of the rune. *)
Definition quote_rune (r : Z) (raw : bytes) : bytes :=
  if (r =? 34) || (r =? 92) then backslash :: raw
  else if IsPrint r then raw
  else if r =? 7 then [backslash; chr "a"] else if r =? 8 then [backslash; chr "b"]
  else if r =? 12 then [backslash; chr "f"] else if r =? 10 then [backslash; chr "n"]
  else if r =? 13 then [backslash; chr "r"] else if r =? 9 then [backslash; chr "t"]
  else if r =? 11 then [backslash; chr "v"]
  else if (r <? 32) || (r =? 127) then backslash :: chr "x" :: hex_digits 2 r
  else if r <? 0x10000 then backslash :: chr "u" :: hex_digits 4 r
  else backslash :: chr "U" :: hex_digits 8 r.

(** [strconv.Quote]; the fuel is the length. *)
Fixpoint quote_runes (fuel : nat) (s : bytes) : bytes :=
  match s, fuel with
  | [], _ => []
  | _, O => []
  | b :: s', S f =>
    match decode_rune s with
    | None => backslash :: chr "x" :: hex_digits 2 (byte_val b) ++ quote_runes f s'
    | Some (r, n) => quote_rune r (take n s) ++ quote_runes f (drop n s)
    end
  end.

Definition Quote (s : string) : bytes :=
  let b := list_ascii_of_string s in quote :: quote_runes (List.length b) b ++ [quote].

(** ** Events *)

Definition eventMux : string := "mux".
Definition eventDetached : string := "detached".

(** [muxHello] and [muxDetached] in JSON. *)
Definition mux_hello (stream : string) : bytes := json_object [("stream"%string, json_string (list_ascii_of_string stream))].
Definition mux_detached (peer reason : string) : bytes :=
  json_object [("peer"%string, json_string (list_ascii_of_string peer));
               ("reason"%string, json_string (list_ascii_of_string reason))].

Definition render (m : message) : event :=
  match m with
  | MHello peer => {| ev_name := eventHello; ev_id := ""; ev_data := Quote peer |}
  | MSignal n data => {| ev_name := eventSignal; ev_id := FormatUint n; ev_data := data |}
  | MPing => {| ev_name := ""; ev_id := ""; ev_data := [] |}
  | MReason reason => {| ev_name := reason; ev_id := ""; ev_data := [] |}
  | MMux stream => {| ev_name := eventMux; ev_id := ""; ev_data := mux_hello stream |}
  | MDetached peer reason => {| ev_name := eventDetached; ev_id := ""; ev_data := mux_detached peer reason |}
  end.
End quote.

(** ** Lemmas *)

Lemma FormatUint_nonempty z : 0 <= z < 2 ^ 64 -> FormatUint z <> ""%string.
Proof.
  intros Hz. destruct (decimal_ok 20 z) as (_ & _ & b & r & Hbr & _); [lia|lia|].
  unfold FormatUint, json_uint. by rewrite Hbr.
Qed.

Lemma ParseUint_Format z : 0 <= z < 2 ^ 64 -> ParseUint (FormatUint z) = Some z.
Proof.
  intros Hz. destruct (decimal_ok 20 z) as (Hd & Hv & b & r & Hbr & _); [lia|lia|].
  unfold ParseUint, FormatUint, json_uint. rewrite list_ascii_of_string_of_list_ascii, Hbr, <- Hbr, Hd, Hv.
  rewrite (proj2 (Z.ltb_lt _ _)); [done|lia].
Qed.

(** The resume point a client asks for is the one the server reads, whatever else
    [Authorize] sets. *)
Lemma stream_request_last cl id n :
  0 <= n < 2 ^ 64 ->
  (forall f h p, Authorize cl = Some f -> f h p LastEventID = h LastEventID) ->
  last_event (stream_request cl id n) = Some n.
Proof.
  intros Hn Ha.
  assert (Hd : forall h, decorate cl id h LastEventID = h LastEventID).
  { intros h. unfold decorate. destruct (Authorize cl) as [f|] eqn:Ef; [rewrite (Ha f) by done|];
      destruct (bool_decide (Token cl = "")%string); reflexivity. }
  unfold last_event. cbn [r_Header stream_request]. rewrite Hd.
  destruct (Z.ltb_spec 0 n); [|rewrite bool_decide_eq_true_2 by done; f_equal; lia].
  unfold h_set. rewrite (bool_decide_eq_true_2 (LastEventID = LastEventID)) by done. fold (FormatUint n).
  rewrite bool_decide_eq_false_2 by (by apply FormatUint_nonempty). by apply ParseUint_Format.
Qed.
