(* ===== verification/SseLink.v ===== *)
(** * A client on the server: signaling end to end

    [link] joins one peer of the server ([SsePeer]) to one connection of its client
    ([SseClient]) by what a stream carries. [lexec] runs one step of either side or of
    the network between them: streams break at any point, in the middle of a batch too,
    the server notices later or never, the client reconnects and resumes. [link_fifo]
    says what the application receives. *)

From Stdlib Require Import String.
From S2P Require Import Prelude.
From S2P Require Import Errors.
From S2P Require Import Json.
From S2P Require Import Signal.
From S2P Require Import Envelope.
From S2P Require Import SsePeer.
From S2P Require Import SseServer.
From S2P Require Import SseClient.
From S2P Require Import SseWire.

Record link := {
  k_peer : peer;                   (* on the server *)
  k_conn : conn;                   (* at the client *)
  k_wire : list message;           (* pushed on the client's stream, not yet received *)
  k_cur : option nat;              (* the attachment of that stream *)
  k_next : nat;                    (* the next attachment *)
  k_posted : list Signal;          (* what the server accepted for the peer *)
  k_got : list Signal;             (* what the application received *)
  k_resumed : list (Z * Z);        (* at every connect: accepted so far, last seen *)
  k_tr : list pev                  (* the history of the peer *)
}.

#[export] Instance link_eta : Eta link := fun k => {|
  k_peer := k_peer k; k_conn := k_conn k; k_wire := k_wire k; k_cur := k_cur k; k_next := k_next k;
  k_posted := k_posted k; k_got := k_got k; k_resumed := k_resumed k; k_tr := k_tr k |}.

Definition new_link (id : string) : link := {|
  k_peer := newPeer id; k_conn := new_conn id; k_wire := []; k_cur := None; k_next := 0;
  k_posted := []; k_got := []; k_resumed := []; k_tr := [] |}.

(** [LPost]: the server queues the encoding of a signal someone posted. [LOpen], [LRefused]: the client's next attempt to
    connect. [LTake att], [LPing att], [LDetach att]: the handler of an attachment pushes a
    batch or a ping, or returns. [LBreak n]: the stream is cut, [n] pushed messages still
    arrive. [LFail e]: the receiver reports [e]. [LDeliver]: it returns the next message.
    [LRoom], [LTimer], [LCancelled]: other steps of the client's goroutine. [LRead]: the
    application receives. [LClose]: it closes the connection. *)
Inductive lop :=
| LPost (data : bytes) | LOpen | LRefused (e : receive_error) | LTake (att : nat) | LPing (att : nat)
| LDetach (att : nat) | LBreak (n : nat) | LFail (e : receive_error) | LDeliver | LRoom | LTimer
| LCancelled | LRead | LClose.

Section link.
Variable cfg : Config.
Variable cl : Client.
Variable print_table : Z -> bool.

(** A step of the peer. *)
Definition l_peer (o : pop) (k : link) : link :=
  k <| k_peer := snd (pexec cfg o (k_peer k)) |> <| k_tr := k_tr k ++ fst (pexec cfg o (k_peer k)) |>.

(** A step of the client's goroutine; when it leaves the stream the rest is lost. *)
Definition on_stream (c : conn) : bool := match pc c with RLoop _ | RPush _ _ => true | _ => false end.

Definition l_client (i : run_input) (k : link) : link :=
  match run_step cl i (k_conn k) with
  | None => k
  | Some c => if on_stream c then k <| k_conn := c |> else k <| k_conn := c |> <| k_cur := None |> <| k_wire := [] |>
  end.

Definition l_push (att : nat) (ms : list message) (k : link) : link :=
  if bool_decide (k_cur k = Some att) then k <| k_wire := k_wire k ++ ms |> else k.

Definition lexec (o : lop) (k : link) : link :=
  match o with
  | LPost data =>
    match unmarshal_signal data with
    | Ok sig =>
      let k' := l_peer (OEnqueue data) k in
      if fst (fst (enqueue cfg data (k_peer k))) then k' <| k_posted := k_posted k ++ [sig] |> else k'
    | Err _ => k
    end
  | LOpen =>
    match pc (k_conn k), last_event (stream_request cl (local (k_conn k)) (lastID (k_conn k))) with
    | RTop _, Some n =>
      if cancelled (k_conn k) then l_client (InConnect None) k
      else
        let att := k_next k in
        let k' := l_client (InConnect None) (l_peer (OAttach att n) k) in
        k' <| k_next := S att |> <| k_cur := Some att |> <| k_wire := [MHello (p_id (k_peer k))] |>
           <| k_resumed := (zlen (k_posted k), lastID (k_conn k)) :: k_resumed k |>
    | _, _ => k
    end
  | LRefused e => match pc (k_conn k) with RTop _ => l_client (InConnect (Some e)) k | _ => k end
  | LTake att =>
    l_push att ((fun e => MSignal (e_id e) (e_data e)) <$> fst (takeUnsent cfg att (k_peer k))) (l_peer (OTake att) k)
  | LPing att => l_push att [MPing] k
  | LDetach att => l_peer (ODetach att) k
  | LBreak n => k <| k_cur := None |> <| k_wire := take n (k_wire k) |>
  | LFail e => l_client (InReceive false (Err e)) k
  | LDeliver =>
    match k_wire k, pc (k_conn k) with
    | m :: w, RLoop _ => l_client (InReceive false (Ok (render print_table m))) (k <| k_wire := w |>)
    | _, _ => k
    end
  | LRoom => l_client InRoom k
  | LTimer => l_client InTimer k
  | LCancelled => l_client InCancelled k
  | LRead =>
    match receive_poll (k_conn k) with
    | Some (sig, c) => k <| k_conn := c |> <| k_got := k_got k ++ [sig] |>
    | None => k
    end
  | LClose => k <| k_conn := Close (k_conn k) |>
  end.

Definition lrun (os : list lop) (k : link) : link := fold_left (fun k o => lexec o k) os k.

(** ** What the application has, and the conditions of the theorem *)

(** The signal the goroutine holds while the inbox is full. *)
Definition pending (c : conn) : list Signal := match pc c with RPush _ sig => [sig] | _ => [] end.

(** Received, or on its way through the client. *)
Definition received (k : link) : list Signal := k_got k ++ inbox (k_conn k) ++ pending (k_conn k).

(** At every connect the client had missed no more than the server keeps. *)
Definition covered (k : link) : Prop :=
  Forall (fun '(total, last) => total - ReplayDepth cfg <= last) (k_resumed k).

(** The client's stream is the current one, and it carries nothing more. *)
Definition caught_up (k : link) : Prop :=
  k_cur k <> None /\ stream (k_peer k) = k_cur k /\ seq (k_peer k) = sentUpTo (k_peer k) /\
  forall n d, MSignal n d ∉ k_wire k.
End link.

(** ** The client's steps *)

Lemma stream_ended_frame a err c :
  lastID (stream_ended a err c) = lastID c /\ cancelled (stream_ended a err c) = cancelled c /\
  inbox (stream_ended a err c) = inbox c /\ pending (stream_ended a err c) = [] /\
  on_stream (stream_ended a err c) = false.
Proof.
  unfold stream_ended, exit_run, setTerminal. simpl.
  destruct (cancelled c) eqn:Hc; [repeat split; done|].
  destruct err as [e|]; [|repeat split; done]. destruct (errIs e sse_ErrPermanent); [|repeat split; done].
  simpl. by destruct (termErr c).
Qed.

(** What a step keeps; a cancelled goroutine may drop the signal it holds. *)
Definition quiet (c c' : conn) : Prop :=
  lastID c' = lastID c /\ cancelled c' = cancelled c /\
  inbox c' ++ pending c' `sublist_of` inbox c ++ pending c /\
  (cancelled c = false -> inbox c' ++ pending c' = inbox c ++ pending c).

Lemma quiet_same c c' :
  lastID c' = lastID c -> cancelled c' = cancelled c -> inbox c' ++ pending c' = inbox c ++ pending c -> quiet c c'.
Proof. intros H1 H2 H3. split; [done|]. split; [done|]. by rewrite H3. Qed.

Lemma quiet_ended a err c : pending c = [] -> quiet c (stream_ended a err c).
Proof.
  intros Hp. destruct (stream_ended_frame a err c) as (? & ? & Hi & Hq & _).
  apply quiet_same; [done|done|]. by rewrite Hi, Hq, Hp.
Qed.

Lemma run_step_quiet cl i c c' :
  run_step cl i c = Some c' -> (forall b e, i <> InReceive b (Ok e)) -> quiet c c'.
Proof.
  unfold run_step. intros Hs Hn. destruct (pc c) as [a|a|a sig|a|] eqn:Hpc; destruct i as [[e|]|b [e|e]| | |]; try done.
  - injection Hs as <-. apply quiet_ended. unfold pending. by rewrite Hpc.
  - injection Hs as <-. destruct (cancelled c) eqn:Hc.
    + apply quiet_ended. unfold pending. by rewrite Hpc.
    + apply quiet_same; [done|done|]. unfold pending. simpl. by rewrite Hpc.
  - by destruct (Hn b e).
  - injection Hs as <-. destruct b; apply quiet_ended; unfold pending; by rewrite Hpc.
  - destruct (zlen (inbox c) <? inbox_size cl); [|done]. injection Hs as <-.
    apply quiet_same; [done|done|]. unfold pending. simpl. by rewrite Hpc, app_nil_r.
  - destruct (cancelled c) eqn:Hc; [|done]. injection Hs as <-.
    destruct (stream_ended_frame a (Some (ESent context_Canceled)) c) as (H1 & H2 & H3 & H4 & _).
    split; [done|]. split; [done|]. rewrite H3, H4, app_nil_r. split; [by apply sublist_inserts_r|congruence].
  - destruct (cancelled c) eqn:Hc; [|done]. injection Hs as <-. apply quiet_same; [done|by simpl|].
    unfold pending. simpl. by rewrite Hpc.
  - injection Hs as <-. apply quiet_same; [done|done|]. unfold pending. simpl. by rewrite Hpc.
Qed.

(** An event without a signal changes neither the inbox nor the resume point. *)
Lemma handle_other print m c x c' :
  (forall n d, m <> MSignal n d) -> handleEvent (render print m) c = Ok (x, c') ->
  x = None /\ lastID c' = lastID c /\ cancelled c' = cancelled c /\ inbox c' = inbox c /\ pc c' = pc c.
Proof.
  intros Hm. unfold handleEvent. case_bool_decide as Hh.
  { destruct (unmarshal_value _) as [v|]; [|done]. destruct (set_string v "") as [peer|]; [|done].
    destruct (negb _); [done|]. by intros [= <- <-]. }
  case_bool_decide as Hs.
  { destruct m as [peer|n d| |reason|st|peer reason]; try discriminate Hs; [by destruct (Hm n d)|].
    by intros [= <- <-]. }
  case_bool_decide; [done|]. case_bool_decide; [done|]. by intros [= <- <-].
Qed.

Lemma deliver_other print cl a m c :
  pc c = RLoop a -> (forall n d, m <> MSignal n d) ->
  exists c', run_step cl (InReceive false (Ok (render print m))) c = Some c' /\ quiet c c'.
Proof.
  intros Hpc Hm. unfold run_step. rewrite Hpc. eexists. split; [reflexivity|].
  assert (Hp : pending c = []) by (unfold pending; by rewrite Hpc).
  case_bool_decide; [by apply quiet_same|].
  destruct (handleEvent (render print m) c) as [[x c1]|e] eqn:E; [|by apply quiet_ended].
  destruct (handle_other _ _ _ _ _ Hm E) as (-> & H1 & H2 & H3 & H4).
  apply quiet_same; [done|done|]. unfold pending. by rewrite H3, H4, Hpc.
Qed.

Lemma deliver_signal print cl a n d sig c :
  pc c = RLoop a -> 0 <= n < 2 ^ 64 -> unmarshal_signal d = Ok sig ->
  run_step cl (InReceive false (Ok (render print (MSignal n d)))) c =
    Some (c <| lastID := n |> <| pc := RPush a sig |>).
Proof.
  intros Hpc Hn Hd. unfold run_step. rewrite Hpc. f_equal. cbn [render ev_name].
  rewrite bool_decide_eq_false_2 by done. unfold handleEvent. cbn [ev_name ev_id ev_data].
  rewrite bool_decide_eq_false_2, bool_decide_eq_true_2, Hd by done.
  rewrite bool_decide_eq_false_2 by (by apply FormatUint_nonempty). by rewrite ParseUint_Format.
Qed.

(** ** The invariant *)

Definition signals (w : list message) : list entry :=
  omap (fun m => match m with MSignal n d => Some {| e_id := n; e_data := d |} | _ => None end) w.

Section inv.
Variable cfg : Config.
Variable cl : Client.
Variable print_table : Z -> bool.
Hypothesis HQ : 0 < QueueSize cfg < 2 ^ 63.
Hypothesis HR : 0 <= ReplayDepth cfg.
Hypothesis HA : forall f h p, Authorize cl = Some f -> f h p LastEventID = h LastEventID.

(** The stream carries [m] entries after the [n]th. *)
Record carries (k : link) (n m : nat) : Prop := {
  ca_wire : signals (k_wire k) = slice n m (accepted (k_tr k));
  ca_last : lastID (k_conn k) <= Z.of_nat n;
  ca_sent : Z.of_nat (n + m) <= sentUpTo (k_peer k);
  ca_cur : forall att, k_cur k = Some att -> stream (k_peer k) = Some att -> Z.of_nat (n + m) = sentUpTo (k_peer k);
  ca_next : covered cfg k -> cancelled (k_conn k) = false -> Z.of_nat n = lastID (k_conn k)
}.

Record linv (k : link) : Prop := {
  li_peer : pinv cfg (k_peer k) (k_tr k);
  li_up : down (k_peer k) = false;
  li_fresh : forall a, a ∈ attached (k_tr k) -> (a < k_next k)%nat;
  li_posted : Forall2 (fun d sig => unmarshal_signal d = Ok sig) (accepted (k_tr k)) (k_posted k);
  li_nonneg : 0 <= lastID (k_conn k);
  li_carries : exists n m, carries k n m;
  li_cur : k_cur k <> None -> on_stream (k_conn k) = true;
  li_sub : received k `sublist_of` take (Z.to_nat (lastID (k_conn k))) (k_posted k);
  li_all : covered cfg k -> cancelled (k_conn k) = false ->
    received k = take (Z.to_nat (lastID (k_conn k))) (k_posted k)
}.

Lemma linv_new id : linv (new_link id).
Proof.
  split; try done.
  - by apply pinv_new.
  - intros a Ha. by apply not_elem_of_nil in Ha.
  - exists 0%nat, 0%nat. split; try done.
Qed.

Lemma li_len k : linv k -> zlen (accepted (k_tr k)) = zlen (k_posted k).
Proof. intros I. unfold zlen. f_equal. apply (Forall2_length _ _ _ (li_posted _ I)). Qed.

(** The client moved and the wire is unchanged, or lost with the stream. *)
Lemma linv_quiet k c :
  linv k -> quiet (k_conn k) c ->
  linv (if on_stream c then k <| k_conn := c |> else k <| k_conn := c |> <| k_cur := None |> <| k_wire := [] |>).
Proof.
  intros [I1 I2 I3 I4 I5 (n & m & [C1 C2 C3 C4 C5]) I6 I7 I8] (Q1 & Q2 & Q3 & Q4).
  assert (Hsub : k_got k ++ inbox c ++ pending c `sublist_of` take (Z.to_nat (lastID c)) (k_posted k)).
  { rewrite Q1. etrans; [|exact I7]. unfold received. by apply sublist_app. }
  assert (Hall : covered cfg k -> cancelled c = false ->
    k_got k ++ inbox c ++ pending c = take (Z.to_nat (lastID c)) (k_posted k)).
  { intros Hc Hn. rewrite Q2 in Hn. rewrite Q1, <- (I8 Hc Hn), (Q4 Hn). done. }
  destruct (on_stream c) eqn:Hs; split; simpl; rewrite ?Q1; try done.
  - exists n, m. split; simpl; rewrite ?Q1, ?Q2; try done.
  - by rewrite Q1 in Hsub.
  - by rewrite Q1 in Hall.
  - exists (Z.to_nat (lastID c)), 0%nat. rewrite Q1. split; simpl; rewrite ?Q1; try done; try lia.
  - by rewrite Q1 in Hsub.
  - by rewrite Q1 in Hall.
Qed.

Lemma linv_client i k :
  linv k -> (forall b e, i <> InReceive b (Ok e)) -> linv (l_client cl i k).
Proof.
  intros I Hi. unfold l_client. destruct (run_step cl i (k_conn k)) as [c|] eqn:E; [|done].
  apply linv_quiet; [done|]. by eapply run_step_quiet.
Qed.

(** A step of the peer that accepts nothing: the client's side is untouched. *)
Lemma linv_peer o k :
  linv k -> zlen (k_posted k) < 2 ^ 64 -> accepted (fst (pexec cfg o (k_peer k))) = [] ->
  attached (fst (pexec cfg o (k_peer k))) = [] ->
  down (snd (pexec cfg o (k_peer k))) = false ->
  (exists n m, carries (l_peer cfg o k) n m) -> linv (l_peer cfg o k).
Proof.
  intros I Hn Ha Ht Hd Hc. pose proof I as [I1 I2 I3 I4 I5 _ I6 I7 I8].
  split; simpl; try done.
  - apply pexec_inv; [done|done|done| |].
    + rewrite paccepted_app, Ha, app_nil_r, li_len; done.
    + intros att l ->. by destruct (attach att l (k_peer k)).
  - intros a. rewrite attached_app, Ht, app_nil_r. apply I3.
  - by rewrite paccepted_app, Ha, app_nil_r.
Qed.

Lemma accepted_took k att es : accepted (k_tr k ++ [PTook att es]) = accepted (k_tr k).
Proof. rewrite paccepted_app. apply app_nil_r. Qed.

Lemma signals_app w w' : signals (w ++ w') = signals w ++ signals w'.
Proof. apply omap_app. Qed.

Lemma signals_batch es : signals ((fun e => MSignal (e_id e) (e_data e)) <$> es) = es.
Proof. induction es as [|[n d] es IH]; [done|]. unfold signals in *. cbn in *. by rewrite IH. Qed.

(** The handler of an attachment takes a batch and pushes it. *)
Lemma linv_take att k : linv k -> zlen (k_posted k) < 2 ^ 64 -> linv (lexec cfg cl print_table (LTake att) k).
Proof.
  intros I Hn. pose proof (li_len _ I) as Hlen. pose proof I as [I1 I2 I3 I4 I5 (n & m & [C1 C2 C3 C4 C5]) I6 I7 I8].
  cbn [lexec]. set (es := fst (takeUnsent cfg att (k_peer k))).
  assert (Hp : pexec cfg (OTake att) (k_peer k) = ([PTook att es], snd (takeUnsent cfg att (k_peer k)))).
  { cbn [pexec]. unfold es. by destruct (takeUnsent cfg att (k_peer k)). }
  assert (Hgo : forall ms, (exists n m, carries (l_push att ms (l_peer cfg (OTake att) k)) n m) ->
    down (snd (takeUnsent cfg att (k_peer k))) = false -> linv (l_push att ms (l_peer cfg (OTake att) k))).
  { intros ms Hc Hd. assert (pinv cfg (k_peer (l_peer cfg (OTake att) k)) (k_tr (l_peer cfg (OTake att) k))) as Hi.
    { apply pinv_take; done. }
    unfold l_push, l_peer in *. cbn [k_cur] in *. rewrite Hp in *. cbn [fst snd] in *.
    assert (Hat : attached (k_tr k ++ [PTook att es]) = attached (k_tr k)) by (rewrite attached_app; apply app_nil_r).
    case_bool_decide; split; simpl in *; rewrite ?accepted_took, ?Hat; done. }
  destruct (decide (stream (k_peer k) = Some att)) as [Hst|Hst].
  - pose proof (take_out cfg _ _ _ I1 Hst) as Ho. rewrite I2 in Ho. fold es in Ho.
    destruct (take_after cfg HR _ _ _ I1 Hst I2) as (A1 & A2 & A3 & A4 & _).
    pose proof (pi_seq _ _ _ I1) as Hseq. pose proof (pi_sent _ _ _ I1) as Hsent.
    apply Hgo; [|done]. unfold l_push, l_peer. rewrite Hp. cbn [k_cur fst snd].
    case_bool_decide as Hcur.
    + specialize (C4 att Hcur Hst). exists n, (List.length (accepted (k_tr k)) - n)%nat.
      pose proof (slice_rest n m (accepted (k_tr k))) as Hr. unfold zlen in *.
      split; simpl; rewrite ?accepted_took, ?A1; try lia; try done.
      rewrite signals_app, signals_batch, C1, Ho, <- Hr by lia. f_equal. f_equal. lia.
    + exists n, m. split; simpl; rewrite ?accepted_took, ?A1, ?A3; try done; [unfold zlen in *; lia|].
      intros a Ha Hb. simpl in Hcur. congruence.
  - pose proof (take_not_current cfg att _ Hst) as Hnc.
    assert (es = []) as He by (unfold es; by rewrite Hnc). rewrite Hnc in *. rewrite He in *.
    apply Hgo; [|done]. unfold l_push, l_peer. rewrite Hp. cbn [k_cur fst snd]. exists n, m.
    case_bool_decide; split; simpl; rewrite ?accepted_took, ?app_nil_r; done.
Qed.

Lemma linv_post data k :
  linv k -> zlen (k_posted (lexec cfg cl print_table (LPost data) k)) < 2 ^ 64 ->
  linv (lexec cfg cl print_table (LPost data) k).
Proof.
  intros I. pose proof (li_len _ I) as Hlen. pose proof I as [I1 I2 I3 I4 I5 (n & m & [C1 C2 C3 C4 C5]) I6 I7 I8].
  cbn [lexec]. destruct (unmarshal_signal data) as [sig|] eqn:Hu; [|done].
  pose proof (pexec_inv cfg HQ HR (OEnqueue data) (k_peer k) (k_tr k) I1) as Hi.
  assert (Hsame : forall st p, enqueue cfg data (k_peer k) = (false, st, p) -> p = k_peer k).
  { unfold enqueue. intros st p. rewrite I2. destruct (_ <=? _); [by intros [= <- <-]|done]. }
  assert (Hlog : forall st p, enqueue cfg data (k_peer k) = (true, st, p) ->
    sentUpTo p = sentUpTo (k_peer k) /\ stream p = stream (k_peer k) /\ down p = false).
  { unfold enqueue. intros st p. rewrite I2. destruct (_ <=? _); [done|by intros [= <- <-]]. }
  unfold l_peer. cbn [pexec] in *. destruct (enqueue cfg data (k_peer k)) as [[[] st] p] eqn:E; cbn [fst snd] in *.
  - destruct (Hlog _ _ eq_refl) as (Hs & Hst & Hd). simpl. rewrite zlen_app. change (zlen [sig]) with 1. intros Hn.
    assert (Hacc : accepted (k_tr k ++ [PAccepted data]) = accepted (k_tr k) ++ [data]) by apply paccepted_app.
    pose proof (pi_seq _ _ _ I1) as Hq. pose proof (pi_sent _ _ _ I1) as Hq'. unfold zlen in *.
    assert (Hle : (Z.to_nat (lastID (k_conn k)) <= List.length (k_posted k))%nat) by lia.
    split; simpl; rewrite ?Hacc, ?(take_app_le (k_posted k)) by done; try done.
    + apply Hi; [rewrite Hacc, length_app; simpl; lia|by intros].
    + intros a. rewrite attached_app. cbn. rewrite app_nil_r. apply I3.
    + apply Forall2_app; [done|]. by constructor.
    + exists n, m. split; simpl; rewrite ?Hacc, ?Hs, ?Hst, ?C1; try done. rewrite slice_app; [done|lia].
  - rewrite (Hsame _ _ eq_refl) in *. simpl. rewrite app_nil_r. intros _. by destruct k.
Qed.

Lemma linv_detach att k :
  linv k -> zlen (k_posted k) < 2 ^ 64 -> linv (lexec cfg cl print_table (LDetach att) k).
Proof.
  intros I Hn. pose proof I as [I1 I2 _ _ _ (n & m & [C1 C2 C3 C4 C5]) _ _ _]. cbn [lexec].
  assert (Hs : sentUpTo (detach att (k_peer k)) = sentUpTo (k_peer k) /\ down (detach att (k_peer k)) = false /\
    (stream (detach att (k_peer k)) = stream (k_peer k) \/ stream (detach att (k_peer k)) = None)).
  { unfold detach. case_bool_decide; [|auto]. simpl. rewrite I2. simpl. auto. }
  destruct Hs as (Hs & Hd & Hst). apply linv_peer; try done. exists n, m.
  unfold l_peer. cbn [pexec fst snd]. rewrite app_nil_r.
  split; simpl; rewrite ?Hs; try done. intros a Ha Hb. apply (C4 a); destruct Hst; congruence.
Qed.

Lemma l_connect a k :
  pc (k_conn k) = RTop a -> cancelled (k_conn k) = false ->
  l_client cl (InConnect None) k = k <| k_conn := k_conn k <| receiver := true |> <| pc := RLoop a |> |>.
Proof. intros Hpc Hc. unfold l_client, run_step. by rewrite Hpc, Hc. Qed.

(** A connect: the new stream resumes after what the client has seen. *)
Lemma linv_open k :
  linv k -> zlen (k_posted k) < 2 ^ 64 -> linv (lexec cfg cl print_table LOpen k).
Proof.
  intros I Hn. pose proof (li_len _ I) as Hlen. cbn [lexec].
  destruct (pc (k_conn k)) as [a| | | |] eqn:Hpc; try done.
  destruct (last_event _) as [l|] eqn:Hl; [|done].
  destruct (cancelled (k_conn k)) eqn:Hc; [by apply linv_client|].
  pose proof I as [I1 I2 I3 I4 I5 (n & m & [C1 C2 C3 C4 C5]) I6 I7 I8].
  pose proof (pi_seq _ _ _ I1) as Hq. pose proof (pi_sent _ _ _ I1) as Hq'.
  rewrite stream_request_last in Hl by (done || lia). injection Hl as <-.
  pose proof (attach_sent cfg (lastID (k_conn k)) (k_peer k) (k_tr k) (k_next k) I1 ltac:(lia) I5)
    as (A1 & A2 & A3 & A4 & A5 & _ & A6 & A7).
  pose proof (pi_replay _ _ _ I1 I2) as Hrep.
  assert (Hf : k_next k ∉ attached (k_tr k)) by (intros Hin; specialize (I3 _ Hin); lia).
  pose proof (pexec_inv cfg HQ HR (OAttach (k_next k) (lastID (k_conn k))) (k_peer k) (k_tr k) I1) as Hi.
  cbv zeta. rewrite (l_connect a) by done. unfold l_peer. cbn [pexec fst snd] in *.
  set (p' := snd (attach (k_next k) (lastID (k_conn k)) (k_peer k))) in *.
  assert (Hacc : accepted (k_tr k ++ [PAttached (k_next k) (sentUpTo p')]) = accepted (k_tr k))
    by (rewrite paccepted_app; apply app_nil_r).
  assert (Hrec : forall k', k_got k' = k_got k -> inbox (k_conn k') = inbox (k_conn k) -> pending (k_conn k') = [] ->
    received k' = received k).
  { intros k' E1 E2 E3. unfold received. rewrite E1, E2, E3. unfold pending. by rewrite Hpc. }
  split; simpl; rewrite ?Hacc; try done.
  - apply Hi; [rewrite Hacc; lia|]. intros ? ? [= <- <-]. done.
  - by rewrite A3.
  - intros b. rewrite attached_app, elem_of_app. cbn. intros [Hb|Hb%list_elem_of_singleton]; [specialize (I3 _ Hb)|]; lia.
  - exists (Z.to_nat (sentUpTo p')), 0%nat. specialize (A6 I2). split; simpl; rewrite ?Hacc; try done.
    + rewrite A7. destruct (Z.ltb_spec (lastID (k_conn k)) (sentUpTo (k_peer k))); lia.
    + lia.
    + intros; lia.
    + intros Hcov _. unfold covered in Hcov. simpl in Hcov. apply Forall_cons in Hcov as [Hcov _].
      rewrite A7. destruct (Z.ltb_spec (lastID (k_conn k)) (sentUpTo (k_peer k))); lia.
  - rewrite Hrec by done. done.
  - intros Hcov _. unfold covered in Hcov. simpl in Hcov. apply Forall_cons in Hcov as [_ Hcov].
    rewrite Hrec by done. by apply I8.
Qed.

Lemma slice_cons e l n m acc :
  e :: l = slice n m acc ->
  exists m' d, m = S m' /\ acc !! n = Some d /\ e = {| e_id := Z.of_nat (S n); e_data := d |} /\ l = slice (S n) m' acc.
Proof.
  unfold slice. destruct m as [|m']; [done|]. intros Hl.
  destruct (number acc !! n) as [x|] eqn:E.
  - rewrite (drop_S _ _ _ E) in Hl. injection Hl as -> ->. unfold number in E. rewrite list_lookup_imap in E.
    apply fmap_Some in E as (d & Hd & ->). by exists m', d.
  - apply lookup_ge_None in E. by rewrite drop_ge in Hl.
Qed.

(** The next message reaches the client. *)
Lemma linv_deliver k :
  linv k -> zlen (k_posted k) < 2 ^ 64 -> linv (lexec cfg cl print_table LDeliver k).
Proof.
  intros I Hn. pose proof (li_len _ I) as Hlen. cbn [lexec].
  destruct (k_wire k) as [|msg w] eqn:Hw; [done|]. destruct (pc (k_conn k)) as [|a| | |] eqn:Hpc; try done.
  pose proof I as [I1 I2 I3 I4 I5 (n & m & [C1 C2 C3 C4 C5]) I6 I7 I8]. rewrite Hw in C1.
  assert ((exists x d, msg = MSignal x d) \/ forall x d, msg <> MSignal x d) as [(x & d & ->)|Hne]
    by (destruct msg; eauto; by right).
  - assert (Hc := C1). change (signals (MSignal x d :: w)) with ({| e_id := x; e_data := d |} :: signals w) in Hc.
    apply slice_cons in Hc as (m' & d' & -> & Hd & [= -> <-] & Hrest).
    destruct (Forall2_lookup_l _ _ _ _ _ I4 Hd) as (sig & Hsig & Hu).
    pose proof (pi_seq _ _ _ I1) as Hq. pose proof (pi_sent _ _ _ I1) as Hq'.
    unfold l_client. rewrite (deliver_signal print_table cl a _ _ sig) by (done || (simpl; lia)).
    assert (Hrec : k_got k ++ inbox (k_conn k) ++ [sig] = received k ++ [sig]).
    { unfold received, pending. by rewrite Hpc, app_nil_r, app_assoc. }
    split; simpl; try done.
    + exists (S n), m'. split; simpl; try done; try lia.
      * intros att H1 H2. specialize (C4 att H1 H2). lia.
    + unfold received, pending. simpl. rewrite Hrec, ?Nat2Z.id, (take_S_r _ _ _ Hsig). apply sublist_app; [|done].
      etrans; [exact I7|]. replace (Z.to_nat (lastID (k_conn k))) with (Nat.min (Z.to_nat (lastID (k_conn k))) n) by lia.
      rewrite <- take_take. apply sublist_take.
    + intros Hcov Hcan. unfold received, pending. simpl. rewrite Hrec, ?Nat2Z.id, (take_S_r _ _ _ Hsig), (I8 Hcov Hcan).
      do 2 f_equal. specialize (C5 Hcov Hcan). lia.
  - destruct (deliver_other print_table cl a msg (k_conn k) Hpc Hne) as (c & Hr & Hq).
    unfold l_client. simpl. rewrite Hr.
    assert (Ik : linv (k <| k_wire := w |>)).
    { split; try done. exists n, m. split; try done. simpl. rewrite <- C1. destruct msg; try done. by destruct (Hne id data). }
    apply (linv_quiet (k <| k_wire := w |>) c Ik Hq).
Qed.

Lemma signals_take j w : exists i, signals (take j w) = take i (signals w).
Proof.
  exists (List.length (signals (take j w))).
  pose proof (signals_app (take j w) (drop j w)) as H. rewrite take_drop in H.
  rewrite H, take_app_length. done.
Qed.

Lemma linv_break j k : linv k -> linv (lexec cfg cl print_table (LBreak j) k).
Proof.
  intros [I1 I2 I3 I4 I5 (n & m & [C1 C2 C3 C4 C5]) I6 I7 I8]. cbn [lexec].
  split; try done. destruct (signals_take j (k_wire k)) as [i Hi].
  exists n, (Nat.min i m). split; simpl; try done; [|lia]. rewrite Hi, C1. unfold slice. by rewrite take_take.
Qed.

Lemma linv_ping att k : linv k -> linv (lexec cfg cl print_table (LPing att) k).
Proof.
  intros I. cbn [lexec]. unfold l_push. case_bool_decide; [|done].
  destruct I as [I1 I2 I3 I4 I5 (n & m & [C1 C2 C3 C4 C5]) I6 I7 I8].
  split; try done. exists n, m. split; try done. simpl. by rewrite signals_app, app_nil_r.
Qed.

Lemma linv_read k : linv k -> linv (lexec cfg cl print_table LRead k).
Proof.
  intros I. cbn [lexec]. unfold receive_poll. destruct (inbox (k_conn k)) as [|sig rest] eqn:E; [done|].
  destruct I as [I1 I2 I3 I4 I5 (n & m & [C1 C2 C3 C4 C5]) I6 I7 I8].
  assert (Hr : received (k <| k_conn := k_conn k <| inbox := rest |> |> <| k_got := k_got k ++ [sig] |>) = received k).
  { unfold received. simpl. rewrite E, <- app_assoc. done. }
  split; rewrite ?Hr; try done. by exists n, m.
Qed.

Lemma linv_close k : linv k -> linv (lexec cfg cl print_table LClose k).
Proof.
  intros [I1 I2 I3 I4 I5 (n & m & [C1 C2 C3 C4 C5]) I6 I7 I8]. cbn [lexec].
  split; try done. by exists n, m.
Qed.

Lemma l_client_posted i k : k_posted (l_client cl i k) = k_posted k.
Proof. unfold l_client. destruct (run_step _ _ _) as [c|]; [|done]. by destruct (on_stream c). Qed.

Lemma l_push_posted att ms k : k_posted (l_push att ms k) = k_posted k.
Proof. unfold l_push. by case_bool_decide. Qed.

Lemma lexec_posted o k : exists l, k_posted (lexec cfg cl print_table o k) = k_posted k ++ l.
Proof.
  assert (Hsame : forall k', k_posted k' = k_posted k -> exists l, k_posted k' = k_posted k ++ l)
    by (intros k' ->; exists []; by rewrite app_nil_r).
  destruct o; cbn [lexec]; try (apply Hsame; rewrite ?l_client_posted, ?l_push_posted; done).
  - destruct (unmarshal_signal data) as [sig|]; [|by apply Hsame].
    cbv zeta. destruct (fst (fst _)); [by exists [sig]|by apply Hsame].
  - destruct (pc (k_conn k)); try by apply Hsame. destruct (last_event _); [|by apply Hsame].
    destruct (cancelled (k_conn k)); apply Hsame; [apply l_client_posted|].
    cbv zeta. simpl. by rewrite l_client_posted.
  - destruct (pc (k_conn k)); apply Hsame; try done. apply l_client_posted.
  - destruct (k_wire k); [by apply Hsame|]. destruct (pc (k_conn k)); apply Hsame; try done.
    by rewrite l_client_posted.
  - destruct (receive_poll (k_conn k)) as [[sig c]|]; by apply Hsame.
Qed.

Lemma lexec_inv o k :
  linv k -> zlen (k_posted (lexec cfg cl print_table o k)) < 2 ^ 64 -> linv (lexec cfg cl print_table o k).
Proof.
  intros I Hn. assert (zlen (k_posted k) < 2 ^ 64).
  { destruct (lexec_posted o k) as [l Hl]. rewrite Hl, zlen_app in Hn. pose proof (zlen_nonneg l). lia. }
  destruct o.
  - by apply linv_post.
  - by apply linv_open.
  - cbn [lexec]. destruct (pc (k_conn k)); try done. by apply linv_client.
  - by apply linv_take.
  - by apply linv_ping.
  - by apply linv_detach.
  - by apply linv_break.
  - by apply linv_client.
  - by apply linv_deliver.
  - by apply linv_client.
  - by apply linv_client.
  - by apply linv_client.
  - by apply linv_read.
  - by apply linv_close.
Qed.

Lemma lrun_posted os k : exists l, k_posted (lrun cfg cl print_table os k) = k_posted k ++ l.
Proof.
  revert k. induction os as [|o os IH]; intros k; [exists []; by rewrite app_nil_r|].
  destruct (IH (lexec cfg cl print_table o k)) as [l Hl]. destruct (lexec_posted o k) as [l' Hl'].
  exists (l' ++ l). cbn [lrun fold_left]. unfold lrun in Hl. by rewrite Hl, Hl', app_assoc.
Qed.

Lemma lrun_inv os k :
  linv k -> zlen (k_posted (lrun cfg cl print_table os k)) < 2 ^ 64 -> linv (lrun cfg cl print_table os k).
Proof.
  revert k. induction os as [|o os IH]; intros k I Hn; [done|]. apply (IH (lexec cfg cl print_table o k)); [|done].
  apply lexec_inv; [done|]. destruct (lrun_posted os (lexec cfg cl print_table o k)) as [l Hl].
  change (lrun cfg cl print_table (o :: os) k) with (lrun cfg cl print_table os (lexec cfg cl print_table o k)) in Hn.
  rewrite Hl, zlen_app in Hn. pose proof (zlen_nonneg l). lia.
Qed.

End inv.

Module LinkDemo.
Definition cfg : Config := {| QueueSize := 4; ReplayDepth := 4; OfflineGrace := 30; KeepAlive := 15; MaxPeers := 0 |}.

Definition cl : Client := {|
  URL := "http://localhost/pipe"; Token := "secret"; Authorize := None;
  ClientBackoff := {| Config.Initial := 0; Config.Maximum := 0; Config.Factor := Floats.f_zero; Config.Jitter := Floats.f_zero |};
  Inbox := 1 |}.

Definition data (z : Z) : bytes :=
  match newSignal (replicate 16 (byte_of z)) KindReject "bob" "alice" "fedcba9876543210fedcba9876543210"
          (Some (PReject {| jp_Code := RejectBusy; jp_Reason := "full" |})) with
  | Ok sig => match marshal_signal sig with Ok raw => raw | Err _ => [] end
  | Err _ => []
  end.

(** Three signals; the first stream is cut after the first of them reached the client,
    the second stream resumes, a fourth is posted meanwhile. *)
Definition os : list lop :=
  [LPost (data 1); LPost (data 2); LOpen; LPost (data 3); LTake 0; LDeliver; LDeliver; LRoom; LBreak 0;
   LFail (RcvFailed (ESent io_EOF)); LPost (data 4); LTake 0; LTimer; LOpen; LDetach 0; LTake 1; LPing 1;
   LDeliver; LDeliver; LRead; LRoom; LDeliver; LRead; LRoom; LDeliver; LRead; LRoom; LDeliver].

Definition k : link := lrun cfg cl (fun _ => true) os (new_link "alice").
End LinkDemo.

