(* ===== verification/SseEndToEnd.v ===== *)
(** * A client, the server, another client

    [SseClient.Send] with the server's handler ([SseServer.ServeHTTP]) in place of the
    network: what the caller of [Send] learns, what the server did, and what the
    recipient's client then hands to its application. *)

From Stdlib Require Import String.
From S2P Require Import Prelude.
From S2P Require Import Errors.
From S2P Require Import Json.
From S2P Require Import Signal.
From S2P Require Import Envelope.
From S2P Require Import SsePeer.
From S2P Require Import SseServer.
From S2P Require Import SseServerProps.
From S2P Require Import SseClient.
From S2P Require Import SseWire.
From S2P Require Import SseLink.

#[local] Arguments marshal_signal : simpl never.
#[local] Arguments unmarshal_signal : simpl never.
#[local] Arguments Validate : simpl never.

(** ** What [Send] makes of a status *)

Lemma send_end_error e c : exists e', send_end (Some e) c = Some e'.
Proof. unfold send_end. destruct (_ || _); [eauto|]. destruct (checkOpen c); eauto. Qed.

Lemma send_end_kept e c : errIs e ErrPeerUnavailable || errIs e sse_ErrUnauthorized = true -> send_end (Some e) c = Some e.
Proof. unfold send_end. by intros ->. Qed.

Lemma result_ok code body c :
  code = 202 -> send_end (post_result (Ok {| resp_code := code; resp_body := body |})) c = None.
Proof. by intros ->. Qed.

Lemma result_refused code body c :
  code <> 202 -> code <> 200 -> code <> 204 ->
  exists e, send_end (post_result (Ok {| resp_code := code; resp_body := body |})) c = Some e /\
    (code = 404 -> errIs e ErrPeerUnavailable = true) /\
    (code = 401 \/ code = 403 -> errIs e sse_ErrUnauthorized = true).
Proof.
  intros H1 H2 H3. unfold post_result. cbn [resp_code].
  rewrite (proj2 (Z.eqb_neq _ _) H1), (proj2 (Z.eqb_neq _ _) H2), (proj2 (Z.eqb_neq _ _) H3). cbn [orb].
  destruct (Z.eqb_spec code 404) as [->|H4].
  { rewrite send_end_kept by done. eexists. split; [done|]. split; [done|]. by intros []. }
  destruct (Z.eqb_spec code 401) as [->|H5]; [cbn [orb]; rewrite send_end_kept by done; eexists; by split|].
  destruct (Z.eqb_spec code 403) as [->|H6]; [cbn [orb]; rewrite send_end_kept by done; eexists; by split|].
  cbn [orb]. destruct (send_end_error (EOther "sse: send %s: %s" None) c) as [e He]. exists e. split; [done|].
  split; [done|]. by intros [].
Qed.

(** ** Over the network *)

(** The response a POST gets. *)
Definition respond (x : served) : response :=
  match x with
  | Replied r => {| resp_code := status r; resp_body := list_ascii_of_string (text r) |}
  | _ => {| resp_code := 200; resp_body := [] |}
  end.

Section net.
Variable cfg : SsePeer.Config.
Variable Authenticate : request -> result error string.
Variable cl : Client.

Definition handle (s : server) (req : request) : served * server := ServeHTTP cfg Authenticate req true [] s.

(** Nothing is lost on the way. *)
Definition Do (s : server) (req : request) : result error response := Ok (respond (fst (handle s req))).

Lemma authorize_refuses r e : authorize Authenticate r = Err e -> status e = 401 \/ status e = 403.
Proof.
  unfold authorize. destruct (Authenticate r); [|intros [= <-]; by left].
  destruct (_ && _); [|done]. intros [= <-]. by right.
Qed.

Lemma newSignal_ends rand kind from to sid p sig :
  newSignal rand kind from to sid p = Ok sig -> From sig = from /\ To sig = to.
Proof.
  unfold newSignal. cbv zeta. destruct p as [p|]; [destruct (encodePayload p) as [raw|]; [|done]|];
    (destruct (Validate _); [done|]); by intros [= <-].
Qed.

(** The request of a [Send]. *)
Definition send_request (c : conn) (msg : Signal) (raw : bytes) : request := {|
  r_Method := "POST";
  r_Header := decorate cl (local c) (h_set "Idempotency-Key" (ID msg) (h_set "Content-Type" "application/json" no_header));
  r_Body := raw; r_BodyOk := true |}.

Lemma Send_result c c' s msg raw :
  checkOpen c = None -> marshal_signal msg = Ok raw ->
  Send cl None (Do s) msg c c' = send_end (post_result (Do s (send_request c msg raw))) c'.
Proof. intros Ho Hm. unfold Send, postSignal, post_request. by rewrite Ho, Hm. Qed.

(** The server has room for one more in the recipient's queue. *)
Definition accepts (s : server) (msg : Signal) (raw : bytes) (a : nat) (p : peer) : Prop :=
  sv_peers s !! To msg = Some a /\ pheap s !! a = Some p /\ fst (fst (enqueue cfg raw p)) = true.

(** The handler's answer to such a request. *)
Lemma post_status c s msg raw :
  SseServerProps.carries (send_request c msg raw) msg -> Validate msg = None -> From msg = local c -> marshal_signal msg = Ok raw ->
  exists rep, fst (handle s (send_request c msg raw)) = Replied rep /\
    let s' := snd (handle s (send_request c msg raw)) in
    if sv_closed s then status rep = 503 /\ s' = s
    else match authorize Authenticate (send_request c msg raw) with
         | Err e => (status rep = 401 \/ status rep = 403) /\ s' = s
         | Ok id => if bool_decide (id = local c) then queued cfg msg rep s s' else status rep = 403 /\ s' = s
         end.
Proof.
  intros Hca Hv Hf Hm. unfold handle. rewrite serve_post by done. destruct (sv_closed s); [by eexists|].
  destruct (authorize Authenticate (send_request c msg raw)) as [id|e] eqn:Ha;
    [|eexists; split; [reflexivity|]; split; [by eapply authorize_refuses|done]].
  pose proof (serve_send_cases cfg id (send_request c msg raw) s) as H.
  destruct (serveSend cfg id (send_request c msg raw) s) as [rep s']. exists rep. split; [done|]. cbn [snd].
  destruct H as [(Hno & -> & _ & Hst)|(sig & Hok & Hq)].
  - case_bool_decide as Hi; [|by split; [apply (Hst msg); [done|congruence]|]].
    destruct (Hno msg). apply (proj2 (send_check_spec Authenticate id _ msg)). split; [done|]. split; congruence.
  - apply (send_check_spec Authenticate) in Hok as ((_ & _ & Hu) & Hfrom & _). destruct Hca as (_ & _ & Hu').
    assert (sig = msg) as -> by congruence. rewrite bool_decide_eq_true_2 by congruence. done.
Qed.

(** ** On the recipient's side *)

Lemma unsent_snoc sent l e : unsent sent l = [] -> unsent sent (l ++ [e]) = if sent <? e_id e then [e] else [].
Proof.
  induction l as [|x l IH]; cbn [unsent app]; [done|]. destruct (sent <? e_id x); [done|]. exact IH.
Qed.

(** A stream that has been given everything, and a goroutine that waits on it. *)
Record up_to_date (p : peer) (att : nat) : Prop := {
  ud_stream : stream p = Some att;
  ud_unsent : unsent (sentUpTo p) (plog p) = [];
  ud_seq : seq p = sentUpTo p;
  ud_range : 0 <= seq p < 2 ^ 64 - 1
}.

Lemma accepted_batch raw p att :
  up_to_date p att -> fst (fst (enqueue cfg raw p)) = true ->
  fst (takeUnsent cfg att (snd (enqueue cfg raw p))) = [{| e_id := seq p + 1; e_data := raw |}].
Proof.
  intros [Hs Hu Hq Hr]. unfold enqueue. destruct (down p); [done|]. destruct (_ <=? _); [done|]. intros _.
  unfold takeUnsent. cbn. rewrite bool_decide_eq_true_2 by done. cbn. rewrite unsent_snoc by done. cbn.
  assert (E : u64 (seq p + 1) = seq p + 1) by (apply u64_small; lia). rewrite E, <- Hq.
  by rewrite (proj2 (Z.ltb_lt _ _)) by lia.
Qed.

(** The goroutine takes a signal event to the inbox, the application from there. *)
Lemma received_next print rcl rc a n raw msg :
  pc rc = RLoop a -> inbox rc = [] -> 0 <= n < 2 ^ 64 -> unmarshal_signal raw = Ok msg ->
  exists rc1 rc2 rc3, run_step rcl (InReceive false (Ok (render print (MSignal n raw)))) rc = Some rc1 /\
    run_step rcl InRoom rc1 = Some rc2 /\ receive_poll rc2 = Some (msg, rc3) /\ inbox rc3 = [].
Proof.
  intros Hpc Hi Hn Hu. rewrite (deliver_signal print rcl a n raw msg) by done.
  do 3 eexists. split; [reflexivity|]. unfold run_step, receive_poll. cbn. rewrite Hi. cbn.
  assert (R : 0 < inbox_size rcl) by (unfold inbox_size; destruct (Z.ltb_spec 0 (Inbox rcl)); [done|by vm_compute]).
  rewrite (proj2 (Z.ltb_lt _ _)) by exact R. by cbn.
Qed.

(** What the two outcomes of a [Send] say. *)
Definition told (s : server) (c c' : conn) (msg : Signal) (raw : bytes) : Prop :=
  let req := send_request c msg raw in
  let s' := snd (handle s req) in
  match Send cl None (Do s) msg c c' with
  | None => sv_closed s = false /\ sent_by Authenticate req (local c) /\
      exists a p, accepts s msg raw a p /\ pheap s' = <[a := snd (enqueue cfg raw p)]> (pheap s)
  | Some e => pheap s' = pheap s /\
      (sv_closed s = false ->
        (~ sent_by Authenticate req (local c) -> errIs e sse_ErrUnauthorized = true) /\
        (sent_by Authenticate req (local c) -> sv_peers s !! To msg = None -> errIs e ErrPeerUnavailable = true) /\
        (sent_by Authenticate req (local c) -> forall a p, ~ accepts s msg raw a p))
  end.

Lemma send_told s c c' msg raw :
  SseServerProps.carries (send_request c msg raw) msg -> Validate msg = None -> From msg = local c ->
  marshal_signal msg = Ok raw -> checkOpen c = None -> told s c c' msg raw.
Proof.
  intros Hca Hv Hf Hm Ho. unfold told. rewrite (Send_result c c' s msg raw Ho Hm). unfold Do.
  destruct (post_status c s msg raw Hca Hv Hf Hm) as (rep & -> & H). cbn [respond]. cbv zeta in *.
  assert (Hno : forall code, status rep = code -> code <> 202 -> code <> 200 -> code <> 204 -> _)
    by (intros code E H1 H2 H3; rewrite <- E in *; exact (result_refused _ (list_ascii_of_string (text rep)) c' H1 H2 H3)).
  destruct (sv_closed s).
  { destruct H as [Hst ->]. destruct (Hno _ Hst) as (e & -> & _); try done. }
  destruct (authorize Authenticate (send_request c msg raw)) as [id|e0] eqn:Ha.
  2: { destruct H as [Hst ->].
       assert (N : ~ sent_by Authenticate (send_request c msg raw) (local c))
         by (intros E%(authorize_spec Authenticate); congruence).
       destruct (Hno (status rep)) as (e & -> & _ & He); try (by destruct Hst; lia). split; [done|]. intros _. split; [auto|].
       by split. }
  apply (authorize_spec Authenticate) in Ha. case_bool_decide as Hi.
  2: { destruct H as [Hst ->].
       assert (N : ~ sent_by Authenticate (send_request c msg raw) (local c)) by (destruct Ha; intros []; congruence).
       destruct (Hno _ Hst) as (e & -> & _ & He); try done. split; [done|]. intros _. split; [auto|]. by split. }
  subst id. unfold queued in H. unfold accepts. destruct (sv_peers s !! To msg) as [a|].
  2: { destruct H as [-> Hst]. destruct (Hno _ Hst) as (e & -> & He & _); try done. split; [done|]. intros _.
       split; [done|]. split; [auto|]. by intros _ a p [? _]. }
  rewrite Hm in H. destruct H as [_ H]. destruct (pheap s !! a) as [p|] eqn:Hp.
  2: { destruct H as [Hst ->]. destruct (Hno _ Hst) as (e & -> & _); try done. split; [done|]. intros _.
       split; [done|]. split; [done|]. intros _ b q ([= <-] & ? & _). congruence. }
  destruct H as [Hst Hh]. destruct (fst (fst (enqueue cfg raw p))) eqn:Ee.
  - rewrite result_ok by done. split; [done|]. split; [done|]. by exists a, p.
  - destruct (Hno _ Hst) as (e & -> & _); try done. rewrite Hh, refused_same by done. split; [by apply insert_id|].
    intros _. split; [done|]. split; [done|]. intros _ b q ([= <-] & ? & ?). congruence.
Qed.

(** C15. Sending over the signaling server tells the truth, and what was sent arrives. When
    an endpoint builds a signal and hands it to [Send] of its connection, and the network
    loses nothing: [Send] returns nil exactly when the server queued the signal for its
    recipient; otherwise no queue changed, the error is [ErrUnauthorized] if the server does not
    take the connection's credential for its peer, and [ErrPeerUnavailable] if the
    recipient is unknown. A recipient whose stream is up to date is then given exactly this
    signal next, and its application receives it as it was built, every field of it. *)
Theorem send_end_to_end (s : server) (c c' rc : conn) rand kind to sid payload msg :
  newSignal rand kind (local c) to sid payload = Ok msg ->
  match payload with Some p => payload_wf p | None => True end ->
  checkOpen c = None ->
  exists raw, marshal_signal msg = Ok raw /\ told s c c' msg raw /\
    (Send cl None (Do s) msg c c' = None <->
       sv_closed s = false /\ sent_by Authenticate (send_request c msg raw) (local c) /\
       exists a p, accepts s msg raw a p) /\
    forall a p att rcl print attempt, accepts s msg raw a p -> up_to_date p att ->
      Send cl None (Do s) msg c c' = None -> pc rc = RLoop attempt -> inbox rc = [] ->
      let s' := snd (handle s (send_request c msg raw)) in
      exists n, fst (stream_batch cfg a att s') = [MSignal n raw] /\
      exists rc1 rc2 rc3, run_step rcl (InReceive false (Ok (render print (MSignal n raw)))) rc = Some rc1 /\
        run_step rcl InRoom rc1 = Some rc2 /\ receive_poll rc2 = Some (msg, rc3) /\ inbox rc3 = [].
Proof.
  intros Hn Hw Ho. destruct (built_survives _ _ _ _ _ _ _ Hn Hw) as (raw & Hm & Hu & _ & _). exists raw. split; [done|].
  destruct (newSignal_ends _ _ _ _ _ _ _ Hn) as [Hf _].
  destruct (built_carried (send_request c msg raw) rand kind (local c) sid to payload msg raw Hn Hw Hm eq_refl eq_refl)
    as [Hca Hv]. pose proof (send_told s c c' msg raw Hca Hv Hf Hm Ho) as Ht. split; [done|]. split.
  - unfold told in Ht. destruct (Send cl None (Do s) msg c c') as [e|].
    + split; [done|]. intros (Hc & Hs & a & p & Ha). destruct Ht as [_ Ht]. destruct (Ht Hc) as (_ & _ & Hno).
      by destruct (Hno Hs a p).
    + split; [|done]. destruct Ht as (? & ? & a & p & ? & _).
      split; [done|]. split; [done|]. by exists a, p.
  - intros a p att rcl print attempt Ha Hud Hs Hpc Hi. cbv zeta. unfold told in Ht. rewrite Hs in Ht.
    destruct Ht as (_ & _ & b & q & (Hb & Hq & _) & Hh). destruct Ha as (Ha & Hp & He).
    assert (b = a) as -> by congruence. assert (q = p) as -> by congruence.
    exists (seq p + 1). pose proof (ud_range _ _ Hud) as Hr. split; [|apply (received_next print rcl rc attempt); try done; lia].
    unfold stream_batch, sv_take, on_peer, mbind, state_m_bind. rewrite Hh, lookup_insert_eq.
    pose proof (accepted_batch raw p att Hud He) as Hb'. destruct (takeUnsent cfg att (snd (enqueue cfg raw p))) as [es p'].
    cbn in Hb' |- *. by rewrite Hb'.
Qed.
End net.

Module SendDemo.
Definition cl : Client := LinkDemo.cl.
Definition bob : conn := new_conn "bob".

(** Alice's client, waiting on the stream she opened. *)
Definition alice : conn := (new_conn "alice") <| ready := true |> <| receiver := true |> <| pc := RLoop 0 |>.

Definition msg : result error Signal :=
  newSignal (replicate 16 (byte_of 7)) KindReject "bob" "alice" "fedcba9876543210fedcba9876543210"
    (Some (PReject {| jp_Code := RejectBusy; jp_Reason := "full" |})).
End SendDemo.

Lemma send_end_to_end_witness :
  exists msg, SendDemo.msg = Ok msg /\
    Send SendDemo.cl None (Do PostDemo.cfg PostDemo.auth PostDemo.s) msg SendDemo.bob SendDemo.bob = None /\
    exists raw, marshal_signal msg = Ok raw /\ exists n rc1 rc2 rc3,
      run_step SendDemo.cl (InReceive false (Ok (render (fun _ => true) (MSignal n raw)))) SendDemo.alice = Some rc1 /\
      run_step SendDemo.cl InRoom rc1 = Some rc2 /\ receive_poll rc2 = Some (msg, rc3).
Proof.
  destruct SendDemo.msg as [msg|] eqn:E; [|vm_compute in E; discriminate E]. exists msg. split; [reflexivity|].
  destruct (send_end_to_end PostDemo.cfg PostDemo.auth SendDemo.cl PostDemo.s SendDemo.bob SendDemo.bob SendDemo.alice
    _ _ _ _ _ msg E ltac:(vm_compute; repeat split) eq_refl) as (raw & Hm & _ & Hiff & Hrcv).
  vm_compute in E. injection E as <-. vm_compute in Hm. injection Hm as <-.
  match type of Hiff with ?out = None <-> _ => assert (N : out = None) by (vm_compute; reflexivity) end.
  split; [exact N|]. eexists. split; [vm_compute; reflexivity|].
  match type of Hiff with _ <-> _ /\ _ /\ ?acc => assert (A : acc) by (destruct Hiff as [H _]; apply H; exact N) end.
  destruct A as (a & p & A).
  destruct (Hrcv a p 1%nat SendDemo.cl (fun _ => true) 0 A) as (n & _ & rc1 & rc2 & rc3 & H1 & H2 & H3 & _);
    [|exact N|reflexivity|reflexivity|exists n, rc1, rc2, rc3; split; [exact H1|]; split; [exact H2|exact H3]].
  destruct A as (Ha & Hp & _). vm_compute in Ha. injection Ha as <-. vm_compute in Hp. injection Hp as <-.
  split; [reflexivity|reflexivity|reflexivity|]. vm_compute. split; [discriminate|reflexivity].
Defined.
