(* ===== verification/SseMuxClient.v ===== *)
(** * The multiplexing client (signaling/sse/mux.go)

    [mux] is a [Mux] with its connections on a heap, the goroutine [run] and the reader it
    starts for every stream. Each function is cut where it blocks or takes the mutex:
    [mstep] runs the goroutine to its next such point, [rstep] the reader, the other
    operations are the application's. What the transport answers is the input of a step;
    the requests [leave] sends are best effort and leave no trace here. *)

From Stdlib Require Import SpecFloat.
From Stdlib Require Import String.
From S2P Require Import Prelude.
From S2P Require Import Errors.
From S2P Require Import Stream.
From S2P Require Import Json.
From S2P Require Import Signal.
From S2P Require Import Envelope.
From S2P Require Import SsePeer.
From S2P Require Import SseServer.
From S2P Require Import SseClient.
From S2P Require Import SseWire.

(** ** State *)

Definition leaveTimeout : Z := 2 * second.
Definition errStreamGone : error := ESent sse_errStreamGone.

(** Where the call of [Open] that made a connection is. *)
Inductive open_pc := OPoke | OWait | OReturned (e : option error).

Record muxConn := {
  mc_local : string;
  mc_inbox : list Signal;
  mc_ready : bool; mc_closed : bool; mc_failed : bool;
  mc_err : option error;
  mc_stream : string; mc_lastID : Z;
  mc_open : open_pc
}.

#[export] Instance muxConn_eta : Eta muxConn := fun c => {|
  mc_local := mc_local c; mc_inbox := mc_inbox c; mc_ready := mc_ready c; mc_closed := mc_closed c;
  mc_failed := mc_failed c; mc_err := mc_err c; mc_stream := mc_stream c; mc_lastID := mc_lastID c;
  mc_open := mc_open c |}.

Definition new_conn (local : string) : muxConn := {|
  mc_local := local; mc_inbox := []; mc_ready := false; mc_closed := false; mc_failed := false;
  mc_err := None; mc_stream := ""; mc_lastID := 0; mc_open := OPoke |}.

(** [run]: at [keepRunning], in [session] at [pickAuth], in [connect] before and after the
    receiver, at the start of [joinPending], in it with the joins left, at the [select],
    waiting for the reader after [teardown], waiting before the next attempt, gone. *)
Inductive main_pc :=
| PTop (attempt : Z) | PPick (attempt : Z)
| PConnect (attempt : Z) (auth : nat) | PHello (attempt : Z) (auth : nat)
| PJoinStart (attempt : Z) (sid : string) (joinAttempt : Z)
| PJoin (attempt : Z) (sid : string) (joinAttempt : Z) (todo : list (nat * Z)) (retry : bool)
| PSelect (attempt : Z) (sid : string) (joinAttempt : Z) (armed : bool)
| PEnd (attempt : Z) (err : option error)
| PWait (attempt : Z) | PGone.

(** The reader of a stream: none, in [Receive], handing a signal over, its result waiting. *)
Inductive reader_pc := RNone | RRead (sid : string) | RHand (sid : string) (c : nat) (sig : Signal) | RDone (err : option error).

Record mux := {
  mx_conns : gmap string nat;
  mx_heap : gmap nat muxConn;
  mx_running : bool; mx_closed : bool; mx_cancelled : bool;
  mx_stream : string; mx_rcv : bool;
  mx_kick : bool;
  mx_pc : main_pc;
  mx_reader : reader_pc; mx_stop : bool;
  mx_closing : option (list nat);   (* the call of [Close] between its parts *)
  mx_fresh : nat
}.

#[export] Instance mux_eta : Eta mux := fun m => {|
  mx_conns := mx_conns m; mx_heap := mx_heap m; mx_running := mx_running m; mx_closed := mx_closed m;
  mx_cancelled := mx_cancelled m; mx_stream := mx_stream m; mx_rcv := mx_rcv m; mx_kick := mx_kick m;
  mx_pc := mx_pc m; mx_reader := mx_reader m; mx_stop := mx_stop m;
  mx_closing := mx_closing m; mx_fresh := mx_fresh m |}.

Definition new_mux : mux := {|
  mx_conns := ∅; mx_heap := ∅; mx_running := false; mx_closed := false; mx_cancelled := false;
  mx_stream := ""; mx_rcv := false; mx_kick := false; mx_pc := PGone; mx_reader := RNone; mx_stop := false;
  mx_closing := None; mx_fresh := 0 |}.

Definition on_conn (c : nat) (f : muxConn -> muxConn) (m : mux) : mux := m <| mx_heap := alter f c (mx_heap m) |>.

Definition poke (m : mux) : mux := m <| mx_kick := true |>.

(** [muxConn.fail]. *)
Definition fail (err : error) (c : muxConn) : muxConn :=
  if mc_failed c then c else c <| mc_err := Some err |> <| mc_failed := true |>.

(** [Mux.remove]: the stream the connection was joined to. *)
Definition remove (c : nat) (m : mux) : string * mux :=
  match mx_heap m !! c with
  | None => (""%string, m)
  | Some x =>
    if bool_decide (mx_conns m !! mc_local x = Some c) then
      (if bool_decide (mc_stream x = mx_stream m) then mc_stream x else ""%string,
       poke (m <| mx_conns := delete (mc_local x) (mx_conns m) |>))
    else (""%string, m)
  end.

Definition fail_remove (err : error) (c : nat) (m : mux) : mux := snd (remove c (on_conn c (fail err) m)).

(** [Mux.failAll]: the map is emptied first. *)
Definition failAll (err : error) (m : mux) : mux :=
  foldr (fun p => on_conn p.2 (fail err)) (m <| mx_conns := ∅ |>) (map_to_list (mx_conns m)).

(** ** The application *)

(** [Open] up to its [poke]: the connection it made. *)
Definition Open_register (url_set : bool) (ctx : option error) (local : string) (m : mux)
    : result error nat * mux :=
  if negb url_set then (Err (EOther "sse: Mux.URL is required" None), m)
  else match ctx with
  | Some e => (Err e, m)
  | None =>
    if mx_closed m then (Err (ESent ErrClosed), m)
    else match mx_conns m !! local with
    | Some _ => (Err (EWrap "sse: %q is already open on this Mux: %w" [ESent ErrDuplicatePeer]), m)
    | None =>
      let c := mx_fresh m in
      let m := m <| mx_fresh := S c |> <| mx_heap := <[c := new_conn local]> (mx_heap m) |>
                 <| mx_conns := <[local := c]> (mx_conns m) |> in
      (Ok c, if mx_running m then m else m <| mx_running := true |> <| mx_pc := PTop 0 |>)
    end
  end.

Definition Open_poke (c : nat) (m : mux) : mux := poke (on_conn c (fun x => x <| mc_open := OWait |>) m).

(** [muxConn.Close]: the mark, then [remove]; the result is the stream to leave. *)
Definition conn_Close_mark (c : nat) : mux -> mux := on_conn c (fun x => x <| mc_closed := true |>).
Definition conn_Close (c : nat) (m : mux) : mux :=
  match mx_heap m !! c with
  | Some x => if mc_closed x then m else snd (remove c (conn_Close_mark c m))
  | None => m
  end.

(** The [select] of [Open]; [None]: the case is not ready. *)
Inductive open_case := OpenReady | OpenFailed | OpenClosed | OpenCtx (e : error).

Definition Open_select (w : open_case) (c : nat) (m : mux) : option mux :=
  match mx_heap m !! c with
  | None => None
  | Some x =>
    let return_ e := on_conn c (fun x => x <| mc_open := OReturned e |>) in
    match mc_open x, w with
    | OWait, OpenReady => if mc_ready x then Some (return_ None m) else None
    | OWait, OpenFailed => if mc_failed x then Some (return_ (mc_err x) (snd (remove c m))) else None
    | OWait, OpenClosed => if mc_closed x then Some (return_ (Some (ESent ErrClosed)) m) else None
    | OWait, OpenCtx e => Some (return_ (Some e) (conn_Close c m))
    | _, _ => None
    end
  end.

(** [Mux.Close] in its parts: the critical section, then what it cancels and closes; the
    bounded wait for the goroutine changes nothing. *)
Definition Close_mark (m : mux) : mux :=
  if mx_closed m then m
  else m <| mx_closed := true |> <| mx_closing := Some (snd <$> map_to_list (mx_conns m)) |> <| mx_conns := ∅ |>.

Definition Close_rest (m : mux) : mux :=
  match mx_closing m with
  | Some l => foldr conn_Close_mark (m <| mx_cancelled := true |> <| mx_closing := None |>) l
  | None => m
  end.

(** [Send], [Receive] and [checkOpen] of a connection. *)
Definition checkOpen (c : muxConn) : option error :=
  if mc_closed c then Some (ESent ErrClosed) else if mc_failed c then mc_err c else None.

Definition Send (cl : Client) (url_ok : option error) (Do : request -> result error response) (msg : Signal)
    (c : muxConn) : option error :=
  match checkOpen c with
  | Some e => Some e
  | None => postSignal url_ok Do msg (decorate cl (mc_local c))
  end.

Definition receive_poll (c : muxConn) : option (Signal * muxConn) :=
  match mc_inbox c with sig :: rest => Some (sig, c <| mc_inbox := rest |>) | [] => None end.

Inductive receive_case := WInbox | WClosed | WFailed | WCtx (e : error).

Definition receive_wait (w : receive_case) (c : muxConn) : option (result (option error) Signal * muxConn) :=
  match w with
  | WInbox => match receive_poll c with Some (sig, c) => Some (Ok sig, c) | None => None end
  | WClosed => if mc_closed c then Some (Err (Some (ESent ErrClosed)), c) else None
  | WFailed => if mc_failed c then Some (Err (mc_err c), c) else None
  | WCtx e => Some (Err (Some e), c)
  end.

(** ** The requests of a session *)

(** [Mux.connect] asks for a multiplexed stream, [Mux.join] joins it, [Mux.leave] leaves it. *)
Definition connect_request (cl : Client) (auth : string) : request := {|
  r_Method := "GET"; r_Header := decorate cl auth (h_set MuxHeader "1" no_header); r_Body := []; r_BodyOk := true |}.

Definition join_request (cl : Client) (local sid : string) (lastID : Z) : request :=
  let h := h_set MuxHeader sid no_header in {|
  r_Method := "PUT";
  r_Header := decorate cl local (if 0 <? lastID then h_set LastEventID (FormatUint lastID) h else h);
  r_Body := []; r_BodyOk := true |}.

Definition leave_request (cl : Client) (local sid : string) : request := {|
  r_Method := "DELETE"; r_Header := decorate cl local (h_set MuxHeader sid no_header);
  r_Body := []; r_BodyOk := true |}.

(** What [join] makes of the response. *)
Definition join_result (r : result error response) : option error :=
  match r with
  | Err e => Some (EWrap "sse: join %s: %w" [e])
  | Ok r =>
    let code := resp_code r in
    if (code =? 204) || (code =? 200) then None
    else if code =? 404 then Some errStreamGone
    else if (code =? 401) || (code =? 403) then Some (EWrap "%w: %s: %w" [ESent sse_ErrPermanent; ESent sse_ErrUnauthorized])
    else if code =? 405 then Some (EWrap "%w: join %s: %s" [ESent sse_ErrPermanent])
    else Some (EOther "sse: join %s: %s" None)
  end.

(** The data of a mux event, and of a detached event. *)
Definition set_hello (k raw : bytes) (v : json) (s : string) : result error string :=
  if key_is "stream" k then set_string v s else Ok s.

Definition decode_hello (data : bytes) : result error string :=
  match unmarshal_value data with Err e => Err e | Ok v => set_struct set_hello v ""%string end.

Definition set_detached (k raw : bytes) (v : json) (d : string * string) : result error (string * string) :=
  if key_is "peer" k then upd (set_string v (fst d)) (fun x => (x, snd d))
  else if key_is "reason" k then upd (set_string v (snd d)) (fun x => (fst d, x))
  else Ok d.

Definition decode_detached (data : bytes) : result error (string * string) :=
  match unmarshal_value data with Err e => Err e | Ok v => set_struct set_detached v (""%string, ""%string) end.

(** ** run and session *)

(** The end of [session]: what [run] does next. *)
Definition session_end (attempt : Z) (established : bool) (err : option error) (m : mux) : mux :=
  if mx_cancelled m then m <| mx_running := false |> <| mx_pc := PGone |>
  else
    let attempt := if established then 0 else attempt in
    match err with
    | None => m <| mx_pc := PTop attempt |>
    | Some _ => m <| mx_pc := PWait (attempt + 1) |>
    end.

Definition teardown (m : mux) : mux := m <| mx_stream := ""%string |> <| mx_rcv := false |> <| mx_stop := true |>.

(** [session] after a failed [connect]. *)
Definition connect_failed (attempt : Z) (auth : nat) (err : error) (m : mux) : mux :=
  if mx_cancelled m then session_end attempt false None m
  else if errIs err sse_ErrUnauthorized then session_end attempt false None (fail_remove err auth m)
  else if errIs err sse_ErrPermanent then session_end attempt false None (failAll err m)
  else session_end attempt false (Some err) m.

Definition permanent (msg : string) : error := EWrap msg [ESent sse_ErrPermanent].

(** The joins [joinPending] finds to do. *)
Definition pending_joins (sid : string) (m : mux) : list (nat * Z) :=
  omap (fun p => match mx_heap m !! p.2 with
                 | Some x => if bool_decide (mc_stream x = sid) then None else Some (p.2, mc_lastID x)
                 | None => None
                 end) (map_to_list (mx_conns m)).

(** [session] after [joinPending]. *)
Definition after_joins (attempt : Z) (sid : string) (joinAttempt : Z) (retry : bool) (m : mux) : mux :=
  let joinAttempt := if retry then joinAttempt + 1 else 0 in
  if bool_decide (mx_conns m = ∅) then teardown m <| mx_pc := PEnd attempt None |>
  else m <| mx_pc := PSelect attempt sid joinAttempt retry |>.

(** One join of [joinPending], with its response. *)
Definition join_done (sid : string) (c : nat) (m : mux) : mux :=
  match mx_heap m !! c with
  | Some x =>
    if bool_decide (mx_conns m !! mc_local x = Some c)
    then on_conn c (fun x => x <| mc_stream := sid |> <| mc_ready := true |>) m
    else m
  | None => m
  end.

Definition join_step (attempt : Z) (sid : string) (joinAttempt : Z) (c : nat) (todo : list (nat * Z)) (retry : bool)
    (r : result error response) (m : mux) : mux :=
  match join_result r with
  | None => join_done sid c m <| mx_pc := PJoin attempt sid joinAttempt todo retry |>
  | Some e =>
    if errIs e sse_errStreamGone then teardown m <| mx_pc := PEnd attempt (Some errStreamGone) |>
    else if mx_cancelled m then m <| mx_pc := PJoin attempt sid joinAttempt [] false |>
    else if errIs e sse_ErrUnauthorized then
      fail_remove e c m <| mx_pc := PJoin attempt sid joinAttempt todo retry |>
    else m <| mx_pc := PJoin attempt sid joinAttempt todo true |>
  end.

(** The first event of a stream. *)
Definition hello_event (attempt : Z) (auth : nat) (e : event) (m : mux) : mux :=
  let refuse msg := connect_failed attempt auth (permanent msg) (m <| mx_rcv := false |>) in
  if bool_decide (ev_name e = "")%string then m
  else if bool_decide (ev_name e = eventMux) then
    match decode_hello (ev_data e) with
    | Ok sid =>
      if bool_decide (sid = "")%string then refuse "%w: malformed mux event"%string
      else m <| mx_stream := sid |> <| mx_reader := RRead sid |> <| mx_stop := false |>
             <| mx_pc := PJoinStart attempt sid 0 |>
    | Err _ => refuse "%w: malformed mux event"%string
    end
  else if bool_decide (ev_name e = eventHello) then refuse "%w: %s does not support multiplexed streams"%string
  else refuse "%w: unexpected %q event opening a multiplexed stream"%string.

(** What the goroutine finds: nothing to wait for, the connection [pickAuth] met first, the
    receiver with whether its type is wrong, an event, the response to a join, a case of a
    [select], the end of a wait. *)
Inductive minput :=
| MGo | MPick (c : nat) | MReceiver (r : result receive_error bool) | MEvent (r : result receive_error event)
| MResponse (r : result error response) | MKick | MRetry | MReadErr | MCancelled | MTimer.

(** [keepRunning], and what [run] does with it. *)
Definition keepRunning (attempt : Z) (m : mux) : mux :=
  if mx_closed m || bool_decide (mx_conns m = ∅)
  then m <| mx_running := false |> <| mx_pc := PGone |> else m <| mx_pc := PPick attempt |>.

(** Whether [pickAuth] may return a connection: the iteration order of a map is free. *)
Definition pickAuth (c : nat) (m : mux) : bool := existsb (fun p => bool_decide (p.2 = c)) (map_to_list (mx_conns m)).

(** [connect] once it has a receiver. *)
Definition connected (attempt : Z) (auth : nat) (wrongType : bool) (m : mux) : mux :=
  if mx_closed m then connect_failed attempt auth (ESent ErrClosed) m
  else if wrongType then
    connect_failed attempt auth (permanent "%w: %s did not return an event stream") (m <| mx_rcv := false |>)
  else m <| mx_rcv := true |> <| mx_pc := PHello attempt auth |>.

Definition mstep (i : minput) (m : mux) : option mux :=
  match mx_pc m, i with
  | PTop a, MGo => Some (keepRunning a m)
  | PPick a, MGo => if bool_decide (mx_conns m = ∅) then Some (session_end a false None m) else None
  | PPick a, MPick c => if pickAuth c m then Some (m <| mx_pc := PConnect a c |>) else None
  | PConnect a c, MReceiver (Err e) => Some (connect_failed a c (classifyStream e) m)
  | PConnect a c, MReceiver (Ok wrongType) => Some (connected a c wrongType m)
  | PHello a c, MEvent (Err e) => Some (connect_failed a c (classifyStream e) (m <| mx_rcv := false |>))
  | PHello a c, MEvent (Ok e) => Some (hello_event a c e m)
  | PJoinStart a sid j, MGo => Some (m <| mx_pc := PJoin a sid j (pending_joins sid m) false |>)
  | PJoin a sid j [] retry, MGo => Some (after_joins a sid j retry m)
  | PJoin a sid j ((c, _) :: todo) retry, MResponse r => Some (join_step a sid j c todo retry r m)
  | PSelect a sid j _, MKick =>
    if mx_kick m then Some (m <| mx_kick := false |> <| mx_pc := PJoinStart a sid j |>) else None
  | PSelect a sid j armed, MRetry => if armed : bool then Some (m <| mx_pc := PJoinStart a sid j |>) else None
  | PSelect a _ _ _, MReadErr =>
    match mx_reader m with
    | RDone err =>
      let err := match err with Some e => e | None => EOther "sse: stream ended" None end in
      Some (session_end a true (Some err) (teardown m <| mx_reader := RNone |>))
    | _ => None
    end
  | PSelect a _ _ _, MCancelled => if mx_cancelled m then Some (teardown m <| mx_pc := PEnd a None |>) else None
  | PEnd a err, MReadErr =>
    match mx_reader m with
    | RDone _ => Some (session_end a true err (m <| mx_reader := RNone |>))
    | _ => None
    end
  | PWait a, MTimer => Some (m <| mx_pc := PTop a |>)
  | PWait a, MCancelled => if mx_cancelled m then Some (m <| mx_pc := PTop a |>) else None
  | _, _ => None
  end.

(** ** The reader *)

(** One event of a joined stream. *)
Definition read_signal (sid id : string) (data : bytes) (m : mux) : mux :=
  match unmarshal_signal data with
  | Err _ => m
  | Ok sig =>
    match mx_conns m !! To sig with
    | None => m
    | Some c =>
      let m := if bool_decide (id = "")%string then m
               else match ParseUint id with
                    | Some n => on_conn c (fun x => x <| mc_lastID := n |>) m
                    | None => m
                    end in
      m <| mx_reader := RHand sid c sig |>
    end
  end.

(** The check takes the mutex, [fail] and [remove] follow it. *)
Definition read_detached (sid : string) (data : bytes) (m : mux) : mux :=
  match decode_detached data with
  | Err _ => m
  | Ok (peer, _) =>
    match mx_conns m !! peer with
    | None => m
    | Some c =>
      match mx_heap m !! c with
      | Some x => if bool_decide (mc_stream x = sid)
                  then fail_remove (permanent "%w: another client is signaling as %q") c m else m
      | None => m
      end
    end
  end.

Inductive rinput := REvent (r : result receive_error event) | RRoom | RClosed | RFailed | RStop.

Definition rstep (cl : Client) (i : rinput) (m : mux) : option mux :=
  match mx_reader m, i with
  | RRead _, REvent (Err e) =>
    Some (m <| mx_reader := RDone (if mx_stop m then None else Some (classifyStream e)) |>)
  | RRead sid, REvent (Ok e) =>
    Some (if bool_decide (ev_name e = eventSignal) then read_signal sid (ev_id e) (ev_data e) m
          else if bool_decide (ev_name e = eventDetached) then read_detached sid (ev_data e) m
          else if bool_decide (ev_name e = eventShutdown) then
            m <| mx_reader := RDone (Some (EOther "sse: server is shutting down" None)) |>
          else if bool_decide (ev_name e = eventMux) then
            m <| mx_reader := RDone (Some (EOther "sse: multiplexed stream restarted" None)) |>
          else m)
  | RHand sid c sig, RRoom =>
    match mx_heap m !! c with
    | Some x => if zlen (mc_inbox x) <? inbox_size cl
                then Some (on_conn c (fun x => x <| mc_inbox := mc_inbox x ++ [sig] |>) m <| mx_reader := RRead sid |>)
                else None
    | None => None
    end
  | RHand sid c _, RClosed =>
    match mx_heap m !! c with
    | Some x => if mc_closed x then Some (m <| mx_reader := RRead sid |>) else None
    | None => None
    end
  | RHand sid c _, RFailed =>
    match mx_heap m !! c with
    | Some x => if mc_failed x then Some (m <| mx_reader := RRead sid |>) else None
    | None => None
    end
  | RHand _ _ _, RStop => if mx_stop m then Some (m <| mx_reader := RDone None |>) else None
  | _, _ => None
  end.

(** ** Runs *)

(** A step of the application, the goroutine or the reader; a closed connection's
    [remove] comes at any time after its mark. *)
Inductive xop :=
| XOpen (url_set : bool) (ctx : option error) (local : string) | XPoke (c : nat)
| XSelect (w : open_case) (c : nat) | XConnMark (c : nat) | XRemove (c : nat)
| XReceive (w : receive_case) (c : nat) | XClose | XCloseRest
| XMain (i : minput) | XReader (i : rinput).

Definition xexec (cl : Client) (o : xop) (m : mux) : mux :=
  match o with
  | XOpen url_set ctx local => snd (Open_register url_set ctx local m)
  | XPoke c => match mx_heap m !! c with
               | Some x => match mc_open x with OPoke => Open_poke c m | _ => m end
               | None => m
               end
  | XSelect w c => default m (Open_select w c m)
  | XConnMark c => conn_Close_mark c m
  | XRemove c => match mx_heap m !! c with
                 | Some x => if mc_closed x then snd (remove c m) else m
                 | None => m
                 end
  | XReceive w c => match mx_heap m !! c with
                    | Some x => match receive_wait w x with
                                | Some (_, x) => m <| mx_heap := <[c := x]> (mx_heap m) |>
                                | None => m
                                end
                    | None => m
                    end
  | XClose => Close_mark m
  | XCloseRest => Close_rest m
  | XMain i => default m (mstep i m)
  | XReader i => default m (rstep cl i m)
  end.

Definition xrun (cl : Client) (os : list xop) : mux := fold_left (fun m o => xexec cl o m) os new_mux.
