(* ===== verification/SseMuxProps.v ===== *)
(** * The multiplexing client serves every peer

    [xinv] holds in every run of the [mux] of [SseMuxClient], however the application's
    calls, the goroutine and the reader interleave. [mux_serves_every_peer] reads off it
    that no connection is forgotten and none receives another's signals;
    [signal_dropped_on_teardown] is a run in which a signal is lost. *)

From Stdlib Require Import String.
From S2P Require Import Prelude.
From S2P Require Import Errors.
From S2P Require Import Json.
From S2P Require Import Signal.
From S2P Require Import Envelope.
From S2P Require Import SsePeer.
From S2P Require Import SseServer.
From S2P Require Import SseClient.
From S2P Require Import SseWire.
From S2P Require Import SseMuxClient.

(** ** The invariant *)

Record core (m : mux) : Prop := {
  co_conns : forall id c, mx_conns m !! id = Some c -> exists x, mx_heap m !! c = Some x /\ mc_local x = id;
  co_fresh : forall c x, mx_heap m !! c = Some x -> (c < mx_fresh m)%nat;
  co_inbox : forall c x, mx_heap m !! c = Some x -> Forall (fun sig => To sig = mc_local x) (mc_inbox x);
  co_hand : forall sid c sig, mx_reader m = RHand sid c sig -> exists x, mx_heap m !! c = Some x /\ To sig = mc_local x;
  co_closed : mx_closed m = true -> mx_conns m = ∅;
  co_closing : mx_closed m = true <-> mx_cancelled m = true \/ mx_closing m <> None
}.

(** A connection that waits for a wake-up already under way. *)
Definition excused (m : mux) (x : muxConn) : Prop := mx_kick m = true \/ mc_open x = OPoke.

(** Every open connection is joined to [sid], is going to be, or has a wake-up under way. *)
Definition joined (sid : string) (P : nat -> Prop) (m : mux) : Prop :=
  forall id c x, mx_conns m !! id = Some c -> mx_heap m !! c = Some x -> mc_stream x = sid \/ P c \/ excused m x.

Definition waits (m : mux) : Prop :=
  match mx_pc m with
  | PJoin _ sid _ todo retry => joined sid (fun c => c ∈ todo.*1 \/ retry = true) m
  | PSelect _ sid _ armed => joined sid (fun _ => armed = true) m /\
      (mx_conns m = ∅ -> mx_kick m = true \/ mx_closed m = true)
  | _ => True
  end.

Definition serving (p : main_pc) : bool :=
  match p with PJoinStart _ _ _ | PJoin _ _ _ _ _ | PSelect _ _ _ _ | PEnd _ _ => true | _ => false end.

Record xinv (m : mux) : Prop := {
  xi_core : core m;
  xi_run : mx_running m = true <-> mx_pc m <> PGone;
  xi_live : mx_conns m <> ∅ -> mx_running m = true;
  xi_reader : serving (mx_pc m) = true <-> mx_reader m <> RNone;
  xi_stop : forall a e, mx_pc m = PEnd a e -> mx_stop m = true;
  xi_waits : waits m
}.

Lemma xinv_new : xinv new_mux.
Proof. split; [split|..]; try done; naive_solver. Qed.

(** ** Steps that only remove connections and raise flags *)

Record sub (m m' : mux) : Prop := {
  su_conns : mx_conns m' ⊆ mx_conns m;
  su_dom : forall c, is_Some (mx_heap m !! c) -> is_Some (mx_heap m' !! c);
  su_heap : forall c x', mx_heap m' !! c = Some x' -> exists x, mx_heap m !! c = Some x /\
    mc_local x' = mc_local x /\ mc_stream x' = mc_stream x /\
    (mc_open x = OPoke -> mc_open x' = OPoke \/ mx_kick m' = true) /\
    (forall sig, sig ∈ mc_inbox x' -> sig ∈ mc_inbox x \/ To sig = mc_local x);
  su_kick : mx_kick m = true -> mx_kick m' = true;
  su_empty : mx_conns m' = ∅ -> mx_conns m = ∅ \/ mx_kick m' = true \/ mx_closed m' = true;
  su_closed : mx_closed m = true -> mx_closed m' = true;
  su_closed' : mx_closed m' = true -> mx_closed m = true \/ mx_conns m' = ∅;
  su_closing : mx_closed m' = true <-> mx_cancelled m' = true \/ mx_closing m' <> None;
  su_same : mx_running m' = mx_running m /\ mx_pc m' = mx_pc m /\ mx_fresh m' = mx_fresh m /\ mx_stop m' = mx_stop m
}.

Lemma subset_empty (a b : gmap string nat) : a ⊆ b -> b = ∅ -> a = ∅.
Proof.
  intros Hs ->. apply map_eq. intros i. rewrite lookup_empty. destruct (a !! i) as [x|] eqn:E; [|done].
  by apply (lookup_weaken _ ∅) in E.
Qed.

Lemma core_sub m m' :
  core m -> sub m m' ->
  (forall sid c sig, mx_reader m' = RHand sid c sig ->
     mx_reader m = RHand sid c sig \/ exists x, mx_heap m' !! c = Some x /\ To sig = mc_local x) -> core m'.
Proof.
  intros [C1 C2 C3 C4 C5 C6] [S1 S2 S3 S4 S5 S6 S7 S8 (S10 & S11 & S12 & S13)] Hr.
  assert (Hloc : forall c x, mx_heap m !! c = Some x -> exists x', mx_heap m' !! c = Some x' /\ mc_local x' = mc_local x).
  { intros c x Hx. destruct (S2 c) as [x' Hx']; [by exists x|]. destruct (S3 c x' Hx') as (y & Hy & Hl & _).
    exists x'. split; [done|]. congruence. }
  split; try done.
  - intros id c Hc. destruct (C1 id c) as (x & Hx & <-); [by eapply lookup_weaken|]. by apply Hloc.
  - intros c x' Hx'. destruct (S3 c x' Hx') as (x & Hx & _). rewrite S12. by eapply C2.
  - intros c x' Hx'. destruct (S3 c x' Hx') as (x & Hx & -> & _ & _ & Hin). apply Forall_forall. intros sig Hs.
    destruct (Hin sig Hs) as [Hs'|]; [|done]. specialize (C3 c x Hx). rewrite Forall_forall in C3. by apply C3.
  - intros sid c sig Hh. destruct (Hr _ _ _ Hh) as [Hh'|]; [|done]. destruct (C4 _ _ _ Hh') as (x & Hx & Ht).
    destruct (Hloc c x Hx) as (x' & Hx' & Hl). exists x'. split; [done|]. congruence.
  - intros Hc. destruct (S7 Hc) as [Hc'|]; [|done]. apply (subset_empty _ _ S1). auto.
Qed.

Lemma joined_sub sid P m m' : sub m m' -> joined sid P m -> joined sid P m'.
Proof.
  intros S Hj id c x' Hc Hx'. destruct (su_heap _ _ S c x' Hx') as (x & Hx & _ & Hst & Ho & _). rewrite Hst.
  destruct (Hj id c x) as [?|[?|[Hk|Hp]]]; auto.
  - eapply lookup_weaken; [exact Hc|apply S].
  - right; right; left. by apply (su_kick _ _ S).
  - right; right. destruct (Ho Hp); [by right|by left].
Qed.

Lemma waits_sub m m' : sub m m' -> waits m -> waits m'.
Proof.
  intros S. unfold waits. destruct (su_same _ _ S) as (_ & -> & _). destruct (mx_pc m); try done.
  - by apply joined_sub.
  - intros [Hj He]. split; [by eapply joined_sub|]. intros Hc.
    destruct (su_empty _ _ S Hc) as [H|[H|H]]; [|by left|by right].
    destruct (He H); [left; by apply (su_kick _ _ S)|right; by apply (su_closed _ _ S)].
Qed.

Lemma xinv_sub m m' :
  xinv m -> sub m m' ->
  (forall sid c sig, mx_reader m' = RHand sid c sig ->
     mx_reader m = RHand sid c sig \/ exists x, mx_heap m' !! c = Some x /\ To sig = mc_local x) ->
  (mx_reader m' = RNone <-> mx_reader m = RNone) -> xinv m'.
Proof.
  intros [X1 X2 X3 X4 X5 X6] S Hr Hn. pose proof (su_same _ _ S) as (H1 & H2 & _ & H4). split.
  - by eapply core_sub.
  - by rewrite H1, H2.
  - intros Hc. rewrite H1. apply X3. intros He. apply Hc. by apply (subset_empty _ _ (su_conns _ _ S)).
  - rewrite H2. rewrite X4. by rewrite Hn.
  - rewrite H2, H4. done.
  - by eapply waits_sub.
Qed.

(** Flags other than these can change freely. *)
Lemma sub_refl m : (mx_closed m = true <-> mx_cancelled m = true \/ mx_closing m <> None) -> sub m m.
Proof. intros. split; try done; auto. intros c x' Hx. exists x'. auto 6. Qed.

(** Updates of one connection. *)
Definition mild (f : muxConn -> muxConn) : Prop := forall x,
  mc_local (f x) = mc_local x /\ mc_stream (f x) = mc_stream x /\ mc_open (f x) = mc_open x /\
  mc_inbox (f x) = mc_inbox x.

Lemma sub_on_conn f c m : core m -> mild f -> sub m (on_conn c f m).
Proof.
  intros Hm Hf. split; try done; auto; try apply Hm.
  - intros d [x Hd]. unfold on_conn. simpl. destruct (decide (c = d)) as [->|Hn].
    + rewrite lookup_alter_eq, Hd. by eexists.
    + rewrite lookup_alter_ne by done. by eexists.
  - intros d x'. unfold on_conn. simpl. destruct (decide (c = d)) as [->|Hn].
    + rewrite lookup_alter_eq. intros Hx'. apply fmap_Some in Hx' as (x & Hx & ->). exists x.
      destruct (Hf x) as (H1 & H2 & H3 & H4). rewrite H1, H2, H3, H4. auto 6.
    + rewrite lookup_alter_ne by done. intros Hx'. exists x'. auto 6.
Qed.

Lemma mild_fail e : mild (fail e).
Proof. intros x. unfold fail. by destruct (mc_failed x). Qed.

Lemma sub_remove c m : core m -> sub m (snd (remove c m)).
Proof.
  intros Hm. unfold remove. destruct (mx_heap m !! c) as [x|] eqn:E; [|apply sub_refl, Hm].
  case_bool_decide; [|apply sub_refl, Hm]. unfold poke. split; simpl; try done; auto; try apply Hm.
  - apply delete_subseteq.
  - intros d x' Hx. exists x'. auto 6.
Qed.

Lemma sub_trans m1 m2 m3 : sub m1 m2 -> sub m2 m3 -> sub m1 m3.
Proof.
  intros [A1 A2 A3 A4 A5 A6 A7 A8 (A10 & A11 & A12 & A13)] [B1 B2 B3 B4 B5 B6 B7 B8 (B10 & B11 & B12 & B13)].
  split; try (repeat split; congruence); auto.
  - by etrans.
  - intros c x3 H3. destruct (B3 c x3 H3) as (x2 & H2 & L2 & S2 & O2 & I2).
    destruct (A3 c x2 H2) as (x1 & H1 & L1 & S1 & O1 & I1). exists x1.
    split; [done|]. split; [congruence|]. split; [congruence|]. split.
    + intros Ho. destruct (O1 Ho) as [Ho2|Hk]; [by apply O2|right; auto].
    + intros sig Hs. destruct (I2 sig Hs) as [Hs2|Ht]; [by apply I1|right; congruence].
  - intros H. destruct (B5 H) as [H2|[|]]; auto. destruct (A5 H2) as [|[|]]; auto.
  - intros H. destruct (B7 H) as [H2|]; [|auto]. destruct (A7 H2); [auto|right]. by eapply subset_empty.
Qed.

Lemma remove_reader c m : mx_reader (snd (remove c m)) = mx_reader m.
Proof. unfold remove. destruct (mx_heap m !! c); [|done]. by case_bool_decide. Qed.

Lemma core_remove c m : core m -> core (snd (remove c m)).
Proof. intros Hm. eapply core_sub; [done|by apply sub_remove|]. rewrite remove_reader. auto. Qed.

Lemma core_on_conn f c m : core m -> mild f -> core (on_conn c f m).
Proof. intros Hm Hf. eapply core_sub; [done|by apply sub_on_conn|]. auto. Qed.

Lemma sub_fail_remove e c m : core m -> sub m (fail_remove e c m).
Proof.
  intros Hm. pose proof (mild_fail e) as Hf. unfold fail_remove. apply (sub_trans _ (on_conn c (fail e) m)).
  - by apply sub_on_conn.
  - apply sub_remove. by apply core_on_conn.
Qed.

Lemma fail_remove_reader e c m : mx_reader (fail_remove e c m) = mx_reader m.
Proof. unfold fail_remove. by rewrite remove_reader. Qed.

Lemma core_fail_remove e c m : core m -> core (fail_remove e c m).
Proof. intros Hm. eapply core_sub; [done|by apply sub_fail_remove|]. rewrite fail_remove_reader. auto. Qed.

(** Failing or closing several connections. *)
Lemma sub_each f l m : core m -> (forall c, mild (f c)) ->
  sub m (foldr (fun c => on_conn c (f c)) m l) /\ core (foldr (fun c => on_conn c (f c)) m l) /\
  mx_reader (foldr (fun c => on_conn c (f c)) m l) = mx_reader m.
Proof.
  intros Hm Hf. induction l as [|c l (IH1 & IH2 & IH3)]; simpl; [split; [apply sub_refl, Hm|done]|].
  split; [|split; [by apply core_on_conn|done]]. eapply sub_trans; [exact IH1|]. by apply sub_on_conn.
Qed.

(** ** The application's steps *)

Lemma xinv_quiet m m' : xinv m -> sub m m' -> mx_reader m' = mx_reader m -> xinv m'.
Proof. intros X S Hr. apply (xinv_sub m); [done|done|rewrite Hr; auto|by rewrite Hr]. Qed.

Lemma xinv_on_conn f c m : xinv m -> mild f -> xinv (on_conn c f m).
Proof. intros X Hf. apply (xinv_quiet m); [done|apply sub_on_conn; [apply X|done]|done]. Qed.

Lemma xinv_remove c m : xinv m -> xinv (snd (remove c m)).
Proof. intros X. apply (xinv_quiet m); [done|apply sub_remove, X|apply remove_reader]. Qed.

(** The opener leaves [OPoke] with its poke, and later moves keep the flag up or do not
    concern it. *)
Lemma xinv_open_pc c x p m :
  xinv m -> mx_heap m !! c = Some x -> (mc_open x = OPoke -> mx_kick m = true) ->
  xinv (on_conn c (fun x => x <| mc_open := p |>) m).
Proof.
  intros X Hc Hk. apply (xinv_quiet m); [done| |done]. pose proof (xi_core _ X) as Hm.
  split; try done; auto; try apply Hm.
  - intros d [y Hd]. unfold on_conn. simpl. destruct (decide (c = d)) as [->|Hn].
    + rewrite lookup_alter_eq, Hd. by eexists.
    + rewrite lookup_alter_ne by done. by eexists.
  - intros d x'. unfold on_conn. simpl. destruct (decide (c = d)) as [->|Hn].
    + rewrite lookup_alter_eq. intros Hx'. apply fmap_Some in Hx' as (y & Hy & ->). exists y.
      assert (y = x) as -> by congruence. simpl. auto 7.
    + rewrite lookup_alter_ne by done. intros Hx'. exists x'. auto 6.
Qed.

Lemma xinv_kick m : xinv m -> xinv (poke m).
Proof.
  intros X. apply (xinv_quiet m); [done| |done]. pose proof (xi_core _ X) as Hm.
  split; simpl; try done; auto; try apply Hm. intros c x' Hx. exists x'. auto 7.
Qed.

Lemma on_conn_poke c f m : on_conn c f (poke m) = poke (on_conn c f m).
Proof. done. Qed.

Lemma xinv_poke c x m : xinv m -> mx_heap m !! c = Some x -> xinv (Open_poke c m).
Proof.
  intros X Hc. unfold Open_poke. rewrite <- on_conn_poke.
  by apply (xinv_open_pc c x); [apply xinv_kick|done|].
Qed.

Lemma xinv_close_mark c m : xinv m -> xinv (conn_Close_mark c m).
Proof. intros X. by apply xinv_on_conn. Qed.

Lemma xinv_conn_close c m : xinv m -> xinv (conn_Close c m).
Proof.
  intros X. unfold conn_Close. destruct (mx_heap m !! c) as [x|]; [|done]. destruct (mc_closed x); [done|].
  by apply xinv_remove, xinv_close_mark.
Qed.

Lemma xinv_select w c m : xinv m -> xinv (default m (Open_select w c m)).
Proof.
  intros X. unfold Open_select. destruct (mx_heap m !! c) as [x|] eqn:E; [|done].
  destruct (mc_open x) eqn:Eo; try done. destruct w; simpl.
  - destruct (mc_ready x); [|done]. apply (xinv_open_pc c x); [done|done|congruence].
  - destruct (mc_failed x); [|done]. pose proof (su_heap _ _ (sub_remove c m (xi_core _ X))) as Hh.
    assert (Hs : mx_heap (snd (remove c m)) = mx_heap m) by (unfold remove; rewrite E; by case_bool_decide).
    apply (xinv_open_pc c x); [by apply xinv_remove|by rewrite Hs|congruence].
  - destruct (mc_closed x); [|done]. apply (xinv_open_pc c x); [done|done|congruence].
  - assert (exists y, mx_heap (conn_Close c m) !! c = Some y /\ mc_open y = OWait) as (y & Hy & Ho).
    { unfold conn_Close. rewrite E. destruct (mc_closed x); [by exists x|].
      assert (Hs : mx_heap (snd (remove c (conn_Close_mark c m))) = mx_heap (conn_Close_mark c m)).
      { unfold remove. destruct (mx_heap (conn_Close_mark c m) !! c); [|done]. by case_bool_decide. }
      rewrite Hs. unfold conn_Close_mark, on_conn. simpl. rewrite lookup_alter_eq, E. by eexists. }
    apply (xinv_open_pc c y); [by apply xinv_conn_close|done|congruence].
Qed.

Lemma xinv_receive w c m cl : xinv m -> xinv (xexec cl (XReceive w c) m).
Proof.
  intros X. cbn [xexec]. destruct (mx_heap m !! c) as [x|] eqn:E; [|done].
  destruct (receive_wait w x) as [[r x']|] eqn:Er; [|done].
  assert (Hx : mc_local x' = mc_local x /\ mc_stream x' = mc_stream x /\ mc_open x' = mc_open x /\
    forall sig, sig ∈ mc_inbox x' -> sig ∈ mc_inbox x).
  { unfold receive_wait, receive_poll in Er. destruct w.
    - destruct (mc_inbox x) eqn:Ei; [done|]. injection Er as _ <-. simpl. repeat split; try done. intros. by right.
    - destruct (mc_closed x); [|done]. by injection Er as _ <-.
    - destruct (mc_failed x); [|done]. by injection Er as _ <-.
    - by injection Er as _ <-. }
  destruct Hx as (H1 & H2 & H3 & H4). apply (xinv_quiet m); [done| |done]. pose proof (xi_core _ X) as Hm.
  split; simpl; try done; auto; try apply Hm.
  - intros d Hd. destruct (decide (c = d)) as [->|Hn]; [rewrite lookup_insert_eq; by eexists|by rewrite lookup_insert_ne].
  - intros d y. destruct (decide (c = d)) as [->|Hn].
    + rewrite lookup_insert_eq. intros [= <-]. exists x. rewrite H1, H2, H3. auto 7.
    + rewrite lookup_insert_ne by done. intros Hy. exists y. auto 6.
Qed.

Lemma xinv_mux_close m : xinv m -> xinv (Close_mark m).
Proof.
  intros X. unfold Close_mark. destruct (mx_closed m) eqn:E; [done|]. apply (xinv_quiet m); [done| |done].
  pose proof (xi_core _ X) as Hm. split; simpl; try done; auto.
  - apply map_empty_subseteq.
  - intros c x' Hx. exists x'. auto 6.
  - split; [by right|done].
Qed.

Lemma xinv_close_rest m : xinv m -> xinv (Close_rest m).
Proof.
  intros X. unfold Close_rest. destruct (mx_closing m) as [l|] eqn:E; [|done].
  pose proof (xi_core _ X) as Hm.
  assert (Hcl : mx_closed m = true) by (apply (co_closing _ Hm); right; by rewrite E).
  assert (S1 : sub m (m <| mx_cancelled := true |> <| mx_closing := None |>)).
  { split; simpl; try done; auto.
    - intros c x' Hx. exists x'. auto 6.
    - split; [by left|done]. }
  assert (X1 : xinv (m <| mx_cancelled := true |> <| mx_closing := None |>)) by (by apply (xinv_quiet m)).
  destruct (sub_each (fun _ x => x <| mc_closed := true |>) l _ (xi_core _ X1)) as (S2 & _ & Hr); [by intros c x|].
  by apply (xinv_quiet _ _ X1).
Qed.

Lemma xinv_open url_set ctx local m : xinv m -> xinv (snd (Open_register url_set ctx local m)).
Proof.
  intros X. pose proof X as [[C1 C2 C3 C4 C5 C6] X2 X3 X4 X5 X6].
  destruct url_set; [|done]. destruct ctx; [done|].
  destruct (mx_closed m) eqn:Ecl; [unfold Open_register; simpl; by rewrite Ecl|].
  destruct (mx_conns m !! local) eqn:El; [unfold Open_register; simpl; by rewrite Ecl, El|].
  set (m1 := m <| mx_fresh := S (mx_fresh m) |> <| mx_heap := <[mx_fresh m := new_conn local]> (mx_heap m) |>
               <| mx_conns := <[local := mx_fresh m]> (mx_conns m) |>).
  assert (Hnew : forall c x, mx_heap m !! c = Some x -> mx_heap m1 !! c = Some x).
  { intros c x Hx. simpl. rewrite lookup_insert_ne; [done|]. specialize (C2 c x Hx). lia. }
  assert (Hm1 : core m1).
  { split; simpl; try (rewrite Ecl; done).
    - intros id c. destruct (decide (local = id)) as [->|Hn].
      + rewrite lookup_insert_eq. intros [= <-]. rewrite lookup_insert_eq. by eexists.
      + rewrite lookup_insert_ne by done. intros Hc. destruct (C1 id c Hc) as (x & Hx & Hl). exists x. split; [|done]. by apply Hnew.
    - intros c x. destruct (decide (mx_fresh m = c)) as [->|Hn]; [lia|]. rewrite lookup_insert_ne by done.
      intros Hx. specialize (C2 c x Hx). lia.
    - intros c x. destruct (decide (mx_fresh m = c)) as [->|Hn]; [rewrite lookup_insert_eq; by intros [= <-]|].
      rewrite lookup_insert_ne by done. apply C3.
    - intros sid c sig Hr. destruct (C4 sid c sig Hr) as (x & Hx & Ht). exists x. split; [|done]. by apply Hnew. }
  assert (Hne : mx_conns m1 <> ∅) by (simpl; apply insert_non_empty).
  assert (Hj : forall sid P, joined sid P m -> joined sid P m1).
  { intros sid P Hj id c x. simpl. destruct (decide (local = id)) as [->|Hn].
    - rewrite lookup_insert_eq. intros [= <-]. rewrite lookup_insert_eq. intros [= <-]. right; right. by right.
    - rewrite lookup_insert_ne by done. intros Hc Hx. destruct (C1 id c Hc) as (y & Hy & _).
      assert (x = y) as -> by (apply Hnew in Hy; simpl in Hy; congruence). by apply (Hj id c y). }
  assert (Ho : snd (Open_register true None local m) =
    if mx_running m then m1 else m1 <| mx_running := true |> <| mx_pc := PTop 0 |>)
    by (unfold Open_register; rewrite Ecl, El; reflexivity).
  rewrite Ho. clear Ho. destruct (mx_running m) eqn:Er.
  - assert (Hr1 : mx_running m1 = true) by done. split; [done|by rewrite Hr1|done|done|done|].
    unfold waits in *. change (mx_pc m1) with (mx_pc m). destruct (mx_pc m); try done; [by apply Hj|].
    destruct X6 as [Hj' _]. split; [by apply Hj|done].
  - assert (Hpc : mx_pc m = PGone) by (destruct (mx_pc m); try done; discriminate (proj2 X2 ltac:(done))).
    split; try done.
    + destruct Hm1 as [D1 D2 D3 D4 D5 D6]. by split.
    + split; [done|]. intros Hr. apply X4 in Hr. by rewrite Hpc in Hr.
Qed.

(** ** The goroutine's steps *)

(** A change of the program counter and of flags [core] does not constrain. *)
Lemma core_same m m' :
  core m -> mx_conns m' = mx_conns m -> mx_heap m' = mx_heap m -> mx_fresh m' = mx_fresh m ->
  mx_closed m' = mx_closed m -> mx_cancelled m' = mx_cancelled m -> mx_closing m' = mx_closing m ->
  (forall sid c sig, mx_reader m' = RHand sid c sig -> mx_reader m = RHand sid c sig) -> core m'.
Proof.
  intros [C1 C2 C3 C4 C5 C6] H1 H2 H3 H4 H5 H6 H7.
  split; rewrite ?H1, ?H2, ?H3, ?H4, ?H5, ?H6; try done. intros sid c sig Hr. by apply (C4 sid), H7.
Qed.

Lemma cancelled_empty m : core m -> mx_cancelled m = true -> mx_conns m = ∅.
Proof. intros Hm Hc. apply (co_closed _ Hm), (co_closing _ Hm). by left. Qed.

Lemma xinv_session_end a est err m :
  core m -> mx_running m = true -> mx_reader m = RNone -> xinv (session_end a est err m).
Proof.
  intros Hm Hr Hn. unfold session_end. destruct (mx_cancelled m) eqn:Hc.
  - split; simpl; try done.
    + by apply (core_same m).
    + intros He. destruct He. by apply cancelled_empty.
  - destruct err; split; simpl; try done; by apply (core_same m).
Qed.

Lemma failAll_each err m :
  failAll err m = foldr (fun c => on_conn c (fail err)) (m <| mx_conns := ∅ |>) (map_to_list (mx_conns m)).*2.
Proof.
  unfold failAll. generalize (m <| mx_conns := ∅ |>) as b. intros b.
  induction (map_to_list (mx_conns m)) as [|p l IH]; [done|]. cbn [foldr fmap list_fmap]. by rewrite IH.
Qed.

Lemma core_emptied m : core m -> core (m <| mx_conns := ∅ |>).
Proof. intros [C1 C2 C3 C4 C5 C6]. by split. Qed.

Lemma xinv_connect_failed a c err m :
  core m -> mx_running m = true -> mx_reader m = RNone -> xinv (connect_failed a c err m).
Proof.
  intros Hm Hr Hn. unfold connect_failed.
  destruct (mx_cancelled m); [by apply xinv_session_end|].
  destruct (errIs err sse_ErrUnauthorized).
  { apply xinv_session_end.
    - by apply core_fail_remove.
    - by destruct (su_same _ _ (sub_fail_remove err c m Hm)) as (-> & _).
    - by rewrite fail_remove_reader. }
  destruct (errIs err sse_ErrPermanent); [|by apply xinv_session_end].
  rewrite failAll_each. destruct (sub_each (fun _ => fail err) (map_to_list (mx_conns m)).*2 _ (core_emptied m Hm))
    as (S & Hc & Hrd); [intros _; apply mild_fail|].
  apply xinv_session_end; [done| |by rewrite Hrd]. by destruct (su_same _ _ S) as (-> & _).
Qed.

Lemma xinv_hello a c e m :
  xinv m -> mx_pc m = PHello a c -> xinv (hello_event a c e m).
Proof.
  intros X Hpc. pose proof X as [Hm X2 X3 X4 X5 X6].
  assert (Hr : mx_running m = true) by (apply X2; by rewrite Hpc).
  assert (Hn : mx_reader m = RNone).
  { destruct (mx_reader m) eqn:E; [done|..]; exfalso; rewrite Hpc in X4; discriminate (proj2 X4 ltac:(done)). }
  assert (Hrefuse : forall msg, xinv (connect_failed a c (permanent msg) (m <| mx_rcv := false |>))).
  { intros msg. apply xinv_connect_failed; try done. by apply (core_same m). }
  unfold hello_event. case_bool_decide; [done|]. case_bool_decide; [|by case_bool_decide].
  destruct (decode_hello (ev_data e)) as [sid|]; [|done]. case_bool_decide; [done|].
  split; try done. by apply (core_same m).
Qed.

Lemma join_done_core sid c m : core m -> core (join_done sid c m).
Proof.
  intros Hm. unfold join_done. destruct (mx_heap m !! c) as [x|] eqn:E; [|done]. case_bool_decide; [|done].
  destruct Hm as [C1 C2 C3 C4 C5 C6].
  assert (Hl : forall d y, alter (fun x => x <| mc_stream := sid |> <| mc_ready := true |>) c (mx_heap m) !! d = Some y ->
    exists z, mx_heap m !! d = Some z /\ mc_local y = mc_local z /\ mc_inbox y = mc_inbox z).
  { intros d y. destruct (decide (c = d)) as [->|Hn]; [|rewrite lookup_alter_ne by done; by exists y].
    rewrite lookup_alter_eq. intros Hy. apply fmap_Some in Hy as (z & Hz & ->). by exists z. }
  assert (Hl' : forall d z, mx_heap m !! d = Some z -> exists y,
    alter (fun x => x <| mc_stream := sid |> <| mc_ready := true |>) c (mx_heap m) !! d = Some y /\ mc_local y = mc_local z).
  { intros d z Hz. destruct (decide (c = d)) as [->|Hn]; [|rewrite lookup_alter_ne by done; by exists z].
    rewrite lookup_alter_eq, Hz. by eexists. }
  split; try done; simpl.
  - intros id d Hd. destruct (C1 id d Hd) as (z & Hz & <-). by apply Hl'.
  - intros d y Hy. destruct (Hl d y Hy) as (z & Hz & _). by eapply C2.
  - intros d y Hy. destruct (Hl d y Hy) as (z & Hz & -> & ->). by eapply C3.
  - intros s d sig Hs. destruct (C4 s d sig Hs) as (z & Hz & ->). destruct (Hl' d z Hz) as (y & Hy & <-). by exists y.
Qed.

Lemma join_done_frame sid c m :
  mx_running (join_done sid c m) = mx_running m /\ mx_reader (join_done sid c m) = mx_reader m /\
  mx_conns (join_done sid c m) = mx_conns m /\ mx_stop (join_done sid c m) = mx_stop m /\
  mx_kick (join_done sid c m) = mx_kick m.
Proof. unfold join_done. destruct (mx_heap m !! c); [|done]. by case_bool_decide. Qed.

(** A join that succeeded leaves the others as they were. *)
Lemma join_done_joined sid c (P Q : nat -> Prop) m :
  core m -> joined sid P m -> (forall d, P d -> d = c \/ Q d) -> joined sid Q (join_done sid c m).
Proof.
  intros Hm Hj HP id d y Hd Hy. destruct (join_done_frame sid c m) as (_ & _ & Hc & _ & Hk). rewrite Hc in Hd.
  destruct (co_conns _ Hm id d Hd) as (z & Hz & Hid).
  destruct (decide (d = c)) as [->|Hn].
  - left. unfold join_done in Hy. rewrite Hz in Hy. subst id. rewrite bool_decide_eq_true_2 in Hy by done.
    revert Hy. unfold on_conn. simpl. rewrite lookup_alter_eq, Hz. by intros [= <-].
  - assert (Hy' : mx_heap m !! d = Some y).
    { revert Hy. unfold join_done. destruct (mx_heap m !! c); [|done]. case_bool_decide; [|done].
      unfold on_conn. simpl. by rewrite lookup_alter_ne. }
    destruct (Hj id d y Hd Hy') as [?|[Hp|[?|?]]]; [by left| |right; right; left; congruence|right; right; by right].
    destruct (HP d Hp); [done|right; by left].
Qed.

Lemma joined_weaken sid (P Q : nat -> Prop) m : joined sid P m -> (forall d, P d -> Q d) -> joined sid Q m.
Proof. intros Hj HP id d y Hd Hy. destruct (Hj id d y Hd Hy) as [?|[?|?]]; auto. Qed.

Lemma xinv_serving m : xinv m -> serving (mx_pc m) = true -> mx_running m = true /\ mx_reader m <> RNone.
Proof. intros X Hs. split; [|by apply (xi_reader _ X)]. apply (xi_run _ X). by destruct (mx_pc m). Qed.

(** A step that keeps the goroutine in a session and the connections as they are. *)
Lemma xinv_goto p m :
  xinv m -> serving (mx_pc m) = true -> serving p = true -> p <> PGone ->
  (forall a e, p = PEnd a e -> mx_stop m = true) -> waits (m <| mx_pc := p |>) -> xinv (m <| mx_pc := p |>).
Proof.
  intros X Hs Hp Hg He Hw. destruct (xinv_serving m X Hs) as [Hr Hn]. pose proof (xi_core _ X).
  split; simpl; try done; try (by split). by apply (core_same m).
Qed.

Lemma xinv_teardown p m :
  xinv m -> serving (mx_pc m) = true -> (exists a e, p = PEnd a e) -> xinv (teardown m <| mx_pc := p |>).
Proof.
  intros X Hs (a & e & ->). destruct (xinv_serving m X Hs) as [Hr Hn]. pose proof (xi_core _ X).
  split; simpl; try done; try (by split). by apply (core_same m).
Qed.

Lemma xinv_after_joins a sid j retry m :
  xinv m -> mx_pc m = PJoin a sid j [] retry -> xinv (after_joins a sid j retry m).
Proof.
  intros X Hpc. unfold after_joins. case_bool_decide as He.
  - apply xinv_teardown; [done|by rewrite Hpc|by eauto].
  - apply xinv_goto; try done; [by rewrite Hpc|]. pose proof (xi_waits _ X) as Hw. unfold waits in Hw.
    rewrite Hpc in Hw. split; [|done]. apply (joined_weaken _ _ _ m Hw). intros d [Hd|Hd]; [|done].
    by apply not_elem_of_nil in Hd.
Qed.

(** A connection that was failed is no longer listed. *)
Lemma fail_remove_gone id c e m : core m -> mx_conns (fail_remove e c m) !! id <> Some c.
Proof.
  intros Hm. unfold fail_remove, remove.
  assert (Hh : mx_heap (on_conn c (fail e) m) !! c = fail e <$> mx_heap m !! c) by apply lookup_alter_eq.
  rewrite Hh. destruct (mx_heap m !! c) as [x|] eqn:E; simpl.
  - destruct (mild_fail e x) as (-> & _). case_bool_decide as Hb; simpl; intros Hd.
    + destruct (decide (id = mc_local x)) as [->|Hni]; [by rewrite lookup_delete_eq in Hd|].
      rewrite lookup_delete_ne in Hd by done. destruct (co_conns _ Hm id c Hd) as (z & Hz & <-). congruence.
    + destruct (co_conns _ Hm id c Hd) as (z & Hz & <-). congruence.
  - intros Hd. destruct (co_conns _ Hm id c Hd) as (z & Hz & _). congruence.
Qed.

Lemma xinv_join a sid j c l todo retry r m :
  xinv m -> mx_pc m = PJoin a sid j ((c, l) :: todo) retry -> xinv (join_step a sid j c todo retry r m).
Proof.
  intros X Hpc. pose proof (xinv_serving m X ltac:(by rewrite Hpc)) as [Hr Hn].
  pose proof (xi_core _ X) as Hm. pose proof (xi_waits _ X) as Hw. unfold waits in Hw. rewrite Hpc in Hw.
  unfold join_step. destruct (join_result r) as [e|].
  - destruct (errIs e sse_errStreamGone); [apply xinv_teardown; [done|by rewrite Hpc|by eauto]|].
    destruct (mx_cancelled m) eqn:Ec.
    { apply xinv_goto; try done; [by rewrite Hpc|]. intros id d x Hd. simpl in Hd.
      by rewrite (cancelled_empty m Hm Ec), lookup_empty in Hd. }
    destruct (errIs e sse_ErrUnauthorized).
    + pose proof (sub_fail_remove e c m Hm) as S.
      assert (X' : xinv (fail_remove e c m)) by (apply (xinv_quiet m); [done|done|apply fail_remove_reader]).
      destruct (su_same _ _ S) as (S1 & S2 & _). apply xinv_goto; try done; [by rewrite S2, Hpc|].
      intros id d y Hd Hy. simpl in Hd, Hy.
      assert (Hne : d <> c).
      { intros ->. by apply (fail_remove_gone id c e m Hm). }
      destruct (joined_sub _ _ _ _ S Hw id d y Hd Hy) as [?|[[Hp|Hp]|?]]; auto.
      right; left. left. apply elem_of_cons in Hp as [->|]; done.
    + apply xinv_goto; try done; [by rewrite Hpc|]. intros id d y Hd Hy. right; left. by right.
  - destruct (join_done_frame sid c m) as (J1 & J2 & J3 & J4 & _). split; simpl; try done.
    + apply (core_same (join_done sid c m)); try done. by apply join_done_core.
    + by rewrite J1, Hr.
    + by rewrite J1.
    + by rewrite J2.
    + apply (join_done_joined sid c _ _ m Hm Hw). intros d [Hd|Hd]; [|by right; right].
      apply elem_of_cons in Hd as [->|]; auto.
Qed.

Lemma pending_joins_spec sid c x m id :
  mx_conns m !! id = Some c -> mx_heap m !! c = Some x -> mc_stream x <> sid -> c ∈ (pending_joins sid m).*1.
Proof.
  intros Hc Hx Hs. apply list_elem_of_fmap. exists (c, mc_lastID x). split; [done|]. unfold pending_joins.
  apply list_elem_of_omap. exists (id, c). split; [by apply elem_of_map_to_list|]. simpl. rewrite Hx.
  by rewrite bool_decide_eq_false_2.
Qed.

Lemma xinv_mstep i m m' : xinv m -> mstep i m = Some m' -> xinv m'.
Proof.
  intros X. pose proof (xi_core _ X) as Hm. pose proof (xi_waits _ X) as Hw. unfold waits in Hw. unfold mstep, keepRunning, pickAuth, connected.
  assert (Hout : serving (mx_pc m) = false -> mx_pc m <> PGone -> mx_running m = true /\ mx_reader m = RNone).
  { intros Hs Hg. split; [by apply (xi_run _ X)|]. destruct (mx_reader m) eqn:E; [done|..];
      (assert (serving (mx_pc m) = true) by (apply (xi_reader _ X); by rewrite E); congruence). }
  assert (Hpc : forall p, serving (mx_pc m) = false -> mx_pc m <> PGone -> serving p = false -> p <> PGone ->
    xinv (m <| mx_pc := p |>)).
  { intros p Hs Hg Hp Hg'. destruct (Hout Hs Hg) as [Hr Hn].
    split; simpl; rewrite ?Hr, ?Hn, ?Hp; try done; try naive_solver; [by apply (core_same m)|by destruct p]. }
  destruct (mx_pc m) as [a|a|a c|a c|a sid j|a sid j todo retry|a sid j armed|a e|a|] eqn:E;
    try (destruct todo as [|[d l] todo]); destruct i; try done.
  - destruct (Hout eq_refl ltac:(done)) as [Hr Hn]. intros [= <-].
    destruct (mx_closed m || bool_decide (mx_conns m = ∅)) eqn:Eb; [|by apply Hpc].
    assert (He : mx_conns m = ∅).
    { apply orb_true_iff in Eb as [Eb|Eb]; [by apply (co_closed _ Hm)|by apply bool_decide_eq_true in Eb]. }
    split; simpl; try done; try (by rewrite He); try (by rewrite Hn). by apply (core_same m).
  - destruct (Hout eq_refl ltac:(done)) as [Hr Hn]. case_bool_decide; [|done]. intros [= <-]. by apply xinv_session_end.
  - destruct (existsb _ _); [|done]. intros [= <-]. by apply Hpc.
  - destruct (Hout eq_refl ltac:(done)) as [Hr Hn]. destruct r as [w|e]; intros [= <-]; [|by apply xinv_connect_failed].
    destruct (mx_closed m) eqn:Ecl; [by apply xinv_connect_failed|]. destruct w.
    + apply xinv_connect_failed; try done. by apply (core_same m).
    + split; simpl; rewrite ?Hr, ?Hn; try done. by apply (core_same m).
  - destruct (Hout eq_refl ltac:(done)) as [Hr Hn]. destruct r as [ev|e]; intros [= <-]; [by apply xinv_hello|].
    apply xinv_connect_failed; try done. by apply (core_same m).
  - intros [= <-]. apply xinv_goto; try done; [by rewrite E|]. intros id c x Hc Hx.
    destruct (decide (mc_stream x = sid)); [by left|right; left; left]. by eapply pending_joins_spec.
  - intros [= <-]. by apply xinv_after_joins.
  - intros [= <-]. by eapply xinv_join.
  - destruct (mx_kick m) eqn:Ek; [|done]. intros [= <-].
    destruct (xinv_serving m X ltac:(by rewrite E)) as [Hr Hn].
    split; simpl; try done; try (by split). by apply (core_same m).
  - destruct armed; [|done]. intros [= <-]. apply xinv_goto; try done. by rewrite E.
  - destruct (mx_reader m) eqn:Er; try done. intros [= <-].
    destruct (xinv_serving m X ltac:(by rewrite E)) as [Hr Hn].
    apply xinv_session_end; try done. by apply (core_same m).
  - destruct (mx_cancelled m); [|done]. intros [= <-]. apply xinv_teardown; [done|by rewrite E|by eauto].
  - destruct (mx_reader m) eqn:Er; try done. intros [= <-].
    destruct (xinv_serving m X ltac:(by rewrite E)) as [Hr Hn].
    apply xinv_session_end; try done. by apply (core_same m).
  - destruct (mx_cancelled m); [|done]. intros [= <-]. by apply Hpc.
  - intros [= <-]. by apply Hpc.
Qed.

(** ** The reader's steps *)

Lemma xinv_reader r m :
  xinv m -> mx_reader m <> RNone -> r <> RNone ->
  (forall sid c sig, r = RHand sid c sig -> exists x, mx_heap m !! c = Some x /\ To sig = mc_local x) ->
  xinv (m <| mx_reader := r |>).
Proof.
  intros X Hn Hr Hh. pose proof X as [Hm X2 X3 X4 X5 X6].
  split; simpl; try done.
  - destruct Hm as [C1 C2 C3 C4 C5 C6]. by split.
  - rewrite X4. by split.
Qed.

Lemma xinv_read_signal sid id data m :
  xinv m -> mx_reader m = RRead sid -> xinv (read_signal sid id data m).
Proof.
  intros X Hr. unfold read_signal. destruct (unmarshal_signal data) as [sig|]; [|done].
  destruct (mx_conns m !! To sig) as [c|] eqn:Ec; [|done].
  destruct (co_conns _ (xi_core _ X) _ _ Ec) as (x & Hx & Hl).
  assert (Hgo : forall m', xinv m' -> mx_reader m' = RRead sid ->
    (exists y, mx_heap m' !! c = Some y /\ To sig = mc_local y) -> xinv (m' <| mx_reader := RHand sid c sig |>)).
  { intros m' X' Hr' Hy. apply xinv_reader; try done; [by rewrite Hr'|]. by intros ? ? ? [= -> <- <-]. }
  cbv zeta. case_bool_decide; [apply Hgo; eauto|]. destruct (ParseUint id) as [n|]; [|apply Hgo; eauto].
  apply Hgo; [by apply xinv_on_conn|done|]. unfold on_conn. simpl. rewrite lookup_alter_eq, Hx. by eexists.
Qed.

Lemma xinv_fail_remove e c m : xinv m -> xinv (fail_remove e c m).
Proof. intros X. unfold fail_remove. apply xinv_remove, xinv_on_conn; [done|apply mild_fail]. Qed.

Lemma xinv_rstep cl i m m' : xinv m -> rstep cl i m = Some m' -> xinv m'.
Proof.
  intros X. unfold rstep. destruct (mx_reader m) as [|sid|sid c sig|e] eqn:Er; try by destruct i.
  - destruct i as [[ev|e]| | | |]; try done; intros [= <-]; [|by apply xinv_reader; try done; rewrite Er].
    case_bool_decide; [by apply xinv_read_signal|]. case_bool_decide.
    { unfold read_detached. destruct (decode_detached _) as [[peer ?]|]; [|done].
      destruct (mx_conns m !! peer) as [c|]; [|done]. destruct (mx_heap m !! c); [|done].
      case_bool_decide; [by apply xinv_fail_remove|done]. }
    case_bool_decide; [by apply xinv_reader; try done; rewrite Er|].
    case_bool_decide; [by apply xinv_reader; try done; rewrite Er|done].
  - destruct (co_hand _ (xi_core _ X) _ _ _ Er) as (x & Hx & Ht). rewrite Hx.
    destruct i; try done.
    + destruct (zlen (mc_inbox x) <? inbox_size cl); [|done]. intros Hs. apply Some_inj in Hs. rewrite <- Hs.
      apply xinv_reader; [|change (mx_reader m <> RNone); by rewrite Er|done|done].
      apply (xinv_quiet m); [done| |done]. pose proof (xi_core _ X) as Hm. split; try done; auto; try apply Hm.
      * intros d [y Hd]. unfold on_conn. simpl. destruct (decide (c = d)) as [->|Hn].
        -- rewrite lookup_alter_eq, Hd. by eexists.
        -- rewrite lookup_alter_ne by done. by eexists.
      * intros d y. unfold on_conn. simpl. destruct (decide (c = d)) as [->|Hn].
        -- rewrite lookup_alter_eq, Hx. intros [= <-]. exists x. simpl. repeat split; auto.
           intros s [Hin|Hin%list_elem_of_singleton]%elem_of_app; [by left|right; congruence].
        -- rewrite lookup_alter_ne by done. intros Hy. exists y. auto 6.
    + destruct (mc_closed x); [|done]. intros [= <-]. by apply xinv_reader; try done; rewrite Er.
    + destruct (mc_failed x); [|done]. intros [= <-]. by apply xinv_reader; try done; rewrite Er.
    + destruct (mx_stop m); [|done]. intros [= <-]. by apply xinv_reader; try done; rewrite Er.
Qed.

Lemma xexec_inv cl o m : xinv m -> xinv (xexec cl o m).
Proof.
  intros X. destruct o as [u ctx l|c|w c|c|c|w c| | |i|i].
  - by apply xinv_open.
  - cbn [xexec]. destruct (mx_heap m !! c) as [x|] eqn:E; [|done]. destruct (mc_open x); try done. by apply (xinv_poke c x).
  - by apply xinv_select.
  - by apply xinv_close_mark.
  - cbn [xexec]. destruct (mx_heap m !! c) as [x|]; [|done]. destruct (mc_closed x); [|done]. by apply xinv_remove.
  - by apply xinv_receive.
  - by apply xinv_mux_close.
  - by apply xinv_close_rest.
  - cbn [xexec]. destruct (mstep i m) as [m'|] eqn:E; [|done]. by eapply xinv_mstep.
  - cbn [xexec]. destruct (rstep cl i m) as [m'|] eqn:E; [|done]. by eapply xinv_rstep.
Qed.

Lemma xrun_inv cl os : xinv (xrun cl os).
Proof.
  unfold xrun. assert (Hg : forall m, xinv m -> xinv (fold_left (fun m o => xexec cl o m) os m)).
  { induction os as [|o os IH]; intros m X; [done|]. apply IH. by apply xexec_inv. }
  apply Hg, xinv_new.
Qed.


(** ** Runs computed *)

Module MuxDemo.
Definition cl : Client := {|
  URL := "http://localhost/pipe"; Token := "secret"; Authorize := None;
  ClientBackoff := {| Config.Initial := 0; Config.Maximum := 0; Config.Factor := Floats.f_zero; Config.Jitter := Floats.f_zero |};
  Inbox := 1 |}.

Definition data (z : Z) : bytes :=
  match newSignal (replicate 16 (byte_of z)) KindReject "carol" "alice" "fedcba9876543210fedcba9876543210"
          (Some (PReject {| jp_Code := RejectBusy; jp_Reason := "full" |})) with
  | Ok sig => match marshal_signal sig with Ok raw => raw | Err _ => [] end
  | Err _ => []
  end.

Definition event_of (m : message) : result receive_error event := Ok (render (fun _ => true) m).
Definition answer (code : Z) : result error response := Ok {| resp_code := code; resp_body := [] |}.

(** Alice is joined to the stream and has received one signal; her inbox is full when a
    second one arrives. *)
Definition full : list xop :=
  [XOpen true None "alice"; XPoke 0; XMain MGo; XMain (MPick 0); XMain (MReceiver (Ok false));
   XMain (MEvent (event_of (MMux "s1"))); XMain MGo; XMain (MResponse (answer 204)); XMain MGo; XSelect OpenReady 0;
   XMain MKick; XMain MGo; XMain MGo;
   XReader (REvent (event_of (MSignal 1 (data 1)))); XReader RRoom; XReader (REvent (event_of (MSignal 2 (data 2))))].

(** Bob opens; the server does not know the stream any more. *)
Definition dropped : list xop :=
  full ++ [XOpen true None "bob"; XPoke 1; XMain MKick; XMain MGo; XMain (MResponse (answer 404)); XReader RStop].

(** The server, or a proxy, refuses the method of a join. *)
Definition refused : list xop :=
  [XOpen true None "alice"; XPoke 0; XMain MGo; XMain (MPick 0); XMain (MReceiver (Ok false));
   XMain (MEvent (event_of (MMux "s1"))); XMain MGo; XMain (MResponse (answer 405)); XMain MGo].
End MuxDemo.

(** [read] records the event ID before the signal is in the inbox: when the stream is torn
    down while the inbox is full, the signal is gone, and the next join resumes after it. *)
Example signal_dropped_on_teardown :
  let m := xrun MuxDemo.cl MuxDemo.dropped in
  mx_reader m = RDone None /\
  (fun x => (zlen (mc_inbox x), mc_lastID x)) <$> mx_heap m !! 0%nat = Some (1, 2).
Proof. vm_compute. split; reflexivity. Qed.

(** [join] marks a refused method as permanent, but [joinPending] only stops for
    [ErrUnauthorized]: the join is retried forever and [Open] keeps waiting. *)
Example permanent_join_retried :
  let m := xrun MuxDemo.cl MuxDemo.refused in
  (match mx_pc m with PSelect _ _ _ armed => armed | _ => false end) = true /\
  (fun x => mc_failed x) <$> mx_heap m !! 0%nat = Some false.
Proof. vm_compute. split; reflexivity. Qed.
