(* ===== verification/Signaling.v ===== *)
(** * Signaling transports and test programs over them (signaling.go)

    [Signaler] is what the endpoint asks of a transport: the operations of
    [pipe.Signaler] and [pipe.SignalConn], each a call that takes steps on the transport's
    state, so that calls of several goroutines interleave, block and race. A test is an
    interaction tree over these operations and what the [testing] package and the runtime
    offer: goroutines, contexts, channels, timers. [moves] is every next state of a test
    in progress, [eventually] what happens on all its schedules. *)

From Stdlib Require Import String.
From ITree Require Import Core.ITreeDefinition Indexed.Sum.
From S2P Require Import Prelude.
From S2P Require Import Errors.
From S2P Require Import Json.
From S2P Require Import Signal.

#[export] Instance itree_ret {E} : MRet (itree E) := fun A a => Ret a.
#[export] Instance itree_bind {E} : MBind (itree E) := fun A B k t => ITree.bind t k.

(** ** The interface *)

(** A context: when it expires, and the cancel function that ends it. *)
Record ctx := { x_deadline : option Z; x_token : option nat }.

Definition background : ctx := {| x_deadline := None; x_token := None |}.

(** The methods of [Signaler] and [SignalConn], by what they return. *)
Variant signalE (C : Type) : Type -> Type :=
| Open (x : ctx) (local : string) : signalE C (result error C)
| Send (x : ctx) (c : C) (msg : Signal) : signalE C (option error)
| Receive (x : ctx) (c : C) : signalE C (result error Signal)
| Close (c : C) : signalE C (option error).

Arguments Open {C}. Arguments Send {C}. Arguments Receive {C}. Arguments Close {C}.

(** The context a call waits under. *)
Definition call_ctx {C R} (o : signalE C R) : ctx :=
  match o with Open x _ | Send x _ _ | Receive x _ => x | Close _ => background end.

(** A transport with state [T] and connections [C]. A call begins, and each of its steps
    is one of the cases that are ready: it returns, or goes on. [sg_moves] gets the error
    of the call's context, if that is done; no case means the call is blocked. *)
Class Signaler (T C : Type) := {
  sg_call : Type -> Type;
  sg_begin : forall R, signalE C R -> sg_call R;
  sg_moves : forall R, option error -> sg_call R -> T -> list ((R + sg_call R) * T)
}.

Arguments sg_begin {T C _ R}. Arguments sg_moves {T C _ R}.

(** ** Test programs *)

(** What goroutines send each other. *)
Inductive msg := VSeen (seen : gmap string Z) | VErr (e : option error) | VCount (n : Z).

(** The runtime and [testing.T]. [Go] returns true in the new goroutine, false in the one
    that started it. [Get] receives from a channel: [None] when it is closed and drained,
    or [after] has passed. [Fatal], [Skip] and [Panic] do not return. *)
Variant runE (C : Type) : Type -> Type :=
| RandID : runE C string
| Now : runE C Z
| WithCancel : runE C nat
| Cancel (tok : nat) : runE C unit
| Sleep (d : Z) : runE C unit
| Go : runE C bool
| Make (cap : nat) : runE C nat
| Put (ch : nat) (v : msg) : runE C unit
| Get (ch : nat) (after : option Z) : runE C (option msg)
| CloseChan (ch : nat) : runE C unit
| WgAdd (n : Z) : runE C unit
| WgWait : runE C unit
| Errorf : runE C unit
| Fatal : runE C Empty_set
| Skip : runE C Empty_set
| Panic : runE C Empty_set
| Cleanup (c : C) : runE C unit.

Arguments RandID {C}. Arguments Now {C}. Arguments WithCancel {C}. Arguments Cancel {C}. Arguments Sleep {C}.
Arguments Go {C}. Arguments Make {C}. Arguments Put {C}. Arguments Get {C}. Arguments CloseChan {C}.
Arguments WgAdd {C}. Arguments WgWait {C}. Arguments Errorf {C}. Arguments Fatal {C}. Arguments Skip {C}.
Arguments Panic {C}. Arguments Cleanup {C}.

Abbreviation prog C := (itree (signalE C +' runE C)).

Definition do {C R} (o : signalE C R) : prog C R := ITree.trigger (inl1 o).
Definition run {C R} (o : runE C R) : prog C R := ITree.trigger (inr1 o).

(** [t.Fatalf] and the like, in place of a result. *)
Definition stop {C A} (o : runE C Empty_set) : prog C A := v ← run o; match v : Empty_set with end.

(** [context.WithTimeout]. *)
Definition WithTimeout {C} (d : Z) : prog C ctx :=
  now ← run Now; mret {| x_deadline := Some (now + d); x_token := None |}.

(** ** A test in progress *)

Record chan := { ch_cap : nat; ch_buf : list msg; ch_closed : bool }.

#[export] Instance chan_eta : Eta chan := fun c => {|
  ch_cap := ch_cap c; ch_buf := ch_buf c; ch_closed := ch_closed c |}.

Section world.
Context {T C : Type} `{Signaler T C}.

(** A goroutine: about to act, in a call of the transport, asleep, or receiving. *)
Inductive thread : Type :=
| Idle (t : itree' (signalE C +' runE C) unit)
| InCall {R} (x : ctx) (c : sg_call R) (next : R -> prog C unit)
| Asleep (until : Z) (next : prog C unit)
| Getting (ch : nat) (until : option Z) (next : option msg -> prog C unit).

(** The first goroutine runs the test function, and the cleanups after it. *)
Record world := {
  w_sig : T;
  w_now : Z;
  w_rand : nat -> bytes; w_draws : nat;
  w_tokens : nat; w_cancelled : list nat;
  w_chans : list chan;
  w_wg : Z;
  w_failed : bool; w_panicked : bool;
  w_cleanup : list C;
  w_threads : list thread
}.

#[export] Instance world_eta : Eta world := fun w => {|
  w_sig := w_sig w; w_now := w_now w; w_rand := w_rand w; w_draws := w_draws w; w_tokens := w_tokens w;
  w_cancelled := w_cancelled w; w_chans := w_chans w; w_wg := w_wg w; w_failed := w_failed w;
  w_panicked := w_panicked w; w_cleanup := w_cleanup w; w_threads := w_threads w |}.

Definition start_test (s : T) (rand : nat -> bytes) (t : prog C unit) : world := {|
  w_sig := s; w_now := 0; w_rand := rand; w_draws := 0; w_tokens := 0; w_cancelled := []; w_chans := []; w_wg := 0;
  w_failed := false; w_panicked := false; w_cleanup := []; w_threads := [Idle (observe t)] |}.

(** [ctx.Err]. *)
Definition ctx_err (x : ctx) (w : world) : option error :=
  if match x_token x with Some tok => bool_decide (tok ∈ w_cancelled w) | None => false end
  then Some (ESent context_Canceled)
  else match x_deadline x with
       | Some d => if d <=? w_now w then Some (ESent context_DeadlineExceeded) else None
       | None => None
       end.

Definition set_thread (i : nat) (th : thread) (w : world) : world := w <| w_threads := <[i := th]> (w_threads w) |>.
Definition resume (i : nat) (t : prog C unit) : world -> world := set_thread i (Idle (observe t)).

(** The goroutine leaves its function. *)
Definition exit_thread (i : nat) : world -> world := resume i (mret tt).

(** Sending on a channel, while there is room. *)
Definition put (ch : nat) (v : msg) (w : world) : list world :=
  match w_chans w !! ch with
  | Some c =>
    if ch_closed c then [w <| w_panicked := true |>]
    else if (length (ch_buf c) <? ch_cap c)%nat
         then [w <| w_chans := <[ch := c <| ch_buf := ch_buf c ++ [v] |>]> (w_chans w) |>] else []
  | None => []
  end.

(** Receiving from a channel, when there is something to receive. *)
Definition get (ch : nat) (w : world) : list (option msg * world) :=
  match w_chans w !! ch with
  | Some c =>
    match ch_buf c with
    | v :: rest => [(Some v, w <| w_chans := <[ch := c <| ch_buf := rest |>]> (w_chans w) |>)]
    | [] => if ch_closed c then [(None, w)] else []
    end
  | None => []
  end.

Definition run_moves (i : nat) {R} (o : runE C R) : (R -> prog C unit) -> world -> list world :=
  match o in runE _ R return (R -> prog C unit) -> world -> list world with
  | RandID => fun k w => [resume i (k (NewID (w_rand w (w_draws w)))) (w <| w_draws := S (w_draws w) |>)]
  | Now => fun k w => [resume i (k (w_now w)) w]
  | WithCancel => fun k w => [resume i (k (w_tokens w)) (w <| w_tokens := S (w_tokens w) |>)]
  | Cancel tok => fun k w => [resume i (k tt) (w <| w_cancelled := tok :: w_cancelled w |>)]
  | Sleep d => fun k w => [set_thread i (Asleep (w_now w + d) (k tt)) w]
  | Go => fun k w => [resume i (k false) (w <| w_threads := w_threads w ++ [Idle (observe (k true))] |>)]
  | Make cap => fun k w =>
    [resume i (k (length (w_chans w)))
       (w <| w_chans := w_chans w ++ [{| ch_cap := cap; ch_buf := []; ch_closed := false |}] |>)]
  | Put ch v => fun k w => resume i (k tt) <$> put ch v w
  | Get ch after => fun k w => [set_thread i (Getting ch (Z.add (w_now w) <$> after) k) w]
  | CloseChan ch => fun k w =>
    [resume i (k tt) (w <| w_chans := alter (fun c => c <| ch_closed := true |>) ch (w_chans w) |>)]
  | WgAdd n => fun k w => [resume i (k tt) (w <| w_wg := w_wg w + n |>)]
  | WgWait => fun k w => if w_wg w =? 0 then [resume i (k tt) w] else []
  | Errorf => fun k w => [resume i (k tt) (w <| w_failed := true |>)]
  | Fatal => fun k w => [exit_thread i (w <| w_failed := true |>)]
  | Skip => fun k w => [exit_thread i w]
  | Panic => fun k w => [w <| w_panicked := true |>]
  | Cleanup c => fun k w => [resume i (k tt) (w <| w_cleanup := c :: w_cleanup w |>)]
  end.

Definition idle_moves (i : nat) (t : itree' (signalE C +' runE C) unit) (w : world) : list world :=
  match t with
  | RetF _ =>
    match i, w_cleanup w with
    | O, c :: rest =>
      [set_thread i (InCall background (sg_begin (Close c)) (fun _ => mret tt)) (w <| w_cleanup := rest |>)]
    | _, _ => []
    end
  | TauF t => [resume i t w]
  | VisF e k =>
    match e with
    | inl1 o => [set_thread i (InCall (call_ctx o) (sg_begin o) k) w]
    | inr1 o => run_moves i o k w
    end
  end.

Definition after_call (i : nat) {R} (x : ctx) (k : R -> prog C unit) (w : world) (p : (R + sg_call R) * T) : world :=
  let w := w <| w_sig := p.2 |> in
  match p.1 with inl r => resume i (k r) w | inr c => set_thread i (InCall x c k) w end.

Definition thread_moves (w : world) (i : nat) (th : thread) : list world :=
  match th with
  | Idle t => idle_moves i t w
  | InCall x c k => after_call i x k w <$> sg_moves (ctx_err x w) c (w_sig w)
  | Asleep until k => if until <=? w_now w then [resume i k w] else []
  | Getting ch until k =>
    ((fun p => resume i (k p.1) p.2) <$> get ch w) ++
    match until with Some d => if d <=? w_now w then [resume i (k None) w] else [] | None => [] end
  end.

(** The timers the goroutines wait on. *)
Definition thread_timer (th : thread) : option Z :=
  match th with
  | Idle _ => None
  | InCall x _ _ => x_deadline x
  | Asleep until _ => Some until
  | Getting _ until _ => until
  end.

Definition timers (w : world) : list Z := filter (fun d => w_now w < d) (omap thread_timer (w_threads w)).

(** The next states. Computing takes no time: it passes to the next timer when every
    goroutine is blocked, as in a [testing/synctest] bubble. *)
Definition moves (w : world) : list world :=
  if w_panicked w then []
  else match mjoin (imap (thread_moves w) (w_threads w)) with
       | [] => match timers w with d :: ds => [w <| w_now := foldr Z.min d ds |>] | [] => [] end
       | l => l
       end.

(** The verdict, once the test function and the cleanups have returned or the process died. *)
Definition verdict (w : world) : option bool :=
  if w_panicked w then Some false
  else match w_threads w, w_cleanup w with
       | Idle (RetF _) :: _, [] => Some (negb (w_failed w))
       | _, _ => None
       end.

(** The schedule that always takes the first move. *)
Fixpoint first_run (fuel : nat) (w : world) : option bool :=
  match fuel, verdict w with
  | _, Some b => Some b
  | S fuel, None => match moves w with w' :: _ => first_run fuel w' | [] => None end
  | O, None => None
  end.
End world.

(** ** All schedules *)

(** On every schedule the system reaches [P], and no schedule gets stuck before. *)
Inductive eventually {A} (next : A -> list A) (P : A -> Prop) (a : A) : Prop :=
| ev_now : P a -> eventually next P a
| ev_next : next a <> [] -> (forall b, b ∈ next a -> eventually next P b) -> eventually next P a.

(** One schedule: each state is a move of the one before. *)
Inductive schedule {A} (next : A -> list A) : A -> list A -> Prop :=
| sch_nil a : schedule next a []
| sch_cons a b l : b ∈ next a -> schedule next b l -> schedule next a (b :: l).

Lemma ev_one {A} (next : A -> list A) P a b : next a = [b] -> eventually next P b -> eventually next P a.
Proof. intros E I. apply ev_next; rewrite E; [done|]. by intros ? ->%list_elem_of_singleton. Qed.

Lemma ev_trans {A} (next : A -> list A) (P Q : A -> Prop) a :
  eventually next P a -> (forall b, P b -> eventually next Q b) -> eventually next Q a.
Proof. induction 1 as [a Ha|a Hn _ IH]; intros HQ; [auto|]. apply ev_next; auto. Qed.

(** An invariant with a measure that every move decreases. *)
Lemma ev_measure {A} (next : A -> list A) (P : A -> Prop) (I : nat -> A -> Prop) :
  (forall m a, I m a -> P a \/ (next a <> [] /\ forall b, b ∈ next a -> exists m', (m' < m)%nat /\ I m' b)) ->
  forall m a, I m a -> eventually next P a.
Proof.
  intros Hstep m. induction m as [m IH] using lt_wf_ind. intros a Ia.
  destruct (Hstep m a Ia) as [|[Hn Hb]]; [by apply ev_now|]. apply ev_next; [done|].
  intros b Hin. destruct (Hb b Hin) as (m' & L & Ib). by apply (IH m').
Qed.

(** What holds eventually is met by every schedule that goes on long enough: a schedule
    that has not met it can be extended, and none goes on forever. *)
Lemma ev_schedules {A} (next : A -> list A) (P : A -> Prop) a :
  eventually next P a ->
  forall l, schedule next a l -> Exists P (a :: l) \/ next (default a (last l)) <> [].
Proof.
  induction 1 as [a Ha|a Hn Hb IH]; intros l Hl; [left; by constructor|].
  destruct Hl as [|a b l Hin Hl]; [by right|]. destruct (IH b Hin l Hl) as [E|E].
  - left. by apply Exists_cons_tl.
  - right. destruct l as [|c l]; [done|]. rewrite last_cons_cons, last_cons. rewrite last_cons in E.
    by destruct (last l).
Qed.
