(* ===== verification/Conformance.v ===== *)
(** * The conformance suite for transports (signaling/signalertest/signalertest.go)

    Every subtest is a program over the operations of a transport and of the runtime
    ([Signaling]); the connections are whatever the transport has. [Run] lists the
    subtests in the order in which they run, each on a signaler of its own. *)

From Stdlib Require Import String.
From ITree Require Import Core.ITreeDefinition Indexed.Sum.
From S2P Require Import Prelude.
From S2P Require Import Errors.
From S2P Require Import Json.
From S2P Require Import JsonCodec.
From S2P Require Import JsonAny.
From S2P Require Import Stream.
From S2P Require Import Signal.
From S2P Require Import Signaling.

Definition waitFor : Z := 10 * second.

(** [NewSignaler] is an argument of [Run]. *)
Record Config := { RejectsDuplicatePeers : bool; ReportsUnavailablePeer : bool; MaxPayload : Z }.

(** Text with its line ends: [CR LF]. *)
Definition crlf : string := String (byte_of 13) (String (byte_of 10) EmptyString).
Definition line (s : string) : string := (s +:+ crlf)%string.

(** A quoted name or text without special characters. *)
Definition quoted (s : string) : bytes := quote :: list_ascii_of_string s ++ [quote].

Definition sdpPayload (sdp : string) : bytes := json_object [printed (str_member "sdp" sdp)].

(** [strings.Repeat]; a negative count panics. *)
Definition Repeat (s : string) (count : Z) : option string :=
  if count <? 0 then None else Some (String.concat "" (repeat s (Z.to_nat count))).

Section suite.
Context {C : Type}.

Abbreviation test := (prog C).

(** ** Helpers *)

Definition newID : test string := run RandID.

Definition Signal (from to session kind : string) (payload : bytes) : test Signal.Signal :=
  id ← newID;
  mret {| Version := ProtocolVersion; ID := id; SessionID := session; Kind := kind; From := from; To := to;
          Payload := payload |}.

Definition Offer (from to session sdp : string) : test Signal.Signal :=
  Signal from to session KindOffer (sdpPayload sdp).

Definition Answer (from to session sdp : string) : test Signal.Signal :=
  Signal from to session KindAnswer (sdpPayload sdp).

Definition open (id : string) : test C :=
  x ← WithTimeout waitFor;
  r ← do (Open x id);
  match r with
  | Err _ => stop Fatal
  | Ok conn => run (Cleanup conn);; mret conn
  end.

Definition send (c : C) (sig : Signal.Signal) : test unit :=
  x ← WithTimeout waitFor;
  err ← do (Send x c sig);
  match err with Some _ => stop Fatal | None => mret tt end.

Definition receive (c : C) : test Signal.Signal :=
  x ← WithTimeout waitFor;
  r ← do (Receive x c);
  match r with Err _ => stop Fatal | Ok sig => mret sig end.

(** [if bad { t.Fatal }], [if bad { t.Error }]. *)
Definition fatal_if (bad : bool) : test unit := if bad then stop Fatal else mret tt.
Definition error_if (bad : bool) : test unit := if bad then run Errorf else mret tt.

(** A loop over a slice. *)
Fixpoint for_each {A} (l : list A) (body : A -> test unit) : test unit :=
  match l with [] => mret tt | a :: l => body a;; for_each l body end.

Definition same (a b : string) : bool := bool_decide (a = b).

(** ** The subtests *)

Definition testRoundTrip (cfg : Config) : test unit :=
  a ← open "alice";
  b ← open "bob";
  session ← newID;
  sent ← Offer "alice" "bob" session (line "v=0" +:+ line "o=- 1 1 IN IP4 0.0.0.0");
  send a sent;;
  got ← receive b;
  fatal_if (negb (same (ID got) (ID sent)) || negb (same (Kind got) (Kind sent))).

Definition candidateJSON : bytes :=
  list_ascii_of_string "{" ++ quoted "candidate" ++ list_ascii_of_string ":" ++
  quoted "candidate:1 1 udp 2130706431 203.0.113.1 8000 typ host" ++ list_ascii_of_string "," ++
  quoted "sdp_mid" ++ list_ascii_of_string ":" ++ quoted "0" ++ list_ascii_of_string "," ++
  quoted "sdp_mline_index" ++ list_ascii_of_string ":0}".

(** One signal of [testEnvelopeSurvives]: sent, received and compared. *)
Definition survives (a b : C) (sent : Signal.Signal) : test unit :=
  send a sent;;
  got ← receive b;
  error_if (negb (Version got =? Version sent));;
  error_if (negb (same (ID got) (ID sent)));;
  error_if (negb (same (SessionID got) (SessionID sent)));;
  error_if (negb (same (Kind got) (Kind sent)));;
  error_if (negb (same (From got) (From sent)) || negb (same (To got) (To sent)));;
  error_if (negb (sameJSON (Payload got) (Payload sent)));;
  error_if (match Validate got with Some _ => true | None => false end).

Definition testEnvelopeSurvives (cfg : Config) : test unit :=
  a ← open "alice";
  b ← open "bob";
  session1 ← newID;
  sent1 ← Offer "alice" "bob" session1 (line "v=0" +:+ line "s=-");
  session2 ← newID;
  sent2 ← Signal "alice" "bob" session2 KindICEComplete [];
  session3 ← newID;
  sent3 ← Signal "alice" "bob" session3 KindCandidate candidateJSON;
  for_each [sent1; sent2; sent3] (survives a b).

Definition testLargePayload (cfg : Config) : test unit :=
  a ← open "alice";
  b ← open "bob";
  match Repeat (line "a=x") (Z.quot (MaxPayload cfg - 64) 5) with
  | None => stop Panic
  | Some body =>
    session ← newID;
    sent ← Offer "alice" "bob" session (line "v=0" +:+ body);
    send a sent;;
    got ← receive b;
    fatal_if (negb (sameJSON (Payload got) (Payload sent)))
  end.

Definition testBidirectional (cfg : Config) : test unit :=
  a ← open "alice";
  b ← open "bob";
  session ← newID;
  offer ← Offer "alice" "bob" session (line "v=0" +:+ line "offer");
  send a offer;;
  got ← receive b;
  fatal_if (negb (same (Kind got) KindOffer));;
  answer ← Answer "bob" "alice" session (line "v=0" +:+ line "answer");
  send b answer;;
  got ← receive a;
  fatal_if (negb (same (Kind got) KindAnswer)).

Definition testIsolation (cfg : Config) : test unit :=
  a ← open "alice";
  b ← open "bob";
  c ← open "carol";
  session ← newID;
  sig ← Signal "alice" "bob" session KindICEComplete [];
  send a sig;;
  receive b;;
  x ← WithTimeout (200 * millisecond);
  r ← do (Receive x c);
  match r with
  | Ok _ => stop Fatal
  | Err err => fatal_if (negb (errIs err context_DeadlineExceeded))
  end.

(** The reading goroutine of [testNoLoss] and [testConcurrentSenders]: until it has seen
    [count] IDs, or an error. *)
Definition collect_body (count : nat) (b : C) (x : ctx) (seen : gmap string Z) : test (gmap string Z + gmap string Z) :=
  if (size seen <? count)%nat then
    r ← do (Receive x b);
    match r with
    | Err _ => mret (inr seen)
    | Ok sig => mret (inl (<[ID sig := default 0 (seen !! ID sig) + 1]> seen))
    end
  else mret (inr seen).

Definition collect (count : nat) (b : C) (x : ctx) : test (gmap string Z) := ITree.iter (collect_body count b x) ∅.

(** [ids] filled with [count] more. *)
Fixpoint newIDs (count : nat) (ids : list string) : test (list string) :=
  match count with
  | O => mret ids
  | S n => id ← newID; newIDs n (ids ++ [id])
  end.

Definition iceComplete (id session : string) : Signal.Signal := {|
  Version := ProtocolVersion; ID := id; SessionID := session; Kind := KindICEComplete;
  From := "alice"; To := "bob"; Payload := [] |}.

(** [want] is the set of [ids]. *)
Definition no_loss (count : nat) : test unit :=
  a ← open "alice";
  b ← open "bob";
  ids ← newIDs count [];
  done ← run (Make 1);
  child ← run Go;
  if child : bool then
    x ← WithTimeout waitFor;
    seen ← collect count b x;
    run (Put done (VSeen seen))
  else
    for_each ids (fun id => session ← newID; send a (iceComplete id session));;
    v ← run (Get done None);
    match v with
    | Some (VSeen seen) => fatal_if (existsb (fun id => default 0 (seen !! id) =? 0) ids)
    | _ => mret tt
    end.

Definition testNoLoss (cfg : Config) : test unit := no_loss 200.

(** What sender [w] does: [each] signals, unless one fails. *)
Fixpoint sender (each : nat) (a : C) (x : ctx) (errs : nat) : test unit :=
  match each with
  | O => mret tt
  | S each =>
    session ← newID;
    sig ← Signal "alice" "bob" session KindICEComplete [];
    err ← do (Send x a sig);
    match err with
    | Some e => run (Put errs (VErr (Some e)))
    | None => sender each a x errs
    end
  end.

Fixpoint spawn (senders each : nat) (a : C) (x : ctx) (errs : nat) : test bool :=
  match senders with
  | O => mret true
  | S n =>
    run (WgAdd 1);;
    child ← run Go;
    if child : bool then sender each a x errs;; run (WgAdd (-1));; mret false
    else spawn n each a x errs
  end.

(** [for err := range errs]. *)
Definition drain_errors (errs : nat) : test unit :=
  ITree.iter (fun _ : unit =>
    v ← run (Get errs None);
    match v with Some _ => run Errorf;; mret (inl tt) | None => mret (inr tt) end) tt.

Definition concurrent_senders (senders each : nat) : test unit :=
  a ← open "alice";
  b ← open "bob";
  received ← run (Make 1);
  child ← run Go;
  if child : bool then
    x ← WithTimeout waitFor;
    seen ← collect (senders * each) b x;
    run (Put received (VCount (Z.of_nat (size seen))))
  else
    x ← WithTimeout waitFor;
    errs ← run (Make senders);
    parent ← spawn senders each a x errs;
    if negb parent then mret tt
    else
      run WgWait;;
      run (CloseChan errs);;
      drain_errors errs;;
      v ← run (Get received None);
      match v with
      | Some (VCount got) => error_if (negb (got =? Z.of_nat (senders * each)))
      | _ => mret tt
      end.

Definition testConcurrentSenders (cfg : Config) : test unit := concurrent_senders 8 25.

Definition testReceiveHonorsContext (cfg : Config) : test unit :=
  a ← open "alice";
  tok ← run WithCancel;
  child ← run Go;
  if child : bool then
    run (Sleep (50 * millisecond));;
    run (Cancel tok)
  else
    start ← run Now;
    r ← do (Receive {| x_deadline := None; x_token := Some tok |} a);
    fatal_if (match r with Ok _ => true | Err err => negb (errIs err context_Canceled) end);;
    now ← run Now;
    fatal_if (waitFor <? now - start).

Definition testOpenHonorsCancelledContext (cfg : Config) : test unit :=
  tok ← run WithCancel;
  run (Cancel tok);;
  r ← do (Open {| x_deadline := None; x_token := Some tok |} "alice");
  match r with
  | Ok conn => do (Close conn);; stop Fatal
  | Err err => error_if (negb (errIs err context_Canceled))
  end.

Definition testCloseUnblocksReceive (cfg : Config) : test unit :=
  a ← open "alice";
  blocked ← run (Make 1);
  child ← run Go;
  if child : bool then
    x ← WithTimeout waitFor;
    r ← do (Receive x a);
    run (Put blocked (VErr (match r with Ok _ => None | Err err => Some err end)))
  else
    run (Sleep (50 * millisecond));;
    err ← do (Close a);
    fatal_if (match err with Some _ => true | None => false end);;
    v ← run (Get blocked (Some waitFor));
    match v with
    | Some (VErr None) => stop Fatal
    | Some (VErr (Some err)) => fatal_if (errIs err context_DeadlineExceeded)
    | _ => stop Fatal
    end.

Definition testCloseIsIdempotent (cfg : Config) : test unit :=
  a ← open "alice";
  err ← do (Close a);
  fatal_if (match err with Some _ => true | None => false end);;
  err ← do (Close a);
  error_if (match err with Some _ => true | None => false end);;
  err ← do (Close a);
  error_if (match err with Some _ => true | None => false end).

Definition testUseAfterCloseFails (cfg : Config) : test unit :=
  a ← open "alice";
  b ← open "bob";
  err ← do (Close a);
  fatal_if (match err with Some _ => true | None => false end);;
  x ← WithTimeout waitFor;
  session ← newID;
  sig ← Signal "alice" "bob" session KindICEComplete [];
  err ← do (Send x a sig);
  error_if (match err with None => true | Some err => negb (errIs err ErrClosed) end);;
  r ← do (Receive x a);
  error_if (match r with Ok _ => true | Err err => negb (errIs err ErrClosed) end);;
  session ← newID;
  sig ← Signal "bob" "alice" session KindICEComplete [];
  err ← do (Send x b sig);
  error_if (match err with None => false | Some err => negb (errIs err ErrPeerUnavailable) end).

Definition testDuplicatePeer (cfg : Config) : test unit :=
  if negb (RejectsDuplicatePeers cfg) then stop Skip
  else
    first ← open "alice";
    x ← WithTimeout waitFor;
    r ← do (Open x "alice");
    match r with
    | Ok second => do (Close second);; stop Fatal
    | Err err => error_if (negb (errIs err ErrDuplicatePeer))
    end;;
    err ← do (Close first);
    fatal_if (match err with Some _ => true | None => false end);;
    r ← do (Open x "alice");
    match r with
    | Err _ => stop Fatal
    | Ok again => do (Close again);; mret tt
    end.

Definition testUnavailablePeer (cfg : Config) : test unit :=
  if negb (ReportsUnavailablePeer cfg) then stop Skip
  else
    a ← open "alice";
    x ← WithTimeout waitFor;
    session ← newID;
    sig ← Signal "alice" "nobody" session KindICEComplete [];
    err ← do (Send x a sig);
    match err with
    | None => stop Fatal
    | Some err => error_if (negb (errIs err ErrPeerUnavailable))
    end.

(** ** The suite *)

Definition tests : list (string * (Config -> test unit)) := [
  ("RoundTrip", testRoundTrip);
  ("EnvelopeSurvivesTransport", testEnvelopeSurvives);
  ("LargePayload", testLargePayload);
  ("Bidirectional", testBidirectional);
  ("DeliversOnlyToRecipient", testIsolation);
  ("AtLeastOnceDeliversEverything", testNoLoss);
  ("ConcurrentSenders", testConcurrentSenders);
  ("ReceiveHonorsContext", testReceiveHonorsContext);
  ("OpenHonorsCancelledContext", testOpenHonorsCancelledContext);
  ("CloseUnblocksReceive", testCloseUnblocksReceive);
  ("CloseIsIdempotent", testCloseIsIdempotent);
  ("UseAfterCloseFails", testUseAfterCloseFails);
  ("DuplicatePeerRejected", testDuplicatePeer);
  ("UnavailablePeerReported", testUnavailablePeer)
]%string.

Definition with_default (cfg : Config) : Config :=
  if MaxPayload cfg <=? 0
  then {| RejectsDuplicatePeers := RejectsDuplicatePeers cfg; ReportsUnavailablePeer := ReportsUnavailablePeer cfg;
          MaxPayload := MaxSDPSize |}
  else cfg.

(** The subtests [Run] starts, each with its signaler; [None]: it fails for want of one. *)
Definition Run {T} (NewSignaler : option T) (cfg : Config) : option (list (string * (T * test unit))) :=
  match NewSignaler with
  | None => None
  | Some s => Some ((fun '(name, fn) => (name, (s, fn (with_default cfg)))) <$> tests)
  end.
End suite.
