(* ===== verification/Memory.v ===== *)
(** * The in-process signaling hub (signaling/memory/memory.go)

    [hub] has the registered peers and the connections on a heap. [Send] is cut at its
    [select]s: [send_start] is everything before the first, [send_one] one of them; a
    connection's [Close] is the mark and the [unregister] after it. A fault injector is its
    state, and [Apply] what it does to one signal, inside its own mutex. *)

From Stdlib Require Import String.
From S2P Require Import Prelude.
From S2P Require Import Errors.
From S2P Require Import Json.
From S2P Require Import Signal.

Definition DefaultQueueSize : Z := 64.

(** ** Faults *)

(** The injectors the package has, and a function of the caller's ([FaultFunc]). *)
Inductive fault :=
| NoFault
| FaultFunc (f : Signal -> list Signal)
| DuplicateAll
| DropKind (kinds : list string)
| DropFirst (kind : string) (remaining : Z)
| SwapAdjacent (kind : string) (held : option Signal).

Definition Apply (sig : Signal) (f : fault) : list Signal * fault :=
  match f with
  | NoFault => ([sig], f)
  | FaultFunc g => (g sig, f)
  | DuplicateAll => ([sig; sig], f)
  | DropKind kinds => (if bool_decide (Kind sig ∈ kinds) then [] else [sig], f)
  | DropFirst kind remaining =>
    if negb (bool_decide (Kind sig = kind)) then ([sig], f)
    else if 0 <? remaining then ([], DropFirst kind (remaining - 1)) else ([sig], f)
  | SwapAdjacent kind held =>
    if negb (bool_decide (Kind sig = kind)) then ([sig], f)
    else match held with
         | None => ([], SwapAdjacent kind (Some sig))
         | Some h => ([sig; h], SwapAdjacent kind None)
         end
  end.

(** ** State *)

Record conn := { local : string; inbox : list Signal; closed : bool }.

#[export] Instance conn_eta : Eta conn := fun c => {| local := local c; inbox := inbox c; closed := closed c |}.

Record hub := { queueSize : Z; hfault : fault; peers : gmap string nat; conns : gmap nat conn; fresh : nat }.

#[export] Instance hub_eta : Eta hub := fun h => {|
  queueSize := queueSize h; hfault := hfault h; peers := peers h; conns := conns h; fresh := fresh h |}.

(** [New] with its options: the queue size, when positive, and the fault. *)
Definition New (size : option Z) (f : fault) : hub := {|
  queueSize := match size with Some n => if 0 <? n then n else DefaultQueueSize | None => DefaultQueueSize end;
  hfault := f; peers := ∅; conns := ∅; fresh := 0 |}.

Definition on_conn (c : nat) (f : conn -> conn) (h : hub) : hub := h <| conns := alter f c (conns h) |>.

(** ** Operations of the hub *)

Definition Open (ctx : option error) (id : string) (h : hub) : result error nat * hub :=
  if bool_decide (id = "")%string then (Err (EOther "memory: a local peer ID is required" None), h)
  else match ctx with
  | Some e => (Err e, h)
  | None =>
    match peers h !! id with
    | Some _ => (Err (EWrap "memory: peer %q is already registered: %w" [ESent ErrDuplicatePeer]), h)
    | None =>
      (Ok (fresh h),
       h <| peers := <[id := fresh h]> (peers h) |>
         <| conns := <[fresh h := {| local := id; inbox := []; closed := false |}]> (conns h) |>
         <| fresh := S (fresh h) |>)
    end
  end.

Definition lookup_peer (id : string) (h : hub) : option nat := peers h !! id.

Definition unregister (c : nat) (h : hub) : hub :=
  match conns h !! c with
  | Some x => if bool_decide (peers h !! local x = Some c) then h <| peers := delete (local x) (peers h) |> else h
  | None => h
  end.

(** [Close]: the first call closes the channel, then unregisters. *)
Definition Close_mark (c : nat) : hub -> hub := on_conn c (fun x => x <| closed := true |>).

Definition Close (c : nat) (h : hub) : hub :=
  match conns h !! c with
  | Some x => if closed x then h else unregister c (Close_mark c h)
  | None => h
  end.

Definition Disconnect (id : string) (h : hub) : bool * hub :=
  match lookup_peer id h with Some c => (true, Close c h) | None => (false, h) end.

Definition Registered (h : hub) : list string := fst <$> map_to_list (peers h).

(** ** Sending and receiving *)

(** [Send] up to the deliveries: an error, or where they go. *)
Definition send_start (c : nat) (msg : Signal) (h : hub) : result error (nat * list Signal) * hub :=
  match conns h !! c with
  | None => (Err (ESent ErrClosed), h)
  | Some x =>
    if closed x then (Err (ESent ErrClosed), h)
    else if negb (bool_decide (From msg = local x)) then
      (Err (EWrap "memory: signal from %q sent on the connection of %q: %w" [ESent ErrProtocol]), h)
    else match lookup_peer (To msg) h with
    | None => (Err (EWrap "memory: peer %q is not registered: %w" [ESent ErrPeerUnavailable]), h)
    | Some dst => let '(out, f) := Apply msg (hfault h) in (Ok (dst, out), h <| hfault := f |>)
    end
  end.

Inductive send_case := SendRoom | SendDstClosed | SendClosed | SendCtx (e : error).

(** One [select] of the loop; [None]: the case is not ready. *)
Definition send_one (c dst : nat) (sig : Signal) (w : send_case) (h : hub) : option (option error * hub) :=
  match conns h !! c, conns h !! dst, w with
  | Some _, Some d, SendRoom =>
    if zlen (inbox d) <? queueSize h then Some (None, on_conn dst (fun d => d <| inbox := inbox d ++ [sig] |>) h) else None
  | Some _, Some d, SendDstClosed =>
    if closed d then Some (Some (EWrap "memory: peer %q disconnected: %w" [ESent ErrPeerUnavailable]), h) else None
  | Some x, Some _, SendClosed => if closed x then Some (Some (ESent ErrClosed), h) else None
  | Some _, Some _, SendCtx e => Some (Some e, h)
  | _, _, _ => None
  end.

Inductive receive_case := RecvInbox | RecvClosed | RecvCtx (e : error).

Definition Receive (c : nat) (w : receive_case) (h : hub) : option (result error Signal * hub) :=
  match conns h !! c, w with
  | Some x, RecvInbox =>
    match inbox x with sig :: rest => Some (Ok sig, on_conn c (fun x => x <| inbox := rest |>) h) | [] => None end
  | Some x, RecvClosed => if closed x then Some (Err (ESent ErrClosed), h) else None
  | Some _, RecvCtx e => Some (Err e, h)
  | None, _ => None
  end.
