(* ===== verification/MemoryProps.v ===== *)
(** * What the in-process hub promises

    The hub with its calls of [Send] in progress and the history of what went into the
    queues and came out; any interleaving of opens, sends, receives and closes is a run.
    The second part is what the fault injectors make of a sequence of signals. *)

From Stdlib Require Import String.
From S2P Require Import Prelude.
From S2P Require Import Errors.
From S2P Require Import Json.
From S2P Require Import Signal.
From S2P Require Import Memory.

(** ** Runs *)

(** A call of [Send] past its checks: where it sends, what the fault made of the signal,
    how many of these it has put, and what it returned. *)
Record call := {
  k_src : nat; k_dst : nat; k_msg : Signal; k_all : list Signal; k_sent : nat; k_result : option (option error)
}.

#[export] Instance call_eta : Eta call := fun k => {|
  k_src := k_src k; k_dst := k_dst k; k_msg := k_msg k; k_all := k_all k; k_sent := k_sent k;
  k_result := k_result k |}.

(** [ms_put]: the call, the destination and the signal; [ms_got]: the connection and the signal. *)
Record msys := {
  ms_hub : hub; ms_calls : list call; ms_put : list (nat * nat * Signal); ms_got : list (nat * Signal)
}.

#[export] Instance msys_eta : Eta msys := fun y => {|
  ms_hub := ms_hub y; ms_calls := ms_calls y; ms_put := ms_put y; ms_got := ms_got y |}.

Inductive mop :=
| MOpen (ctx : option error) (id : string) | MSend (c : nat) (msg : Signal) | MOne (k : nat) (w : send_case)
| MReceive (c : nat) (w : receive_case) | MMark (c : nat) | MUnregister (c : nat).

(** A call that has put everything returns nil. *)
Definition settle (k : call) : call :=
  if (k_sent k =? length (k_all k))%nat then k <| k_result := Some None |> else k.

Definition send_step (i : nat) (w : send_case) (k : call) (y : msys) : option msys :=
  match k_result k, k_all k !! k_sent k with
  | None, Some sig =>
    '(r, h) ← send_one (k_src k) (k_dst k) sig w (ms_hub y);
    Some (match r with
          | None => y <| ms_hub := h |> <| ms_calls := <[i := settle (k <| k_sent := S (k_sent k) |>)]> (ms_calls y) |>
                      <| ms_put := ms_put y ++ [(i, k_dst k, sig)] |>
          | Some e => y <| ms_hub := h |> <| ms_calls := <[i := k <| k_result := Some (Some e) |>]> (ms_calls y) |>
          end)
  | _, _ => None
  end.

Definition mexec (o : mop) (y : msys) : msys :=
  match o with
  | MOpen ctx id => y <| ms_hub := snd (Open ctx id (ms_hub y)) |>
  | MSend c msg =>
    let '(r, h) := send_start c msg (ms_hub y) in
    match r with
    | Ok (dst, out) =>
      y <| ms_hub := h |>
        <| ms_calls := ms_calls y ++ [settle {| k_src := c; k_dst := dst; k_msg := msg; k_all := out; k_sent := 0;
                                                k_result := None |}] |>
    | Err _ => y <| ms_hub := h |>
    end
  | MOne i w => match ms_calls y !! i with Some k => default y (send_step i w k y) | None => y end
  | MReceive c w =>
    match Receive c w (ms_hub y) with
    | Some (Ok sig, h) => y <| ms_hub := h |> <| ms_got := ms_got y ++ [(c, sig)] |>
    | Some (Err _, h) => y <| ms_hub := h |>
    | None => y
    end
  | MMark c => y <| ms_hub := Close_mark c (ms_hub y) |>
  | MUnregister c =>
    match conns (ms_hub y) !! c with
    | Some x => if closed x then y <| ms_hub := unregister c (ms_hub y) |> else y
    | None => y
    end
  end.

Definition mstart (size : option Z) (f : fault) : msys :=
  {| ms_hub := New size f; ms_calls := []; ms_put := []; ms_got := [] |}.

Definition mrun (os : list mop) (y : msys) : msys := fold_left (fun y o => mexec o y) os y.

(** What went into a connection's queue, what a call put, what a connection returned. *)
Definition into (c : nat) (l : list (nat * nat * Signal)) : list Signal :=
  omap (fun p => if bool_decide (p.1.2 = c) then Some p.2 else None) l.
Definition put_by (i : nat) (l : list (nat * nat * Signal)) : list Signal :=
  omap (fun p => if bool_decide (p.1.1 = i) then Some p.2 else None) l.
Definition got (c : nat) (l : list (nat * Signal)) : list Signal :=
  omap (fun p => if bool_decide (p.1 = c) then Some p.2 else None) l.

(** ** The invariant *)

Record call_ok (h : hub) (put : list (nat * nat * Signal)) (i : nat) (k : call) : Prop := {
  ko_src : exists x, conns h !! k_src k = Some x /\ From (k_msg k) = local x;
  ko_dst : exists x, conns h !! k_dst k = Some x /\ To (k_msg k) = local x;
  ko_put : put_by i put = take (k_sent k) (k_all k);
  ko_where : forall d sig, (i, d, sig) ∈ put -> d = k_dst k;
  ko_sent : (k_sent k <= length (k_all k))%nat;
  ko_done : k_result k = Some None -> k_sent k = length (k_all k)
}.

Record minv (y : msys) : Prop := {
  mi_queue : forall c x, conns (ms_hub y) !! c = Some x ->
    got c (ms_got y) ++ inbox x = into c (ms_put y) /\ zlen (inbox x) <= queueSize (ms_hub y);
  mi_none : forall c, conns (ms_hub y) !! c = None -> got c (ms_got y) = [] /\ into c (ms_put y) = [];
  mi_calls : forall i k, ms_calls y !! i = Some k -> call_ok (ms_hub y) (ms_put y) i k;
  mi_new : forall i, (length (ms_calls y) <= i)%nat -> put_by i (ms_put y) = [];
  mi_fresh : forall c, is_Some (conns (ms_hub y) !! c) -> (c < fresh (ms_hub y))%nat;
  mi_reg : forall id c, peers (ms_hub y) !! id = Some c -> exists x, conns (ms_hub y) !! c = Some x /\ local x = id;
  mi_open : forall c x, conns (ms_hub y) !! c = Some x -> closed x = false -> peers (ms_hub y) !! local x = Some c;
  mi_size : 0 < queueSize (ms_hub y)
}.

Lemma minv_start size f : minv (mstart size f).
Proof.
  split; simpl; try done.
  - intros c [x Hx]. by apply lookup_empty_Some in Hx.
  - destruct size as [n|]; [destruct (Z.ltb_spec 0 n)|]; unfold DefaultQueueSize; lia.
Qed.

Lemma into_app c l l' : into c (l ++ l') = into c l ++ into c l'.
Proof. apply omap_app. Qed.
Lemma put_by_app i l l' : put_by i (l ++ l') = put_by i l ++ put_by i l'.
Proof. apply omap_app. Qed.
Lemma got_app c l l' : got c (l ++ l') = got c l ++ got c l'.
Proof. apply omap_app. Qed.

Lemma call_ok_mono h h' put i k :
  (forall c x, conns h !! c = Some x -> exists x', conns h' !! c = Some x' /\ local x' = local x) ->
  call_ok h put i k -> call_ok h' put i k.
Proof.
  intros H [(x & Hx & Ex) (d & Hd & Ed) P W L D]. split; try done.
  - destruct (H _ _ Hx) as (x' & Hx' & E). exists x'. split; [done|congruence].
  - destruct (H _ _ Hd) as (d' & Hd' & E). exists d'. split; [done|congruence].
Qed.

(** A change of one connection that keeps its peer. *)
Lemma alter_kept (c : nat) (f : conn -> conn) (m : gmap nat conn) : (forall x, local (f x) = local x) ->
  forall b x, m !! b = Some x -> exists x', alter f c m !! b = Some x' /\ local x' = local x.
Proof.
  intros Hf b x Hb. destruct (decide (c = b)) as [->|N].
  - exists (f x). by rewrite lookup_alter_eq, Hb.
  - exists x. by rewrite lookup_alter_ne.
Qed.

Lemma minv_on_conn c f y : 
  (forall x, local (f x) = local x /\ inbox (f x) = inbox x /\ (closed (f x) = false -> closed x = false)) ->
  minv y -> minv (y <| ms_hub := on_conn c f (ms_hub y) |>).
Proof.
  intros Hf [Q N C W F R O S]. assert (Hl : forall x, local (f x) = local x) by (intros x; apply Hf).
  assert (B : forall b x, conns (on_conn c f (ms_hub y)) !! b = Some x ->
    exists x0, conns (ms_hub y) !! b = Some x0 /\ local x = local x0 /\ inbox x = inbox x0 /\ (closed x = false -> closed x0 = false)).
  { intros b x. unfold on_conn. simpl. rewrite lookup_alter_Some. intros [(<- & x0 & Hx & ->)|(_ & Hx)]; [|by eauto 6].
    exists x0. split; [done|]. apply Hf. }
  split; simpl; try done.
  - intros b x Hb. destruct (B b x Hb) as (x0 & Hx0 & _ & -> & _). by apply Q.
  - intros b Hb. apply N. by apply lookup_alter_None in Hb.
  - intros i k Hk. apply (call_ok_mono (ms_hub y)); [simpl; by apply alter_kept|by apply C].
  - intros b [x Hb]. destruct (B b x Hb) as (x0 & Hx0 & _). apply F. eauto.
  - intros id b Hb. destruct (R id b Hb) as (x & Hx & <-). by apply alter_kept.
  - intros b x Hb Ho. destruct (B b x Hb) as (x0 & Hx0 & -> & _ & Hc). apply O; auto.
Qed.

Lemma minv_open ctx id y : minv y -> minv (y <| ms_hub := snd (Open ctx id (ms_hub y)) |>).
Proof.
  intros I. unfold Open. destruct (bool_decide (id = ""%string)); [by destruct y|].
  destruct ctx; [by destruct y|]. destruct (peers (ms_hub y) !! id) as [c|] eqn:E; [by destruct y|]. simpl.
  destruct I as [Q N C W F R O S].
  assert (Hn : conns (ms_hub y) !! fresh (ms_hub y) = None)
    by (apply eq_None_not_Some; intros Hs; specialize (F _ Hs); lia).
  assert (K : forall c x, conns (ms_hub y) !! c = Some x -> fresh (ms_hub y) <> c) by (intros c x Hc E'; rewrite <- E' in Hc; congruence).
  split; simpl; try done.
  - intros c x. rewrite lookup_insert_Some. intros [[<- <-]|[_ Hx]]; [|by apply Q].
    destruct (N _ Hn) as [-> ->]. simpl. split; [done|]. change (zlen (@nil Signal)) with 0. lia.
  - intros c. rewrite lookup_insert_None. intros [Hx _]. by apply N.
  - intros i k Hk. apply (call_ok_mono (ms_hub y)); [|by apply C]. intros c x Hc. exists x. simpl.
    rewrite lookup_insert_ne by eauto. done.
  - intros c [x Hc]. rewrite lookup_insert_Some in Hc. destruct Hc as [[<- _]|[_ Hc]]; [lia|].
    specialize (F c ltac:(by eexists)). lia.
  - intros i c. rewrite lookup_insert_Some. intros [[<- <-]|[_ Hc]].
    + eexists. by rewrite lookup_insert_eq.
    + destruct (R i c Hc) as (x & Hx & <-). exists x. rewrite lookup_insert_ne by eauto. done.
  - intros c x. rewrite lookup_insert_Some. intros [[<- <-]|[_ Hx]] Ho; [by rewrite lookup_insert_eq|].
    specialize (O c x Hx Ho). rewrite lookup_insert_ne; [done|]. intros ->. simpl in *. congruence.
Qed.

Lemma minv_unregister c y : minv y -> (exists x, conns (ms_hub y) !! c = Some x /\ closed x = true) ->
  minv (y <| ms_hub := unregister c (ms_hub y) |>).
Proof.
  intros I (x & Hx & Hc). unfold unregister. rewrite Hx. case_bool_decide as D; [|by destruct y].
  destruct I as [Q N C W F R O S]. split; simpl; try done.
  - intros i k Hk. apply (call_ok_mono (ms_hub y)); [|by apply C]. intros b z Hb. by exists z.
  - intros id b. rewrite lookup_delete_Some. intros [_ Hb]. by apply R.
  - intros b z Hb Ho. rewrite lookup_delete_Some. specialize (O b z Hb Ho). split; [|done]. intros E.
    rewrite <- E, D in O. injection O as ->. congruence.
Qed.

Lemma settle_spec k :
  k_src (settle k) = k_src k /\ k_dst (settle k) = k_dst k /\ k_msg (settle k) = k_msg k /\
  k_all (settle k) = k_all k /\ k_sent (settle k) = k_sent k /\
  (k_result (settle k) = Some None -> k_result k = Some None \/ k_sent k = length (k_all k)).
Proof. unfold settle. destruct (Nat.eqb_spec (k_sent k) (length (k_all k))); simpl; split_and!; auto. Qed.

Lemma call_ok_settle h put i k : call_ok h put i k -> call_ok h put i (settle k).
Proof.
  intros [S D P W L R]. destruct (settle_spec k) as (E1 & E2 & E3 & E4 & E5 & E6).
  split; rewrite ?E1, ?E2, ?E3, ?E4, ?E5; try done. intros [H|H]%E6; auto.
Qed.

Lemma put_by_nil i put : (forall d sig, (i, d, sig) ∉ put) -> put_by i put = [].
Proof.
  intros H. destruct (put_by i put) as [|sig l] eqn:E; [done|]. exfalso.
  assert (Hs : sig ∈ put_by i put) by (rewrite E; left). unfold put_by in Hs.
  apply list_elem_of_omap in Hs as ([[j d] sig'] & Hin & Hs). simpl in Hs. case_bool_decide; [|done].
  injection Hs as ->. subst j. by apply (H d sig).
Qed.

Lemma put_by_elem i put d sig : (i, d, sig) ∈ put -> put_by i put <> [].
Proof.
  intros Hin E. assert (Hs : sig ∈ put_by i put).
  { apply list_elem_of_omap. exists (i, d, sig). split; [done|]. simpl. by rewrite bool_decide_eq_true_2. }
  rewrite E in Hs. by apply not_elem_of_nil in Hs.
Qed.

Lemma minv_send c msg y : minv y -> minv (mexec (MSend c msg) y).
Proof.
  intros I. cbn [mexec]. unfold send_start. destruct (conns (ms_hub y) !! c) as [x|] eqn:Ex; [|by destruct y].
  destruct (closed x); [by destruct y|]. case_bool_decide as Ef; simpl; [|by destruct y].
  destruct (lookup_peer (To msg) (ms_hub y)) as [dst|] eqn:El; [|by destruct y].
  destruct (Apply msg (hfault (ms_hub y))) as [out f].
  destruct I as [Q N C W F R O S]. destruct (R _ _ El) as (d & Hd & Ed). split; simpl; try done.
  - intros i k [Hk|[Hl Hk]]%lookup_app_Some; [by apply (call_ok_mono (ms_hub y)), C; [intros b z Hz; by exists z|]|].
    apply list_lookup_singleton_Some in Hk as [Hi <-]. apply call_ok_settle. split; simpl; try lia; try done; eauto.
    intros b sig Hin. apply put_by_elem in Hin. by rewrite W in Hin.
  - intros i. rewrite length_app. simpl. intros Hi. apply W. lia.
Qed.

Lemma minv_receive c w y : minv y -> minv (mexec (MReceive c w) y).
Proof.
  intros I. cbn [mexec]. unfold Receive. destruct (conns (ms_hub y) !! c) as [x|] eqn:Ex; [|done].
  destruct w as [| |e]; [|by destruct (closed x); destruct y|by destruct y].
  destruct (inbox x) as [|sig rest] eqn:Eb; [done|].
  destruct I as [Q N C W F R O S].
  split; simpl; try done.
  - intros b z. rewrite lookup_alter_Some, got_app. simpl. intros [(<- & z0 & Hz & ->)|(Nb & Hz)].
    + destruct (Q c x Ex) as [Q1 Q2]. rewrite Hz in Ex. injection Ex as ->. rewrite Eb in Q1, Q2.
      rewrite bool_decide_eq_true_2 by done. simpl. rewrite <- app_assoc. split; [done|].
      rewrite zlen_cons in Q2. lia.
    + rewrite bool_decide_eq_false_2, app_nil_r by done. by apply Q.
  - intros b Hb. apply lookup_alter_None in Hb. rewrite got_app. simpl.
    rewrite bool_decide_eq_false_2, app_nil_r by congruence. by apply N.
  - intros i k Hk. apply (call_ok_mono (ms_hub y)); [simpl; by apply alter_kept|by apply C].
  - intros b Hb. apply F. by rewrite lookup_alter_is_Some in Hb.
  - intros id b Hb. destruct (R id b Hb) as (z & Hz & <-). by apply alter_kept.
  - intros b z. rewrite lookup_alter_Some. intros [(<- & z0 & Hz & ->)|(Nb & Hz)]; [|by apply O].
    intros Ho. by apply (O c z0).
Qed.

(** One more signal of call [i] in the queue of its destination. *)
Lemma minv_put i k d sig y :
  minv y -> ms_calls y !! i = Some k -> conns (ms_hub y) !! k_dst k = Some d -> k_all k !! k_sent k = Some sig ->
  k_result k = None -> zlen (inbox d) < queueSize (ms_hub y) ->
  minv (y <| ms_hub := on_conn (k_dst k) (fun d => d <| inbox := inbox d ++ [sig] |>) (ms_hub y) |>
          <| ms_calls := <[i := settle (k <| k_sent := S (k_sent k) |>)]> (ms_calls y) |>
          <| ms_put := ms_put y ++ [(i, k_dst k, sig)] |>).
Proof.
  intros [Q N C W F R O Z] Hk Hd Hs Hr Hl.
  pose proof (lookup_lt_Some _ _ _ Hk) as Lk. pose proof (lookup_lt_Some _ _ _ Hs) as Ls.
  split; simpl; try done.
  - intros b z. rewrite lookup_alter_Some, into_app. simpl. intros [(<- & z0 & Hz & ->)|(Nb & Hz)].
    + rewrite bool_decide_eq_true_2 by done. simpl. destruct (Q _ _ Hz) as [Q1 Q2].
      rewrite <- Q1, zlen_app, app_assoc. change (zlen [sig]) with 1. split; [done|].
      rewrite Hz in Hd. injection Hd as ->. lia.
    + rewrite bool_decide_eq_false_2, app_nil_r by done. by apply Q.
  - intros b Hb. apply lookup_alter_None in Hb. rewrite into_app. simpl.
    rewrite bool_decide_eq_false_2, app_nil_r by congruence. by apply N.
  - intros j c. rewrite list_lookup_insert_Some. intros [(<- & <- & _)|(Nj & Hc)].
    + apply call_ok_settle. destruct (C i k Hk) as [S D P V L X].
      apply (call_ok_mono (ms_hub y)); [simpl; by apply alter_kept|]. split; simpl; try done; [| |congruence].
      * rewrite put_by_app, P. simpl. rewrite bool_decide_eq_true_2 by done. by rewrite (take_S_r _ _ sig).
      * intros b g [Hb|Hb%list_elem_of_singleton]%elem_of_app; [by eapply V|]. by injection Hb.
    + destruct (C j c Hc) as [S D P V L X]. apply (call_ok_mono (ms_hub y)); [simpl; by apply alter_kept|]. split; try done.
      * rewrite put_by_app, P. simpl. by rewrite bool_decide_eq_false_2, app_nil_r.
      * intros b g [Hb|Hb%list_elem_of_singleton]%elem_of_app; [by eapply V|]. by injection Hb as <- _ _.
  - intros j. rewrite length_insert, put_by_app. simpl. intros Hj.
    rewrite bool_decide_eq_false_2, app_nil_r by lia. by apply W.
  - intros b Hb. apply F. by rewrite lookup_alter_is_Some in Hb.
  - intros id b Hb. destruct (R id b Hb) as (z & Hz & <-). by apply alter_kept.
  - intros b z. rewrite lookup_alter_Some. intros [(<- & z0 & Hz & ->)|(Nb & Hz)]; [|by apply O].
    intros Ho. by apply (O _ z0).
Qed.

(** A call that fails. *)
Lemma minv_failed i k e y :
  minv y -> ms_calls y !! i = Some k ->
  minv (y <| ms_calls := <[i := k <| k_result := Some (Some e) |>]> (ms_calls y) |>).
Proof.
  intros [Q N C W F R O Z] Hk. split; simpl; try done.
  - intros j c. rewrite list_lookup_insert_Some. intros [(<- & <- & _)|(Nj & Hc)]; [|by apply C].
    destruct (C i k Hk) as [S D P V L X]. by split.
  - intros j. rewrite length_insert. apply W.
Qed.

Lemma minv_one i w y : minv y -> minv (mexec (MOne i w) y).
Proof.
  intros I. cbn [mexec]. destruct (ms_calls y !! i) as [k|] eqn:Ek; [|done]. unfold send_step.
  destruct (k_result k) eqn:Er; [done|]. destruct (k_all k !! k_sent k) as [sig|] eqn:Es; [|done].
  unfold send_one. destruct (conns (ms_hub y) !! k_src k) as [x|]; [|done].
  destruct (conns (ms_hub y) !! k_dst k) as [d|] eqn:Ed; [|done].
  destruct w as [| | |e]; [destruct (Z.ltb_spec (zlen (inbox d)) (queueSize (ms_hub y)))
                          |destruct (closed d)|destruct (closed x)|]; simpl; try done.
  - by apply (minv_put i k d sig).
  - by apply minv_failed.
  - by apply minv_failed.
  - by apply minv_failed.
Qed.

Lemma mexec_inv o y : minv y -> minv (mexec o y).
Proof.
  intros I. destruct o as [ctx id|c msg|i w|c w|c|c].
  - by apply minv_open.
  - by apply minv_send.
  - by apply minv_one.
  - by apply minv_receive.
  - apply minv_on_conn; [done|done].
  - simpl. destruct (conns (ms_hub y) !! c) as [x|] eqn:E; [|done]. destruct (closed x) eqn:Ec; [|done].
    apply minv_unregister; [done|eauto].
Qed.

Lemma mrun_inv os : forall y, minv y -> minv (mrun os y).
Proof. induction os as [|o os IH]; intros y I; [done|]. apply IH. by apply mexec_inv. Qed.

(** ** What the fault makes of the signals of the calls *)

Section faults.
Variable P : fault -> Prop.
Variable R : Signal -> list Signal -> Prop.
Hypothesis HP : forall f sig, P f -> P (snd (Apply sig f)) /\ R sig (fst (Apply sig f)).

Definition shaped (y : msys) : Prop :=
  P (hfault (ms_hub y)) /\ forall i k, ms_calls y !! i = Some k -> R (k_msg k) (k_all k).

Lemma shaped_hub h y : hfault h = hfault (ms_hub y) -> shaped y -> shaped (y <| ms_hub := h |>).
Proof. intros E [H1 H2]. split; simpl; [by rewrite E|done]. Qed.

(** A call that changes keeps its signal and what was made of it. *)
Lemma shaped_call i k k' h put y :
  hfault h = hfault (ms_hub y) -> ms_calls y !! i = Some k -> k_msg k' = k_msg k -> k_all k' = k_all k ->
  shaped y -> shaped (y <| ms_hub := h |> <| ms_calls := <[i := k']> (ms_calls y) |> <| ms_put := put |>).
Proof.
  intros Eh Hk E1 E2 [H1 H2]. split; simpl; [by rewrite Eh|]. intros j c.
  rewrite list_lookup_insert_Some. intros [(<- & <- & _)|(_ & Hc)]; [|by apply (H2 j)].
  rewrite E1, E2. by apply (H2 i).
Qed.

Lemma send_one_fault c d sig w h r h' : send_one c d sig w h = Some (r, h') -> hfault h' = hfault h.
Proof.
  unfold send_one. intros E. repeat case_match; simplify_eq; done.
Qed.

Lemma shaped_exec o y : shaped y -> shaped (mexec o y).
Proof.
  intros I. destruct o as [ctx id|c msg|i w|c w|c|c]; simpl.
  - apply shaped_hub; [|done]. unfold Open. by repeat case_match.
  - unfold send_start. repeat case_match; simplify_eq; simpl; try (by destruct y).
    destruct I as [I1 I2]. destruct (HP (hfault (ms_hub y)) msg I1) as [P1 P2].
    match goal with H : Apply _ _ = _ |- _ => rewrite H in P1, P2 end. split; simpl in *; [done|].
    intros i k [Hk|[_ Hk]]%lookup_app_Some; [by apply (I2 i)|].
    apply list_lookup_singleton_Some in Hk as [_ <-].
    match goal with |- R (k_msg (settle ?k)) _ => destruct (settle_spec k) as (_ & _ & -> & -> & _) end. done.
  - destruct (ms_calls y !! i) as [k|] eqn:Ek; [|done]. unfold send_step.
    destruct (k_result k); [done|]. destruct (k_all k !! k_sent k) as [sig|]; [|done].
    destruct (send_one _ _ sig w (ms_hub y)) as [[r h]|] eqn:Es; [|done]. simpl. apply send_one_fault in Es.
    destruct r as [e|].
    + apply (shaped_call i k _ h (ms_put y)); done.
    + destruct (settle_spec (k <| k_sent := S (k_sent k) |>)) as (_ & _ & E3 & E4 & _).
      by apply (shaped_call i k).
  - unfold Receive. repeat case_match; simplify_eq; done.
  - done.
  - unfold unregister. repeat case_match; done.
Qed.

Lemma shaped_run os : forall y, shaped y -> shaped (mrun os y).
Proof. induction os as [|o os IH]; intros y I; [done|]. apply IH. by apply shaped_exec. Qed.
End faults.

(** The faults that deliver only the signal itself, any number of times. *)
Definition faithful (f : fault) : bool :=
  match f with FaultFunc _ | SwapAdjacent _ _ => false | _ => true end.

Lemma faithful_Apply f sig : faithful f = true ->
  faithful (snd (Apply sig f)) = true /\ forall s, s ∈ fst (Apply sig f) -> s = sig.
Proof.
  intros H. destruct f; simpl in *; repeat case_match; simpl; split; try done;
    intros s Hs; rewrite ?elem_of_cons in Hs; set_solver.
Qed.


(** ** Faults on a sequence of signals *)

Fixpoint apply_all (l : list Signal) (f : fault) : list Signal :=
  match l with [] => [] | sig :: l => fst (Apply sig f) ++ apply_all l (snd (Apply sig f)) end.

Definition of_kind (kind : string) (l : list Signal) : list Signal := filter (fun s => Kind s = kind) l.
Definition others (kind : string) (l : list Signal) : list Signal := filter (fun s => Kind s <> kind) l.

Fixpoint swap_pairs (l : list Signal) : list Signal :=
  match l with a :: b :: l => b :: a :: swap_pairs l | _ => [] end.

Lemma of_kind_cons kind s l : of_kind kind (s :: l) = if bool_decide (Kind s = kind) then s :: of_kind kind l else of_kind kind l.
Proof. unfold of_kind. rewrite filter_cons. case_bool_decide; case_decide; done. Qed.

Lemma others_cons kind s l : others kind (s :: l) = if bool_decide (Kind s = kind) then others kind l else s :: others kind l.
Proof. unfold others. rewrite filter_cons. case_bool_decide; case_decide; done. Qed.

(** [DropFirst] drops the first [n] signals of the kind, and nothing else. *)
Lemma drop_first_stream kind l : forall n,
  of_kind kind (apply_all l (DropFirst kind n)) = drop (Z.to_nat n) (of_kind kind l) /\
  others kind (apply_all l (DropFirst kind n)) = others kind l.
Proof.
  induction l as [|s l IH]; intros n; [split; [by destruct (Z.to_nat n)|done]|].
  cbn [apply_all Apply]. rewrite of_kind_cons, others_cons. case_bool_decide as D; cbn [negb].
  - destruct (Z.ltb_spec 0 n); cbn [fst snd app].
    + destruct (IH (n - 1)) as [-> ->]. by replace (Z.to_nat n) with (S (Z.to_nat (n - 1))) by lia.
    + rewrite of_kind_cons, others_cons, bool_decide_eq_true_2 by done. destruct (IH n) as [-> ->].
      by replace (Z.to_nat n) with 0%nat by lia.
  - cbn [fst snd app]. rewrite of_kind_cons, others_cons, bool_decide_eq_false_2 by done.
    by destruct (IH n) as [-> ->].
Qed.

(** [SwapAdjacent] exchanges the signals of the kind two by two, an odd last one stays held;
    the others pass. *)
Lemma swap_adjacent_stream kind l : forall held, (forall h, held = Some h -> Kind h = kind) ->
  of_kind kind (apply_all l (SwapAdjacent kind held)) = swap_pairs (option_list held ++ of_kind kind l) /\
  others kind (apply_all l (SwapAdjacent kind held)) = others kind l.
Proof.
  induction l as [|s l IH]; intros held Hh; [by destruct held|].
  cbn [apply_all Apply]. rewrite of_kind_cons, others_cons. case_bool_decide as D; cbn [negb].
  - destruct held as [h|]; cbn [fst snd app].
    + rewrite !of_kind_cons, !others_cons, !bool_decide_eq_true_2 by auto. destruct (IH None) as [-> ->]; done.
    + destruct (IH (Some s)) as [-> ->]; [by intros h [= <-]|done].
  - cbn [fst snd app]. rewrite of_kind_cons, others_cons, bool_decide_eq_false_2 by done.
    by destruct (IH held Hh) as [-> ->].
Qed.

Module HubDemo.
Definition sig (kind from to : string) : Signal :=
  {| Version := 1; ID := ""; SessionID := ""; Kind := kind; From := from; To := to; Payload := [] |}.

(** Alice's candidate is held, and released with Bob's, to the destination of Bob's. *)
Example swap_misroutes :
  let y := mrun [MOpen None "alice"; MOpen None "bob"; MSend 0 (sig KindCandidate "alice" "bob");
                 MSend 1 (sig KindCandidate "bob" "alice"); MOne 1 SendRoom; MOne 1 SendRoom; MReceive 0 RecvInbox]
             (mstart None (SwapAdjacent KindCandidate None)) in
  ms_got y = [(0%nat, sig KindCandidate "bob" "alice")] /\
  option_map inbox (conns (ms_hub y) !! 0%nat) = Some [sig KindCandidate "alice" "bob"] /\
  option_map inbox (conns (ms_hub y) !! 1%nat) = Some [].
Proof. vm_compute. done. Qed.

(** A peer opens again after its close, and its first connection no longer sends. *)
Example reopened :
  let y := mrun [MOpen None "alice"; MMark 0; MUnregister 0; MOpen None "alice"; MOpen None "bob";
                 MSend 2 (sig KindOffer "bob" "alice"); MOne 0 SendRoom; MSend 0 (sig KindOffer "alice" "bob");
                 MReceive 1 RecvInbox] (mstart (Some 1) NoFault) in
  ms_got y = [(1%nat, sig KindOffer "bob" "alice")] /\ length (ms_calls y) = 1%nat.
Proof. vm_compute. done. Qed.
End HubDemo.
