(* ===== verification/MemorySignaler.v ===== *)
(** * The in-process hub as a transport

    [Signaler] for [Memory]: the calls of its operations cut at their [select]s. [hub_at]
    abstracts the hub to the list of its connections, in the order they were opened. *)

From Stdlib Require Import String.
From S2P Require Import Prelude.
From S2P Require Import Errors.
From S2P Require Import Json.
From S2P Require Import Signal.
From S2P Require Import Signaling.
From S2P Require Import Memory.

(** ** Calls *)

(** [HPut]: the loop of [Send]. [HUnregister]: the second half of [Close]. *)
Inductive hub_call : Type -> Type :=
| HOpen (id : string) : hub_call (result error nat)
| HSend (c : nat) (msg : Signal) : hub_call (option error)
| HPut (c dst : nat) (deliveries : list Signal) : hub_call (option error)
| HReceive (c : nat) : hub_call (result error Signal)
| HClose (c : nat) : hub_call (option error)
| HUnregister (c : nat) : hub_call (option error).

Definition hub_begin R (o : signalE nat R) : hub_call R :=
  match o with
  | Signaling.Open _ id => HOpen id
  | Signaling.Send _ c msg => HSend c msg
  | Signaling.Receive _ c => HReceive c
  | Signaling.Close c => HClose c
  end.

(** The loop goes on with what is left, or returns nil. *)
Definition put_rest (c dst : nat) (l : list Signal) : option error + hub_call (option error) :=
  match l with [] => inl None | _ => inr (HPut c dst l) end.

Definition hub_open (e : option error) (id : string) (h : hub)
    : list ((result error nat + hub_call (result error nat)) * hub) :=
  let '(r, h') := Open e id h in [(inl r, h')].

Definition hub_send (c : nat) (msg : Signal) (h : hub) : list ((option error + hub_call (option error)) * hub) :=
  match send_start c msg h with
  | (Err e, h) => [(inl (Some e), h)]
  | (Ok (dst, l), h) => [(put_rest c dst l, h)]
  end.

Definition ctx_case {A} (f : error -> A) (e : option error) : list A := f <$> option_list e.

Definition hub_put (e : option error) (c dst : nat) (l : list Signal) (h : hub)
    : list ((option error + hub_call (option error)) * hub) :=
  match l with
  | [] => [(inl None, h)]
  | sig :: rest =>
    omap (fun w => match send_one c dst sig w h with
                   | Some (Some err, h) => Some (inl (Some err), h)
                   | Some (None, h) => Some (put_rest c dst rest, h)
                   | None => None
                   end) ([SendRoom; SendDstClosed; SendClosed] ++ ctx_case SendCtx e)
  end.

Definition hub_receive (e : option error) (c : nat) (h : hub)
    : list ((result error Signal + hub_call (result error Signal)) * hub) :=
  omap (fun w => match Receive c w h with Some (r, h) => Some (inl r, h) | None => None end)
    ([RecvInbox; RecvClosed] ++ ctx_case RecvCtx e).

(** [sync.Once]: while the first [Close] is inside, which is while the connection is
    closed and registered, a second one waits. *)
Definition hub_close (c : nat) (h : hub) : list ((option error + hub_call (option error)) * hub) :=
  match conns h !! c with
  | Some x =>
    if closed x then if bool_decide (peers h !! local x = Some c) then [] else [(inl None, h)]
    else [(inr (HUnregister c), Close_mark c h)]
  | None => []
  end.

Definition hub_moves R (e : option error) (k : hub_call R) (h : hub) : list ((R + hub_call R) * hub) :=
  match k in hub_call R return list ((R + hub_call R) * hub) with
  | HOpen id => hub_open e id h
  | HSend c msg => hub_send c msg h
  | HPut c dst l => hub_put e c dst l h
  | HReceive c => hub_receive e c h
  | HClose c => hub_close c h
  | HUnregister c => [(inl None, unregister c h)]
  end.

#[export] Instance hub_signaler : Signaler hub nat := {|
  sg_call := hub_call; sg_begin := hub_begin; sg_moves := hub_moves |}.

(** ** The hub as a list of connections *)

(** The live connection of a peer. *)
Fixpoint live_at (i : nat) (id : string) (cs : list conn) : option nat :=
  match cs with
  | [] => None
  | x :: cs => if negb (closed x) && bool_decide (local x = id) then Some i else live_at (S i) id cs
  end.
Definition live : string -> list conn -> option nat := live_at 0.

(** A peer has at most one live connection. *)
Definition distinct (cs : list conn) : Prop := forall c d x y,
  cs !! c = Some x -> cs !! d = Some y -> closed x = false -> closed y = false -> local x = local y -> c = d.

(** Nobody is inside a [Close]; the hub has no fault. *)
Record hub_at (size : Z) (cs : list conn) (h : hub) : Prop := {
  ha_size : queueSize h = size;
  ha_fault : hfault h = NoFault;
  ha_fresh : fresh h = length cs;
  ha_conns : forall c, conns h !! c = cs !! c;
  ha_peers : forall id, peers h !! id = live id cs;
  ha_distinct : distinct cs
}.

Definition fresh_conn (id : string) : conn := {| local := id; inbox := []; closed := false |}.

Lemma live_at_snoc i id cs x :
  live_at i id (cs ++ [x]) =
    match live_at i id cs with
    | Some c => Some c
    | None => if negb (closed x) && bool_decide (local x = id) then Some (i + length cs)%nat else None
    end.
Proof.
  revert i. induction cs as [|y cs IH]; intros i; cbn [live_at app length].
  - by rewrite Nat.add_0_r.
  - destruct (negb (closed y) && _); [done|]. rewrite IH. destruct (live_at (S i) id cs); [done|].
    by rewrite Nat.add_succ_comm.
Qed.

Lemma live_at_Some i id cs c :
  live_at i id cs = Some c -> exists x, (i <= c)%nat /\ cs !! (c - i)%nat = Some x /\ closed x = false /\ local x = id.
Proof.
  revert i. induction cs as [|y cs IH]; intros i; cbn [live_at]; [done|].
  destruct (negb (closed y) && bool_decide (local y = id)) eqn:E.
  - intros [= <-]. apply andb_true_iff in E as [E1%negb_true_iff E2%bool_decide_eq_true].
    exists y. by rewrite Nat.sub_diag.
  - intros (x & Hc & Hx & ?)%IH. exists x. split; [lia|]. by replace (c - i)%nat with (S (c - S i)) by lia.
Qed.

Lemma live_Some id cs c : live id cs = Some c -> exists x, cs !! c = Some x /\ closed x = false /\ local x = id.
Proof. intros (x & _ & Hx & ?)%live_at_Some. exists x. by rewrite Nat.sub_0_r in Hx. Qed.

Lemma live_at_None i id cs x : live_at i id cs = None -> x ∈ cs -> closed x = false -> local x <> id.
Proof.
  revert i. induction cs as [|y cs IH]; intros i; cbn [live_at]; [by intros _ ?%elem_of_nil|].
  destruct (negb (closed y) && bool_decide (local y = id)) eqn:E; [done|].
  intros Hn [->|Hin]%elem_of_cons Hc; [|by eapply IH]. rewrite Hc in E. by apply bool_decide_eq_false in E.
Qed.

Lemma live_iff id cs c : distinct cs ->
  live id cs = Some c <-> exists x, cs !! c = Some x /\ closed x = false /\ local x = id.
Proof.
  intros D. split; [apply live_Some|]. intros (x & Hx & Ho & Hl). destruct (live id cs) as [d|] eqn:E.
  - f_equal. destruct (live_Some _ _ _ E) as (y & Hy & Hy' & Ey). apply (D d c y x); congruence.
  - by destruct (live_at_None 0 id cs x E (list_elem_of_lookup_2 _ _ _ Hx) Ho).
Qed.

(** A change of a connection that keeps its peer and whether it is closed. *)
Lemma live_at_alter i id c f cs :
  (forall x, local (f x) = local x /\ closed (f x) = closed x) -> live_at i id (alter f c cs) = live_at i id cs.
Proof.
  intros Hf. revert i c. induction cs as [|y cs IH]; intros i [|c]; [done|done| |]; cbn; [|by rewrite IH].
  destruct (Hf y) as [E1 E2]. by rewrite E1, E2.
Qed.

Lemma hub_at_New size : 0 < size -> hub_at size [] (New (Some size) NoFault).
Proof. intros Hs. split; try done. cbn. by destruct (Z.ltb_spec 0 size); [|lia]. Qed.

Lemma hub_at_open size cs h id : hub_at size cs h -> id <> ""%string -> live id cs = None ->
  exists h', Open None id h = (Ok (length cs), h') /\ hub_at size (cs ++ [fresh_conn id]) h'.
Proof.
  intros [Hs Hf Hn Hc Hp HD] Hid Hl. unfold Open. rewrite bool_decide_eq_false_2 by done. rewrite Hp, Hl, Hn.
  eexists. split; [reflexivity|]. split; simpl; [done|done|rewrite length_app; simpl; lia| | |].
  - intros c. destruct (decide (c = length cs)) as [->|Nc].
    + rewrite lookup_insert_eq. by rewrite list_lookup_middle.
    + rewrite lookup_insert_ne by done. rewrite Hc. destruct (decide (c < length cs)%nat).
      * by rewrite lookup_app_l.
      * rewrite !lookup_ge_None_2; [done|rewrite length_app; simpl; lia|lia].
  - intros id'. unfold live. rewrite live_at_snoc. cbn. destruct (bool_decide_reflect (id = id')) as [<-|N].
    + rewrite lookup_insert_eq. unfold live in Hl. by rewrite Hl.
    + rewrite lookup_insert_ne by done. rewrite Hp. unfold live. by destruct (live_at 0 id' cs).
  - assert (K : forall d y, cs !! d = Some y -> closed y = false -> local y <> id)
      by (intros d y Hy; by apply (live_at_None 0 id cs y Hl), list_elem_of_lookup_2 with d).
    intros c d x y [Hx|[Ec Ex]]%lookup_app_Some [Hy|[Ed Ey]]%lookup_app_Some Ox Oy E.
    + by apply (HD c d x y).
    + apply list_lookup_singleton_Some in Ey as [_ <-]. by destruct (K c x Hx Ox).
    + apply list_lookup_singleton_Some in Ex as [_ <-]. by destruct (K d y Hy Oy).
    + apply list_lookup_singleton_Some in Ex as [Ex _]. apply list_lookup_singleton_Some in Ey as [Ey _]. lia.
Qed.

Lemma hub_at_taken size cs h id c : hub_at size cs h -> id <> ""%string -> live id cs = Some c ->
  Open None id h = (Err (EWrap "memory: peer %q is already registered: %w" [ESent ErrDuplicatePeer]), h).
Proof. intros [Hs Hf Hn Hc Hp HD] Hid Hl. unfold Open. rewrite bool_decide_eq_false_2 by done. by rewrite Hp, Hl. Qed.

Lemma alter_Some f c d (cs : list conn) x :
  alter f c cs !! d = Some x <-> (c = d /\ exists y, cs !! d = Some y /\ x = f y) \/ (c <> d /\ cs !! d = Some x).
Proof.
  destruct (decide (c = d)) as [->|N].
  - rewrite list_lookup_alter_eq, fmap_Some. naive_solver.
  - rewrite list_lookup_alter_ne by done. naive_solver.
Qed.

(** The open connections of [cs'] are those of [cs], or fewer. *)
Lemma distinct_sub cs cs' :
  (forall c x, cs' !! c = Some x -> closed x = false -> exists y, cs !! c = Some y /\ closed y = false
    /\ local y = local x) ->
  distinct cs -> distinct cs'.
Proof.
  intros Hk D c d x y Hx Hy Ox Oy E. destruct (Hk _ _ Hx Ox) as (x' & Hx' & Ox' & Ex).
  destruct (Hk _ _ Hy Oy) as (y' & Hy' & Oy' & Ey). apply (D c d x' y'); congruence.
Qed.

Lemma hub_at_alter size cs h c f : hub_at size cs h ->
  (forall x, local (f x) = local x /\ closed (f x) = closed x) -> hub_at size (alter f c cs) (on_conn c f h).
Proof.
  intros [Hs Hf Hn Hc Hp HD] Hk. split; cbn [on_conn queueSize hfault fresh conns peers]; [done|done| | | |].
  - by rewrite length_alter.
  - intros d. simpl. destruct (decide (c = d)) as [->|N].
    + by rewrite lookup_alter_eq, list_lookup_alter_eq, Hc.
    + by rewrite lookup_alter_ne, list_lookup_alter_ne, Hc.
  - intros id. unfold live. rewrite live_at_alter by done. apply Hp.
  - refine (distinct_sub cs _ _ HD). intros d x. rewrite alter_Some.
    intros [(<- & y & Hy & ->)|(_ & Hy)] Ox; [|by exists x]. exists y. destruct (Hk y) as [<- <-]. done.
Qed.

(** A whole [Close]. *)
Definition shut (x : conn) : conn := x <| closed := true |>.

Lemma hub_at_close size cs h c x : hub_at size cs h -> cs !! c = Some x -> closed x = false ->
  hub_at size (alter shut c cs) (unregister c (Close_mark c h)).
Proof.
  intros [Hs Hf Hn Hc Hp HD] Hx Ho. assert (Hl : live (local x) cs = Some c) by (apply live_iff; eauto).
  assert (HD' : distinct (alter shut c cs)).
  { refine (distinct_sub cs _ _ HD). intros d y. rewrite alter_Some.
    intros [(<- & z & Hz & ->)|(_ & Hy)] Oy; [done|by exists y]. }
  unfold unregister, Close_mark, on_conn. simpl. rewrite lookup_alter_eq, Hc, Hx. simpl.
  rewrite bool_decide_eq_true_2 by (by rewrite Hp). split; simpl; [done|done|by rewrite length_alter| | |done].
  - intros d. destruct (decide (c = d)) as [->|N].
    + by rewrite lookup_alter_eq, list_lookup_alter_eq, Hc.
    + by rewrite lookup_alter_ne, list_lookup_alter_ne, Hc.
  - intros id. apply option_eq. intros d. rewrite lookup_delete_Some, Hp, !live_iff by done.
    setoid_rewrite alter_Some. split.
    + intros (N & y & Hy & Oy & E). exists y. split; [|done]. right. split; [|done]. intros ->. congruence.
    + intros (y & [(<- & z & Hz & ->)|(N & Hy)] & Oy & <-); [done|]. split; [|eauto].
      intros E. destruct N. by apply (HD c d x y).
Qed.

(** ** The moves of a call *)

Definition push (sig : Signal) (x : conn) : conn := x <| inbox := inbox x ++ [sig] |>.
Definition pop (x : conn) : conn := x <| inbox := tail (inbox x) |>.

Section moves.
Variable size : Z.
Variables (cs : list conn) (h : hub).
Hypothesis I : hub_at size cs h.

Lemma hub_same : h <| hfault := NoFault |> = h.
Proof. destruct I as [_ E _ _ _ _]. destruct h. simpl in *. by subst. Qed.

(** A send that passes the checks reaches the loop. *)
Lemma moves_send c x d msg : cs !! c = Some x -> closed x = false -> From msg = local x -> live (To msg) cs = Some d ->
  hub_send c msg h = [(inr (HPut c d [msg]), h)].
Proof.
  intros Hx Ho Hm Hl. unfold hub_send, send_start. rewrite (ha_conns _ _ _ I), Hx, Ho, bool_decide_eq_true_2 by done.
  unfold lookup_peer. rewrite (ha_peers _ _ _ I), Hl, (ha_fault _ _ _ I). cbn [Apply].
  by rewrite hub_same.
Qed.

Lemma moves_send_closed c x msg : cs !! c = Some x -> closed x = true ->
  hub_send c msg h = [(inl (Some (ESent ErrClosed)), h)].
Proof. intros Hx Ho. unfold hub_send, send_start. by rewrite (ha_conns _ _ _ I), Hx, Ho. Qed.

Lemma moves_send_nobody c x msg : cs !! c = Some x -> closed x = false -> From msg = local x ->
  live (To msg) cs = None ->
  hub_send c msg h = [(inl (Some (EWrap "memory: peer %q is not registered: %w" [ESent ErrPeerUnavailable])), h)].
Proof.
  intros Hx Ho Hm Hl. unfold hub_send, send_start. rewrite (ha_conns _ _ _ I), Hx, Ho, bool_decide_eq_true_2 by done.
  unfold lookup_peer. by rewrite (ha_peers _ _ _ I), Hl.
Qed.

(** The loop puts the signal, or waits for room. *)
Lemma moves_put c x d y sig : cs !! c = Some x -> closed x = false -> cs !! d = Some y -> closed y = false ->
  hub_put None c d [sig] h = if zlen (inbox y) <? size then [(inl None, on_conn d (push sig) h)] else [].
Proof.
  intros Hx Ho Hy Oy. unfold hub_put, send_one. cbn [ctx_case option_list fmap list_fmap app omap list_omap].
  rewrite !(ha_conns _ _ _ I), Hx, Hy, Ho, Oy, (ha_size _ _ _ I). by destruct (zlen (inbox y) <? size).
Qed.

Lemma moves_receive e c x : cs !! c = Some x -> closed x = false ->
  hub_receive e c h = match inbox x with sig :: _ => [(inl (Ok sig), on_conn c pop h)] | [] => [] end ++
                      ctx_case (fun e => (inl (Err e), h)) e.
Proof.
  intros Hx Ho. unfold hub_receive, Receive. cbn [app omap list_omap]. rewrite !(ha_conns _ _ _ I), Hx, Ho.
  assert (E : forall sig rest, inbox x = sig :: rest ->
    on_conn c (fun x => x <| inbox := rest |>) h = on_conn c pop h).
  { intros sig rest E. unfold on_conn. destruct h. simpl in *. f_equal. apply map_eq. intros d.
    pose proof (ha_conns _ _ _ I c) as Hc. simpl in Hc. destruct (decide (c = d)) as [<-|N].
    - rewrite !lookup_alter_eq, Hc, Hx. unfold pop. simpl. by rewrite E.
    - by rewrite !lookup_alter_ne. }
  destruct (inbox x) as [|sig rest]; [|rewrite (E sig rest eq_refl)];
    destruct e as [e|]; cbn; by rewrite ?(ha_conns _ _ _ I), ?Hx.
Qed.

Lemma moves_receive_closed e c x : cs !! c = Some x -> closed x = true -> inbox x = [] ->
  hub_receive e c h = (inl (Err (ESent ErrClosed)), h) :: ctx_case (fun e => (inl (Err e), h)) e.
Proof.
  intros Hx Ho Hb. unfold hub_receive, Receive. cbn [app omap list_omap]. rewrite !(ha_conns _ _ _ I), Hx, Ho, Hb.
  destruct e as [e|]; cbn; by rewrite ?(ha_conns _ _ _ I), ?Hx.
Qed.

Lemma moves_close c x : cs !! c = Some x -> 
  hub_close c h = if closed x then [(inl None, h)] else [(inr (HUnregister c), Close_mark c h)].
Proof.
  intros Hx. unfold hub_close. rewrite (ha_conns _ _ _ I), Hx. destruct (closed x) eqn:Ho; [|done].
  rewrite bool_decide_eq_false_2; [done|]. rewrite (ha_peers _ _ _ I). intros (y & Hy & Oy & _)%live_Some. congruence.
Qed.
End moves.
