(* ===== verification/ConformanceProps.v ===== *)
(** * The hub passes the tests of one goroutine

    [solo] says that a test whose only goroutine is at [t], with the hub at [cs], passes on
    every schedule. Its rules follow the program: one per operation that the subtests of
    [Conformance] use. *)

From Stdlib Require Import String.
From ITree Require Import Core.ITreeDefinition Indexed.Sum.
From S2P Require Import Prelude.
From S2P Require Import Errors.
From S2P Require Import Utf8.
From S2P Require Import Json.
From S2P Require Import JsonCodec.
From S2P Require Import JsonAny.
From S2P Require Import Stream.
From S2P Require Import Signal.
From S2P Require Import Signaling.
From S2P Require Import Conformance.
From S2P Require Import Memory.
From S2P Require Import MemorySignaler.

#[local] Arguments NewID : simpl never.
#[local] Arguments Validate : simpl never.
#[local] Arguments sameJSON : simpl never.
#[local] Arguments sdpPayload : simpl never.

Abbreviation tworld := (@world hub nat hub_signaler).
Abbreviation tree := (itree' (signalE nat +' runE nat) unit).

Definition passed (w : tworld) : Prop := verdict w = Some true.

(** To its head event. *)
Ltac to_head :=
  match goal with
  | |- context [@observe ?E ?R ?p] => let t := eval hnf in (@observe E R p) in change (@observe E R p) with t
  end.

Section solo.
Variable size : Z.
Hypothesis Hsize : 0 < size.
Variable rand : nat -> bytes.

(** The state around the goroutine: the time, how many IDs were drawn, the contexts
    created and those cancelled, the channels, the cleanups registered, the wait group. *)
Record around := Around {
  a_now : Z; a_draws : nat; a_tokens : nat; a_cancelled : list nat; a_chans : list chan; a_cleanup : list nat;
  a_wg : Z
}.

Definition world_of (a : around) (h : hub) (ths : list thread) : tworld := {|
  w_sig := h; w_now := a_now a; w_rand := rand; w_draws := a_draws a; w_tokens := a_tokens a;
  w_cancelled := a_cancelled a; w_chans := a_chans a; w_wg := a_wg a; w_failed := false; w_panicked := false;
  w_cleanup := a_cleanup a; w_threads := ths |}.

(** Goroutines that have returned. *)
Variable dead : nat.
Definition with_dead (th : thread) : list thread := th :: replicate dead (Idle (H := hub_signaler) (RetF tt)).

Definition solo (a : around) (cs : list conn) (t : tree) : Prop :=
  forall h, hub_at size cs h -> eventually moves passed (world_of a h (with_dead (Idle t))).

Lemma mjoin_imap_nil {A B} (f : nat -> A -> list B) l :
  (forall i x, l !! i = Some x -> f i x = []) -> mjoin (imap f l) = [].
Proof.
  revert f. induction l as [|x l IH]; intros f Hf; [done|]. cbn [imap mjoin list_join].
  rewrite (Hf 0%nat x) by done. apply (IH (f ∘ S)). intros i y. apply (Hf (S i)).
Qed.

Lemma moves_solo a h th :
  moves (world_of a h (with_dead th)) =
    match thread_moves (world_of a h (with_dead th)) 0 th with
    | [] => match timers (world_of a h (with_dead th)) with
            | d :: ds => [world_of a h (with_dead th) <| w_now := foldr Z.min d ds |>] | [] => [] end
    | l => l
    end.
Proof.
  unfold moves. cbn [world_of w_panicked w_threads with_dead imap mjoin list_join].
  change (@list_join _) with (@mjoin list list_join _). rewrite mjoin_imap_nil, app_nil_r; [done|].
  intros i x [-> _]%lookup_replicate. done.
Qed.

Lemma timers_solo a h th :
  timers (world_of a h (with_dead th)) = filter (fun d => a_now a < d) (option_list (thread_timer th)).
Proof.
  unfold timers. cbn [world_of w_threads with_dead w_now]. f_equal.
  replace (omap thread_timer _)
    with (option_list (thread_timer th) ++ omap thread_timer (replicate dead (Idle (H := hub_signaler) (RetF tt))))
    by (cbn; by destruct (thread_timer th)).
  replace (omap _ _) with (@nil Z); [by rewrite app_nil_r|]. induction dead as [|n IH]; [done|]. cbn. by rewrite <- IH.
Qed.

(** ** The runtime *)

Section runtime.
Variables (now : Z) (n toks : nat) (can : list nat) (chans : list chan) (cl : list nat) (wg : Z) (cs : list conn).
Abbreviation a := (Around now n toks can chans cl wg).

Lemma solo_now k : solo a cs (observe (k now)) -> solo a cs (VisF (inr1 Now) k).
Proof. intros S h I. eapply ev_one; [by rewrite moves_solo|]. by apply S. Qed.

Lemma solo_rand k : solo (Around now (S n) toks can chans cl wg) cs (observe (k (NewID (rand n)))) ->
  solo a cs (VisF (inr1 RandID) k).
Proof. intros S h I. eapply ev_one; [by rewrite moves_solo|]. by apply S. Qed.

Lemma solo_cleanup c k : solo (Around now n toks can chans (c :: cl) wg) cs (observe (k tt)) ->
  solo a cs (VisF (inr1 (Cleanup c)) k).
Proof. intros S h I. eapply ev_one; [by rewrite moves_solo|]. by apply S. Qed.

Lemma solo_token k : solo (Around now n (S toks) can chans cl wg) cs (observe (k toks)) ->
  solo a cs (VisF (inr1 WithCancel) k).
Proof. intros S h I. eapply ev_one; [by rewrite moves_solo|]. by apply S. Qed.

Lemma solo_cancel tok k : solo (Around now n toks (tok :: can) chans cl wg) cs (observe (k tt)) ->
  solo a cs (VisF (inr1 (Cancel tok)) k).
Proof. intros S h I. eapply ev_one; [by rewrite moves_solo|]. by apply S. Qed.

Lemma solo_make cap k :
  solo (Around now n toks can (chans ++ [{| ch_cap := cap; ch_buf := []; ch_closed := false |}]) cl wg) cs
    (observe (k (length chans))) -> solo a cs (VisF (inr1 (Make cap)) k).
Proof. intros S h I. eapply ev_one; [by rewrite moves_solo|]. by apply S. Qed.

Lemma solo_skip k : solo a cs (RetF tt) -> solo a cs (VisF (inr1 Skip) k).
Proof. intros S h I. eapply ev_one; [by rewrite moves_solo|]. by apply S. Qed.
End runtime.

(** ** Calls of the hub *)

Definition around_err (x : ctx) (a : around) : option error := ctx_err x (world_of a (New None NoFault) []).

(** Any call whose next step is the only one. *)
Lemma ev_call a h (x : ctx) {R} (c : hub_call R) k h' (r : R + hub_call R) :
  hub_moves R (around_err x a) c h = [(r, h')] ->
  eventually moves passed
    (world_of a h' (with_dead match r with inl v => Idle (observe (k v)) | inr c => InCall x c k end)) ->
  eventually moves passed (world_of a h (with_dead (InCall (H := hub_signaler) x c k))).
Proof.
  intros E Hr. eapply ev_one; [|exact Hr]. rewrite moves_solo. unfold thread_moves.
  change (ctx_err x _) with (around_err x a). cbn [world_of w_sig sg_moves hub_signaler]. rewrite E. cbn. by destruct r.
Qed.

Lemma solo_begin a cs {R} (o : signalE nat R) k :
  (forall h, hub_at size cs h ->
     eventually moves passed (world_of a h (with_dead (InCall (H := hub_signaler) (call_ctx o) (hub_begin R o) k)))) ->
  solo a cs (VisF (inl1 o) k).
Proof. intros S h I. eapply ev_one; [by rewrite moves_solo|]. by apply S. Qed.

Lemma solo_open a cs x id k : around_err x a = None -> id <> ""%string -> live id cs = None ->
  solo a (cs ++ [fresh_conn id]) (observe (k (Ok (length cs)))) -> solo a cs (VisF (inl1 (Signaling.Open x id)) k).
Proof.
  intros Hx Hid Hl S. apply solo_begin. intros h I. destruct (hub_at_open size cs h id I Hid Hl) as (h' & E & I').
  eapply (ev_call a h); [cbn [hub_moves hub_begin call_ctx]; rewrite Hx; unfold hub_open; by rewrite E|]. by apply S.
Qed.

Lemma solo_open_ctx a cs x id k e : around_err x a = Some e -> id <> ""%string ->
  solo a cs (observe (k (Err e))) -> solo a cs (VisF (inl1 (Signaling.Open x id)) k).
Proof.
  intros Hx Hid S. apply solo_begin. intros h I.
  eapply (ev_call a h).
  { cbn [hub_moves hub_begin call_ctx]. rewrite Hx. unfold hub_open, Open. by rewrite bool_decide_eq_false_2. }
  by apply S.
Qed.

Lemma solo_open_taken a cs x id c k : around_err x a = None -> id <> ""%string -> live id cs = Some c ->
  solo a cs (observe (k (Err (EWrap "memory: peer %q is already registered: %w" [ESent ErrDuplicatePeer])))) ->
  solo a cs (VisF (inl1 (Signaling.Open x id)) k).
Proof.
  intros Hx Hid Hl S. apply solo_begin. intros h I.
  eapply (ev_call a h).
  { cbn [hub_moves hub_begin call_ctx]. rewrite Hx. unfold hub_open. by rewrite (hub_at_taken _ _ _ _ _ I Hid Hl). }
  by apply S.
Qed.

(** A send into an open queue with room. *)
Lemma solo_send a cs x c y d z msg k : around_err x a = None ->
  cs !! c = Some y -> closed y = false -> From msg = local y -> live (To msg) cs = Some d -> cs !! d = Some z ->
  inbox z = [] ->
  solo a (alter (push msg) d cs) (observe (k None)) -> solo a cs (VisF (inl1 (Signaling.Send x c msg)) k).
Proof.
  intros Hx Hy Oy Hm Hl Hz Ez S. apply solo_begin. intros h I.
  destruct (live_Some _ _ _ Hl) as (z' & Hz' & Oz & _).
  eapply (ev_call a h); [exact (moves_send size cs h I c y d msg Hy Oy Hm Hl)|].
  eapply (ev_call a h).
  { cbn [hub_moves hub_begin call_ctx]. rewrite Hx, (moves_put size cs h I c y d z); [|done|done|done|congruence].
    rewrite Ez. change (zlen (@nil Signal.Signal)) with 0. by destruct (Z.ltb_spec 0 size); [|lia]. }
  apply S. by apply hub_at_alter.
Qed.

Lemma solo_send_closed a cs x c y msg k : cs !! c = Some y -> closed y = true ->
  solo a cs (observe (k (Some (ESent ErrClosed)))) -> solo a cs (VisF (inl1 (Signaling.Send x c msg)) k).
Proof.
  intros Hy Oy S. apply solo_begin. intros h I.
  eapply (ev_call a h); [exact (moves_send_closed size cs h I c y msg Hy Oy)|]. by apply S.
Qed.

Lemma solo_send_nobody a cs x c y msg k : cs !! c = Some y -> closed y = false -> From msg = local y ->
  live (To msg) cs = None ->
  solo a cs (observe (k (Some (EWrap "memory: peer %q is not registered: %w" [ESent ErrPeerUnavailable])))) ->
  solo a cs (VisF (inl1 (Signaling.Send x c msg)) k).
Proof.
  intros Hy Oy Hm Hl S. apply solo_begin. intros h I.
  eapply (ev_call a h); [exact (moves_send_nobody size cs h I c y msg Hy Oy Hm Hl)|]. by apply S.
Qed.

Lemma solo_receive a cs x c y sig rest k : around_err x a = None ->
  cs !! c = Some y -> closed y = false -> inbox y = sig :: rest ->
  solo a (alter pop c cs) (observe (k (Ok sig))) -> solo a cs (VisF (inl1 (Signaling.Receive x c)) k).
Proof.
  intros Hx Hy Oy E S. apply solo_begin. intros h I.
  eapply (ev_call a h).
  { cbn [hub_moves hub_begin call_ctx]. by rewrite Hx, (moves_receive size cs h I None c y), E. }
  apply S. by apply hub_at_alter.
Qed.

Lemma solo_receive_closed a cs x c y k : around_err x a = None ->
  cs !! c = Some y -> closed y = true -> inbox y = [] ->
  solo a cs (observe (k (Err (ESent ErrClosed)))) -> solo a cs (VisF (inl1 (Signaling.Receive x c)) k).
Proof.
  intros Hx Hy Oy E S. apply solo_begin. intros h I.
  eapply (ev_call a h).
  { cbn [hub_moves hub_begin call_ctx]. by rewrite Hx, (moves_receive_closed size cs h I None c y). }
  by apply S.
Qed.

(** A receive that nothing can end before its deadline. *)
Lemma solo_receive_deadline now n toks can chans cl wg cs d c y k : now < d ->
  cs !! c = Some y -> closed y = false -> inbox y = [] ->
  solo (Around d n toks can chans cl wg) cs (observe (k (Err (ESent context_DeadlineExceeded)))) ->
  solo (Around now n toks can chans cl wg) cs
    (VisF (inl1 (Signaling.Receive {| x_deadline := Some d; x_token := None |} c)) k).
Proof.
  intros Hd Hy Oy E S. apply solo_begin. intros h I.
  eapply (ev_one _ _ _ (world_of (Around d n toks can chans cl wg) h (with_dead (InCall (H := hub_signaler) _ _ _)))).
  - rewrite moves_solo, timers_solo. unfold thread_moves.
    cbn [world_of w_sig sg_moves hub_signaler hub_moves hub_begin call_ctx].
    rewrite (moves_receive size cs h I _ c y), E by done. unfold ctx_err. cbn [x_token x_deadline].
    change (w_now (world_of _ _ _)) with now. destruct (Z.leb_spec d now); [lia|].
    cbn [thread_timer x_deadline a_now]. change (option_list (Some d)) with [d]. cbn [ctx_case app fmap list_fmap].
    rewrite filter_cons_True by done. done.
  - eapply (ev_call _ h).
    { cbn [hub_moves]. rewrite (moves_receive size cs h I _ c y), E by done. unfold around_err, ctx_err. cbn.
      by destruct (Z.leb_spec d d); [|lia]. }
    by apply S.
Qed.

Lemma solo_close a cs c y k : cs !! c = Some y -> closed y = false ->
  solo a (alter shut c cs) (observe (k None)) -> solo a cs (VisF (inl1 (Signaling.Close c)) k).
Proof.
  intros Hy Oy S. apply solo_begin. intros h I.
  eapply (ev_call a h).
  { cbn. rewrite (moves_close size cs h I c y Hy), Oy. reflexivity. }
  eapply (ev_call a (Close_mark c h)); [reflexivity|]. apply S. by apply (hub_at_close size cs h c y).
Qed.

Lemma solo_close_again a cs c y k : cs !! c = Some y -> closed y = true ->
  solo a cs (observe (k None)) -> solo a cs (VisF (inl1 (Signaling.Close c)) k).
Proof.
  intros Hy Oy S. apply solo_begin. intros h I. eapply (ev_call a h).
  { cbn. by rewrite (moves_close size cs h I c y Hy), Oy. }
  by apply S.
Qed.

(** ** The end of the test *)

Lemma solo_ret a cs u : Forall (fun c => is_Some (cs !! c)) (a_cleanup a) -> solo a cs (RetF u).
Proof.
  destruct a as [now n toks can chans cl wg]. cbn. intros Hcl. revert cs u Hcl.
  induction cl as [|c cl IH]; intros cs u Hcl h I; [apply ev_now; reflexivity|].
  inversion_clear Hcl as [|? ? [y Hy] Hcl'].
  eapply ev_one; [by rewrite moves_solo|].
  assert (S : solo {| a_now := now; a_draws := n; a_tokens := toks; a_cancelled := can; a_chans := chans;
    a_cleanup := cl; a_wg := wg |}
                cs (VisF (inl1 (Signaling.Close c)) (fun _ => mret tt))).
  { destruct (closed y) eqn:Oy; [apply (solo_close_again _ _ _ y)|apply (solo_close _ _ _ y)]; try done; apply IH;
    [done|].
    eapply Forall_impl; [exact Hcl'|]. intros d [z Hz]. destruct (decide (c = d)) as [->|N].
    - rewrite list_lookup_alter_eq, Hz. eauto.
    - rewrite list_lookup_alter_ne, Hz; eauto. }
  specialize (S h I). inversion S as [P|_ S']; [done|]. apply S'.
  rewrite moves_solo. by apply list_elem_of_singleton.
Qed.
End solo.

(** ** Running a test *)

Lemma same_text_refl s : same s s = true.
Proof. unfold same. by apply bool_decide_eq_true_2. Qed.

(** A bind whose first part has returned goes on, at any depth the suite has. *)
Section returned.
Context {E : Type -> Type} {A B D F G : Type}.
Variables (x : A) (k1 : A -> itree E B) (k2 : B -> itree E D) (k3 : D -> itree E F) (k4 : F -> itree E G).

Lemma returned1 : observe (ITree.bind (Ret x) k1) = observe (k1 x).
Proof. reflexivity. Qed.
Lemma returned2 : observe (ITree.bind (ITree.bind (Ret x) k1) k2) = observe (ITree.bind (k1 x) k2).
Proof. reflexivity. Qed.
Lemma returned3 :
  observe (ITree.bind (ITree.bind (ITree.bind (Ret x) k1) k2) k3) = observe (ITree.bind (ITree.bind (k1 x) k2) k3).
Proof. reflexivity. Qed.
Lemma returned4 :
  observe (ITree.bind (ITree.bind (ITree.bind (ITree.bind (Ret x) k1) k2) k3) k4) =
  observe (ITree.bind (ITree.bind (ITree.bind (k1 x) k2) k3) k4).
Proof. reflexivity. Qed.
End returned.

Ltac unbind := cbv beta iota delta [mbind mret itree_bind itree_ret].
Ltac settle :=
  unbind; repeat (first [rewrite returned1 | rewrite returned2 | rewrite returned3 | rewrite returned4]; unbind).

(** The part of a program that runs first, and the program with it replaced. *)
Ltac head_of t := lazymatch t with ITree.bind ?u _ => head_of u | _ => t end.
Ltac with_head t u :=
  lazymatch t with
  | ITree.bind ?t' ?k => let t'' := with_head t' u in constr:(ITree.bind t'' k)
  | _ => u
  end.

(** The condition of a [t.Fatal] or [t.Error] that does not hold. *)
Lemma holds_fatal size rand dead a cs (K : prog nat unit -> prog nat unit) b : b = false ->
  solo size rand dead a cs (observe (K (Ret tt))) -> solo size rand dead a cs (observe (K (fatal_if b))).
Proof. by intros ->. Qed.

Lemma holds_error size rand dead a cs (K : prog nat unit -> prog nat unit) b : b = false ->
  solo size rand dead a cs (observe (K (Ret tt))) -> solo size rand dead a cs (observe (K (error_if b))).
Proof. by intros ->. Qed.

Ltac holds tac :=
  match goal with
  | |- context [observe ?t] =>
    let K := constr:(fun z : prog nat unit => ltac:(let r := with_head t z in exact r)) in
    lazymatch head_of t with
    | fatal_if ?b => apply (holds_fatal _ _ _ _ _ K b); [tac|settle]
    | error_if ?b => apply (holds_error _ _ _ _ _ K b); [tac|settle]
    end
  end.

(** ** The signals of the suite *)

Definition zero_id : string := of_bytes (repeat (chr "0") 32).

Lemma Validate_ids id session kind from to payload : validID id = true -> validID session = true ->
  Validate {| Version := ProtocolVersion; ID := id; SessionID := session; Kind := kind; From := from; To := to;
    Payload := payload |} =
  Validate {| Version := ProtocolVersion; ID := zero_id; SessionID := zero_id; Kind := kind; From := from; To := to;
    Payload := payload |}.
Proof.
  intros Hi Hs. unfold Validate. cbn [ID SessionID Version From To Payload]. rewrite Hi, Hs.
  by rewrite (eq_refl : validID zero_id = true).
Qed.

Lemma sdp_same sdp : valid_string sdp = true -> sameJSON (sdpPayload sdp) (sdpPayload sdp) = true.
Proof.
  intros Hv. apply sameJSON_refl. right. unfold unmarshal_any, unmarshal_value, sdpPayload.
  pose proof (object_parse (str_member "sdp" sdp) []) as Hp. cbv zeta in Hp.
    change ([printed ?m]) with (printed <$> [m]).
  rewrite Hp; [eexists; reflexivity|by apply str_member_ok|done].
Qed.

Lemma valid_string_app a b : valid_string a = true -> valid_string b = true -> valid_string (a +:+ b) = true.
Proof.
  unfold valid_string. intros Ha Hb.
  replace (list_ascii_of_string (a +:+ b)) with (list_ascii_of_string a ++ list_ascii_of_string b);
    [by apply valid_app|].
  induction a as [|c a IH] in |- *; [done|]. cbn. by rewrite IH.
Qed.

Lemma Repeat_valid s n body : valid_string s = true -> Repeat s n = Some body -> valid_string body = true.
Proof.
  unfold Repeat. destruct (n <? 0); [done|]. intros Hs [= <-].
  induction (Z.to_nat n) as [|k IH]; [done|]. cbn [repeat String.concat].
  destruct k; [done|]. by apply valid_string_app, IH.
Qed.

(** ** Tactics that run a program *)

Ltac go_on :=
  try to_head;
  first [ apply solo_now | apply solo_rand | apply solo_cleanup
        | apply solo_open; [done|done|done|cbn [length app]]
        | eapply solo_send; [done|done|reflexivity|reflexivity|reflexivity|reflexivity|reflexivity|reflexivity|]
        | eapply solo_receive; [done|reflexivity|reflexivity|reflexivity|] ].

Ltac go_all := repeat (go_on; settle).
Ltac finish := apply solo_ret; repeat constructor; eexists; reflexivity.

(** The conditions on a signal that arrived as it was sent. *)
Ltac arrived := holds ltac:(idtac;
  lazymatch goal with
  | |- context [Validate] => rewrite Validate_ids by (by apply NewID_valid); vm_compute; reflexivity
  | |- context [sameJSON] => cbn [Payload]; vm_compute; reflexivity
  | |- _ => rewrite ?Z.eqb_refl, ?same_text_refl; reflexivity
  end).

Section subtests.
Variable size : Z.
Hypothesis Hsize : 0 < size.
Variable rand : nat -> bytes.
Hypothesis Hrand : forall n, List.length (rand n) = 16%nat.

Definition passes (t : prog nat unit) : Prop :=
  eventually moves passed (start_test (New (Some size) NoFault) rand t).

Lemma solo_passes t : solo size rand 0 (Around 0 0 0 [] [] [] 0) [] (observe t) -> passes t.
Proof. intros S. apply S. by apply hub_at_New. Qed.

Lemma roundtrip cfg : passes (testRoundTrip cfg).
Proof. apply solo_passes. unfold testRoundTrip. go_all. holds ltac:(by rewrite !same_text_refl). finish. Qed.

Lemma envelope cfg : passes (testEnvelopeSurvives cfg).
Proof.
  apply solo_passes. unfold testEnvelopeSurvives. do 3 (go_all; repeat arrived).
  finish.
Qed.

Lemma bidirectional cfg : passes (testBidirectional cfg).
Proof.
  apply solo_passes. unfold testBidirectional. go_all. arrived. finish.
Qed.

Lemma isolation cfg : passes (testIsolation cfg).
Proof.
  apply solo_passes. unfold testIsolation. go_all.
  to_head. eapply solo_receive_deadline; [done|reflexivity|reflexivity|reflexivity|]. settle. arrived. finish.
Qed.

Lemma honours_cancelled cfg : passes (testOpenHonorsCancelledContext cfg).
Proof.
  apply solo_passes. unfold testOpenHonorsCancelledContext. to_head. apply solo_token. settle. to_head.
    apply solo_cancel.
  settle. to_head. eapply solo_open_ctx; [reflexivity|done|]. settle. holds ltac:(done). finish.
Qed.

Lemma close_idempotent cfg : passes (testCloseIsIdempotent cfg).
Proof.
  apply solo_passes. unfold testCloseIsIdempotent. go_all.
  to_head. eapply solo_close; [reflexivity|done|]. settle. holds ltac:(done).
  do 2 (to_head; eapply solo_close_again; [reflexivity|done|]; settle; holds ltac:(done)). finish.
Qed.

Lemma use_after_close cfg : passes (testUseAfterCloseFails cfg).
Proof.
  apply solo_passes. unfold testUseAfterCloseFails. go_all.
  to_head. eapply solo_close; [reflexivity|done|]. settle. holds ltac:(done). go_all.
  to_head. eapply solo_send_closed; [reflexivity|done|]. settle. holds ltac:(done).
  to_head. eapply solo_receive_closed; [done|reflexivity|done|done|]. settle. holds ltac:(done). go_all.
  to_head. eapply solo_send_nobody; [reflexivity|done|done|done|]. settle. holds ltac:(done). finish.
Qed.

Lemma duplicate_peer cfg : passes (testDuplicatePeer cfg).
Proof.
  apply solo_passes. unfold testDuplicatePeer. destruct (RejectsDuplicatePeers cfg); cbn [negb].
  2: { to_head. apply solo_skip. finish. }
  go_all. to_head. eapply solo_open_taken; [done|done|reflexivity|]. settle. holds ltac:(done).
  to_head. eapply solo_close; [reflexivity|done|]. settle. holds ltac:(done). go_all.
  to_head. eapply solo_close; [reflexivity|done|]. settle. finish.
Qed.

Lemma unavailable_peer cfg : passes (testUnavailablePeer cfg).
Proof.
  apply solo_passes. unfold testUnavailablePeer. destruct (ReportsUnavailablePeer cfg); cbn [negb].
  2: { to_head. apply solo_skip. finish. }
  go_all. to_head. eapply solo_send_nobody; [reflexivity|done|done|done|]. settle. holds ltac:(done). finish.
Qed.
(** A smaller [MaxPayload] makes the count of [strings.Repeat] negative. *)
Lemma large_payload cfg : 60 <= MaxPayload cfg -> passes (testLargePayload cfg).
Proof.
  intros Hm. apply solo_passes. unfold testLargePayload.
  destruct (Repeat (line "a=x") (Z.quot (MaxPayload cfg - 64) 5)) as [body|] eqn:E.
  - assert (Hv : valid_string (line "v=0" +:+ body) = true).
    { apply valid_string_app; [by vm_compute|]. by eapply Repeat_valid; [|exact E]; vm_compute. }
    go_all. holds ltac:(cbn [Payload]; by rewrite sdp_same). finish.
  - unfold Repeat in E. destruct (Z.ltb_spec (Z.quot (MaxPayload cfg - 64) 5) 0) as [Hq|]; [|done].
    assert (-5 < MaxPayload cfg - 64) by lia. pose proof (Z.quot_rem' (MaxPayload cfg - 64) 5).
    destruct (decide (0 <= MaxPayload cfg - 64)).
    + pose proof (Z.quot_pos (MaxPayload cfg - 64) 5). lia.
    + pose proof (Z.rem_nonpos (MaxPayload cfg - 64) 5). pose proof (Z.rem_bound_neg_pos (MaxPayload cfg - 64) 5). lia.
Qed.
End subtests.
