(* ===== verification/ConformanceRaces.v ===== *)
(** * The hub passes the tests that race two goroutines

    First the moves of one goroutine among others, as equations; then the two subtests in
    which one goroutine cancels or closes under the other: their schedules are few. *)

From Stdlib Require Import String.
From ITree Require Import Core.ITreeDefinition Indexed.Sum.
From S2P Require Import Prelude.
From S2P Require Import Errors.
From S2P Require Import Json.
From S2P Require Import Stream.
From S2P Require Import Signal.
From S2P Require Import Signaling.
From S2P Require Import Conformance.
From S2P Require Import Memory.
From S2P Require Import MemorySignaler.
From S2P Require Import ConformanceProps.

#[local] Arguments NewID : simpl never.

Abbreviation hthread := (@thread hub nat hub_signaler).

(** ** The moves of one goroutine among others *)

Section goroutine.
Variable rand : nat -> bytes.
Variables (now : Z) (n toks : nat) (can : list nat) (chans : list chan) (cl : list nat) (wg : Z).
Variables (h : hub) (ths : list hthread) (i : nat).
Abbreviation a := (Around now n toks can chans cl wg).
Abbreviation w := (world_of rand a h ths).
Abbreviation at_ t := (<[i := Idle (observe t)]> ths).

Lemma mv_ret u : thread_moves w (S i) (Idle (RetF u)) = [].
Proof. reflexivity. Qed.
Lemma mv_tau t : thread_moves w i (Idle (TauF t)) = [world_of rand a h (at_ t)].
Proof. reflexivity. Qed.
Lemma mv_now k : thread_moves w i (Idle (VisF (inr1 Now) k)) = [world_of rand a h (at_ (k now))].
Proof. reflexivity. Qed.
Lemma mv_rand k : thread_moves w i (Idle (VisF (inr1 RandID) k)) =
  [world_of rand (Around now (S n) toks can chans cl wg) h (at_ (k (NewID (rand n))))].
Proof. reflexivity. Qed.
Lemma mv_cancel tok k : thread_moves w i (Idle (VisF (inr1 (Cancel tok)) k)) =
  [world_of rand (Around now n toks (tok :: can) chans cl wg) h (at_ (k tt))].
Proof. reflexivity. Qed.
Lemma mv_wg d k : thread_moves w i (Idle (VisF (inr1 (WgAdd d)) k)) =
  [world_of rand (Around now n toks can chans cl (wg + d)) h (at_ (k tt))].
Proof. reflexivity. Qed.
Lemma mv_wait k : thread_moves w i (Idle (VisF (inr1 WgWait) k)) = if wg =? 0 then [world_of rand a h (at_ (k tt))] else [].
Proof. reflexivity. Qed.
Lemma mv_go k : thread_moves w i (Idle (VisF (inr1 Go) k)) =
  [world_of rand a h (<[i := Idle (observe (k false))]> (ths ++ [Idle (observe (k true))]))].
Proof. reflexivity. Qed.
Lemma mv_sleep d k : thread_moves w i (Idle (VisF (inr1 (Sleep d)) k)) =
  [world_of rand a h (<[i := Asleep (now + d) (k tt)]> ths)].
Proof. reflexivity. Qed.
Lemma mv_asleep u t : thread_moves w i (Asleep u t) = if u <=? now then [world_of rand a h (at_ t)] else [].
Proof. reflexivity. Qed.
Lemma mv_get ch after k : thread_moves w i (Idle (VisF (inr1 (Get ch after)) k)) =
  [world_of rand a h (<[i := Getting ch (Z.add now <$> after) k]> ths)].
Proof. reflexivity. Qed.
Lemma mv_close_chan ch k : thread_moves w i (Idle (VisF (inr1 (CloseChan ch)) k)) =
  [world_of rand (Around now n toks can (alter (fun c => c <| ch_closed := true |>) ch chans) cl wg) h (at_ (k tt))].
Proof. reflexivity. Qed.
Lemma mv_call {R} (o : signalE nat R) k : thread_moves w i (Idle (VisF (inl1 o) k)) =
  [world_of rand a h (<[i := InCall (H := hub_signaler) (call_ctx o) (hub_begin R o) k]> ths)].
Proof. reflexivity. Qed.

(** Into a channel with room, and out of one. *)
Lemma mv_put ch c v k : chans !! ch = Some c -> ch_closed c = false -> (length (ch_buf c) < ch_cap c)%nat ->
  thread_moves w i (Idle (VisF (inr1 (Put ch v)) k)) =
  [world_of rand (Around now n toks can (<[ch := c <| ch_buf := ch_buf c ++ [v] |>]> chans) cl wg) h (at_ (k tt))].
Proof.
  intros Hc Ho Hl. cbn [thread_moves idle_moves run_moves]. unfold put. change (w_chans w) with chans.
  rewrite Hc, Ho. by destruct (Nat.ltb_spec (length (ch_buf c)) (ch_cap c)); [|lia].
Qed.
Lemma mv_getting ch c v rest d k : chans !! ch = Some c -> ch_buf c = v :: rest ->
  match d with Some d => now < d | None => True end ->
  thread_moves w i (Getting ch d k) =
  [world_of rand (Around now n toks can (<[ch := c <| ch_buf := rest |>]> chans) cl wg) h (at_ (k (Some v)))].
Proof.
  intros Hc Hb Hd. cbn [thread_moves]. unfold get. change (w_chans w) with chans. rewrite Hc, Hb.
  change (w_now w) with now. destruct d as [d|]; [destruct (Z.leb_spec d now); [lia|]|]; reflexivity.
Qed.
Lemma mv_getting_closed ch c k : chans !! ch = Some c -> ch_buf c = [] -> ch_closed c = true ->
  thread_moves w i (Getting ch None k) = [world_of rand a h (at_ (k None))].
Proof. intros Hc Hb Ho. cbn [thread_moves]. unfold get. change (w_chans w) with chans. by rewrite Hc, Hb, Ho. Qed.
Lemma mv_getting_empty ch c d k : chans !! ch = Some c -> ch_buf c = [] -> ch_closed c = false ->
  match d with Some d => now < d | None => True end -> thread_moves w i (Getting ch d k) = [].
Proof.
  intros Hc Hb Ho Hd. cbn [thread_moves]. unfold get. change (w_chans w) with chans. rewrite Hc, Hb, Ho.
  change (w_now w) with now. by destruct d as [d|]; [destruct (Z.leb_spec d now); [lia|]|].
Qed.

Lemma mv_in {R} x (c : hub_call R) k : thread_moves w i (InCall (H := hub_signaler) x c k) =
  (fun p => world_of rand a p.2
     (<[i := match p.1 with inl r => Idle (observe (k r)) | inr c => InCall (H := hub_signaler) x c k end]> ths)) <$>
  hub_moves R (around_err rand x a) c h.
Proof. cbn [thread_moves]. apply list_fmap_ext. by intros ? [[] ?]. Qed.
End goroutine.

Section races.
Variable size : Z.
Hypothesis Hsize : 0 < size.
Variable rand : nat -> bytes.

Abbreviation world_of := (world_of rand).

Lemma moves_two a h (t0 t1 : hthread) l0 l1 :
  thread_moves (world_of a h [t0; t1]) 0 t0 = l0 -> thread_moves (world_of a h [t0; t1]) 1 t1 = l1 ->
  l0 ++ l1 <> [] -> moves (world_of a h [t0; t1]) = l0 ++ l1.
Proof.
  intros E0 E1 Hn. unfold moves. change (w_panicked (world_of a h [t0; t1])) with false.
  change (w_threads (world_of a h [t0; t1])) with [t0; t1]. cbn [imap mjoin list_join compose].
  rewrite E0, E1, app_nil_r. by destruct (l0 ++ l1).
Qed.

Lemma ev_two a h (t0 t1 : hthread) l0 l1 :
  thread_moves (world_of a h [t0; t1]) 0 t0 = l0 -> thread_moves (world_of a h [t0; t1]) 1 t1 = l1 ->
  l0 ++ l1 <> [] -> Forall (eventually moves passed) (l0 ++ l1) -> eventually moves passed (world_of a h [t0; t1]).
Proof.
  intros E0 E1 Hn Hall. pose proof (moves_two a h t0 t1 l0 l1 E0 E1 Hn) as E.
  apply ev_next; rewrite E; [done|]. intros b. by apply Forall_forall.
Qed.

(** Both wait, until the first of their timers, at [t]. *)
Lemma ev_two_wait now n toks can chans cl wg t ds h (t0 t1 : hthread) :
  let a := Around now n toks can chans cl wg in
  thread_moves (world_of a h [t0; t1]) 0 t0 = [] -> thread_moves (world_of a h [t0; t1]) 1 t1 = [] ->
  timers (world_of a h [t0; t1]) = ds -> head ds <> None -> foldr Z.min (default 0 (head ds)) (tail ds) = t ->
  eventually moves passed (world_of (Around t n toks can chans cl wg) h [t0; t1]) ->
  eventually moves passed (world_of a h [t0; t1]).
Proof.
  intros a E0 E1 Et Hd Ht Hn. eapply ev_one; [|exact Hn]. unfold moves.
  change (w_panicked (world_of a h [t0; t1])) with false. change (w_threads (world_of a h [t0; t1])) with [t0; t1].
  cbn [imap mjoin list_join compose]. rewrite E0, E1. cbn [app]. rewrite Et. destruct ds as [|d ds]; [done|].
  cbn in Ht. by rewrite Ht.
Qed.

(** The second goroutine starts. *)
Lemma solo_go a cs k :
  (forall h, hub_at size cs h ->
     eventually moves passed (world_of a h [Idle (observe (k false)); Idle (observe (k true))])) ->
  solo size rand 0 a cs (VisF (inr1 Go) k).
Proof. intros S h I. eapply ev_one; [by rewrite moves_solo|]. by apply S. Qed.

(** The second goroutine has returned. *)
Lemma two_solo a cs h t : hub_at size cs h -> solo size rand 1 a cs t ->
  eventually moves passed (world_of a h [Idle t; Idle (RetF tt)]).
Proof. intros I S. by apply S. Qed.

(** The moves of either goroutine, then what follows each. *)
Ltac now_is :=
  match goal with |- context [Z.leb ?x ?y] =>
    let b := eval vm_compute in (Z.leb x y) in change (Z.leb x y) with b; cbv iota
  end.
Ltac mv tac :=
  rewrite ?mv_ret, ?mv_now, ?mv_cancel, ?mv_sleep, ?mv_asleep, ?mv_get, ?mv_call, ?mv_in;
  cbn [hub_moves hub_begin call_ctx]; try now_is; tac; reflexivity.
Ltac two tac :=
  repeat to_head; eapply ev_two; [mv tac|mv tac|discriminate|]; cbn [app fmap list_fmap]; repeat (apply Forall_cons;
    split); [..|done];
  cbn [insert list_insert fst snd]; settle; repeat to_head.

(** Alice's queue is empty: what [Receive] can return is her context's error. *)
Lemma nothing_yet e h : hub_at size [fresh_conn "alice"] h ->
  hub_receive e 0 h = ctx_case (fun e => (inl (Err e), h)) e.
Proof. intros I. by rewrite (moves_receive size _ _ I e 0 (fresh_conn "alice")). Qed.

(** The canceller sleeps; [Receive] waits. *)
Lemma receive_honours_context cfg : passes size rand (testReceiveHonorsContext cfg).
Proof.
  apply solo_passes; [done|]. unfold testReceiveHonorsContext. go_all. to_head. apply solo_token. settle. to_head.
  apply solo_go. intros h I. settle.
  assert (Hwait : eventually moves passed (world_of (Around 0 0 1 [] [] [0%nat] 0) h
    [InCall (H := hub_signaler) {| x_deadline := None; x_token := Some 0%nat |} (HReceive 0)
       (fun x => ITree.bind (Ret x) (fun r : result error Signal.Signal => ITree.bind
          (fatal_if match r with Ok _ => true | Err err => negb (errIs err context_Canceled) end)
          (fun _ => ITree.bind (run Now) (fun now => fatal_if (waitFor <? now - 0)))));
     Asleep (0 + 50 * millisecond) (ITree.bind (Ret tt) (fun _ => run (Cancel 0)))])).
  { eapply (ev_two_wait _ _ _ _ _ _ _ (50 * millisecond));
      [mv ltac:(rewrite (nothing_yet _ _ I))|mv idtac|reflexivity|done|reflexivity|].
    do 3 two ltac:(rewrite ?(nothing_yet _ _ I)).
    apply (two_solo _ _ _ _ I). go_all. finish. }
  do 2 two ltac:(rewrite ?(nothing_yet _ _ I)); two ltac:(rewrite ?(nothing_yet _ _ I)); exact Hwait.
Qed.

(** Between the two halves of [Close]. *)
Lemma marked_closed e h : hub_at size [fresh_conn "alice"] h ->
  hub_receive e 0 (Close_mark 0 h) =
    (inl (Err (ESent ErrClosed)), Close_mark 0 h) :: ctx_case (fun e => (inl (Err e), Close_mark 0 h)) e.
Proof.
  intros I. unfold hub_receive, Receive, Close_mark, on_conn. simpl. rewrite lookup_alter_eq, (ha_conns _ _ _ I). simpl.
  by destruct e; simpl; rewrite ?lookup_alter_eq, ?(ha_conns _ _ _ I).
Qed.

Lemma after_close e h : hub_at size [fresh_conn "alice"] h ->
  let h' := unregister 0 (Close_mark 0 h) in
  hub_receive e 0 h' = (inl (Err (ESent ErrClosed)), h') :: ctx_case (fun e => (inl (Err e), h')) e.
Proof.
  intros I h'. apply (moves_receive_closed size (alter shut 0%nat [fresh_conn "alice"]) _
    (hub_at_close _ _ _ 0 (fresh_conn "alice") I eq_refl eq_refl) e 0 (shut (fresh_conn "alice"))); done.
Qed.

(** In time: the contexts are not done. *)
Ltac in_time :=
  match goal with |- context [around_err ?r ?x ?a] => change (around_err r x a) with (@None error) end.
Lemma ctx_none {A} (f : error -> A) : ctx_case f None = [].
Proof. reflexivity. Qed.
Ltac close_race I :=
  two ltac:(try in_time;
    rewrite ?(nothing_yet _ _ I), ?(marked_closed _ _ I), ?(after_close _ _ I),
      ?(moves_close _ _ _ I 0%nat (fresh_conn "alice") eq_refl), ?ctx_none;
    try (erewrite mv_put; [|reflexivity|reflexivity|cbn; lia]);
    try (erewrite mv_getting_empty; [|reflexivity|reflexivity|reflexivity|done]);
    try (erewrite mv_getting; [|reflexivity|reflexivity|done])).

(** Alice closes while her [Receive] waits. *)
Lemma close_unblocks cfg : passes size rand (testCloseUnblocksReceive cfg).
Proof.
  apply solo_passes; [done|]. unfold testCloseUnblocksReceive. go_all. to_head. apply solo_make. settle. to_head.
  apply solo_go. intros h I. settle.
  pose proof (hub_at_close _ _ _ 0 (fresh_conn "alice") I eq_refl eq_refl) as I'.
  assert (Hwait : eventually moves passed (world_of (Around 0 0 0 [] [{| ch_cap := 1; ch_buf := [];
    ch_closed := false |}] [0%nat] 0) h
    [Asleep (0 + 50 * millisecond) (ITree.bind (Ret tt) (fun _ => ITree.bind (do (Signaling.Close 0%nat)) (fun err =>
       ITree.bind (fatal_if match err with Some _ => true | None => false end) (fun _ =>
       ITree.bind (run (Get 0 (Some waitFor))) (fun v => match v with
         | Some (VErr None) => stop Fatal
         | Some (VErr (Some err)) => fatal_if (errIs err context_DeadlineExceeded)
         | _ => stop Fatal end)))));
     InCall (H := hub_signaler) {| x_deadline := Some (0 + waitFor); x_token := None |} (HReceive 0)
       (fun x => ITree.bind (Ret x) (fun r : result error Signal.Signal =>
          run (Put 0 (VErr match r with Ok _ => None | Err err => Some err end))))])).
  { eapply (ev_two_wait _ _ _ _ _ _ _ (50 * millisecond));
      [mv idtac|mv ltac:(rewrite (nothing_yet _ _ I))|reflexivity|done|reflexivity|].
    repeat (first [solve [apply (two_solo _ _ _ _ I'); finish] | close_race I]). }
  do 2 two ltac:(rewrite ?(nothing_yet _ _ I)); try (two ltac:(rewrite ?(nothing_yet _ _ I))); exact Hwait.
Qed.
End races.
