(* ===== verification/ConformanceFlow.v ===== *)
(** * The hub passes the tests that stream signals

    In [no_loss] and [concurrent_senders] goroutines send to one that reads. An invariant
    relates the signals still to be sent, those in the queue and those the reader has seen,
    and a measure counts the steps every goroutine has left. *)

From Stdlib Require Import String.
From ITree Require Import Core.ITreeDefinition Indexed.Sum.
From S2P Require Import Prelude.
From S2P Require Import Errors.
From S2P Require Import Json.
From S2P Require Import Stream.
From S2P Require Import Signal.
From S2P Require Import Signaling.
From S2P Require Import Conformance.
From S2P Require Import Memory.
From S2P Require Import MemorySignaler.
From S2P Require Import ConformanceProps.
From S2P Require Import ConformanceRaces.

#[local] Arguments NewID : simpl never.

(** ** Goroutines that send *)

Section flow.
Variable size : Z.
Hypothesis Hsize : 0 < size.
Variable rand : nat -> bytes.
(** No two of the first [limit] IDs are the same. *)
Variable limit : nat.
Hypothesis Hinj : forall i j, (i < limit)%nat -> (j < limit)%nat -> NewID (rand i) = NewID (rand j) -> i = j.

Abbreviation world_of := (world_of rand).

(** Contexts with time left. *)
Definition lasting (x : ctx) : Prop := x_token x = None /\ exists d, x_deadline x = Some d /\ 0 < d.

Lemma lasting_err x a : a_now a = 0 -> lasting x -> around_err rand x a = None.
Proof.
  intros Ha (Ht & d & Hd & Hp). unfold around_err, ctx_err. rewrite Ht, Hd. change (w_now _) with (a_now a).
  rewrite Ha. by destruct (Z.leb_spec d 0); [lia|].
Qed.

(** [prod fin hand n m th]: the goroutine sends [n] signals from Alice to Bob, those with
    the IDs in [hand] first, takes at most [m] steps to do so, and is then at [fin]. *)
Inductive prod (fin : hthread -> Prop) : list string -> nat -> nat -> hthread -> Prop :=
| pr_fin th : fin th -> prod fin [] 0 0 th
| pr_now hand n m k : prod fin hand n m (Idle (observe (k 0))) -> prod fin hand n (S m) (Idle (VisF (inr1 Now) k))
| pr_skip hand n m k : (forall id, prod fin hand n m (Idle (observe (k id)))) ->
    prod fin hand n (S m) (Idle (VisF (inr1 RandID) k))
| pr_draw hand n m k : (forall id, prod fin (id :: hand) n m (Idle (observe (k id)))) ->
    prod fin hand n (S m) (Idle (VisF (inr1 RandID) k))
| pr_call hand n m x sig k : lasting x -> From sig = "alice"%string -> To sig = "bob"%string ->
    prod fin hand n m (Idle (observe (k None))) ->
    prod fin (ID sig :: hand) (S n) (3 + m) (Idle (VisF (inl1 (Signaling.Send x 0%nat sig)) k))
| pr_send hand n m x sig k : lasting x -> From sig = "alice"%string -> To sig = "bob"%string ->
    prod fin hand n m (Idle (observe (k None))) ->
    prod fin (ID sig :: hand) (S n) (2 + m) (InCall (H := hub_signaler) x (HSend 0 sig) k)
| pr_put hand n m x sig k : lasting x -> prod fin hand n m (Idle (observe (k None))) ->
    prod fin (ID sig :: hand) (S n) (1 + m) (InCall (H := hub_signaler) x (HPut 0 1 [sig]) k).

(** Alice's connection, and Bob's with its queue. *)
Definition bobs (Q : list Signal.Signal) : list conn :=
  [fresh_conn "alice"; {| local := "bob"; inbox := Q; closed := false |}].

(** What a step of a sender does to the IDs drawn, the queue, its hand and its count. *)
Inductive effect (D : nat) (Q : list Signal.Signal) (hand : list string) (n : nat) :
  nat -> list Signal.Signal -> list string -> nat -> Prop :=
| ef_none : effect D Q hand n D Q hand n
| ef_skip : effect D Q hand n (S D) Q hand n
| ef_draw : effect D Q hand n (S D) Q (NewID (rand D) :: hand) n
| ef_put sig hand' n' : hand = ID sig :: hand' -> n = S n' -> zlen Q < size ->
  effect D Q hand n D (Q ++ [sig]) hand' n'.

Lemma prod_step fin hand n m th : prod fin hand n m th ->
  (fin th /\ hand = [] /\ n = 0%nat /\ m = 0%nat) \/
  forall D toks can chans cl wg h ths i Q, hub_at size (bobs Q) h ->
    (n <> 0%nat /\ size <= zlen Q /\ thread_moves (world_of (Around 0 D toks can chans cl wg) h ths) i th = []) \/
    exists D' Q' hand' n' m' th' h',
      thread_moves (world_of (Around 0 D toks can chans cl wg) h ths) i th =
        [world_of (Around 0 D' toks can chans cl wg) h' (<[i := th']> ths)] /\
      hub_at size (bobs Q') h' /\ prod fin hand' n' m' th' /\ (m' < m)%nat /\ (D' + m' <= D + m)%nat /\
      effect D Q hand n D' Q' hand' n'.
Proof.
  intros P. destruct P as [th|hand n m k|hand n m k P|hand n m k P|hand n m x sig k Hx Hf Ht P
                          |hand n m x sig k Hx Hf Ht P|hand n m x sig k Hx P]; [by left|..]; right;
    intros D toks can chans cl wg h ths i Q I.
  - right. do 7 eexists. rewrite mv_now. split; [reflexivity|]. split; [done|]. split; [done|]. do 2 (split; [lia|]).
    constructor.
  - right. do 7 eexists. rewrite mv_rand. split; [reflexivity|]. split; [done|]. split; [done|]. do 2 (split;
    [lia|]). constructor.
  - right. do 7 eexists. rewrite mv_rand. split; [reflexivity|]. split; [done|]. split; [done|]. do 2 (split;
    [lia|]). constructor.
  - right. do 7 eexists. rewrite mv_call. split; [reflexivity|]. split; [done|]. split; [by apply pr_send|].
    do 2 (split; [lia|]). constructor.
  - right. do 7 eexists. rewrite mv_in. cbn [hub_moves].
    rewrite (moves_send size (bobs Q) h I 0 (fresh_conn "alice") 1) by (try done; by rewrite Ht).
    split; [reflexivity|]. split; [done|]. split; [by apply pr_put|]. do 2 (split; [lia|]). constructor.
  - rewrite mv_in. cbn [hub_moves]. rewrite lasting_err by done.
    rewrite (moves_put size (bobs Q) h I 0 (fresh_conn "alice") 1 {| local := "bob"; inbox := Q;
      closed := false |}) by done.
    cbn [inbox]. destruct (Z.ltb_spec (zlen Q) size) as [L|L]; [right|by left].
    do 7 eexists. split; [reflexivity|]. split;
      [exact (hub_at_alter size (bobs Q) h 1 (push sig) I (fun _ => conj eq_refl eq_refl))|].
    split; [done|]. do 2 (split; [lia|]). by econstructor.
Qed.

(** ** What the goroutines share *)

(** [N] signals in all: those [seen], those in the queue [Q], and [todo] still to be sent.
    No ID is in two places; every ID was drawn; the IDs in [want] are somewhere. *)
Record shared (N D : nat) (Q : list Signal.Signal) (hands : list string) (todo : nat) (seen : gmap string Z)
    (want : list string) : Prop := {
  sh_nodup : NoDup (hands ++ (ID <$> Q));
  sh_new : forall id, id ∈ hands ++ (ID <$> Q) -> seen !! id = None;
  sh_drawn : forall id, id ∈ hands ++ (ID <$> Q) \/ is_Some (seen !! id) -> exists j, (j < D)%nat
    /\ id = NewID (rand j);
  sh_count : (base.size seen + length Q + todo = N)%nat;
  sh_once : forall id v, seen !! id = Some v -> v = 1;
  sh_want : forall id, id ∈ want -> id ∈ hands ++ (ID <$> Q) \/ is_Some (seen !! id)
}.

Lemma shared_perm N D Q hands hands' todo seen want :
  hands ≡ₚ hands' -> shared N D Q hands todo seen want -> shared N D Q hands' todo seen want.
Proof.
  intros E [S1 S2 S3 S4 S5 S6].
  assert (M : forall id, id ∈ hands ++ (ID <$> Q) <-> id ∈ hands' ++ (ID <$> Q)) by (intros id; by rewrite E).
  split; [by rewrite <- E| | |done|done|]; intros id; rewrite <- M; auto.
Qed.

(** A fresh ID is nowhere yet. *)
Lemma shared_fresh N D Q hands todo seen want : (D < limit)%nat -> shared N D Q hands todo seen want ->
  ¬ (NewID (rand D) ∈ hands ++ (ID <$> Q) \/ is_Some (seen !! NewID (rand D))).
Proof. intros HD [_ _ S3 _ _ _] H. destruct (S3 _ H) as (j & Hj & E%Hinj); lia. Qed.

Lemma shared_effect N D Q hand n D' Q' hand' n' l r t seen want :
  (D < limit)%nat -> effect D Q hand n D' Q' hand' n' ->
  shared N D Q (l ++ hand ++ r) (n + t) seen want -> shared N D' Q' (l ++ hand' ++ r) (n' + t) seen want.
Proof.
  intros HD E S. destruct E as [| | |sig hand' n' -> -> Hl].
  - done.
  - destruct S as [S1 S2 S3 S4 S5 S6]. split; try done. intros id H. destruct (S3 id H) as (j & Hj & ->).
    exists j. split; [lia|done].
  - pose proof (shared_fresh _ _ _ _ _ _ _ HD S) as F. destruct S as [S1 S2 S3 S4 S5 S6].
    assert (E : (l ++ (NewID (rand D) :: hand) ++ r) ++ (ID <$> Q) ≡ₚ NewID (rand D) :: (l ++ hand ++ r) ++ (ID <$> Q))
      by (cbn; by rewrite <- Permutation_middle).
    split; try done.
    + rewrite E. apply NoDup_cons. split; [|done]. intros H. apply F. by left.
    + intros id. rewrite E. intros [->|H]%elem_of_cons; [|by apply S2]. apply eq_None_not_Some. intros H. apply F.
      by right.
    + intros id. rewrite E, elem_of_cons. intros [[->|H]|H]; [by exists D; split; [lia|]| |];
        (destruct (S3 id) as (j & Hj & ->); [tauto|]); exists j; split; (lia || done).
    + intros id H. rewrite E, elem_of_cons. destruct (S6 id H); tauto.
  - destruct S as [S1 S2 S3 S4 S5 S6].
    assert (E : (l ++ (ID sig :: hand') ++ r) ++ (ID <$> Q) ≡ₚ (l ++ hand' ++ r) ++ (ID <$> Q ++ [sig])).
    { rewrite fmap_app, (app_assoc _ (ID <$> Q)). cbn [fmap list_fmap]. rewrite <- Permutation_cons_append.
      cbn [app]. by rewrite <- Permutation_middle. }
    split; try done.
    + by rewrite <- E.
    + intros id. rewrite <- E. apply S2.
    + intros id. rewrite <- E. apply S3.
    + rewrite length_app. cbn. lia.
    + intros id. rewrite <- E. apply S6.
Qed.

(** The reader takes the first signal of the queue. *)
Lemma shared_take N D sig Q hands todo seen want :
  shared N D (sig :: Q) hands todo seen want ->
  shared N D Q hands todo (<[ID sig := default 0 (seen !! ID sig) + 1]> seen) want /\
  base.size (<[ID sig := default 0 (seen !! ID sig) + 1]> seen) = S (base.size seen).
Proof.
  intros [S1 S2 S3 S4 S5 S6].
  assert (E : hands ++ (ID <$> sig :: Q) ≡ₚ ID sig :: hands ++ (ID <$> Q)) by (cbn; by rewrite <- Permutation_middle).
  assert (Hn : seen !! ID sig = None) by (apply S2; rewrite E; by left).
  rewrite Hn. cbn [default]. rewrite map_size_insert_None by done. split; [|done].
  rewrite E in S1. apply NoDup_cons in S1 as [Hni S1]. split.
  - done.
  - intros id H. rewrite lookup_insert_ne; [apply S2; rewrite E; by right|]. intros <-. done.
  - intros id H. apply S3. rewrite E, elem_of_cons. destruct (decide (id = ID sig)) as [->|N']; [tauto|].
    rewrite lookup_insert_ne in H by done. tauto.
  - rewrite map_size_insert_None by done. cbn in S4. lia.
  - intros id v. rewrite lookup_insert_Some. intros [[<- <-]|[_ H]]; [lia|by eapply S5].
  - intros id H. destruct (decide (id = ID sig)) as [->|N']; [right; rewrite lookup_insert_eq; eauto|].
    rewrite lookup_insert_ne by done. destruct (S6 id H) as [H'|H']; [|by right].
    rewrite E, elem_of_cons in H'. destruct H'; [done|by left].
Qed.

(** ** The goroutine that reads *)

Section reader.
Variables (N : nat) (report : gmap string Z -> msg).

Definition reporting (seen : gmap string Z) : prog nat unit := run (Put 0 (report seen)).
Definition reading (x : ctx) (seen : gmap string Z) : prog nat unit :=
  ITree.bind (ITree.iter (collect_body N 1%nat x) seen) reporting.
Definition read_all : prog nat unit := ITree.bind (WithTimeout waitFor) (fun x => reading x ∅).

(** [reader seen m th]: it has [seen] so much and takes at most [m] steps more. *)
Inductive reader : gmap string Z -> nat -> hthread -> Prop :=
| rd_start : reader ∅ (4 * N + 4) (Idle (observe read_all))
| rd_top x seen : lasting x -> (base.size seen <= N)%nat ->
    reader seen (4 * (N - base.size seen) + 2) (Idle (observe (reading x seen)))
| rd_call x seen k : lasting x -> (base.size seen < N)%nat ->
    (forall sig, exists t, observe (k (Ok sig)) = TauF t /\
       observe t = observe (reading x (<[ID sig := default 0 (seen !! ID sig) + 1]> seen))) ->
    reader seen (4 * (N - base.size seen) + 1) (InCall (H := hub_signaler) x (HReceive 1) k)
| rd_tau x seen t : lasting x -> (base.size seen <= N)%nat -> observe t = observe (reading x seen) ->
    reader seen (4 * (N - base.size seen) + 3) (Idle (TauF t))
| rd_done seen : base.size seen = N -> reader seen 0 (Idle (RetF tt)).

Definition box (l : list msg) : chan := {| ch_cap := 1; ch_buf := l; ch_closed := false |}.

(** At the head of its loop it receives, or reports. *)
Lemma reading_more x seen : (base.size seen < N)%nat -> exists k,
  observe (reading x seen) = VisF (inl1 (Signaling.Receive x 1%nat)) k /\
  forall sig, exists t, observe (k (Ok sig)) = TauF t /\
    observe t = observe (reading x (<[ID sig := default 0 (seen !! ID sig) + 1]> seen)).
Proof.
  intros L. assert (E : collect_body N 1%nat x seen =
    (r ← do (Signaling.Receive x 1%nat);
     match r with
     | Err _ => mret (inr seen)
     | Ok sig => mret (inl (<[ID sig := default 0 (seen !! ID sig) + 1]> seen))
     end)) by (unfold collect_body; by rewrite (proj2 (Nat.ltb_lt _ _) L)).
  assert (Eo : observe (reading x seen) = observe (ITree.bind (ITree.bind (collect_body N 1%nat x seen)
    (fun lr => ITree.on_left lr l (Tau (ITree.iter (collect_body N 1%nat x) l)))) reporting)) by reflexivity.
  rewrite Eo, E. eexists. split; [to_head; reflexivity|].
  intros sig. eexists. split; [to_head; reflexivity|reflexivity].
Qed.

Lemma reading_done x seen : base.size seen = N ->
  observe (reading x seen) = VisF (inr1 (Put 0 (report seen))) (fun u => Ret u).
Proof.
  intros E. assert (Ec : collect_body N 1%nat x seen = mret (inr seen))
    by (unfold collect_body; by rewrite (proj2 (Nat.ltb_ge _ _)) by lia).
  assert (Eo : observe (reading x seen) = observe (ITree.bind (ITree.bind (collect_body N 1%nat x seen)
    (fun lr => ITree.on_left lr l (Tau (ITree.iter (collect_body N 1%nat x) l)))) reporting)) by reflexivity.
  rewrite Eo, Ec. reflexivity.
Qed.

Lemma reader_step seen m th D toks can rest cl wg h ths i Q hands todo want :
  reader seen m th -> hub_at size (bobs Q) h -> shared N D Q hands todo seen want ->
  (th = Idle (RetF tt) /\ m = 0%nat /\ base.size seen = N) \/
  (Q = [] /\ (base.size seen < N)%nat /\
     thread_moves (world_of (Around 0 D toks can (box [] :: rest) cl wg) h ths) i th = []) \/
  exists Q' seen' m' th' h' b,
    thread_moves (world_of (Around 0 D toks can (box [] :: rest) cl wg) h ths) i th =
      [world_of (Around 0 D toks can (box b :: rest) cl wg) h' (<[i := th']> ths)] /\
    hub_at size (bobs Q') h' /\ reader seen' m' th' /\ (m' < m)%nat /\ shared N D Q' hands todo seen' want /\
    b = (match m' with O => [report seen'] | _ => [] end).
Proof.
  intros R I S. destruct R as [|x seen Hx L|x seen k Hx L Hk|x seen t Hx L Et|seen E].
  - right. right. do 6 eexists. unfold read_all. to_head. rewrite mv_now. split; [reflexivity|].
    split; [done|]. unbind. rewrite returned2, returned1. split; [apply rd_top; [|by apply Nat.le_0_l]|].
    { split; [done|]. exists (0 + waitFor). done. }
    rewrite map_size_empty. split; [lia|]. split; [done|]. by destruct (4 * (N - 0) + 2)%nat eqn:?; [lia|].
  - right. right. destruct (decide (base.size seen = N)) as [E|Ne].
    + do 6 eexists. rewrite reading_done by done. erewrite mv_put; [|reflexivity|reflexivity|cbn; lia].
      split; [reflexivity|]. split; [done|]. split; [by apply rd_done|]. split; [lia|]. done.
    + destruct (reading_more x seen) as (k & -> & Hk); [lia|]. do 6 eexists. rewrite mv_call. split; [reflexivity|].
      split; [done|]. split; [apply (rd_call x seen); [done|lia|done]|]. split; [lia|]. split; [done|].
      by destruct (4 * (N - base.size seen) + 1)%nat eqn:?; [lia|].
  - destruct Q as [|sig Q].
    { right. left. split; [done|]. split; [done|]. rewrite mv_in. cbn [hub_moves]. rewrite lasting_err by done.
      by rewrite (moves_receive size _ h I None 1 {| local := "bob"; inbox := []; closed := false |}). }
    right. right. destruct (Hk sig) as (t & Ek & Et).
    destruct (shared_take _ _ _ _ _ _ _ _ S) as [S' Es].
    do 6 eexists. rewrite mv_in. cbn [hub_moves]. rewrite lasting_err by done.
    rewrite (moves_receive size _ h I None 1 {| local := "bob"; inbox := sig :: Q; closed := false |}) by done.
    cbn [inbox app ctx_case fmap list_fmap option_list fst snd]. rewrite Ek. split; [reflexivity|].
    split; [exact (hub_at_alter size (bobs (sig :: Q)) h 1 pop I (fun _ => conj eq_refl eq_refl))|].
    split; [eapply (rd_tau x _ t); [done| |exact Et]; lia|]. split; [lia|]. split; [done|].
    by destruct (4 * (N - _) + 3)%nat eqn:?; [lia|].
  - right. right. do 6 eexists. rewrite mv_tau, Et. split; [reflexivity|]. split; [done|]. split; [by apply rd_top|].
    split; [lia|]. split; [done|]. by destruct (4 * (N - base.size seen) + 2)%nat eqn:?; [lia|].
  - by left.
Qed.
End reader.

(** ** The moves of a world *)

Lemma moves_some (w : tworld) i th : w_panicked w = false ->
  w_threads w !! i = Some th -> thread_moves w i th <> [] ->
  moves w <> [] /\ forall b, b ∈ moves w -> exists j tj, w_threads w !! j = Some tj /\ b ∈ thread_moves w j tj.
Proof.
  intros Hp Hi Hm. assert (E : moves w = mjoin (imap (thread_moves w) (w_threads w))).
  { unfold moves. rewrite Hp. destruct (mjoin _) eqn:E; [|done]. destruct Hm.
    apply elem_of_nil_inv. intros b Hb. eapply elem_of_nil. rewrite <- E. apply list_elem_of_join.
    exists (thread_moves w i th). split; [done|]. apply elem_of_lookup_imap. eauto. }
  rewrite E. split.
  - intros E'. destruct (thread_moves w i th) as [|b l] eqn:Em; [done|]. eapply (elem_of_nil b). rewrite <- E'.
    apply list_elem_of_join. exists (b :: l). split; [by left|]. apply elem_of_lookup_imap. exists i, th. done.
  - intros b (l & Hb & (j & tj & -> & Hj)%elem_of_lookup_imap)%list_elem_of_join. eauto.
Qed.

(** ** One sender: [no_loss] *)

Section no_loss.
Variable count : nat.
Variable ids : list string.

Definition got_all (v : option msg) : prog nat unit :=
  match v with
  | Some (VSeen seen) => fatal_if (existsb (fun id => default 0 (seen !! id) =? 0) ids)
  | _ => Ret tt
  end.
Definition at_get (th : hthread) : Prop := th = Idle (VisF (inr1 (Get 0 None)) (fun x => ITree.bind (Ret x) got_all)).

Definition sends (l : list string) : prog nat unit :=
  for_each l (fun id => session ← newID; send 0%nat (iceComplete id session)).

Lemma sends_prod l : prod at_get l (length l) (5 * length l)
  (Idle (observe (ITree.bind (sends l) (fun _ => ITree.bind (run (Get 0 None)) got_all)))).
Proof.
  induction l as [|id l IH]; [by apply pr_fin|]. cbn [length].
  replace (5 * S (length l))%nat with (S (S (3 + 5 * length l))) by lia.
  unfold sends. to_head. apply pr_skip. intros session. settle. to_head. apply pr_now. settle. to_head.
  apply (pr_call _ l _ _ _ (iceComplete id session)); [|done|done|settle; exact IH].
  split; [done|]. by exists (0 + waitFor).
Qed.

(** The reader's report, once it is done. *)
Definition reported (mr : nat) (seen : gmap string Z) : list chan := [box match mr with O => [VSeen seen] | _ => [] end].

(** The test is at most [m] steps from its last phase. *)
Inductive streaming : nat -> tworld -> Prop :=
| st_send D Q hand n m th mr seen thr h :
    prod at_get hand n m th -> hub_at size (bobs Q) h -> reader count VSeen seen mr thr ->
    shared count D Q hand n seen ids -> (D + m <= limit)%nat ->
    streaming (m + 2 + mr)
      (world_of (Around 0 D 0 [] (reported mr seen) [1; 0]%nat 0) h [th; thr])
| st_wait D Q mr seen thr h :
    hub_at size (bobs Q) h -> reader count VSeen seen mr thr -> shared count D Q [] 0 seen ids ->
    streaming (1 + mr)
      (world_of (Around 0 D 0 [] (reported mr seen) [1; 0]%nat 0) h
        [Getting 0 None (fun x => ITree.bind (Ret x) got_all); thr]).

(** All have arrived. *)
Lemma none_missing D Q seen : shared count D Q [] 0 seen ids -> base.size seen = count ->
  Q = [] /\ existsb (fun id => default 0 (seen !! id) =? 0) ids = false.
Proof.
  intros [S1 S2 S3 S4 S5 S6] E. assert (Q = []) as -> by (destruct Q; [done|cbn in S4; lia]). split; [done|].
  apply not_true_is_false. intros (id & Hid & H0)%existsb_exists. apply list_elem_of_In in Hid.
  destruct (S6 id Hid) as [[]%elem_of_nil|[v Hv]]. rewrite Hv in H0. by rewrite (S5 id v Hv) in H0.
Qed.

Lemma reader_zero N report seen th : reader N report seen 0 th -> base.size seen = N /\ th = Idle (RetF tt).
Proof. intros R. inversion R as [| | | |seen' E]; subst; try lia. done. Qed.

(** The reader, as the second goroutine. *)
Lemma reader_moves D mr seen thr h th Q hands todo :
  let w := world_of (Around 0 D 0 [] (reported mr seen) [1; 0]%nat 0) h [th; thr] in
  reader count VSeen seen mr thr -> hub_at size (bobs Q) h -> shared count D Q hands todo seen ids ->
  (thread_moves w 1 thr = [] /\ (mr = 0%nat /\ base.size seen = count \/ Q = [] /\ (base.size seen < count)%nat)) \/
  exists Q' seen' m' th' h',
    thread_moves w 1 thr =
      [world_of (Around 0 D 0 [] (reported m' seen') [1; 0]%nat 0) h' [th; th']] /\
    hub_at size (bobs Q') h' /\ reader count VSeen seen' m' th' /\ (m' < mr)%nat
      /\ shared count D Q' hands todo seen' ids.
Proof.
  intros w R I S. destruct mr as [|mr].
  { destruct (reader_zero _ _ _ _ R) as [E ->]. left. split; [done|]. by left. }
  destruct (reader_step count VSeen seen (Datatypes.S mr) thr D 0 [] [] [1; 0]%nat 0 h [th;
    thr] 1 Q hands todo ids R I S)
    as [(_ & ? & _)|[(-> & L & E)|(Q' & seen' & m' & th' & h' & b & Em & I' & R' & Lm & S' & ->)]]; [done| |].
  - left. split; [done|]. by right.
  - right. exists Q', seen', m', th', h'. split; [exact Em|done].
Qed.

(** The sender, as the first goroutine. *)
Lemma sender_moves D hand n m th chans seen h thr Q :
  let w := world_of (Around 0 D 0 [] chans [1; 0]%nat 0) h [th; thr] in
  prod at_get hand n m th -> hub_at size (bobs Q) h -> shared count D Q hand n seen ids -> (D + m <= limit)%nat ->
  (thread_moves w 0 th = [] /\ n <> 0%nat /\ size <= zlen Q) \/
  (thread_moves w 0 th = [world_of (Around 0 D 0 [] chans [1; 0]%nat 0) h
     [Getting 0 None (fun x => ITree.bind (Ret x) got_all); thr]] /\ hand = [] /\ n = 0%nat /\ m = 0%nat) \/
  exists D' Q' hand' n' m' th' h',
    thread_moves w 0 th = [world_of (Around 0 D' 0 [] chans [1; 0]%nat 0) h' [th'; thr]] /\
    prod at_get hand' n' m' th' /\ hub_at size (bobs Q') h' /\ (m' < m)%nat /\ (D' + m' <= limit)%nat /\
    shared count D' Q' hand' n' seen ids.
Proof.
  intros w P I S HD. destruct (prod_step _ _ _ _ _ P) as [(F & -> & -> & ->)|Hs].
  { right. left. unfold at_get in F. by subst th. }
  destruct (Hs D 0%nat [] chans [1; 0]%nat 0 h [th; thr] 0%nat Q I)
    as [(Hn & L & E)|(D' & Q' & hand' & n' & m' & th' & h' & E & I' & P' & Lm & LD & Ef)]; [by left|].
  right. right. exists D', Q', hand', n', m', th', h'. split; [exact E|]. split_and!; try done; [lia|].
  pose proof (shared_effect count D Q hand n D' Q' hand' n' [] [] 0 seen ids ltac:(lia) Ef) as Hs'.
  rewrite !app_nil_r, !Nat.add_0_r in Hs'. by apply Hs'.
Qed.

(** Every move of either goroutine is one that [X] allows, and there is one. *)
Lemma two_fine (X : tworld -> Prop) a h t0 t1 :
  let w := world_of a h [t0; t1] in
  thread_moves w 0 t0 ++ thread_moves w 1 t1 <> [] ->
  (forall b, b ∈ thread_moves w 0 t0 -> X b) -> (forall b, b ∈ thread_moves w 1 t1 -> X b) ->
  moves w <> [] /\ forall b, b ∈ moves w -> X b.
Proof.
  intros w Hn H0 H1. subst w. rewrite (moves_two _ a h t0 t1 _ _ eq_refl eq_refl Hn). split; [done|].
  intros b [Hb|Hb]%elem_of_app; auto.
Qed.

Lemma streaming_send D Q hand n m th mr seen thr h :
  prod at_get hand n m th -> hub_at size (bobs Q) h -> reader count VSeen seen mr thr ->
    shared count D Q hand n seen ids ->
  (D + m <= limit)%nat -> let w := world_of (Around 0 D 0 [] (reported mr seen) [1; 0]%nat 0) h [th; thr] in
  moves w <> [] /\ forall b, b ∈ moves w -> exists m', (m' < m + 2 + mr)%nat /\ streaming m' b.
Proof.
  intros P I R S HD w. pose proof (sh_count _ _ _ _ _ _ _ S) as Hc.
  pose proof (reader_moves D mr seen thr h th Q hand n R I S) as Hr.
  pose proof (sender_moves D hand n m th (reported mr seen) seen h thr Q P I S HD) as Hs.
  apply two_fine.
  - intros [E0 E1]%app_eq_nil.
    destruct Hs as [(_ & Hn & L)|[(E & _)|(? & ? & ? & ? & ? & ? & ? & E & _)]]; [|by rewrite E in E0..].
    destruct Hr as [[_ [[_ E]|[-> _]]]|(? & ? & ? & ? & ? & E & _)]; [lia| |by rewrite E in E1].
    change (zlen []) with 0 in L. lia.
  - intros b. destruct Hs as [(E & _)|[(E & -> & ->
    & ->)|(D' & Q' & hand' & n' & m' & th' & h' & E & P' & I' & L & LD & S')]];
      rewrite E; [by intros ?%elem_of_nil| |]; intros ->%list_elem_of_singleton.
    + exists (1 + mr)%nat. split; [lia|]. by apply (st_wait D Q).
    + exists (m' + 2 + mr)%nat. split; [lia|]. by apply (st_send D' Q' hand' n').
  - intros b. destruct Hr as [[E _]|(Q' & seen' & m' & th' & h' & E & I' & R' & L & S')]; rewrite E;
      [by intros ?%elem_of_nil|]; intros ->%list_elem_of_singleton.
    exists (m + 2 + m')%nat. split; [lia|]. by apply (st_send D Q' hand n).
Qed.

(** The report has arrived: the verdict. *)
Lemma verdict_all D seen h : hub_at size (bobs []) h ->
  existsb (fun id => default 0 (seen !! id) =? 0) ids = false ->
  eventually moves passed (world_of (Around 0 D 0 [] [box []] [1; 0]%nat 0) h
    [Idle (observe (ITree.bind (Ret (Some (VSeen seen))) got_all)); Idle (RetF tt)]).
Proof.
  intros I E. rewrite returned1. unfold got_all. rewrite E.
  apply (two_solo size rand _ (bobs [])); [done|]. finish.
Qed.

Lemma streaming_wait D Q mr seen thr h :
  hub_at size (bobs Q) h -> reader count VSeen seen mr thr -> shared count D Q [] 0 seen ids ->
  let w := world_of (Around 0 D 0 [] (reported mr seen) [1; 0]%nat 0) h
    [Getting 0 None (fun x => ITree.bind (Ret x) got_all); thr] in
  eventually moves passed w \/
  (moves w <> [] /\ forall b, b ∈ moves w -> exists m', (m' < 1 + mr)%nat /\ streaming m' b).
Proof.
  intros I R S w. destruct mr as [|mr].
  - left. destruct (reader_zero _ _ _ _ R) as [E ->]. destruct (none_missing _ _ _ S E) as [-> Hall].
    eapply ev_two; [by erewrite mv_getting|reflexivity|done|]. apply Forall_singleton. by apply verdict_all.
  - right. pose proof (sh_count _ _ _ _ _ _ _ S) as Hc.
    destruct (reader_moves D _ seen thr h (Getting 0 None (fun x => ITree.bind (Ret x) got_all)) Q [] 0 R I S)
      as [[E1 [[? _]|[-> L]]]|(Q' & seen' & m' & th' & h' & E1 & I' & R' & L & S')]; [done|cbn in Hc; lia|].
    apply two_fine.
    + cbn iota in *. by rewrite E1, app_nil_r || (rewrite E1; by intros [_ ?]%app_eq_nil).
    + intros b. erewrite mv_getting_empty; [|reflexivity..|done]. by intros ?%elem_of_nil.
    + intros b. rewrite E1. intros ->%list_elem_of_singleton. exists (1 + m')%nat. split; [lia|].
      by apply (st_wait D Q').
Qed.

Lemma streaming_passes m w : streaming m w -> eventually moves passed w.
Proof.
  intros St. eapply ev_trans; [|intros b Hb; exact Hb]. revert m w St. apply ev_measure.
  intros m w [D Q hand n m' th mr seen thr h P I R S HD|D Q mr seen thr h I R S].
  - right. by apply (streaming_send D Q hand n).
  - by apply (streaming_wait D Q).
Qed.
End no_loss.

Lemma solo_newIDs dead now toks can chans cl wg cs k count : forall d ids,
  solo size rand dead (Around now (d + count) toks can chans cl wg) cs
    (observe (k (ids ++ ((fun j => NewID (rand j)) <$> seq d count)))) ->
  solo size rand dead (Around now d toks can chans cl wg) cs (observe (ITree.bind (newIDs count ids) k)).
Proof.
  induction count as [|count IH]; intros d ids S.
  - cbn in S. by rewrite Nat.add_0_r, app_nil_r in S.
  - cbn [newIDs]. to_head. apply solo_rand. settle. apply IH.
    rewrite <- app_assoc. replace (Datatypes.S d + count)%nat with (d + Datatypes.S count)%nat by lia. exact S.
Qed.

Lemma drawn_nodup d count : (d + count <= limit)%nat -> NoDup ((fun j => NewID (rand j)) <$> seq d count).
Proof.
  intros L. apply NoDup_fmap_2_strong; [|apply NoDup_seq]. intros i j Hi%elem_of_seq Hj%elem_of_seq. apply Hinj; lia.
Qed.

Lemma no_loss_passes count : (count + 5 * count <= limit)%nat -> passes size rand (no_loss count).
Proof.
  intros HL.  apply solo_passes; [done|]. unfold no_loss. do 6 (go_on; settle). apply solo_newIDs. cbn [app Nat.add].
  set (ids := (fun j => NewID (rand j)) <$> seq 0 count). to_head. apply solo_make. settle. to_head.
  apply solo_go. intros h I. settle.
  assert (Er : reported (4 * count + 4) ∅ = [box []]) by (unfold reported; by destruct (4 * count + 4)%nat eqn:?;
    [lia|]).
  eassert (St : _);
    [refine (st_send count ids count [] ids (length ids) _ _ (4 * count + 4) ∅
               (Idle (observe (read_all count VSeen))) h _ I _ _ _)|
    rewrite Er in St; exact (streaming_passes count ids _ _ St)].
  - exact (sends_prod ids ids).
  - apply rd_start.
  - assert (Hl : length ids = count) by (unfold ids; by rewrite length_fmap, length_seq). split.
    + rewrite app_nil_r. apply drawn_nodup. lia.
    + intros id _. apply lookup_empty.
    + intros id [Hid|[v Hv]]; [|by rewrite lookup_empty in Hv]. rewrite app_nil_r in Hid.
      apply list_elem_of_fmap in Hid as (j & -> & Hj). exists j. apply elem_of_seq in Hj. split; [lia|done].
    + rewrite map_size_empty, Hl. done.
    + intros id v Hv. by rewrite lookup_empty in Hv.
    + intros id Hid. left. by rewrite app_nil_r.
  - unfold ids. rewrite length_fmap, length_seq. lia.
Qed.

(** ** Many senders: [concurrent_senders] *)

Section concurrent.
Variables senders each : nat.
Abbreviation total := (senders * each)%nat.

Definition count_report (seen : gmap string Z) : msg := VCount (Z.of_nat (base.size seen)).

Definition check_count (v : option msg) : prog nat unit :=
  match v with Some (VCount got) => error_if (negb (got =? Z.of_nat total)) | _ => Ret tt end.

Definition then_get : prog nat unit := ITree.bind (run (Get 0 None)) check_count.
Definition then_drain : prog nat unit := ITree.bind (drain_errors 1) (fun _ => then_get).
Definition then_close : prog nat unit := ITree.bind (run (CloseChan 1)) (fun _ => then_drain).
Definition after_spawn (parent : bool) : prog nat unit :=
  if negb parent then Ret tt else ITree.bind (run WgWait) (fun _ => then_close).
Definition spawning (j : nat) (x : ctx) : prog nat unit := ITree.bind (spawn j each 0%nat x 1) after_spawn.
Definition main_program : prog nat unit :=
  ITree.bind (WithTimeout waitFor) (fun x => ITree.bind (run (Make senders)) (fun errs =>
    ITree.bind (spawn senders each 0%nat x errs) (fun parent =>
      if negb parent then Ret tt
      else ITree.bind (run WgWait) (fun _ => ITree.bind (run (CloseChan errs)) (fun _ =>
        ITree.bind (drain_errors errs) (fun _ => then_get)))))).

(** A sender is done when it has left the wait group. *)
Definition leaving (th : hthread) : Prop :=
  exists k, th = Idle (VisF (inr1 (WgAdd (-1))) k) /\ observe (k tt) = RetF tt.

Definition child (n : nat) (x : ctx) : prog nat unit :=
  ITree.bind (ITree.bind (sender n 0%nat x 1) (fun _ => ITree.bind (run (WgAdd (-1))) (fun _ => Ret false))) after_spawn.

Lemma child_prod x n : lasting x -> prod leaving [] n (5 * n) (Idle (observe (child n x))).
Proof.
  intros Hx. induction n as [|n IH].
  - apply pr_fin. eexists. unfold child. cbn [sender]. settle. to_head. split; reflexivity.
  - replace (5 * Datatypes.S n)%nat with (Datatypes.S (Datatypes.S (3 + 5 * n))) by lia.
    unfold child. cbn [sender]. to_head. apply pr_skip. intros session. settle. to_head. apply pr_draw. intros id.
      settle.
    to_head. apply (pr_call _ [] n _ x (iceComplete id session)); [done|done|done|]. settle. exact IH.
Qed.

Definition errors (closed : bool) : chan := {| ch_cap := senders; ch_buf := []; ch_closed := closed |}.

(** [spawner waited extra rest todo m th]: the test function, [m] steps of its own and of the
    senders it has yet to start before its last phase; [todo] signals are theirs; it has
    counted [extra] of them in the wait group; the wait is over when [waited]. *)
Definition cost (j : nat) : nat := 10 + j * (5 * each + 4).
Inductive spawner : bool -> Z -> list chan -> nat -> nat -> hthread -> Prop :=
| sp_start : spawner false 0 [] total (cost senders + 2) (Idle (observe main_program))
| sp_make x : lasting x -> spawner false 0 [] total (cost senders + 1)
    (Idle (VisF (inr1 (Make senders)) (fun c => ITree.bind (Ret c) (fun errs =>
       ITree.bind (spawn senders each 0%nat x errs) (fun parent =>
         if negb parent then Ret tt
         else ITree.bind (run WgWait) (fun _ => ITree.bind (run (CloseChan errs)) (fun _ =>
           ITree.bind (drain_errors errs) (fun _ => then_get))))))))
| sp_spawn j x : lasting x -> spawner false 0 [errors false] (j * each) (cost j) (Idle (observe (spawning j x)))
| sp_go j x k : lasting x -> observe (k true) = observe (child each x) -> observe (k false) = observe (spawning j x) ->
    spawner false 1 [errors false] (Datatypes.S j * each) (cost j + 5 * each + 3) (Idle (VisF (inr1 Go) k))
| sp_close k : observe (k tt) = observe then_drain ->
  spawner true 0 [errors false] 0 8 (Idle (VisF (inr1 (CloseChan 1)) k))
| sp_drain k : observe (k None) = observe then_get ->
    spawner true 0 [errors true] 0 7 (Idle (VisF (inr1 (Get 1 None)) k))
| sp_draining k : observe (k None) = observe then_get -> spawner true 0 [errors true] 0 6 (Getting 1 None k)
| sp_get k : (forall v, observe (k v) = observe (check_count v)) ->
    spawner true 0 [errors true] 0 5 (Idle (VisF (inr1 (Get 0 None)) k))
| sp_getting k : (forall v, observe (k v) = observe (check_count v)) ->
  spawner true 0 [errors true] 0 4 (Getting 0 None k).

(** A sender: its hand, its count, its steps, whether it is in the wait group. *)
Record load := Load { l_hand : list string; l_todo : nat; l_steps : nat; l_active : bool }.
Inductive worker : load -> hthread -> Prop :=
| wk_active hand n m th : prod leaving hand n m th -> worker (Load hand n (Datatypes.S m) true) th
| wk_done : worker (Load [] 0 0 false) (Idle (RetF tt)).

Definition hands_of (ls : list load) : list string := mjoin (l_hand <$> ls).
Definition todo_of (ls : list load) : nat := sum_list_with l_todo ls.
Definition steps_of (ls : list load) : nat := sum_list_with l_steps ls.
Definition active_of (ls : list load) : nat := sum_list_with (fun l => if l_active l then 1 else 0)%nat ls.

(** One step of the test function: it waits for the group, or for the report, or moves;
    [nl], [nt]: the sender it starts. *)
Inductive main_moves (waited : bool) (extra wg : Z) (todo m : nat) (w : tworld) (th : hthread)
    (next : list chan -> Z -> hthread -> list hthread -> tworld) : Prop :=
| mm_wait : waited = false -> todo = 0%nat -> extra = 0 -> wg <> 0 -> thread_moves w 0 th = [] ->
    main_moves waited extra wg todo m w th next
| mm_get k : th = Getting 0 None k -> (forall v, observe (k v) = observe (check_count v)) -> waited = true ->
    main_moves waited extra wg todo m w th next
| mm_move waited' extra' rest' todo' m' th' nl nt wg' :
    thread_moves w 0 th = [next rest' wg' th' nt] -> spawner waited' extra' rest' todo' m' th' ->
    Forall2 worker nl nt -> hands_of nl = [] -> (todo' + todo_of nl = todo)%nat -> (m' + steps_of nl < m)%nat ->
    wg' - extra' - Z.of_nat (active_of nl) = wg - extra ->
    (waited' = true -> nl = [] /\ (waited = true \/ wg = 0 /\ extra = 0)) ->
      main_moves waited extra wg todo m w th next.

Section main.
Variables (c : chan) (D : nat) (h : hub) (t1 : hthread) (ths : list hthread).
Abbreviation at_world rest wg th ths := (world_of (Around 0 D 0 [] (c :: rest) [1; 0]%nat wg) h (th :: t1 :: ths)).
Abbreviation moving waited extra wg todo m rest th :=
  (main_moves waited extra wg todo m (at_world rest wg th ths) th
     (fun rest' wg' th' nt => at_world rest' wg' th' (ths ++ nt))).

Lemma mm_plain waited extra wg todo m rest th waited' extra' rest' m' th' wg' :
  thread_moves (at_world rest wg th ths) 0 th = [at_world rest' wg' th' ths] ->
    spawner waited' extra' rest' todo m' th' ->
  (m' < m)%nat -> wg' - extra' = wg - extra -> (waited' = true -> waited = true \/ wg = 0 /\ extra = 0) ->
  moving waited extra wg todo m rest th.
Proof.
  intros E S L Hw Hv. eapply (mm_move _ _ _ _ _ _ _ _ waited' extra' rest' todo m' th' [] [] wg'); try done.
  - rewrite E. by rewrite app_nil_r.
  - cbn. lia.
  - cbn. lia.
  - intros Hv'. split; [done|auto].
Qed.

Lemma spawner_waited extra rest todo m th : spawner true extra rest todo m th -> extra = 0 /\ todo = 0%nat.
Proof. intros S. by inversion S. Qed.

Lemma spawner_step waited extra rest todo m th wg :
  spawner waited extra rest todo m th -> moving waited extra wg todo m rest th.
Proof.
  intros St. destruct St as [|x Hx|j x Hx|j x k Hx E1 E2|k Ek|k Ek|k Ek|k Ek|k Ek].
  - eapply mm_plain; [|apply (sp_make {| x_deadline := Some (0 + waitFor); x_token := None |})|lia|done|done].
    + unfold main_program. to_head. rewrite mv_now. cbn [insert list_insert]. settle. to_head. reflexivity.
    + split; [done|]. by exists (0 + waitFor).
  - eapply mm_plain; [|apply (sp_spawn senders x Hx)|lia|done|done]. reflexivity.
  - destruct j as [|j].
    + unfold spawning. cbn [spawn]. settle. unfold after_spawn. cbn [negb]. to_head.
      destruct (Z.eqb_spec wg 0) as [->|Hw].
      * eapply mm_plain; [rewrite mv_wait; cbn [Z.eqb]; settle; to_head; reflexivity|apply sp_close; settle;
        reflexivity|
          unfold cost; lia|done|by right].
      * apply mm_wait; try done. rewrite mv_wait. by destruct (Z.eqb_spec wg 0).
    + unfold spawning. cbn [spawn]. to_head.
      eapply mm_plain; [rewrite mv_wg; cbn [insert list_insert]; settle; to_head; reflexivity|
        apply (sp_go j x); [done|settle; reflexivity|settle; reflexivity]|unfold cost; lia|lia|done].
  - eapply (mm_move _ _ _ _ _ _ _ _ false 0 [errors false] (j * each) (cost j) _ [Load [] each (5 * each + 1) true]
      [Idle (observe (child each x))] wg);
      [rewrite mv_go; cbn [insert list_insert]; rewrite E1, E2; reflexivity|by apply sp_spawn| |done|cbn; lia|cbn;
        lia|cbn; lia|done].
    constructor; [|constructor]. replace (5 * each + 1)%nat with (Datatypes.S (5 * each)) by lia. apply wk_active.
      by apply child_prod.
  - eapply mm_plain; [rewrite mv_close_chan; cbn [insert list_insert alter list_alter]; rewrite Ek;
    unfold then_drain, drain_errors; to_head; reflexivity
      |apply sp_drain; settle; reflexivity|lia|lia|by left].
  - eapply mm_plain; [rewrite mv_get; reflexivity|by apply sp_draining|lia|lia|by left].
  - eapply mm_plain; [erewrite mv_getting_closed; [|reflexivity..]; cbn [insert list_insert]; rewrite Ek;
    unfold then_get; to_head; reflexivity
      |apply sp_get; intros v; settle; reflexivity|lia|lia|by left].
  - eapply mm_plain; [rewrite mv_get; reflexivity|by apply sp_getting|lia|lia|by left].
  - by apply (mm_get _ _ _ _ _ _ _ _ k).
Qed.
End main.

(** The test, at most [m] steps from its last phase. *)
Definition count_reported (mr : nat) (seen : gmap string Z) : chan :=
  box match mr with O => [count_report seen] | _ => [] end.

Inductive crowd : nat -> tworld -> Prop :=
| cr waited extra rest todo m th mr seen thr ls ths D Q h wg :
    spawner waited extra rest todo m th -> reader total count_report seen mr thr -> Forall2 worker ls ths ->
    hub_at size (bobs Q) h -> shared total D Q (hands_of ls) (todo + todo_of ls) seen [] ->
    wg = extra + Z.of_nat (active_of ls) -> (waited = true -> active_of ls = 0%nat) ->
    (D + m + steps_of ls <= limit)%nat ->
    crowd (m + mr + steps_of ls)
      (world_of (Around 0 D 0 [] (count_reported mr seen :: rest) [1; 0]%nat wg) h (th :: thr :: ths)).

Lemma hands_app l r : hands_of (l ++ r) = hands_of l ++ hands_of r.
Proof. unfold hands_of. by rewrite fmap_app, join_app. Qed.
Lemma todo_app l r : todo_of (l ++ r) = (todo_of l + todo_of r)%nat.
Proof. apply sum_list_with_app. Qed.
Lemma steps_app l r : steps_of (l ++ r) = (steps_of l + steps_of r)%nat.
Proof. apply sum_list_with_app. Qed.
Lemma active_app l r : active_of (l ++ r) = (active_of l + active_of r)%nat.
Proof. apply sum_list_with_app. Qed.

Lemma hands_cons l r : hands_of (l :: r) = l_hand l ++ hands_of r.
Proof. reflexivity. Qed.
Lemma todo_cons l r : todo_of (l :: r) = (l_todo l + todo_of r)%nat.
Proof. reflexivity. Qed.

Lemma active_some ls : active_of ls <> 0%nat -> exists i l, ls !! i = Some l /\ l_active l = true.
Proof.
  induction ls as [|l ls IH]; [done|]. destruct (l_active l) eqn:E; [by exists 0%nat, l|].
  unfold active_of. cbn. rewrite E. intros H. destruct (IH H) as (i & l' & Hi & Hl). by exists (Datatypes.S i), l'.
Qed.

(** Nobody is left in the wait group. *)
Lemma all_done ls ths : Forall2 worker ls ths -> active_of ls = 0%nat ->
  ths = replicate (length ths) (Idle (RetF tt)) /\ todo_of ls = 0%nat /\ hands_of ls = [].
Proof.
  induction 1 as [|l t ls ths W _ IH]; [done|]. destruct W as [|]; [done|]. intros H. destruct (IH H) as (E & Et & Eh).
  rewrite todo_cons, hands_cons, Et, Eh. cbn [length replicate]. by rewrite E at 1.
Qed.

Section crowd.
Variables (waited : bool) (extra : Z) (rest : list chan) (todo m : nat) (th : hthread) (mr : nat)
  (seen : gmap string Z) (thr : hthread) (ls : list load) (ths : list hthread) (D : nat) (Q : list Signal.Signal)
  (h : hub) (wg : Z).
Hypothesis Hm : spawner waited extra rest todo m th.
Hypothesis Hr : reader total count_report seen mr thr.
Hypothesis Hw : Forall2 worker ls ths.
Hypothesis HI : hub_at size (bobs Q) h.
Hypothesis Hs : shared total D Q (hands_of ls) (todo + todo_of ls) seen [].
Hypothesis Hwg : wg = extra + Z.of_nat (active_of ls).
Hypothesis Hdone : waited = true -> active_of ls = 0%nat.
Hypothesis Hlim : (D + m + steps_of ls <= limit)%nat.
Abbreviation w := (world_of (Around 0 D 0 [] (count_reported mr seen :: rest) [1; 0]%nat wg) h (th :: thr :: ths)).
Abbreviation fewer b := (exists m', (m' < m + mr + steps_of ls)%nat /\ crowd m' b).

(** The steps of the test function, unless it has the report. *)
Lemma crowd_main : (mr <> 0%nat \/ forall k, th <> Getting 0 None k) ->
  (forall b, b ∈ thread_moves w 0 th -> fewer b) /\
  (thread_moves w 0 th = [] -> waited = false /\ todo = 0%nat /\ extra = 0 /\ wg <> 0 \/ waited = true /\ mr <> 0%nat).
Proof.
  intros Hn. destruct (spawner_step (count_reported mr seen) D h thr ths _ _ _ _ _ _ wg Hm)
    as [-> -> -> Hz E|k -> Hk ->|waited' extra' rest' todo' m' th' nl nt wg' E Hm' Hl Hh Ht Lm Eg Hv].
  - rewrite E. split; [by intros b ?%elem_of_nil|]. intros _. by left.
  - destruct Hn as [Hn|Hn]; [|by destruct (Hn k)]. destruct mr as [|mr']; [done|].
    erewrite mv_getting_empty; [|reflexivity..|done]. split; [by intros b ?%elem_of_nil|]. by right.
  - rewrite E. split; [|done]. intros b ->%list_elem_of_singleton. exists (m' + mr + steps_of (ls ++ nl))%nat.
    rewrite steps_app. split; [lia|]. rewrite <- steps_app.
      apply (cr waited' extra' rest' todo' m' th' mr seen thr (ls ++ nl) (ths ++ nt) D Q); try done.
    + by apply Forall2_app.
    + rewrite hands_app, Hh, app_nil_r, todo_app.
      replace (todo' + (todo_of ls + todo_of nl))%nat with (todo + todo_of ls)%nat by lia. done.
    + rewrite active_app. lia.
    + intros Hw'. destruct (Hv Hw') as [-> [Hw0|[-> ->]]]; rewrite app_nil_r; [by apply Hdone|lia].
    + rewrite steps_app. lia.
Qed.

(** Those of the reader. *)
Lemma crowd_reader :
  (forall b, b ∈ thread_moves w 1 thr -> fewer b) /\
  (thread_moves w 1 thr = [] -> mr = 0%nat /\ base.size seen = total \/ mr <> 0%nat /\ Q = []
    /\ (base.size seen < total)%nat).
Proof.
  destruct mr as [|mr'].
  { destruct (reader_zero _ _ _ _ Hr) as [E ->]. rewrite mv_ret. split; [by intros b ?%elem_of_nil|]. intros _.
    by left. }
  destruct (reader_step total count_report seen _ thr D 0 [] rest [1;
    0]%nat wg h (th :: thr :: ths) 1 Q (hands_of ls) _ [] Hr HI Hs)
    as [(_ & ? & _)|[(EQ & L & E)|(Q' & seen' & m' & th' & h' & b & E & I' & R' & Lm & S' & ->)]]; [done| |].
  - change (count_reported (Datatypes.S mr') seen) with (box []). rewrite E. split; [by intros b ?%elem_of_nil|].
    intros _. by right.
  - change (count_reported (Datatypes.S mr') seen) with (box []). rewrite E. split; [|done].
    intros b ->%list_elem_of_singleton. exists (m + m' + steps_of ls)%nat. split; [lia|].
    by apply (cr waited extra rest todo m th m' seen' th' ls ths D Q').
Qed.

(** Those of a sender. *)
Lemma crowd_worker i t : ths !! i = Some t ->
  (forall b, b ∈ thread_moves w (2 + i) t -> fewer b) /\
  (forall l, ls !! i = Some l -> l_active l = true -> thread_moves w (2 + i) t = [] -> size <= zlen Q).
Proof.
  intros Hi. destruct (Forall2_lookup_r _ _ _ _ _ Hw Hi) as (l & Hl & Wl). rewrite Hl.
  pose proof (take_drop_middle ls i l Hl) as El.
  set (l1 := take i ls) in *. set (l2 := drop (Datatypes.S i) ls) in *.
  assert (Hins : forall l' t', worker l' t' -> Forall2 worker (l1 ++ l' :: l2) (<[i := t']> ths)).
  { intros l' t' W. unfold l1, l2. rewrite <- insert_take_drop by (by eapply lookup_lt_Some). by apply Forall2_insert. }
  destruct Wl as [hand n m1 t P|]; [|change (2 + i)%nat with (Datatypes.S (Datatypes.S i)); rewrite mv_ret;
    split; [by intros b ?%elem_of_nil|]; by intros ? [= <-]].
  destruct (prod_step _ _ _ _ _ P) as [((k & -> & Ek) & -> & -> & ->)|Hst].
  - rewrite mv_wg, Ek. split; [|done]. intros b ->%list_elem_of_singleton.
    exists (m + mr + steps_of (l1 ++ Load [] 0 0 false :: l2))%nat. rewrite <- El.
    split; [rewrite !steps_app; cbn; lia|].
    apply (cr waited extra rest todo m th mr seen thr _ (<[i := Idle (RetF tt)]> ths) D Q); try done.
    + apply Hins. constructor.
    + rewrite <- El in Hs. rewrite hands_app, todo_app in *. exact Hs.
    + rewrite Hwg, <- El, !active_app. cbn. lia.
    + intros Hw'. specialize (Hdone Hw'). rewrite <- El, active_app in Hdone. rewrite active_app. cbn in *. lia.
    + rewrite <- El, steps_app in Hlim. rewrite steps_app. cbn in *. lia.
  - destruct (Hst D 0%nat [] (count_reported mr seen :: rest) [1; 0]%nat wg h (th :: thr :: ths) (2 + i)%nat Q HI)
      as [(_ & L & E)|(D' & Q' & hand' & n' & m' & t' & h' & E & I' & P' & Lm & LD & Ef)]; rewrite E.
    { split; [by intros b ?%elem_of_nil|]. done. }
    split; [|done]. intros b ->%list_elem_of_singleton.
    exists (m + mr + steps_of (l1 ++ Load hand' n' (Datatypes.S m') true :: l2))%nat. rewrite <- El.
    split; [rewrite !steps_app; cbn; lia|].
    apply (cr waited extra rest todo m th mr seen thr _ (<[i := t']> ths) D' Q'); try done.
    + apply Hins. by constructor.
    + rewrite <- El in Hs. rewrite hands_app, todo_app, hands_cons, todo_cons in *. cbn [l_hand l_todo] in *.
      pose proof (shared_effect total D Q hand n D' Q' hand' n' (hands_of l1) (hands_of l2)
                    (todo + todo_of l1 + todo_of l2) seen []) as He.
      replace (todo + (todo_of l1 + (n + todo_of l2)))%nat with (n + (todo + todo_of l1 + todo_of l2))%nat in Hs by lia.
      apply He in Hs; [|rewrite <- El, steps_app in Hlim; cbn in Hlim; lia|done].
        by replace (todo + (todo_of l1 + (n' + todo_of l2)))%nat with (n' + (todo + todo_of l1 + todo_of l2))%nat by lia.
    + rewrite Hwg, <- El, !active_app. cbn. lia.
    + intros Hw'. specialize (Hdone Hw'). rewrite <- El, active_app in Hdone. cbn in Hdone. lia.
    + rewrite <- El, steps_app in Hlim. rewrite steps_app. cbn in *. lia.
Qed.

(** Somebody can move. *)
Lemma crowd_some : (mr <> 0%nat \/ forall k, th <> Getting 0 None k) ->
  exists j tj, (th :: thr :: ths) !! j = Some tj /\ thread_moves w j tj <> [].
Proof.
  intros Hn. destruct (thread_moves w 0 th) as [|b l] eqn:E0; [|exists 0%nat, th; by rewrite E0].
  destruct (thread_moves w 1 thr) as [|b l] eqn:E1; [|exists 1%nat, thr; by rewrite E1].
  destruct (crowd_main Hn) as [_ H0]. destruct crowd_reader as [_ H1]. pose proof (sh_count _ _ _ _ _ _ _ Hs) as Hc.
  destruct (H0 E0) as [(_ & Ht & He & Hz)|[Hv Hmr]].
  - assert (Q = []) as EQ by (destruct (H1 E1) as [[_ E]|(_ & E & _)]; [destruct Q; [done|cbn in Hc; lia]|done]).
    assert (Ha : active_of ls <> 0%nat) by lia.
    destruct (active_some ls Ha) as (i & l & Hl & Al). destruct (Forall2_lookup_l _ _ _ _ _ Hw Hl) as (t & Hi & _).
    exists (2 + i)%nat, t. split; [done|]. intros E. destruct (crowd_worker i t Hi) as [_ Hx].
    specialize (Hx l Hl Al E). rewrite EQ in Hx. change (zlen []) with 0 in Hx. lia.
  - subst waited. destruct (H1 E1) as [[? _]|(_ & -> & L)]; [done|]. destruct (spawner_waited _ _ _ _ _ Hm) as [_ ->].
    destruct (all_done ls ths Hw (Hdone eq_refl)) as (_ & Ht & _). cbn in Hc. lia.
Qed.
End crowd.

(** The report is there: the last phase. *)
Lemma crowd_end k seen D h ths Q : ths = replicate (length ths) (Idle (RetF tt)) ->
  (forall v, observe (k v) = observe (check_count v)) -> base.size seen = total -> hub_at size (bobs Q) h ->
  eventually moves passed
    (world_of (Around 0 D 0 [] (box [count_report seen] :: [errors true]) [1;
      0]%nat 0) h (Getting 0 None k :: Idle (RetF tt) :: ths)).
Proof.
  intros E Hk Es I. rewrite E. 
  change (?t :: Idle (RetF tt) :: replicate ?n (Idle (RetF tt))) with (with_dead (Datatypes.S n) t).
  eapply ev_one; [rewrite moves_solo; by erewrite mv_getting|]. cbn [with_dead insert list_insert]. rewrite Hk.
  refine ((_ : solo size rand (Datatypes.S (length ths)) _ (bobs Q) _) h I). cbn [check_count count_report]. rewrite Es.
  rewrite Z.eqb_refl. finish.
Qed.

Lemma crowd_step m w : crowd m w ->
  eventually moves passed w \/ (moves w <> [] /\ forall b, b ∈ moves w -> exists m', (m' < m)%nat /\ crowd m' b).
Proof.
  intros [waited extra rest todo m1 th mr seen thr ls ths D Q h wg Hm Hr Hw HI Hs Hwg Hdone Hlim].
  assert (Hcase : (mr = 0%nat /\ exists k, th = Getting 0 None k) \/ (mr <> 0%nat \/ forall k, th <> Getting 0 None k)).
  { destruct mr; [|by right; left]. destruct th; try (right; right; done). inversion Hm; subst; [right; right;
    done|]. left. eauto. }
  destruct Hcase as [[-> [k ->]]|Hn].
  - left. destruct (reader_zero _ _ _ _ Hr) as [Es ->]. inversion Hm as [| | | | | | | |k' Hk]; subst.
    destruct (all_done _ _ Hw (Hdone eq_refl)) as (Et & _). rewrite (Hdone eq_refl).
      by apply (crowd_end k seen D h ths Q).
  - right. destruct (crowd_some _ _ _ _ _ _ _ _ _ _ _ _ _ _ _ Hm Hr Hw HI Hs Hwg Hdone Hlim Hn) as (j & tj & Hj & Ej).
    match type of Ej with thread_moves ?w0 _ _ <> _ => destruct (moves_some w0 j tj eq_refl Hj Ej) as [Hne Hall] end.
    split; [done|]. intros b Hb.
    destruct (Hall b Hb) as ([|[|i]] & t & Ht & Hb').
    + injection Ht as <-. exact (proj1 (crowd_main _ _ _ _ _ _ _ _ _ _ _ _ _ _ _ Hm Hr Hw HI Hs Hwg Hdone Hlim Hn) b Hb').
    + injection Ht as <-. exact (proj1 (crowd_reader _ _ _ _ _ _ _ _ _ _ _ _ _ _ _ Hm Hr Hw HI Hs Hwg Hdone Hlim) b Hb').
    + exact (proj1 (crowd_worker _ _ _ _ _ _ _ _ _ _ _ _ _ _ _ Hm Hr Hw HI Hs Hwg Hdone Hlim i t Ht) b Hb').
Qed.

Lemma crowd_passes m w : crowd m w -> eventually moves passed w.
Proof. intros St. eapply ev_trans; [exact (ev_measure _ _ crowd crowd_step m w St)|]. done. Qed.
End concurrent.

Lemma concurrent_senders_passes senders each : (cost each senders + 2 <= limit)%nat ->
  passes size rand (concurrent_senders senders each).
Proof.
  intros HL.  apply solo_passes; [done|]. unfold concurrent_senders. do 6 (go_on; settle). to_head. apply solo_make.
    settle. to_head.
  apply solo_go. intros h I. settle.
  assert (Er : count_reported (4 * (senders * each) + 4) ∅ = box [])
    by (unfold count_reported; by destruct (4 * (senders * each) + 4)%nat eqn:?; [lia|]).
  eassert (St : _); [refine (cr senders each false 0 [] (senders * each) _ _ (4 * (senders * each) + 4) ∅
      (Idle (observe (read_all (senders * each) count_report))) [] [] 0 [] h 0 (sp_start senders each) _ _ I _ _ _ _)|
    rewrite Er in St; exact (crowd_passes senders each _ _ St)]; try done.
  - apply rd_start.
  - split; try done.
    + constructor.
    + intros id [Hid|[v Hv]]; [by apply elem_of_nil in Hid|by rewrite lookup_empty in Hv].
    + intros id Hid. by apply elem_of_nil in Hid.
  - change (steps_of []) with 0%nat. lia.
Qed.
End flow.
