(* ===== verification/ConformanceSuite.v ===== *)
(** * The conformance suite, run against the hub

    [hub_conforms]: every subtest of [Run] passes on every schedule. The examples at the end
    are what the suite says about hubs with faults, and about its own configuration. *)

From Stdlib Require Import String.
From ITree Require Import Core.ITreeDefinition.
From S2P Require Import Prelude.
From S2P Require Import Errors.
From S2P Require Import Json.
From S2P Require Import Signal.
From S2P Require Import Signaling.
From S2P Require Import Conformance.
From S2P Require Import Memory.
From S2P Require Import MemorySignaler.
From S2P Require Import ConformanceProps.
From S2P Require Import ConformanceRaces.
From S2P Require Import ConformanceFlow.

(** ** Every subtest *)

Section hub.
Variable size : Z.
Hypothesis Hsize : 0 < size.
Variable rand : nat -> bytes.
Hypothesis Hrand : forall n, List.length (rand n) = 16%nat.
Hypothesis Hinj : forall i j, (i < 1200)%nat -> (j < 1200)%nat -> NewID (rand i) = NewID (rand j) -> i = j.

Lemma subtests_pass cfg : 60 <= MaxPayload cfg -> Forall (fun p => passes size rand (p.2 cfg)) tests.
Proof.
  intros Hm. repeat (apply Forall_cons; split); [..|constructor].
  - by apply roundtrip.
  - by apply envelope.
  - by apply large_payload.
  - by apply bidirectional.
  - by apply isolation.
  - apply (no_loss_passes size Hsize rand 1200 Hinj 200). lia.
  - apply (concurrent_senders_passes size Hsize rand 1200 Hinj 8 25). unfold cost. lia.
  - by apply receive_honours_context.
  - by apply honours_cancelled.
  - by apply close_unblocks.
  - by apply close_idempotent.
  - by apply use_after_close.
  - by apply duplicate_peer.
  - by apply unavailable_peer.
Qed.
End hub.

Lemma New_size o f : exists size, 0 < size /\ New o f = New (Some size) f.
Proof.
  exists (queueSize (New o f)). split.
  - destruct o as [n|]; cbn; [destruct (Z.ltb_spec 0 n); [done|]|]; unfold DefaultQueueSize; lia.
  - unfold New. cbn. f_equal. destruct o as [n|]; cbn; [|done].
    destruct (Z.ltb_spec 0 n); [by destruct (Z.ltb_spec 0 n); [|lia]|done].
Qed.

Lemma with_default_large cfg : MaxPayload cfg <= 0 \/ 60 <= MaxPayload cfg -> 60 <= MaxPayload (with_default cfg).
Proof.
  intros H. unfold with_default. destruct (Z.leb_spec (MaxPayload cfg) 0); [|lia].
  change (60 <= MaxSDPSize). by vm_compute.
Qed.

(** C37. The hub conforms. Whatever its queue size, every subtest that [Run] starts against it
    passes on every schedule of the test's goroutines and every choice of the hub's
    [select]s: no schedule fails a check, deadlocks or goes on forever, the goroutines of
    the 200 and the 8 times 25 signals included. The IDs drawn are sixteen random bytes
    that do not repeat within a test, and [MaxPayload] is left to its default or at least 60. *)
Theorem hub_conforms (o : option Z) (rand : nat -> bytes) (cfg : Config) :
  (forall n, List.length (rand n) = 16%nat) ->
  (forall i j, (i < 1200)%nat -> (j < 1200)%nat -> NewID (rand i) = NewID (rand j) -> i = j) ->
  MaxPayload cfg <= 0 \/ 60 <= MaxPayload cfg ->
  exists subtests, Run (Some (New o NoFault)) cfg = Some subtests /\ length subtests = 14%nat /\
    forall name hub t, (name, (hub, t)) ∈ subtests ->
      eventually moves (fun w => verdict w = Some true) (start_test hub rand t).
Proof.
  intros Hr Hi Hm. destruct (New_size o NoFault) as (size & Hs & ->). eexists. split; [reflexivity|]. split; [done|].
  intros name h t Hin. apply list_elem_of_fmap in Hin as ([name' fn] & E & Hin). injection E as -> -> ->.
  pose proof (subtests_pass size Hs rand Hr Hi (with_default cfg) (with_default_large cfg Hm)) as Hall.
  rewrite Forall_forall in Hall. exact (Hall _ Hin).
Qed.

Module SuiteDemo.
(** The draw [n] ends in the two bytes of [n]. *)
Definition rand (n : nat) : bytes := repeat (byte_of 0) 14 ++ [byte_of (Z.of_nat n / 256); byte_of (Z.of_nat n mod 256)].

Definition hex_digit_val (c : byte) : Z := let v := byte_val c in if v <? 58 then v - 48 else v - 87.
Definition back (id : string) : Z :=
  fold_left (fun a c => a * 16 + hex_digit_val c) (drop 28 (list_ascii_of_string id)) 0.

Lemma back_rand n : (n < 1200)%nat -> back (NewID (rand n)) = Z.of_nat n.
Proof.
  intros Hn. assert (H : forallb (fun n => back (NewID (rand n)) =? Z.of_nat n) (seq 0 1200) = true)
    by (vm_compute; reflexivity).
  rewrite forallb_forall in H. apply Z.eqb_eq, H. apply list_elem_of_In, elem_of_seq. lia.
Qed.

Definition cfg : Config := {| RejectsDuplicatePeers := true; ReportsUnavailablePeer := true; MaxPayload := 0 |}.
End SuiteDemo.

Example hub_conforms_witness :
  exists subtests, Run (Some (New (Some 1) NoFault)) SuiteDemo.cfg = Some subtests /\ length subtests = 14%nat /\
    forall name hub t, (name, (hub, t)) ∈ subtests ->
      eventually moves (fun w => verdict w = Some true) (start_test hub SuiteDemo.rand t).
Proof.
  apply (hub_conforms (Some 1) SuiteDemo.rand SuiteDemo.cfg).
  - intros n. reflexivity.
  - intros i j Hi Hj E. apply Nat2Z.inj. rewrite <- (SuiteDemo.back_rand i Hi), <- (SuiteDemo.back_rand j Hj), E.
    reflexivity.
  - left. vm_compute. discriminate.
Defined.

(** ** What the suite makes of other hubs *)

(** A run of the subtest [fn] against a hub with a fault. *)
Definition run_against (f : fault) (size : option Z) (cfg : Config) (fn : Config -> prog nat unit) : option bool :=
  first_run 20000 (start_test (New size f) SuiteDemo.rand (fn cfg)).

(** A hub that loses candidates' ends is caught, and so is one that loses an offer. *)
Example loss_is_caught :
  run_against (DropKind [KindICEComplete]) None SuiteDemo.cfg testNoLoss = Some false /\
  run_against (DropFirst KindOffer 1) None SuiteDemo.cfg testRoundTrip = Some false.
Proof. vm_compute. done. Qed.

Definition capped (n : Z) : Config := {|
  RejectsDuplicatePeers := true; ReportsUnavailablePeer := true; MaxPayload := n |}.

(** A hub that delivers every signal twice, which at-least-once delivery allows, fails the
    subtest of the envelope: it expects each signal once. It passes the one that counts. *)
Example duplicates_are_refused :
  run_against DuplicateAll None SuiteDemo.cfg testEnvelopeSurvives = Some false /\
  run_against DuplicateAll None SuiteDemo.cfg testNoLoss = Some true.
Proof. vm_compute. done. Qed.

(** With a cap below 60 bytes the subtest of the large payload dies in [strings.Repeat], and
    the payload it builds is larger than the cap. *)
Example cap_is_no_cap :
  run_against NoFault None (capped 59) testLargePayload = Some false /\
  run_against NoFault None (capped 60) testLargePayload = Some true /\
  exists body, Repeat (line "a=x") (Z.quot (1000 - 64) 5) = Some body /\
    zlen (sdpPayload (line "v=0" +:+ body)) = 1326.
Proof.
  split; [by vm_compute|]. split; [by vm_compute|]. eexists. split; [reflexivity|]. by vm_compute.
Qed.
