(* ===== verification/Relay.v ===== *)
(** * The TURN relay (relay/relay.go)

    Configuration, users and plans, the admission of allocations and the traffic counters.
    pion/turn and the rate limiter are outside: the class [Turn] has the functions of the
    one, [Limiter] the operations of the other, and what their server does with the
    handlers is the step system of [RelayProps]. A counter is a [Z]. The decimal forms of
    floating-point numbers are the class [Strconv]. Log output is left
    out. *)

From Stdlib Require Import SpecFloat.
From Stdlib Require Import String.
From stdpp Require Import sorting.
From S2P Require Import Prelude.
From S2P Require Import Errors.
From S2P Require Import Floats.
From S2P Require Import Stream.
From S2P Require Import Json.
From S2P Require Import Strings.

(** ** Configuration *)

Definition DefaultRealm : string := "pipe.example".
Definition DefaultMaxDelay : Z := 20 * millisecond.
Definition DefaultCredentialTTL : Z := 24 * 3600 * second.
Definition minBurst : Z := Z.shiftl 64 10.

Record Plan := { Rate : Z; Burst : Z; MaxDelay : Z; MaxAllocations : Z }.

Record User := { Password : string; UserPlan : string }.

(** The fields of [Config] but the logger. A [net.IP] is its bytes. *)
Record Config := {
  ListenAddr : string; ListenTCP : string; Realm : string; Users : gmap string User; AuthSecret : string;
  Plans : gmap string Plan; DefaultPlan : Plan; PlanFor : option (string -> string);
  RelayIP : option bytes; MinPort : Z; MaxPort : Z
}.

#[export] Instance Config_eta : Eta Config := fun c => {|
  ListenAddr := ListenAddr c; ListenTCP := ListenTCP c; Realm := Realm c; Users := Users c;
  AuthSecret := AuthSecret c; Plans := Plans c; DefaultPlan := DefaultPlan c; PlanFor := PlanFor c;
  RelayIP := RelayIP c; MinPort := MinPort c; MaxPort := MaxPort c |}.

(** [Start] up to the listeners: the configuration with its defaults, or the error. Go ranges
    over a map in no fixed order: with several faulty users the message is one of theirs. *)
Definition start_config (cfg : Config) : result error Config :=
  let cfg := if bool_decide (Realm cfg = "")%string then cfg <| Realm := DefaultRealm |> else cfg in
  let cfg := if bool_decide (ListenAddr cfg = "")%string then cfg <| ListenAddr := "127.0.0.1:0"%string |> else cfg in
  if xorb (MinPort cfg =? 0) (MaxPort cfg =? 0) || (MaxPort cfg <? MinPort cfg) then
    Err (EOther "relay: MinPort and MaxPort must both be set, with MinPort <= MaxPort" None)
  else if bool_decide (is_Some (Plans cfg !! ""%string)) then
    Err (EOther "relay: a plan name cannot be empty" None)
  else if bool_decide (is_Some (Users cfg !! ""%string)) then
    Err (EOther "relay: a TURN username cannot be empty" None)
  else if existsb (fun p => negb (bool_decide (UserPlan p.2 = ""%string)) &&
                            negb (bool_decide (is_Some (Plans cfg !! UserPlan p.2)))) (map_to_list (Users cfg)) then
    Err (EOther "relay: user %q refers to unknown plan %q" None)
  else Ok cfg.

(** [planName], [plan] and [userIDOf]. *)
Definition planName (cfg : Config) (userID : string) : string :=
  match PlanFor cfg with
  | Some f => f userID
  | None =>
    let by_suffix :=
      match cut (chr "@") (list_ascii_of_string userID) with
      | Some (_, plan) =>
        let plan := string_of_list_ascii plan in
        if bool_decide (is_Some (Plans cfg !! plan)) then plan else ""%string
      | None => ""%string
      end in
    match Users cfg !! userID with
    | Some u => if negb (bool_decide (UserPlan u = "")%string) then UserPlan u else by_suffix
    | None => by_suffix
    end
  end.

Definition plan_of (cfg : Config) (userID : string) : string * Plan :=
  let name := planName cfg userID in
  match Plans cfg !! name with
  | Some p => if bool_decide (name = "")%string then ("default"%string, DefaultPlan cfg) else (name, p)
  | None => ("default"%string, DefaultPlan cfg)
  end.

Definition userIDOf (cfg : Config) (username : string) : string :=
  if bool_decide (AuthSecret cfg = "")%string then username
  else match Users cfg !! username with
  | Some _ => username
  | None =>
    match cut (chr ":") (list_ascii_of_string username) with
    | Some (_, id) => string_of_list_ascii id
    | None => username
    end
  end.

Definition burstFor (rateBytes burst : Z) : Z :=
  if 0 <? burst then Z.max burst minBurst else Z.max (Z.quot rateBytes 10) minBurst.

Definition maxDelayFor (d : Z) : Z :=
  if d <? 0 then 0 else if d =? 0 then DefaultMaxDelay else d.

(** ** Credentials *)

Class Turn := {
  GenerateAuthKey : string -> string -> string -> bytes;                    (* user, realm, password *)
  TURNRESTAuth : string -> Z -> string -> option (string * bytes);          (* secret, time, username *)
  TURNRESTCredentials : string -> Z -> string -> Z -> result error (string * string)  (* secret, time, user, ttl *)
}.

Section turn.
Context `{Turn}.

(** [IssueCredentials] at an instant. *)
Definition IssueCredentials (now : Z) (secret userID : string) (ttl : Z) : result error (string * string) :=
  if bool_decide (secret = "")%string then Err (EOther "relay: an auth secret is required to issue credentials" None)
  else if bool_decide (userID = "")%string || existsb (Ascii.eqb (chr ":")) (list_ascii_of_string userID) then
    Err (EOther "relay: the user ID must be non-empty and must not contain ':'" None)
  else TURNRESTCredentials secret now userID (if ttl <=? 0 then DefaultCredentialTTL else ttl).

(** The [AuthHandler] of [Start]: the user ID and the key. The key table holds every static
    user. *)
Definition AuthHandler (cfg : Config) (now : Z) (username : string) : option (string * bytes) :=
  match Users cfg !! username with
  | Some u => Some (username, GenerateAuthKey username (Realm cfg) (Password u))
  | None => if negb (bool_decide (AuthSecret cfg = "")%string) then TURNRESTAuth (AuthSecret cfg) now username else None
  end.
End turn.

(** ** Counters *)

Record counters := {
  sentBytes : Z; sentPackets : Z; recvBytes : Z; recvPackets : Z; droppedBytes : Z; droppedPackets : Z;
  delayedPackets : Z
}.

#[export] Instance counters_eta : Eta counters := fun c => {|
  sentBytes := sentBytes c; sentPackets := sentPackets c; recvBytes := recvBytes c; recvPackets := recvPackets c;
  droppedBytes := droppedBytes c; droppedPackets := droppedPackets c; delayedPackets := delayedPackets c |}.

Definition no_traffic : counters := {|
  sentBytes := 0; sentPackets := 0; recvBytes := 0; recvPackets := 0; droppedBytes := 0; droppedPackets := 0;
  delayedPackets := 0 |}.

Record userCounters := { uc_plan : string; uc_allocations : Z; uc_active : Z; uc_rejected : Z; uc_counters : counters }.

#[export] Instance userCounters_eta : Eta userCounters := fun u => {|
  uc_plan := uc_plan u; uc_allocations := uc_allocations u; uc_active := uc_active u; uc_rejected := uc_rejected u;
  uc_counters := uc_counters u |}.

(** [shapedGenerator]: users are never deleted, so a pointer to one is its ID. *)
Record generator := {
  g_allocations : Z; g_active : Z; g_counters : counters; g_users : gmap string userCounters
}.

#[export] Instance generator_eta : Eta generator := fun g => {|
  g_allocations := g_allocations g; g_active := g_active g; g_counters := g_counters g; g_users := g_users g |}.

Definition new_generator : generator := {| g_allocations := 0; g_active := 0; g_counters := no_traffic; g_users := ∅ |}.

Section gen.
Variable cfg : Config.

(** [user]: the counters of a user, made when there are none. *)
Definition user (id plan : string) (g : generator) : generator :=
  match g_users g !! id with
  | Some _ => g
  | None => g <| g_users := <[id := {| uc_plan := plan; uc_allocations := 0; uc_active := 0; uc_rejected := 0;
                                       uc_counters := no_traffic |}]> (g_users g) |>
  end.

Definition userExisting (id : string) (g : generator) : generator := user id (fst (plan_of cfg id)) g.

Definition on_user (id : string) (f : userCounters -> userCounters) (g : generator) : generator :=
  g <| g_users := alter f id (g_users g) |>.

(** The live count [quota] reads. *)
Definition active (id : string) (g : generator) : Z :=
  match g_users g !! id with Some u => uc_active u | None => 0 end.

Definition quota (username : string) (g : generator) : bool * generator :=
  let id := userIDOf cfg username in
  let '(name, plan) := plan_of cfg id in
  if MaxAllocations plan <=? 0 then (true, g)
  else
    let g := user id name g in
    if active id g <? MaxAllocations plan then (true, g)
    else (false, on_user id (fun u => u <| uc_rejected := uc_rejected u + 1 |>) g).

(** [events]. *)
Definition OnAllocationCreated (id : string) (g : generator) : generator :=
  on_user id (fun u => u <| uc_active := uc_active u + 1 |>) (userExisting id (g <| g_active := g_active g + 1 |>)).

Definition OnAllocationDeleted (id : string) (g : generator) : generator :=
  on_user id (fun u => u <| uc_active := uc_active u - 1 |>) (userExisting id (g <| g_active := g_active g - 1 |>)).

(** The socket made for an allocation: counted only, or shaped with a rate and a burst per
    direction and the longest delay. *)
Inductive relay_conn := CountingConn (user : string) | ShapedConn (user : string) (rate burst maxDelay : Z).

(** [AllocatePacketConn], when the inner generator made a socket. *)
Definition AllocatePacketConn (id : string) (g : generator) : relay_conn * generator :=
  let '(name, plan) := plan_of cfg id in
  let g := on_user id (fun u => u <| uc_allocations := uc_allocations u + 1 |>)
             (user id name g <| g_allocations := g_allocations g + 1 |>) in
  (if Rate plan <=? 0 then CountingConn id
   else ShapedConn id (Rate plan) (burstFor (Rate plan) (Burst plan)) (maxDelayFor (MaxDelay plan)), g).

(** ** Traffic *)

(** The two sinks of a socket: the server's counters and the user's. *)
Definition count (id : string) (f : counters -> counters) (g : generator) : generator :=
  on_user id (fun u => u <| uc_counters := f (uc_counters u) |>) (g <| g_counters := f (g_counters g) |>).

Definition addSent (n : Z) (c : counters) : counters :=
  c <| sentBytes := sentBytes c + n |> <| sentPackets := sentPackets c + 1 |>.
Definition addReceived (n : Z) (c : counters) : counters :=
  c <| recvBytes := recvBytes c + n |> <| recvPackets := recvPackets c + 1 |>.
Definition addDropped (n : Z) (c : counters) : counters :=
  c <| droppedBytes := droppedBytes c + n |> <| droppedPackets := droppedPackets c + 1 |>.
Definition addDelayed (c : counters) : counters := c <| delayedPackets := delayedPackets c + 1 |>.
End gen.

(** ** Statistics *)

Record UserStats := {
  us_Plan : string; us_Allocations : Z; us_Active : Z; us_SentBytes : Z; us_ReceivedBytes : Z; us_DroppedBytes : Z;
  us_DroppedPackets : Z; us_RejectedAllocations : Z
}.

Record Stats := {
  st_Allocations : Z; st_Active : Z; st_SentBytes : Z; st_SentPackets : Z; st_ReceivedBytes : Z;
  st_ReceivedPackets : Z; st_DroppedBytes : Z; st_DroppedPackets : Z; st_DelayedPackets : Z;
  st_Users : gmap string UserStats
}.

#[export] Instance Stats_eta : Eta Stats := fun s => {|
  st_Allocations := st_Allocations s; st_Active := st_Active s; st_SentBytes := st_SentBytes s;
  st_SentPackets := st_SentPackets s; st_ReceivedBytes := st_ReceivedBytes s;
  st_ReceivedPackets := st_ReceivedPackets s; st_DroppedBytes := st_DroppedBytes s;
  st_DroppedPackets := st_DroppedPackets s; st_DelayedPackets := st_DelayedPackets s; st_Users := st_Users s |}.

Definition snapshot (c : counters) : Stats := {|
  st_Allocations := 0; st_Active := 0; st_SentBytes := sentBytes c; st_SentPackets := sentPackets c;
  st_ReceivedBytes := recvBytes c; st_ReceivedPackets := recvPackets c; st_DroppedBytes := droppedBytes c;
  st_DroppedPackets := droppedPackets c; st_DelayedPackets := delayedPackets c; st_Users := ∅ |}.

Definition user_stats (u : userCounters) : UserStats :=
  let c := uc_counters u in {|
  us_Plan := uc_plan u; us_Allocations := uc_allocations u; us_Active := uc_active u; us_SentBytes := sentBytes c;
  us_ReceivedBytes := recvBytes c; us_DroppedBytes := droppedBytes c; us_DroppedPackets := droppedPackets c;
  us_RejectedAllocations := uc_rejected u |}.

(** [shapedGenerator.stats]. *)
Definition stats (g : generator) : Stats :=
  snapshot (g_counters g) <| st_Allocations := g_allocations g |> <| st_Active := g_active g |>
    <| st_Users := user_stats <$> g_users g |>.

(** The limiter of golang.org/x/time/rate, at an instant: [AllowN]; [ReserveN] with the
    delay of a reservation that is OK; [Cancel]. *)
Class Limiter (L : Type) := {
  AllowN : Z -> Z -> L -> bool * L;
  ReserveN : Z -> Z -> L -> option Z * L;
  CancelN : Z -> Z -> L -> L
}.

Section shaped.
Context {L : Type} `{Limiter L}.

(** A packet of [n] bytes, or what the socket returns instead of one. *)
Inductive arrival := Packet (n : Z) | SocketErr (n : Z) (e : error).

(** [countingConn]: [n] bytes came or went. *)
Definition counting_read (id : string) (a : arrival) (g : generator) : generator :=
  match a with
  | Packet n | SocketErr n _ => if 0 <? n then count id (addReceived n) g else g
  end.

Definition counting_write (id : string) (n : Z) (g : generator) : generator :=
  if 0 <? n then count id (addSent n) g else g.

(** One turn of the loop of [shapedConn.ReadFrom]; [None]: the packet was dropped and the
    loop goes on. The second result is how long the packet is held. *)
Definition shaped_turn (id : string) (maxDelay now : Z) (a : arrival) (inbound : L) (g : generator)
    : option (arrival * Z) * L * generator :=
  match a with
  | SocketErr _ _ => (Some (a, 0), inbound, g)
  | Packet n =>
    if n =? 0 then (Some (a, 0), inbound, g)
    else
      match ReserveN now n inbound with
      | (Some delay, inbound) =>
        if maxDelay <? delay then (None, CancelN now n inbound, count id (addDropped n) g)
        else
          let g := if 0 <? delay then count id addDelayed g else g in
          (Some (a, Z.max 0 delay), inbound, count id (addReceived n) g)
      | (None, inbound) => (None, CancelN now n inbound, count id (addDropped n) g)
      end
  end.

(** [ReadFrom] on the packets that arrive, each with its instant: what it returns and the
    packets left; [None]: it is still waiting. *)
Fixpoint shaped_read (id : string) (maxDelay : Z) (arrivals : list (Z * arrival)) (inbound : L) (g : generator)
    : option (arrival * Z) * list (Z * arrival) * L * generator :=
  match arrivals with
  | [] => (None, [], inbound, g)
  | (now, a) :: rest =>
    let '(r, inbound, g) := shaped_turn id maxDelay now a inbound g in
    match r with
    | Some out => (Some out, rest, inbound, g)
    | None => shaped_read id maxDelay rest inbound g
    end
  end.

(** [shapedConn.WriteTo] of [len] bytes; [sent] is what the socket makes of them. The
    result is the count reported to the caller. *)
Definition shaped_write (id : string) (now len : Z) (sent : Z -> Z * option error) (outbound : L) (g : generator)
    : Z * option error * L * generator :=
  let '(ok, outbound) := AllowN now len outbound in
  if negb ok then (len, None, outbound, count id (addDropped len) g)
  else
    let '(n, err) := sent len in
    (n, err, outbound, if 0 <? n then count id (addSent n) g else g).
End shaped.

(** ** Specifications of users and port ranges *)

Fixpoint parse_users (entries : list bytes) (users : gmap string User) : result error (gmap string User) :=
  match entries with
  | [] => Ok users
  | entry :: rest =>
    match trim_space entry with
    | [] => parse_users rest users
    | entry =>
      match cut (chr "=") entry with
      | Some ((_ :: _) as u, (_ :: _) as r) =>
        let '(password, plan) := default (r, []) (cut (chr ":") r) in
        match password with
        | [] => Err (EOther "relay: %q has an empty password" None)
        | _ => parse_users rest (<[string_of_list_ascii u := {| Password := string_of_list_ascii password;
                                                                UserPlan := string_of_list_ascii plan |}]> users)
        end
      | _ => Err (EOther "relay: %q is not a user=password[:plan] entry" None)
      end
    end
  end.

Definition ParseUsers (spec : string) : result error (gmap string User) :=
  parse_users (split (chr ",") (list_ascii_of_string spec)) ∅.

(** [strconv.ParseUint(s, 10, 16)]. *)
Definition ParseUint16 (s : bytes) : option Z :=
  match s with
  | [] => None
  | _ => if forallb is_digit s && (digits_val s <? 2 ^ 16) then Some (digits_val s) else None
  end.

Definition ParsePortRange (spec : string) : result error (Z * Z) :=
  match trim_space (list_ascii_of_string spec) with
  | [] => Ok (0, 0)
  | s =>
    match cut (chr "-") s with
    | None => Err (EOther "relay: %q is not a min-max port range" None)
    | Some (lo, hi) =>
      match ParseUint16 (trim_space lo) with
      | None => Err (EOther "relay: %q is not a valid port" None)
      | Some a =>
        if a =? 0 then Err (EOther "relay: %q is not a valid port" None)
        else match ParseUint16 (trim_space hi) with
        | None => Err (EOther "relay: %q is not a valid upper port" None)
        | Some b =>
          if (b =? 0) || (b <? a) then Err (EOther "relay: %q is not a valid upper port" None) else Ok (a, b)
        end
      end
    end
  end.

(** ** Sizes and plans *)

(** [strconv.ParseFloat(s, 64)], and [strconv.FormatFloat(v, 'f', 1, 64)]. *)
Class Strconv := {
  ParseFloat : bytes -> result error spec_float;
  FormatFloat : spec_float -> bytes
}.

(** The suffixes in lower case, in the order they are tried. *)
Definition multipliers : list (string * Z) :=
  [("kib", Z.shiftl 1 10); ("mib", Z.shiftl 1 20); ("gib", Z.shiftl 1 30);
   ("kb", 1000); ("mb", 1000 * 1000); ("gb", 1000 * 1000 * 1000);
   ("k", Z.shiftl 1 10); ("m", Z.shiftl 1 20); ("g", Z.shiftl 1 30); ("b", 1)]%string.

Fixpoint cut_suffix (ms : list (string * Z)) (text : bytes) : Z * bytes :=
  match ms with
  | [] => (1, text)
  | (suffix, factor) :: ms =>
    let n := (List.length text - String.length suffix)%nat in
    if (String.length suffix <? List.length text)%nat && equal_fold suffix (drop n text)
    then (factor, trim_space (take n text)) else cut_suffix ms text
  end.

(** [strconv.Atoi]. *)
Definition Atoi (s : bytes) : option Z :=
  let '(neg, digits) :=
    match s with
    | c :: r => if is_chr "-" c then (true, r) else if is_chr "+" c then (false, r) else (false, s)
    | [] => (false, [])
    end in
  match digits with
  | [] => None
  | _ =>
    if forallb is_digit digits then
      let v := if neg : bool then - digits_val digits else digits_val digits in
      if (- 2 ^ 63 <=? v) && (v <? 2 ^ 63) then Some v else None
    else None
  end.

Section sizes.
Context `{Strconv}.

Definition ParseSize (s : string) : result error Z :=
  match trim_space (list_ascii_of_string s) with
  | [] => Err (EOther "relay: an empty size" None)
  | text =>
    let '(factor, text) := cut_suffix multipliers text in
    match ParseFloat text with
    | Err e => Err (EWrap "relay: %q is not a size: %w" [e])
    | Ok value =>
      if SFltb value f_zero then Err (EOther "relay: %q is negative" None)
      else Ok (int64_of (f_mul value (f_of_Z factor)))
    end
  end.

Fixpoint parse_plans (entries : list bytes) (plans : gmap string Plan) : result error (gmap string Plan) :=
  match entries with
  | [] => Ok plans
  | entry :: rest =>
    match trim_space entry with
    | [] => parse_plans rest plans
    | entry =>
      match cut (chr "=") entry with
      | Some ((_ :: _) as name, (_ :: _) as spec) =>
        let '(rateSpec, allocSpec) :=
          match cut (chr "/") spec with Some (r, a) => (r, Some a) | None => (spec, None) end in
        match ParseSize (string_of_list_ascii rateSpec) with
        | Err e => Err (EWrap "relay: plan %q: %w" [e])
        | Ok r =>
          let add n := parse_plans rest (<[string_of_list_ascii name :=
                         {| Rate := r; Burst := 0; MaxDelay := 0; MaxAllocations := n |}]> plans) in
          match allocSpec with
          | None => add 0
          | Some a =>
            match Atoi (trim_space a) with
            | Some n => if n <? 0 then Err (EOther "relay: plan %q: %q is not an allocation count" None) else add n
            | None => Err (EOther "relay: plan %q: %q is not an allocation count" None)
            end
          end
        end
      | _ => Err (EOther "relay: %q is not a name=rate[/maxallocations] entry" None)
      end
    end
  end.

Definition ParsePlans (spec : string) : result error (gmap string Plan) :=
  parse_plans (split (chr ",") (list_ascii_of_string spec)) ∅.

(** [strconv.FormatInt(n, 10)]. *)
Definition FormatInt (n : Z) : bytes := if n <? 0 then chr "-" :: json_uint (- n) else json_uint n.

(** The loop of [FormatSize] over the suffixes. *)
Fixpoint format_loop (suffixes : list string) (value : spec_float) : bytes :=
  match suffixes with
  | [] => FormatFloat value ++ list_ascii_of_string "PiB"
  | suffix :: rest =>
    let value := f_div value (f_of_Z 1024) in
    if SFltb value (f_of_Z 1024) then FormatFloat value ++ list_ascii_of_string suffix else format_loop rest value
  end.

Definition FormatSize (n : Z) : bytes :=
  if n <? Z.shiftl 1 10 then FormatInt n ++ list_ascii_of_string "B"
  else format_loop ["KiB"; "MiB"; "GiB"; "TiB"]%string (f_of_Z n).

Definition rateString (rateBytes : Z) : bytes :=
  if rateBytes <=? 0 then list_ascii_of_string "unlimited" else FormatSize rateBytes ++ list_ascii_of_string "/s".

(** [Plan.String]. *)
Definition Plan_String (p : Plan) : bytes :=
  rateString (Rate p) ++
  (if 0 <? MaxAllocations p
   then list_ascii_of_string ", " ++ FormatInt (MaxAllocations p) ++ list_ascii_of_string " allocations" else []).

(** [UserStats.String] and [Stats.String]. *)
Definition UserStats_String (u : UserStats) : bytes :=
  mjoin [list_ascii_of_string "plan="; list_ascii_of_string (us_Plan u);
         list_ascii_of_string " allocations="; FormatInt (us_Allocations u);
         list_ascii_of_string " active="; FormatInt (us_Active u);
         list_ascii_of_string " sent="; FormatSize (us_SentBytes u);
         list_ascii_of_string " received="; FormatSize (us_ReceivedBytes u);
         list_ascii_of_string " dropped="; FormatSize (us_DroppedBytes u);
         list_ascii_of_string "/"; FormatInt (us_DroppedPackets u);
         list_ascii_of_string "pkt rejected="; FormatInt (us_RejectedAllocations u)].

Definition Stats_String (s : Stats) : bytes :=
  mjoin [list_ascii_of_string "allocations="; FormatInt (st_Allocations s);
         list_ascii_of_string " active="; FormatInt (st_Active s);
         list_ascii_of_string " sent="; FormatSize (st_SentBytes s); list_ascii_of_string "/"; FormatInt (st_SentPackets s);
         list_ascii_of_string "pkt received="; FormatSize (st_ReceivedBytes s); list_ascii_of_string "/";
         FormatInt (st_ReceivedPackets s);
         list_ascii_of_string "pkt dropped="; FormatSize (st_DroppedBytes s); list_ascii_of_string "/";
         FormatInt (st_DroppedPackets s);
         list_ascii_of_string "pkt delayed="; FormatInt (st_DelayedPackets s); list_ascii_of_string "pkt"].
End sizes.

Definition SortedUsers (s : Stats) : list string :=
  merge_sort (fun a b => Is_true (String.leb a b)) (fst <$> map_to_list (st_Users s)).
