(* ===== verification/RelayServer.v ===== *)
(** * Starting and closing the relay (relay/relay.go)

    [Start] and [Server.Close] as computations over the set of open sockets. The network
    and pion's server are outside: the class [Net] says what binding a socket and starting
    the server answer. [net.IP] is translated as far as the code uses it. The theorem says
    that no socket is leaked, and what a server that started can be relied on for. *)

From Stdlib Require Import String.
From S2P Require Import Prelude.
From S2P Require Import Errors.
From S2P Require Import Json.
From S2P Require Import Strings.
From S2P Require Import Signal.
From S2P Require Import Config.
From S2P Require Import Relay.

(** ** Addresses *)

Definition v4_prefix : bytes := replicate 10 (byte_of 0) ++ replicate 2 (byte_of 255).

(** [IP.To4]. *)
Definition To4 (ip : bytes) : option bytes :=
  if (length ip =? 4)%nat then Some ip
  else if (length ip =? 16)%nat && bool_decide (take 12 ip = v4_prefix) then Some (drop 12 ip)
  else None.

(** [IP.IsUnspecified]: the zero address of either family, in either form. *)
Definition IsUnspecified (ip : bytes) : bool :=
  match To4 ip with
  | Some ip4 => bool_decide (ip4 = replicate 4 (byte_of 0))
  | None => bool_decide (ip = replicate 16 (byte_of 0))
  end.

(** The 16-bit groups of an IPv6 address. *)
Fixpoint groups (ip : bytes) : list Z :=
  match ip with a :: b :: r => byte_val a * 256 + byte_val b :: groups r | _ => [] end.

Fixpoint zeros (l : list Z) : nat := match l with 0 :: l => S (zeros l) | _ => O end.

(** The first longest run of two or more zero groups: its start and its end. *)
Fixpoint zero_run (i : nat) (l : list Z) (best : nat * nat) : nat * nat :=
  match l with
  | [] => best
  | _ :: r =>
    let n := zeros l in
    zero_run (S i) r (if (2 <=? n)%nat && (best.2 - best.1 <? n)%nat then (i, (i + n)%nat) else best)
  end.

Fixpoint hex (fuel : nat) (z : Z) : bytes :=
  match fuel with
  | O => []
  | S f => (if z <? 16 then [] else hex f (z / 16)) ++ [hex_digit (z mod 16)]
  end.

Definition colons (l : list Z) : bytes := concat (imap (fun i g => (if (i =? 0)%nat then [] else [chr ":"]) ++ hex 4 g) l).

Definition ip6_text (ip : bytes) : bytes :=
  let gs := groups ip in
  let '(a, b) := zero_run 0 gs (0, 0)%nat in
  if (a =? b)%nat then colons gs
  else colons (take a gs) ++ list_ascii_of_string "::" ++ colons (drop b gs).

(** [IP.String]. *)
Definition IP_String (ip : bytes) : bytes :=
  match ip with
  | [] => list_ascii_of_string "<nil>"
  | _ =>
    match To4 ip with
    | Some ip4 => concat (imap (fun i b => (if (i =? 0)%nat then [] else [chr "."]) ++ json_uint (byte_val b)) ip4)
    | None =>
      if (length ip =? 16)%nat then ip6_text ip
      else chr "?" :: concat ((fun b => [hex_digit (byte_val b / 16); hex_digit (byte_val b mod 16)]) <$> ip)
    end
  end.

(** [net.JoinHostPort]. *)
Definition JoinHostPort (host port : bytes) : bytes :=
  if existsb (fun c => is_chr ":" c || is_chr "%" c) host
  then chr "[" :: host ++ chr "]" :: chr ":" :: port else host ++ chr ":" :: port.

Example addresses :
  string_of_list_ascii (IP_String (byte_of <$> [127; 0; 0; 1])) = "127.0.0.1"%string /\
  string_of_list_ascii (IP_String (byte_of <$> [32; 1; 13; 184; 0; 0; 0; 0; 0; 0; 0; 0; 0; 0; 0; 1])) = "2001:db8::1"%string /\
  string_of_list_ascii (IP_String (byte_of <$> replicate 16 0)) = "::"%string /\
  IsUnspecified (v4_prefix ++ replicate 4 (byte_of 0)) = true.
Proof. vm_compute. done. Qed.

(** ** The network *)

Record UDPAddr := { IP : bytes; Port : Z }.

(** The local address of a packet listener: a [*net.UDPAddr], or something else. *)
Inductive local_addr := LUDP (a : UDPAddr) | LOther.

Inductive socket := SUDP | STCP.

#[export] Instance socket_eq : EqDecision socket.
Proof. solve_decision. Defined.

(** The generators of pion/turn: a range of ports or any, with the address that clients
    are told and the one that is bound. *)
Inductive address_generator :=
| PortRange (relay : bytes) (min max : Z) (bind : bytes)
| Static (relay : bytes) (bind : bytes).

(** What [turn.NewServer] is given: the realm, its sockets and the inner generator. *)
Record ServerConfig := { sc_Realm : string; sc_Conns : list socket; sc_Generator : address_generator }.

(** [tcp4] addresses are given by their text. *)
Class Net := {
  ListenPacket : string -> result error local_addr;
  Listen : string -> result error bytes;
  NewServer : ServerConfig -> option error;
  CloseServer : option error
}.

Record Server := { s_cfg : Config; s_addr : UDPAddr; s_tcp : option bytes; s_srv : ServerConfig; s_gen : generator }.

Section start.
Context `{Net}.

Abbreviation M := (state_m (list socket)).

(** A socket is bound when the call succeeds. *)
Definition bind {A} (k : socket) (r : result error A) : M (result error A) :=
  match r with
  | Ok a => modify (fun open => k :: open);; mret (Ok a)
  | Err e => mret (Err e)
  end.

Definition close (k : socket) : M unit := modify (filter (fun k' => k' <> k)).

Fixpoint close_all (l : list socket) : M unit :=
  match l with [] => mret tt | k :: l => close k;; close_all l end.

(** The TCP listener, if one is asked for. *)
Definition listen_tcp (cfg : Config) : M (result error (option bytes)) :=
  if bool_decide (ListenTCP cfg = "")%string then mret (Ok None)
  else
    r ← bind STCP (Listen (ListenTCP cfg));
    match r with
    | Err e => close SUDP;; mret (Err (EWrap "relay: listen on tcp %s: %w" [e]))
    | Ok a => mret (Ok (Some a))
    end.

Definition inner (cfg : Config) (addr : UDPAddr) (relayIP : bytes) : address_generator :=
  let bindIP := if IsUnspecified (IP addr) then list_ascii_of_string "0.0.0.0" else IP_String (IP addr) in
  if negb (MinPort cfg =? 0) then PortRange relayIP (MinPort cfg) (MaxPort cfg) bindIP else Static relayIP bindIP.

(** [Start] with the UDP socket bound. *)
Definition start_serving (cfg : Config) (addr : UDPAddr) : M (result error Server) :=
  let relayIP := default (IP addr) (RelayIP cfg) in
  if IsUnspecified relayIP then
    close SUDP;; mret (Err (EOther "relay: listening on a wildcard address requires an explicit RelayIP" None))
  else
    t ← listen_tcp cfg;
    match t with
    | Err e => mret (Err e)
    | Ok tcp =>
      let sc := {| sc_Realm := Realm cfg; sc_Conns := SUDP :: match tcp with Some _ => [STCP] | None => [] end;
                   sc_Generator := inner cfg addr relayIP |} in
      match NewServer sc with
      | Some e =>
        close SUDP;;
        match tcp with Some _ => close STCP | None => mret tt end;;
        mret (Err (EWrap "relay: start the TURN server: %w" [e]))
      | None => mret (Ok {| s_cfg := cfg; s_addr := addr; s_tcp := tcp; s_srv := sc; s_gen := new_generator |})
      end
    end.

Definition Start (cfg : Config) : M (result error Server) :=
  match start_config cfg with
  | Err e => mret (Err e)
  | Ok cfg =>
    r ← bind SUDP (ListenPacket (ListenAddr cfg));
    match r with
    | Err e => mret (Err (EWrap "relay: listen on %s: %w" [e]))
    | Ok LOther => close SUDP;; mret (Err (EOther "relay: listener reported a %T address" None))
    | Ok (LUDP addr) => start_serving cfg addr
    end
  end.

(** [turn.Server.Close] closes the sockets it was given. *)
Definition Close (s : Server) : M (option error) :=
  close_all (sc_Conns (s_srv s));;
  match CloseServer with
  | Some e => mret (if errIs e ErrClosed then None else Some (EWrap "relay: close: %w" [e]))
  | None => mret None
  end.

(** ** The server's addresses *)

Definition hostPort (s : Server) : string :=
  string_of_list_ascii (JoinHostPort (IP_String (IP (s_addr s))) (json_uint (Port (s_addr s)))).

Definition STUNURL (s : Server) : string := "stun:" +:+ hostPort s.
Definition TURNURL (s : Server) : string := "turn:" +:+ hostPort s +:+ "?transport=udp".
Definition TURNTCPURL (s : Server) : string :=
  match s_tcp s with None => "" | Some a => "turn:" +:+ string_of_list_ascii a +:+ "?transport=tcp" end.
End start.

Section credentials.
Context `{Turn}.

(** [Server.IssueCredentials] at an instant. *)
Definition issue (s : Server) (now : Z) (userID : string) (ttl : Z) : result error (string * string) :=
  IssueCredentials now (AuthSecret (s_cfg s)) userID ttl.
End credentials.

(** ** What a configuration that is accepted guarantees *)

Record config_checked (cfg cfg' : Config) : Prop := {
  cc_realm : Realm cfg' <> ""%string;
  cc_same : Users cfg' = Users cfg /\ Plans cfg' = Plans cfg /\ PlanFor cfg' = PlanFor cfg /\
    MinPort cfg' = MinPort cfg /\ MaxPort cfg' = MaxPort cfg /\ ListenTCP cfg' = ListenTCP cfg;
  cc_ports : (MinPort cfg = 0 <-> MaxPort cfg = 0) /\ MinPort cfg <= MaxPort cfg;
  cc_users : forall id u, Users cfg !! id = Some u ->
    id <> ""%string /\ (UserPlan u <> ""%string -> is_Some (Plans cfg !! UserPlan u))
}.

Lemma start_config_checked cfg cfg' : start_config cfg = Ok cfg' -> config_checked cfg cfg'.
Proof.
  unfold start_config. cbv zeta.
  set (c1 := if bool_decide (Realm cfg = "")%string then cfg <| Realm := DefaultRealm |> else cfg).
  set (c2 := if bool_decide (ListenAddr c1 = "")%string then c1 <| ListenAddr := "127.0.0.1:0"%string |> else c1).
  assert (Hr : Realm c2 <> ""%string).
  { unfold c2. assert (Realm c1 <> ""%string) by (unfold c1; case_bool_decide; [discriminate|done]).
    by case_bool_decide. }
  assert (Hs : Users c2 = Users cfg /\ Plans c2 = Plans cfg /\ PlanFor c2 = PlanFor cfg /\ MinPort c2 = MinPort cfg /\
    MaxPort c2 = MaxPort cfg /\ ListenTCP c2 = ListenTCP cfg)
    by (unfold c2, c1; repeat case_bool_decide; split_and!; reflexivity).
  clearbody c2. pose proof Hs as (Hu & Hp & _ & Hmin & Hmax & _). rewrite Hu, Hp, Hmin, Hmax.
  destruct (xorb _ _ || _) eqn:Ex; [done|]. case_bool_decide as E1; [done|]. case_bool_decide as E2; [done|].
  destruct (existsb _ _) eqn:E3; [done|]. intros [= <-]. apply orb_false_iff in Ex as [Ex El].
  split; try done.
  - destruct (Z.eqb_spec (MinPort cfg) 0), (Z.eqb_spec (MaxPort cfg) 0), (Z.ltb_spec (MaxPort cfg) (MinPort cfg)); try done; lia.
  - intros id u Hid. split; [intros ->; apply E2; by eexists|]. intros Hn.
    assert (Hin : (id, u) ∈ map_to_list (Users cfg)) by (by apply elem_of_map_to_list).
    assert (Hf : negb (bool_decide (UserPlan u = ""%string)) && negb (bool_decide (is_Some (Plans cfg !! UserPlan u))) = false).
    { rewrite <- not_true_iff_false in E3. apply not_true_iff_false. intros Ht. apply E3, existsb_exists.
      exists (id, u). split; [by apply list_elem_of_In|done]. }
    rewrite bool_decide_eq_false_2 in Hf by done. cbn in Hf. apply negb_false_iff in Hf. by apply bool_decide_eq_true in Hf.
Qed.

(** A static user gets the plan named for it. *)
Lemma static_plan cfg id u p : PlanFor cfg = None -> Users cfg !! id = Some u -> UserPlan u <> ""%string ->
  Plans cfg !! UserPlan u = Some p -> plan_of cfg id = (UserPlan u, p).
Proof.
  intros Hf Hu Hn Hp. unfold plan_of, planName. rewrite Hf, Hu, bool_decide_eq_false_2 by done. cbn [negb].
  by rewrite Hp, bool_decide_eq_false_2.
Qed.

(** ** The sockets *)

Section sockets.
Context `{Net}.

(** The sockets and the address of a server. *)
Definition serves (cfg : Config) (s : Server) (open : list socket) : Prop :=
  s_cfg s = cfg /\ sc_Realm (s_srv s) = Realm cfg /\
  sc_Conns (s_srv s) = reverse open /\ open = match s_tcp s with Some _ => [STCP] | None => [] end ++ [SUDP] /\
  (is_Some (s_tcp s) <-> ListenTCP cfg <> ""%string) /\
  match sc_Generator (s_srv s) with
  | PortRange relay min max _ => IsUnspecified relay = false /\ min = MinPort cfg /\ max = MaxPort cfg /\ MinPort cfg <> 0
  | Static relay _ => IsUnspecified relay = false /\ MinPort cfg = 0
  end.

Lemma listen_tcp_spec cfg :
  match listen_tcp cfg [SUDP] with
  | (Err _, open) => open = []
  | (Ok tcp, open) => open = match tcp with Some _ => [STCP] | None => [] end ++ [SUDP] /\
      (is_Some tcp <-> ListenTCP cfg <> ""%string)
  end.
Proof.
  unfold listen_tcp. case_bool_decide as E; [by split; [|split; [intros []|]]|].
  unfold mbind, state_m_bind, bind. destruct (Listen (ListenTCP cfg)) as [a|e]; cbn; [|done].
  split; [done|]. by split; [|eexists].
Qed.

Lemma start_serving_spec cfg addr :
  match start_serving cfg addr [SUDP] with
  | (Err _, open) => open = []
  | (Ok s, open) => serves cfg s open
  end.
Proof.
  unfold start_serving. cbv zeta. destruct (IsUnspecified _) eqn:Er; [done|]. unfold mbind, state_m_bind.
  pose proof (listen_tcp_spec cfg) as Ht. destruct (listen_tcp cfg [SUDP]) as [[tcp|e] open]; [|exact Ht].
  destruct Ht as [-> Hiff]. destruct (NewServer _) as [e|]; [by destruct tcp|]. cbn [mret state_m_ret].
  split; [done|]. split; [done|]. split; [by destruct tcp|]. split; [done|]. split; [done|]. cbn. unfold inner.
  destruct (Z.eqb_spec (MinPort cfg) 0); cbn [negb]; done.
Qed.

Definition started (cfg : Config) (p : result error Server * list socket) : Prop :=
  match p with
  | (Err _, open) => open = []
  | (Ok s, open) => config_checked cfg (s_cfg s) /\ serves (s_cfg s) s open
  end.

Lemma Start_spec cfg : started cfg (Start cfg []).
Proof.
  unfold Start. destruct (start_config cfg) as [cfg'|e] eqn:Ec; [|done]. apply start_config_checked in Ec.
  unfold bind. destruct (ListenPacket (ListenAddr cfg')) as [[addr|]|e]; [|done|done].
  change (started cfg (start_serving cfg' addr [SUDP])). pose proof (start_serving_spec cfg' addr) as Hs.
  destruct (start_serving cfg' addr [SUDP]) as [[s|e] open]; [|exact Hs]. cbn. by rewrite (proj1 Hs).
Qed.

Lemma Close_spec cfg s open : serves cfg s open ->
  snd (Close s open) = [] /\
  (fst (Close s open) = None <-> match CloseServer with Some e => errIs e ErrClosed = true | None => True end).
Proof.
  intros (_ & _ & Hc & -> & _). unfold Close. rewrite Hc. unfold mbind, state_m_bind.
  destruct (s_tcp s); cbn; destruct CloseServer as [e|]; cbn; try done; by destruct (errIs e ErrClosed).
Qed.
End sockets.

(** ** The URLs *)

Definition ice (urls : list string) (user cred : string) : ICEServer := {|
  URLs := urls; Username := user; Credential := cred; CredentialType := ICECredentialPassword |}.

Lemma stun_url rest : rest <> ""%string -> url_turn ("stun:" +:+ rest) = Ok false.
Proof. by destruct rest. Qed.

Lemma turn_url rest : rest <> ""%string -> url_turn ("turn:" +:+ rest) = Ok true.
Proof. by destruct rest. Qed.

Lemma hostPort_some s : hostPort s <> ""%string.
Proof.
  unfold hostPort, JoinHostPort. destruct (existsb _ _); [discriminate|]. by destruct (IP_String _).
Qed.

Lemma urls_accepted s user cred : user <> ""%string -> cred <> ""%string ->
  validateICEServer (ice [STUNURL s] "" "") = None /\
  validateICEServer (ice (TURNURL s :: match s_tcp s with Some _ => [TURNTCPURL s] | None => [] end) user cred) = None.
Proof.
  intros Hu Hc. assert (Hlen : forall x, x <> ""%string -> (slen x =? 0) = false).
  { intros [|c x] Hx; [done|]. apply Z.eqb_neq. unfold slen. cbn [String.length]. lia. }
  assert (Ht : url_turn (TURNURL s) = Ok true).
  { apply turn_url. pose proof (hostPort_some s). by destruct (hostPort s). }
  split.
  - unfold validateICEServer, ice, STUNURL. cbn [URLs length Nat.eqb urls_turn]. by rewrite stun_url by (apply hostPort_some).
  - unfold validateICEServer, ice. cbn [URLs length Nat.eqb urls_turn]. rewrite Ht.
    assert (Hr : urls_turn match s_tcp s with Some _ => [TURNTCPURL s] | None => [] end (false || true) = Ok true).
    { unfold TURNTCPURL. destruct (s_tcp s) as [a|]; [|done]. cbn [urls_turn]. rewrite turn_url; [done|].
      by destruct (string_of_list_ascii a). }
    rewrite Hr. cbn [CredentialType Username Credential]. by rewrite (Hlen user), (Hlen cred).
Qed.


Module StartDemo.
(** A network on which everything works, and one whose TCP port is taken. *)
Definition ok : Net := {|
  ListenPacket := fun _ => Ok (LUDP {| IP := byte_of <$> [127; 0; 0; 1]; Port := 3478 |});
  Listen := fun a => Ok (list_ascii_of_string a);
  NewServer := fun _ => None;
  CloseServer := None |}.

Definition tcp_taken : Net := {|
  ListenPacket := @ListenPacket ok; Listen := fun _ => Err (EOther "address already in use" None);
  NewServer := fun _ => None; CloseServer := None |}.

Definition cfg : Config := {|
  ListenAddr := ""; ListenTCP := "127.0.0.1:3479"; Realm := ""; Users := ∅; AuthSecret := "k"; Plans := ∅;
  DefaultPlan := {| Rate := 0; Burst := 0; MaxDelay := 0; MaxAllocations := 0 |};
  PlanFor := None; RelayIP := None; MinPort := 0; MaxPort := 0 |}.
End StartDemo.

Example starts :
  match @Start StartDemo.ok StartDemo.cfg [] with
  | (Ok s, open) => TURNURL s = "turn:127.0.0.1:3478?transport=udp"%string /\ open = [STCP; SUDP]
  | _ => False
  end /\
  snd (@Start StartDemo.tcp_taken StartDemo.cfg []) = [].
Proof. vm_compute. done. Qed.
