(* ===== verification/RelayProps.v ===== *)
(** * The relay's quotas and accounts

    The step system of a TURN server that calls the relay's handlers, the quota of a plan
    and what the statistics report; issued credentials; the traffic accounts; port ranges. *)

From Stdlib Require Import SpecFloat.
From Stdlib Require Import String.
From S2P Require Import Prelude.
From S2P Require Import Errors.
From S2P Require Import Floats.
From S2P Require Import Stream.
From S2P Require Import Json.
From S2P Require Import JsonCodec.
From S2P Require Import Strings.
From S2P Require Import Relay.

(** ** The server's allocations *)

(** How many of a list are of a user. *)
Definition owned {A} (owner : A -> string) (id : string) (l : list A) : nat :=
  length (filter (fun x => owner x = id) l).

Lemma owned_app {A} (owner : A -> string) id l1 l2 :
  owned owner id (l1 ++ l2) = (owned owner id l1 + owned owner id l2)%nat.
Proof. unfold owned. by rewrite filter_app, length_app. Qed.

Lemma owned_one {A} (owner : A -> string) id x :
  owned owner id [x] = if bool_decide (owner x = id) then 1%nat else 0%nat.
Proof. unfold owned. rewrite filter_cons. case_bool_decide; case_decide; done. Qed.

Lemma owned_le {A} (owner : A -> string) id l : (owned owner id l <= length l)%nat.
Proof. apply length_filter. Qed.

Lemma owned_delete {A} (owner : A -> string) id l i x :
  l !! i = Some x -> owned owner id l = (owned owner id [x] + owned owner id (delete i l))%nat.
Proof.
  intros H. rewrite <- (take_drop_middle l i x H) at 1. rewrite (cons_middle x), delete_take_drop, !owned_app. lia.
Qed.

Lemma owned_insert {A} (owner : A -> string) id l i x y :
  l !! i = Some x -> owner y = owner x -> owned owner id (<[i := y]> l) = owned owner id l.
Proof.
  intros H E. pose proof (lookup_lt_Some _ _ _ H) as L. rewrite insert_take_drop by done.
  rewrite <- (take_drop_middle l i x H) at 3.
  rewrite (cons_middle x), (cons_middle y), !owned_app, !owned_one. by rewrite E.
Qed.

(** The server: the relay's counters; the admitted requests that are not allocations yet,
    with whether their socket is made; the live allocations, by user. *)
Record tserver := { ts_gen : generator; ts_flight : list (string * bool); ts_live : list string }.

Inductive tstep :=
  | TRequest (now : Z) (username : string)
  | TSocket (i : nat)
  | TCreated (i : nat)
  | TFailed (i : nat)
  | TDeleted (i : nat).

Section server.
Context `{Turn}.
Variable cfg : Config.
Variable limit : nat. (** the most requests in flight at a time *)

(** An Allocate request is authenticated, then put to the quota. An admitted one gets its
    socket and becomes an allocation, or fails. [None]: the step is not enabled. *)
Definition texec (s : tserver) (t : tstep) : option tserver :=
  match t with
  | TRequest now username =>
    if (limit <=? length (ts_flight s))%nat then None
    else match AuthHandler cfg now username with
    | None => Some s
    | Some (id, _) =>
      let '(ok, g) := quota cfg username (ts_gen s) in
      Some {| ts_gen := g; ts_flight := ts_flight s ++ (if ok then [(id, false)] else []); ts_live := ts_live s |}
    end
  | TSocket i =>
    '(id, made) ← ts_flight s !! i;
    if made : bool then None
    else Some {| ts_gen := snd (AllocatePacketConn cfg id (ts_gen s));
                 ts_flight := <[i := (id, true)]> (ts_flight s); ts_live := ts_live s |}
  | TCreated i =>
    '(id, made) ← ts_flight s !! i;
    if made : bool then Some {| ts_gen := OnAllocationCreated cfg id (ts_gen s);
                                ts_flight := delete i (ts_flight s); ts_live := ts_live s ++ [id] |}
    else None
  | TFailed i =>
    _ ← ts_flight s !! i;
    Some {| ts_gen := ts_gen s; ts_flight := delete i (ts_flight s); ts_live := ts_live s |}
  | TDeleted i =>
    id ← ts_live s !! i;
    Some {| ts_gen := OnAllocationDeleted cfg id (ts_gen s); ts_flight := ts_flight s;
            ts_live := delete i (ts_live s) |}
  end.

Definition tstart : tserver := {| ts_gen := new_generator; ts_flight := []; ts_live := [] |}.

Fixpoint trun (s : tserver) (ts : list tstep) : option tserver :=
  match ts with
  | [] => Some s
  | t :: ts => s ← texec s t; trun s ts
  end.
End server.

(** ** The counters *)

Definition mark (a b : string) : Z := if bool_decide (a = b) then 1 else 0.

Lemma owned_mark {A} (owner : A -> string) id x : Z.of_nat (owned owner id [x]) = mark (owner x) id.
Proof. rewrite owned_one. unfold mark. by case_bool_decide. Qed.

Lemma active_user id id' plan g : active id (user id' plan g) = active id g.
Proof.
  unfold user, active. destruct (g_users g !! id') eqn:E; [done|]. simpl.
  destruct (decide (id' = id)) as [->|N]; [by rewrite lookup_insert_eq, E|by rewrite lookup_insert_ne].
Qed.

Lemma active_on id id' f g u :
  g_users g !! id' = Some u ->
  active id (on_user id' f g) = active id g + mark id' id * (uc_active (f u) - uc_active u).
Proof.
  intros E. unfold on_user, active, mark. simpl. case_bool_decide as D.
  - subst. rewrite lookup_alter_eq, E. simpl. lia.
  - rewrite lookup_alter_ne by done. lia.
Qed.

Lemma user_known id plan g : is_Some (g_users (user id plan g) !! id).
Proof. unfold user. destruct (g_users g !! id) eqn:E; [by rewrite E|]. simpl. by rewrite lookup_insert_eq. Qed.

Lemma g_active_user id plan g : g_active (user id plan g) = g_active g.
Proof. unfold user. by destruct (g_users g !! id). Qed.

(** What each operation does to the live counts: only the events change them. *)
Lemma bump_active id id' plan d g :
  active id (on_user id' (fun u => u <| uc_active := uc_active u + d |>) (user id' plan g)) =
  active id g + mark id' id * d.
Proof.
  destruct (user_known id' plan g) as [u Hu]. rewrite (active_on _ _ _ _ u Hu), active_user. simpl. lia.
Qed.

Lemma keep_active id id' plan f g :
  (forall u, uc_active (f u) = uc_active u) -> active id (on_user id' f (user id' plan g)) = active id g.
Proof.
  intros F. destruct (user_known id' plan g) as [u Hu]. rewrite (active_on _ _ _ _ u Hu), active_user, F. lia.
Qed.

Lemma created_active cfg id id' g :
  active id (OnAllocationCreated cfg id' g) = active id g + mark id' id /\
  g_active (OnAllocationCreated cfg id' g) = g_active g + 1.
Proof.
  unfold OnAllocationCreated, userExisting. rewrite bump_active.
  split; [unfold active at 1; simpl; fold (active id g); lia|]. simpl. by rewrite g_active_user.
Qed.

Lemma deleted_active cfg id id' g :
  active id (OnAllocationDeleted cfg id' g) = active id g - mark id' id /\
  g_active (OnAllocationDeleted cfg id' g) = g_active g - 1.
Proof.
  unfold OnAllocationDeleted, userExisting.
  change (fun u : userCounters => u <| uc_active := uc_active u - 1 |>)
    with (fun u : userCounters => u <| uc_active := uc_active u + -1 |>).
  rewrite bump_active.
  split; [unfold active at 1; simpl; fold (active id g); lia|]. simpl. by rewrite g_active_user.
Qed.

Lemma socket_active cfg id id' g :
  active id (snd (AllocatePacketConn cfg id' g)) = active id g /\
  g_active (snd (AllocatePacketConn cfg id' g)) = g_active g.
Proof.
  unfold AllocatePacketConn. destruct (plan_of cfg id') as [name plan]. cbn [snd]. split.
  - set (g' := user id' name g).
    assert (E : g_users (g' <| g_allocations := g_allocations g + 1 |>) = g_users g') by done.
    destruct (user_known id' name g) as [u Hu].
    rewrite (active_on _ _ _ _ u) by exact Hu. unfold active at 1. rewrite E. fold (active id g').
    unfold g'. rewrite active_user. simpl. lia.
  - simpl. by rewrite g_active_user.
Qed.

Lemma quota_active cfg id username g :
  active id (snd (quota cfg username g)) = active id g /\ g_active (snd (quota cfg username g)) = g_active g.
Proof.
  unfold quota. destruct (plan_of cfg _) as [name plan]. destruct (_ <=? 0); [done|].
  destruct (_ <? _); cbn [snd].
  - by rewrite active_user, g_active_user.
  - rewrite keep_active by done. simpl. by rewrite g_active_user.
Qed.

(** The quota admits a request iff the plan of its user has no bound or room. *)
Lemma quota_admits cfg username g :
  let id := userIDOf cfg username in
  let plan := snd (plan_of cfg id) in
  fst (quota cfg username g) = true <-> MaxAllocations plan <= 0 \/ active id g < MaxAllocations plan.
Proof.
  simpl. unfold quota. destruct (plan_of cfg _) as [name plan]. simpl.
  destruct (Z.leb_spec (MaxAllocations plan) 0); [simpl; intuition|].
  rewrite active_user. destruct (Z.ltb_spec (active (userIDOf cfg username) g) (MaxAllocations plan)); simpl.
  - intuition.
  - split; [done|lia].
Qed.

(** ** The quota *)

(** What a user name that pion's REST handler accepts looks like. *)
Definition rest_names `{Turn} (cfg : Config) : Prop :=
  forall now username id key, TURNRESTAuth (AuthSecret cfg) now username = Some (id, key) ->
    exists expiry rest, cut (chr ":") (list_ascii_of_string username) = Some (expiry, rest) /\
                        id = string_of_list_ascii rest.

(** The quota charges the user the authentication found. *)
Lemma AuthHandler_user `{Turn} cfg now username id key :
  rest_names cfg -> AuthHandler cfg now username = Some (id, key) -> userIDOf cfg username = id.
Proof.
  intros R. unfold AuthHandler, userIDOf. destruct (Users cfg !! username) as [u|].
  - intros [= <- _]. by case_bool_decide.
  - case_bool_decide; simpl; [done|]. intros A. destruct (R _ _ _ _ A) as (e & r & E & ->).
    change (chr ":") with ":"%char in E. by rewrite E.
Qed.

Section inv.
Context `{Turn}.
Variable cfg : Config.
Variable limit : nat.

(** The counters are the live allocations, and a bounded plan is exceeded by less than the
    requests in flight. *)
Record tinv (s : tserver) : Prop := {
  ti_active : forall id, active id (ts_gen s) = Z.of_nat (owned (fun x => x) id (ts_live s));
  ti_total : g_active (ts_gen s) = Z.of_nat (length (ts_live s));
  ti_flight : (length (ts_flight s) <= limit)%nat;
  ti_quota : forall id, let n := MaxAllocations (snd (plan_of cfg id)) in 0 < n ->
    Z.of_nat (owned (fun x => x) id (ts_live s)) + Z.of_nat (owned fst id (ts_flight s)) <= n + (Z.of_nat limit - 1)
}.

Lemma tinv_start : tinv tstart.
Proof. split; simpl; [done|done|lia|]. intros id Hn. unfold owned. simpl. lia. Qed.

Lemma owned_id id x : Z.of_nat (owned (fun y : string => y) id [x]) = mark x id.
Proof. apply owned_mark. Qed.

(** A step that leaves the live allocations and adds no request in flight. *)
Lemma tinv_quiet s g flight :
  tinv s -> (forall id, active id g = active id (ts_gen s) /\ g_active g = g_active (ts_gen s)) ->
  (length flight <= length (ts_flight s))%nat ->
  (forall id, (owned fst id flight <= owned fst id (ts_flight s))%nat) ->
  tinv {| ts_gen := g; ts_flight := flight; ts_live := ts_live s |}.
Proof.
  intros [A T F Q] G L O. split; simpl.
  - intros id. by rewrite (proj1 (G id)).
  - by rewrite (proj2 (G ""%string)).
  - lia.
  - intros id Hn. specialize (O id). specialize (Q id Hn). simpl in Q. lia.
Qed.

Lemma tinv_request s now username s' :
  rest_names cfg -> tinv s -> texec cfg limit s (TRequest now username) = Some s' -> tinv s'.
Proof.
  intros R I. simpl. destruct (Nat.leb_spec limit (length (ts_flight s))) as [|L]; [done|].
  destruct (AuthHandler cfg now username) as [[id key]|] eqn:A; [|by intros [= <-]].
  destruct (quota cfg username (ts_gen s)) as [ok g] eqn:G. intros E. apply Some_inj in E. rewrite <- E.
  assert (K : forall i, active i g = active i (ts_gen s) /\ g_active g = g_active (ts_gen s))
    by (intros i; pose proof (quota_active cfg i username (ts_gen s)) as K; by rewrite G in K).
  destruct ok; [|apply tinv_quiet; try done; rewrite app_nil_r; lia].
  pose proof (quota_admits cfg username (ts_gen s)) as Ad. rewrite G, (AuthHandler_user _ _ _ _ _ R A) in Ad.
  simpl in Ad. destruct Ad as [Ad _]. specialize (Ad eq_refl). destruct I as [Ac T F Q].
  split; simpl; [intros i; by rewrite (proj1 (K i))|by rewrite (proj2 (K ""%string))|rewrite length_app; simpl; lia|].
  intros i Hn. rewrite owned_app, Nat2Z.inj_add, owned_mark. simpl. unfold mark. case_bool_decide as D.
  - subst i. rewrite Ac in Ad. pose proof (owned_le fst id (ts_flight s)). lia.
  - specialize (Q i Hn). simpl in Q. lia.
Qed.

Lemma tinv_socket s i s' : tinv s -> texec cfg limit s (TSocket i) = Some s' -> tinv s'.
Proof.
  intros I. simpl. destruct (ts_flight s !! i) as [[id made]|] eqn:E; [|done]. simpl. destruct made; [done|].
  intros X. apply Some_inj in X. rewrite <- X. apply tinv_quiet; [done| | |].
  - intros j. apply socket_active.
  - by rewrite length_insert.
  - intros j. by rewrite (owned_insert fst j _ _ _ _ E).
Qed.

Lemma tinv_created s i s' : tinv s -> texec cfg limit s (TCreated i) = Some s' -> tinv s'.
Proof.
  intros [Ac T F Q]. simpl. destruct (ts_flight s !! i) as [[id made]|] eqn:E; [|done]. simpl. destruct made; [|done].
  intros X. apply Some_inj in X. rewrite <- X.
  pose proof (length_delete (ts_flight s) i ltac:(eauto)) as Ld.
  split; cbn [ts_gen ts_flight ts_live].
  - intros j. rewrite (proj1 (created_active cfg j id _)), owned_app, Nat2Z.inj_add, owned_id, Ac. done.
  - rewrite (proj2 (created_active cfg id id _)), length_app, T. simpl. lia.
  - lia.
  - intros j Hn. specialize (Q j Hn). simpl in Q.
    pose proof (f_equal Z.of_nat (owned_delete fst j (ts_flight s) i _ E)) as D.
    rewrite Nat2Z.inj_add, owned_mark in D. rewrite owned_app, Nat2Z.inj_add, owned_id. simpl in D. lia.
Qed.

Lemma tinv_deleted s i s' : tinv s -> texec cfg limit s (TDeleted i) = Some s' -> tinv s'.
Proof.
  intros [Ac T F Q]. simpl. destruct (ts_live s !! i) as [id|] eqn:E; [|done]. simpl.
  intros X. apply Some_inj in X. rewrite <- X.
  pose proof (fun j => f_equal Z.of_nat (owned_delete (fun x => x) j (ts_live s) i _ E)) as D.
  pose proof (length_delete (ts_live s) i ltac:(eauto)) as Ld.
  pose proof (lookup_lt_Some _ _ _ E) as Lt.
  split; cbn [ts_gen ts_flight ts_live].
  - intros j. specialize (D j). rewrite Nat2Z.inj_add, owned_id in D.
    rewrite (proj1 (deleted_active cfg j id _)), Ac. lia.
  - rewrite (proj2 (deleted_active cfg id id _)), T. lia.
  - done.
  - intros j Hn. specialize (Q j Hn). simpl in Q. specialize (D j). lia.
Qed.

Lemma tinv_step s t s' : rest_names cfg -> tinv s -> texec cfg limit s t = Some s' -> tinv s'.
Proof.
  intros R I. destruct t as [now username|i|i|i|i].
  - by apply tinv_request.
  - by apply tinv_socket.
  - by apply tinv_created.
  - simpl. destruct (ts_flight s !! i) as [[id made]|] eqn:E; [|done]. simpl.
    intros X. apply Some_inj in X. rewrite <- X. apply tinv_quiet; [done..| |].
    + rewrite length_delete by eauto. lia.
    + intros j. rewrite (owned_delete fst j (ts_flight s) i _ E). lia.
  - by apply tinv_deleted.
Qed.

Lemma tinv_run ts : forall s s', rest_names cfg -> tinv s -> trun cfg limit s ts = Some s' -> tinv s'.
Proof.
  induction ts as [|t ts IH]; simpl; intros s s' R I E; [by injection E as <-|].
  destruct (texec cfg limit s t) as [s1|] eqn:T; [|done]. apply (IH s1); [done| |done]. by apply (tinv_step s t).
Qed.
End inv.

(** ** The property *)

(** C40. The quota of a plan holds, and the statistics are true. Whatever requests, sockets,
    failures and releases the TURN server runs, and in whatever order, the active count the
    statistics report is the number of live allocations, in all and for each user, and a
    user whose plan bounds its allocations never holds more than that bound plus one less
    than the requests the server has in flight at a time: exactly the bound when admission
    and creation do not overlap. The quota refuses nobody else: a request is admitted
    whenever its user's plan has room. *)
Theorem quota_enforced `{Turn} (cfg : Config) (limit : nat) (ts : list tstep) (s : tserver) :
  rest_names cfg -> trun cfg limit tstart ts = Some s ->
  st_Active (stats (ts_gen s)) = Z.of_nat (length (ts_live s)) /\
  (forall id u, st_Users (stats (ts_gen s)) !! id = Some u ->
     us_Active u = Z.of_nat (owned (fun x => x) id (ts_live s))) /\
  (forall id, 0 < MaxAllocations (snd (plan_of cfg id)) ->
     Z.of_nat (owned (fun x => x) id (ts_live s)) <= MaxAllocations (snd (plan_of cfg id)) + (Z.of_nat limit - 1)) /\
  (forall now username id key, AuthHandler cfg now username = Some (id, key) ->
     (fst (quota cfg username (ts_gen s)) = true <->
      MaxAllocations (snd (plan_of cfg id)) <= 0 \/
      Z.of_nat (owned (fun x => x) id (ts_live s)) < MaxAllocations (snd (plan_of cfg id)))).
Proof.
  intros R E. pose proof (tinv_run cfg limit ts _ _ R (tinv_start cfg limit) E) as [A T F Q].
  split; [done|]. split; [|split].
  - intros id u. simpl. rewrite lookup_fmap, fmap_Some. intros (c & Hc & ->). rewrite <- A.
    unfold active. by rewrite Hc.
  - intros id Hn. specialize (Q id Hn). simpl in Q. lia.
  - intros now username id key Au. pose proof (quota_admits cfg username (ts_gen s)) as Ad.
    simpl in Ad. by rewrite (AuthHandler_user _ _ _ _ _ R Au), A in Ad.
Qed.

(** ** A server with two users on a plan of one allocation *)

Module QuotaDemo.

(** Credentials that are the user name after the expiry. *)
#[local] Instance turn : Turn := {|
  GenerateAuthKey := fun user realm password => list_ascii_of_string (user ++ realm ++ password)%string;
  TURNRESTAuth := fun secret now username =>
    match cut (chr ":") (list_ascii_of_string username) with
    | Some (_, id) => Some (string_of_list_ascii id, list_ascii_of_string secret)
    | None => None
    end;
  TURNRESTCredentials := fun secret now user ttl => Ok (("99:" ++ user)%string, secret)
|}.

Definition free : Plan := {| Rate := 524288; Burst := 0; MaxDelay := 0; MaxAllocations := 1 |}.

Definition cfg : Config := {|
  ListenAddr := ""; ListenTCP := ""; Realm := DefaultRealm;
  Users := {[ "bob"%string := {| Password := "pw"; UserPlan := "free" |} ]}; AuthSecret := "k";
  Plans := {[ "free"%string := free ]}; DefaultPlan := {| Rate := 0; Burst := 0; MaxDelay := 0; MaxAllocations := 0 |};
  PlanFor := None; RelayIP := None; MinPort := 0; MaxPort := 0 |}.

Lemma names : rest_names cfg.
Proof.
  intros now username id key. unfold TURNRESTAuth, turn.
  destruct (cut (chr ":") (list_ascii_of_string username)) as [[e r]|]; [|done].
  intros [= <- _]. by exists e, r.
Qed.

(** Bob and the ephemeral user alice@free allocate once; bob's second request is refused
    until he releases. *)
Definition steps : list tstep :=
  [TRequest 0 "bob"; TSocket 0; TCreated 0; TRequest 0 "99:alice@free"; TSocket 0; TCreated 0;
   TRequest 0 "bob"; TRequest 0 "eve"; TDeleted 0; TRequest 0 "bob"].

Definition last : tserver := Eval vm_compute in default tstart (trun cfg 1 tstart steps).

Example runs : trun cfg 1 tstart steps = Some last /\ ts_live last = ["alice@free"%string] /\
  ts_flight last = [("bob"%string, false)] /\
  option_map us_RejectedAllocations (st_Users (stats (ts_gen last)) !! "bob"%string) = Some 1.
Proof. split_and!; vm_compute; reflexivity. Qed.

(** Two requests of one user that overlap are both admitted on a plan of one allocation. *)
Example quota_race :
  option_map ts_live (trun cfg 2 tstart [TRequest 0 "bob"; TRequest 0 "bob"; TSocket 0; TCreated 0; TSocket 0; TCreated 0])
    = Some ["bob"%string; "bob"%string].
Proof. reflexivity. Qed.
End QuotaDemo.

#[local] Existing Instance QuotaDemo.turn.

Lemma quota_enforced_witness :
  rest_names QuotaDemo.cfg /\ trun QuotaDemo.cfg 1 tstart QuotaDemo.steps = Some QuotaDemo.last /\
  Z.of_nat (owned (fun x => x) "alice@free"%string (ts_live QuotaDemo.last)) <= 1.
Proof.
  split; [exact QuotaDemo.names|]. split; [reflexivity|].
  destruct (quota_enforced QuotaDemo.cfg 1 QuotaDemo.steps QuotaDemo.last QuotaDemo.names eq_refl) as (_ & _ & Q & _).
  refine (Z.le_trans _ _ _ (Q "alice@free"%string _) _); vm_compute; [reflexivity|discriminate].
Defined.

(** ** Traffic and port ranges *)

Section traffic.
Context {L : Type} `{Limiter L}.

(** The bytes of the packets among the arrivals. *)
Definition arrived (l : list (Z * arrival)) : Z :=
  foldr (fun a n => (match a.2 with Packet k => k | SocketErr _ _ => 0 end) + n) 0 l.

Definition accounted (g : generator) : Z := recvBytes (g_counters g) + droppedBytes (g_counters g).

(** A shaped socket accounts for every byte it takes from the wire: what [ReadFrom]
    consumed was received or dropped, and what it did not return was dropped. *)
Lemma shaped_read_accounts id maxDelay arrivals : forall inbound g out rest inbound' g',
  shaped_read id maxDelay arrivals inbound g = (out, rest, inbound', g') ->
  (exists used, arrivals = used ++ rest /\ accounted g' = accounted g + arrived used) /\
  (out = None -> rest = [] /\ recvBytes (g_counters g') = recvBytes (g_counters g)).
Proof.
  induction arrivals as [|[now a] arrivals IH]; intros inbound g out rest inbound' g'; simpl.
  { intros [= <- <- <- <-]. split; [|done]. exists []. unfold accounted. simpl. split; [done|lia]. }
  assert (Done : forall h n, accounted h = accounted g + n -> (match a with Packet k => k | SocketErr _ _ => 0 end) = n ->
    exists used, (now, a) :: arrivals = used ++ arrivals /\ accounted h = accounted g + arrived used)
    by (intros h n A N; exists [(now, a)]; simpl; split; [done|lia]).
  destruct a as [n|n e]; simpl; [|intros [= <- <- <- <-]; split; [apply (Done _ 0); [lia|done]|done]].
  destruct (Z.eqb_spec n 0) as [->|N]; [intros [= <- <- <- <-]; split; [apply (Done _ 0); [lia|done]|done]|].
  assert (Drop : forall inbound1, shaped_read id maxDelay arrivals inbound1 (count id (addDropped n) g) =
      (out, rest, inbound', g') ->
    (exists used, (now, Packet n) :: arrivals = used ++ rest /\ accounted g' = accounted g + arrived used) /\
    (out = None -> rest = [] /\ recvBytes (g_counters g') = recvBytes (g_counters g))).
  { intros i1 E. apply IH in E as [(used & -> & Ac) R]. split; [|exact R].
    exists ((now, Packet n) :: used). split; [done|]. rewrite Ac. unfold accounted. simpl. lia. }
  destruct (ReserveN now n inbound) as [[delay|] inbound1]; [destruct (maxDelay <? delay)|]; [by apply Drop| |by apply Drop].
  intros [= <- <- <- <-]. split; [|done]. apply (Done _ n); [|done].
  unfold accounted. destruct (0 <? delay); simpl; lia.
Qed.
End traffic.

Lemma ParseUint16_bounds s v : ParseUint16 s = Some v -> 0 <= v < 2 ^ 16.
Proof.
  unfold ParseUint16. destruct s as [|c s]; [done|].
  destruct (forallb is_digit (c :: s)) eqn:D; [|done]. destruct (Z.ltb_spec (digits_val (c :: s)) (2 ^ 16)); [|done].
  intros [= <-]. split; [|done]. by apply digits_val_nonneg.
Qed.

(** A parsed range is absent or a non-empty range of ports, so [Start] accepts it. *)
Lemma ParsePortRange_bounds spec a b :
  ParsePortRange spec = Ok (a, b) -> (a = 0 /\ b = 0) \/ (1 <= a <= b /\ b < 2 ^ 16).
Proof.
  unfold ParsePortRange. destruct (trim_space _) as [|c s]; [by intros [= <- <-]; left|].
  destruct (cut (chr "-") (c :: s)) as [[lo hi]|]; [|done].
  destruct (ParseUint16 (trim_space lo)) as [x|] eqn:X; [|done]. destruct (Z.eqb_spec x 0); [done|].
  destruct (ParseUint16 (trim_space hi)) as [y|] eqn:Y; [|done].
  destruct (Z.eqb_spec y 0); [done|]. destruct (Z.ltb_spec y x); [done|]. simpl.
  intros [= <- <-]. apply ParseUint16_bounds in X, Y. right. lia.
Qed.

(** ** Sizes *)

Module SizeDemo.

(** Integers and NaN, as [strconv.ParseFloat] reads them. *)
#[local] Instance strconv : Strconv := {|
  ParseFloat := fun s =>
    if bool_decide (s = list_ascii_of_string "NaN") then Ok S754_nan
    else match s with
         | [] => Err (EOther "invalid syntax" None)
         | _ => if forallb is_digit s then Ok (f_of_Z (digits_val s)) else Err (EOther "invalid syntax" None)
         end;
  FormatFloat := fun v => json_uint (int64_of v) ++ list_ascii_of_string ".0"
|}.

Example sizes :
  ParseSize " 512KiB " = Ok 524288 /\ ParseSize "8 mb" = Ok 8000000 /\ ParseSize "7" = Ok 7 /\
  string_of_list_ascii (FormatSize 524288) = "512.0KiB"%string /\
  string_of_list_ascii (FormatSize (-5)) = "-5B"%string /\
  ParsePlans "free=512KiB/4,paid=8MiB" =
    Ok {[ "free"%string := {| Rate := 524288; Burst := 0; MaxDelay := 0; MaxAllocations := 4 |};
          "paid"%string := {| Rate := 8388608; Burst := 0; MaxDelay := 0; MaxAllocations := 0 |} ]}.
Proof. split_and!; vm_compute; reflexivity. Qed.

(** A rate of NaN passes the test for negative values and becomes the least [int64], which
    is no limit at all. *)
Example nan_rate_unlimited :
  ParseSize "NaN" = Ok (- 2 ^ 63) /\
  match ParseSize "NaN" with
  | Ok r => string_of_list_ascii (rateString r) = "unlimited"%string
  | Err _ => False
  end.
Proof. split; vm_compute; reflexivity. Qed.
End SizeDemo.
